(* ===== verification/_CoqProject ===== *)
-Q . S2P
Prelude.v
CLib.v
Edify.v
Bytes.v
Bz2.v
BsPatch.v
BsDiff.v
SufSort.v
ZlibSha.v
ImgPatch.v
ImgDiff.v
ImgRoundTrip.v
DiffTools.v
Retouch.v
World.v
Mtd.v
Volumes.v
Cache.v
FreeCache.v
ApplyPatch.v
Hash.v
Zip.v
ZipData.v
DirUtil.v
ZipExtract.v
Verifier.v
MtdUtils.v
MtdSession.v
FlashPatch.v
BootMessage.v
FlashMessage.v
MmcUtils.v
FlashUtils.v
FlashRestore.v
Floats.v
Updater.v
UpdaterTypes.v
UpdaterChecks.v
UpdaterScripts.v
