(* ===== verification/Prelude.v ===== *)
(** Verification of the touch recovery: patches, packages, update scripts, volumes and flash partitions.

    * The program

    A recovery image starts when the boot loader finds the word for it in the boot control block ([bootloader.c],
    [recovery.c]).  It reads its table of volumes ([roots.c]) and the mounts of the kernel ([mounts.c]), checks the
    signature of an update package ([verifier.c]), opens the package as a zip archive ([minzip]) and runs the update
    program in it ([updater]).  That program parses a script and evaluates it with the interpreter of [edify]; the functions of the
    script extract files, patch files and partitions ([applypatch]), and write flash partitions ([flashutils] over
    [mtdutils], [mmcutils] and [bmlutils]).  The patches are made on a host by [bsdiff] and [imgdiff], in the same directory
    as the code that applies them.

    * The files, and the sources they model

    - this file: integers of a width, memory accesses ([run]), state and error monads and their triples;
      [CLib]: strings, [strtol], [qsort], [bsearch]; [Floats]: [strtod] and [printf] of doubles;
      [Bytes]: memory objects and little-endian integers ([applypatch/utils.c], [minzip/Bits.h]);
      [World]: the files, block devices and flash memory calls work on, and their triples.
    - [Edify]: [edify/expr.c].  [Updater]: [updater/install.c] and [updater/updater.c]; [UpdaterTypes], [UpdaterChecks] and
      [UpdaterScripts]: the properties of scripts.
    - [BsDiff], [SufSort]: [applypatch/bsdiff.c]; [ImgDiff]: [applypatch/imgdiff.c]; [BsPatch]: [applypatch/bspatch.c];
      [ImgPatch]: [applypatch/imgpatch.c]; [ImgRoundTrip], [DiffTools]: that what is made can be applied.
    - [Retouch]: [minelf/Retouch.c].  [Cache], [FreeCache]: [applypatch/freecache.c].  [ApplyPatch]: [applypatch/applypatch.c].
    - [Hash], [Zip], [ZipData], [ZipExtract], [DirUtil]: [minzip]: the hash table, the directory of an archive, the contents of
      entries, unpacking, and directory trees.  [Verifier]: [verifier.c].
    - [Volumes]: [roots.c] and [mounts.c].  [BootMessage]: [bootloader.c] and the arguments, logs and end of [recovery.c].
    - [Mtd]: flash partitions as their callers see them and the driver below; [MtdUtils]: [mtdutils/mtdutils.c];
      [MtdSession]: what its operations promise together.  [MmcUtils]: [mmcutils/mmcutils.c].  [FlashUtils]:
      [bmlutils/bmlutils.c], [flashutils/flashutils.c], the commands of [mtdutils.c] and the three programs.
      [FlashPatch], [FlashMessage], [FlashRestore]: patches, the boot control block and images on flash partitions, with the
      callers' theorems instantiated by the implementation of [MtdUtils].
    * How a function corresponds to its source

    A definition has the name of the C function it models; a loop has a name of its own.  Computations on memory are [run]:
    a result, [Fault] for an access outside an object, or [OutOfFuel].  Computations on the system are [io]: each system call
    takes one number from a list of choices, which decides whether and how far it succeeds; when the list is empty the power
    fails and the run stops in the state reached ([Stop]).  A theorem for all lists of choices is one for every failure and every
    interruption.  The interpreter's functions are [M State], with the system in the state's [cookie].  Integers are [Z] with the
    conversions written out where the code converts or may overflow; the width of [long] and [size_t] is the class [Abi].

    * Interfaces

    What is not in the repository is a class, with its documented behaviour as a class of laws: [Bz2] (libbz2), [Zlib] with
    [InflateLaws], [DeflateLaws], [InflateSound] and [DeflateStarts], [Crc], [Sha], [Rsa] (libmincrypt), [SafeIop] (checked
    arithmetic), [Kernel] with [KernelLaws] (mounts), [Vfs] with [VfsLaws] (directories and links), [MtdDriver] with its laws
    (flash chips), [Platform] with [PlatformLaws] (memory, programs, properties).  Every class has an instance the witnesses use.
    Between components: [Mtd] with [MtdFrame] and [MtdReads] is what [applypatch.c], [bootloader.c] and [install.c] need of flash
    partitions, and [CacheSpace] what [applypatch.c] needs of the cache; [MtdUtils] and [FreeCache] implement them.

    * The theorems

    - Patches: what [bsdiff] and [imgdiff] write, the device turns back into the new file; patching a regular file
      with a patch that is not in the image format loses no data wherever it is interrupted, also when it is called by a script.
    - Packages: the parser of archives stays inside the map (where sums of pointers do not wrap), finds exactly the entries of the
      directory, hands on exactly the contents, and unpacks exactly the entries under a directory; a package is accepted only with a
      signature for what is parsed, and one that is signed is accepted when no call fails.
    - Scripts: evaluation does what the language says, has no undefined behaviour, and its values have types; scripts that look
      change nothing; the functions on files and properties do what they report.
    - The hash table refines a multiset of hashed items, through insertions, deletions and rehashing.
    - Volumes and boot: the tables of volumes and mounts are read back exactly; a volume reported as mounted is mounted; an
      interrupted installation is started again until it has ended, and the message is cleared then, when the calls for the
      message do not fail.
    - Flash: what is written is read back, however the bad units are spread, when no call on a good unit fails; a reported success
      means a stored image unless errors of the chip were counted; the tables of an eMMC are read completely and within bounds.
    Each theorem's comment says under which conditions it holds; where the code fails without them, a lemma next to the theorem
    shows it.
    Other errors of the code the model shows are stated as lemmas, too.

    * Bounds and fuel

    Loops on memory take the size of the object as fuel, and theorems say that this is enough ([run] gives [Done]).  Loops on
    the system that end only when calls stop failing take the number of choices.  [loop_fuel], for archives and trees in scripts,
    is a parameter; theorems that need it large say how large.

    * Not modelled

    Screen, touch and menus ([ui.c], [minui], [extendedcommands.c], [eraseandformat.c], [default_recovery_*.c]), which show and
    choose; the backup front end [nandroid.c], the script front end [edifyscripting.c] and [install.c], which build commands and run
    programs; [minadbd], a copy of the adb daemon; [libcrecovery], copies of C library functions; the flex and bison grammar of
    [edify], whose generated parser is a parameter of [updater_main]; the standalone program [bml_over_mtd.c]; [firmware.c],
    [power.c] and [setprop.c], a few calls each; the formatting of volumes in [roots.c]; test programs.  Text on the standard error
    output and in logs is left out where nothing depends on it. *)
From stdpp Require Export base tactics numbers list option gmap strings pretty.
From Stdlib Require Export ZArith Lia Ascii Sorted.
#[global] Open Scope Z_scope.

(** * Machine integers

    A C integer is a [Z] in the range of its type; [wrap_u w] and [wrap_s w]
    are the conversions to an unsigned and a two's complement signed type of
    [w] bits. *)

Definition wrap_u (w z : Z) : Z := z mod 2 ^ w.
Definition wrap_s (w z : Z) : Z := (z + 2 ^ (w - 1)) mod 2 ^ w - 2 ^ (w - 1).

Definition in_u (w z : Z) : Prop := 0 ≤ z < 2 ^ w.
Definition in_s (w z : Z) : Prop := - 2 ^ (w - 1) ≤ z < 2 ^ (w - 1).

Abbreviation u8 := (wrap_u 8) (only parsing).
Abbreviation u16 := (wrap_u 16) (only parsing).
Abbreviation u32 := (wrap_u 32) (only parsing).
Abbreviation s32 := (wrap_s 32) (only parsing).
Abbreviation u64 := (wrap_u 64) (only parsing).
Abbreviation s64 := (wrap_s 64) (only parsing).

Definition INT_MAX : Z := 2147483647.
Definition UINT_MAX : Z := 4294967295.

#[global] Instance in_u_dec w z : Decision (in_u w z).
Proof. unfold in_u. apply _. Defined.
#[global] Instance in_s_dec w z : Decision (in_s w z).
Proof. unfold in_s. apply _. Defined.

Lemma wrap_u_range w z : 0 ≤ w → in_u w (wrap_u w z).
Proof. intros. apply Z.mod_pos_bound. lia. Qed.

Lemma wrap_u_id w z : in_u w z → wrap_u w z = z.
Proof. apply Z.mod_small. Qed.

Lemma wrap_s_range w z : 0 < w → in_s w (wrap_s w z).
Proof.
  intros Hw. unfold in_s, wrap_s.
  assert (2 ^ w = 2 * 2 ^ (w - 1)) as E.
  { replace w with (1 + (w - 1)) at 1 by lia. rewrite Z.pow_add_r by lia. lia. }
  pose proof (Z.mod_pos_bound (z + 2 ^ (w - 1)) (2 ^ w) ltac:(lia)). lia.
Qed.

Lemma wrap_s_id w z : 0 < w → in_s w z → wrap_s w z = z.
Proof.
  intros Hw [? ?]. unfold wrap_s.
  assert (2 ^ w = 2 * 2 ^ (w - 1)) as E.
  { replace w with (1 + (w - 1)) at 1 by lia. rewrite Z.pow_add_r by lia. lia. }
  rewrite Z.mod_small by lia. lia.
Qed.

(** The size of [long], [size_t], [off_t] and pointers: 32 bits on the device
    builds of the recovery, 64 bits on the hosts that build packages. *)
Class Abi := {
  long_bits : Z;
  long_bits_ok : long_bits = 32 ∨ long_bits = 64
}.
Definition abi32 : Abi := {| long_bits := 32; long_bits_ok := or_introl eq_refl |}.
Definition abi64 : Abi := {| long_bits := 64; long_bits_ok := or_intror eq_refl |}.

Definition LONG_MAX `{Abi} : Z := 2 ^ (long_bits - 1) - 1.
Definition LONG_MIN `{Abi} : Z := - 2 ^ (long_bits - 1).

(** A value of type [size_t]. *)
Definition size_t `{Abi} (z : Z) : Z := wrap_u long_bits z.

Lemma size_t_id `{Abi} z : 0 ≤ z ≤ INT_MAX → size_t z = z.
Proof.
  intros. apply wrap_u_id. unfold in_u, INT_MAX in *. destruct long_bits_ok as [-> | ->]; lia.
Qed.

(** * Effects

    [M S A] is a computation on a state [S] that returns an [A]; [None] is a
    memory fault (an access outside an object, or another behaviour that the C
    language leaves undefined), after which nothing can be said.  Errors the
    program reports are ordinary values of [A]. *)

Definition M (S A : Type) : Type := S → option (A * S).

#[global] Instance M_ret {S} : MRet (M S) := λ A a s, Some (a, s).
#[global] Instance M_bind {S} : MBind (M S) := λ A B f m s,
  match m s with
  | Some (a, s') => f a s'
  | None => None
  end.

Definition fault {S A} : M S A := λ _, None.
Definition get {S} : M S S := λ s, Some (s, s).
Definition modify {S} (f : S → S) : M S unit := λ s, Some (tt, f s).
(** A read that faults when the access is out of bounds. *)
Definition of_option {S A} (o : option A) : M S A := λ s,
  match o with Some a => Some (a, s) | None => None end.

Lemma bind_ret_l {S A B} (a : A) (f : A → M S B) s : (mret a ≫= f) s = f a s.
Proof. done. Qed.
Lemma bind_some {S A B} (m : M S A) (f : A → M S B) s a s' :
  m s = Some (a, s') → (m ≫= f) s = f a s'.
Proof. intros E. unfold mbind, M_bind. by rewrite E. Qed.
Lemma bind_none {S A B} (m : M S A) (f : A → M S B) s :
  m s = None → (m ≫= f) s = None.
Proof. intros E. unfold mbind, M_bind. by rewrite E. Qed.
Lemma bind_inv {S A B} (m : M S A) (f : A → M S B) s b s'' :
  (m ≫= f) s = Some (b, s'') →
  ∃ a s', m s = Some (a, s') ∧ f a s' = Some (b, s'').
Proof.
  unfold mbind, M_bind. destruct (m s) as [[a s']|] eqn:E; [|done]. eauto.
Qed.
Lemma bind_safe {S A B} (m : M S A) (f : A → M S B) s :
  is_Some (m s) → (∀ a s', m s = Some (a, s') → is_Some (f a s')) →
  is_Some ((m ≫= f) s).
Proof. intros [[a s'] E] Hf. rewrite (bind_some _ _ _ _ _ E). by apply Hf. Qed.

(** ** Total correctness

    [triple P m Q]: from a state that satisfies [P] the computation [m] does
    not fault, and its result and final state satisfy [Q]. *)
Definition triple {S A} (P : S → Prop) (m : M S A) (Q : A → S → Prop) : Prop :=
  ∀ s, P s → ∃ a s', m s = Some (a, s') ∧ Q a s'.

Lemma triple_ret {S A} (P : S → Prop) (a : A) (Q : A → S → Prop) :
  (∀ s, P s → Q a s) → triple P (mret a) Q.
Proof. intros HQ s HP. exists a, s. auto. Qed.
Lemma triple_bind {S A B} P (m : M S A) Q (f : A → M S B) R :
  triple P m Q → (∀ a, triple (Q a) (f a) R) → triple P (m ≫= f) R.
Proof.
  intros Hm Hf s HP. destruct (Hm s HP) as (a & s' & E & HQ).
  destruct (Hf a s' HQ) as (b & s'' & E' & HR). exists b, s''.
  by rewrite (bind_some _ _ _ _ _ E).
Qed.
Lemma triple_modify {S} (P : S → Prop) (f : S → S) (Q : unit → S → Prop) :
  (∀ s, P s → Q tt (f s)) → triple P (modify f) Q.
Proof. intros HQ s HP. exists tt, (f s). auto. Qed.
Lemma triple_get {S} (P : S → Prop) (Q : S → S → Prop) :
  (∀ s, P s → Q s s) → triple P get Q.
Proof. intros HQ s HP. exists s, s. auto. Qed.
Lemma triple_of_option {S A} (P : S → Prop) (o : option A) (a : A) (Q : A → S → Prop) :
  o = Some a → (∀ s, P s → Q a s) → triple P (of_option o) Q.
Proof. intros -> HQ s HP. exists a, s. auto. Qed.
Lemma triple_pure {S A} (P : S → Prop) (φ : Prop) (m : M S A) (Q : A → S → Prop) :
  (φ → triple P m Q) → triple (λ s, P s ∧ φ) m Q.
Proof. intros Hm s [??]. by apply Hm. Qed.
Lemma triple_conseq {S A} (P P' : S → Prop) (m : M S A) (Q Q' : A → S → Prop) :
  triple P' m Q' → (∀ s, P s → P' s) → (∀ a s, Q' a s → Q a s) → triple P m Q.
Proof. intros Hm HP HQ s Hs. destruct (Hm s (HP s Hs)) as (a & s' & ? & ?). eauto. Qed.

(** Runs the next statement of a symbolic execution hypothesis. *)
Ltac m_step H :=
  let a := fresh "a" in let s := fresh "s" in let E := fresh "E" in
  apply bind_inv in H; destruct H as (a & s & E & H).

(** ** Computations with loops

    The outcome of C code on memory the model passes as values: it may also
    read or write outside an object, or run out of the fuel given to its
    loops. *)
Inductive run (A : Type) : Type :=
| Done (a : A)
| Fault
| OutOfFuel.
Arguments Done {A} a.
Arguments Fault {A}.
Arguments OutOfFuel {A}.

#[global] Instance run_ret : MRet run := λ A a, Done a.
#[global] Instance run_bind : MBind run := λ A B f m,
  match m with
  | Done a => f a
  | Fault => Fault
  | OutOfFuel => OutOfFuel
  end.

(** An access of memory. *)
Definition access {A} (o : option A) : run A :=
  match o with Some a => Done a | None => Fault end.

(** [m] ends without fault and its result satisfies [Q]. *)
Definition run_ok {A} (m : run A) (Q : A → Prop) : Prop := ∃ a, m = Done a ∧ Q a.

Lemma run_ok_ret {A} (a : A) (Q : A → Prop) : Q a → run_ok (mret a) Q.
Proof. intros. by exists a. Qed.
Lemma run_ok_done {A} (a : A) (Q : A → Prop) : Q a → run_ok (Done a) Q.
Proof. intros. by exists a. Qed.
Lemma run_ok_bind {A B} (m : run A) (f : A → run B) (P : A → Prop) (Q : B → Prop) :
  run_ok m P → (∀ a, P a → run_ok (f a) Q) → run_ok (m ≫= f) Q.
Proof. intros (a & -> & HP) Hf. by apply Hf. Qed.
Lemma run_ok_weaken {A} (m : run A) (P Q : A → Prop) :
  run_ok m P → (∀ a, P a → Q a) → run_ok m Q.
Proof. intros (a & -> & HP) HPQ. exists a. auto. Qed.
Lemma run_ok_access {A} (o : option A) (a : A) (Q : A → Prop) :
  o = Some a → Q a → run_ok (access o) Q.
Proof. intros -> ?. by exists a. Qed.
Lemma run_ok_access_is {A} (o : option A) (Q : A → Prop) :
  is_Some o → (∀ a, o = Some a → Q a) → run_ok (access o) Q.
Proof. intros [a ->] HQ. exists a. auto. Qed.
Lemma run_bind_done {A B} (m : run A) (f : A → run B) a :
  m = Done a → m ≫= f = f a.
Proof. by intros ->. Qed.

(** * Strings *)
Lemma string_app_assoc (a b c : string) : (a +:+ b) +:+ c = a +:+ (b +:+ c).
Proof.
  induction a as [|x a IH]; [done|].
  change (String x ((a +:+ b) +:+ c) = String x (a +:+ (b +:+ c))). by rewrite IH.
Qed.

(** * Lists *)

Definition zlen {A} (l : list A) : Z := Z.of_nat (length l).

(** [l[i]] for a C index. *)
Definition znth {A} (l : list A) (i : Z) : option A :=
  if decide (0 ≤ i) then l !! Z.to_nat i else None.

(** The bytes [l[i .. i+n)], when all of them are inside [l]. *)
Definition zslice {A} (l : list A) (i n : Z) : option (list A) :=
  if decide (0 ≤ i ∧ 0 ≤ n ∧ i + n ≤ zlen l)
  then Some (take (Z.to_nat n) (drop (Z.to_nat i) l)) else None.

Lemma zlen_nonneg {A} (l : list A) : 0 ≤ zlen l.
Proof. unfold zlen. lia. Qed.
Lemma zlen_app {A} (l k : list A) : zlen (l ++ k) = zlen l + zlen k.
Proof. unfold zlen. rewrite length_app. lia. Qed.
Lemma zlen_nil {A} : zlen (@nil A) = 0.
Proof. done. Qed.
Lemma zlen_cons {A} (x : A) l : zlen (x :: l) = 1 + zlen l.
Proof. unfold zlen. simpl. lia. Qed.

Lemma zlen_nil_inv {A} (l : list A) : zlen l ≤ 0 → l = [].
Proof. destruct l; [done|]. rewrite zlen_cons. pose proof (zlen_nonneg l). lia. Qed.

Lemma zlen_insert {A} (l : list A) i x : zlen (<[i := x]> l) = zlen l.
Proof. unfold zlen. by rewrite length_insert. Qed.
#[export] Instance zlen_perm {A} : Proper ((≡ₚ) ==> (=)) (@zlen A).
Proof. intros l k E. unfold zlen. by rewrite E. Qed.

Lemma znth_Some {A} (l : list A) i x :
  znth l i = Some x → 0 ≤ i < zlen l.
Proof.
  unfold znth, zlen. case_decide; [|done]. intros ?%lookup_lt_Some. lia.
Qed.
Lemma znth_is_Some {A} (l : list A) i : is_Some (znth l i) ↔ 0 ≤ i < zlen l.
Proof.
  split; [intros [x Hx]; by eapply znth_Some|].
  intros [? ?]. unfold znth. rewrite decide_True by lia.
  apply lookup_lt_is_Some. unfold zlen in *. lia.
Qed.

Lemma znth_lookup {A} (l : list A) i : 0 ≤ i → znth l i = l !! Z.to_nat i.
Proof. intros. unfold znth. by rewrite decide_True. Qed.

Lemma zslice_length {A} (l : list A) i n k :
  zslice l i n = Some k → zlen k = n ∧ 0 ≤ i ∧ i + n ≤ zlen l.
Proof.
  unfold zslice, zlen. case_decide as E; [|done]. unfold zlen in E. intros [= <-].
  rewrite length_take, length_drop. lia.
Qed.
Lemma zslice_is_Some {A} (l : list A) i n :
  is_Some (zslice l i n) ↔ 0 ≤ i ∧ 0 ≤ n ∧ i + n ≤ zlen l.
Proof.
  unfold zslice. case_decide; split; [done|eauto|by intros [? ?]|done].
Qed.

Lemma zslice_app {A} (a b c : list A) :
  zslice (a ++ b ++ c) (zlen a) (zlen b) = Some b.
Proof.
  unfold zslice, zlen. rewrite decide_True by (rewrite !length_app; lia).
  by rewrite !Nat2Z.id, drop_app_length, take_app_length.
Qed.
Lemma zslice_inv {A} (l : list A) i n k :
  zslice l i n = Some k → ∃ a c, l = a ++ k ++ c ∧ zlen a = i ∧ zlen k = n.
Proof.
  intros E. pose proof (zslice_length _ _ _ _ E) as (? & ? & ?).
  unfold zslice in E. case_decide; [|done]. injection E as <-.
  exists (take (Z.to_nat i) l), (drop (Z.to_nat n) (drop (Z.to_nat i) l)).
  rewrite !take_drop. unfold zlen in *. rewrite length_take. split_and!; [done|lia|lia].
Qed.
Lemma zslice_to {A} (l : list A) i n m k k' :
  zslice l i n = Some k → zslice l (i + n) m = Some k' → zslice l i (n + m) = Some (k ++ k').
Proof.
  intros (a & c & -> & <- & <-)%zslice_inv E.
  apply zslice_inv in E as (a' & c' & E & Ha & <-).
  rewrite app_assoc in E. apply app_inj_1 in E as [<- ->].
  2: { unfold zlen in Ha. rewrite length_app. lia. }
  rewrite <- zlen_app, (app_assoc k). apply zslice_app.
Qed.
Lemma zslice_full {A} (l : list A) : zslice l 0 (zlen l) = Some l.
Proof.
  unfold zslice. rewrite decide_True by (pose proof (zlen_nonneg l); lia).
  unfold zlen. rewrite Nat2Z.id. simpl. by rewrite drop_0, firstn_all.
Qed.

Lemma zslice_app_l {A} (l r : list A) i n k :
  zslice (l ++ r) i n = Some k → i + n ≤ zlen l → zslice l i n = Some k.
Proof.
  unfold zslice, zlen. case_decide; [|done]. intros [= <-] Hl. rewrite decide_True by lia.
  rewrite drop_app_le, take_app_le; [done|rewrite length_drop; lia|lia].
Qed.

Lemma take_zslice {A} (l : list A) i n k :
  zslice l i n = Some k → take (Z.to_nat (i + n)) l = take (Z.to_nat i) l ++ k.
Proof.
  intros (a & c & -> & <- & <-)%zslice_inv. unfold zlen. rewrite Nat2Z.id, take_app_length.
  replace (Z.to_nat _) with (length (a ++ k)) by (rewrite length_app; lia).
  by rewrite app_assoc, take_app_length.
Qed.

Create HintDb recovery.
#[export] Hint Resolve zlen_nonneg : recovery.
