(* ===== verification/CLib.v ===== *)
(** The parts of the C library the program's own logic uses: [strcmp],
    [strstr], [strtol], [qsort] and [bsearch], with their specifications. *)
From S2P Require Import Prelude.

(** * Strings

    A [char *] is modelled by the characters before its terminator. *)
Definition strlen (s : string) : Z := Z.of_nat (String.length s).

Lemma strlen_nonneg s : 0 ≤ strlen s.
Proof. unfold strlen. lia. Qed.
Lemma strlen_app s t : strlen (s +:+ t) = strlen s + strlen t.
Proof.
  unfold strlen. rewrite <- Nat2Z.inj_add. f_equal.
  induction s as [|c s IH]; simpl; [done|by rewrite IH].
Qed.
Lemma string_app_nil_r s : s +:+ "" = s.
Proof.
  induction s as [|c s IH]; [done|]. change (String c (s +:+ "") = String c s). by rewrite IH.
Qed.
#[export] Hint Resolve strlen_nonneg : recovery.

Definition uchar (c : Ascii.ascii) : Z := Z.of_nat (Ascii.nat_of_ascii c).

Lemma uchar_inj c d : uchar c = uchar d → c = d.
Proof.
  unfold uchar. intros E%Nat2Z.inj.
  by rewrite <- (Ascii.ascii_nat_embedding c), E, Ascii.ascii_nat_embedding.
Qed.

(** The end of the string counts as the character 0. *)
Fixpoint strcmp (s t : string) : Z :=
  match s, t with
  | EmptyString, EmptyString => 0
  | EmptyString, String d _ => - (uchar d + 1)
  | String c _, EmptyString => uchar c + 1
  | String c s', String d t' =>
      if decide (c = d) then strcmp s' t' else uchar c - uchar d
  end.

Lemma strcmp_eq s t : strcmp s t = 0 ↔ s = t.
Proof.
  revert t. induction s as [|c s IH]; intros [|d t]; simpl.
  - done.
  - split; [unfold uchar; lia|done].
  - split; [unfold uchar; lia|done].
  - case_decide as E; subst.
    + rewrite IH. split; [by intros ->|by intros [= ->]].
    + split; [|by intros [= ->]]. intros ?. destruct E. apply uchar_inj. lia.
Qed.

Lemma strcmp_antisym s t : strcmp t s = - strcmp s t.
Proof.
  revert t. induction s as [|c s IH]; intros [|d t]; simpl; try lia.
  repeat case_decide; subst; solve [apply IH | done | lia].
Qed.

Lemma strcmp_trans s t u : strcmp s t ≤ 0 → strcmp t u ≤ 0 → strcmp s u ≤ 0.
Proof.
  revert t u. induction s as [|c s IH]; intros [|d t] [|e u]; simpl; unfold uchar; try lia.
  repeat case_decide; subst; intros; try done; try lia; [by eapply IH|].
  destruct H. apply uchar_inj. unfold uchar. lia.
Qed.

(** [strstr(haystack, needle) != NULL]. *)
Fixpoint strstr (haystack needle : string) : bool :=
  String.prefix needle haystack ||
  match haystack with
  | EmptyString => false
  | String _ h => strstr h needle
  end.

Lemma prefix_spec p s : String.prefix p s = true ↔ ∃ r, s = p +:+ r.
Proof.
  revert s. induction p as [|c p IH]; intros [|d s]; simpl.
  - split; [by exists ""|done].
  - split; [by exists (String d s)|done].
  - split; [done|]. by intros [r ?].
  - destruct (Ascii.ascii_dec c d) as [->|Hne].
    + rewrite IH. split; intros [r Hr]; exists r; [by subst|by injection Hr].
    + split; [done|]. by intros [r [= ]].
Qed.

Lemma strstr_spec h n : strstr h n = true ↔ ∃ p r, h = p +:+ n +:+ r.
Proof.
  induction h as [|c h IH]; cbn [strstr].
  - rewrite orb_false_r, prefix_spec. split.
    + intros [r Hr]. by exists "", r.
    + intros ([|] & r & Hr); [|done]. by exists r.
  - rewrite orb_true_iff, prefix_spec, IH. split.
    + intros [[r Hr]|(p & r & ->)]; [by exists "", r|by exists (String c p), r].
    + intros ([|c' p] & r & Hr); [left; by exists r|right].
      injection Hr as -> ->. by exists p, r.
Qed.

(** * [strtol]

    [strtol s] is the value of [strtol(s, &end, 10)] and the string at [end]. *)
Section strtol.
Context `{Abi}.

Definition isspace (c : Ascii.ascii) : bool :=
  let n := uchar c in (n =? 32) || ((9 <=? n) && (n <=? 13)).
Definition isdigit (c : Ascii.ascii) : bool :=
  let n := uchar c in (48 <=? n) && (n <=? 57).

Fixpoint skip_spaces (s : string) : string :=
  match s with
  | String c s' => if isspace c then skip_spaces s' else s
  | EmptyString => s
  end.

(** The digits at the head of [s], onto the value [acc]. *)
Fixpoint digits (acc : Z) (s : string) : Z * string :=
  match s with
  | String c s' =>
      if isdigit c then digits (acc * 10 + (uchar c - 48)) s' else (acc, s)
  | EmptyString => (acc, s)
  end.

Definition sign (s : string) : Z * string :=
  match s with
  | String "-"%char s' => (-1, s')
  | String "+"%char s' => (1, s')
  | _ => (1, s)
  end.

Definition clamp_long (z : Z) : Z := Z.max LONG_MIN (Z.min LONG_MAX z).

Definition strtol (s : string) : Z * string :=
  let '(sg, s1) := sign (skip_spaces s) in
  match s1 with
  | String c _ =>
      if isdigit c then
        let '(n, rest) := digits 0 s1 in (clamp_long (sg * n), rest)
      else (0, s)
  | EmptyString => (0, s)
  end.

(** ** Numbers printed in decimal are read back *)

Lemma pretty_N_char_digit (m : N) : (m < 10)%N →
  isdigit (pretty_N_char m) = true ∧ uchar (pretty_N_char m) - 48 = Z.of_N m.
Proof.
  intros Hm.
  assert (m = 0 ∨ m = 1 ∨ m = 2 ∨ m = 3 ∨ m = 4 ∨ m = 5 ∨ m = 6 ∨ m = 7 ∨ m = 8 ∨ m = 9)%N
    as E by lia.
  by destruct_or! E; subst.
Qed.

Lemma digits_pretty_go (x : N) s : digits 0 (pretty_N_go x s) = digits (Z.of_N x) s.
Proof.
  revert s. induction (N.lt_wf_0 x) as [x _ IH]. intros s.
  destruct (decide (x = 0)%N) as [->|Hx]; [by rewrite pretty_N_go_0|].
  rewrite pretty_N_go_step by lia. rewrite IH by (apply N.div_lt; lia).
  pose proof (N.mod_upper_bound x 10 ltac:(lia)) as Hm.
  pose proof (N.div_mod x 10 ltac:(lia)) as Hd.
  destruct (pretty_N_char_digit (x mod 10) Hm) as [E1 E2].
  cbn [digits]. rewrite E1, E2. f_equal. lia.
Qed.

Lemma pretty_go_head (x : N) s : (0 < x)%N →
  ∃ c r, pretty_N_go x s = String c r ∧ isdigit c = true.
Proof.
  revert s. induction (N.lt_wf_0 x) as [x _ IH]. intros s Hx.
  rewrite pretty_N_go_step by lia.
  destruct (decide (x / 10 = 0)%N) as [E|?].
  - rewrite E, pretty_N_go_0. eexists _, _. split; [done|].
    apply pretty_N_char_digit, N.mod_upper_bound. lia.
  - apply IH; [apply N.div_lt; lia|by apply N.neq_0_lt_0].
Qed.

Lemma digits_pretty_N (n : N) : 
  (∃ c r, pretty n = String c r ∧ isdigit c = true) ∧ digits 0 (pretty n) = (Z.of_N n, "").
Proof.
  unfold pretty, pretty_N. case_decide as E; [subst; split; [by eexists _, _|done]|].
  split; [apply pretty_go_head; lia|]. by rewrite digits_pretty_go.
Qed.

Lemma skip_spaces_digit c r : isdigit c = true ∨ c = "-"%char →
  skip_spaces (String c r) = String c r.
Proof.
  intros Hc. cbn [skip_spaces]. destruct (isspace c) eqn:E; [|done].
  destruct Hc as [Hc| ->]; [|done]. exfalso. revert E Hc. unfold isspace, isdigit.
  rewrite orb_true_iff, !andb_true_iff, Z.eqb_eq, !Z.leb_le. lia.
Qed.

Lemma sign_digit c r : isdigit c = true → sign (String c r) = (1, String c r).
Proof. by destruct c as [[] [] [] [] [] [] [] []]. Qed.

Lemma strtol_pretty_N (n : N) : strtol (pretty n) = (clamp_long (Z.of_N n), "").
Proof.
  destruct (digits_pretty_N n) as [(c & r & E & Hc) Hd]. unfold strtol. rewrite E in *.
  rewrite skip_spaces_digit by auto. rewrite sign_digit by done. rewrite Hc, Hd.
  by rewrite Z.mul_1_l.
Qed.

Lemma strtol_pretty (z : Z) : in_s long_bits z → strtol (pretty z) = (z, "").
Proof.
  intros [H1 H2].
  assert (∀ y, - 2 ^ (long_bits - 1) ≤ y < 2 ^ (long_bits - 1) → clamp_long y = y) as Hclamp.
  { intros y ?. unfold clamp_long, LONG_MIN, LONG_MAX. lia. }
  destruct z as [|p|p].
  - change (pretty 0) with (pretty 0%N). rewrite strtol_pretty_N. f_equal. by apply Hclamp.
  - change (pretty (Z.pos p)) with (pretty (Npos p)). rewrite strtol_pretty_N.
    f_equal. by apply Hclamp.
  - destruct (digits_pretty_N (Npos p)) as [(c & r & E & Hc) Hd].
    change (pretty (Z.neg p)) with (String "-" (pretty (Npos p))).
    unfold strtol. rewrite skip_spaces_digit by auto. cbn [sign].
    rewrite E in *. rewrite Hc, Hd. f_equal. rewrite Hclamp; simpl in *; lia.
Qed.
End strtol.

(** * [qsort]

    The comparison functions of the program are total preorders that only
    identify equal keys, so that every sorting algorithm gives the same list;
    the model inserts one element at a time. *)
Section qsort.
Context {A : Type} (cmp : A → A → Z).

Fixpoint insert_sorted (x : A) (l : list A) : list A :=
  match l with
  | [] => [x]
  | y :: l' => if decide (cmp x y ≤ 0) then x :: l else y :: insert_sorted x l'
  end.
Definition qsort (l : list A) : list A := foldr insert_sorted [] l.

Lemma insert_sorted_Permutation x l : insert_sorted x l ≡ₚ x :: l.
Proof.
  induction l as [|y l IH]; simpl; [done|]. case_decide; [done|].
  rewrite IH. constructor.
Qed.
Lemma qsort_Permutation l : qsort l ≡ₚ l.
Proof. induction l; simpl; [done|]. rewrite insert_sorted_Permutation. by f_equiv. Qed.

Definition cmp_le (x y : A) : Prop := cmp x y ≤ 0.
Context (cmp_total : ∀ x y, cmp x y ≤ 0 ∨ cmp y x ≤ 0)
        (cmp_trans : ∀ x y z, cmp x y ≤ 0 → cmp y z ≤ 0 → cmp x z ≤ 0).

Lemma insert_sorted_sorted x l :
  StronglySorted cmp_le l → StronglySorted cmp_le (insert_sorted x l).
Proof.
  induction 1 as [|y l Hs IH Hy]; simpl; [repeat constructor|].
  case_decide as E.
  - constructor; [by constructor|]. constructor; [done|].
    eapply Forall_impl; [exact Hy|]. intros z. by apply cmp_trans.
  - constructor; [done|]. rewrite insert_sorted_Permutation.
    constructor; [|done]. destruct (cmp_total x y); [done|done].
Qed.
Lemma qsort_sorted l : StronglySorted cmp_le (qsort l).
Proof. induction l; simpl; [constructor|]. by apply insert_sorted_sorted. Qed.
End qsort.

Lemma StronglySorted_lookup {A} (R : A → A → Prop) (l : list A) i j x y :
  StronglySorted R l → (i < j)%nat → l !! i = Some x → l !! j = Some y → R x y.
Proof.
  intros Hs. revert i j. induction Hs as [|z l Hs IH Hz]; intros i j Hij Hi Hj; [done|].
  destruct i as [|i], j as [|j]; simpl in *; try lia.
  - injection Hi as ->. rewrite Forall_forall in Hz. apply Hz. by eapply list_elem_of_lookup_2.
  - apply (IH i j); [lia|done|done].
Qed.

(** * [bsearch]

    The loop of the C library: [base] is the first index of the part of the
    array still searched and [lim] its length; [cmp x] compares the key with
    the element [x]. *)
Section bsearch.
Context {A : Type} (cmp : A → Z) (l : list A).

Fixpoint bsearch_loop (fuel base lim : nat) : option A :=
  match fuel with
  | O => None
  | S fuel =>
      if decide (lim = O) then None else
      let p := (base + lim / 2)%nat in
      match l !! p with
      | None => None
      | Some x =>
          if decide (cmp x = 0) then Some x
          else if decide (0 < cmp x)
          then bsearch_loop fuel (S p) ((lim - 1) / 2)
          else bsearch_loop fuel base (lim / 2)
      end
  end.
Definition bsearch : option A := bsearch_loop (S (length l)) 0 (length l).

(** The array is in the order of the comparison: the key is beyond every
    element before one it is beyond, and before every element after one it
    is before. *)
Context (l_sorted : ∀ i j x y, (i < j)%nat → l !! i = Some x → l !! j = Some y →
  (0 < cmp y → 0 < cmp x) ∧ (cmp x < 0 → cmp y < 0)).

Lemma bsearch_loop_sound fuel base lim x :
  bsearch_loop fuel base lim = Some x → x ∈ l ∧ cmp x = 0.
Proof.
  revert base lim. induction fuel as [|fuel IH]; intros base lim; simpl; [done|].
  case_decide; [done|]. destruct (l !! _) as [y|] eqn:E; [|done].
  repeat case_decide; eauto. intros [= <-]. split; [|done].
  by eapply list_elem_of_lookup_2.
Qed.

Lemma bsearch_loop_complete fuel base lim i x :
  (lim < fuel)%nat → (base + lim ≤ length l)%nat →
  (base ≤ i < base + lim)%nat → l !! i = Some x → cmp x = 0 →
  is_Some (bsearch_loop fuel base lim).
Proof.
  revert base lim. induction fuel as [|fuel IH]; intros base lim Hf Hb Hi Hx Hc; [lia|].
  cbn [bsearch_loop]. cbv zeta. case_decide; [lia|].
  pose proof (Nat.div_lt lim 2 ltac:(lia) ltac:(lia)).
  pose proof (Nat.div_mod_eq lim 2). pose proof (Nat.mod_upper_bound lim 2 ltac:(lia)).
  pose proof (Nat.div_mod_eq (lim - 1) 2).
  pose proof (Nat.mod_upper_bound (lim - 1) 2 ltac:(lia)).
  destruct (l !! (base + lim / 2)%nat) as [y|] eqn:E; [|apply lookup_ge_None in E; lia].
  repeat case_decide; [by eexists| |].
  - apply IH; [lia|lia| |done|done].
    destruct (lt_eq_lt_dec i (base + lim / 2)) as [[?| ->]|?];
      [|congruence || (simplify_eq; lia)|lia].
    destruct (l_sorted i (base + lim / 2)%nat x y); auto; lia.
  - apply IH; [lia|lia| |done|done].
    destruct (lt_eq_lt_dec i (base + lim / 2)) as [[?| ->]|?];
      [lia|congruence || (simplify_eq; lia)|].
    destruct (l_sorted (base + lim / 2)%nat i y x); auto; lia.
Qed.

Lemma bsearch_spec : (∃ x, x ∈ l ∧ cmp x = 0) ↔ is_Some bsearch.
Proof.
  split.
  - intros (x & [i Hi]%list_elem_of_lookup & Hc).
    eapply (bsearch_loop_complete _ _ _ i x); eauto; apply lookup_lt_Some in Hi; lia.
  - intros [x Hx]. exists x. by eapply bsearch_loop_sound.
Qed.
End bsearch.
