(* ===== verification/Edify.v ===== *)
(** The edify interpreter of update scripts: [edify/expr.c] and [edify/expr.h].

    An expression holds the C function that evaluates it and its unevaluated
    arguments; every operator and builtin decides itself which arguments it
    evaluates.  A function therefore takes its arguments as a list of [Arg]:
    what it can do with an [Expr*], which is to evaluate it and to read the
    place of its source text.  [EvaluateValue] ties the knot. *)
From S2P Require Import Prelude CLib.

(** * Data *)

Definition VAL_STRING : Z := 1.
Definition VAL_BLOB : Z := 2.

(** [v_data] of a [VAL_STRING] is the text before the terminator. *)
Record Value := mkValue { v_type : Z; v_size : Z; v_data : string }.

(** What the builtins do outside the interpreter. *)
Inductive Event :=
| EvStdout (s : string)
| EvStderr (s : string)
| EvSleep (seconds : Z).

Section edify.
Context `{Abi} {C : Type}.

(** [cookie] is the state of the functions an application registers. *)
Record State := mkState {
  cookie : C;
  script : string;
  errmsg : option string;
  io : list Event
}.

Definition set_errmsg (msg : string) (st : State) : State :=
  mkState (cookie st) (script st) (Some msg) (io st).
Definition add_event (ev : Event) (st : State) : State :=
  mkState (cookie st) (script st) (errmsg st) (io st ++ [ev]).

Abbreviation E := (M State).

(** An argument as a function sees it; [None] stands for a [NULL] result. *)
Record Arg := mkArg {
  arg_start : Z;
  arg_end : Z;
  arg_eval : E (option Value)
}.

(** * Helpers *)

Definition BooleanString (s : string) : bool :=
  match s with EmptyString => false | String _ _ => true end.

Definition StringValue (s : string) : Value := mkValue VAL_STRING (strlen s) s.
Definition return_string (s : string) : E (option Value) := mret (Some (StringValue s)).

(** The formatted message, cut to the 4096 bytes of the buffer. *)
Definition ErrorAbort {A} (message : string) : E (option A) :=
  _ ← modify (set_errmsg (String.substring 0 4095 message)); mret None.

Definition Evaluate (a : Arg) : E (option string) :=
  v ← arg_eval a;
  match v with
  | None => mret None
  | Some v =>
      if decide (v_type v = VAL_STRING) then mret (Some (v_data v))
      else ErrorAbort ("expecting string, got value type " +:+ pretty (v_type v))
  end.

(** [argv[i]]; reading past the arguments of the call is a fault. *)
Definition argv_at (argv : list Arg) (i : nat) : E Arg := of_option (argv !! i).

(** Evaluates the first [count] arguments and stops at the first [NULL]. *)
Fixpoint read_args {T} (eval : Arg → E (option T)) (argv : list Arg) (count : nat)
    : E (option (list T)) :=
  match count with
  | O => mret (Some [])
  | S count =>
      match argv with
      | [] => fault
      | a :: argv =>
          v ← eval a;
          match v with
          | None => mret None
          | Some v =>
              vs ← read_args eval argv count;
              mret (cons v <$> vs)
          end
      end
  end.

Definition ReadArgs (argv : list Arg) (count : nat) : E (option (list string)) :=
  read_args Evaluate argv count.
Definition ReadValueArgs (argv : list Arg) (count : nat) : E (option (list Value)) :=
  read_args arg_eval argv count.
Definition ReadVarArgs (argv : list Arg) : E (option (list string)) :=
  read_args Evaluate argv (length argv).
Definition ReadValueVarArgs (argv : list Arg) : E (option (list Value)) :=
  read_args arg_eval argv (length argv).

(** * Operators and builtin functions *)

(** [length] is an [int]: the sum, and the byte added for the terminator, must
    not overflow. *)
Definition ConcatFn (argv : list Arg) : E (option Value) :=
  match argv with
  | [] => return_string ""
  | _ =>
      strings ← read_args Evaluate argv (length argv);
      match strings with
      | None => mret None
      | Some strings =>
          let result := foldr String.append "" strings in
          if decide (strlen result + 1 ≤ INT_MAX) then return_string result else fault
      end
  end.

Definition IfElseFn (argv : list Arg) : E (option Value) :=
  if decide (length argv ≠ 2 ∧ length argv ≠ 3)%nat then
    _ ← modify (set_errmsg "ifelse expects 2 or 3 arguments"); mret None
  else
    a0 ← argv_at argv 0;
    cond ← Evaluate a0;
    match cond with
    | None => mret None
    | Some cond =>
        if BooleanString cond then
          a1 ← argv_at argv 1; arg_eval a1
        else if decide (length argv = 3)%nat then
          a2 ← argv_at argv 2; arg_eval a2
        else return_string cond
    end.

Definition AbortFn (argv : list Arg) : E (option Value) :=
  msg ← match argv with
        | [] => mret None
        | a :: _ => Evaluate a
        end;
  _ ← modify (set_errmsg (default "called abort()" msg));
  mret None.

(** The source text of an argument, copied out of the script: the range may
    reach the terminator of the script and not beyond it. *)
Definition source_text (a : Arg) (script : string) : option string :=
  if decide (0 ≤ arg_start a ∧ arg_start a ≤ arg_end a ∧
             arg_end a ≤ strlen script + 1)
  then Some (String.substring (Z.to_nat (arg_start a))
               (Z.to_nat (arg_end a - arg_start a)) script)
  else None.

Fixpoint assert_loop (argv : list Arg) : E (option Value) :=
  match argv with
  | [] => return_string ""
  | a :: argv =>
      v ← Evaluate a;
      match v with
      | None => mret None
      | Some v =>
          if BooleanString v then assert_loop argv
          else
            st ← get;
            src ← of_option (source_text a (script st));
            _ ← modify (set_errmsg ("assert failed: " +:+ src));
            mret None
      end
  end.
Definition AssertFn (argv : list Arg) : E (option Value) := assert_loop argv.

(** [sleep] takes the [int] as an unsigned number of seconds. *)
Definition SleepFn (argv : list Arg) : E (option Value) :=
  a0 ← argv_at argv 0;
  val ← Evaluate a0;
  match val with
  | None => mret None
  | Some val =>
      let v := s32 (strtol val).1 in
      _ ← modify (add_event (EvSleep (u32 v)));
      return_string val
  end.

Fixpoint StdoutFn (argv : list Arg) : E (option Value) :=
  match argv with
  | [] => return_string ""
  | a :: argv =>
      v ← Evaluate a;
      match v with
      | None => mret None
      | Some v => _ ← modify (add_event (EvStdout v)); StdoutFn argv
      end
  end.

Definition LogicalAndFn (argv : list Arg) : E (option Value) :=
  a0 ← argv_at argv 0;
  lhs ← Evaluate a0;
  match lhs with
  | None => mret None
  | Some lhs =>
      if BooleanString lhs then a1 ← argv_at argv 1; arg_eval a1
      else return_string lhs
  end.

Definition LogicalOrFn (argv : list Arg) : E (option Value) :=
  a0 ← argv_at argv 0;
  lhs ← Evaluate a0;
  match lhs with
  | None => mret None
  | Some lhs =>
      if BooleanString lhs then return_string lhs
      else a1 ← argv_at argv 1; arg_eval a1
  end.

Definition LogicalNotFn (argv : list Arg) : E (option Value) :=
  a0 ← argv_at argv 0;
  val ← Evaluate a0;
  match val with
  | None => mret None
  | Some val => return_string (if BooleanString val then "" else "t")
  end.

(** [SubstringFn], [EqualityFn] and [InequalityFn] evaluate two strings and
    compare them. *)
Definition compare_strings (test : string → string → bool) (argv : list Arg)
    : E (option Value) :=
  a0 ← argv_at argv 0;
  lhs ← Evaluate a0;
  match lhs with
  | None => mret None
  | Some lhs =>
      a1 ← argv_at argv 1;
      rhs ← Evaluate a1;
      match rhs with
      | None => mret None
      | Some rhs => return_string (if test lhs rhs then "t" else "")
      end
  end.

Definition SubstringFn (argv : list Arg) : E (option Value) :=
  compare_strings (λ needle haystack, strstr haystack needle) argv.
Definition EqualityFn (argv : list Arg) : E (option Value) :=
  compare_strings (λ lhs rhs, bool_decide (strcmp lhs rhs = 0)) argv.
Definition InequalityFn (argv : list Arg) : E (option Value) :=
  compare_strings (λ lhs rhs, bool_decide (strcmp lhs rhs ≠ 0)) argv.

Definition SequenceFn (argv : list Arg) : E (option Value) :=
  a0 ← argv_at argv 0;
  lhs ← arg_eval a0;
  match lhs with
  | None => mret None
  | Some _ => a1 ← argv_at argv 1; arg_eval a1
  end.

(** The number a decimal string stands for; [None] when the string is empty or
    [strtol] stops before its end. *)
Definition parse_long (s : string) : option Z :=
  let '(n, rest) := strtol s in
  if BooleanString s && negb (BooleanString rest) then Some n else None.

Definition not_an_int (s : string) : Event := EvStderr ("[" +:+ s +:+ "] is not an int\n").

Definition LessThanIntFn (argv : list Arg) : E (option Value) :=
  if decide (length argv ≠ 2)%nat then
    _ ← modify (set_errmsg "less_than_int expects 2 arguments"); mret None
  else
    args ← ReadArgs argv 2;
    match args with
    | Some [lhs; rhs] =>
        match parse_long lhs with
        | None => _ ← modify (add_event (not_an_int lhs)); return_string ""
        | Some l_int =>
            match parse_long rhs with
            | None => _ ← modify (add_event (not_an_int rhs)); return_string ""
            | Some r_int => return_string (if decide (l_int < r_int) then "t" else "")
            end
        end
    | _ => mret None
    end.

Definition GreaterThanIntFn (argv : list Arg) : E (option Value) :=
  if decide (length argv ≠ 2)%nat then
    _ ← modify (set_errmsg "greater_than_int expects 2 arguments"); mret None
  else
    a0 ← argv_at argv 0;
    a1 ← argv_at argv 1;
    LessThanIntFn [a1; a0].

Definition Literal (name : string) : E (option Value) := return_string name.

(** * Expressions *)

(** The C functions an expression can hold; [FnExt] is one that an application
    registers. *)
Inductive Function :=
| FnLiteral | FnConcat | FnIfElse | FnAbort | FnAssert | FnSleep | FnStdout
| FnLogicalAnd | FnLogicalOr | FnLogicalNot | FnSubstring | FnEquality
| FnInequality | FnSequence | FnLessThanInt | FnGreaterThanInt
| FnExt (id : string).

Inductive Expr := mkExpr {
  fn : Function;
  name : string;
  argv : list Expr;
  start : Z;
  end_ : Z
}.

Context (ext : string → string → list Arg → E (option Value)).

Definition call (f : Function) (nm : string) (args : list Arg) : E (option Value) :=
  match f with
  | FnLiteral => Literal nm
  | FnConcat => ConcatFn args
  | FnIfElse => IfElseFn args
  | FnAbort => AbortFn args
  | FnAssert => AssertFn args
  | FnSleep => SleepFn args
  | FnStdout => StdoutFn args
  | FnLogicalAnd => LogicalAndFn args
  | FnLogicalOr => LogicalOrFn args
  | FnLogicalNot => LogicalNotFn args
  | FnSubstring => SubstringFn args
  | FnEquality => EqualityFn args
  | FnInequality => InequalityFn args
  | FnSequence => SequenceFn args
  | FnLessThanInt => LessThanIntFn args
  | FnGreaterThanInt => GreaterThanIntFn args
  | FnExt id => ext id nm args
  end.

Fixpoint EvaluateValue (e : Expr) : E (option Value) :=
  call (fn e) (name e)
    (map (λ a, mkArg (start a) (end_ a) (EvaluateValue a)) (argv e)).

Definition as_arg (e : Expr) : Arg := mkArg (start e) (end_ e) (EvaluateValue e).

Definition Build (f : Function) (loc : Z * Z) (args : list Expr) : Expr :=
  mkExpr f "(operator)" args loc.1 loc.2.

(** The expression the parser builds for a string literal. *)
Definition LiteralExpr (s : string) (loc : Z * Z) : Expr :=
  mkExpr FnLiteral s [] loc.1 loc.2.
End edify.

(** * The function table *)

Record NamedFunction := mkNamedFunction { nf_name : string; nf_fn : Function }.

(** [fn_size] is the number of slots allocated for [fn_table]. *)
Record FnTable := mkFnTable {
  fn_entries : nat;
  fn_size : nat;
  fn_table : list NamedFunction
}.

Definition empty_table : FnTable := mkFnTable 0 0 [].

(** A write past the allocated slots would be a fault. *)
Definition RegisterFunction (nm : string) (f : Function) : M FnTable unit := λ t,
  let size := if decide (fn_size t ≤ fn_entries t)%nat
              then (fn_size t * 2 + 1)%nat else fn_size t in
  if decide (fn_entries t < size)%nat
  then Some (tt, mkFnTable (S (fn_entries t)) size
                   (take (fn_entries t) (fn_table t) ++ [mkNamedFunction nm f]))
  else None.

Definition fn_entry_compare (a b : NamedFunction) : Z := strcmp (nf_name a) (nf_name b).

Definition FinishRegistration : M FnTable unit :=
  modify (λ t, mkFnTable (fn_entries t) (fn_size t) (qsort fn_entry_compare (fn_table t))).

Definition FindFunction (nm : string) (t : FnTable) : option Function :=
  nf_fn <$> bsearch (fn_entry_compare (mkNamedFunction nm FnLiteral)) (fn_table t).

Definition RegisterBuiltins : M FnTable unit :=
  _ ← RegisterFunction "ifelse" FnIfElse;
  _ ← RegisterFunction "abort" FnAbort;
  _ ← RegisterFunction "assert" FnAssert;
  _ ← RegisterFunction "concat" FnConcat;
  _ ← RegisterFunction "is_substring" FnSubstring;
  _ ← RegisterFunction "stdout" FnStdout;
  _ ← RegisterFunction "sleep" FnSleep;
  _ ← RegisterFunction "less_than_int" FnLessThanInt;
  RegisterFunction "greater_than_int" FnGreaterThanInt.

(** The entries [RegisterBuiltins] makes. *)
Definition builtins : list NamedFunction :=
  [mkNamedFunction "ifelse" FnIfElse; mkNamedFunction "abort" FnAbort;
   mkNamedFunction "assert" FnAssert; mkNamedFunction "concat" FnConcat;
   mkNamedFunction "is_substring" FnSubstring; mkNamedFunction "stdout" FnStdout;
   mkNamedFunction "sleep" FnSleep; mkNamedFunction "less_than_int" FnLessThanInt;
   mkNamedFunction "greater_than_int" FnGreaterThanInt].

(** Registers a list of functions, as the applications do one call at a time. *)
Fixpoint RegisterAll (fs : list NamedFunction) : M FnTable unit :=
  match fs with
  | [] => mret tt
  | f :: fs => _ ← RegisterFunction (nf_name f) (nf_fn f); RegisterAll fs
  end.

(** * Specification: the language of the README

    Every expression denotes a string, or the message of an [abort]. *)
Inductive Term :=
| TLit (s : string)
| TConcat (a b : Term)
| TAnd (a b : Term)
| TOr (a b : Term)
| TNot (a : Term)
| TEq (a b : Term)
| TNe (a b : Term)
| TSeq (a b : Term)
| TIf (c a : Term) (b : option Term)
| TSubstring (needle haystack : Term)
| TAbort (msg : Term).

Definition truth (s : string) : bool := bool_decide (s ≠ "").
Definition of_truth (b : bool) : string := if b then "t" else "".

Fixpoint denote (t : Term) : string + string :=
  match t with
  | TLit s => inl s
  | TConcat a b =>
      match denote a with
      | inl x => match denote b with inl y => inl (x +:+ y) | inr m => inr m end
      | inr m => inr m
      end
  | TAnd a b =>
      match denote a with
      | inl x => if truth x then denote b else inl ""
      | inr m => inr m
      end
  | TOr a b =>
      match denote a with
      | inl x => if truth x then inl x else denote b
      | inr m => inr m
      end
  | TNot a =>
      match denote a with inl x => inl (of_truth (negb (truth x))) | inr m => inr m end
  | TEq a b =>
      match denote a with
      | inl x => match denote b with
                 | inl y => inl (of_truth (bool_decide (x = y))) | inr m => inr m end
      | inr m => inr m
      end
  | TNe a b =>
      match denote a with
      | inl x => match denote b with
                 | inl y => inl (of_truth (bool_decide (x ≠ y))) | inr m => inr m end
      | inr m => inr m
      end
  | TSeq a b => match denote a with inl _ => denote b | inr m => inr m end
  | TIf c a b =>
      match denote c with
      | inl x => if truth x then denote a
                 else match b with Some b => denote b | None => inl "" end
      | inr m => inr m
      end
  | TSubstring a b =>
      match denote a with
      | inl x => match denote b with
                 | inl y => inl (of_truth (strstr y x)) | inr m => inr m end
      | inr m => inr m
      end
  | TAbort a => match denote a with inl m => inr m | inr _ => inr "called abort()" end
  end.

(** The expressions the parser builds for a term, wherever they stand in the
    script: operators with [Build], functions by their table entry. *)
Inductive represents : Term → Expr → Prop :=
| rep_lit s loc : represents (TLit s) (LiteralExpr s loc)
| rep_concat a b x y loc : represents a x → represents b y →
    represents (TConcat a b) (Build FnConcat loc [x; y])
| rep_and a b x y loc : represents a x → represents b y →
    represents (TAnd a b) (Build FnLogicalAnd loc [x; y])
| rep_or a b x y loc : represents a x → represents b y →
    represents (TOr a b) (Build FnLogicalOr loc [x; y])
| rep_not a x loc : represents a x → represents (TNot a) (Build FnLogicalNot loc [x])
| rep_eq a b x y loc : represents a x → represents b y →
    represents (TEq a b) (Build FnEquality loc [x; y])
| rep_ne a b x y loc : represents a x → represents b y →
    represents (TNe a b) (Build FnInequality loc [x; y])
| rep_seq a b x y loc : represents a x → represents b y →
    represents (TSeq a b) (Build FnSequence loc [x; y])
| rep_if2 c a z x loc : represents c z → represents a x →
    represents (TIf c a None) (Build FnIfElse loc [z; x])
| rep_if3 c a b z x y loc : represents c z → represents a x → represents b y →
    represents (TIf c a (Some b)) (Build FnIfElse loc [z; x; y])
| rep_substring a b x y n s e : represents a x → represents b y →
    represents (TSubstring a b) (mkExpr FnSubstring n [x; y] s e)
| rep_abort a x n s e : represents a x →
    represents (TAbort a) (mkExpr FnAbort n [x] s e).

(** A bound on the length of every string the term computes. *)
Fixpoint term_weight (t : Term) : Z :=
  match t with
  | TLit s => strlen s
  | TConcat a b | TAnd a b | TOr a b | TEq a b | TNe a b | TSeq a b
  | TSubstring a b => 1 + term_weight a + term_weight b
  | TNot a | TAbort a => 1 + term_weight a
  | TIf c a b =>
      1 + term_weight c + term_weight a +
      match b with Some b => term_weight b | None => 0 end
  end.

(** * Well-formed expressions

    The number of arguments each function needs: the parser fixes it for the
    operators, and [ifelse], [less_than_int] and [greater_than_int] check it
    themselves. *)
Definition arity_ok (f : Function) (argc : nat) : bool :=
  match f with
  | FnLogicalAnd | FnLogicalOr | FnSubstring | FnEquality | FnInequality
  | FnSequence => bool_decide (2 ≤ argc)%nat
  | FnLogicalNot | FnSleep => bool_decide (1 ≤ argc)%nat
  | FnExt _ => false
  | _ => true
  end.

Fixpoint expr_weight (e : Expr) : Z :=
  1 + strlen (name e) + foldr Z.add 0 (map expr_weight (argv e)).

(** An expression over a script of [n] characters: only builtins, with enough
    arguments, every source range inside the script. *)
Fixpoint wf_expr (n : Z) (e : Expr) : bool :=
  arity_ok (fn e) (length (argv e)) &&
  bool_decide (0 ≤ start e ∧ start e ≤ end_ e ∧ end_ e ≤ n) &&
  forallb (wf_expr n) (argv e).

(** * Proofs *)

Section proofs.
Context `{Abi} {C : Type} (ext : string → string → list (@Arg C) → M (@State C) (option Value)).
Implicit Types (st : @State C) (a : @Arg C).

(** What every evaluation guarantees over the script [s]: the script is kept,
    a value is a terminated string of at most [w] characters, and a [NULL]
    result comes with an error message. *)
Definition inv (s : string) st : Prop := script st = s.
Definition ok_value (s : string) (w : Z) (r : option Value) st : Prop :=
  inv s st ∧
  match r with
  | Some v => v_type v = VAL_STRING ∧ v_size v = strlen (v_data v) ∧ strlen (v_data v) ≤ w
  | None => is_Some (errmsg st)
  end.
Definition ok_string (s : string) (w : Z) (r : option string) st : Prop :=
  inv s st ∧
  match r with Some x => strlen x ≤ w | None => is_Some (errmsg st) end.
Definition arg_ok (s : string) (w : Z) a : Prop :=
  triple (inv s) (arg_eval a) (ok_value s w) ∧ 0 ≤ w ∧
  0 ≤ arg_start a ∧ arg_start a ≤ arg_end a ∧ arg_end a ≤ strlen s.

Lemma Evaluate_ok s w a : arg_ok s w a → triple (inv s) (Evaluate a) (ok_string s w).
Proof.
  intros [Ha _]. eapply triple_bind; [apply Ha|]. intros [v|].
  - intros st (? & Ht & ? & ?). rewrite decide_True by done.
    eexists _, _. split; [done|]. split; [done|simpl; lia].
  - apply triple_ret. by intros st [??].
Qed.

Lemma return_string_ok s w x : strlen x ≤ w →
  triple (inv s) (return_string x) (ok_value s w).
Proof. intros ?. apply triple_ret. by intros st ?. Qed.

Lemma argv_at_ok (P : State → Prop) (args : list (@Arg C)) i a :
  args !! i = Some a → triple P (argv_at args i) (λ b st, b = a ∧ P st).
Proof. intros E. eapply triple_of_option; eauto. Qed.

Lemma null_ok s w : triple (λ st, inv s st ∧ is_Some (errmsg st)) (mret None) (ok_value s w).
Proof. by apply triple_ret. Qed.

(** Evaluates an argument and goes on with its value. *)
Lemma eval_bind_ok s w w' a (k : string → M State (option Value)) :
  arg_ok s w a →
  (∀ x, strlen x ≤ w → triple (inv s) (k x) (ok_value s w')) →
  triple (inv s) (r ← Evaluate a; match r with None => mret None | Some x => k x end)
    (ok_value s w').
Proof.
  intros Ha Hk. eapply triple_bind; [by apply Evaluate_ok|]. intros [x|].
  - intros st [Hs Hx]. by apply Hk.
  - apply null_ok.
Qed.

Lemma argv_bind_ok s w' (args : list (@Arg C)) i a (k : Arg → M State (option Value)) :
  args !! i = Some a → triple (inv s) (k a) (ok_value s w') →
  triple (inv s) (b ← argv_at args i; k b) (ok_value s w').
Proof.
  intros E Hk. eapply triple_bind; [by eapply argv_at_ok|]. simpl.
  intros b st [-> ?]. by apply Hk.
Qed.

Lemma error_ok s w msg :
  triple (inv s) (_ ← modify (@set_errmsg C msg); mret None) (ok_value s w).
Proof.
  apply (triple_bind _ _ (λ _ st, inv s st ∧ is_Some (errmsg st))).
  - apply triple_modify. intros st ?. split; [done|by eexists].
  - intros _. apply null_ok.
Qed.

Lemma ok_value_weaken s w w' r st : ok_value s w r st → w ≤ w' → ok_value s w' r st.
Proof. intros [? Hr] ?. split; [done|]. destruct r; [naive_solver lia|done]. Qed.

Lemma arg_eval_ok s w w' a : arg_ok s w a → w ≤ w' →
  triple (inv s) (arg_eval a) (ok_value s w').
Proof.
  intros [Ha _] ?. eapply triple_conseq; [apply Ha|done|]. intros ???. by eapply ok_value_weaken.
Qed.

Lemma event_ok s w ev (k : M State (option Value)) :
  triple (inv s) k (ok_value s w) →
  triple (inv s) (_ ← modify (@add_event C ev); k) (ok_value s w).
Proof.
  intros Hk. apply (triple_bind _ _ (λ _ st, inv s st)); [|by intros _].
  by apply triple_modify.
Qed.

Definition args_ok (s : string) (ws : list Z) (args : list (@Arg C)) : Prop :=
  Forall2 (arg_ok s) ws args.
Definition sum (ws : list Z) : Z := foldr Z.add 0 ws.

Lemma args_ok_nonneg s ws args : args_ok s ws args → 0 ≤ sum ws.
Proof. unfold sum. induction 1 as [|w a ws args (_ & ? & _)]; simpl; lia. Qed.

Lemma read_args_ok s ws args :
  args_ok s ws args →
  triple (inv s) (read_args Evaluate args (length args)) (λ r st, inv s st ∧
    match r with
    | Some xs => length xs = length args ∧ strlen (foldr String.append "" xs) ≤ sum ws
    | None => is_Some (errmsg st)
    end).
Proof.
  unfold sum. induction 1 as [|w a ws args Ha Hargs IH]; simpl.
  - apply triple_ret. intros st ?. split; [done|simpl; unfold strlen; simpl; lia].
  - eapply triple_bind; [by apply Evaluate_ok|]. intros [x|].
    + apply (triple_pure (inv s) (strlen x ≤ w)). intros Hx. eapply triple_bind; [apply IH|]. intros [xs|]; apply triple_ret; [|done].
      intros st (? & Hlen & Hxs). split; [done|]. simpl. rewrite strlen_app, Hlen.
      split; [done|lia].
    + by apply triple_ret.
Qed.

Lemma strlen_flag (b : bool) : strlen (if b then "t" else "") ≤ 1.
Proof. by destruct b. Qed.

Hint Resolve strlen_nonneg : core.

Ltac eval_step :=
  first [ eapply argv_bind_ok; [reflexivity|]
        | eapply eval_bind_ok; [eassumption|]; intros ? ?
        | match goal with |- context [if BooleanString ?x then _ else _] =>
            destruct (BooleanString x) end
        | apply return_string_ok; solve [lia | unfold strlen; simpl; lia]
        | eapply arg_eval_ok; [eassumption|lia]
        | apply error_ok ].

Lemma compare_strings_ok s w0 w1 w test (a0 a1 : Arg) rest :
  arg_ok s w0 a0 → arg_ok s w1 a1 → 1 ≤ w →
  triple (inv s) (compare_strings test (a0 :: a1 :: rest)) (ok_value s w).
Proof.
  intros H0 H1 Hw. unfold compare_strings. repeat eval_step.
  apply return_string_ok. pose proof (strlen_flag (test x x0)). lia.
Qed.

Lemma ConcatFn_ok s ws args w : args_ok s ws args → sum ws ≤ w → sum ws < INT_MAX →
  triple (inv s) (ConcatFn args) (ok_value s w).
Proof.
  intros Hargs Hw Hmax. pose proof (args_ok_nonneg _ _ _ Hargs).
  destruct args as [|a args]; [apply return_string_ok; unfold strlen; simpl; lia|].
  unfold ConcatFn. eapply triple_bind; [by apply read_args_ok|].
  intros [xs|]; [|apply null_ok].
  intros st (Hs & _ & Hx). rewrite decide_True by lia.
  apply return_string_ok; [lia|done].
Qed.

Lemma arg_ok_nonneg s w a : arg_ok s w a → 0 ≤ w.
Proof. by intros (_ & ? & _). Qed.

(** Uses that the bounds of the arguments in the context are not negative. *)
Ltac nonneg :=
  repeat match goal with
  | H : arg_ok _ ?w _ |- _ => lazymatch goal with
      | _ : 0 ≤ w |- _ => fail
      | _ => pose proof (arg_ok_nonneg _ _ _ H) end
  | H : args_ok _ ?ws _ |- _ => lazymatch goal with
      | _ : 0 ≤ sum ws |- _ => fail
      | _ => pose proof (args_ok_nonneg _ _ _ H) end
  end.

Lemma IfElseFn_ok s ws args w : args_ok s ws args → sum ws ≤ w →
  triple (inv s) (IfElseFn args) (ok_value s w).
Proof.
  intros Hargs Hw. unfold IfElseFn. case_decide as Hn; [apply error_ok|].
  unfold sum in Hw.
  destruct Hargs as [|w0 a0 ? ? H0 [|w1 a1 ? ? H1 [|w2 a2 ? ? H2 [|]]]];
    simpl in Hn, Hw; try lia; nonneg.
  - repeat eval_step.
  - repeat eval_step.
Qed.

Lemma AbortFn_ok s ws args w : args_ok s ws args →
  triple (inv s) (AbortFn args) (ok_value s w).
Proof.
  intros Hargs. unfold AbortFn.
  apply (triple_bind _ _ (λ _ st, inv s st)); [|intros m; apply error_ok].
  destruct Hargs as [|w0 a ws args Ha _]; [by apply triple_ret|].
  eapply triple_conseq; [by apply Evaluate_ok|done|]. by intros ? ? [? _].
Qed.

Lemma source_text_ok a s w : arg_ok s w a → is_Some (source_text a s).
Proof. intros (_ & _ & ?). unfold source_text. rewrite decide_True by lia. eauto. Qed.

Lemma AssertFn_ok s ws args w : args_ok s ws args → 0 ≤ w →
  triple (inv s) (AssertFn args) (ok_value s w).
Proof.
  intros Hargs Hw. unfold AssertFn. induction Hargs as [|w0 a ws args Ha _ IH]; simpl.
  - eval_step.
  - eapply eval_bind_ok; [done|]. intros x _. destruct (BooleanString x); [done|].
    intros st Hs. destruct (source_text_ok a s w0 Ha) as [src Hsrc].
    unfold inv in Hs. rewrite (bind_some _ _ _ _ _ (eq_refl : get st = Some (st, st))), Hs, Hsrc.
    rewrite (bind_some _ _ _ src st eq_refl). by apply (error_ok s).
Qed.

Lemma StdoutFn_ok s ws args w : args_ok s ws args → 0 ≤ w →
  triple (inv s) (StdoutFn args) (ok_value s w).
Proof.
  intros Hargs Hw. induction Hargs as [|w0 a ws args Ha _ IH]; simpl; [eval_step|].
  eapply eval_bind_ok; [done|]. intros x _. by apply event_ok.
Qed.

Lemma LessThanIntFn_ok s ws args w : args_ok s ws args → 1 ≤ w →
  triple (inv s) (LessThanIntFn args) (ok_value s w).
Proof.
  intros Hargs Hw. unfold LessThanIntFn. case_decide as Hn; [apply error_ok|].
  unfold ReadArgs. replace 2%nat with (length args) by lia.
  eapply triple_bind; [by apply read_args_ok|].
  intros [xs|]; [|apply null_ok].
  apply (triple_pure (inv s) (length xs = length args ∧ _)). intros [Hlen _].
  destruct xs as [|x [|y [|]]]; simpl in Hlen; try lia.
  destruct (parse_long x).
  - destruct (parse_long y); [|apply event_ok; eval_step].
    case_decide; eval_step.
  - apply event_ok. eval_step.
Qed.

Lemma args_ok_1 s ws args : args_ok s ws args → (1 ≤ length args)%nat →
  ∃ w0 a0 rest, args = a0 :: rest ∧ arg_ok s w0 a0 ∧ w0 ≤ sum ws.
Proof.
  intros [|w0 a0 ws' rest H0 Hr] Hlen; simpl in Hlen; [lia|].
  pose proof (args_ok_nonneg _ _ _ Hr). unfold sum in *. exists w0, a0, rest.
  split_and!; [done|done|simpl; lia].
Qed.
Lemma args_ok_2 s ws args : args_ok s ws args → (2 ≤ length args)%nat →
  ∃ w0 w1 a0 a1 rest, args = a0 :: a1 :: rest ∧ arg_ok s w0 a0 ∧ arg_ok s w1 a1 ∧
    w0 ≤ sum ws ∧ w1 ≤ sum ws.
Proof.
  intros [|w0 a0 ? ? H0 [|w1 a1 ws' rest H1 Hr]] Hlen; simpl in Hlen; try lia.
  pose proof (args_ok_nonneg _ _ _ Hr). nonneg. unfold sum in *.
  exists w0, w1, a0, a1, rest. split_and!; simpl; try done; lia.
Qed.

Lemma GreaterThanIntFn_ok s ws args w : args_ok s ws args → 1 ≤ w →
  triple (inv s) (GreaterThanIntFn args) (ok_value s w).
Proof.
  intros Hargs Hw. unfold GreaterThanIntFn. case_decide as Hn; [apply error_ok|].
  destruct (args_ok_2 _ _ _ Hargs) as (w0 & w1 & a0 & a1 & rest & -> & H0 & H1 & _); [lia|].
  do 2 (eapply argv_bind_ok; [reflexivity|]).
  apply (LessThanIntFn_ok _ [w1; w0]); [by do 2 (apply Forall2_cons; split; [done|])|done].
Qed.

Lemma call_ok s f nm ws args :
  arity_ok f (length args) = true → args_ok s ws args →
  1 + strlen nm + sum ws < INT_MAX →
  triple (inv s) (call ext f nm args) (ok_value s (1 + strlen nm + sum ws)).
Proof.
  intros Harity Hargs Hmax. nonneg. pose proof (strlen_nonneg nm).
  destruct f; simpl in *; try (apply bool_decide_eq_true in Harity); try done;
    try (destruct (args_ok_2 _ _ _ Hargs Harity)
           as (w0 & w1 & a0 & a1 & rest & -> & Ha0 & Ha1 & ? & ?));
    try (destruct (args_ok_1 _ _ _ Hargs Harity) as (w0 & a0 & rest & -> & Ha0 & ?)).
  all: try (eapply compare_strings_ok; [done|done|lia]).
  - eval_step.
  - eapply ConcatFn_ok; [done|lia..].
  - eapply IfElseFn_ok; [done|lia..].
  - by eapply AbortFn_ok.
  - eapply AssertFn_ok; [done|lia].
  - unfold SleepFn. repeat eval_step. apply event_ok. eval_step.
  - eapply StdoutFn_ok; [done|lia].
  - unfold LogicalAndFn. repeat eval_step.
  - unfold LogicalOrFn. repeat eval_step.
  - unfold LogicalNotFn. eapply argv_bind_ok; [reflexivity|].
    eapply eval_bind_ok; [done|]. intros x _. destruct (BooleanString x); eval_step.
  - unfold SequenceFn. eapply argv_bind_ok; [reflexivity|].
    eapply triple_bind; [by eapply arg_eval_ok|]. intros [v|]; [|apply null_ok].
    eapply triple_conseq; [|by intros st [Hs _]; exact Hs|done]. repeat eval_step.
  - eapply LessThanIntFn_ok; [done|lia].
  - eapply GreaterThanIntFn_ok; [done|lia].
Qed.

(** Induction over an expression and its arguments. *)
Lemma Expr_nested_ind (P : Expr → Prop) :
  (∀ f nm args s e, Forall P args → P (mkExpr f nm args s e)) → ∀ e, P e.
Proof.
  intros IH. fix rec 1. intros [f nm args s e]. apply IH.
  induction args as [|a args IHargs]; constructor; [apply rec|apply IHargs].
Qed.

Lemma expr_weight_pos e : 0 ≤ expr_weight e.
Proof.
  induction e as [f nm args s0 e IH] using Expr_nested_ind. simpl.
  pose proof (strlen_nonneg nm).
  assert (0 ≤ foldr Z.add 0 (map expr_weight args)); [|lia].
  induction IH; simpl; lia.
Qed.

Lemma EvaluateValue_ok s e :
  wf_expr (strlen s) e = true → expr_weight e < INT_MAX →
  arg_ok s (expr_weight e) (as_arg ext e).
Proof.
  induction e as [f nm args s0 e IH] using Expr_nested_ind. intros Hwf Hmax.
  simpl in Hwf. apply andb_true_iff in Hwf as [[Hf Hpos%bool_decide_eq_true]%andb_true_iff Hargs].
  split; [|split; [apply expr_weight_pos|done]]. cbn [as_arg arg_eval EvaluateValue].
  apply call_ok.
  - by rewrite length_map.
  - clear Hf Hpos. induction args as [|a args IHargs]; simpl; [constructor|].
    apply andb_true_iff in Hargs as [Ha Hargs]. apply Forall_cons in IH as [IHa IH].
    assert (0 ≤ sum (map expr_weight args)).
    { clear. unfold sum. induction args; simpl; [lia|]. pose proof (expr_weight_pos a). lia. }
    unfold sum in *. simpl in Hmax. pose proof (expr_weight_pos a). pose proof (strlen_nonneg nm).
    constructor; [apply IHa; [done|lia]|]. apply IHargs; solve [done|simpl; lia].
  - done.
Qed.

(** ** Refinement of the README's semantics *)

Definition result_of (d : string + string) st : option Value * State :=
  match d with
  | inl s => (Some (StringValue s), st)
  | inr m => (None, set_errmsg m st)
  end.
Definition string_result_of (d : string + string) st : option string * State :=
  match d with inl s => (Some s, st) | inr m => (None, set_errmsg m st) end.

Lemma Evaluate_denote a d st :
  arg_eval a st = Some (result_of d st) →
  Evaluate a st = Some (string_result_of d st).
Proof.
  intros Ha. unfold Evaluate. destruct d as [s|m]; by rewrite (bind_some _ _ _ _ _ Ha).
Qed.

Lemma BooleanString_truth s : BooleanString s = truth s.
Proof. by destruct s. Qed.

Lemma strlen_of_truth b : strlen (of_truth b) ≤ 1.
Proof. by destruct b. Qed.

Lemma term_weight_nonneg t : 0 ≤ term_weight t.
Proof.
  revert t. fix rec 1. intros [s|a b|a b|a b|a|a b|a b|a b|c a [b|]|a b|a]; simpl;
    try pose proof (rec a); try pose proof (rec b); try pose proof (rec c);
    first [apply strlen_nonneg | lia].
Qed.

Lemma denote_bound t s : denote t = inl s → strlen s ≤ term_weight t.
Proof.
  revert t s. fix rec 1.
  intros [x|a b|a b|a b|a|a b|a b|a b|c a [b|]|a b|a] s; simpl;
    try pose proof (rec a) as Ra; try pose proof (rec b) as Rb; try pose proof (rec c) as Rc;
    try pose proof (term_weight_nonneg a); try pose proof (term_weight_nonneg b);
    try pose proof (term_weight_nonneg c); clear rec.
  all: repeat case_match; intros; simplify_eq;
    repeat match goal with
    | R : ∀ x, denote ?t = inl x → _, E : denote ?t = inl _ |- _ => specialize (R _ E)
    | R : ∀ x, inl ?y = inl x → _ |- _ => specialize (R y eq_refl)
    end; rewrite ?strlen_app; try lia.
  all: try (etransitivity; [apply strlen_of_truth|lia]).
  all: change (strlen "") with 0; lia.
Qed.

(** An argument that denotes [d]: in every state its evaluation gives [d]. *)
Definition arg_is a (d : string + string) : Prop :=
  ∀ st, arg_eval a st = Some (result_of d st).

Lemma argv_at_run {B} (args : list (@Arg C)) i a (k : Arg → M State B) st :
  args !! i = Some a → (b ← argv_at args i; k b) st = k a st.
Proof. intros E. unfold argv_at, mbind, M_bind. by rewrite E. Qed.

Lemma Evaluate_run a d (k : string → M State (option Value)) st :
  arg_is a d →
  (r ← Evaluate a; match r with None => mret None | Some x => k x end) st =
  match d with inl x => k x st | inr m => Some (None, set_errmsg m st) end.
Proof.
  intros Ha. unfold mbind, M_bind. rewrite (Evaluate_denote a d st (Ha st)). by destruct d.
Qed.

Ltac run_step :=
  first [ erewrite argv_at_run by reflexivity
        | erewrite Evaluate_run by eassumption ].

(** Denotations of the functions in terms of their arguments. *)
Lemma ConcatFn_is a b da db st :
  arg_is a da → arg_is b db →
  (∀ x y, da = inl x → db = inl y → strlen x + strlen y < INT_MAX) →
  ConcatFn [a; b] st = Some (result_of
    match da with
    | inl x => match db with inl y => inl (x +:+ y) | inr m => inr m end
    | inr m => inr m
    end st).
Proof.
  intros Ha Hb Hw. unfold ConcatFn, mbind, M_bind. simpl. unfold mbind, M_bind.
  rewrite (Evaluate_denote a da st (Ha st)). destruct da as [x|m]; [|done]. simpl.
  rewrite (Evaluate_denote b db st (Hb st)). destruct db as [y|m]; [|done]. simpl.
  specialize (Hw x y eq_refl eq_refl).
  rewrite string_app_nil_r.
  rewrite decide_True; [done|]. rewrite strlen_app. lia.
Qed.

Lemma compare_strings_is test a b da db rest st :
  arg_is a da → arg_is b db →
  compare_strings test (a :: b :: rest) st = Some (result_of
    match da with
    | inl x => match db with inl y => inl (of_truth (test x y)) | inr m => inr m end
    | inr m => inr m
    end st).
Proof.
  intros Ha Hb. unfold compare_strings. do 2 run_step. destruct da; [|done].
  do 2 run_step. by destruct db.
Qed.

Lemma IfElseFn_is c a b dc da db st :
  arg_is c dc → arg_is a da → arg_is b db →
  IfElseFn [c; a; b] st = Some (result_of
    match dc with
    | inl x => if truth x then da else db
    | inr m => inr m
    end st).
Proof.
  intros Hc Ha Hb. unfold IfElseFn. rewrite decide_False by (simpl; lia).
  do 2 run_step. destruct dc as [x|m]; [|done]. rewrite BooleanString_truth.
  destruct (truth x); [run_step; apply Ha|]. simpl. run_step. apply Hb.
Qed.

Lemma IfElseFn_is_no_else c a dc da st :
  arg_is c dc → arg_is a da →
  IfElseFn [c; a] st = Some (result_of
    match dc with
    | inl x => if truth x then da else inl ""
    | inr m => inr m
    end st).
Proof.
  intros Hc Ha. unfold IfElseFn. rewrite decide_False by (simpl; lia).
  do 2 run_step. destruct dc as [x|m]; [|done]. rewrite BooleanString_truth.
  destruct (truth x) eqn:Hx; [run_step; apply Ha|].
  apply bool_decide_eq_false in Hx. by destruct (dec_stable Hx).
Qed.

Lemma LogicalFn_is (conj : bool) a b da db st :
  arg_is a da → arg_is b db →
  (if conj then LogicalAndFn [a; b] else LogicalOrFn [a; b]) st = Some (result_of
    match da with
    | inl x => if Bool.eqb (truth x) conj then db else inl x
    | inr m => inr m
    end st).
Proof.
  intros Ha Hb. destruct conj; unfold LogicalAndFn, LogicalOrFn; do 2 run_step;
    (destruct da as [x|m]; [|done]); rewrite BooleanString_truth;
    (destruct (truth x); simpl; [|]); try done; run_step; apply Hb.
Qed.

Lemma LogicalNotFn_is a da st :
  arg_is a da →
  LogicalNotFn [a] st = Some (result_of
    match da with inl x => inl (of_truth (negb (truth x))) | inr m => inr m end st).
Proof.
  intros Ha. unfold LogicalNotFn. do 2 run_step. destruct da as [x|m]; [|done].
  rewrite BooleanString_truth. by destruct (truth x).
Qed.

Lemma SequenceFn_is a b da db st :
  arg_is a da → arg_is b db →
  SequenceFn [a; b] st = Some (result_of
    match da with inl _ => db | inr m => inr m end st).
Proof.
  intros Ha Hb. unfold SequenceFn. run_step. pose proof (Ha st) as E.
  destruct da; rewrite (bind_some _ _ _ _ _ E); [|done]. run_step. apply Hb.
Qed.

Lemma AbortFn_is a da st :
  arg_is a da →
  AbortFn [a] st = Some (result_of
    match da with inl m => inr m | inr _ => inr "called abort()" end st).
Proof.
  intros Ha. unfold AbortFn. pose proof (Evaluate_denote a da st (Ha st)) as E.
  destruct da; by rewrite (bind_some _ _ _ _ _ E).
Qed.

Lemma denote_strcmp (x y : string) : bool_decide (strcmp x y = 0) = bool_decide (x = y).
Proof. apply bool_decide_ext, strcmp_eq. Qed.
Lemma denote_strcmp_ne (x y : string) : bool_decide (strcmp x y ≠ 0) = bool_decide (x ≠ y).
Proof. apply bool_decide_ext. by rewrite strcmp_eq. Qed.

Lemma refinement t e :
  represents t e → term_weight t < INT_MAX → arg_is (as_arg ext e) (denote t).
Proof.
  induction 1; simpl; intros Hw st;
    repeat match goal with
    | _ : context [term_weight ?t] |- _ => lazymatch goal with
        | _ : 0 ≤ term_weight t |- _ => fail
        | _ => pose proof (term_weight_nonneg t) end end;
    repeat match goal with IH : _ → arg_is _ _ |- _ => specialize (IH ltac:(lia)) end.
  - done.
  - apply ConcatFn_is; [done..|]. intros u v Hu%denote_bound Hv%denote_bound. lia.
  - etransitivity; [by apply (LogicalFn_is true)|]. do 2 f_equal.
    destruct (denote a) as [u|]; [|done]. unfold truth. by destruct u.
  - etransitivity; [by apply (LogicalFn_is false)|]. do 2 f_equal.
    destruct (denote a) as [u|]; [|done]. unfold truth. by destruct u.
  - by apply LogicalNotFn_is.
  - etransitivity; [by apply compare_strings_is|]. do 2 f_equal.
    repeat case_match; by rewrite ?denote_strcmp.
  - etransitivity; [by apply compare_strings_is|]. do 2 f_equal.
    repeat case_match; by rewrite ?denote_strcmp_ne.
  - by apply SequenceFn_is.
  - by apply IfElseFn_is_no_else.
  - by apply IfElseFn_is.
  - by apply compare_strings_is.
  - by apply AbortFn_is.
Qed.

Lemma parse_long_pretty (z : Z) : in_s long_bits z → parse_long (pretty z) = Some z.
Proof.
  intros Hz. unfold parse_long. rewrite strtol_pretty by done.
  assert (BooleanString (pretty z) = true) as ->; [|done].
  destruct (pretty z) eqn:E; [|done]. pose proof (strtol_pretty z Hz) as Hs.
  rewrite E in Hs. injection Hs as <-. discriminate E.
Qed.

Lemma ReadArgs_is a b x y st :
  arg_is a (inl x) → arg_is b (inl y) → ReadArgs [a; b] 2 st = Some (Some [x; y], st).
Proof.
  intros Ha Hb. unfold ReadArgs. simpl. unfold mbind, M_bind.
  rewrite (Evaluate_denote a _ st (Ha st)). simpl.
  by rewrite (Evaluate_denote b _ st (Hb st)).
Qed.

Lemma LessThanIntFn_is a b (x y : Z) st :
  in_s long_bits x → in_s long_bits y →
  arg_is a (inl (pretty x)) → arg_is b (inl (pretty y)) →
  LessThanIntFn [a; b] st = Some (Some (StringValue (of_truth (bool_decide (x < y)))), st).
Proof.
  intros Hx Hy Ha Hb. unfold LessThanIntFn. rewrite decide_False by (simpl; lia).
  rewrite (bind_some _ _ _ _ _ (ReadArgs_is a b _ _ st Ha Hb)).
  rewrite !parse_long_pretty by done. by case_bool_decide; case_decide.
Qed.
End proofs.

(** ** The function table *)

Definition table_ok (t : FnTable) : Prop :=
  fn_entries t = length (fn_table t) ∧ (fn_entries t ≤ fn_size t)%nat.

Lemma RegisterFunction_ok nm f t : table_ok t →
  ∃ t', RegisterFunction nm f t = Some (tt, t') ∧ table_ok t' ∧
    fn_table t' = fn_table t ++ [mkNamedFunction nm f].
Proof.
  intros [He Hs]. unfold RegisterFunction.
  rewrite decide_True by (case_decide; lia). eexists. split; [done|].
  unfold table_ok. simpl. rewrite length_app, length_take, take_ge by lia. simpl.
  split; [|done]. case_decide; lia.
Qed.

Lemma RegisterAll_ok fs t : table_ok t →
  ∃ t', RegisterAll fs t = Some (tt, t') ∧ table_ok t' ∧ fn_table t' = fn_table t ++ fs.
Proof.
  revert t. induction fs as [|[nm f] fs IH]; intros t Ht; simpl.
  - exists t. by rewrite app_nil_r.
  - destruct (RegisterFunction_ok nm f t Ht) as (t1 & E1 & Ht1 & Hl1).
    destruct (IH t1 Ht1) as (t2 & E2 & Ht2 & Hl2). exists t2.
    rewrite (bind_some _ _ _ _ _ E1), Hl2, Hl1, <- app_assoc. done.
Qed.

Lemma fn_entry_compare_total x y : fn_entry_compare x y ≤ 0 ∨ fn_entry_compare y x ≤ 0.
Proof. unfold fn_entry_compare. rewrite (strcmp_antisym (nf_name x)). lia. Qed.

Lemma FindFunction_spec nm t f :
  StronglySorted (cmp_le fn_entry_compare) (fn_table t) →
  NoDup (nf_name <$> fn_table t) →
  FindFunction nm t = Some f ↔ mkNamedFunction nm f ∈ fn_table t.
Proof.
  intros Hs Hnd. set (cmp := fn_entry_compare (mkNamedFunction nm FnLiteral)).
  assert (∀ i j x y, (i < j)%nat → fn_table t !! i = Some x → fn_table t !! j = Some y →
    (0 < cmp y → 0 < cmp x) ∧ (cmp x < 0 → cmp y < 0)) as Hmono.
  { intros i j x y Hij Hi Hj.
    pose proof (StronglySorted_lookup _ _ _ _ _ _ Hs Hij Hi Hj) as Hxy.
    unfold cmp, cmp_le, fn_entry_compare in *. simpl.
    pose proof (strcmp_trans nm (nf_name x) (nf_name y)).
    pose proof (strcmp_trans (nf_name x) (nf_name y) nm).
    rewrite (strcmp_antisym nm (nf_name y)), (strcmp_antisym nm (nf_name x)) in *. lia. }
  pose proof (bsearch_spec cmp (fn_table t) Hmono) as Hb. unfold FindFunction. fold cmp.
  rewrite fmap_Some. split.
  - intros ([nm' g] & [Hin Hc]%bsearch_loop_sound & ->).
    apply strcmp_eq in Hc. simpl in *. by subst.
  - intros Hin. assert (is_Some (bsearch cmp (fn_table t))) as [x Hx].
    { apply Hb. exists (mkNamedFunction nm f). split; [done|by apply strcmp_eq]. }
    exists x. split; [done|]. apply bsearch_loop_sound in Hx as [Hx Hc].
    apply strcmp_eq in Hc. simpl in Hc.
    apply list_elem_of_lookup in Hin as [i Hi], Hx as [j Hj].
    assert (i = j) as ->; [|rewrite Hi in Hj; by injection Hj as <-].
    eapply (NoDup_lookup (nf_name <$> fn_table t)); rewrite ?list_lookup_fmap;
      [done|by rewrite Hi|by rewrite Hj; simpl; rewrite <- Hc].
Qed.

(** * Properties *)

(** C25: evaluating a well-formed script never faults. For every expression
    built from the builtins whose calls have the arguments they need and whose
    source ranges lie in the script, evaluation ends, keeps the script, and
    gives either a terminated string no longer than the weight of the
    expression or [NULL] with an error message set. *)
Theorem evaluation_safe `{Abi} {C} ext (e : Expr) (st : @State C) :
  wf_expr (strlen (script st)) e = true → expr_weight e < INT_MAX →
  ∃ r st', EvaluateValue ext e st = Some (r, st') ∧ script st' = script st ∧
    match r with
    | Some v => v_type v = VAL_STRING ∧ v_size v = strlen (v_data v) ∧
                strlen (v_data v) ≤ expr_weight e
    | None => is_Some (errmsg st')
    end.
Proof.
  intros Hwf Hw. destruct (EvaluateValue_ok ext (script st) e Hwf Hw) as [He _].
  destruct (He st eq_refl) as (r & st' & E & Hs & Hr). by exists r, st'.
Qed.

(** C15: the interpreter implements the language of the README: the expression
    the parser builds for a term evaluates to the string the term denotes and
    changes nothing, or stops with the message of its [abort]; in particular
    the arguments an operator does not need are not evaluated. *)
Theorem evaluation_refines `{Abi} {C} ext (t : Term) (e : Expr) (st : @State C) :
  represents t e → term_weight t < INT_MAX →
  EvaluateValue ext e st = Some
    (match denote t with
     | inl s => (Some (StringValue s), st)
     | inr m => (None, set_errmsg m st)
     end).
Proof. intros Hr Hw. exact (refinement ext t e Hr Hw st). Qed.

(** integer comparison. On the decimal texts of two values of [long],
    [less_than_int] decides [<] and [greater_than_int] decides [>], with no
    change of state. *)
Lemma int_comparison `{Abi} {C} ext (x y : Z) loc loc' s e nm (st : @State C) :
  in_s long_bits x → in_s long_bits y →
  let args := [LiteralExpr (pretty x) loc; LiteralExpr (pretty y) loc'] in
  EvaluateValue ext (mkExpr FnLessThanInt nm args s e) st =
    Some (Some (StringValue (if decide (x < y) then "t" else "")), st) ∧
  EvaluateValue ext (mkExpr FnGreaterThanInt nm args s e) st =
    Some (Some (StringValue (if decide (x > y) then "t" else "")), st).
Proof.
  intros Hx Hy args. split.
  - etransitivity; [by apply (LessThanIntFn_is _ _ x y)|]. by case_bool_decide; case_decide.
  - etransitivity; [by apply (LessThanIntFn_is _ _ y x)|].
    by case_bool_decide; case_decide; try lia.
Qed.

(** a name is found in the finished table exactly when it was registered,
    and with the function it was registered with, provided no name was
    registered twice; no registration writes outside the allocated table. *)
Lemma find_registered fs :
  NoDup (nf_name <$> builtins ++ fs) →
  ∃ t, (_ ← RegisterBuiltins; _ ← RegisterAll fs; FinishRegistration) empty_table
       = Some (tt, t) ∧
    ∀ nm f, FindFunction nm t = Some f ↔ mkNamedFunction nm f ∈ builtins ++ fs.
Proof.
  intros Hnd.
  destruct (RegisterAll_ok fs (mkFnTable 9 15 builtins)) as (t & E & _ & Hl).
  { split; simpl; lia. }
  eexists. split.
  - rewrite (bind_some _ _ empty_table tt (mkFnTable 9 15 builtins)) by done.
    by rewrite (bind_some _ _ _ _ _ E).
  - intros nm f. rewrite FindFunction_spec; simpl; rewrite Hl.
    + by rewrite qsort_Permutation.
    + apply qsort_sorted; [apply fn_entry_compare_total|].
      intros x y z. apply strcmp_trans.
    + by rewrite qsort_Permutation.
Qed.

(** [is_substring] and the operators built on two strings read [argv[1]]
    without looking at [argc]: called with one argument that evaluates to a
    string, [is_substring] reads past its argument array. *)
Lemma is_substring_one_argument_faults `{Abi} {C} ext nm (t : Term) x s e (st : @State C) m :
  represents t x → term_weight t < INT_MAX → denote t = inl m →
  EvaluateValue ext (mkExpr FnSubstring nm [x] s e) st = None.
Proof.
  intros Hr Hw Hd. pose proof (refinement ext t x Hr Hw) as Ha. rewrite Hd in Ha.
  simpl. unfold SubstringFn, compare_strings.
  erewrite argv_at_run by reflexivity. by rewrite (Evaluate_run _ _ _ st Ha).
Qed.

(** ** Witnesses *)

Definition no_ext {C} : string → string → list (@Arg C) → M (@State C) (option Value) :=
  λ _ _ _, fault.
Definition sample_state (s : string) : @State unit := mkState tt s None [].

Definition sample_expr : Expr :=
  Build FnConcat (0, 5) [LiteralExpr "a" (0, 1); LiteralExpr "b" (4, 5)].
Definition sample_term : Term := TIf (TEq (TConcat (TLit "a") (TLit "b")) (TLit "ab"))
  (TLit "yes") (Some (TAbort (TLit "no"))).
Definition sample_term_expr : Expr :=
  Build FnIfElse (0, 30)
    [Build FnEquality (3, 15) [Build FnConcat (3, 9) [LiteralExpr "a" (3, 4); LiteralExpr "b" (7, 8)];
                               LiteralExpr "ab" (12, 14)];
     LiteralExpr "yes" (16, 19); mkExpr FnAbort "abort" [LiteralExpr "no" (0, 0)] 20 30].

Lemma evaluation_safe_witness :
  wf_expr 5 sample_expr = true ∧
  ∃ r st', EvaluateValue (H := abi32) no_ext sample_expr (sample_state "a + b") = Some (r, st') ∧
    script st' = "a + b" ∧
    match r with
    | Some v => v_type v = VAL_STRING ∧ v_size v = strlen (v_data v) ∧
                strlen (v_data v) ≤ expr_weight sample_expr
    | None => is_Some (errmsg st')
    end.
Proof.
  split; [reflexivity|].
  apply (evaluation_safe (H := abi32) no_ext sample_expr (sample_state "a + b"));
    vm_compute; reflexivity.
Defined.

Lemma evaluation_refines_witness :
  represents sample_term sample_term_expr ∧ denote sample_term = inl "yes" ∧
  EvaluateValue (H := abi32) no_ext sample_term_expr (sample_state "") =
    Some (Some (StringValue "yes"), sample_state "").
Proof.
  assert (represents sample_term sample_term_expr) as Hr by repeat constructor.
  split; [exact Hr|]. split; [reflexivity|].
  exact (evaluation_refines (H := abi32) no_ext sample_term sample_term_expr (sample_state "")
    Hr eq_refl).
Defined.

Lemma int_comparison_witness :
  in_s (long_bits (Abi := abi32)) (-3) ∧
  EvaluateValue (H := abi32) no_ext
    (mkExpr FnLessThanInt "less_than_int"
      [LiteralExpr (pretty (-3)) (0, 0); LiteralExpr (pretty 14) (0, 0)] 0 0) (sample_state "") =
    Some (Some (StringValue (if decide (-3 < 14) then "t" else "")), sample_state "").
Proof.
  assert (in_s (long_bits (Abi := abi32)) (-3)) as Hx by (simpl; unfold in_s; lia).
  assert (in_s (long_bits (Abi := abi32)) 14) as Hy by (simpl; unfold in_s; lia).
  split; [exact Hx|].
  exact (proj1 (int_comparison (H := abi32) no_ext (-3) 14 (0, 0) (0, 0) 0 0 "less_than_int"
    (sample_state "") Hx Hy)).
Defined.

Lemma find_registered_witness :
  ∃ t, (_ ← RegisterBuiltins; _ ← RegisterAll [mkNamedFunction "mount" (FnExt "MountFn")];
        FinishRegistration) empty_table = Some (tt, t) ∧
    ∀ nm f, FindFunction nm t = Some f ↔
            mkNamedFunction nm f ∈ builtins ++ [mkNamedFunction "mount" (FnExt "MountFn")].
Proof.
  apply (find_registered [mkNamedFunction "mount" (FnExt "MountFn")]).
  apply (bool_decide_unpack _). vm_compute. exact I.
Defined.

Lemma is_substring_one_argument_faults_witness :
  EvaluateValue (H := abi32) no_ext
    (mkExpr FnSubstring "is_substring" [LiteralExpr "a" (13, 14)] 0 15) (sample_state "") = None.
Proof.
  apply (is_substring_one_argument_faults (H := abi32) no_ext "is_substring" (TLit "a")
    (LiteralExpr "a" (13, 14)) 0 15 (sample_state "") "a"); [constructor|vm_compute; reflexivity|reflexivity].
Defined.
