(* ===== verification/Bytes.v ===== *)
(** Bytes in memory and the integers stored in them: [applypatch/utils.c] and
    the accessors of [minzip/Bits.h].

    A memory object is the list of its bytes, each a [Z] in [0..255]; a
    pointer into it is an offset, and an access outside the object is [None]. *)
From S2P Require Import Prelude.

Abbreviation bytes := (list Z).
Definition is_bytes (l : bytes) : Prop := Forall (in_u 8) l.

#[global] Instance is_bytes_dec l : Decision (is_bytes l).
Proof. unfold is_bytes. apply _. Defined.

(** * Reading integers *)

Definition get2LE (p : bytes) (i : Z) : option Z :=
  b0 ← znth p i; b1 ← znth p (i + 1);
  Some (Z.lor b0 (Z.shiftl b1 8)).
Definition get4LE (p : bytes) (i : Z) : option Z :=
  b0 ← znth p i; b1 ← znth p (i + 1); b2 ← znth p (i + 2); b3 ← znth p (i + 3);
  Some (Z.lor (Z.lor (Z.lor b0 (Z.shiftl b1 8)) (Z.shiftl b2 16)) (Z.shiftl b3 24)).
Definition get8LE (p : bytes) (i : Z) : option Z :=
  lo ← get4LE p i; hi ← get4LE p (i + 4);
  Some (Z.lor lo (Z.shiftl hi 32)).
Definition get2BE (p : bytes) (i : Z) : option Z :=
  b0 ← znth p i; b1 ← znth p (i + 1);
  Some (Z.lor (Z.shiftl b0 8) b1).
Definition get4BE (p : bytes) (i : Z) : option Z :=
  b0 ← znth p i; b1 ← znth p (i + 1); b2 ← znth p (i + 2); b3 ← znth p (i + 3);
  Some (Z.lor (Z.lor (Z.lor (Z.shiftl b0 24) (Z.shiftl b1 16)) (Z.shiftl b2 8)) b3).

(** The readers of [applypatch/utils.c] return signed integers. *)
Definition Read2 (p : bytes) (i : Z) : option Z := get2LE p i.
Definition Read4 (p : bytes) (i : Z) : option Z := s32 <$> get4LE p i.
Definition Read8 (p : bytes) (i : Z) : option Z := s64 <$> get8LE p i.

(** * Writing integers: the bytes stored *)

Definition byte_at (val shift : Z) : Z := Z.land (Z.shiftr val shift) 255.
Definition set2LE (val : Z) : bytes := [byte_at val 0; byte_at val 8].
Definition set4LE (val : Z) : bytes :=
  [byte_at val 0; byte_at val 8; byte_at val 16; byte_at val 24].
Definition set8LE (val : Z) : bytes :=
  [byte_at val 0; byte_at val 8; byte_at val 16; byte_at val 24;
   byte_at val 32; byte_at val 40; byte_at val 48; byte_at val 56].
Definition set2BE (val : Z) : bytes := [byte_at val 8; byte_at val 0].
Definition set4BE (val : Z) : bytes :=
  [byte_at val 24; byte_at val 16; byte_at val 8; byte_at val 0].

Definition Write4 (value : Z) : bytes := set4LE value.
Definition Write8 (value : Z) : bytes := set8LE value.

(** [memcmp] of two regions of the same length. *)
Fixpoint memcmp (a b : bytes) : Z :=
  match a, b with
  | x :: a, y :: b => if decide (x = y) then memcmp a b else x - y
  | _, _ => 0
  end.

(** The bytes of a string constant. *)
Definition bytes_of_string (s : string) : bytes :=
  map (λ c, Z.of_nat (nat_of_ascii c)) (String.list_ascii_of_string s).

(** The string a block starts with. *)
Fixpoint c_string (block : bytes) : bytes :=
  match block with
  | [] => []
  | b :: block => if decide (b = 0) then [] else b :: c_string block
  end.

(** Stores [src] at [i] of [dst]; [None] when it does not fit. *)
Definition store (dst : bytes) (i : Z) (src : bytes) : option bytes :=
  if decide (0 ≤ i ∧ i + zlen src ≤ zlen dst)
  then Some (take (Z.to_nat i) dst ++ src ++ drop (Z.to_nat (i + zlen src)) dst)
  else None.

(** * Lemmas *)

Lemma zlen_bytes_of_string s : zlen (bytes_of_string s) = Z.of_nat (String.length s).
Proof.
  unfold zlen, bytes_of_string. rewrite length_map. f_equal. induction s; simpl; congruence.
Qed.

Lemma byte_at_in_u val shift : 0 ≤ shift → in_u 8 (byte_at val shift).
Proof.
  intros. unfold byte_at, in_u. change 255 with (Z.ones 8).
  rewrite Z.land_ones by lia. apply Z.mod_pos_bound. lia.
Qed.

Lemma byte_at_div val shift : 0 ≤ shift → byte_at val shift = (val / 2 ^ shift) mod 256.
Proof.
  intros. unfold byte_at. change 255 with (Z.ones 8).
  by rewrite Z.land_ones, Z.shiftr_div_pow2 by lia.
Qed.

Lemma lor_shiftl_add a b n : 0 ≤ n → 0 ≤ a < 2 ^ n → Z.lor a (Z.shiftl b n) = a + b * 2 ^ n.
Proof.
  intros Hn Ha. rewrite <- (Z.shiftl_mul_pow2 b n) by done.
  rewrite Z.add_nocarry_lxor; [symmetry; apply Z.lxor_lor|].
  all: apply Z.bits_inj'; intros i Hi; rewrite Z.land_spec, Z.bits_0.
  all: destruct (decide (i < n)); [by rewrite Z.shiftl_spec_low, andb_false_r by lia|].
  all: destruct (decide (a = 0)) as [->|]; [by rewrite Z.bits_0|].
  all: rewrite (Z.bits_above_log2 a); [done|lia|].
  all: apply Z.lt_le_trans with n; [apply Z.log2_lt_pow2; lia|lia].
Qed.

Lemma get4LE_value b0 b1 b2 b3 l :
  in_u 8 b0 → in_u 8 b1 → in_u 8 b2 → in_u 8 b3 →
  get4LE (b0 :: b1 :: b2 :: b3 :: l) 0 = Some (b0 + b1 * 256 + b2 * 65536 + b3 * 16777216).
Proof.
  unfold in_u. intros. unfold get4LE, znth. simpl.
  rewrite (lor_shiftl_add b0 b1 8), (lor_shiftl_add _ b2 16), (lor_shiftl_add _ b3 24) by lia.
  f_equal.
Qed.

Lemma znth_app_r {A} (l k : list A) i : 0 ≤ i → znth (l ++ k) (zlen l + i) = znth k i.
Proof.
  intros Hi. unfold znth, zlen. rewrite !decide_True by lia.
  rewrite lookup_app_r by lia. f_equal. lia.
Qed.
Lemma znth_app_l {A} (l k : list A) i : i < zlen l → znth (l ++ k) i = znth l i.
Proof.
  intros Hi. unfold znth, zlen in *. case_decide; [|done]. apply lookup_app_l. lia.
Qed.

Lemma get4LE_app_r l k i : 0 ≤ i → get4LE (l ++ k) (zlen l + i) = get4LE k i.
Proof. intros. unfold get4LE. rewrite <- !Z.add_assoc, !znth_app_r by lia. done. Qed.
Lemma get8LE_app_r l k i : 0 ≤ i → get8LE (l ++ k) (zlen l + i) = get8LE k i.
Proof. intros. unfold get8LE. rewrite <- !Z.add_assoc, !get4LE_app_r by lia. done. Qed.

Lemma set4LE_bytes v : is_bytes (set4LE v).
Proof. repeat constructor; apply byte_at_in_u; lia. Qed.

Lemma get4LE_set4LE v l : get4LE (set4LE v ++ l) 0 = Some (u32 v).
Proof.
  pose proof (set4LE_bytes v) as Hb. unfold set4LE in *. cbn [app].
  repeat (apply Forall_cons in Hb as [? Hb]). rewrite get4LE_value by done.
  f_equal. rewrite !byte_at_div by lia. unfold wrap_u.
  change (2 ^ 0) with 1. change (2 ^ 8) with 256. change (2 ^ 16) with (256 * 256).
  change (2 ^ 24) with (256 * 256 * 256). change (2 ^ 32) with (256 * (256 * (256 * 256))).
  rewrite Z.div_1_r, <- !Z.div_div by lia.
  rewrite !(Z.rem_mul_r _ 256) by lia. lia.
Qed.

Lemma get8LE_set8LE v l : get8LE (set8LE v ++ l) 0 = Some (u64 v).
Proof.
  assert (set8LE v = set4LE v ++ set4LE (Z.shiftr v 32)) as ->.
  { unfold set8LE, set4LE, byte_at. cbn [app]. by rewrite !Z.shiftr_shiftr by lia. }
  rewrite <- app_assoc. unfold get8LE. rewrite get4LE_set4LE. cbn [mbind option_bind].
  change (0 + 4) with (zlen (set4LE v) + 0). rewrite get4LE_app_r, get4LE_set4LE by lia.
  cbn [mbind option_bind]. f_equal. unfold wrap_u.
  rewrite lor_shiftl_add; [|lia|by apply Z.mod_pos_bound].
  rewrite Z.shiftr_div_pow2 by lia. change (2 ^ 64) with (2 ^ 32 * 2 ^ 32).
  rewrite Z.rem_mul_r by lia. lia.
Qed.

Lemma store_spec dst i src : 0 ≤ i → i + zlen src ≤ zlen dst →
  ∃ a b c, dst = a ++ b ++ c ∧ zlen a = i ∧ length b = length src ∧
    store dst i src = Some (a ++ src ++ c).
Proof.
  intros Hi Hl. unfold store, zlen in *. rewrite decide_True by lia.
  exists (take (Z.to_nat i) dst), (take (length src) (drop (Z.to_nat i) dst)),
    (drop (Z.to_nat (i + Z.of_nat (length src))) dst).
  split_and!.
  - rewrite <- (take_drop (Z.to_nat i) dst) at 1. f_equal.
    rewrite <- (take_drop (length src) (drop (Z.to_nat i) dst)) at 1. f_equal.
    rewrite drop_drop. f_equal. lia.
  - rewrite length_take. lia.
  - rewrite length_take, length_drop. lia.
  - done.
Qed.

(** Storing behind the used front of a buffer. *)
Lemma store_front buf n src : 0 ≤ n → n + zlen src ≤ zlen buf →
  ∃ buf', store buf n src = Some buf' ∧ zlen buf' = zlen buf ∧
    take (Z.to_nat (n + zlen src)) buf' = take (Z.to_nat n) buf ++ src.
Proof.
  intros Hn Hl. destruct (store_spec buf n src Hn Hl) as (a & b & c & -> & <- & Hb & ->).
  eexists. split; [done|]. split; [unfold zlen; rewrite !length_app; lia|].
  unfold zlen. rewrite Nat2Z.id, take_app_length.
  replace (Z.to_nat _) with (length (a ++ src)) by (rewrite length_app; lia).
  by rewrite app_assoc, take_app_length.
Qed.

Lemma memcmp_eq a b : zlen a = zlen b → memcmp a b = 0 → a = b.
Proof.
  revert b. induction a as [|x a IH]; intros b Hl.
  - intros _. symmetry. apply zlen_nil_inv. rewrite <- Hl. done.
  - destruct b as [|y b]; [unfold zlen in Hl; simpl in Hl; lia|].
    rewrite !zlen_cons in Hl. simpl. case_decide; [|lia]. intros Hm. subst. f_equal.
    apply IH; [lia|done].
Qed.
Lemma memcmp_refl a : memcmp a a = 0.
Proof. induction a as [|x a IH]; [done|]. simpl. by rewrite decide_True. Qed.

(** ** Reads inside an object *)
Lemma znth_byte p i : is_bytes p → 0 ≤ i < zlen p → ∃ b, znth p i = Some b ∧ 0 ≤ b < 256.
Proof.
  intros Hp Hi. destruct (proj2 (znth_is_Some p i) Hi) as [b Hb]. exists b. split; [done|].
  unfold znth in Hb. case_decide; [|done]. by eapply (Forall_lookup_1 (in_u 8)) in Hb.
Qed.
Lemma get2LE_ok p i : is_bytes p → 0 ≤ i → i + 2 ≤ zlen p →
  ∃ v, get2LE p i = Some v ∧ 0 ≤ v < 65536.
Proof.
  intros Hp Hi Hl. unfold get2LE.
  destruct (znth_byte p i) as (b0 & -> & ?); [done|lia|]. simpl.
  destruct (znth_byte p (i + 1)) as (b1 & -> & ?); [done|lia|].
  simpl. rewrite (lor_shiftl_add b0 b1 8) by lia. eexists. split; [done|lia].
Qed.
Lemma get4LE_ok p i : is_bytes p → 0 ≤ i → i + 4 ≤ zlen p →
  ∃ v, get4LE p i = Some v ∧ in_u 32 v.
Proof.
  intros Hp Hi Hl. unfold get4LE.
  destruct (znth_byte p i) as (b0 & -> & ?); [done|lia|]. simpl.
  destruct (znth_byte p (i + 1)) as (b1 & -> & ?); [done|lia|]. simpl.
  destruct (znth_byte p (i + 2)) as (b2 & -> & ?); [done|lia|]. simpl.
  destruct (znth_byte p (i + 3)) as (b3 & -> & ?); [done|lia|].
  simpl. rewrite (lor_shiftl_add b0 b1 8), (lor_shiftl_add _ b2 16), (lor_shiftl_add _ b3 24) by lia.
  eexists. split; [done|]. unfold in_u. lia.
Qed.

Lemma Read4_Some p i v : Read4 p i = Some v → 0 ≤ i ∧ i + 4 ≤ zlen p ∧ in_s 32 v.
Proof.
  unfold Read4, get4LE. intros E. apply fmap_Some in E as (w & E & ->).
  destruct (znth p i) eqn:E0; [|done]. cbn in E. destruct (znth p (i + 1)); [|done]. cbn in E.
  destruct (znth p (i + 2)); [|done]. cbn in E. destruct (znth p (i + 3)) eqn:E3; [|done].
  apply znth_Some in E0, E3. split_and!; [lia|lia|]. by apply wrap_s_range.
Qed.

(** ** Fields of a record

    [Read4] and [Read8] at an offset into a concatenation of fields. *)
Lemma Read4_app_r l k i : 0 ≤ i → Read4 (l ++ k) (zlen l + i) = Read4 k i.
Proof. intros. unfold Read4. by rewrite get4LE_app_r. Qed.
Lemma Read8_app_r l k i : 0 ≤ i → Read8 (l ++ k) (zlen l + i) = Read8 k i.
Proof. intros. unfold Read8. by rewrite get8LE_app_r. Qed.
Lemma Read4_here v l : Read4 (set4LE v ++ l) 0 = Some (s32 v).
Proof.
  unfold Read4. rewrite get4LE_set4LE. simpl. f_equal. unfold wrap_s, wrap_u.
  by rewrite Z.add_mod_idemp_l by lia.
Qed.
Lemma Read8_here v l : in_s 64 v → Read8 (set8LE v ++ l) 0 = Some v.
Proof.
  intros Hv. unfold Read8. rewrite get8LE_set8LE. simpl. f_equal.
  rewrite <- (wrap_s_id 64 v) at 2 by (done || lia). unfold wrap_s, wrap_u.
  by rewrite Z.add_mod_idemp_l by lia.
Qed.
Lemma Read4_skip4 v l i : 4 ≤ i → Read4 (set4LE v ++ l) i = Read4 l (i - 4).
Proof. intros. rewrite <- (Read4_app_r (set4LE v) l) by lia. f_equal. unfold zlen. simpl. lia. Qed.
Lemma Read4_skip8 v l i : 8 ≤ i → Read4 (set8LE v ++ l) i = Read4 l (i - 8).
Proof. intros. rewrite <- (Read4_app_r (set8LE v) l) by lia. f_equal. unfold zlen. simpl. lia. Qed.
Lemma Read8_skip4 v l i : 4 ≤ i → Read8 (set4LE v ++ l) i = Read8 l (i - 4).
Proof. intros. rewrite <- (Read8_app_r (set4LE v) l) by lia. f_equal. unfold zlen. simpl. lia. Qed.
Lemma Read8_skip8 v l i : 8 ≤ i → Read8 (set8LE v ++ l) i = Read8 l (i - 8).
Proof. intros. rewrite <- (Read8_app_r (set8LE v) l) by lia. f_equal. unfold zlen. simpl. lia. Qed.

(** Evaluates the reads of a record of known fields at literal offsets. *)
Ltac read_fields :=
  repeat match goal with
  | |- context [Read8 (set8LE ?v ++ ?l) 0] => rewrite (Read8_here v l) by (unfold in_s; lia)
  | |- context [Read4 (set4LE ?v ++ ?l) 0] => rewrite (Read4_here v l)
  | |- context [Read8 (set4LE ?v ++ ?l) (Zpos ?i)] =>
      rewrite (Read8_skip4 v l (Zpos i)) by lia; let k := eval compute in (Zpos i - 4) in
      change (Zpos i - 4) with k
  | |- context [Read8 (set8LE ?v ++ ?l) (Zpos ?i)] =>
      rewrite (Read8_skip8 v l (Zpos i)) by lia; let k := eval compute in (Zpos i - 8) in
      change (Zpos i - 8) with k
  | |- context [Read4 (set4LE ?v ++ ?l) (Zpos ?i)] =>
      rewrite (Read4_skip4 v l (Zpos i)) by lia; let k := eval compute in (Zpos i - 4) in
      change (Zpos i - 4) with k
  | |- context [Read4 (set8LE ?v ++ ?l) (Zpos ?i)] =>
      rewrite (Read4_skip8 v l (Zpos i)) by lia; let k := eval compute in (Zpos i - 8) in
      change (Zpos i - 8) with k
  end.

(** The record at [pos] of a file. *)
Lemma fields_at file pos n rec : zslice file pos n = Some rec →
  ∃ c, (∀ k, 0 ≤ k → Read4 file (pos + k) = Read4 (rec ++ c) k) ∧
       (∀ k, 0 ≤ k → Read8 file (pos + k) = Read8 (rec ++ c) k) ∧
       0 ≤ pos ∧ pos + n ≤ zlen file ∧ zlen rec = n.
Proof.
  intros (a & c & -> & <- & <-)%zslice_inv. exists c. split_and!.
  - intros. by apply Read4_app_r.
  - intros. by apply Read8_app_r.
  - apply zlen_nonneg.
  - rewrite !zlen_app. pose proof (zlen_nonneg c). lia.
  - done.
Qed.
