(* ===== verification/Bz2.v ===== *)
(** The interface to libbzip2, a library outside the repository: the
    operations the patch code calls, and the documented behaviour it relies on.
    [applypatch/bspatch.c] decompresses with it, [applypatch/bsdiff.c]
    compresses. *)
From S2P Require Import Prelude Bytes.

Definition BZ_OK : Z := 0.
Definition BZ_STREAM_END : Z := 4.

(** [bz_init input] is a stream after [BZ2_bzDecompressInit] with [next_in] and
    [avail_in] describing [input]; [BZ2_bzDecompress s avail_out] gives the
    return code, the bytes stored at [next_out] and the new stream;
    [bz_compress data] is what [BZ2_bzWriteOpen], writes of [data] and
    [BZ2_bzWriteClose] put into the file. *)
Class Bz2 := {
  bz_stream : Type;
  bz_init : bytes → bz_stream;
  BZ2_bzDecompress : bz_stream → Z → Z * bytes * bz_stream;
  bz_compress : bytes → bytes
}.

(** A call never stores more than [avail_out] bytes.  [bz_holds s out]: the
    stream [s] has exactly [out] left to produce; while output is left and
    there is room for it a call makes progress, without an error. *)
Class Bz2Laws (B : Bz2) := {
  bz_holds : bz_stream → bytes → Prop;
  bz_room : ∀ s n err chunk s', 0 ≤ n →
    BZ2_bzDecompress s n = (err, chunk, s') → zlen chunk ≤ n;
  bz_progress : ∀ s out n, bz_holds s out → out ≠ [] → 0 < n →
    ∃ err chunk rest s', BZ2_bzDecompress s n = (err, chunk, s') ∧
      (err = BZ_OK ∨ err = BZ_STREAM_END) ∧ out = chunk ++ rest ∧ chunk ≠ [] ∧
      zlen chunk ≤ n ∧ bz_holds s' rest;
  bz_round_trip : ∀ data rest, bz_holds (bz_init (bz_compress data ++ rest)) data
}.

(** ** A codec that stores its input

    Every byte is preceded by a 1 and the data ends with a 0; at the end of a
    truncated input it asks for more, as libbzip2 does.  It shows that
    the interface can be implemented, and lets the examples of the development
    compute. *)
Definition stored_compress (data : bytes) : bytes := concat (map (λ b, [1; b]) data) ++ [0].

Fixpoint stored_take (n : nat) (s : bytes) : bytes * bytes :=
  match n, s with
  | S n, 1 :: b :: s' => let '(chunk, rest) := stored_take n s' in (b :: chunk, rest)
  | _, _ => ([], s)
  end.

#[export] Instance stored_bz2 : Bz2 := {|
  bz_stream := bytes;
  bz_init input := input;
  BZ2_bzDecompress s n :=
    let '(chunk, rest) := stored_take (Z.to_nat (n `min` zlen s)) s in
    (if decide (chunk = [] ∧ rest ≠ []) then -4
     else if decide (head rest = Some 0) then BZ_STREAM_END else BZ_OK, chunk, rest);
  bz_compress := stored_compress
|}.

Lemma stored_take_bound n s chunk rest : stored_take n s = (chunk, rest) → (length chunk ≤ n)%nat.
Proof.
  revert s chunk rest. induction n as [|n IH]; intros s chunk rest.
  - intros [= <- _]. done.
  - destruct s as [|[|[]|] [|b s]]; simpl; try by intros [= <- _]; simpl; lia.
    destruct (stored_take n s) as [c r] eqn:E. intros [= <- _]. apply IH in E. simpl. lia.
Qed.

Lemma stored_take_prefix n data rest :
  stored_take n (stored_compress data ++ rest) =
    (take n data, stored_compress (drop n data) ++ rest).
Proof.
  revert data. induction n as [|n IH]; intros data; [by rewrite drop_0|].
  destruct data as [|b data]; [done|].
  change (stored_compress (b :: data) ++ rest) with (1 :: b :: stored_compress data ++ rest).
  cbn [stored_take]. by rewrite IH.
Qed.

#[export] Instance stored_bz2_laws : Bz2Laws stored_bz2.
Proof.
  refine {| bz_holds := λ (s : bz_stream (Bz2 := stored_bz2)) out,
              ∃ rest, s = stored_compress out ++ rest |}.
  - intros s n err chunk s' Hn. simpl.
    destruct (stored_take (Z.to_nat (n `min` zlen s)) s) as [c r] eqn:E. intros [= _ <- _].
    apply stored_take_bound in E. unfold zlen. lia.
  - intros s out n [rest ->] Hne Hn. simpl. rewrite stored_take_prefix.
    set (k := Z.to_nat _). assert (take k out ≠ []) as Htake.
    { destruct out as [|x out]; [done|]. destruct k eqn:E; [|done].
      unfold k, zlen in E. rewrite length_app in E. simpl in E. lia. }
    eexists _, _, (drop k out), _. split; [done|].
    rewrite decide_False by tauto. split; [case_decide; auto|].
    split; [symmetry; apply take_drop|]. split; [done|]. split; [|by exists rest].
    unfold zlen. rewrite length_take. unfold k. lia.
  - intros data rest. by exists rest.
Defined.
