(* ===== verification/BsPatch.v ===== *)
(** Applying a bsdiff patch: [applypatch/bspatch.c]. *)
From S2P Require Import Prelude Bytes Bz2.

(** * The 8-byte integers of the patch format

    [offtout] of [bsdiff.c] writes the magnitude in little-endian order and the
    sign in the top bit; [offtin] computes with [off_t], a type of [long_bits]
    bits. *)
Section off_t.
Context `{Abi}.

Fixpoint offtout_loop (n : nat) (y : Z) : bytes :=
  match n with
  | O => []
  | S n => let b := y mod 256 in b :: offtout_loop n ((y - b) / 256)
  end.
Definition set_sign (b : Z) : Z := Z.lor b 128.
Definition offtout (x : Z) : bytes :=
  let buf := offtout_loop 8 (if decide (x < 0) then - x else x) in
  if decide (x < 0) then alter set_sign 7%nat buf else buf.

Definition off_t (z : Z) : Z := wrap_s long_bits z.

Definition offtin (buf : bytes) (i : Z) : option Z :=
  b7 ← znth buf (i + 7); b6 ← znth buf (i + 6); b5 ← znth buf (i + 5);
  b4 ← znth buf (i + 4); b3 ← znth buf (i + 3); b2 ← znth buf (i + 2);
  b1 ← znth buf (i + 1); b0 ← znth buf i;
  let y := Z.land b7 127 in
  let y := off_t (y * 256) in let y := off_t (y + b6) in
  let y := off_t (y * 256) in let y := off_t (y + b5) in
  let y := off_t (y * 256) in let y := off_t (y + b4) in
  let y := off_t (y * 256) in let y := off_t (y + b3) in
  let y := off_t (y * 256) in let y := off_t (y + b2) in
  let y := off_t (y * 256) in let y := off_t (y + b1) in
  let y := off_t (y * 256) in let y := off_t (y + b0) in
  Some (if decide (Z.land b7 128 ≠ 0) then off_t (- y) else y).
End off_t.

Section bspatch.
Context `{Abi} `{Bz2}.
(** What [malloc] leaves in a new block, and the size of the heap. *)
Context (fresh : nat → Z) (heap : Z).

(** * Decompression *)

(** The loop of [FillBuffer]: the return code, the bytes stored from the start
    of the buffer, and the stream. *)
Fixpoint FillBuffer_loop (fuel : nat) (avail_out : Z) (stored : bytes) (stream : bz_stream)
    : run (Z * bytes * bz_stream) :=
  if decide (0 < avail_out) then
    match fuel with
    | O => OutOfFuel
    | S fuel =>
        let '(bzerr, chunk, stream) := BZ2_bzDecompress stream avail_out in
        if decide (bzerr ≠ BZ_OK ∧ bzerr ≠ BZ_STREAM_END)
        then Done (-1, stored ++ chunk, stream)
        else FillBuffer_loop fuel (avail_out - zlen chunk) (stored ++ chunk) stream
    end
  else Done (0, stored, stream).

(** [size] is an [int], [avail_out] an [unsigned int]. *)
Definition FillBuffer (fuel : nat) (size : Z) (stream : bz_stream)
    : run (Z * bytes * bz_stream) :=
  FillBuffer_loop fuel (u32 (s32 size)) [] stream.

(** A [FillBuffer] whose buffer is at [newpos] in the new data: the bytes go into the
    output block. *)
Definition fill_new_data (fuel : nat) (new_data : bytes) (newpos size : Z)
    (stream : bz_stream) : run (Z * bytes * bz_stream) :=
  '(r, stored, stream) ← FillBuffer fuel size stream;
  new_data ← access (store new_data newpos stored);
  mret (r, new_data, stream).

(** Adds old bytes to the [n] bytes at [newpos]; the loop counter is an [int]. *)
Definition add_old (old new_data : bytes) (oldpos newpos n : Z) : run bytes :=
  if decide (n ≤ INT_MAX) then
    Done (imap (λ k b,
      let i := Z.of_nat k - newpos in
      if decide (0 ≤ i < n ∧ 0 ≤ oldpos + i < zlen old)
      then u8 (b + default 0 (znth old (oldpos + i))) else b) new_data)
  else Fault.

(** * The patch *)

(** The loop over the control triples.  [fuel] bounds its iterations and those
    of each decompression. *)
Fixpoint patch_loop (fuel : nat) (old : bytes) (new_size newpos oldpos : Z)
    (new_data : bytes) (cstream dstream estream : bz_stream) : run (Z * bytes) :=
  if decide (newpos < new_size) then
    match fuel with
    | O => OutOfFuel
    | S fuel' =>
        '(r, buf, cstream) ← FillBuffer fuel 24 cstream;
        if decide (r ≠ 0) then Done (1, new_data) else
        ctrl0 ← access (offtin buf 0);
        ctrl1 ← access (offtin buf 8);
        ctrl2 ← access (offtin buf 16);
        if decide (off_t (newpos + ctrl0) > new_size) then Done (1, new_data) else
        '(r, new_data, dstream) ← fill_new_data fuel new_data newpos ctrl0 dstream;
        if decide (r ≠ 0) then Done (1, new_data) else
        new_data ← add_old old new_data oldpos newpos ctrl0;
        let newpos := off_t (newpos + ctrl0) in
        let oldpos := off_t (oldpos + ctrl0) in
        if decide (off_t (newpos + ctrl1) > new_size) then Done (1, new_data) else
        '(r, new_data, estream) ← fill_new_data fuel new_data newpos ctrl1 estream;
        if decide (r ≠ 0) then Done (1, new_data) else
        let newpos := off_t (newpos + ctrl1) in
        let oldpos := off_t (oldpos + ctrl2) in
        patch_loop fuel' old new_size newpos oldpos new_data cstream dstream estream
    end
  else Done (0, new_data).

Definition BSDIFF_MAGIC : bytes := bytes_of_string "BSDIFF40".

(** The return code and the block the new data is in. *)
Definition ApplyBSDiffPatchMem (fuel : nat) (old patch : bytes) (patch_offset : Z)
    : run (Z * bytes) :=
  magic ← access (zslice patch patch_offset 8);
  if decide (memcmp magic BSDIFF_MAGIC ≠ 0) then Done (1, []) else
  ctrl_len ← access (offtin patch (patch_offset + 8));
  data_len ← access (offtin patch (patch_offset + 16));
  new_size ← access (offtin patch (patch_offset + 24));
  if decide (ctrl_len < 0 ∨ data_len < 0 ∨ new_size < 0) then Done (1, []) else
  let ctrl_at := patch_offset + 32 in
  let data_at := ctrl_at + ctrl_len in
  let extra_at := data_at + data_len in
  cin ← access (zslice patch ctrl_at (u32 ctrl_len));
  din ← access (zslice patch data_at (u32 data_len));
  ein ← access (zslice patch extra_at (u32 (zlen patch - extra_at)));
  if decide (heap < new_size) then Done (1, []) else
  patch_loop fuel old new_size 0 0 (map fresh (seq 0 (Z.to_nat new_size)))
    (bz_init cin) (bz_init din) (bz_init ein).
End bspatch.

(** * Specification: replaying control triples

    [replay old p cs d e out q]: from position [p] of the old file, the triples
    [cs] with the difference bytes [d] and the extra bytes [e] produce [out]
    and stop at position [q]; every position stays inside the old file. *)
Definition add_bytes (d o : bytes) : bytes := zip_with (λ x y, u8 (x + y)) d o.

Inductive replay (old : bytes) : Z → list (Z * Z * Z) → bytes → bytes → bytes → Z → Prop :=
| replay_nil p : replay old p [] [] [] [] p
| replay_cons p x y z cs d o e db eb out q :
    zslice old p x = Some o → zlen d = x → zlen e = y →
    0 ≤ p + x + z ≤ zlen old →
    replay old (p + x + z) cs db eb out q →
    replay old p ((x, y, z) :: cs) (d ++ db) (e ++ eb) (add_bytes d o ++ e ++ out) q.

Definition ctrl_bytes (cs : list (Z * Z * Z)) : bytes :=
  concat (map (λ '(x, y, z), offtout x ++ offtout y ++ offtout z) cs).

(** The layout of a patch file. *)
Definition patch_file `{Bz2} (cs : list (Z * Z * Z)) (d e : bytes) (new_size : Z) : bytes :=
  let c := bz_compress (ctrl_bytes cs) in
  let d := bz_compress d in
  BSDIFF_MAGIC ++ offtout (zlen c) ++ offtout (zlen d) ++ offtout new_size ++
  c ++ d ++ bz_compress e.

(** * Proofs *)

Section off_t_lemmas.
Context `{Abi}.

Lemma long_range : 2 ^ 31 ≤ 2 ^ (long_bits - 1).
Proof. destruct long_bits_ok as [-> | ->]; lia. Qed.

Lemma off_t_id z : - INT_MAX - 1 ≤ z ≤ INT_MAX → off_t z = z.
Proof.
  intros Hz. apply wrap_s_id; [destruct long_bits_ok; lia|].
  pose proof long_range. unfold in_s, INT_MAX in *. lia.
Qed.

Lemma offtout_loop_spec n y :
  offtout_loop n y = map (λ i, y / 256 ^ Z.of_nat i mod 256) (seq 0 n).
Proof.
  revert y. induction n as [|n IH]; intros y; [done|].
  cbn [offtout_loop seq map]. f_equal; [by rewrite Z.div_1_r|].
  rewrite IH, <- seq_shift, map_map. apply map_ext. intros i.
  assert ((y - y mod 256) / 256 = y / 256) as ->.
  { pose proof (Z.div_mod y 256 ltac:(lia)).
    replace (y - y mod 256) with (y / 256 * 256) by lia. apply Z.div_mul. lia. }
  rewrite Z.div_div by lia. f_equal. f_equal.
  rewrite Nat2Z.inj_succ, Z.pow_succ_r by lia. done.
Qed.

Lemma length_offtout x : zlen (offtout x) = 8.
Proof. unfold offtout. by case_decide. Qed.

(** The magnitude has four bytes, the upper half only carries the sign. *)
Lemma offtout_small x : - INT_MAX ≤ x ≤ INT_MAX →
  let y := Z.abs x in
  offtout x = [y mod 256; y / 256 mod 256; y / 65536 mod 256; y / 16777216;
               0; 0; 0; if decide (x < 0) then 128 else 0].
Proof.
  intros Hx y. unfold offtout. rewrite offtout_loop_spec.
  assert ((if decide (x < 0) then - x else x) = y) as -> by (case_decide; lia).
  assert (0 ≤ y < 2147483648) as Hy by (unfold y, INT_MAX in *; lia).
  cbn [seq map]. change (256 ^ Z.of_nat 0) with 1. change (256 ^ Z.of_nat 1) with 256.
  change (256 ^ Z.of_nat 2) with 65536. change (256 ^ Z.of_nat 3) with 16777216.
  rewrite Z.div_1_r.
  assert (y / 16777216 mod 256 = y / 16777216) as ->.
  { apply Z.mod_small. split; [apply Z.div_pos; lia|apply Z.div_lt_upper_bound; lia]. }
  rewrite (Z.div_small y (256 ^ Z.of_nat 4)), (Z.div_small y (256 ^ Z.of_nat 5)),
    (Z.div_small y (256 ^ Z.of_nat 6)), (Z.div_small y (256 ^ Z.of_nat 7)) by lia.
  by case_decide.
Qed.

(** The arithmetic of [offtin] on the bytes it reads. *)
Lemma offtin_bytes b0 b1 b2 b3 b4 b5 b6 b7 l :
  offtin (b0 :: b1 :: b2 :: b3 :: b4 :: b5 :: b6 :: b7 :: l) 0 =
  let horner y b := off_t (off_t (y * 256) + b) in
  let y := foldl horner (Z.land b7 127) [b6; b5; b4; b3; b2; b1; b0] in
  Some (if decide (Z.land b7 128 ≠ 0) then off_t (- y) else y).
Proof.
  unfold offtin. rewrite !Z.add_0_l, !znth_lookup by lia.
  change (Z.to_nat 7) with 7%nat. change (Z.to_nat 6) with 6%nat.
  change (Z.to_nat 5) with 5%nat. change (Z.to_nat 4) with 4%nat.
  change (Z.to_nat 3) with 3%nat. change (Z.to_nat 2) with 2%nat.
  change (Z.to_nat 1) with 1%nat. change (Z.to_nat 0) with 0%nat.
  cbn [lookup list_lookup mbind option_bind foldl]. reflexivity.
Qed.

Lemma offtin_offtout x l : - INT_MAX ≤ x ≤ INT_MAX → offtin (offtout x ++ l) 0 = Some x.
Proof.
  intros Hx. rewrite offtout_small by done. set (y := Z.abs x).
  assert (0 ≤ y ≤ INT_MAX) as Hy by (unfold y, INT_MAX in *; lia).
  pose proof (Z.div_mod y 256 ltac:(lia)). pose proof (Z.mod_pos_bound y 256 ltac:(lia)).
  pose proof (Z.div_mod (y / 256) 256 ltac:(lia)).
  pose proof (Z.mod_pos_bound (y / 256) 256 ltac:(lia)).
  assert (y / 65536 = y / 256 / 256) as E2 by (rewrite Z.div_div; [done|lia..]).
  assert (y / 16777216 = y / 65536 / 256) as E3 by (rewrite Z.div_div; [done|lia..]).
  pose proof (Z.div_mod (y / 65536) 256 ltac:(lia)).
  pose proof (Z.mod_pos_bound (y / 65536) 256 ltac:(lia)).
  cbn [app]. rewrite offtin_bytes.
  assert (Z.land (if decide (x < 0) then 128 else 0) 127 = 0) as -> by by case_decide.
  assert (∀ v b, 0 ≤ v → 0 ≤ b < 256 → v * 256 + b ≤ INT_MAX →
    off_t (off_t (v * 256) + b) = v * 256 + b) as horner.
  { intros v b ???. rewrite (off_t_id (v * 256)) by lia. apply off_t_id. lia. }
  unfold INT_MAX in *. cbn [foldl]. cbv zeta.
  do 3 (rewrite (horner 0 0) by lia; change (0 * 256 + 0) with 0).
  rewrite (horner 0 (y / 16777216)) by lia.
  rewrite (horner _ (y / 65536 mod 256)) by lia. rewrite (horner _ (y / 256 mod 256)) by lia.
  rewrite (horner _ (y mod 256)) by lia.
  f_equal. destruct (decide (x < 0)).
  - rewrite decide_True by done. rewrite off_t_id by (unfold INT_MAX; lia). lia.
  - rewrite decide_False by (intros Hc; by apply Hc). lia.
Qed.

Lemma offtin_app_r l k i : 0 ≤ i → offtin (l ++ k) (zlen l + i) = offtin k i.
Proof. intros. unfold offtin. rewrite <- !Z.add_assoc, !znth_app_r by lia. done. Qed.

Lemma offtin_offtout_at l x k : - INT_MAX ≤ x ≤ INT_MAX →
  offtin (l ++ offtout x ++ k) (zlen l) = Some x.
Proof.
  intros. rewrite <- (Z.add_0_r (zlen l)), offtin_app_r by lia. by apply offtin_offtout.
Qed.
End off_t_lemmas.

Section patch_lemmas.
Context `{Abi} `{B : Bz2} `{!Bz2Laws B} (fresh : nat → Z) (heap : Z).

Lemma FillBuffer_loop_ok fuel out stored s rest :
  bz_holds s (out ++ rest) → (length out ≤ fuel)%nat →
  ∃ s', FillBuffer_loop fuel (zlen out) stored s = Done (0, stored ++ out, s') ∧
    bz_holds s' rest.
Proof.
  revert out stored s. induction fuel as [|fuel IH]; intros out stored s Hs Hf.
  - destruct out; simpl in Hf; [|lia]. exists s. by rewrite app_nil_r.
  - cbn [FillBuffer_loop]. case_decide as Hn.
    2: { destruct out; [|rewrite zlen_cons in Hn; pose proof (zlen_nonneg out); lia].
         exists s. by rewrite app_nil_r. }
    destruct (bz_progress s (out ++ rest) (zlen out) Hs) as
      (err & chunk & rest' & s' & -> & Herr & Hout & Hne & Hle & Hs'); [|done|].
    { intros [-> ->]%app_nil. done. }
    rewrite decide_False by (intros [??]; by destruct Herr).
    apply app_eq_inv in Hout as [(k & -> & ->)|(k & -> & ->)].
    + destruct (IH k (stored ++ chunk) s') as (s'' & E & Hs''); [done| |].
      { destruct chunk; [done|]. rewrite length_app in Hf. simpl in Hf. lia. }
      exists s''. rewrite zlen_app, Z.add_simpl_l, E, <- app_assoc. done.
    + assert (k = []) as ->.
      { rewrite zlen_app in Hle. destruct k; [done|]. rewrite zlen_cons in Hle.
        pose proof (zlen_nonneg k). lia. }
      rewrite app_nil_r in *. rewrite Z.sub_diag.
      destruct (IH [] (stored ++ out) s') as (s'' & E & Hs''); [done|simpl; lia|].
      exists s''. rewrite app_nil_r in E. done.
Qed.

Lemma FillBuffer_ok fuel out s rest :
  bz_holds s (out ++ rest) → zlen out ≤ INT_MAX → (length out ≤ fuel)%nat →
  ∃ s', FillBuffer fuel (zlen out) s = Done (0, out, s') ∧ bz_holds s' rest.
Proof.
  intros Hs Hn Hf. unfold FillBuffer, INT_MAX in *. pose proof (zlen_nonneg out).
  rewrite wrap_s_id, wrap_u_id by (unfold in_s, in_u; lia).
  apply (FillBuffer_loop_ok fuel out [] s rest Hs Hf).
Qed.

Lemma fill_new_data_ok fuel P R out s rest :
  bz_holds s (out ++ rest) → zlen out ≤ INT_MAX → (length out ≤ fuel)%nat →
  zlen out ≤ zlen R →
  ∃ s' R', fill_new_data fuel (P ++ R) (zlen P) (zlen out) s = Done (0, P ++ out ++ R', s') ∧
    bz_holds s' rest ∧ zlen R' = zlen R - zlen out.
Proof.
  intros Hs Hn Hf HR. destruct (FillBuffer_ok fuel out s rest Hs Hn Hf) as (s' & E & Hs').
  unfold fill_new_data. rewrite E. cbn [mbind run_bind].
  exists s', (drop (length out) R). unfold store.
  pose proof (zlen_nonneg P). rewrite decide_True by (rewrite zlen_app; lia). cbn.
  split_and!; [|done|unfold zlen in *; rewrite length_drop; lia].
  unfold zlen. rewrite Nat2Z.id, take_app_length, Z2Nat.inj_add, !Nat2Z.id by lia.
  by rewrite <- drop_drop, drop_app_length.
Qed.

Lemma imap_add_bytes (old : bytes) oldpos newpos n d o k :
  newpos ≤ Z.of_nat k → Z.of_nat k + zlen d ≤ newpos + n →
  zslice old (oldpos + (Z.of_nat k - newpos)) (zlen d) = Some o →
  imap ((λ k b,
      let i := Z.of_nat k - newpos in
      if decide (0 ≤ i < n ∧ 0 ≤ oldpos + i < zlen old)
      then u8 (b + default 0 (znth old (oldpos + i))) else b) ∘ Nat.add k) d = add_bytes d o.
Proof.
  intros Hk Hn (a & c & -> & Ha & Ho)%zslice_inv. revert k a o Hk Hn Ha Ho.
  induction d as [|x d IH]; intros k a o Hk Hn Ha Ho.
  - by destruct o.
  - destruct o as [|y o]; [rewrite zlen_cons in Ho; unfold zlen in Ho; simpl in Ho; lia|].
    rewrite !zlen_cons in *. pose proof (zlen_nonneg d). pose proof (zlen_nonneg c).
    pose proof (zlen_nonneg a). unfold add_bytes. cbn [imap zip_with]. f_equal.
    + simpl. rewrite Nat.add_0_r, decide_True by (rewrite zlen_app, zlen_cons, zlen_app; lia).
      rewrite <- Ha. rewrite <- (Z.add_0_r (zlen a)), znth_app_r by lia. done.
    + change (zip_with (λ u v, u8 (u + v)) d o) with (add_bytes d o).
      rewrite <- (IH (S k) (a ++ [y]) o); [|lia|lia|rewrite zlen_app, zlen_cons, zlen_nil; lia|lia].
      apply imap_ext. intros i ? _. simpl. rewrite <- app_assoc. simpl.
      by replace (k + S i)%nat with (S (k + i)) by lia.
Qed.

Lemma imap_id_if {A} (f : nat → A → A) (l : list A) :
  (∀ i x, l !! i = Some x → f i x = x) → imap f l = l.
Proof.
  intros Hf. apply list_eq. intros i. rewrite list_lookup_imap.
  destruct (l !! i) as [x|] eqn:E; [|done]. simpl. f_equal. by apply Hf.
Qed.

Lemma add_old_ok old P d R oldpos o :
  zslice old oldpos (zlen d) = Some o → zlen d ≤ INT_MAX →
  add_old old (P ++ d ++ R) oldpos (zlen P) (zlen d) = Done (P ++ add_bytes d o ++ R).
Proof.
  intros Ho Hd. unfold add_old. rewrite decide_True by done. f_equal.
  rewrite !imap_app. f_equal; [|f_equal].
  - apply imap_id_if. intros i x Hi%lookup_lt_Some. rewrite decide_False; [done|].
    unfold zlen. lia.
  - apply imap_add_bytes; unfold zlen in *; [lia|lia|]. by rewrite Z.sub_diag, Z.add_0_r.
  - apply imap_id_if. intros i x Hi. simpl. rewrite decide_False; [done|].
    unfold zlen. lia.
Qed.

Lemma add_bytes_length d o : zlen d = zlen o → zlen (add_bytes d o) = zlen d.
Proof. unfold zlen, add_bytes. rewrite length_zip_with. lia. Qed.

Lemma ctrl_bytes_cons x y z cs :
  ctrl_bytes ((x, y, z) :: cs) = (offtout x ++ offtout y ++ offtout z) ++ ctrl_bytes cs.
Proof. done. Qed.

(** The three numbers of a control record. *)
Lemma offtin_record x y z :
  - INT_MAX ≤ x ≤ INT_MAX → - INT_MAX ≤ y ≤ INT_MAX → - INT_MAX ≤ z ≤ INT_MAX →
  let buf := offtout x ++ offtout y ++ offtout z in
  offtin buf 0 = Some x ∧ offtin buf 8 = Some y ∧ offtin buf 16 = Some z ∧ zlen buf = 24.
Proof.
  intros Hx Hy Hz buf. unfold buf. split_and!.
  - by apply offtin_offtout.
  - replace 8 with (zlen (offtout x)) by apply length_offtout. by apply offtin_offtout_at.
  - rewrite app_assoc, <- (app_nil_r (offtout z)).
    replace 16 with (zlen (offtout x ++ offtout y)) by (by rewrite zlen_app, !length_offtout).
    by apply offtin_offtout_at.
  - by rewrite !zlen_app, !length_offtout.
Qed.

Lemma patch_loop_ok old cs fuel p q d e out P R cst dst est :
  replay old p cs d e out q → 0 ≤ p ≤ zlen old → zlen old ≤ INT_MAX →
  zlen P + zlen out ≤ INT_MAX → zlen R = zlen out →
  bz_holds cst (ctrl_bytes cs) → bz_holds dst d → bz_holds est e →
  (length cs + length out + 24 ≤ fuel)%nat →
  patch_loop fuel old (zlen P + zlen out) (zlen P) p (P ++ R) cst dst est =
    Done (0, P ++ out).
Proof.
  intros Hr. revert fuel P R cst dst est.
  induction Hr as [p|p x y z cs d o e db eb out q Ho Hd He Hq Hr IH];
    intros fuel P R cst dst est Hp Hold Hnew HR Hc Hdh Heh Hf.
  - rewrite (zlen_nil_inv R) by (rewrite HR; done).
    destruct fuel; cbn [patch_loop]; by rewrite decide_False by (rewrite zlen_nil; lia).
  - destruct fuel as [|fuel]; [simpl in Hf; lia|].
    pose proof (zslice_length _ _ _ _ Ho) as (Hlo & Hp1 & Hp2).
    set (n := add_bytes d o) in *. assert (zlen n = x) as Hn.
    { unfold n. rewrite add_bytes_length; lia. }
    pose proof (zlen_nonneg d). pose proof (zlen_nonneg e). pose proof (zlen_nonneg out).
    pose proof (zlen_nonneg P). rewrite !zlen_app in Hnew, HR. rewrite !zlen_app.
    cbn [patch_loop]. case_decide as Hlt.
    2: { rewrite (zlen_nil_inv (n ++ e ++ out)), (zlen_nil_inv R);
           rewrite ?zlen_app; [done|lia..]. }
    unfold INT_MAX in *. destruct (offtin_record x y z) as (E0 & E8 & E16 & E24); [unfold INT_MAX; lia..|].
    rewrite ctrl_bytes_cons in Hc.
    destruct (FillBuffer_ok (S fuel) _ _ _ Hc) as (cst' & Ec & Hc').
    { rewrite E24. unfold INT_MAX. lia. }
    { unfold zlen in E24. lia. }
    rewrite E24 in Ec. rewrite Ec. cbn [mbind run_bind]. rewrite decide_False by (intros Hx; by apply Hx).
    rewrite E0. cbn [access mbind run_bind]. rewrite E8. cbn [access mbind run_bind].
    rewrite E16. cbn [access mbind run_bind].
    rewrite (off_t_id (zlen P + x)) by (unfold INT_MAX; lia). rewrite decide_False by lia.
    assert (∀ (l : bytes) m, zlen l ≤ m → (length l ≤ Z.to_nat m)%nat) as Hnat
      by (unfold zlen; lia).
    rewrite <- Hd at 1.
    destruct (fill_new_data_ok (S fuel) P R d dst db Hdh) as (dst' & R1 & Ed & Hd' & HR1);
      [unfold INT_MAX; lia| |lia|].
    { unfold zlen in *. rewrite !length_app in Hf. lia. }
    rewrite Ed. cbn [mbind run_bind]. rewrite decide_False by (intros Hx; by apply Hx).
    rewrite <- Hd at 1. rewrite (add_old_ok old P d R1 p o); [|by rewrite Hd|unfold INT_MAX; lia].
    cbn [mbind run_bind]. fold n. rewrite (off_t_id (p + x)) by (unfold INT_MAX; lia).
    rewrite (off_t_id (zlen P + x + y)) by (unfold INT_MAX; lia). rewrite decide_False by lia.
    rewrite app_assoc. replace (zlen P + x) with (zlen (P ++ n)) by (rewrite zlen_app; lia).
    rewrite <- He at 1.
    destruct (fill_new_data_ok (S fuel) (P ++ n) R1 e est eb Heh) as (est' & R2 & Ee & He' & HR2);
      [unfold INT_MAX; lia| |lia|].
    { unfold zlen in *. rewrite !length_app in Hf. lia. }
    rewrite Ee. cbn [mbind run_bind]. rewrite decide_False by (intros Hx; by apply Hx).
    rewrite (off_t_id (p + x + z)) by (unfold INT_MAX; lia).
    rewrite app_assoc.
    replace (zlen (P ++ n) + y) with (zlen ((P ++ n) ++ e)) by (rewrite zlen_app; lia).
    replace (zlen P + (zlen n + (zlen e + zlen out))) with (zlen ((P ++ n) ++ e) + zlen out)
      by (rewrite !zlen_app; lia).
    rewrite (IH fuel ((P ++ n) ++ e) R2 cst' dst' est'); try done.
    + by rewrite <- !app_assoc.
    + unfold INT_MAX. rewrite !zlen_app. lia.
    + lia.
    + simpl in Hf. rewrite !length_app in Hf. unfold zlen in *. lia.
Qed.

(** Reads a part of a file given by its place in it. *)
Lemma zslice_at {A} (file a b c : list A) i n :
  file = a ++ b ++ c → i = zlen a → n = zlen b → zslice file i n = Some b.
Proof. intros -> -> ->. apply zslice_app. Qed.
Lemma offtin_at file l x k i :
  file = l ++ offtout x ++ k → - INT_MAX ≤ x ≤ INT_MAX → i = zlen l →
  offtin file i = Some x.
Proof. intros -> ? ->. by apply offtin_offtout_at. Qed.

(** The header of a patch leads to the loop over its triples. *)
Lemma ApplyBSDiffPatchMem_header fuel old pre cs d e n post :
  0 ≤ n ≤ INT_MAX → n ≤ heap →
  let patch := patch_file cs d e n in
  zlen (pre ++ patch ++ post) ≤ INT_MAX →
  ApplyBSDiffPatchMem fresh heap fuel old (pre ++ patch ++ post) (zlen pre) =
    patch_loop fuel old n 0 0 (map fresh (seq 0 (Z.to_nat n)))
      (bz_init (bz_compress (ctrl_bytes cs) ++ [])) (bz_init (bz_compress d ++ []))
      (bz_init (bz_compress e ++ post)).
Proof.
  intros Hout Hheap patch Hsize. unfold patch, patch_file in *. clear patch.
  set (c := bz_compress (ctrl_bytes cs)) in *. set (dc := bz_compress d) in *.
  set (ec := bz_compress e) in *.
  pose proof (zlen_nonneg pre). pose proof (zlen_nonneg c). pose proof (zlen_nonneg dc).
  pose proof (zlen_nonneg ec). pose proof (zlen_nonneg post).
  assert (zlen BSDIFF_MAGIC = 8) as Hm by done.
  rewrite !zlen_app, !length_offtout, Hm in Hsize. unfold INT_MAX in *.
  set (file := pre ++ _).
  assert (zlen file = zlen pre + 32 + zlen c + zlen dc + zlen ec + zlen post) as Hfile.
  { unfold file. rewrite !zlen_app, !length_offtout, Hm. lia. }
  assert (∀ x, 0 ≤ x ≤ INT_MAX → u32 x = x) as Hu.
  { intros x ?. unfold INT_MAX in *. apply wrap_u_id. unfold in_u. lia. }
  assert (zslice file (zlen pre) 8 = Some BSDIFF_MAGIC) as E1.
  { apply (zslice_at file pre BSDIFF_MAGIC (offtout (zlen c) ++ offtout (zlen dc) ++
      offtout (n) ++ c ++ dc ++ ec ++ post)); [|done|done].
    unfold file. by rewrite <- !app_assoc. }
  assert (offtin file (zlen pre + 8) = Some (zlen c)) as E2.
  { apply (offtin_at file (pre ++ BSDIFF_MAGIC) (zlen c)
      (offtout (zlen dc) ++ offtout (n) ++ c ++ dc ++ ec ++ post));
      [unfold file; by rewrite <- !app_assoc|unfold INT_MAX; lia|by rewrite zlen_app]. }
  assert (offtin file (zlen pre + 16) = Some (zlen dc)) as E3.
  { apply (offtin_at file (pre ++ BSDIFF_MAGIC ++ offtout (zlen c)) (zlen dc)
      (offtout (n) ++ c ++ dc ++ ec ++ post));
      [unfold file; by rewrite <- !app_assoc|unfold INT_MAX; lia|].
    rewrite !zlen_app, length_offtout, Hm. lia. }
  assert (offtin file (zlen pre + 24) = Some (n)) as E4.
  { apply (offtin_at file (pre ++ BSDIFF_MAGIC ++ offtout (zlen c) ++ offtout (zlen dc))
      (n) (c ++ dc ++ ec ++ post));
      [unfold file; by rewrite <- !app_assoc|unfold INT_MAX; lia|].
    rewrite !zlen_app, !length_offtout, Hm. lia. }
  set (hd := pre ++ BSDIFF_MAGIC ++ offtout (zlen c) ++ offtout (zlen dc) ++ offtout (n)).
  assert (zlen hd = zlen pre + 32) as Hhd.
  { unfold hd. rewrite !zlen_app, !length_offtout, Hm. lia. }
  assert (zslice file (zlen pre + 32) (zlen c) = Some c) as E5.
  { apply (zslice_at file hd c (dc ++ ec ++ post)); [|by rewrite Hhd|done].
    unfold file, hd. by rewrite <- !app_assoc. }
  assert (zslice file (zlen pre + 32 + zlen c) (zlen dc) = Some dc) as E6.
  { apply (zslice_at file (hd ++ c) dc (ec ++ post)); [|by rewrite zlen_app, Hhd|done].
    unfold file, hd. by rewrite <- !app_assoc. }
  assert (zslice file (zlen pre + 32 + zlen c + zlen dc) (zlen ec + zlen post) =
          Some (ec ++ post)) as E7.
  { apply (zslice_at file (hd ++ c ++ dc) (ec ++ post) []);
      [|rewrite !zlen_app, Hhd; lia|by rewrite zlen_app].
    unfold file, hd. rewrite app_nil_r. by rewrite <- !app_assoc. }
  unfold ApplyBSDiffPatchMem. rewrite E1. cbn [access mbind run_bind].
  rewrite decide_False by (intros Hx; by apply Hx).
  rewrite E2, E3, E4. cbn [access mbind run_bind]. rewrite decide_False by lia. cbv zeta.
  rewrite !Hu by (rewrite ?Hfile; unfold INT_MAX; lia). rewrite E5, E6. cbn [access mbind run_bind].
  replace (zlen file - (zlen pre + 32 + zlen c + zlen dc)) with (zlen ec + zlen post) by lia.
  rewrite E7. cbn [access mbind run_bind]. rewrite decide_False by lia.
  by rewrite !app_nil_r.
Qed.

Lemma ApplyBSDiffPatchMem_ok fuel old pre cs d e out q post :
  replay old 0 cs d e out q → zlen old ≤ INT_MAX → zlen out ≤ INT_MAX →
  let patch := patch_file cs d e (zlen out) in
  zlen (pre ++ patch ++ post) ≤ INT_MAX →
  zlen out ≤ heap → (length cs + length out + 24 ≤ fuel)%nat →
  ApplyBSDiffPatchMem fresh heap fuel old (pre ++ patch ++ post) (zlen pre) = Done (0, out).
Proof.
  intros Hr Hold Hout patch Hsize Hheap Hfuel. pose proof (zlen_nonneg out).
  unfold patch in *. rewrite ApplyBSDiffPatchMem_header by done.
  apply (patch_loop_ok old cs fuel 0 q d e out [] (map fresh (seq 0 (Z.to_nat (zlen out)))));
    try done; try apply bz_round_trip.
  - split; [done|apply zlen_nonneg].
  - unfold zlen. rewrite length_map, length_seq. lia.
Qed.

(** Once the data of a stream fit in the buffer, all of them are stored. *)
Lemma FillBuffer_loop_stored fuel avail stored s out r st s' :
  bz_holds s out → zlen out ≤ avail →
  FillBuffer_loop fuel avail stored s = Done (r, st, s') → ∃ k, st = stored ++ out ++ k.
Proof.
  revert avail stored s out. induction fuel as [|fuel IH]; intros avail stored s out Hs Ha;
    cbn [FillBuffer_loop]; case_decide as Hd; try done.
  1,3: intros [= _ <- _]; exists []; rewrite (zlen_nil_inv out) by lia; by rewrite app_nil_r.
  destruct (BZ2_bzDecompress s avail) as [[err chunk] s1] eqn:E.
  assert (∀ avail stored s k, FillBuffer_loop fuel avail stored s = Done k →
    ∃ k', k.1.2 = stored ++ k') as Hpre.
  { clear. induction fuel as [|fuel IH]; intros avail stored s k; cbn [FillBuffer_loop];
      case_decide; try done. 1,3: intros [= <-]; exists []; by rewrite app_nil_r.
    destruct (BZ2_bzDecompress s avail) as [[err chunk] s1]. case_decide.
    - intros [= <-]. by exists chunk.
    - intros (k' & ->)%IH. exists (chunk ++ k'). by rewrite app_assoc. }
  destruct (decide (out = [])) as [->|Hne].
  { case_decide; [intros [= _ <- _]; by exists chunk|].
    intros (k & Hk)%Hpre. cbn in Hk. exists (chunk ++ k). by rewrite Hk, <- app_assoc. }
  destruct (bz_progress s out avail Hs Hne Hd) as
    (err' & chunk' & rest & s1' & E' & Herr & -> & _ & _ & Hs'). rewrite E in E'.
  injection E' as <- <- <-. rewrite decide_False by (intros [??]; by destruct Herr).
  rewrite zlen_app in Ha. intros (k & ->)%(IH _ _ _ rest); [|done|lia].
  exists k. by rewrite <- !app_assoc.
Qed.

(** A control triple with a negative difference length is not refused: the
    length check compares only the sum with the new size, and [FillBuffer]
    converts the length to a huge unsigned one.  When the difference block holds
    more than the new file's bytes the application of such a patch never
    returns a result: it writes outside the output block (or the decompressor
    stalls). *)
Lemma negative_length_not_refused fuel old pre x y z cs d e n post :
  - INT_MAX ≤ x < 0 → - INT_MAX ≤ y ≤ INT_MAX → - INT_MAX ≤ z ≤ INT_MAX →
  0 < n ≤ INT_MAX → n ≤ heap → n < zlen d ≤ INT_MAX → (24 ≤ fuel)%nat →
  let patch := patch_file ((x, y, z) :: cs) d e n in
  zlen (pre ++ patch ++ post) ≤ INT_MAX →
  ∀ r, ApplyBSDiffPatchMem fresh heap fuel old (pre ++ patch ++ post) (zlen pre) ≠ Done r.
Proof.
  intros Hx Hy Hz Hn Hh Hd Hf patch Hs r. unfold patch in *.
  rewrite ApplyBSDiffPatchMem_header by (done || lia).
  destruct fuel as [|fuel]; [lia|]. cbn [patch_loop]. rewrite decide_True by lia.
  unfold INT_MAX in *. destruct (offtin_record x y z) as (E0 & E8 & E16 & E24);
    [unfold INT_MAX; lia..|].
  pose proof (bz_round_trip (ctrl_bytes ((x, y, z) :: cs)) []) as Hc.
  rewrite ctrl_bytes_cons in Hc at 2.
  destruct (FillBuffer_ok (S fuel) _ _ _ Hc) as (cst' & Ec & _);
    [rewrite E24; unfold INT_MAX; lia|unfold zlen in E24; lia|].
  rewrite E24 in Ec. rewrite Ec. cbn [mbind run_bind].
  rewrite decide_False by (intros Hk; by apply Hk).
  rewrite E0. cbn [access mbind run_bind]. rewrite E8. cbn [access mbind run_bind].
  rewrite E16. cbn [access mbind run_bind].
  rewrite off_t_id by (unfold INT_MAX; lia). rewrite decide_False by lia.
  unfold fill_new_data, FillBuffer.
  replace (u32 (s32 x)) with (2 ^ 32 + x).
  2: { rewrite wrap_s_id by (unfold in_s; lia). unfold wrap_u.
       rewrite <- (Z.mod_add x 1), Z.mod_small by lia. lia. }
  destruct (FillBuffer_loop _ (2 ^ 32 + x) _ _) as [[[r1 stored] dst']| |] eqn:Ed; [|by intros [=]|by intros [=]].
  apply (FillBuffer_loop_stored _ _ _ _ d) in Ed as [k ->]; [|apply bz_round_trip|lia].
  cbn [mbind run_bind app]. unfold store. rewrite decide_False; [done|].
  rewrite !zlen_app. pose proof (zlen_nonneg k). unfold zlen at 3. rewrite length_map, length_seq. lia.
Qed.
End patch_lemmas.

(** [FillBuffer] never returns on a stream that ran out of input.  libbzip2
    answers [BZ_OK] without output when it needs more input than [avail_in] has,
    which the loop takes for progress: a truncated patch hangs the patcher. *)
Lemma FillBuffer_stalls `{Bz2} fuel size s :
  (∀ n, 0 < n → BZ2_bzDecompress s n = (BZ_OK, [], s)) → 0 < size ≤ INT_MAX →
  FillBuffer fuel size s = OutOfFuel.
Proof.
  intros Hs Hn. unfold FillBuffer, INT_MAX in *.
  rewrite wrap_s_id, wrap_u_id by (unfold in_s, in_u; lia). generalize (@nil Z) as stored.
  induction fuel as [|fuel IH]; intros stored; cbn [FillBuffer_loop]; rewrite decide_True by lia; [done|].
  rewrite Hs by lia. rewrite decide_False by (intros [Hk _]; by apply Hk).
  rewrite zlen_nil, Z.sub_0_r. apply IH.
Qed.

Lemma FillBuffer_stalls_witness :
  FillBuffer (H0 := stored_bz2) 1000 24 (bz_init (take 0 (stored_compress [5]))) = OutOfFuel.
Proof.
  apply (FillBuffer_stalls (H := stored_bz2)); [|done].
  intros n Hn. simpl. rewrite Z.min_r by (unfold zlen; simpl; lia). reflexivity.
Defined.

Definition negative_patch : bytes :=
  patch_file [(-1, 0, 0)] (replicate 5 1) [] 4.

Lemma negative_length_not_refused_witness :
  (∀ r, ApplyBSDiffPatchMem (H := abi32) (λ _, 0) 100 40 [] ([] ++ negative_patch ++ []) 0 ≠ Done r) ∧
  ApplyBSDiffPatchMem (H := abi32) (λ _, 0) 100 40 [] ([] ++ negative_patch ++ []) 0 = Fault.
Proof.
  split; [|by vm_compute].
  apply (negative_length_not_refused (H := abi32) (λ _, 0) 100 40 [] [] (-1) 0 0 [] (replicate 5 1) [] 4 []);
    unfold INT_MAX; try lia; try done; try (by vm_compute).
Defined.
