(* ===== verification/BsDiff.v ===== *)
(** Making a bsdiff patch: [applypatch/bsdiff.c].

    [bsdiff] runs on the host that builds packages; its [off_t] arithmetic is
    exact on the file sizes the patch format can hold. *)
From S2P Require Import Prelude Bytes Bz2 BsPatch.

(** [a[i]] and [a[i] = x] on an array of [off_t]. *)
Definition rd (a : list Z) (i : Z) : run Z := access (znth a i).
Definition wr (a : list Z) (i x : Z) : run (list Z) :=
  if decide (0 ≤ i < zlen a) then Done (<[Z.to_nat i := x]> a) else Fault.

(** * Sorting the suffixes of the old file *)

Record Sort := mkSort { sort_I : list Z; sort_V : list Z }.

(** [V[I[k] + h]]. *)
Definition key (s : Sort) (h k : Z) : run Z :=
  i ← rd (sort_I s) k; rd (sort_V s) (i + h).

Definition swap_I (s : Sort) (a b : Z) : run Sort :=
  tmp ← rd (sort_I s) a;
  y ← rd (sort_I s) b;
  i1 ← wr (sort_I s) a y;
  i2 ← wr i1 b tmp;
  mret (mkSort i2 (sort_V s)).

(** [for (i = 0; i < n; i++) V[I[k + i]] = v], with [i] counted down by [n]. *)
Fixpoint set_group (n : nat) (s : Sort) (k v : Z) : run Sort :=
  match n with
  | O => Done s
  | S n =>
      i ← rd (sort_I s) k;
      vv ← wr (sort_V s) i v;
      set_group n (mkSort (sort_I s) vv) (k + 1) v
  end.

(** One pass of the selection sort of short groups: moves the elements whose
    key is the least to the front of the group, and gives their number. *)
Fixpoint select_min (n : nat) (s : Sort) (h k i x j : Z) : run (Sort * Z * Z) :=
  match n with
  | O => Done (s, x, j)
  | S n =>
      y ← key s h (k + i);
      let '(x, j) := if decide (y < x) then (y, 0) else (x, j) in
      if decide (y = x) then
        s ← swap_I s (k + j) (k + i);
        select_min n s h k (i + 1) x (j + 1)
      else select_min n s h k (i + 1) x j
  end.

Fixpoint split_short (fuel : nat) (s : Sort) (k limit h : Z) : run Sort :=
  if decide (k < limit) then
    match fuel with
    | O => OutOfFuel
    | S fuel =>
        x ← key s h k;
        '(s, x, j) ← select_min (Z.to_nat (limit - (k + 1))) s h k 1 x 1;
        s ← set_group (Z.to_nat j) s k (k + j - 1);
        s ← (if decide (j = 1)
             then i1 ← wr (sort_I s) k (-1); mret (mkSort i1 (sort_V s)) else mret s);
        split_short fuel s (k + j) limit h
    end
  else Done s.

(** Counts the keys below [x] and equal to [x]. *)
Fixpoint count_keys (n : nat) (s : Sort) (h i x jj kk : Z) : run (Z * Z) :=
  match n with
  | O => Done (jj, kk)
  | S n =>
      y ← key s h i;
      count_keys n s h (i + 1) x
        (if decide (y < x) then jj + 1 else jj) (if decide (y = x) then kk + 1 else kk)
  end.

Fixpoint partition_low (fuel : nat) (s : Sort) (h i j k jj kk x : Z) : run (Sort * Z * Z) :=
  if decide (i < jj) then
    match fuel with
    | O => OutOfFuel
    | S fuel =>
        y ← key s h i;
        if decide (y < x) then partition_low fuel s h (i + 1) j k jj kk x
        else if decide (y = x) then
          s ← swap_I s i (jj + j); partition_low fuel s h i (j + 1) k jj kk x
        else
          s ← swap_I s i (kk + k); partition_low fuel s h i j (k + 1) jj kk x
    end
  else Done (s, j, k).

Fixpoint partition_mid (fuel : nat) (s : Sort) (h j k jj kk x : Z) : run Sort :=
  if decide (jj + j < kk) then
    match fuel with
    | O => OutOfFuel
    | S fuel =>
        y ← key s h (jj + j);
        if decide (y = x) then partition_mid fuel s h (j + 1) k jj kk x
        else
          s ← swap_I s (jj + j) (kk + k); partition_mid fuel s h j (k + 1) jj kk x
    end
  else Done s.

Fixpoint split (fuel : nat) (s : Sort) (start len h : Z) : run Sort :=
  match fuel with
  | O => OutOfFuel
  | S fuel =>
      if decide (len < 16) then split_short (Z.to_nat len) s start (start + len) h else
      x ← key s h (start + len / 2);
      '(jj, kk) ← count_keys (Z.to_nat len) s h start x 0 0;
      let jj := jj + start in
      let kk := kk + jj in
      '(s, j, k) ← partition_low (Z.to_nat (2 * len)) s h start 0 0 jj kk x;
      s ← partition_mid (Z.to_nat (2 * len)) s h j k jj kk x;
      s ← (if decide (jj > start) then split fuel s start (jj - start) h else mret s);
      s ← set_group (Z.to_nat (kk - jj)) s jj (kk - 1);
      s ← (if decide (jj = kk - 1)
           then i1 ← wr (sort_I s) jj (-1); mret (mkSort i1 (sort_V s)) else mret s);
      if decide (start + len > kk) then split fuel s kk (start + len - kk) h else mret s
  end.

(** ** The main loop of the sort *)

Definition bucket_count (old : bytes) : run (list Z) :=
  foldl (λ b c, b ← b; n ← rd b c; wr b c (n + 1)) (Done (replicate 256 0)) old.
Fixpoint prefix_sums (acc : Z) (l : list Z) : list Z :=
  match l with [] => [] | x :: l => (acc + x) :: prefix_sums (acc + x) l end.

(** [for (i = 0; i < oldsize; i++) I[++buckets[old[i]]] = i]. *)
Fixpoint fill_I (old : bytes) (i : Z) (buckets sa : list Z) : run (list Z * list Z) :=
  match old with
  | [] => Done (buckets, sa)
  | c :: old =>
      n ← rd buckets c;
      buckets ← wr buckets c (n + 1);
      sa ← wr sa (n + 1) i;
      fill_I old (i + 1) buckets sa
  end.

(** [for (i = 1; i < 256; i++) if (buckets[i] == buckets[i-1]+1) I[buckets[i]] = -1]. *)
Fixpoint mark_singletons (buckets : list Z) (sa : list Z) : run (list Z) :=
  match buckets with
  | a :: (b :: _) as rest =>
      sa ← (if decide (b = a + 1) then wr sa b (-1) else mret sa);
      mark_singletons rest sa
  | _ => Done sa
  end.

(** One pass over the groups for a given [h]. *)
Fixpoint sort_pass (fuel : nat) (s : Sort) (oldsize h i len : Z) : run Sort :=
  let close (s : Sort) : run Sort :=
    if decide (len ≠ 0) then sa ← wr (sort_I s) (i - len) (- len); mret (mkSort sa (sort_V s))
    else mret s in
  if decide (i < oldsize + 1) then
    match fuel with
    | O => OutOfFuel
    | S fuel =>
        x ← rd (sort_I s) i;
        if decide (x < 0) then sort_pass fuel s oldsize h (i - x) (len - x)
        else
          s ← close s;
          x ← rd (sort_I s) i;
          v ← rd (sort_V s) x;
          let len := v + 1 - i in
          s ← split (Z.to_nat len + 1) s i len h;
          sort_pass fuel s oldsize h (i + len) 0
    end
  else close s.

Fixpoint sort_loop (fuel : nat) (s : Sort) (oldsize h : Z) : run Sort :=
  x ← rd (sort_I s) 0;
  if decide (x ≠ - (oldsize + 1)) then
    match fuel with
    | O => OutOfFuel
    | S fuel =>
        s ← sort_pass (Z.to_nat (oldsize + 1)) s oldsize h 0 0;
        sort_loop fuel s oldsize (h + h)
    end
  else Done s.

(** [for (i = 0; i < oldsize + 1; i++) I[V[i]] = i]. *)
Fixpoint invert (V : list Z) (i : Z) (sa : list Z) : run (list Z) :=
  match V with
  | [] => Done sa
  | v :: V => sa ← wr sa v i; invert V (i + 1) sa
  end.

(** The suffix array; [I] and [V] are new blocks of [oldsize + 1] numbers. *)
Definition qsufsort (fuel : nat) (fresh : nat → Z) (old : bytes) : run (list Z) :=
  let oldsize := zlen old in
  let block := map fresh (seq 0 (S (length old))) in
  counts ← bucket_count old;
  let sums := prefix_sums 0 counts in
  let buckets := 0 :: take 255 sums in
  '(buckets, sa) ← fill_I old 0 buckets block;
  sa ← wr sa 0 oldsize;
  V ← foldr (λ c vs, v ← rd buckets c; vs ← vs; mret (v :: vs)) (mret [0]) old;
  sa ← mark_singletons buckets sa;
  sa ← wr sa 0 (-1);
  s ← sort_loop fuel (mkSort sa V) oldsize 1;
  invert (sort_V s) 0 (sort_I s).

(** * Matching *)

Fixpoint matchlen (old new : bytes) : Z :=
  match old, new with
  | x :: old, y :: new => if decide (x = y) then 1 + matchlen old new else 0
  | _, _ => 0
  end.

(** The suffix of [old] at [I[k]]; [I[k] = oldsize] is its end. *)
Definition suffix (sa : list Z) (old : bytes) (k : Z) : run (Z * bytes) :=
  i ← rd sa k;
  if decide (0 ≤ i ≤ zlen old) then mret (i, drop (Z.to_nat i) old) else Fault.

(** The length of the longest match and its position. *)
Fixpoint search (fuel : nat) (sa : list Z) (old new : bytes) (st en : Z) : run (Z * Z) :=
  if decide (en - st < 2) then
    '(i, a) ← suffix sa old st;
    '(j, b) ← suffix sa old en;
    let x := matchlen a new in
    let y := matchlen b new in
    if decide (x > y) then mret (x, i) else mret (y, j)
  else
    match fuel with
    | O => OutOfFuel
    | S fuel =>
        let x := st + (en - st) / 2 in
        '(_, a) ← suffix sa old x;
        let n := (length a `min` length new)%nat in
        if decide (memcmp (take n a) (take n new) < 0)
        then search fuel sa old new x en
        else search fuel sa old new st x
    end.

(** * Making the patch *)

Section bsdiff.
Context `{Bz2}.
Context (old new : bytes).

(** [old[i] == new[j]]. *)
Definition same (i j : Z) : run bool :=
  x ← access (znth old i); y ← access (znth new j); mret (bool_decide (x = y)).

(** [(i + lastoffset < oldsize) && (old[i + lastoffset] == new[i])]. *)
Definition hit (lastoffset i : Z) : run bool :=
  if decide (i + lastoffset < zlen old) then same (i + lastoffset) i else mret false.

(** [for (; scsc < scan + len; scsc++)], with [n] iterations. *)
Fixpoint count_hits (n : nat) (lastoffset scsc oldscore : Z) : run Z :=
  match n with
  | O => Done oldscore
  | S n =>
      m ← hit lastoffset scsc;
      count_hits n lastoffset (scsc + 1) (if (m : bool) then oldscore + 1 else oldscore)
  end.

(** The loop that looks for the next match better than the current offset:
    gives [scan], [len], [pos] and [oldscore]. *)
Fixpoint find_match (fuel : nat) (sa : list Z) (lastoffset scan scsc oldscore len pos : Z)
    : run (Z * Z * Z * Z) :=
  if decide (scan < zlen new) then
    match fuel with
    | O => OutOfFuel
    | S fuel =>
        '(len, pos) ← search (length old) sa old (drop (Z.to_nat scan) new) 0 (zlen old);
        oldscore ← count_hits (Z.to_nat (scan + len - scsc)) lastoffset scsc oldscore;
        let scsc := scsc `max` (scan + len) in
        if decide ((len = oldscore ∧ len ≠ 0) ∨ len > oldscore + 8)
        then Done (scan, len, pos, oldscore)
        else
          m ← hit lastoffset scan;
          find_match fuel sa lastoffset (scan + 1) scsc
            (if (m : bool) then oldscore - 1 else oldscore) len pos
    end
  else Done (scan, len, pos, oldscore).

(** [lenf]: how far the last match extends forward. *)
Fixpoint extend_forward (fuel : nat) (lastscan lastpos scan i s Sf lenf : Z) : run Z :=
  if decide (lastscan + i < scan ∧ lastpos + i < zlen old) then
    match fuel with
    | O => OutOfFuel
    | S fuel =>
        m ← same (lastpos + i) (lastscan + i);
        let s := if (m : bool) then s + 1 else s in
        let i := i + 1 in
        if decide (s * 2 - i > Sf * 2 - lenf)
        then extend_forward fuel lastscan lastpos scan i s s i
        else extend_forward fuel lastscan lastpos scan i s Sf lenf
    end
  else Done lenf.

(** [lenb]: how far the new match extends backward. *)
Fixpoint extend_backward (fuel : nat) (lastscan scan pos i s Sb lenb : Z) : run Z :=
  if decide (lastscan + i ≤ scan ∧ i ≤ pos) then
    match fuel with
    | O => OutOfFuel
    | S fuel =>
        m ← same (pos - i) (scan - i);
        let s := if (m : bool) then s + 1 else s in
        if decide (s * 2 - i > Sb * 2 - lenb)
        then extend_backward fuel lastscan scan pos (i + 1) s s i
        else extend_backward fuel lastscan scan pos (i + 1) s Sb lenb
    end
  else Done lenb.

(** [lens]: where an overlap of the two extensions is cut; [n] iterations, [f]
    and [b] are the starts of the overlap in the two matches. *)
Fixpoint cut_overlap (n : nat) (fscan fpos bscan bpos i s Ss lens : Z) : run Z :=
  match n with
  | O => Done lens
  | S n =>
      m ← same (fpos + i) (fscan + i);
      let s := if (m : bool) then s + 1 else s in
      m ← same (bpos + i) (bscan + i);
      let s := if (m : bool) then s - 1 else s in
      if decide (s > Ss)
      then cut_overlap n fscan fpos bscan bpos (i + 1) s s (i + 1)
      else cut_overlap n fscan fpos bscan bpos (i + 1) s Ss lens
  end.

(** [lenf] and [lenb] of the next control triple. *)
Definition extensions (lastscan lastpos scan pos : Z) : run (Z * Z) :=
  lenf ← extend_forward (Z.to_nat (scan - lastscan)) lastscan lastpos scan 0 0 0 0;
  lenb ← (if decide (scan < zlen new)
          then extend_backward (Z.to_nat (scan - lastscan)) lastscan scan pos 1 0 0 0
          else mret 0);
  if decide (lastscan + lenf > scan - lenb) then
    let overlap := (lastscan + lenf) - (scan - lenb) in
    lens ← cut_overlap (Z.to_nat overlap) (lastscan + lenf - overlap)
             (lastpos + lenf - overlap) (scan - lenb) (pos - lenb) 0 0 0 0;
    mret (lenf + (lens - overlap), lenb - lens)
  else mret (lenf, lenb).

Record Scan := mkScan {
  scan : Z; len : Z; pos : Z;
  lastscan : Z; lastpos : Z; lastoffset : Z;
  db : bytes; eb : bytes;
  ctrl : list (Z * Z * Z) (* the triples written to the patch *)
}.

(** Writes the bytes and the triple of a match.  The blocks [db] and [eb] have
    room for [newsize + 1] bytes; the counts are never negative
    ([extensions_ok]), and the model stops if one is. *)
Definition emit (s : Scan) : run Scan :=
  let '(mkScan scan len pos lastscan lastpos _ db eb ctrl) := s in
  '(lenf, lenb) ← extensions lastscan lastpos scan pos;
  let extra := (scan - lenb) - (lastscan + lenf) in
  n ← access (zslice new lastscan lenf);
  o ← access (zslice old lastpos lenf);
  e ← access (zslice new (lastscan + lenf) extra);
  if decide (zlen db + lenf ≤ zlen new + 1 ∧ zlen eb + extra ≤ zlen new + 1) then
    mret (mkScan scan len pos (scan - lenb) (pos - lenb) (pos - scan)
      (db ++ zip_with (λ x y, u8 (x - y)) n o) (eb ++ e)
      (ctrl ++ [(lenf, extra, (pos - lenb) - (lastpos + lenf))]))
  else Fault.

Fixpoint scan_loop (fuel : nat) (sa : list Z) (s : Scan) : run Scan :=
  if decide (scan s < zlen new) then
    match fuel with
    | O => OutOfFuel
    | S fuel =>
        let start := scan s + len s in
        '(scan', len', pos', oldscore) ←
          find_match (length new) sa (lastoffset s) start start 0 (len s) (pos s);
        let s := mkScan scan' len' pos' (lastscan s) (lastpos s) (lastoffset s)
                   (db s) (eb s) (ctrl s) in
        s ← (if decide (len' ≠ oldscore ∨ scan' = zlen new) then emit s else mret s);
        scan_loop fuel sa s
    end
  else Done s.
End bsdiff.

(** [BZ2_bzWrite] takes the length as an [int] and refuses a negative one, on
    which [bsdiff] exits. *)
Definition bz_write `{Bz2} (data : bytes) : option bytes :=
  let n := s32 (zlen data) in
  if decide (0 ≤ n) then Some (bz_compress (take (Z.to_nat n) data)) else None.

(** The blocks after the scan, and the header completed with their sizes. *)
Definition finish_patch `{Bz2} (new_size : Z) (s : Scan) : option bytes :=
  let c := bz_compress (ctrl_bytes (ctrl s)) in
  d ← bz_write (db s);
  e ← bz_write (eb s);
  Some (BSDIFF_MAGIC ++ offtout (zlen c) ++ offtout (zlen d) ++ offtout new_size ++ c ++ d ++ e).

(** The new value of [*IP], and the patch file unless the program exits with an
    error.  [pos] has no value before the first search; it is not read
    then. *)
Definition bsdiff `{Bz2} (fuel : nat) (fresh : nat → Z) (IP : option (list Z))
    (old new : bytes) : run (list Z * option bytes) :=
  sa ← (match IP with None => qsufsort fuel fresh old | Some sa => mret sa end);
  s ← scan_loop old new (S (length new)) sa (mkScan 0 0 0 0 0 0 [] [] []);
  mret (sa, finish_patch (zlen new) s).

(** * Proofs *)

Section search_lemmas.
Context (sa : list Z) (old : bytes).
(** The entries of [sa] are positions of the old file or its end. *)
Definition positions : Prop := zlen sa = zlen old + 1 ∧ Forall (λ i, 0 ≤ i ≤ zlen old) sa.
Hypothesis Hsa : positions.

Lemma matchlen_bounds (a b : bytes) :
  0 ≤ matchlen a b ∧ matchlen a b ≤ zlen a ∧ matchlen a b ≤ zlen b.
Proof.
  revert b. induction a as [|x a IH]; intros b.
  { unfold zlen. simpl. lia. }
  destruct b as [|y b]; [unfold zlen; simpl; lia|].
  specialize (IH b). unfold zlen in *. simpl. case_decide; lia.
Qed.

Lemma suffix_ok k : 0 ≤ k ≤ zlen old →
  run_ok (suffix sa old k) (λ '(i, a), 0 ≤ i ≤ zlen old ∧ zlen a = zlen old - i).
Proof.
  destruct Hsa as [Hlen Hall]. intros Hk. unfold suffix, rd.
  eapply run_ok_bind; [apply run_ok_access_is with (Q := λ i, 0 ≤ i ≤ zlen old)|].
  - apply znth_is_Some. lia.
  - intros i Hi. unfold znth in Hi. case_decide; [|done].
    rewrite Forall_lookup in Hall. by apply Hall in Hi.
  - intros i Hi. rewrite decide_True by done. apply run_ok_ret. split; [done|].
    unfold zlen in *. rewrite length_drop. lia.
Qed.

Lemma search_ok fuel new st en :
  0 ≤ st ≤ en → en ≤ zlen old → en - st ≤ Z.of_nat fuel →
  run_ok (search fuel sa old new st en)
    (λ '(len, pos), 0 ≤ len ≤ zlen new ∧ 0 ≤ pos ≤ zlen old).
Proof.
  revert st en. induction fuel as [|fuel IH]; intros st en Hst Hen Hf.
  1: assert (en - st < 2) by lia.
  all: cbn [search]; case_decide as Hd; [|try lia].
  1,2: eapply run_ok_bind; [apply suffix_ok; lia|]; intros [i a] [Hi Ha];
    eapply run_ok_bind; [apply suffix_ok; lia|]; intros [j b] [Hj Hb];
    cbv zeta; pose proof (matchlen_bounds a new); pose proof (matchlen_bounds b new);
    case_decide; apply run_ok_ret; lia.
  pose proof (Z.div_mod (en - st) 2 ltac:(lia)). pose proof (Z.mod_pos_bound (en - st) 2 ltac:(lia)).
  cbv zeta. eapply run_ok_bind; [apply suffix_ok; lia|]. intros [i a] [Hi Ha].
  case_decide; apply IH; lia.
Qed.
End search_lemmas.

Section bsdiff_lemmas.
Context (old new : bytes).

Lemma same_ok i j : 0 ≤ i < zlen old → 0 ≤ j < zlen new → run_ok (same old new i j) (λ _, True).
Proof.
  intros Hi Hj. unfold same.
  eapply run_ok_bind; [eapply run_ok_access_is with (Q := λ _, True); [by apply znth_is_Some|done]|].
  intros x _.
  eapply run_ok_bind; [eapply run_ok_access_is with (Q := λ _, True); [by apply znth_is_Some|done]|].
  intros y _. by apply run_ok_ret.
Qed.

(** Whether position [i] of the new file agrees with the old one at the current
    offset. *)
Definition hits (off i : Z) : bool :=
  bool_decide (i + off < zlen old ∧ znth old (i + off) = znth new i).
Definition score (off a n : Z) : Z :=
  zlen (filter (λ i, hits off i) (seqZ a n)).

Lemma hit_ok off i : 0 ≤ i + off → 0 ≤ i < zlen new →
  hit old new off i = Done (hits off i).
Proof.
  intros Ho Hi. unfold hit, hits. case_decide as Hd.
  - apply znth_is_Some in Hi as [y Hy].
    destruct (proj2 (znth_is_Some old (i + off)) ltac:(lia)) as [x Hx].
    unfold same. rewrite Hx, Hy. cbn [access mbind run_bind]. unfold mret, run_ret. f_equal.
    apply bool_decide_ext. naive_solver.
  - rewrite bool_decide_eq_false_2 by tauto. done.
Qed.

Lemma score_step off a n : 0 ≤ n →
  score off a (n + 1) = score off a n + (if hits off (a + n) then 1 else 0).
Proof.
  intros Hn. unfold score. rewrite seqZ_app by lia. rewrite filter_app, zlen_app. f_equal.
  change (seqZ (a + n) 1) with [0 + (a + n)]. rewrite filter_cons, Z.add_0_l.
  by destruct (hits off (a + n)).
Qed.
Lemma score_nonneg off a n : 0 ≤ score off a n.
Proof. apply zlen_nonneg. Qed.
Lemma score_mono off a n m : 0 ≤ n ≤ m → score off a n ≤ score off a m.
Proof.
  intros Hn. replace m with (n + (m - n)) by lia. unfold score.
  rewrite seqZ_app, filter_app, zlen_app by lia.
  pose proof (zlen_nonneg (filter (λ i, hits off i) (seqZ (a + n) (m - n)))). lia.
Qed.

Lemma count_hits_ok n a off scsc sc :
  0 ≤ a ≤ scsc → 0 ≤ a + off → scsc + Z.of_nat n ≤ zlen new →
  count_hits old new n off scsc sc =
    Done (sc + (score off a (scsc + Z.of_nat n - a) - score off a (scsc - a))).
Proof.
  revert scsc sc. induction n as [|n IH]; intros scsc sc Ha Ho Hn; cbn [count_hits].
  - f_equal. replace (scsc + Z.of_nat 0 - a) with (scsc - a) by lia. lia.
  - rewrite hit_ok by lia. cbn [mbind run_bind]. rewrite IH by lia. f_equal.
    replace (scsc + Z.of_nat (S n) - a) with (scsc + 1 + Z.of_nat n - a) by lia.
    replace (scsc + 1 - a) with (scsc - a + 1) by lia. rewrite score_step by lia.
    replace (a + (scsc - a)) with scsc by lia. destruct (hits off scsc); lia.
Qed.

(** Looking for a match ends past the start: at the end of the new file, or
    with a match of at least one byte. *)
Lemma find_match_ok sa off a fuel scan scsc sc len pos :
  positions sa old → 0 ≤ a ≤ scan → a ≤ scsc ≤ zlen new → scan ≤ zlen new → 0 ≤ a + off →
  0 ≤ len → 0 ≤ pos ≤ zlen old → zlen new - scan ≤ Z.of_nat fuel →
  sc = score off a (scsc - a) - score off a (scan - a) →
  run_ok (find_match old new fuel sa off scan scsc sc len pos)
    (λ '(scan', len', pos', sc'), scan ≤ scan' ≤ zlen new ∧ 0 ≤ len' ∧
      0 ≤ pos' ≤ zlen old ∧
      (scan' < zlen new → 0 < len' ∧ scan' + len' ≤ zlen new ∧ 0 ≤ sc')).
Proof.
  intros Hsa. revert scan scsc sc len pos.
  induction fuel as [|fuel IH]; intros scan scsc sc len pos Ha Hscsc Hscan Ho Hlen Hpos Hf ->;
    cbn [find_match]; (case_decide as Hd; [|apply run_ok_done; lia]); [lia|].
  eapply run_ok_bind; [apply search_ok; [done| | |]; unfold zlen; lia|].
  intros [len' pos'] [Hl Hp].
  assert (zlen (drop (Z.to_nat scan) new) = zlen new - scan) as Hdrop.
  { unfold zlen in *. rewrite length_drop. lia. }
  rewrite Hdrop in Hl. rewrite (count_hits_ok _ a) by lia. cbn [mbind run_bind].
  set (scsc' := scsc `max` (scan + len')).
  replace (scsc + Z.of_nat (Z.to_nat (scan + len' - scsc)) - a) with (scsc' - a) by lia.
  set (sc' := _ + (_ - _)).
  assert (sc' = score off a (scsc' - a) - score off a (scan - a)) as Hsc' by (unfold sc'; lia).
  assert (0 ≤ sc') as Hpos'.
  { pose proof (score_mono off a (scan - a) (scsc' - a) ltac:(lia)). lia. }
  cbv zeta. case_decide as Hb; [apply run_ok_done; lia|].
  rewrite hit_ok by lia. cbn [mbind run_bind].
  eapply run_ok_weaken; [apply (IH (scan + 1) scsc'); try lia|].
  - replace (scan + 1 - a) with (scan - a + 1) by lia. rewrite score_step by lia.
    replace (a + (scan - a)) with scan by lia. destruct (hits off scan); lia.
  - intros [[[s' l'] p'] c']. lia.
Qed.

Lemma extend_forward_ok fuel lastscan lastpos scan i s Sf lenf :
  0 ≤ lastscan → 0 ≤ lastpos → scan ≤ zlen new → 0 ≤ i → scan - lastscan - i ≤ Z.of_nat fuel →
  0 ≤ lenf ≤ i → lastscan + i ≤ scan → lastpos + i ≤ zlen old →
  run_ok (extend_forward old new fuel lastscan lastpos scan i s Sf lenf)
    (λ r, 0 ≤ r ∧ lastscan + r ≤ scan ∧ lastpos + r ≤ zlen old).
Proof.
  revert i s Sf lenf. induction fuel as [|fuel IH]; intros i s Sf lenf H1 H2 H3 H4 H5 H6 H7 H8;
    cbn [extend_forward]; (case_decide as Hd; [|apply run_ok_done; lia]); [lia|].
  eapply run_ok_bind; [apply same_ok; lia|]. intros m _. cbv zeta.
  case_decide; apply IH; lia.
Qed.

Lemma extend_backward_ok fuel lastscan scan pos i s Sb lenb :
  0 ≤ lastscan → scan ≤ zlen new → pos ≤ zlen old → 1 ≤ i →
  scan - lastscan - i < Z.of_nat fuel → 0 ≤ lenb < i →
  lastscan + lenb ≤ scan → lenb ≤ pos →
  run_ok (extend_backward old new fuel lastscan scan pos i s Sb lenb)
    (λ r, 0 ≤ r ∧ lastscan + r ≤ scan ∧ r ≤ pos).
Proof.
  revert i s Sb lenb. induction fuel as [|fuel IH]; intros i s Sb lenb H1 H2 H3 H4 H5 H6 H7 H8;
    cbn [extend_backward]; (case_decide as Hd; [|apply run_ok_done; lia]); [lia|].
  eapply run_ok_bind; [apply same_ok; lia|]. intros m _. cbv zeta.
  case_decide; apply IH; lia.
Qed.

Lemma cut_overlap_ok n fscan fpos bscan bpos i s Ss lens :
  0 ≤ fscan → fscan + i + Z.of_nat n ≤ zlen new → 0 ≤ fpos → fpos + i + Z.of_nat n ≤ zlen old →
  0 ≤ bscan → bscan + i + Z.of_nat n ≤ zlen new → 0 ≤ bpos → bpos + i + Z.of_nat n ≤ zlen old →
  0 ≤ lens ≤ i →
  run_ok (cut_overlap old new n fscan fpos bscan bpos i s Ss lens)
    (λ r, 0 ≤ r ≤ i + Z.of_nat n).
Proof.
  revert i s Ss lens. induction n as [|n IH]; intros i s Ss lens H1 H2 H3 H4 H5 H6 H7 H8 H9;
    cbn [cut_overlap]; [apply run_ok_done; lia|].
  eapply run_ok_bind; [apply same_ok; lia|]. intros m1 _.
  eapply run_ok_bind; [apply same_ok; lia|]. intros m2 _. cbv zeta.
  case_decide; (eapply run_ok_weaken; [apply IH; lia|]); simpl; lia.
Qed.

(** The forward and the backward extension stay inside the files and do not
    overlap. *)
Lemma extensions_ok lastscan lastpos scan pos :
  0 ≤ lastscan ≤ scan → scan ≤ zlen new → 0 ≤ lastpos ≤ zlen old → 0 ≤ pos ≤ zlen old →
  run_ok (extensions old new lastscan lastpos scan pos)
    (λ '(lenf, lenb), 0 ≤ lenf ∧ 0 ≤ lenb ≤ pos ∧ lastpos + lenf ≤ zlen old ∧
       lastscan + lenf ≤ scan - lenb ∧ (scan = zlen new → lenb = 0)).
Proof.
  intros H1 H2 H3 H4. unfold extensions.
  eapply run_ok_bind; [apply extend_forward_ok; lia|]. intros lenf (F1 & F2 & F3).
  eapply run_ok_bind with (P := λ r, 0 ≤ r ∧ lastscan + r ≤ scan ∧ r ≤ pos ∧
                                   (scan = zlen new → r = 0)).
  { case_decide; [|apply run_ok_ret; lia].
    eapply run_ok_weaken; [apply extend_backward_ok; lia|]. simpl. lia. }
  intros lenb (B1 & B2 & B3 & B4). case_decide as Hd; [|apply run_ok_ret; lia].
  cbv zeta. eapply run_ok_bind; [apply cut_overlap_ok; lia|].
  intros lens Hl. simpl in Hl. apply run_ok_ret. lia.
Qed.
End bsdiff_lemmas.

(** The differences, added to the old bytes, give the new ones back. *)
Lemma add_bytes_diff n o :
  Forall (in_u 8) n → zlen n = zlen o →
  add_bytes (zip_with (λ x y, u8 (x - y)) n o) o = n.
Proof.
  intros Hn. revert o. induction Hn as [|x n Hx Hn IH]; intros [|y o] Hl;
    unfold zlen in *; simpl in Hl; try done; try lia.
  unfold add_bytes in *. simpl. rewrite IH by lia. f_equal.
  unfold wrap_u, in_u in *. rewrite Z.add_mod_idemp_l by lia.
  replace (x - y + y) with x by lia. by apply Z.mod_small.
Qed.

Lemma zip_diff_length (n o : bytes) : zlen n = zlen o →
  zlen (zip_with (λ x y, u8 (x - y)) n o) = zlen n.
Proof. unfold zlen. rewrite length_zip_with. lia. Qed.

Lemma replay_app old p q r cs cs' d d' e e' out out' :
  replay old p cs d e out q → replay old q cs' d' e' out' r →
  replay old p (cs ++ cs') (d ++ d') (e ++ e') (out ++ out') r.
Proof.
  induction 1 as [|p x y z cs d o e db eb out q Ho Hd He Hq Hr IH]; intros Hr'; [done|].
  simpl. rewrite <- !app_assoc. constructor; try done. by apply IH.
Qed.

Lemma replay_one old p x y z d o e : zslice old p x = Some o → zlen d = x → zlen e = y →
  0 ≤ p + x + z ≤ zlen old →
  replay old p [(x, y, z)] d e (add_bytes d o ++ e) (p + x + z).
Proof.
  intros Ho Hd He Hp.
  pose proof (replay_cons old p x y z [] d o e [] [] [] (p + x + z) Ho Hd He Hp (replay_nil _ _)) as Hr.
  by rewrite !app_nil_r in Hr.
Qed.

(** What [emit] and the main loop keep: the triples written so far rebuild the
    new file up to [lastscan]. *)
Record scan_inv (old new : bytes) (s : Scan) : Prop := {
  si_scan : 0 ≤ lastscan s ≤ scan s ∧ scan s ≤ zlen new;
  si_len : 0 ≤ len s ∧ (scan s < zlen new → scan s + len s ≤ zlen new);
  si_pos : 0 ≤ pos s ≤ zlen old;
  si_off : 0 ≤ scan s + lastoffset s;
  si_replay : replay old 0 (ctrl s) (db s) (eb s) (take (Z.to_nat (lastscan s)) new) (lastpos s);
  si_lastpos : 0 ≤ lastpos s ≤ zlen old;
  si_blocks : zlen (db s) + zlen (eb s) = lastscan s
}.

Lemma emit_ok old new s : Forall (in_u 8) new → scan_inv old new s →
  run_ok (emit old new s) (λ s', scan_inv old new s' ∧ scan s' = scan s ∧ len s' = len s ∧
    (scan s = zlen new → lastscan s' = zlen new) ∧ length (ctrl s') = S (length (ctrl s))).
Proof.
  intros Hb [Hs Hl Hp Ho Hr Hlp Hbl]. destruct s as [scan len pos ls lp off db eb ctrl].
  cbn in *. eapply run_ok_bind; [apply extensions_ok; lia|].
  intros [lenf lenb] (E1 & E2 & E3 & E4 & E5).
  set (extra := scan - lenb - (ls + lenf)). pose proof (zlen_nonneg db). pose proof (zlen_nonneg eb).
  eapply run_ok_bind; [apply run_ok_access_is with (Q := λ n, zslice new ls lenf = Some n);
    [by apply zslice_is_Some; lia|done]|]. intros n Hn.
  eapply run_ok_bind; [apply run_ok_access_is with (Q := λ n, zslice old lp lenf = Some n);
    [by apply zslice_is_Some; lia|done]|]. intros o Hold.
  eapply run_ok_bind; [apply run_ok_access_is with (Q := λ n, zslice new (ls + lenf) extra = Some n);
    [by apply zslice_is_Some; lia|done]|]. intros e He.
  rewrite decide_True by lia. apply run_ok_ret. cbn.
  pose proof (zslice_length _ _ _ _ Hn) as (Ln & _). pose proof (zslice_length _ _ _ _ Hold) as (Lo & _).
  pose proof (zslice_length _ _ _ _ He) as (Le & _).
  assert (Forall (in_u 8) n) as Hnb.
  { apply zslice_inv in Hn as (a & c & -> & _). rewrite !Forall_app in Hb. tauto. }
  pose proof (zip_diff_length n o ltac:(lia)) as Lz.
  split; [|split_and!; [done|done|lia|rewrite length_app; simpl; lia]].
  constructor; cbn; [lia|lia|lia|lia| |lia|rewrite !zlen_app; lia].
  replace (scan - lenb) with (ls + (lenf + extra)) by lia.
  rewrite (take_zslice new ls (lenf + extra) (n ++ e)) by (by apply zslice_to).
  set (d := zip_with _ n o) in *.
  replace n with (add_bytes d o) by (apply add_bytes_diff; [done|lia]).
  replace (pos - lenb) with (lp + lenf + (pos - lenb - (lp + lenf))) at 2 by lia.
  eapply replay_app; [done|]. apply replay_one; [done|lia|lia|lia].
Qed.

Lemma scan_loop_ok old new fuel sa s :
  positions sa old → Forall (in_u 8) new → scan_inv old new s →
  scan s = zlen new ∨ zlen new < Z.of_nat fuel + scan s + (len s `min` 1) →
  (scan s = zlen new → lastscan s = zlen new) →
  run_ok (scan_loop old new fuel sa s) (λ s', scan_inv old new s' ∧ lastscan s' = zlen new ∧
    (length (ctrl s') ≤ length (ctrl s) + fuel)%nat).
Proof.
  intros Hsa Hb. revert s. induction fuel as [|fuel IH]; intros s Hs Hf Hend.
  - pose proof (si_scan _ _ _ Hs). pose proof (si_len _ _ _ Hs). cbn [scan_loop]. case_decide; [lia|].
    apply run_ok_done. split_and!; [done|lia|lia].
  - pose proof (si_scan _ _ _ Hs). pose proof (si_len _ _ _ Hs). pose proof (si_pos _ _ _ Hs).
    pose proof (si_off _ _ _ Hs). cbn [scan_loop]. case_decide as Hd.
    2: { apply run_ok_done. split_and!; [done|lia|lia]. }
    eapply run_ok_bind.
    { apply (find_match_ok old new sa (lastoffset s) (scan s + len s)); try done; try lia.
      unfold zlen. lia. }
    intros [[[s' l'] p'] c'] (F1 & F2 & F3 & F4). set (s1 := mkScan _ _ _ _ _ _ _ _ _).
    assert (scan_inv old new s1) as Hs1.
    { destruct Hs as [? ? ? ? ? ? ?]. constructor; cbn; try done; lia. }
    eapply run_ok_bind with (P := λ s2, scan_inv old new s2 ∧ scan s2 = s' ∧ len s2 = l' ∧
      (s' = zlen new → lastscan s2 = zlen new) ∧ (length (ctrl s2) ≤ S (length (ctrl s)))%nat).
    + case_decide as He.
      * eapply run_ok_weaken; [by apply emit_ok|]. cbn. intros s2 (? & ? & ? & ? & ?).
        split_and!; try done. lia.
      * apply run_ok_ret. cbn. split_and!; try done; lia || naive_solver.
    + intros s2 (I2 & E1 & E2 & E3 & E4). eapply run_ok_weaken; [apply IH|]; [done| |naive_solver|].
      * rewrite E1, E2. lia.
      * intros s3 (? & ? & ?). split_and!; [done|done|lia].
Qed.

(** The patch [bsdiff] makes, with any suffix array whose entries are positions
    of the old file, is made of triples that rebuild the new file. *)
Lemma bsdiff_ok `{Bz2} fuel fresh sa old new :
  positions sa old → Forall (in_u 8) new → zlen new ≤ INT_MAX →
  run_ok (bsdiff fuel fresh (Some sa) old new) (λ '(sa', patch), sa' = sa ∧
    ∃ cs d e q, replay old 0 cs d e new q ∧ (length cs ≤ S (length new))%nat ∧
      patch = Some (patch_file cs d e (zlen new))).
Proof.
  intros Hsa Hb Hn. unfold bsdiff. cbn [mbind run_bind mret run_ret].
  pose proof (zlen_nonneg new). pose proof (zlen_nonneg old).
  eapply run_ok_bind; [apply (scan_loop_ok old new); try done|].
  - constructor; cbn; try done; try lia. constructor.
  - cbn. unfold zlen. lia.
  - intros s ([_ _ _ _ Hr _ Hbl] & Hl & Hc). apply run_ok_ret. split; [done|].
    rewrite Hl in Hr. unfold zlen in Hr at 1. rewrite Nat2Z.id, firstn_all in Hr.
    pose proof (zlen_nonneg (db s)). pose proof (zlen_nonneg (eb s)). cbn in Hc.
    assert (∀ l, zlen l ≤ zlen new → bz_write l = Some (bz_compress l)) as Hw.
    { intros l Hll. unfold bz_write, INT_MAX in *. pose proof (zlen_nonneg l).
      rewrite wrap_s_id by (unfold in_s; lia). rewrite decide_True by done.
      unfold zlen. by rewrite Nat2Z.id, firstn_all. }
    unfold finish_patch. rewrite !Hw by lia. eexists _, _, _, _. split_and!; [done|done|]. done.
Qed.

(** A patch made by [bsdiff] applies.  For any files of at most [INT_MAX]
    bytes and any suffix array whose entries are positions of the old file,
    [bsdiff] ends without an invalid access and gives a patch, and
    [ApplyBSDiffPatchMem], given the old file and a file that holds the patch at
    any offset, returns success and exactly the new file. *)
Lemma bsdiff_patch_applies `{Abi, B : Bz2, !Bz2Laws B} fresh heap sfuel fuel sa old new pre post :
  positions sa old → Forall (in_u 8) new →
  zlen old ≤ INT_MAX → zlen new ≤ INT_MAX → zlen new ≤ heap →
  (2 * length new + 25 ≤ fuel)%nat →
  run_ok (bsdiff sfuel fresh (Some sa) old new) (λ '(sa', patch), sa' = sa ∧
    ∃ file, patch = Some file ∧
      (zlen (pre ++ file ++ post) ≤ INT_MAX →
       ApplyBSDiffPatchMem fresh heap fuel old (pre ++ file ++ post) (zlen pre)
         = Done (0, new))).
Proof.
  intros Hsa Hb Ho Hn Hh Hf. eapply run_ok_weaken; [by apply bsdiff_ok|].
  intros [sa' patch] (-> & cs & d & e & q & Hr & Hc & ->). split; [done|].
  eexists. split; [done|]. intros Hs. eapply ApplyBSDiffPatchMem_ok; try done. lia.
Qed.

Definition old_example : bytes := bytes_of_string "hello world, this is a test".
Definition new_example : bytes := bytes_of_string "hello brave world, this is the test!".
Definition sa_example : list Z :=
  match qsufsort 100 (λ _, 0) old_example with Done sa => sa | _ => [] end.

Lemma bsdiff_patch_applies_witness :
  run_ok (bsdiff (H := stored_bz2) 0 (λ _, 7) (Some sa_example) old_example new_example)
    (λ '(sa', patch), sa' = sa_example ∧
    ∃ file, patch = Some file ∧
      (zlen ([1; 2] ++ file ++ [3]) ≤ INT_MAX →
       ApplyBSDiffPatchMem (H := abi32) (λ _, 7) 100 100 old_example ([1; 2] ++ file ++ [3])
         (zlen [1; 2]) = Done (0, new_example))).
Proof.
  apply (bsdiff_patch_applies (H := abi32)); try (vm_compute; congruence).
  - split; [by vm_compute|]. apply (bool_decide_unpack _). by vm_compute.
  - apply (bool_decide_unpack _). by vm_compute.
  - apply Nat.leb_le. by vm_compute.
Defined.
