(* ===== verification/SufSort.v ===== *)
(** The suffix sort of [bsdiff.c] is total: on every file of bytes it ends, reads and
    writes inside its arrays, and the result is a permutation of the positions.

    The array [I] is a sequence of blocks.  A run of [l] sorted suffixes starts with
    [- l]; a group lists suffixes that share their first [h] bytes.  [V] maps a
    suffix to its place, in a group to the last place of the group. *)
From S2P Require Import Prelude Bytes Bz2 BsPatch BsDiff.

(** * Arrays *)
Lemma rd_ok a i x : znth a i = Some x → rd a i = Done x.
Proof. intros E. unfold rd. by rewrite E. Qed.
Lemma run_ok_then {A B} (a : A) (f : A → run B) Q : run_ok (f a) Q → run_ok (Done a ≫= f) Q.
Proof. done. Qed.
Lemma wr_ok a i x : 0 ≤ i < zlen a → wr a i x = Done (<[Z.to_nat i := x]> a).
Proof. intros. unfold wr. by rewrite decide_True. Qed.
Lemma znth_insert_eq {A} (l : list A) i x : 0 ≤ i < zlen l → znth (<[Z.to_nat i := x]> l) i = Some x.
Proof.
  intros. rewrite znth_lookup by lia. apply list_lookup_insert_eq. unfold zlen in *. lia.
Qed.
Lemma znth_insert_ne {A} (l : list A) i j x : 0 ≤ i → j ≠ i → znth (<[Z.to_nat i := x]> l) j = znth l j.
Proof.
  intros. unfold znth. case_decide; [|done]. apply list_lookup_insert_ne. lia.
Qed.

(** [R] is at [a] of the array. *)
Definition at_ (l : list Z) (a : Z) (R : list Z) : Prop :=
  0 ≤ a ∧ ∀ o e, R !! o = Some e → znth l (a + Z.of_nat o) = Some e.
Lemma at_app l a R R' : at_ l a (R ++ R') ↔ at_ l a R ∧ at_ l (a + zlen R) R'.
Proof.
  unfold at_, zlen. split.
  - intros [Ha H]. split_and!; [done| |lia|].
    + intros o e E. apply H. by apply lookup_app_l_Some.
    + intros o e E. replace (a + _ + _) with (a + Z.of_nat (length R + o)) by lia. apply H.
      rewrite lookup_app_r by lia. by replace (length R + o - length R)%nat with o by lia.
  - intros [[Ha H] [_ H']]. split; [done|]. intros o e [E|[Hl E]]%lookup_app_Some; [by apply H|].
    apply H' in E. rewrite <- E. f_equal. lia.
Qed.
Lemma at_nil l a : 0 ≤ a → at_ l a [].
Proof. intros Ha. split; [done|]. intros o e. by rewrite lookup_nil. Qed.
Lemma at_end l a R : at_ l a R → R ≠ [] → a + zlen R ≤ zlen l.
Proof.
  intros [_ H] Hne. destruct (last R) as [e|] eqn:El; [|by apply last_None in El].
  rewrite last_lookup in El. apply H in El. apply znth_Some in El. unfold zlen in *.
  destruct R; [done|]. simpl in *. lia.
Qed.
Lemma at_same l l' a R : (∀ p, a ≤ p < a + zlen R → znth l' p = znth l p) → at_ l a R → at_ l' a R.
Proof.
  intros Hs [Ha H]. split; [done|]. intros o e E. rewrite Hs; [by apply H|].
  apply lookup_lt_Some in E. unfold zlen. lia.
Qed.

(** Exchanging two elements of a list. *)
Definition swap (R : list Z) (i j : nat) : list Z :=
  match R !! i, R !! j with Some x, Some y => <[j := x]> (<[i := y]> R) | _, _ => R end.
Lemma swap_perm R i j : swap R i j ≡ₚ R.
Proof.
  unfold swap. destruct (R !! i) as [x|] eqn:Ei; [|done]. destruct (R !! j) as [y|] eqn:Ej; [|done].
  by apply Permutation_insert_swap.
Qed.
Lemma swap_length R i j : length (swap R i j) = length R.
Proof. apply Permutation_length, swap_perm. Qed.
Lemma swap_lookup_ne R i j o : o ≠ i → o ≠ j → swap R i j !! o = R !! o.
Proof.
  intros. unfold swap. destruct (R !! i); [|done]. destruct (R !! j); [|done].
  by rewrite !list_lookup_insert_ne.
Qed.
Lemma swap_lookup_r R i j x : R !! i = Some x → (j < length R)%nat → swap R i j !! j = Some x.
Proof.
  intros Ei Hj. unfold swap. rewrite Ei. destruct (lookup_lt_is_Some_2 R j Hj) as [y Ej]. rewrite Ej.
  apply list_lookup_insert_eq. by rewrite length_insert.
Qed.
Lemma swap_lookup_l R i j y : R !! j = Some y → (i < length R)%nat → swap R i j !! i = Some y.
Proof.
  intros Ej Hi. unfold swap. destruct (lookup_lt_is_Some_2 R i Hi) as [x Ei]. rewrite Ei, Ej.
  destruct (decide (i = j)) as [->|]; [rewrite list_lookup_insert_eq by (by rewrite length_insert); congruence|].
  rewrite list_lookup_insert_ne by done. by apply list_lookup_insert_eq.
Qed.

Lemma swap_I_ok s a R i j : at_ (sort_I s) a R → (i < length R)%nat → (j < length R)%nat →
  run_ok (swap_I s (a + Z.of_nat i) (a + Z.of_nat j)) (λ s', sort_V s' = sort_V s ∧
    zlen (sort_I s') = zlen (sort_I s) ∧ at_ (sort_I s') a (swap R i j) ∧
    ∀ p, ¬ (a ≤ p < a + zlen R) → znth (sort_I s') p = znth (sort_I s) p).
Proof.
  intros [Ha HR] Hi Hj.
  destruct (lookup_lt_is_Some_2 R i Hi) as [x Ei]. destruct (lookup_lt_is_Some_2 R j Hj) as [y Ej].
  pose proof (HR i x Ei) as Hx. pose proof (HR j y Ej) as Hy.
  pose proof (znth_Some _ _ _ Hx). pose proof (znth_Some _ _ _ Hy).
  unfold swap_I. rewrite (rd_ok _ _ _ Hx). cbn [mbind run_bind]. rewrite (rd_ok _ _ _ Hy). cbn [mbind run_bind].
  rewrite wr_ok by done. cbn [mbind run_bind]. rewrite wr_ok by (by rewrite zlen_insert). cbn [mbind run_bind].
  apply run_ok_ret. cbn [sort_I sort_V]. split_and!; [done|by rewrite !zlen_insert| |].
  - split; [done|]. intros o e Eo. destruct (decide (o = j)) as [->|Hoj].
    + rewrite (swap_lookup_r _ _ _ _ Ei Hj) in Eo. injection Eo as <-.
      apply znth_insert_eq. by rewrite zlen_insert.
    + rewrite znth_insert_ne by lia. destruct (decide (o = i)) as [->|Hoi].
      * rewrite (swap_lookup_l _ _ _ _ Ej Hi) in Eo. injection Eo as <-. by apply znth_insert_eq.
      * rewrite znth_insert_ne by lia. rewrite swap_lookup_ne in Eo by done. by apply HR.
  - intros p Hp. unfold zlen in Hp. rewrite !znth_insert_ne by lia. done.
Qed.

(** * Suffixes that share their first bytes *)
Section sort.
Context (old : bytes).
Hypothesis old_bytes : is_bytes old.
Notation N := (zlen old).

(** The bytes of the file; behind its end every position is different. *)
Definition sym (p : Z) : Z := match znth old p with Some b => b | None => -1 - p end.
Definition share (h e e' : Z) : Prop := ∀ k, 0 ≤ k < h → sym (e + k) = sym (e' + k).

Lemma sym_inside p : 0 ≤ p < N → 0 ≤ sym p.
Proof. intros Hp. unfold sym. destruct (znth_byte old p old_bytes Hp) as (b & -> & ?). lia. Qed.
Lemma sym_behind p : N ≤ p → sym p = -1 - p.
Proof. intros Hp. unfold sym. destruct (znth old p) eqn:E; [|done]. apply znth_Some in E. lia. Qed.
Lemma share_sym h e e' : share h e e' → share h e' e.
Proof. intros Hs k Hk. symmetry. by apply Hs. Qed.
Lemma share_refl h e : share h e e.
Proof. by intros k Hk. Qed.
Lemma share_trans h e e' e'' : share h e e' → share h e' e'' → share h e e''.
Proof. intros H1 H2 k Hk. rewrite H1 by done. by apply H2. Qed.
Lemma share_add h h' e e' : 0 ≤ h → share h e e' → share h' (e + h) (e' + h) → share (h + h') e e'.
Proof.
  intros Hh H1 H2 k Hk. destruct (decide (k < h)); [apply H1; lia|].
  replace (e + k) with (e + h + (k - h)) by lia. replace (e' + k) with (e' + h + (k - h)) by lia. apply H2. lia.
Qed.
(** Two suffixes that share [h] bytes have them. *)
Lemma share_room h e e' : 0 < h → 0 ≤ e → 0 ≤ e' → e ≠ e' → share h e e' → e + h ≤ N.
Proof.
  intros Hh He He' Hne Hs. destruct (decide (e + h ≤ N)); [done|]. exfalso.
  specialize (Hs (h - 1) ltac:(lia)). rewrite (sym_behind (e + (h - 1))) in Hs by lia.
  destruct (decide (N ≤ e' + (h - 1))); [rewrite sym_behind in Hs by lia; lia|].
  pose proof (sym_inside (e' + (h - 1)) ltac:(lia)). lia.
Qed.

(** ** Blocks *)
Definition run_block (s : Sort) (a : Z) (k : list Z) : Prop :=
  znth (sort_I s) a = Some (- zlen k) ∧ at_ (sort_I s) a [] ∧
  ∀ o e, k !! o = Some e → znth (sort_V s) e = Some (a + Z.of_nat o).
Definition group_block (h : Z) (s : Sort) (a : Z) (k : list Z) : Prop :=
  at_ (sort_I s) a k ∧ (∀ e, e ∈ k → znth (sort_V s) e = Some (a + zlen k - 1)) ∧
  (∀ e, e ∈ k → 0 ≤ e ∧ e + h ≤ N) ∧ ∀ e e', e ∈ k → e' ∈ k → share h e e'.
Inductive blocks (h : Z) (s : Sort) : Z → list Z → Prop :=
| blocks_nil a : blocks h s a []
| blocks_cons a k rest : k ≠ [] → run_block s a k ∨ group_block h s a k →
    blocks h s (a + zlen k) rest → blocks h s a (k ++ rest).

Lemma blocks_one h s a k : k ≠ [] → run_block s a k ∨ group_block h s a k → blocks h s a k.
Proof. intros Hne Hk. rewrite <- (app_nil_r k). constructor; [done|done|constructor]. Qed.
Lemma blocks_join h s a k k' : blocks h s a k → blocks h s (a + zlen k) k' → blocks h s a (k ++ k').
Proof.
  induction 1 as [a|a k rest Hne Hk Hrest IH]; intros Hk'; [by rewrite zlen_nil, Z.add_0_r in Hk'|].
  rewrite <- app_assoc. constructor; [done|done|]. apply IH. by rewrite zlen_app, Z.add_assoc in Hk'.
Qed.
(** Blocks only depend on their part of [I] and on their suffixes' places. *)
Lemma blocks_frame h s s' a k : blocks h s a k → 
  (∀ p, a ≤ p < a + zlen k → znth (sort_I s') p = znth (sort_I s) p) →
  (∀ e, e ∈ k → znth (sort_V s') e = znth (sort_V s) e) → blocks h s' a k.
Proof.
  induction 1 as [a|a k rest Hne Hk Hrest IH]; intros HI HV; [constructor|]. rewrite zlen_app in HI.
  pose proof (zlen_nonneg rest). pose proof (zlen_nonneg k). constructor; [done| |].
  2: { apply IH; [intros p Hp; apply HI; lia|intros e He; apply HV; set_solver]. }
  assert (0 < zlen k) by (destruct k; [done|rewrite zlen_cons; pose proof (zlen_nonneg k); lia]).
  destruct Hk as [(E & [Ha _] & Hv)|(Hat & Hv & Hr & Hsh)]; [left|right].
  - split_and!; [rewrite HI; [done|lia]|done|]. intros o e Eo. rewrite HV; [by apply Hv|].
    apply elem_of_app. left. by eapply list_elem_of_lookup_2.
  - split_and!; try done.
    + eapply at_same; [|done]. intros p Hp. apply HI. lia.
    + intros e He. rewrite HV; [by apply Hv|]. set_solver.
Qed.

(** * Splitting a group

    [M] is the group at the places from [a0] to [b0]; [V0] are the places of the other
    suffixes. *)
Section split.
Context (M : list Z) (a0 b0 h : Z) (V0 : list Z).
Hypothesis h_pos : 0 < h.
Hypothesis M_room : ∀ e, e ∈ M → 0 ≤ e ∧ e + h ≤ N.
Hypothesis M_share : ∀ e e', e ∈ M → e' ∈ M → share h e e'.
Hypothesis V0_size : zlen V0 = N + 1.
Hypothesis V0_out : ∀ e v, e ∉ M → znth V0 e = Some v → ¬ (a0 ≤ v < b0).
Hypothesis V0_share : ∀ e e' v, e ∉ M → e' ∉ M → znth V0 e = Some v → znth V0 e' = Some v → share h e e'.

Definition splitting (s : Sort) : Prop :=
  zlen (sort_I s) = N + 1 ∧ zlen (sort_V s) = N + 1 ∧
  (∀ e, e ∈ M → ∃ v, znth (sort_V s) e = Some v ∧ a0 ≤ v < b0) ∧
  (∀ e, e ∉ M → znth (sort_V s) e = znth V0 e).

(** The key of a suffix of the group: the place of the suffix [h] bytes on. *)
Definition kv (s : Sort) (e : Z) : Z := default 0 (znth (sort_V s) (e + h)).
Lemma kv_some s e : splitting s → e ∈ M → znth (sort_V s) (e + h) = Some (kv s e).
Proof.
  intros (_ & HV & _) He. apply M_room in He. unfold kv.
  destruct (proj2 (znth_is_Some (sort_V s) (e + h)) ltac:(lia)) as [v ->]. done.
Qed.
Lemma key_at s a R o e : splitting s → at_ (sort_I s) a R → R ⊆ M → R !! o = Some e →
  key s h (a + Z.of_nat o) = Done (kv s e).
Proof.
  intros Hs [_ HR] HM Eo. unfold key. rewrite (rd_ok _ _ _ (HR o e Eo)). cbn [mbind run_bind].
  apply rd_ok, kv_some; [done|]. apply HM. by eapply list_elem_of_lookup_2.
Qed.
Lemma key_share s e e' : splitting s → e ∈ M → e' ∈ M → kv s e = kv s e' → share (h + h) e e'.
Proof.
  intros Hs He He' E. apply share_add; [lia|by apply M_share|].
  pose proof (kv_some s e Hs He) as K. pose proof (kv_some s e' Hs He') as K'. rewrite <- E in K'.
  destruct Hs as (_ & _ & Hin & Hout).
  destruct (decide (e + h ∈ M)) as [H1|H1], (decide (e' + h ∈ M)) as [H2|H2].
  - by apply M_share.
  - exfalso. destruct (Hin _ H1) as (v & Ev & ?). rewrite Hout in K' by done.
    rewrite K in Ev. injection Ev as <-. by apply (V0_out _ _ H2 K').
  - exfalso. destruct (Hin _ H2) as (v & Ev & ?). rewrite Hout in K by done.
    rewrite K' in Ev. injection Ev as <-. by apply (V0_out _ _ H1 K).
  - rewrite Hout in K, K' by done. by eapply V0_share.
Qed.

Lemma equal_keys s x K : splitting s → K ⊆ M → (∀ e, e ∈ K → kv s e = x) →
  ∀ e e', e ∈ K → e' ∈ K → share (h + h) e e'.
Proof. intros Hs HM Hx e e' He He'. apply (key_share s); auto. by rewrite !Hx. Qed.

(** Only [I] changes, and only inside a region, to another order of its elements. *)
Definition reordered (s : Sort) (a : Z) (R : list Z) (s' : Sort) (R' : list Z) : Prop :=
  sort_V s' = sort_V s ∧ zlen (sort_I s') = zlen (sort_I s) ∧ at_ (sort_I s') a R' ∧ R' ≡ₚ R ∧
  ∀ p, ¬ (a ≤ p < a + zlen R) → znth (sort_I s') p = znth (sort_I s) p.
Lemma reordered_refl s a R : at_ (sort_I s) a R → reordered s a R s R.
Proof. intros HR. unfold reordered. by auto. Qed.
Lemma reordered_trans s a R s1 R1 s2 R2 : reordered s a R s1 R1 → reordered s1 a R1 s2 R2 →
  reordered s a R s2 R2.
Proof.
  intros (V1 & L1 & _ & P1 & F1) (V2 & L2 & A2 & P2 & F2). split_and!; [congruence|congruence|done|by etrans|].
  intros p Hp. rewrite F2; [by apply F1|]. by rewrite P1.
Qed.
Lemma reordered_splitting s a R s' R' : reordered s a R s' R' → splitting s → splitting s'.
Proof. intros (E1 & E2 & _) Hs. unfold splitting. by rewrite E1, E2. Qed.
Lemma reordered_kv s a R s' R' e : reordered s a R s' R' → kv s' e = kv s e.
Proof. intros (E & _). unfold kv. by rewrite E. Qed.
Lemma swap_step s a R i j : splitting s → at_ (sort_I s) a R → (i < length R)%nat → (j < length R)%nat →
  run_ok (swap_I s (a + Z.of_nat i) (a + Z.of_nat j)) (λ s', reordered s a R s' (swap R i j)).
Proof.
  intros Hs HR Hi Hj. eapply run_ok_weaken; [by apply swap_I_ok|]. intros s' (E1 & E2 & E3 & E4).
  split_and!; try done. apply swap_perm.
Qed.

(** All elements at the places from [i] to [j] satisfy [P]. *)
Definition all_at (P : Z → Prop) (R : list Z) (i j : nat) : Prop :=
  ∀ o e, (i ≤ o < j)%nat → R !! o = Some e → P e.

Lemma select_min_ok m : ∀ s R a i x j, splitting s → at_ (sort_I s) a R → R ⊆ M →
  (1 ≤ j ≤ i)%nat → (i + m = length R)%nat → all_at (λ e, kv s e = x) R 0 j →
  run_ok (select_min m s h a (Z.of_nat i) x (Z.of_nat j)) (λ '(s', x', j'),
    ∃ R' jn, reordered s a R s' R' ∧ j' = Z.of_nat jn ∧ (1 ≤ jn ≤ length R)%nat ∧
      all_at (λ e, kv s e = x') R' 0 jn).
Proof.
  induction m as [|m IH]; intros s R a i x j Hs HR HM Hj Hi Hx.
  { apply run_ok_done. exists R, j. split_and!; auto using reordered_refl; lia. }
  cbn [select_min]. destruct (lookup_lt_is_Some_2 R i ltac:(lia)) as [e Ee].
  rewrite (key_at s a R i e) by done. cbn [mbind run_bind].
  replace (Z.of_nat i + 1) with (Z.of_nat (S i)) by lia.
  assert (∃ x0 j0, (if decide (kv s e < x) then (kv s e, 0) else (x, Z.of_nat j)) = (x0, Z.of_nat j0) ∧
    (j0 ≤ i)%nat ∧ all_at (λ e, kv s e = x0) R 0 j0 ∧ (x0 = kv s e ∨ (1 ≤ j0)%nat)) as (x0 & j0 & -> & Hj0 & Hx0 & Hc).
  { case_decide.
    - exists (kv s e), 0%nat. split_and!; [done|lia| |by left]. intros o e' Ho. lia.
    - exists x, j. split_and!; [done|lia|done|right; lia]. }
  cbn beta iota. case_decide as Hd.
  - eapply run_ok_bind; [apply (swap_step s a R j0 i); done || lia|]. intros s1 Hr1. subst x0.
    replace (Z.of_nat j0 + 1) with (Z.of_nat (S j0)) by lia.
    assert (all_at (λ e0, kv s1 e0 = kv s e) (swap R j0 i) 0 (S j0)) as Hall.
    { intros o e' Ho Eo. rewrite (reordered_kv _ _ _ _ _ _ Hr1).
      destruct (decide (o = j0)) as [->|Hne].
      - destruct (decide (j0 = i)) as [->|Hji].
        + rewrite (swap_lookup_r R i i e Ee) in Eo by lia. congruence.
        + rewrite (swap_lookup_l R j0 i e Ee) in Eo by lia. congruence.
      - rewrite swap_lookup_ne in Eo by lia. apply (Hx0 o); [lia|done]. }
    pose proof Hr1 as (_ & _ & HR1 & HP1 & _).
    eapply run_ok_weaken;
      [apply (IH s1 (swap R j0 i) a (S i) (kv s e) (S j0) (reordered_splitting _ _ _ _ _ Hr1 Hs) HR1);
        [intros e' He'; apply HM; by rewrite <- HP1|lia|rewrite swap_length; lia|done]|].
    intros [[s' x'] j'] (R' & jn & Hr & -> & Hjn & Hall'). exists R', jn. rewrite swap_length in Hjn.
      split; [by apply (reordered_trans _ _ _ _ _ _ _ Hr1 Hr)|]. split_and!; [done|lia|lia|]. intros o e' Ho Eo. rewrite <- (reordered_kv _ _ _ _ _ _ Hr1). by apply (Hall' o).
  - apply IH; try done; [|lia]. destruct Hc as [->|?]; [done|lia].
Qed.

Lemma set_group_ok K : ∀ s k v, at_ (sort_I s) k K → (∀ e, e ∈ K → 0 ≤ e < zlen (sort_V s)) →
  run_ok (set_group (length K) s k v) (λ s', sort_I s' = sort_I s ∧ zlen (sort_V s') = zlen (sort_V s) ∧
    (∀ e, e ∈ K → znth (sort_V s') e = Some v) ∧ ∀ e, e ∉ K → znth (sort_V s') e = znth (sort_V s) e).
Proof.
  induction K as [|e K IH]; intros s k v HK Hin; cbn [set_group length].
  { apply run_ok_done. split_and!; try done; set_solver. }
  apply (at_app _ _ [e]) in HK as [[Hk He] HK].
  specialize (He 0%nat e eq_refl). rewrite Z.add_0_r in He. rewrite (rd_ok _ _ _ He). cbn [mbind run_bind].
  assert (0 ≤ e < zlen (sort_V s)) as Hev by (apply Hin; set_solver).
  rewrite wr_ok by done. cbn [mbind run_bind].
  eapply run_ok_weaken; [apply IH; [done|cbn [sort_V]; rewrite zlen_insert; set_solver]|].
  cbn [sort_I sort_V]. intros s' (E1 & E2 & E3 & E4). rewrite zlen_insert in E2. split_and!; [done|done| |].
  - intros e' He'. destruct (decide (e' ∈ K)) as [|Hn]; [by apply E3|]. rewrite E4 by done.
    assert (e' = e) as -> by set_solver. by apply znth_insert_eq.
  - intros e' He'. rewrite E4 by set_solver. apply znth_insert_ne; [lia|set_solver].
Qed.

(** A region has been turned into blocks of suffixes that share twice the bytes. *)
Definition split_to (s : Sort) (a : Z) (R : list Z) (s' : Sort) (R' : list Z) : Prop :=
  splitting s' ∧ R' ≡ₚ R ∧ blocks (h + h) s' a R' ∧
  (∀ p, ¬ (a ≤ p < a + zlen R) → znth (sort_I s') p = znth (sort_I s) p) ∧
  ∀ e, e ∉ R → znth (sort_V s') e = znth (sort_V s) e.
Lemma zlen_perm (R R' : list Z) : R ≡ₚ R' → zlen R = zlen R'.
Proof. intros E. unfold zlen. by rewrite E. Qed.
Lemma split_to_nil s a : splitting s → split_to s a [] s [].
Proof. intros Hs. unfold split_to. auto using blocks_nil. Qed.
Lemma split_to_app s a R1 R2 s1 R1' s2 R2' : NoDup (R1 ++ R2) →
  split_to s a R1 s1 R1' → split_to s1 (a + zlen R1) R2 s2 R2' → split_to s a (R1 ++ R2) s2 (R1' ++ R2').
Proof.
  intros (_ & Hdis & _)%NoDup_app (_ & P1 & B1 & I1 & V1) (S2 & P2 & B2 & I2 & V2).
  pose proof (zlen_perm _ _ P1) as L1. pose proof (zlen_nonneg R1). pose proof (zlen_nonneg R2).
  split_and!; [done|by rewrite P1, P2| |intros p Hp; rewrite zlen_app in Hp; rewrite I2, I1 by lia; done
    |intros e He; rewrite V2, V1 by set_solver; done].
  apply blocks_join; [|by rewrite L1]. eapply blocks_frame; [done|intros p Hp; apply I2; lia|].
  intros e He. apply V2, Hdis. by rewrite <- P1.
Qed.
Lemma split_to_reordered s a R s1 R1 s2 R2 : reordered s a R s1 R1 → split_to s1 a R1 s2 R2 → split_to s a R s2 R2.
Proof.
  intros (V1 & L1 & _ & P1 & F1) (S2 & P2 & B2 & F2 & V2). pose proof (zlen_perm _ _ P1) as L.
  split_and!; [done|by etrans|done| |].
  - intros p Hp. rewrite F2 by lia. by apply F1.
  - intros e He. rewrite V2, V1; [done|]. by rewrite P1.
Qed.

(** The end of a group: the places of its members, and a run for a single suffix. *)
Lemma close_group_ok (P : Prop) `{Decision P} s k K n v (f : Sort → run Sort) Q : splitting s →
  at_ (sort_I s) k K → K ≠ [] → K ⊆ M → (∀ e e', e ∈ K → e' ∈ K → share (h + h) e e') →
  a0 ≤ k → k + zlen K ≤ b0 → NoDup K → n = length K → v = k + zlen K - 1 → (P ↔ zlen K = 1) →
  (∀ s', split_to s k K s' K → run_ok (f s') Q) →
  run_ok (s ← set_group n s k v;
    s ← (if decide P then i1 ← wr (sort_I s) k (-1); mret (mkSort i1 (sort_V s)) else mret s); f s) Q.
Proof.
  intros Hs HK Hne HM Hsh Ha Hb Hnd -> -> HP Hf. pose proof Hs as (LI & LV & Hin & Hout).
  assert (0 < zlen K) by (destruct K; [done|rewrite zlen_cons; pose proof (zlen_nonneg K); lia]).
  eapply run_ok_bind; [apply set_group_ok; [done|]|].
  { intros e He%HM. apply M_room in He. lia. }
  intros s1 (E1 & E2 & E3 & E4).
  assert (∀ i, zlen i = zlen (sort_I s) → splitting (mkSort i (sort_V s1))) as Hs1.
  { intros i Hi. split_and!; cbn [sort_I sort_V]; [congruence|congruence| |].
    - intros e He. destruct (decide (e ∈ K)) as [Hk|Hk]; [rewrite E3 by done; eexists; split; [done|lia]|].
      rewrite E4 by done. by apply Hin.
    - intros e He. rewrite E4 by set_solver. by apply Hout. }
  case_decide as Hd.
  - apply HP in Hd. destruct K as [|e [|e2 K]]; [done| |exfalso; rewrite !zlen_cons in Hd; pose proof (zlen_nonneg K); lia].
    pose proof (at_end _ _ _ HK Hne) as Hend. destruct HK as [Hk _].
    rewrite wr_ok by (rewrite E1; lia). apply run_ok_then, Hf.
    split_and!; [apply Hs1; by rewrite zlen_insert, E1|done| | |done]; cbn [sort_I sort_V].
    + apply blocks_one; [done|left]. cbn [sort_I sort_V]. split_and!.
      * apply znth_insert_eq. rewrite E1. lia.
      * by apply at_nil.
      * intros [|o] x Ex; [|done]. injection Ex as <-. rewrite E3 by set_solver. f_equal. rewrite Hd. lia.
    + intros p Hp. rewrite znth_insert_ne by lia. by rewrite E1.
  - apply run_ok_then, Hf.
    split_and!; [destruct s1; apply Hs1; cbn in *; congruence|done| |by rewrite E1|done].
    apply blocks_one; [done|right]. split_and!; [by rewrite E1|by intros; apply E3| |done].
    intros e He. assert (∃ e', e' ∈ K ∧ e' ≠ e) as (e' & He' & Hee).
    { destruct K as [|x [|y K]]; [done|exfalso; apply Hd, HP; done|]. apply NoDup_cons in Hnd as [Hx _].
      destruct (decide (x = e)) as [->|]; [exists y|exists x]; set_solver. }
    pose proof (M_room e (HM _ He)). pose proof (M_room e' (HM _ He')). split; [lia|].
    apply (share_room (h + h) e e'); [lia|lia|lia|congruence|by apply Hsh].
Qed.

Lemma split_short_ok fuel : ∀ s k R, splitting s → at_ (sort_I s) k R → R ⊆ M → NoDup R →
  a0 ≤ k → k + zlen R ≤ b0 → (length R ≤ fuel)%nat →
  run_ok (split_short fuel s k (k + zlen R) h) (λ s', ∃ R', split_to s k R s' R').
Proof.
  induction fuel as [|fuel IH]; intros s k R Hs HR HM Hnd Ha Hb Hf.
  { destruct R; [|simpl in Hf; lia]. cbn [split_short]. rewrite decide_False by (rewrite zlen_nil; lia).
    apply run_ok_done. eauto using split_to_nil. }
  cbn [split_short]. destruct R as [|e R].
  { rewrite decide_False by (rewrite zlen_nil; lia). apply run_ok_done. eauto using split_to_nil. }
  pose proof (zlen_nonneg R). rewrite decide_True by (rewrite zlen_cons; lia).
  pose proof (key_at s k (e :: R) 0 e Hs HR HM eq_refl) as Hkey. rewrite Z.add_0_r in Hkey.
  rewrite Hkey. cbn [mbind run_bind].
  eapply run_ok_bind.
  { apply (select_min_ok (Z.to_nat (k + zlen (e :: R) - (k + 1))) s (e :: R) k 1 (kv s e) 1); try done.
    - rewrite zlen_cons. unfold zlen. simpl length. lia.
    - intros [|o] e' Ho Eo; [by injection Eo as <-|lia]. }
  intros [[s1 x] j] (R1 & jn & Hr & -> & Hjn & Hall).
  pose proof Hr as (_ & _ & A1 & P1 & _). pose proof (zlen_perm _ _ P1) as L1. rewrite <- P1 in HM, Hnd.
  assert (length (take jn R1) = jn) as Hlt by (rewrite length_take, (Permutation_length P1); lia).
  rewrite <- (take_drop jn R1) in HM, A1, Hnd, L1. rewrite zlen_app in L1. apply at_app in A1 as [A1 A2].
  assert (zlen (take jn R1) = Z.of_nat jn) as Hz by (unfold zlen; lia). pose proof (zlen_nonneg (drop jn R1)).
  pose proof (reordered_splitting _ _ _ _ _ Hr Hs) as Hs1.
  rewrite Nat2Z.id. apply (close_group_ok _ _ _ (take jn R1)); try done; try lia.
  - destruct (take jn R1); [simpl in *; lia|done].
  - set_solver.
  - apply (equal_keys s x _ Hs); [set_solver|]. intros e1 (o1 & H1)%list_elem_of_lookup_1.
    apply lookup_take_Some in H1 as [H1 ?]. apply (Hall o1); [lia|done].
  - by apply NoDup_app in Hnd as [? _].
  - intros s2 Hst2. pose proof Hst2 as (Hs2 & P2 & B2 & F2 & V2).
    replace (k + zlen (e :: R)) with (k + zlen (take jn R1) + zlen (drop jn R1)) by lia. rewrite <- Hz.
    assert (length R1 = length (e :: R)) as HlR by (by rewrite P1).
    eapply run_ok_weaken; [apply (IH s2 _ (drop jn R1)); try done; try lia|].
    + eapply at_same; [|done]. intros p Hp. apply F2. lia.
    + set_solver.
    + by apply NoDup_app in Hnd as (_ & _ & ?).
    + rewrite length_drop. simpl in *. lia.
    + intros s3 (R3 & Hst3). exists (take jn R1 ++ R3). eapply split_to_reordered; [done|].
      rewrite <- (take_drop jn R1) at 1. by eapply split_to_app.
Qed.

(** ** Larger groups are cut in three around a key *)
Definition count (P : Z → Prop) `{∀ e, Decision (P e)} (R : list Z) : nat := length (filter P R).
Lemma count_app P `{∀ e, Decision (P e)} R R' : count P (R ++ R') = (count P R + count P R')%nat.
Proof. unfold count. by rewrite filter_app, length_app. Qed.
Lemma count_perm P `{∀ e, Decision (P e)} R R' : R ≡ₚ R' → count P R = count P R'.
Proof. intros E. unfold count. by rewrite E. Qed.
Lemma count_all P `{∀ e, Decision (P e)} R : (∀ e, e ∈ R → P e) → count P R = length R.
Proof.
  unfold count. induction R as [|e R IH]; intros HP; [done|]. rewrite filter_cons_True by (apply HP; set_solver).
  simpl. rewrite IH; [done|]. intros. apply HP. set_solver.
Qed.
(** A full segment and one more element bound the count. *)
Lemma count_more P `{∀ e, Decision (P e)} R i j o e : (i ≤ j ≤ length R)%nat → all_at P R i j →
  R !! o = Some e → P e → (o < i ∨ j ≤ o)%nat → (j - i < count P R)%nat.
Proof.
  intros Hij HP Eo He Ho. 
  assert (count P (take (j - i) (drop i R)) = (j - i)%nat) as Hmid.
  { rewrite count_all; [rewrite length_take, length_drop; lia|]. intros x (p & Hx)%list_elem_of_lookup_1.
    apply lookup_take_Some in Hx as [Hx ?]. rewrite lookup_drop in Hx. by apply (HP (i + p)%nat); [lia|]. }
  assert (∀ T, e ∈ T → (1 ≤ count P T)%nat) as Hone.
  { intros T (T1 & T2 & ->)%list_elem_of_split. rewrite count_app. unfold count at 2. rewrite filter_cons_True by done.
    simpl. lia. }
  assert (count P R = count P (take i R) + (count P (take (j - i) (drop i R)) + count P (drop j R)))%nat as ->.
  { rewrite <- !count_app. f_equal. replace (drop j R) with (drop (j - i) (drop i R)) by (rewrite drop_drop; f_equal; lia).
    by rewrite !take_drop. }
  destruct Ho as [Ho|Ho].
  - enough (1 ≤ count P (take i R))%nat by lia. apply Hone.
    apply (list_elem_of_lookup_2 _ o), lookup_take_Some. done.
  - enough (1 ≤ count P (drop j R))%nat by lia. apply Hone.
    apply (list_elem_of_lookup_2 _ (o - j)). rewrite lookup_drop. by replace (j + (o - j))%nat with o by lia.
Qed.

Section partition.
Context (f : Z → Z) (x : Z) (a : Z) (lo mi hi : nat).
Notation is_low := (λ e, f e < x).
Notation is_mid := (λ e, f e = x).
Notation is_high := (λ e, x < f e).
Definition counted (R : list Z) : Prop :=
  count is_low R = lo ∧ count is_mid R = mi ∧ count is_high R = hi ∧ length R = (lo + mi + hi)%nat.

Lemma count_split R : (count is_low R + count is_mid R + count is_high R = length R)%nat.
Proof.
  unfold count. induction R as [|e R IH]; [done|]. rewrite !filter_cons.
  repeat case_decide; simpl; lia.
Qed.
Lemma counted_swap R i j : counted R → counted (swap R i j).
Proof.
  unfold counted. rewrite swap_length, !(count_perm _ _ _ (swap_perm R i j)). done.
Qed.
Lemma all_at_swap P R i j p q : all_at P R p q → ¬ (p ≤ i < q)%nat → ¬ (p ≤ j < q)%nat → all_at P (swap R i j) p q.
Proof. intros HP Hi Hj o e Ho Eo. rewrite swap_lookup_ne in Eo by lia. by apply (HP o). Qed.
Lemma all_at_snoc (P : Z → Prop) R p q e : all_at P R p q → R !! q = Some e → P e → all_at P R p (S q).
Proof. intros HP E He o e' Ho Eo. destruct (decide (o = q)) as [->|]; [congruence|]. apply (HP o); [lia|done]. Qed.

Lemma count_keys_ok n s R : splitting s → at_ (sort_I s) a R → R ⊆ M → (∀ e, kv s e = f e) →
  ∀ o jj kk, (o + n = length R)%nat →
  count_keys n s h (a + Z.of_nat o) x jj kk =
    Done (jj + Z.of_nat (count is_low (drop o R)), kk + Z.of_nat (count is_mid (drop o R))).
Proof.
  intros Hs HR HM Hkv. induction n as [|n IH]; intros o jj kk Ho; cbn [count_keys].
  { rewrite drop_ge by lia. unfold count. simpl. f_equal. f_equal; lia. }
  destruct (lookup_lt_is_Some_2 R o ltac:(lia)) as [e Ee].
  rewrite (key_at s a R o e) by done. cbn [mbind run_bind]. rewrite Hkv.
  replace (a + Z.of_nat o + 1) with (a + Z.of_nat (S o)) by lia. rewrite IH by lia.
  rewrite (drop_S R e o) by done. unfold count. rewrite !filter_cons. f_equal.
  repeat case_decide; simpl length; f_equal; lia.
Qed.

Lemma partition_low_ok fuel : ∀ s R i j k, splitting s → at_ (sort_I s) a R → R ⊆ M → (∀ e, kv s e = f e) →
  counted R → (i ≤ lo)%nat → (j ≤ mi)%nat → (k ≤ hi)%nat →
  all_at is_low R 0 i → all_at is_mid R lo (lo + j) → all_at is_high R (lo + mi) (lo + mi + k) →
  (length R ≤ fuel + i + j + k)%nat →
  run_ok (partition_low fuel s h (a + Z.of_nat i) (Z.of_nat j) (Z.of_nat k)
      (a + Z.of_nat lo) (a + Z.of_nat (lo + mi)) x)
    (λ '(s', j', k'), ∃ R' jn kn, reordered s a R s' R' ∧ counted R' ∧ j' = Z.of_nat jn ∧ k' = Z.of_nat kn ∧
      (jn ≤ mi)%nat ∧ (kn ≤ hi)%nat ∧ all_at is_low R' 0 lo ∧ all_at is_mid R' lo (lo + jn) ∧
      all_at is_high R' (lo + mi) (lo + mi + kn)).
Proof.
  induction fuel as [|fuel IH]; intros s R i j k Hs HR HM Hkv HC Hi Hj Hk Pl Pm Ph Hf; cbn [partition_low].
  all: pose proof HC as (Cl & Cm & Ch & CL).
  all: destruct (decide (i = lo)) as [->|Hne];
    [rewrite decide_False by lia; apply run_ok_done; exists R, j, k; split_and!; auto using reordered_refl|].
  { lia. }
  rewrite decide_True by lia. destruct (lookup_lt_is_Some_2 R i ltac:(lia)) as [e Ee].
  rewrite (key_at s a R i e) by done. cbn [mbind run_bind]. rewrite Hkv.
  assert (∀ t, (i < t < length R)%nat →
    ∀ j' k', (j' ≤ mi)%nat → (k' ≤ hi)%nat → (i + j + k < i + j' + k')%nat →
    all_at is_mid (swap R i t) lo (lo + j') → all_at is_high (swap R i t) (lo + mi) (lo + mi + k') →
    run_ok (swap_I s (a + Z.of_nat i) (a + Z.of_nat t) ≫= λ s',
       partition_low fuel s' h (a + Z.of_nat i) (Z.of_nat j') (Z.of_nat k') (a + Z.of_nat lo) (a + Z.of_nat (lo + mi)) x)
    (λ '(s', j', k'), ∃ R' jn kn, reordered s a R s' R' ∧ counted R' ∧ j' = Z.of_nat jn ∧ k' = Z.of_nat kn ∧
      (jn ≤ mi)%nat ∧ (kn ≤ hi)%nat ∧ all_at is_low R' 0 lo ∧ all_at is_mid R' lo (lo + jn) ∧
      all_at is_high R' (lo + mi) (lo + mi + kn))) as Hswap.
  { intros t Ht j' k' Hj' Hk' Hlt Pm' Ph'.
    eapply run_ok_bind; [apply (swap_step s a R i t); done || lia|]. intros s1 Hr1.
    pose proof Hr1 as (_ & _ & HR1 & HP1 & _).
    eapply run_ok_weaken; [apply (IH s1 (swap R i t)); try done|].
    - exact (reordered_splitting _ _ _ _ _ Hr1 Hs).
    - intros e'. rewrite HP1. apply HM.
    - intros e'. by rewrite (reordered_kv _ _ _ _ _ _ Hr1).
    - by apply counted_swap.
    - apply all_at_swap; [done|lia|lia].
    - rewrite swap_length. lia.
    - intros [[s' j''] k''] (R' & jn & kn & Hr & Hrest). exists R', jn, kn.
      split; [exact (reordered_trans _ _ _ _ _ _ _ Hr1 Hr)|done]. }
  case_decide as Hlow; [|case_decide as Hmid].
  - replace (a + Z.of_nat i + 1) with (a + Z.of_nat (S i)) by lia. apply IH; try done; [lia| |lia].
    by apply (all_at_snoc _ _ _ _ e).
  - pose proof (count_more is_mid R lo (lo + j) i e ltac:(lia) Pm Ee Hmid ltac:(lia)).
    replace (a + Z.of_nat lo + Z.of_nat j) with (a + Z.of_nat (lo + j)) by lia.
    replace (Z.of_nat j + 1) with (Z.of_nat (S j)) by lia. apply Hswap; [lia|lia|lia|lia| |].
    + rewrite <- plus_n_Sm. apply (all_at_snoc _ _ _ _ e); [by apply all_at_swap; [|lia|lia]| |done].
      apply swap_lookup_r; [done|lia].
    + by apply all_at_swap; [|lia|lia].
  - pose proof (count_more is_high R (lo + mi) (lo + mi + k) i e ltac:(lia) Ph Ee ltac:(simpl; lia) ltac:(lia)).
    replace (a + Z.of_nat (lo + mi) + Z.of_nat k) with (a + Z.of_nat (lo + mi + k)) by lia.
    replace (Z.of_nat k + 1) with (Z.of_nat (S k)) by lia. apply Hswap; [lia|lia|lia|lia| |].
    + by apply all_at_swap; [|lia|lia].
    + rewrite <- plus_n_Sm. apply (all_at_snoc _ _ _ _ e); [by apply all_at_swap; [|lia|lia]| |simpl; lia].
      apply swap_lookup_r; [done|lia].
Qed.

Lemma partition_mid_ok fuel : ∀ s R j k, splitting s → at_ (sort_I s) a R → R ⊆ M → (∀ e, kv s e = f e) →
  counted R → (j ≤ mi)%nat → (k ≤ hi)%nat →
  all_at is_low R 0 lo → all_at is_mid R lo (lo + j) → all_at is_high R (lo + mi) (lo + mi + k) →
  (length R ≤ fuel + lo + j + k)%nat →
  run_ok (partition_mid fuel s h (Z.of_nat j) (Z.of_nat k) (a + Z.of_nat lo) (a + Z.of_nat (lo + mi)) x)
    (λ s', ∃ R', reordered s a R s' R' ∧ length R' = length R ∧ all_at is_mid R' lo (lo + mi)).
Proof.
  induction fuel as [|fuel IH]; intros s R j k Hs HR HM Hkv HC Hj Hk Pl Pm Ph Hf; cbn [partition_mid].
  all: pose proof HC as (Cl & Cm & Ch & CL).
  all: destruct (decide (j = mi)) as [->|Hne];
    [rewrite decide_False by lia; apply run_ok_done; exists R; auto using reordered_refl|].
  { lia. }
  rewrite decide_True by lia. destruct (lookup_lt_is_Some_2 R (lo + j) ltac:(lia)) as [e Ee].
  replace (a + Z.of_nat lo + Z.of_nat j) with (a + Z.of_nat (lo + j)) by lia.
  rewrite (key_at s a R (lo + j) e) by done. cbn [mbind run_bind]. rewrite Hkv. case_decide as Hmid.
  - replace (Z.of_nat j + 1) with (Z.of_nat (S j)) by lia. apply IH; try done; [lia| |lia].
    rewrite <- plus_n_Sm. by apply (all_at_snoc _ _ _ _ e).
  - destruct (decide (f e < x)) as [Hlow|Hhigh].
    { pose proof (count_more is_low R 0 lo (lo + j) e ltac:(lia) Pl Ee Hlow ltac:(lia)). lia. }
    pose proof (count_more is_high R (lo + mi) (lo + mi + k) (lo + j) e ltac:(lia) Ph Ee ltac:(simpl; lia) ltac:(lia)).
    replace (a + Z.of_nat (lo + mi) + Z.of_nat k) with (a + Z.of_nat (lo + mi + k)) by lia.
    replace (Z.of_nat k + 1) with (Z.of_nat (S k)) by lia.
    eapply run_ok_bind; [apply (swap_step s a R (lo + j) (lo + mi + k)); done || lia|]. intros s1 Hr1.
    pose proof Hr1 as (_ & _ & HR1 & HP1 & _).
    eapply run_ok_weaken; [apply (IH s1 (swap R (lo + j) (lo + mi + k))); try done|].
    + exact (reordered_splitting _ _ _ _ _ Hr1 Hs).
    + intros e'. rewrite HP1. apply HM.
    + intros e'. by rewrite (reordered_kv _ _ _ _ _ _ Hr1).
    + by apply counted_swap.
    + lia.
    + apply all_at_swap; [done|lia|lia].
    + apply all_at_swap; [done|lia|lia].
    + rewrite <- plus_n_Sm. apply (all_at_snoc _ _ _ _ e); [by apply all_at_swap; [|lia|lia]| |simpl; lia].
      apply swap_lookup_r; [done|lia].
    + rewrite swap_length. lia.
    + intros s' (R' & Hr & HL & Hall). exists R'. rewrite swap_length in HL.
      split; [exact (reordered_trans _ _ _ _ _ _ _ Hr1 Hr)|done].
Qed.
End partition.

(** A part of the region is cut again, unless it is empty. *)
Definition splits (m : Sort → run Sort) (a : Z) (R : list Z) : Prop :=
  ∀ s, splitting s → at_ (sort_I s) a R → run_ok (m s) (λ s', ∃ R', split_to s a R s' R').

Lemma split_ok fuel : ∀ a R, R ⊆ M → NoDup R → a0 ≤ a → a + zlen R ≤ b0 → (length R < fuel)%nat →
  splits (λ s, split fuel s a (zlen R) h) a R.
Proof.
  induction fuel as [|fuel IH]; intros a R HM Hnd Ha Hb Hf s Hs HR; [lia|]. cbn [split].
  pose proof (zlen_nonneg R). case_decide as Hshort.
  { apply split_short_ok; try done. unfold zlen. lia. }
  set (c := Z.to_nat (zlen R / 2)). assert (c < length R)%nat as Hc.
  { unfold c, zlen in *. apply Nat2Z.inj_lt. rewrite Z2Nat.id by (apply Z.div_pos; lia). apply Z.div_lt; lia. }
  destruct (lookup_lt_is_Some_2 R c Hc) as [e0 Ee0].
  pose proof (key_at s a R c e0 Hs HR HM Ee0) as Hkey.
  replace (a + Z.of_nat c) with (a + zlen R / 2) in Hkey by (unfold c; rewrite Z2Nat.id by (apply Z.div_pos; lia); done).
  rewrite Hkey. cbn [mbind run_bind]. set (x := kv s e0) in *.
  pose proof (count_keys_ok (kv s) x a (Z.to_nat (zlen R)) s R Hs HR HM ltac:(done) 0 0 0
    ltac:(unfold zlen; lia)) as Hcnt. rewrite Z.add_0_r, !drop_0 in Hcnt. rewrite Hcnt. clear Hcnt.
  cbn [mbind run_bind].
  pose proof (count_split (kv s) x R) as Hsum.
  set (lo := count _ R) in Hsum at 1. set (mi := count _ R) in Hsum at 1. set (hi := count _ R) in Hsum.
  change (count (λ e, kv s e < x) R) with lo. change (count (λ e, kv s e = x) R) with mi.
  assert (counted (kv s) x lo mi hi R) as HC by (split_and!; done || lia).
  assert (0 < mi)%nat as Hmi.
  { pose proof (count_more (λ e, kv s e = x) R 0 0 c e0 ltac:(lia) ltac:(intros ? ? ?; lia) Ee0 eq_refl ltac:(lia)). lia. }
  replace (0 + Z.of_nat lo + a) with (a + Z.of_nat lo) by lia.
  replace (0 + Z.of_nat mi + (a + Z.of_nat lo)) with (a + Z.of_nat (lo + mi)) by lia.
  pose proof (partition_low_ok (kv s) x a lo mi hi (Z.to_nat (2 * zlen R)) s R 0 0 0 Hs HR HM ltac:(done) HC) as Hlow.
  rewrite Z.add_0_r in Hlow.
  eapply run_ok_bind; [apply Hlow; try lia; [intros ? ? ?; lia..|unfold zlen in *; lia]|clear Hlow].
  intros [[s1 j'] k'] (R1 & jn & kn & Hr1 & HC1 & -> & -> & Hjn & Hkn & Pl & Pm & Ph).
  pose proof Hr1 as (_ & _ & HR1 & HP1 & _). pose proof (reordered_splitting _ _ _ _ _ Hr1 Hs) as Hs1.
  eapply run_ok_bind; [apply (partition_mid_ok (kv s) x a lo mi hi (Z.to_nat (2 * zlen R)) s1 R1 jn kn); try done|].
  { intros e. rewrite HP1. apply HM. }
  { intros e. apply (reordered_kv _ _ _ _ _ _ Hr1). }
  { rewrite HP1. unfold zlen in *. lia. }
  intros s2 (R2 & Hr2 & HL2 & Hmid). pose proof (reordered_trans _ _ _ _ _ _ _ Hr1 Hr2) as Hr.
  pose proof (reordered_splitting _ _ _ _ _ Hr Hs) as Hs2. pose proof Hr as (_ & _ & HR2 & HP2 & _).
  pose proof (Permutation_length HP2) as HL. rewrite <- HP2 in HM, Hnd. rewrite <- (zlen_perm _ _ HP2) in *.
  assert (∀ s' R', split_to s2 a R2 s' R' → ∃ R', split_to s a R s' R') as Hback.
  { intros s' R' Hst. exists R'. exact (split_to_reordered _ _ _ _ _ _ _ Hr Hst). }
  clear Hr1 HC1 HR1 Hs1 Pl Pm Ph Hr2 HC.
  (* the three parts *)
  set (L := take lo R2). set (K := take mi (drop lo R2)). set (G := drop (lo + mi) R2).
  assert (R2 = L ++ K ++ G) as HR2e.
  { unfold L, K, G. rewrite <- drop_drop. by rewrite !take_drop. }
  assert (length L = lo) as LL by (unfold L; rewrite length_take; lia).
  assert (length K = mi) as LK by (unfold K; rewrite length_take, length_drop; lia).
  assert (∀ e, e ∈ K → kv s2 e = x) as HKx.
  { intros e (o & Ho)%list_elem_of_lookup_1. apply lookup_take_Some in Ho as [Ho ?]. rewrite lookup_drop in Ho.
    rewrite (reordered_kv _ _ _ _ _ _ Hr). apply (Hmid (lo + o)%nat); [lia|done]. }
  clearbody L K G. clear Hmid. subst R2. rewrite !length_app in HL. rewrite !zlen_app in *.
  assert (zlen L = Z.of_nat lo) as ZL by (unfold zlen; lia). assert (zlen K = Z.of_nat mi) as ZK by (unfold zlen; lia).
  pose proof (zlen_nonneg G). apply at_app in HR2 as [AL HR2]. apply at_app in HR2 as [AK AG].
  pose proof (equal_keys s2 x K Hs2 ltac:(set_solver) HKx) as Hsh.
  pose proof Hnd as (NL & DL & (NK & DK & NG)%NoDup_app)%NoDup_app.
  assert (NoDup (L ++ K)) as NLK by (apply NoDup_app; split_and!; [done|set_solver|done]).
  (* the lower part *)
  eapply (run_ok_bind _ _ (λ s3, ∃ R', split_to s2 a L s3 R')).
  { case_decide as Hl.
    - replace (a + Z.of_nat lo - a) with (zlen L) by lia. apply (IH a L); try done; [set_solver|lia|lia].
    - assert (L = []) as -> by (destruct L; [done|simpl in *; lia]). apply run_ok_ret. eauto using split_to_nil. }
  intros s3 (L' & Hst3). pose proof Hst3 as (Hs3 & _ & _ & F3 & V3).
  (* the middle *)
  apply (close_group_ok _ _ _ K); try done; try lia.
  { rewrite ZL in AK. eapply at_same; [|exact AK]. intros p Hp. apply F3. lia. }
  { destruct K; [simpl in *; lia|done]. }
  { set_solver. }
  intros s4 Hst4. replace (a + Z.of_nat lo) with (a + zlen L) in Hst4 by lia.
  pose proof Hst4 as (Hs4 & _ & _ & F4 & V4).
  pose proof (split_to_app _ _ _ _ _ _ _ _ NLK Hst3 Hst4) as Hst.
  (* the upper part *)
  replace (a + Z.of_nat (lo + mi)) with (a + zlen (L ++ K)) by (rewrite zlen_app; lia).
  assert (run_ok (if decide (a + (zlen L + (zlen K + zlen G)) > a + zlen (L ++ K))
     then split fuel s4 (a + zlen (L ++ K)) (a + (zlen L + (zlen K + zlen G)) - (a + zlen (L ++ K))) h else mret s4)
     (λ s5, ∃ R', split_to s4 (a + zlen (L ++ K)) G s5 R')) as Hlast.
  { rewrite zlen_app. case_decide as Hg.
    - replace (a + (zlen L + (zlen K + zlen G)) - (a + (zlen L + zlen K))) with (zlen G) by lia.
      apply (IH (a + (zlen L + zlen K)) G); try done; [set_solver|lia|lia|lia|].
      rewrite Z.add_assoc. eapply at_same; [|exact AG]. intros p Hp. rewrite F4, F3 by lia. done.
    - assert (G = []) as -> by (destruct G; [done|rewrite zlen_cons in *; pose proof (zlen_nonneg G); lia]).
      apply run_ok_ret. eauto using split_to_nil. }
  eapply run_ok_weaken; [exact Hlast|]. intros s5 (G' & Hst5). apply (Hback s5 ((L' ++ K) ++ G')).
  rewrite app_assoc. eapply split_to_app; [by rewrite <- app_assoc|exact Hst|exact Hst5].
Qed.
End split.

(** * A pass over all groups *)

(** The suffixes have places of the region, and those with the same place share [h] bytes. *)
Definition placed (h : Z) (s : Sort) (a : Z) (k : list Z) : Prop :=
  (∀ e, e ∈ k → ∃ v, znth (sort_V s) e = Some v ∧ a ≤ v < a + zlen k) ∧
  ∀ e e' v, e ∈ k → e' ∈ k → znth (sort_V s) e = Some v → znth (sort_V s) e' = Some v → share h e e'.
(** Sorted suffixes, each at its place. *)
Definition in_order (s : Sort) (a : Z) (k : list Z) : Prop :=
  ∀ o e, k !! o = Some e → znth (sort_V s) e = Some (a + Z.of_nat o).

Lemma placed_app h s a k k' : placed h s a k → placed h s (a + zlen k) k' → placed h s a (k ++ k').
Proof.
  intros [P1 S1] [P2 S2]. pose proof (zlen_nonneg k). pose proof (zlen_nonneg k'). split.
  - intros e [He|He]%elem_of_app; rewrite zlen_app.
    + destruct (P1 e He) as (v & ? & ?). exists v. split; [done|lia].
    + destruct (P2 e He) as (v & ? & ?). exists v. split; [done|lia].
  - intros e e' v [He|He]%elem_of_app [He'|He']%elem_of_app E E'; [by eapply S1| | |by eapply S2].
    + destruct (P1 e He) as (w & ? & ?), (P2 e' He') as (w' & ? & ?). simplify_eq. lia.
    + destruct (P2 e He) as (w & ? & ?), (P1 e' He') as (w' & ? & ?). simplify_eq. lia.
Qed.
Lemma in_order_placed h s a k : in_order s a k → placed h s a k.
Proof.
  intros Hk. split.
  - intros e (o & Ho)%list_elem_of_lookup_1. eexists. split; [by apply Hk|]. apply lookup_lt_Some in Ho. unfold zlen. lia.
  - intros e e' v (o & Ho)%list_elem_of_lookup_1 (o' & Ho')%list_elem_of_lookup_1 E E'.
    rewrite (Hk _ _ Ho) in E. rewrite (Hk _ _ Ho') in E'. simplify_eq. assert (o = o') as -> by lia.
    simplify_eq. apply share_refl.
Qed.
Lemma group_placed h s a k : k ≠ [] → group_block h s a k → placed h s a k.
Proof.
  intros Hne (_ & HV & _ & Hsh). split; [|intros; by apply Hsh].
  intros e He. eexists. split; [by apply HV|]. destruct k; [done|]. rewrite zlen_cons. pose proof (zlen_nonneg k). lia.
Qed.
Lemma blocks_placed h s a k : blocks h s a k → placed h s a k.
Proof.
  induction 1 as [a|a k rest Hne [(_ & _ & Hk)|Hk] Hrest IH]; [by apply in_order_placed| |];
    apply placed_app; auto using group_placed. by apply in_order_placed.
Qed.
Lemma placed_mono h h' s a k : h' ≤ h → placed h s a k → placed h' s a k.
Proof.
  intros Hh [P S]. split; [done|]. intros e e' v He He' E E' i Hi. apply (S e e' v); done || lia.
Qed.

(** The whole file: all suffixes, in blocks. *)
Definition whole (L : list Z) : Prop := L ≡ₚ seqZ 0 (N + 1).
Definition sized (s : Sort) : Prop := zlen (sort_I s) = N + 1 ∧ zlen (sort_V s) = N + 1.
Lemma whole_elem L e : whole L → e ∈ L ↔ 0 ≤ e ≤ N.
Proof. unfold whole. intros ->. rewrite elem_of_seqZ. lia. Qed.
Lemma whole_nodup L : whole L → NoDup L.
Proof. unfold whole. intros ->. apply NoDup_seqZ. Qed.
Lemma whole_zlen L : whole L → zlen L = N + 1.
Proof. unfold whole. intros E. unfold zlen. rewrite E, length_seqZ. unfold zlen. lia. Qed.

(** A group of the whole is split; everything else stays. *)
Lemma split_group h s A k B fuel : 0 < h → sized s → whole (A ++ k ++ B) → k ≠ [] →
  placed h s 0 A → group_block h s (zlen A) k → placed h s (zlen A + zlen k) B → (length k < fuel)%nat →
  run_ok (split fuel s (zlen A) (zlen k) h) (λ s', sized s' ∧ ∃ k', k' ≡ₚ k ∧
    blocks (h + h) s' (zlen A) k' ∧
    (∀ p, ¬ (zlen A ≤ p < zlen A + zlen k) → znth (sort_I s') p = znth (sort_I s) p) ∧
    ∀ e, e ∉ k → znth (sort_V s') e = znth (sort_V s) e).
Proof.
  intros Hh [HI HV] Hw Hne PA Hk PB Hf. pose proof Hk as (Hat & HkV & Hroom & Hsh).
  pose proof (zlen_nonneg A).
  assert (∀ e v, e ∉ k → znth (sort_V s) e = Some v → e ∈ A ∨ e ∈ B) as Hother.
  { intros e v He Ev. apply znth_Some in Ev. assert (e ∈ A ++ k ++ B) by (apply (whole_elem _ _ Hw); lia). set_solver. }
  assert (splitting k (zlen A) (zlen A + zlen k) (sort_V s) s) as Hs.
  { split_and!; [done|done| |done]. intros e He. by apply (group_placed h s (zlen A) k Hne Hk). }
  eapply run_ok_weaken.
  - eapply (split_ok k (zlen A) (zlen A + zlen k) h (sort_V s)); try done; try lia.
    + intros e v He Ev. destruct (Hother e v He Ev) as [Hx|Hx].
      * destruct PA as [PA _]. destruct (PA e Hx) as (w & ? & ?). simplify_eq. lia.
      * destruct PB as [PB _]. destruct (PB e Hx) as (w & ? & ?). simplify_eq. lia.
    + intros e e' v He He' E E'. pose proof (placed_app h s 0 A k PA (group_placed h s (zlen A) k Hne Hk)) as PAk.
      pose proof (placed_app h s 0 (A ++ k) B PAk) as PAll. rewrite zlen_app in PAll. specialize (PAll PB) as [_ PAll].
      destruct (Hother e v He E), (Hother e' v He' E'); apply (PAll e e' v); set_solver.
    + pose proof (whole_nodup _ Hw) as (_ & _ & (? & _)%NoDup_app)%NoDup_app. done.
  - intros s' (k' & (HI' & HV' & _) & Hp & Hb & FI & FV). split; [done|]. exists k'. done.
Qed.

(** [if (len) I[i-len] = -len;] *)
Definition close_run (i len : Z) (s : Sort) : run Sort :=
  if decide (len ≠ 0) then sa ← wr (sort_I s) (i - len) (- len); mret (mkSort sa (sort_V s))
  else mret s.
Lemma close_run_ok h s A k : sized s → blocks h s 0 A → in_order s (zlen A) k → NoDup (A ++ k) →
  zlen A + zlen k ≤ N + 1 →
  run_ok (close_run (zlen A + zlen k) (zlen k) s) (λ s', sized s' ∧ blocks h s' 0 (A ++ k) ∧
    sort_V s' = sort_V s ∧ (k ≠ [] → znth (sort_I s') (zlen A) = Some (- zlen k)) ∧
    ∀ p, zlen A + zlen k ≤ p → znth (sort_I s') p = znth (sort_I s) p).
Proof.
  intros [HI HV] HA Hk Hnd Hlen. pose proof (zlen_nonneg A). pose proof (zlen_nonneg k).
  unfold close_run. case_decide as Hd.
  - replace (zlen A + zlen k - zlen k) with (zlen A) by lia. rewrite wr_ok by lia. apply run_ok_then, run_ok_ret.
    split_and!; cbn [sort_I sort_V]; [by split; cbn [sort_I sort_V]; rewrite ?zlen_insert| |done| |].
    + apply blocks_join.
      * eapply blocks_frame; [done| |done]. intros p Hp. cbn [sort_I]. by rewrite znth_insert_ne by lia.
      * apply blocks_one; [by intros ->|left]. split_and!; cbn [sort_I sort_V].
        -- apply znth_insert_eq. lia.
        -- apply at_nil. lia.
        -- done.
    + intros _. apply znth_insert_eq. lia.
    + intros p Hp. rewrite znth_insert_ne by lia. done.
  - assert (k = []) as -> by (destruct k; [done|rewrite zlen_cons in Hd; pose proof (zlen_nonneg k); lia]).
    apply run_ok_ret. rewrite app_nil_r. done.
Qed.

Lemma sort_pass_ok fuel : ∀ s h A k B, 0 < h → sized s → whole (A ++ k ++ B) →
  blocks (h + h) s 0 A → in_order s (zlen A) k → blocks h s (zlen A + zlen k) B → (N < h → A = []) →
  (length B ≤ fuel)%nat →
  run_ok (sort_pass fuel s N h (zlen A + zlen k) (zlen k)) (λ s', sized s' ∧ ∃ L, whole L ∧
    blocks (h + h) s' 0 L ∧ (N < h → znth (sort_I s') 0 = Some (- (N + 1)))).
Proof.
  induction fuel as [|fuel IH]; intros s h A k B Hh Hsz Hw HA Hk HB Hlong Hf; cbn [sort_pass];
    change (if decide (zlen k ≠ 0) then _ else _) with (close_run (zlen A + zlen k) (zlen k) s);
    pose proof (zlen_nonneg A); pose proof (zlen_nonneg k);
    pose proof (whole_zlen _ Hw) as Hlen; rewrite !zlen_app in Hlen; pose proof (whole_nodup _ Hw) as Hnd;
    assert (NoDup (A ++ k)) as HndAk by (rewrite app_assoc in Hnd; by apply NoDup_app in Hnd as [? _]).
  all: assert (B = [] → run_ok (close_run (zlen A + zlen k) (zlen k) s) (λ s', sized s' ∧ ∃ L, whole L ∧
    blocks (h + h) s' 0 L ∧ (N < h → znth (sort_I s') 0 = Some (- (N + 1))))) as Hend.
  1, 3: intros ->; rewrite zlen_nil in Hlen; eapply run_ok_weaken; [apply (close_run_ok (h + h)); done || lia|];
    intros s' (Hs' & Hb & _ & HI & _); split; [done|]; exists (A ++ k); split; [by rewrite app_nil_r in Hw|];
    split; [done|]; intros HN; pose proof (Hlong HN) as ->; pose proof (zlen_nonneg old);
    change (zlen (@nil Z)) with 0 in *; rewrite HI; [f_equal; lia|intros ->; change (zlen (@nil Z)) with 0 in *; lia].
  { destruct B; [|simpl in Hf; lia]. rewrite zlen_nil in Hlen. rewrite decide_False by lia. by apply Hend. }
  destruct B as [|e0 B0].
  { rewrite zlen_nil in Hlen. rewrite decide_False by lia. by apply Hend. }
  rewrite decide_True by (rewrite zlen_cons in Hlen; pose proof (zlen_nonneg B0); lia). clear Hend.
  remember (e0 :: B0) as B eqn:EB. remember (zlen A + zlen k) as i eqn:Ei.
  destruct HB as [|i g rest Hne Hg Hrest]; [done|]. clear EB e0 B0. subst i.
  assert (0 < zlen g) by (destruct g; [done|rewrite zlen_cons; pose proof (zlen_nonneg g); lia]).
  rewrite length_app in Hf. rewrite zlen_app in Hlen. pose proof (zlen_nonneg rest).
  assert (length rest ≤ fuel)%nat as Hf' by (unfold zlen in *; lia).
  destruct Hg as [(HIg & _ & HVg)|Hg].
  - rewrite (rd_ok _ _ _ HIg). cbn [mbind run_bind]. rewrite decide_True by lia.
    replace (zlen A + zlen k - - zlen g) with (zlen A + zlen (k ++ g)) by (rewrite zlen_app; lia).
    replace (zlen k - - zlen g) with (zlen (k ++ g)) by (rewrite zlen_app; lia).
    apply (IH s h A (k ++ g) rest); try done; [by rewrite <- app_assoc| |by rewrite zlen_app, Z.add_assoc].
    intros o e [Eo|[Ho Eo]]%lookup_app_Some; [by apply Hk|]. rewrite (HVg _ _ Eo). f_equal. unfold zlen. lia.
  - pose proof Hg as (Hat & HgV & Hroom & Hsh).
    destruct g as [|e g]; [done|]. pose proof (Hroom e ltac:(set_solver)) as He.
    assert (¬ N < h) as Hshort by lia.
    pose proof (proj2 Hat 0%nat e eq_refl) as HIe. rewrite Z.add_0_r in HIe.
    rewrite (rd_ok _ _ _ HIe). cbn [mbind run_bind]. rewrite decide_False by lia.
    eapply run_ok_bind; [apply (close_run_ok (h + h) s A k); done || lia|].
    intros s1 (Hs1 & HA1 & EV1 & _ & FI1).
    pose proof (zlen_app A k) as HAk. rewrite app_assoc in Hw. rewrite <- HAk in *.
    assert (group_block h s1 (zlen (A ++ k)) (e :: g)) as Hg1.
    { split_and!; [|by rewrite EV1|done|done]. eapply at_same; [|exact Hat]. intros p Hp. apply FI1. lia. }
    assert (blocks h s1 (zlen (A ++ k) + zlen (e :: g)) rest) as Hrest1.
    { eapply blocks_frame; [exact Hrest| |by rewrite EV1]. intros p Hp. apply FI1. lia. }
    rewrite (rd_ok _ _ e) by (rewrite FI1 by lia; done). cbn [mbind run_bind].
    rewrite EV1, (rd_ok _ _ _ (HgV e ltac:(set_solver))). cbn [mbind run_bind].
    replace (zlen (A ++ k) + zlen (e :: g) - 1 + 1 - zlen (A ++ k)) with (zlen (e :: g)) by lia.
    eapply run_ok_bind; [apply (split_group h s1 (A ++ k) (e :: g) rest); try done|].
    { apply (placed_mono (h + h)); [lia|]. by apply blocks_placed. }
    { by apply blocks_placed. }
    { unfold zlen. lia. }
    intros s2 (Hs2 & g' & Hp & Hb2 & FI2 & FV2). pose proof (zlen_perm _ _ Hp) as Hlg.
    assert (∀ x, x ∈ (A ++ k) ++ rest → x ∉ e :: g) as Hdis.
    { intros x Hx Hx'. pose proof (whole_nodup _ Hw) as (_ & D1 & (_ & D2 & _)%NoDup_app)%NoDup_app.
      apply elem_of_app in Hx as [Hx|Hx]; [apply (D1 x Hx); set_solver|by apply (D2 x Hx')]. }
    replace (zlen (A ++ k) + zlen (e :: g)) with (zlen ((A ++ k) ++ g') + zlen (@nil Z))
      by (rewrite (zlen_app _ g'), zlen_nil; lia).
    change 0 with (zlen (@nil Z)) at 1. apply (IH s2 h ((A ++ k) ++ g') [] rest); try done.
    + unfold whole in *. rewrite <- Hw, Hp. by rewrite <- !app_assoc.
    + apply blocks_join; [|done]. eapply blocks_frame; [exact HA1| |].
      * intros p Hpp. apply FI2. lia.
      * intros x Hx. apply FV2, Hdis. set_solver.
    + rewrite (zlen_app _ g'), zlen_nil, Hlg, Z.add_0_r. eapply blocks_frame; [exact Hrest1| |].
      * intros p Hpp. apply FI2. lia.
      * intros x Hx. apply FV2, Hdis. set_solver.
Qed.

Lemma sort_loop_ok fuel : ∀ s h L, 0 < h → sized s → whole L → blocks h s 0 L →
  znth (sort_I s) 0 = Some (- (N + 1)) ∨ (1 ≤ fuel)%nat ∧ N < h * 2 ^ Z.of_nat (fuel - 1) →
  run_ok (sort_loop fuel s N h) (λ s', sized s' ∧ ∃ L, whole L ∧ in_order s' 0 L).
Proof.
  induction fuel as [|fuel IH]; intros s h L Hh Hsz Hw Hb Hf; pose proof (whole_zlen _ Hw) as HL;
    pose proof (zlen_nonneg old) as HN.
  all: assert (∀ x, znth (sort_I s) 0 = Some x → x = - (N + 1) → in_order s 0 L) as Hdone.
  1, 3: intros x Hx ->; remember 0 as i0 eqn:Ei0 in Hb; destruct Hb as [|i g rest Hne Hg Hrest];
    [rewrite zlen_nil in HL; lia|]; subst i; destruct Hg as [(Hr & _ & HV)|(Hat & _ & Hroom & _)];
    [rewrite Hx in Hr; assert (zlen g = N + 1) as Hlg by (simplify_eq; lia); rewrite zlen_app in HL;
     assert (rest = []) as -> by (destruct rest; [done|rewrite zlen_cons in HL; pose proof (zlen_nonneg rest); lia]);
     rewrite app_nil_r; exact HV
    |destruct g as [|e g]; [done|]; pose proof (proj2 Hat 0%nat e eq_refl) as He; change (0 + Z.of_nat 0) with 0 in He;
     pose proof (Hroom e ltac:(set_solver)); rewrite Hx in He; simplify_eq; lia].
  all: destruct (proj2 (znth_is_Some (sort_I s) 0) ltac:(destruct Hsz; lia)) as [x Hx];
    cbn [sort_loop]; rewrite (rd_ok _ _ _ Hx); cbn [mbind run_bind];
    destruct (decide (x = - (N + 1))) as [E|E];
    [rewrite decide_False by (by intros ?); apply run_ok_done; eauto|].
  { destruct Hf as [Hf|[? _]]; [rewrite Hx in Hf; simplify_eq|lia]. }
  rewrite decide_True by done. destruct Hf as [Hf|[_ Hf]]; [rewrite Hx in Hf; simplify_eq|].
  eapply run_ok_bind.
  { apply (sort_pass_ok (Z.to_nat (N + 1)) s h [] [] L); try done; [apply blocks_nil|unfold zlen in *; lia]. }
  intros s' (Hs' & L' & Hw' & Hb' & Hlong). apply (IH s' (h + h) L'); try done; [lia|].
  destruct (decide (N < h)) as [Hlt|Hge]; [left; auto|right].
  replace (S fuel - 1)%nat with fuel in Hf by lia. destruct fuel as [|fuel]; [simpl in Hf; lia|].
  split; [lia|]. replace (S fuel - 1)%nat with fuel by lia. rewrite Nat2Z.inj_succ, Z.pow_succ_r in Hf by lia. lia.
Qed.

(** * The result *)
(** Distinct places: each gets its suffix. *)
Lemma invert_inverse V : ∀ i sa, NoDup V → Forall (λ v, 0 ≤ v < zlen sa) V →
  run_ok (invert V i sa) (λ r, zlen r = zlen sa ∧ (∀ j v, V !! j = Some v → znth r v = Some (i + Z.of_nat j)) ∧
    ∀ p, p ∉ V → znth r p = znth sa p).
Proof.
  induction V as [|v V IH]; intros i sa Hnd Hv; cbn [invert].
  { apply run_ok_done. split_and!; done. }
  apply Forall_cons in Hv as [Hv HV]. apply NoDup_cons in Hnd as [Hn Hnd]. rewrite wr_ok by done. cbn [mbind run_bind].
  eapply run_ok_weaken; [apply (IH (i + 1)); [done|by rewrite zlen_insert]|].
  intros r (Hr & Hj & Hp). rewrite zlen_insert in Hr. split_and!; [done| |].
  - intros [|j] w Ew; simpl in Ew.
    + injection Ew as <-. rewrite Hp, znth_insert_eq by done. f_equal. lia.
    + rewrite (Hj j w Ew). f_equal. lia.
  - intros p Hnp. rewrite Hp by set_solver. apply znth_insert_ne; [lia|set_solver].
Qed.
Lemma invert_whole s L : sized s → whole L → in_order s 0 L →
  run_ok (invert (sort_V s) 0 (sort_I s)) (λ r, r ≡ₚ seqZ 0 (N + 1)).
Proof.
  intros [HI HV] Hw Ho. pose proof (whole_zlen _ Hw) as HL.
  assert (∀ e v, sort_V s !! e = Some v → 0 ≤ v < N + 1 ∧ L !! Z.to_nat v = Some (Z.of_nat e)) as HVL.
  { intros e v Ev. apply lookup_lt_Some in Ev as He.
    assert (Z.of_nat e ∈ L) as (o & Eo)%list_elem_of_lookup_1 by (apply (whole_elem _ _ Hw); unfold zlen in *; lia).
    pose proof (Ho _ _ Eo) as E. rewrite znth_lookup, Nat2Z.id in E by lia. rewrite Ev in E. injection E as ->.
    rewrite Z.add_0_l, Nat2Z.id. apply lookup_lt_Some in Eo as Hlt. unfold zlen in *. split; [lia|done]. }
  eapply run_ok_weaken; [apply invert_inverse|].
  - apply NoDup_alt. intros i j v Ei Ej. apply HVL in Ei as [_ Ei], Ej as [_ Ej]. rewrite Ei in Ej. simplify_eq. lia.
  - apply Forall_lookup. intros e v [? _]%HVL. lia.
  - intros r (Hr & Hj & _). symmetry. apply submseteq_length_Permutation; [|unfold zlen in *; rewrite length_seqZ; lia].
    apply NoDup_submseteq; [apply NoDup_seqZ|]. intros j Hjr%elem_of_seqZ.
    destruct (lookup_lt_is_Some_2 (sort_V s) (Z.to_nat j) ltac:(unfold zlen in *; lia)) as [v Ev].
    pose proof (Hj _ _ Ev) as E. replace (0 + Z.of_nat (Z.to_nat j)) with j in E by lia.
    unfold znth in E. case_decide; [|done]. by eapply list_elem_of_lookup_2.
Qed.
(** * The first buckets *)

(** Bytes equal to [c] and bytes less than [c]. *)
Definition cnt (c : Z) (l : bytes) : Z := Z.of_nat (length (filter (λ b, b = c) l)).
Definition below (c : Z) (l : bytes) : Z := Z.of_nat (length (filter (λ b, b < c) l)).

Lemma cnt_cons c b l : cnt c (b :: l) = (if decide (b = c) then 1 else 0) + cnt c l.
Proof. unfold cnt. rewrite filter_cons. case_decide; simpl; lia. Qed.
Lemma cnt_app c l k : cnt c (l ++ k) = cnt c l + cnt c k.
Proof. unfold cnt. rewrite filter_app, length_app. lia. Qed.
Lemma cnt_nonneg c l : 0 ≤ cnt c l.
Proof. unfold cnt. lia. Qed.
Lemma below_cons c b l : below c (b :: l) = (if decide (b < c) then 1 else 0) + below c l.
Proof. unfold below. rewrite filter_cons. case_decide; simpl; lia. Qed.
Lemma below_succ c l : below (c + 1) l = below c l + cnt c l.
Proof.
  induction l as [|b l IH]; [done|]. rewrite !below_cons, cnt_cons, IH. repeat case_decide; lia.
Qed.
Lemma below_mono c d l : c ≤ d → below c l ≤ below d l.
Proof. intros Hc. induction l as [|b l IH]; [done|]. rewrite !below_cons. repeat case_decide; lia. Qed.
Lemma below_le c l : 0 ≤ below c l ≤ zlen l.
Proof.
  induction l as [|b l IH]; [done|]. rewrite below_cons, zlen_cons. case_decide; lia.
Qed.
Lemma below_bounds l : is_bytes l → below 0 l = 0 ∧ below 256 l = zlen l.
Proof.
  intros Hl. induction Hl as [|b l Hb Hl IH]; [done|]. destruct IH as [IH1 IH2].
  rewrite !below_cons, zlen_cons, IH1, IH2. unfold in_u in *. repeat case_decide; lia.
Qed.

Lemma bucket_count_ok l b : is_bytes l → zlen b = 256 →
  run_ok (foldl (λ b c, b ← b; n ← rd b c; wr b c (n + 1)) (Done b) l) (λ b', zlen b' = 256 ∧
    ∀ c x, znth b c = Some x → znth b' c = Some (x + cnt c l)).
Proof.
  intros Hl. revert b. induction Hl as [|c0 l Hc Hl IH]; intros b Hb; cbn [foldl].
  { apply run_ok_done. split; [done|]. intros c x ->. unfold cnt. simpl. f_equal. lia. }
  unfold in_u in Hc. destruct (proj2 (znth_is_Some b c0) ltac:(lia)) as [n Hn]. cbn [mbind run_bind].
  rewrite (rd_ok _ _ _ Hn). cbn [mbind run_bind]. rewrite wr_ok by lia.
  eapply run_ok_weaken; [apply IH; by rewrite zlen_insert|]. intros b' [Hb' H]. split; [done|].
  intros c x Hx. rewrite cnt_cons. case_decide as Hd.
  - subst c0. rewrite Hn in Hx. injection Hx as ->. rewrite (H c (x + 1)) by (apply znth_insert_eq; lia). f_equal. lia.
  - rewrite (H c x) by (rewrite znth_insert_ne by lia; done). f_equal.
Qed.

Lemma prefix_sums_zlen acc l : zlen (prefix_sums acc l) = zlen l.
Proof. revert acc. induction l as [|x l IH]; intros acc; [done|]. cbn [prefix_sums]. by rewrite !zlen_cons, IH. Qed.
Lemma prefix_sums_ok l : ∀ acc (g : nat → Z), g 0%nat = acc →
  (∀ i x, l !! i = Some x → g (S i) = g i + x) → ∀ i, (i < length l)%nat → prefix_sums acc l !! i = Some (g (S i)).
Proof.
  induction l as [|x l IH]; intros acc g H0 HS i Hi; [simpl in Hi; lia|]. cbn [prefix_sums].
  pose proof (HS 0%nat x eq_refl) as H1. destruct i as [|i]; [simpl; f_equal; lia|]. simpl in *.
  apply (IH (acc + x) (λ i, g (S i))); [lia| |lia]. intros j y Hj. by apply (HS (S j)).
Qed.

Definition buckets_are (b : list Z) (n : Z → Z) : Prop := zlen b = 256 ∧ ∀ c, 0 ≤ c < 256 → znth b c = Some (n c).

Section buckets.
Context (l : bytes).
Hypothesis l_bytes : is_bytes l.

(** The buckets after the shift: where the group of each byte starts. *)
Lemma buckets_ok : run_ok (bucket_count l) (λ counts, buckets_are (0 :: take 255 (prefix_sums 0 counts)) (λ c, below c l)).
Proof.
  eapply run_ok_weaken; [by apply bucket_count_ok|]. intros counts [HL Hc].
  pose proof (prefix_sums_zlen 0 counts) as HP.
  split; [unfold zlen in *; simpl; rewrite length_take; lia|]. intros c Hcr.
  rewrite znth_lookup by lia. destruct (below_bounds l l_bytes) as [B0 _].
  destruct (Z.to_nat c) as [|c'] eqn:Ec; [simpl; by replace c with 0 by lia; rewrite B0|].
  simpl. rewrite lookup_take_lt by lia.
  rewrite (prefix_sums_ok counts 0 (λ i, below (Z.of_nat i) l)); [f_equal; f_equal; lia|done| |unfold zlen in *; lia].
  intros i x Hx. rewrite Nat2Z.inj_succ, <- Z.add_1_r, below_succ. f_equal.
  specialize (Hc (Z.of_nat i) 0). rewrite !znth_lookup, Nat2Z.id, Hx in Hc by lia.
  apply lookup_lt_Some in Hx as Hi.
  specialize (Hc ltac:(apply lookup_replicate_2; unfold zlen in *; lia)). injection Hc as ->. lia.
Qed.
End buckets.

(** The positions of a byte. *)
Fixpoint occ (c i : Z) (l : bytes) : list Z :=
  match l with
  | [] => []
  | b :: l => (if decide (b = c) then [i] else []) ++ occ c (i + 1) l
  end.
Lemma occ_zlen c i l : zlen (occ c i l) = cnt c l.
Proof.
  revert i. induction l as [|b l IH]; intros i; [done|]. cbn [occ]. rewrite zlen_app, cnt_cons, IH. by case_decide.
Qed.
Lemma occ_elem c i l e : e ∈ occ c i l ↔ i ≤ e ∧ znth l (e - i) = Some c.
Proof.
  revert i. induction l as [|b l IH]; intros i; cbn [occ].
  { split; [set_solver|]. intros [_ E]. apply znth_Some in E. unfold zlen in E. simpl in E. lia. }
  rewrite elem_of_app, IH. split.
  - intros [He|[? E]]; [case_decide as Hb; [|set_solver]; assert (e = i) as -> by set_solver; subst; split; [lia|by rewrite Z.sub_diag]|].
    split; [lia|]. replace (e - i) with (zlen [b] + (e - (i + 1))) by (unfold zlen; simpl; lia).
    change (b :: l) with ([b] ++ l). by rewrite znth_app_r by lia.
  - intros [? E]. destruct (decide (e = i)) as [->|Hne].
    + left. rewrite Z.sub_diag in E. injection E as ->. rewrite decide_True by done. set_solver.
    + right. split; [lia|]. replace (e - i) with (zlen [b] + (e - (i + 1))) in E by (unfold zlen; simpl; lia).
      change (b :: l) with ([b] ++ l) in E. by rewrite znth_app_r in E by lia.
Qed.
Lemma occ_nodup c i l : NoDup (occ c i l).
Proof.
  revert i. induction l as [|b l IH]; intros i; cbn [occ]; [constructor|]. apply NoDup_app. split_and!; [|intros e He|done].
  - case_decide; repeat constructor; set_solver.
  - rewrite occ_elem. case_decide; [|set_solver]. assert (e = i) as -> by set_solver. lia.
Qed.

Lemma fill_I_ok rest : ∀ i b sa n, is_bytes rest → buckets_are b n →
  (∀ c d, 0 ≤ c < d → d < 256 → n c + cnt c rest ≤ n d) →
  (∀ c, 0 ≤ c < 256 → 0 ≤ n c ∧ n c + cnt c rest < zlen sa) →
  run_ok (fill_I rest i b sa) (λ '(b', sa'), buckets_are b' (λ c, n c + cnt c rest) ∧ zlen sa' = zlen sa ∧
    (∀ c, 0 ≤ c < 256 → at_ sa' (n c + 1) (occ c i rest)) ∧
    ∀ p, (∀ c, 0 ≤ c < 256 → ¬ (n c < p ≤ n c + cnt c rest)) → znth sa' p = znth sa p).
Proof.
  induction rest as [|c0 rest IH]; intros i b sa n Hby [Hb Hn] Hd Hr; cbn [fill_I].
  { apply run_ok_done. split_and!; [by split; [|intros c Hc; rewrite Hn by done; unfold cnt; simpl; f_equal; lia]|done| |done].
    intros c Hc. destruct (Hr c Hc). apply at_nil. lia. }
  apply Forall_cons in Hby as [Hc0 Hby]. unfold in_u in Hc0.
  assert (∀ c, cnt c (c0 :: rest) = (if decide (c0 = c) then 1 else 0) + cnt c rest) as Hcnt by (intros; apply cnt_cons).
  pose proof (λ c, cnt_nonneg c rest) as Hnn.
  rewrite (rd_ok _ _ (n c0)) by (apply Hn; lia). cbn [mbind run_bind]. rewrite (wr_ok b) by lia. cbn [mbind run_bind].
  destruct (Hr c0 ltac:(lia)) as [Hr0 Hr1]. rewrite Hcnt, decide_True in Hr1 by done. specialize (Hnn c0) as Hnn0.
  rewrite (wr_ok sa) by lia. cbn [mbind run_bind].
  set (n' := λ c, if decide (c0 = c) then n c + 1 else n c).
  assert (∀ c, n' c + cnt c rest = n c + cnt c (c0 :: rest)) as Hn'.
  { intros c. unfold n'. rewrite Hcnt. case_decide; lia. }
  assert (∀ c, n c ≤ n' c) as Hle by (intros c; unfold n'; case_decide; lia).
  eapply run_ok_weaken; [apply (IH (i + 1) _ _ n')|].
  - done.
  - split; [by rewrite zlen_insert|]. intros c Hc. unfold n'. case_decide as Hd0.
    + subst c. apply znth_insert_eq. lia.
    + rewrite znth_insert_ne by lia. by apply Hn.
  - intros c d Hc Hd'. rewrite Hn'. etrans; [by apply Hd|done].
  - intros c Hc. rewrite Hn', zlen_insert. destruct (Hr c Hc). specialize (Hle c). lia.
  - intros [b' sa'] (Hb' & Hl & Hat & Hfr). rewrite zlen_insert in Hl. split_and!.
    + destruct Hb' as [? Hb']. split; [done|]. intros c Hc. by rewrite <- Hn', Hb'.
    + done.
    + intros c Hc. cbn [occ]. specialize (Hat c Hc). unfold n' in Hat. case_decide as Hd0; [|done]. subst c.
      apply at_app. split; [|replace (n c0 + 1 + zlen [i]) with (n c0 + 1 + 1) by done; done].
      split; [lia|]. intros [|o] e Eo; [|done]. injection Eo as <-. rewrite Z.add_0_r, Hfr; [apply znth_insert_eq; lia|].
      intros c Hc'. rewrite Hn'. unfold n'. case_decide as Hd1; [subst; lia|].
      destruct (decide (c < c0)); [pose proof (Hd c c0 ltac:(lia) ltac:(lia)); lia|].
      pose proof (Hd c0 c ltac:(lia) ltac:(lia)) as Hlt. rewrite Hcnt, decide_True in Hlt by done. lia.
    + intros p Hp. rewrite Hfr.
      * apply znth_insert_ne; [lia|]. specialize (Hp c0 ltac:(lia)). rewrite Hcnt, decide_True in Hp by done. lia.
      * intros c Hc. specialize (Hp c Hc). rewrite Hn'. specialize (Hle c). lia.
Qed.

(** Where [mark_singletons] writes. *)
Definition marked (b : list Z) (p : Z) : Prop := ∃ i x, b !! i = Some x ∧ b !! S i = Some (x + 1) ∧ p = x + 1.
Lemma mark_singletons_ok b : ∀ sa, Forall (λ x, 0 ≤ x < zlen sa) b →
  run_ok (mark_singletons b sa) (λ r, zlen r = zlen sa ∧ ∀ p,
    marked b p ∧ znth r p = Some (-1) ∨ ¬ marked b p ∧ znth r p = znth sa p).
Proof.
  assert (∀ (b : list Z) p, (length b ≤ 1)%nat → ¬ marked b p) as Hshort.
  { intros b' p Hb (i & x & _ & E & _). apply lookup_lt_Some in E. lia. }
  induction b as [|x b IH]; intros sa Hr.
  { apply run_ok_done. split; [done|]. intros p. right. split; [apply Hshort; simpl; lia|done]. }
  destruct b as [|y b]; cbn [mark_singletons].
  { apply run_ok_done. split; [done|]. intros p. right. split; [apply Hshort; simpl; lia|done]. }
  apply Forall_cons in Hr as [Hx Hr]. pose proof (Forall_inv Hr) as Hy.
  assert (∀ p, marked (x :: y :: b) p ↔ (y = x + 1 ∧ p = y) ∨ marked (y :: b) p) as Hm.
  { intros p. split.
    - intros ([|i] & z & E1 & E2 & ->); [left; simpl in *; simplify_eq; done|right; by exists i, z].
    - intros [[-> ->]|(i & z & E1 & E2 & ->)]; [by exists 0%nat, x|by exists (S i), z]. }
  eapply (run_ok_bind _ _ (λ sa1, zlen sa1 = zlen sa ∧ ∀ p,
    (y = x + 1 ∧ p = y) ∧ znth sa1 p = Some (-1) ∨ ¬ (y = x + 1 ∧ p = y) ∧ znth sa1 p = znth sa p)).
  { case_decide as Hd.
    - rewrite wr_ok by done. apply run_ok_ret. split; [apply zlen_insert|]. intros p.
      destruct (decide (p = y)) as [->|Hne]; [left; split; [done|by apply znth_insert_eq]|right].
      split; [naive_solver|]. apply znth_insert_ne; lia || done.
    - apply run_ok_ret. split; [done|]. intros p. right. split; [naive_solver|done]. }
  intros sa1 [Hl1 H1]. eapply run_ok_weaken; [apply IH; by rewrite Hl1|]. intros r [Hl H]. split; [lia|].
  intros p. rewrite Hm. destruct (H p) as [[? ?]|[? E]]; [left; auto|]. rewrite E.
  destruct (H1 p) as [[? ?]|[? ?]]; [left; auto|right]. split; [naive_solver|done].
Qed.

(** ** The first blocks *)
Fixpoint groups (n : nat) (c : Z) : list Z :=
  match n with O => [] | S n => occ c 0 old ++ groups n (c + 1) end.
Lemma groups_elem n c e : e ∈ groups n c ↔ ∃ b, znth old e = Some b ∧ c ≤ b < c + Z.of_nat n.
Proof.
  revert c. induction n as [|n IH]; intros c; cbn [groups].
  { split; [set_solver|]. intros (b & _ & ?). lia. }
  rewrite elem_of_app, IH, occ_elem, Z.sub_0_r. split.
  - intros [[_ E]|(b & E & ?)]; [exists c|exists b]; (split; [done|lia]).
  - intros (b & E & ?). destruct (decide (b = c)) as [->|].
    + left. split; [apply znth_Some in E; lia|done].
    + right. exists b. split; [done|lia].
Qed.
Lemma groups_nodup n c : NoDup (groups n c).
Proof.
  revert c. induction n as [|n IH]; intros c; cbn [groups]; [constructor|]. apply NoDup_app.
  split_and!; [apply occ_nodup| |apply IH]. intros e (_ & E)%occ_elem. rewrite Z.sub_0_r in E.
  intros (b & E' & ?)%groups_elem. simplify_eq. lia.
Qed.
Lemma groups_whole : whole (N :: groups 256 0).
Proof.
  apply NoDup_Permutation; [|apply NoDup_seqZ|].
  - apply NoDup_cons. split; [|apply groups_nodup]. intros (b & E & _)%groups_elem. apply znth_Some in E. lia.
  - intros e. rewrite elem_of_cons, groups_elem, elem_of_seqZ. pose proof (zlen_nonneg old). split.
    + intros [->|(b & E & _)]; [lia|]. apply znth_Some in E. lia.
    + intros He. destruct (decide (e = N)); [by left|right].
      destruct (znth_byte old e old_bytes ltac:(lia)) as (b & ? & ?). exists b. split; [done|lia].
Qed.

Lemma initial_groups s : (∀ c, 0 ≤ c < 256 → cnt c old ≠ 0 →
    run_block s (1 + below c old) (occ c 0 old) ∨ group_block 1 s (1 + below c old) (occ c 0 old)) →
  ∀ n c, 0 ≤ c → c + Z.of_nat n = 256 → blocks 1 s (1 + below c old) (groups n c).
Proof.
  intros Hg. induction n as [|n IH]; intros c Hc Hn; cbn [groups]; [constructor|].
  specialize (IH (c + 1) ltac:(lia) ltac:(lia)). rewrite below_succ, Z.add_assoc, <- (occ_zlen c 0 old) in IH.
  pose proof (occ_zlen c 0 old) as Hz. destruct (decide (occ c 0 old = [])) as [E|E].
  - rewrite E in *. rewrite zlen_nil, Z.add_0_r in IH. done.
  - constructor; [done| |done]. apply Hg; [lia|]. rewrite <- Hz. destruct (occ c 0 old); [done|].
    rewrite zlen_cons. pose proof (zlen_nonneg l). lia.
Qed.

Lemma places_ok buckets n l : is_bytes l → buckets_are buckets n →
  foldr (λ c vs, v ← rd buckets c; vs ← vs; mret (v :: vs)) (mret [0]) l = Done (map n l ++ [0]).
Proof.
  intros Hl [_ Hb]. induction Hl as [|c l Hc Hl IH]; [done|]. unfold in_u in Hc. cbn [foldr].
  rewrite IH, (rd_ok _ _ (n c)) by (apply Hb; lia). done.
Qed.

(** Every file is sorted: the result is a permutation of the positions of the file and its end.
    The number of passes is the logarithm of the size. *)
Lemma qsufsort_ok fuel fresh : (1 ≤ fuel)%nat → N < 2 ^ Z.of_nat (fuel - 1) →
  run_ok (qsufsort fuel fresh old) (λ sa, sa ≡ₚ seqZ 0 (N + 1)).
Proof.
  intros Hf1 Hf. unfold qsufsort. set (block := map fresh (seq 0 (S (length old)))).
  assert (zlen block = N + 1) as Hblock by (unfold block, zlen; rewrite length_map, length_seq; lia).
  pose proof (zlen_nonneg old) as HN.
  eapply run_ok_bind; [apply (buckets_ok old old_bytes)|]. intros counts Hb0. cbn beta zeta in *.
  eapply run_ok_bind.
  { apply (fill_I_ok old 0 _ block (λ c, below c old) old_bytes Hb0).
    - intros c d Hc Hd. rewrite <- below_succ. apply below_mono. lia.
    - intros c Hc. rewrite <- below_succ. pose proof (below_le c old). pose proof (below_le (c + 1) old). lia. }
  intros [buckets sa] (Hb & Hl & Hat & _). cbn beta iota.
  rewrite wr_ok by lia. cbn [mbind run_bind].
  rewrite (places_ok _ _ _ old_bytes Hb). cbn [mbind run_bind].
  set (sa1 := <[Z.to_nat 0 := N]> sa). assert (zlen sa1 = N + 1) as Hl1 by (unfold sa1; rewrite zlen_insert; lia).
  set (places := map (λ c, below c old + cnt c old) old ++ [0]).
  assert (zlen places = N + 1) as HlV by (unfold places, zlen; rewrite length_app, length_map; simpl; lia).
  assert (∀ e c, znth old e = Some c → znth places e = Some (below c old + cnt c old)) as HV.
  { intros e c E. pose proof (znth_Some _ _ _ E). rewrite znth_lookup in * by lia. apply lookup_app_l_Some.
    by rewrite list_lookup_fmap, E. }
  assert (znth places N = Some 0) as HVN.
  { unfold places. replace N with (zlen (map (λ c, below c old + cnt c old) old) + 0) by (unfold zlen; rewrite length_map; lia).
    by rewrite znth_app_r by lia. }
  destruct Hb as [Hbl Hb].
  assert (∀ i x, buckets !! i = Some x → 0 ≤ Z.of_nat i < 256 ∧ x = below (Z.of_nat i) old + cnt (Z.of_nat i) old) as Hbi.
  { intros i x E. pose proof (lookup_lt_Some _ _ _ E). specialize (Hb (Z.of_nat i)).
    rewrite znth_lookup, Nat2Z.id, E in Hb by lia. unfold zlen in Hbl. specialize (Hb ltac:(lia)). simplify_eq. split; [lia|done]. }
  eapply run_ok_bind; [apply mark_singletons_ok|].
  { apply Forall_lookup. intros i x [Hi ->]%Hbi. rewrite <- below_succ. pose proof (below_le (Z.of_nat i + 1) old). lia. }
  intros sa2 [Hl2 Hm]. rewrite wr_ok by lia. cbn [mbind run_bind].
  set (s := mkSort (<[Z.to_nat 0 := -1]> sa2) places).
  assert (sized s) as Hsz by (split; unfold s; cbn [sort_I sort_V]; rewrite ?zlen_insert; lia).
  assert (∀ p, 0 < p → znth (sort_I s) p = znth sa2 p) as HI.
  { intros p Hp. apply znth_insert_ne; lia. }
  assert (blocks 1 s 0 (N :: groups 256 0)) as Hblocks.
  { change (N :: groups 256 0) with ([N] ++ groups 256 0). constructor; [done|left|].
    - split_and!; [apply znth_insert_eq; lia|by apply at_nil|]. intros [|o] e Eo; [|done]. injection Eo as <-. done.
    - destruct (below_bounds old old_bytes) as [B0 _]. replace (0 + zlen [N]) with (1 + below 0 old) by (rewrite B0; done).
      apply initial_groups; [|lia|done]. intros c Hc Hcnt. pose proof (occ_zlen c 0 old) as Hz.
      pose proof (cnt_nonneg c old). pose proof (below_le c old) as Hbc.
      (* marks of other groups are elsewhere *)
      assert (∀ p, below c old < p ≤ below c old + cnt c old → marked buckets p → 1 ≤ c ∧ cnt c old = 1) as Hmark.
      { intros p Hp (i & x & E1 & E2 & ->). apply Hbi in E1 as [Hi1 ->], E2 as [Hi2 E2].
        replace (Z.of_nat (S i)) with (Z.of_nat i + 1) in * by lia. set (d := Z.of_nat i) in *.
        pose proof (below_succ d old). pose proof (below_succ (d + 1) old). pose proof (below_succ c old).
        destruct (Z.lt_trichotomy (d + 1) c) as [Hlt|[Heq|Hgt]].
        - pose proof (below_mono (d + 1 + 1) c old ltac:(lia)). lia.
        - rewrite Heq in *. split; lia.
        - pose proof (below_mono (c + 1) (d + 1) old ltac:(lia)). lia. }
      assert (∀ e, e ∈ occ c 0 old → znth places e = Some (below c old + cnt c old)) as HVc.
      { intros e (_ & E)%occ_elem. rewrite Z.sub_0_r in E. by apply HV. }
      destruct (Hm (1 + below c old)) as [[Hmk HI1]|[Hnm _]].
      + left. destruct (Hmark (1 + below c old) ltac:(lia) Hmk) as [_ H1]. split_and!; [rewrite HI, HI1 by lia; by rewrite Hz, H1|apply at_nil; lia|].
        intros o e Eo. cbn [s sort_V]. rewrite HVc by (by eapply list_elem_of_lookup_2).
        apply lookup_lt_Some in Eo. unfold zlen in Hz. f_equal. lia.
      + right. split_and!.
        * rewrite Z.add_comm. eapply at_same; [|by apply Hat]. intros p Hp. rewrite Hz in Hp. rewrite HI by lia.
          destruct (Hm p) as [[Hmk _]|[_ ->]].
          -- exfalso. destruct (Hmark p ltac:(lia) Hmk) as [_ H1]. apply Hnm. by replace (1 + below c old) with p by lia.
          -- unfold sa1. apply znth_insert_ne; lia.
        * intros e He. cbn [s sort_V]. rewrite HVc by done. f_equal. lia.
        * intros e (? & E)%occ_elem. rewrite Z.sub_0_r in E. apply znth_Some in E. lia.
        * intros e e' (_ & E)%occ_elem (_ & E')%occ_elem k Hk. rewrite Z.sub_0_r in *.
          replace k with 0 by lia. rewrite !Z.add_0_r. unfold sym. by rewrite E, E'. }
  eapply run_ok_bind; [apply (sort_loop_ok fuel s 1 _ ltac:(lia) Hsz groups_whole Hblocks); right; split; [done|lia]|].
  intros s' (Hs' & L & HL & Ho). by eapply invert_whole.
Qed.
End sort.

(** More fuel does not change the result. *)
Lemma sort_loop_mono fuel fuel' s oldsize h s' : (fuel ≤ fuel')%nat →
  sort_loop fuel s oldsize h = Done s' → sort_loop fuel' s oldsize h = Done s'.
Proof.
  revert fuel' s h. induction fuel as [|fuel IH]; intros fuel' s h Hf E; destruct fuel' as [|fuel']; try lia.
  - done.
  - cbn [sort_loop] in *. destruct (rd (sort_I s) 0) as [x| |]; try done. cbn [mbind run_bind] in *. by case_decide.
  - cbn [sort_loop] in *. destruct (rd (sort_I s) 0) as [x| |]; try done. cbn [mbind run_bind] in *. case_decide; [|done].
    destruct (sort_pass _ s oldsize h 0 0) as [s1| |]; try done. cbn [mbind run_bind] in *. apply IH; [lia|done].
Qed.
Lemma qsufsort_mono fuel fuel' fresh old sa : (fuel ≤ fuel')%nat →
  qsufsort fuel fresh old = Done sa → qsufsort fuel' fresh old = Done sa.
Proof.
  intros Hf. unfold qsufsort. destruct (bucket_count old) as [counts| |]; try done. cbn [mbind run_bind].
  destruct (fill_I _ _ _ _) as [[b i]| |]; try done. cbn [mbind run_bind].
  destruct (wr i _ _) as [i1| |]; try done. cbn [mbind run_bind].
  destruct (foldr _ _ _) as [V| |]; try done. cbn [mbind run_bind].
  destruct (mark_singletons _ _) as [i2| |]; try done. cbn [mbind run_bind].
  destruct (wr i2 _ _) as [i3| |]; try done. cbn [mbind run_bind].
  destruct (sort_loop fuel _ _ _) as [s| |] eqn:E; try done. by rewrite (sort_loop_mono _ _ _ _ _ _ Hf E).
Qed.

Lemma permutation_positions sa old : sa ≡ₚ seqZ 0 (zlen old + 1) → positions sa old.
Proof.
  intros E. pose proof (zlen_nonneg old). split.
  - unfold zlen at 1. rewrite E, length_seqZ. lia.
  - rewrite E. apply Forall_forall. intros i Hi%elem_of_seqZ. lia.
Qed.

(** Whenever the sort ends, its result has the positions of the file. *)
Lemma qsufsort_positions fuel fresh old sa : is_bytes old → qsufsort fuel fresh old = Done sa → positions sa old.
Proof.
  intros Hold E. set (fuel' := (fuel + S (Z.to_nat (Z.log2_up (zlen old + 1))))%nat).
  destruct (qsufsort_ok old Hold fuel' fresh) as (sa' & E' & Hp%permutation_positions).
  - unfold fuel'. lia.
  - pose proof (zlen_nonneg old). pose proof (Z.log2_up_nonneg (zlen old + 1)).
    eapply Z.lt_le_trans; [|apply (Z.pow_le_mono_r 2 (Z.log2_up (zlen old + 1)))]; [|lia|unfold fuel'; lia].
    assert (zlen old + 1 ≤ 2 ^ Z.log2_up (zlen old + 1)); [|lia].
    destruct (decide (zlen old = 0)) as [->|]; [done|]. apply Z.log2_up_spec. lia.
  - rewrite (qsufsort_mono fuel fuel' fresh old sa) in E' by (done || (unfold fuel'; lia)). by injection E' as ->.
Qed.
