(* ===== verification/ZlibSha.v ===== *)
(** The interfaces to zlib and to the SHA-1 of libmincrypt, libraries outside
    the repository. *)
From S2P Require Import Prelude Bytes.

(** * zlib *)

Definition Z_OK : Z := 0.
Definition Z_STREAM_END : Z := 1.

(** [inflate_start]: [inflateInit2] with window bits -15 (raw deflate data);
    [inflate s input avail_out]: the return code, the bytes produced, the number
    of input bytes consumed and the new stream.  [deflate_start level method
    windowBits memLevel strategy input]: [deflateInit2] with the whole input at
    [next_in]; [deflate s avail_out]: a call with [Z_FINISH]. *)
Class Zlib := {
  z_stream : Type;
  inflate_start : Z * z_stream;
  inflate : z_stream → bytes → Z → Z * bytes * Z * z_stream;
  d_stream : Type;
  deflate_start : Z → Z → Z → Z → Z → bytes → d_stream;
  deflate : d_stream → Z → Z * bytes * d_stream
}.

(** [deflates s out]: [out] is the compressed data left to produce.  A call
    produces some of it, at most [avail_out] bytes, and answers
    [Z_STREAM_END] with the last. *)
Class DeflateLaws (Z0 : Zlib) := {
  deflates : d_stream → bytes → Prop;
  deflate_progress : ∀ s out n, deflates s out → 0 < n →
    ∃ ret chunk rest s', deflate s n = (ret, chunk, s') ∧ out = chunk ++ rest ∧
      zlen chunk ≤ n ∧
      (ret = Z_STREAM_END ∧ rest = [] ∨
       ret ≠ Z_STREAM_END ∧ chunk ≠ [] ∧ deflates s' rest)
}.

(** [inflates s input out]: the stream [s], given the whole of [input], has
    exactly [out] left to produce and consumes [input] to its end.  A call given
    the front of it, or all that is left, makes progress; it uses up its input unless it runs out of
    room; it answers [Z_STREAM_END] when the output is complete and [Z_OK]
    before. *)
Class InflateLaws (Z0 : Zlib) := {
  inflates : z_stream → bytes → bytes → Prop;
  inflate_progress : ∀ s input more out n, inflates s (input ++ more) out →
    0 < n → input ≠ [] ∨ more = [] →
    ∃ ret chunk rest used unused s', inflate s input n = (ret, chunk, zlen used, s') ∧
      out = chunk ++ rest ∧ input = used ++ unused ∧ zlen chunk ≤ n ∧
      (ret = Z_STREAM_END ∧ rest = [] ∧ unused ++ more = [] ∨
       ret = Z_OK ∧ (chunk ≠ [] ∨ used ≠ []) ∧ (unused = [] ∨ zlen chunk = n) ∧
       inflates s' (unused ++ more) rest)
}.

(** What a host tool that looks for streams relies on.  [inflateInit2] succeeds; a
    call that answers [Z_STREAM_END] has consumed exactly a stream; the calls
    before it are steps into the stream; a stream given whole, with room for all of
    its data, takes one call. *)
Class InflateSound (Z0 : Zlib) {I0 : InflateLaws Z0} := {
  inflate_start_ok : inflate_start.1 = Z_OK;
  inflate_step : ∀ s input n ret out used s', inflate s input n = (ret, out, used, s') → 0 ≤ n →
    0 ≤ used ≤ zlen input ∧ zlen out ≤ n ∧ (is_bytes input → is_bytes out) ∧
    (ret = Z_STREAM_END → inflates s (take (Z.to_nat used) input) out) ∧
    (ret ≠ Z_STREAM_END → ∀ more rest, inflates s' more rest →
       inflates s (take (Z.to_nat used) input ++ more) (out ++ rest));
  inflate_once : ∀ s input out n, inflates s input out → zlen out ≤ n →
    ∃ s', inflate s input n = (Z_STREAM_END, out, zlen input, s')
}.

(** [deflateInit2] with valid parameters gives a stream that produces compressed
    data; the memory levels and windows are those the tool uses. *)
Class DeflateStarts (Z0 : Zlib) {D0 : DeflateLaws Z0} := {
  deflate_starts : ∀ level data, 1 ≤ level ≤ 9 →
    ∃ out, deflates (deflate_start level 8 (-15) 8 0 data) out
}.

(** ** A codec that copies

    Every byte of the data is preceded by a 1, and a 0 ends them; the stream
    records whether the 1 of the next byte has been read.  Shows that the
    interface can be implemented; the examples of the development compute with
    it. *)
Definition copy_deflate (data : bytes) : bytes := concat (map (λ b, [1; b]) data) ++ [0].

(** The bytes produced, the number of bytes consumed, the flag, and whether the
    end was read. *)
Fixpoint copy_inflate (pending : bool) (input : bytes) (n : Z) : bytes * Z * bool * bool :=
  match input with
  | [] => ([], 0, pending, false)
  | b :: input =>
      if pending then
        if decide (0 < n) then
          let '(chunk, used, s, fin) := copy_inflate false input (n - 1) in
          (b :: chunk, 1 + used, s, fin)
        else ([], 0, true, false)
      else if decide (b = 0) then ([], 1, false, true)
      else if decide (b = 1) then
        let '(chunk, used, s, fin) := copy_inflate true input n in
        (chunk, 1 + used, s, fin)
      else ([], 0, false, false)
  end.

#[export] Instance copying_zlib : Zlib := {|
  z_stream := bool;
  inflate_start := (Z_OK, false);
  inflate s input n :=
    let '(chunk, used, s, fin) := copy_inflate s input n in
    (if (fin : bool) then Z_STREAM_END else if decide (used = 0) then -5 else Z_OK,
     chunk, used, s);
  d_stream := bytes;
  deflate_start _ _ _ _ _ input := copy_deflate input;
  deflate s n :=
    let k := Z.to_nat (n `min` zlen s) in
    (if decide (drop k s = []) then Z_STREAM_END else Z_OK, take k s, drop k s)
|}.

#[export] Instance copying_deflate_laws : DeflateLaws copying_zlib.
Proof.
  refine {| deflates := λ (s : d_stream (Zlib := copying_zlib)) out, s = out |}.
  intros s out n -> Hn. simpl. set (k := Z.to_nat _).
  eexists _, (take k out), (drop k out), _. split; [done|]. split; [by rewrite take_drop|].
  split; [unfold zlen; rewrite length_take; unfold k, zlen; lia|].
  case_decide as Hd; [by left|right]. split; [done|]. split; [|done].
  intros Ht%(f_equal length). rewrite length_take in Ht. unfold k, zlen in *.
  apply Hd, nil_length_inv. rewrite length_drop. simpl in Ht. lia.
Defined.

#[export] Instance copying_inflate_laws : InflateLaws copying_zlib.
Proof.
  refine {| inflates := λ (s : z_stream (Zlib := copying_zlib)) input out,
    if (s : bool) then ∃ b out', out = b :: out' ∧ input = b :: copy_deflate out'
    else input = copy_deflate out |}.
  assert (∀ input s more out n,
    (if (s : bool) then ∃ b out', out = b :: out' ∧ input ++ more = b :: copy_deflate out'
     else input ++ more = copy_deflate out) → 0 ≤ n → ∃ chunk rest used unused s' fin,
    copy_inflate s input n = (chunk, zlen used, s', fin) ∧ out = chunk ++ rest ∧
    input = used ++ unused ∧ zlen chunk ≤ n ∧
    (0 < n → input ≠ [] → used ≠ []) ∧
    (fin = true ∧ rest = [] ∧ unused ++ more = [] ∨
     fin = false ∧ (unused = [] ∨ zlen chunk = n) ∧
     if (s' : bool) then ∃ b out', rest = b :: out' ∧ unused ++ more = b :: copy_deflate out'
     else unused ++ more = copy_deflate rest)) as Hmain.
  { induction input as [|b input IH]; intros s more out n Hs Hn.
    { exists [], out, [], [], s, false. naive_solver. }
    cbn [copy_inflate]. destruct s.
    - destruct Hs as (b' & out' & -> & [= -> Hs]). case_decide.
      + destruct (IH false more out' (n - 1) Hs ltac:(lia)) as
          (chunk & rest & used & unused & s' & fin & E & -> & -> & Hl & _ & Hc).
        rewrite E. exists (b' :: chunk), rest, (b' :: used), unused, s', fin.
        rewrite !zlen_cons. split_and!; try done; [lia|].
        destruct Hc as [?|(? & ? & ?)]; [by left|right]. split_and!; try done.
        naive_solver lia.
      + exists [], (b' :: out'), [], (b' :: input), true, false. change (zlen (@nil Z)) with 0.
        split_and!; try done; try lia. right. split_and!; [done|right; lia|].
        exists b', out'. by rewrite <- Hs.
    - destruct out as [|c out]; simpl in Hs; injection Hs as -> Hs.
      + apply app_nil in Hs as [-> ->]. exists [], [], [0], [], false, true.
        split_and!; try done. by left.
      + rewrite decide_False, decide_True by done.
        destruct (IH true more (c :: out) n) as
          (chunk & rest & used & unused & s' & fin & E & E1 & -> & Hl & _ & Hc); [eauto|done|].
        rewrite E, E1. exists chunk, rest, (1 :: used), unused, s', fin.
        by rewrite zlen_cons. }
  intros s input more out n Hs Hn Hne.
  assert (input ≠ []) as Hin.
  { intros ->. destruct Hne as [Hne | ->]; [done|]. destruct s; [naive_solver|].
    symmetry in Hs. apply app_nil in Hs as [_ ?]. done. }
  clear Hne. rename Hin into Hne.
  destruct (Hmain input s more out n Hs ltac:(lia)) as
    (chunk & rest & used & unused & s' & fin & E & -> & -> & Hl & Hu & Hc).
  simpl. rewrite E. specialize (Hu Hn Hne).
  assert (zlen used ≠ 0). { destruct used; [done|]. rewrite zlen_cons. pose proof (zlen_nonneg used). lia. }
  eexists _, chunk, rest, used, unused, s'. split; [done|].
  destruct Hc as [(-> & ? & ?)|(-> & ? & ?)]; rewrite ?decide_False by done; naive_solver.
Defined.

Lemma copy_inflate_step input : ∀ s n out used s' fin,
  copy_inflate s input n = (out, used, s', fin) → 0 ≤ n →
  0 ≤ used ≤ zlen input ∧ zlen out ≤ n ∧ (is_bytes input → is_bytes out) ∧
  (fin = true → inflates (Z0 := copying_zlib) s (take (Z.to_nat used) input) out) ∧
  (fin = false → ∀ more rest, inflates (Z0 := copying_zlib) s' more rest →
     inflates (Z0 := copying_zlib) s (take (Z.to_nat used) input ++ more) (out ++ rest)).
Proof.
  assert (∀ s n (input : bytes), 0 ≤ n → 0 ≤ 0 ≤ zlen input ∧ zlen (@nil Z) ≤ n ∧
    (is_bytes input → is_bytes []) ∧
    (false = true → inflates (Z0 := copying_zlib) s (take (Z.to_nat 0) input) []) ∧
    (false = false → ∀ more rest, inflates (Z0 := copying_zlib) s more rest →
       inflates (Z0 := copying_zlib) s (take (Z.to_nat 0) input ++ more) ([] ++ rest))) as Hstuck.
  { intros s n k Hn. pose proof (zlen_nonneg k). split_and!; try done. intros _. constructor. }
  induction input as [|b input IH]; intros s n out used s' fin E Hn; cbn [copy_inflate] in E.
  { injection E as <- <- <- <-. by apply Hstuck. }
  destruct s; case_decide as Hp.
  - destruct (copy_inflate false input (n - 1)) as [[[c u] t] f] eqn:E'. injection E as <- <- <- <-.
    apply IH in E' as (? & ? & Hb & H1 & H2); [|lia]. rewrite !zlen_cons.
    replace (Z.to_nat (1 + u)) with (S (Z.to_nat u)) by lia. cbn [take app].
    split_and!; try lia.
    + intros [? ?]%Forall_cons. constructor; [done|by apply Hb].
    + intros Hf. exists b, c. split; [done|]. f_equal. by apply H1.
    + intros Hf more rest Hm. exists b, (c ++ rest). split; [done|]. f_equal. by apply (H2 Hf).
  - injection E as <- <- <- <-. by apply Hstuck.
  - injection E as <- <- <- <-. pose proof (zlen_nonneg input). rewrite zlen_cons.
    split_and!; try done; try lia; [intros; constructor|]. intros _. cbn. by rewrite Hp.
  - case_decide as H1b; [|injection E as <- <- <- <-; by apply Hstuck].
    destruct (copy_inflate true input n) as [[[c u] t] f] eqn:E'. injection E as <- <- <- <-.
    apply IH in E' as (? & ? & Hb & H1 & H2); [|lia]. rewrite !zlen_cons.
    replace (Z.to_nat (1 + u)) with (S (Z.to_nat u)) by lia. cbn [take app].
    split_and!; try lia.
    + intros [? ?]%Forall_cons. by apply Hb.
    + intros Hf. destruct (H1 Hf) as (b' & out' & -> & E). cbn. by rewrite H1b, E.
    + intros Hf more rest Hm. destruct (H2 Hf more rest Hm) as (b' & out' & E0 & E).
      rewrite E0. cbn. by rewrite H1b, E.
Qed.

Lemma copy_inflate_whole s input out n : inflates (Z0 := copying_zlib) s input out → zlen out ≤ n →
  copy_inflate s input n = (out, zlen input, false, true).
Proof.
  revert s n out. induction input as [|b input IH]; intros s n out Hs Hn.
  { destruct s; [destruct Hs as (? & ? & ? & ?); done|]. by destruct out. }
  cbn [copy_inflate]. destruct s.
  - destruct Hs as (b' & out' & -> & [= -> Hs]). rewrite zlen_cons in Hn. pose proof (zlen_nonneg out').
    rewrite decide_True by lia. rewrite (IH false (n - 1) out') by (done || lia). by rewrite zlen_cons.
  - destruct out as [|c out]; injection Hs as -> Hs.
    + by destruct input.
    + rewrite decide_False, decide_True by done.
      rewrite (IH true n (c :: out)); [by rewrite zlen_cons|by exists c, out|done].
Qed.

#[export] Instance copying_inflate_sound : InflateSound copying_zlib.
Proof.
  split; [done| |].
  - intros s input n ret out used s' E Hn. cbn [inflate copying_zlib] in E.
    destruct (copy_inflate s input n) as [[[c u] t] fin] eqn:E'.
    apply copy_inflate_step in E' as (? & ? & ? & H1 & H2); [|done]. injection E as <- <- <- <-.
    split; [done|]. split; [done|]. split; [done|]. destruct fin; (split; [|try done]).
    + intros _. by apply H1.
    + case_decide; done.
    + intros _. by apply H2.
  - intros s input out n Hs Hn. exists false. cbn [inflate copying_zlib].
    by rewrite (copy_inflate_whole s input out n).
Qed.

#[export] Instance copying_deflate_starts : DeflateStarts copying_zlib.
Proof. split. intros level data _. by exists (copy_deflate data). Qed.

(** ** The checksum of zlib *)

(** [crc32 c data]: the checksum [c] of some data continued with [data]; it is 0 for
    no data. *)
Class Crc := { crc32 : Z → bytes → Z }.
Class CrcLaws (C0 : Crc) := {
  crc32_app : ∀ c a b, crc32 (crc32 c a) b = crc32 c (a ++ b);
  crc32_nil : ∀ c, crc32 c [] = c;
  crc32_range : ∀ c a, in_u 32 c → in_u 32 (crc32 c a)
}.
(** A sum with the same interface, for the examples. *)
#[export] Instance sum_crc : Crc := {| crc32 := foldl (λ c b, u32 (31 * c + b)) |}.
#[export] Instance sum_crc_laws : CrcLaws sum_crc.
Proof.
  split; simpl; [intros; by rewrite foldl_app|done|].
  intros c a. revert c. induction a as [|b a IH]; intros c Hc; simpl; [done|].
  apply IH. apply wrap_u_range. lia.
Qed.

(** * SHA-1 *)

Definition SHA_DIGEST_SIZE : Z := 20.
Class Sha := {
  SHA_CTX : Type;
  SHA_init : SHA_CTX;
  SHA_update : SHA_CTX → bytes → SHA_CTX;
  SHA_final : SHA_CTX → bytes
}.
(** The digest of data given at once. *)
Definition SHA `{Sha} (data : bytes) : bytes := SHA_final (SHA_update SHA_init data).

Class ShaLaws (S0 : Sha) := {
  SHA_update_app : ∀ c a b, SHA_update (SHA_update c a) b = SHA_update c (a ++ b);
  SHA_update_nil : ∀ c, SHA_update c [] = c;
  SHA_size : ∀ c, zlen (SHA_final c) = SHA_DIGEST_SIZE;
  SHA_bytes : ∀ c, is_bytes (SHA_final c)
}.

(** ** A checksum with the same interface, for the examples: 20 bytes made of
    the length and a weighted sum of the data. *)
#[export] Instance checksum_sha : Sha := {|
  SHA_CTX := bytes;
  SHA_init := [];
  SHA_update c d := c ++ d;
  SHA_final c := set8LE (zlen c) ++ set8LE (foldl (λ h b, u64 (31 * h + b)) 7 c) ++ set4LE 0
|}.

#[export] Instance checksum_sha_laws : ShaLaws checksum_sha.
Proof.
  constructor; simpl.
  - intros. by rewrite app_assoc.
  - intros. by rewrite app_nil_r.
  - done.
  - intros c. repeat apply Forall_app_2; repeat constructor; apply byte_at_in_u; lia.
Qed.
