(* ===== verification/ImgPatch.v ===== *)
(** Applying patches to images: [applypatch/imgpatch.c], and
    [ApplyBSDiffPatch] of [applypatch/bspatch.c]. *)
From S2P Require Import Prelude Bytes Bz2 ZlibSha BsPatch.

Definition CHUNK_NORMAL : Z := 0.
Definition CHUNK_GZIP : Z := 1.
Definition CHUNK_DEFLATE : Z := 2.
Definition CHUNK_RAW : Z := 3.

Section imgpatch.
Context `{Abi} `{Bz2} `{Zlib} `{Sha}.
(** What [malloc] leaves in a new block, and the largest block it gives. *)
Context (fresh : nat → Z) (heap : Z).
(** A sink takes bytes and a token, and gives the number of bytes written. *)
Context {T : Type} (sink : T → bytes → Z * T).

(** The block of [n] bytes at [start] of [data], the way a callee given the
    pointer and the size may use it. *)
Definition region (data : bytes) (start n : Z) : run bytes :=
  if decide (n ≤ 0) then Done [] else access (zslice data start n).

(** The return code, the token and the digest context. *)
Definition ApplyBSDiffPatch (fuel : nat) (old patch : bytes) (patch_offset : Z)
    (token : T) (ctx : option SHA_CTX) : run (Z * T * option SHA_CTX) :=
  '(r, new_data) ← ApplyBSDiffPatchMem fresh heap fuel old patch patch_offset;
  if decide (r ≠ 0) then mret (-1, token, ctx) else
  let '(written, token) := sink token new_data in
  if decide (written < zlen new_data) then mret (1, token, ctx) else
  mret (0, token, (λ c, SHA_update c new_data) <$> ctx).

(** The loop that compresses the target data into the sink.  The temporary
    block is smaller than 4 GB, so [have] is the number of bytes produced. *)
Fixpoint deflate_loop (fuel : nat) (temp_size : Z) (strm : d_stream) (token : T) (ctx : SHA_CTX)
    : run (Z * T * SHA_CTX) :=
  match fuel with
  | O => OutOfFuel
  | S fuel =>
      let '(ret, have, strm) := deflate strm (u32 temp_size) in
      let '(written, token) := sink token have in
      if decide (written ≠ zlen have) then mret (-1, token, ctx) else
      let ctx := SHA_update ctx have in
      if decide (ret ≠ Z_STREAM_END) then deflate_loop fuel temp_size strm token ctx
      else mret (0, token, ctx)
  end.

(** ** The three kinds of chunks

    Each gives the return code, the position after its record, the token and
    the digest context; the code goes on with the next chunk when the return
    code is 0. *)
Definition normal_chunk (fuel : nat) (old patch : bytes) (pos : Z) (token : T) (ctx : SHA_CTX)
    : run (Z * Z * T * SHA_CTX) :=
  let normal_header := pos in
  let pos := pos + 24 in
  if decide (zlen patch < pos) then mret (-1, pos, token, ctx) else
  src_start ← access (size_t <$> Read8 patch normal_header);
  src_len ← access (size_t <$> Read8 patch (normal_header + 8));
  patch_offset ← access (size_t <$> Read8 patch (normal_header + 16));
  src ← region old src_start (off_t src_len);
  '(_, token, ctx') ← ApplyBSDiffPatch fuel src patch (off_t patch_offset) token (Some ctx);
  mret (0, pos, token, default ctx ctx').

Definition raw_chunk (patch : bytes) (pos : Z) (token : T) (ctx : SHA_CTX)
    : run (Z * Z * T * SHA_CTX) :=
  let raw_header := pos in
  let pos := pos + 4 in
  if decide (zlen patch < pos) then mret (-1, pos, token, ctx) else
  data_len ← access (Read4 patch raw_header);
  if decide (zlen patch < off_t (pos + data_len)) then mret (-1, pos, token, ctx) else
  data ← access (zslice patch pos data_len);
  let ctx := SHA_update ctx data in
  let '(written, token) := sink token data in
  if decide (written ≠ data_len) then mret (-1, pos, token, ctx) else
  mret (0, pos + data_len, token, ctx).

(** The inflated source of a deflate chunk, with the bonus data at its end. *)
Definition expand_source (old : bytes) (src_start src_len expanded_len : Z)
    (bonus_data : option bytes) : run (option bytes) :=
  let bonus := default [] bonus_data in
  if decide (heap < expanded_len) then mret None else
  let expanded_source := map fresh (seq 0 (Z.to_nat expanded_len)) in
  input ← region old src_start (u32 src_len);
  let '(ret, strm) := inflate_start in
  if decide (ret ≠ Z_OK) then mret None else
  let '(ret, out, _, _) := inflate strm input (u32 expanded_len) in
  expanded_source ← access (store expanded_source 0 out);
  if decide (ret ≠ Z_STREAM_END) then mret None else
  if decide (u32 expanded_len - zlen out ≠ zlen bonus) then mret None else
  expanded_source ← access (store expanded_source (expanded_len - zlen bonus) bonus);
  mret (Some expanded_source).

Definition deflate_chunk (fuel : nat) (old patch : bytes) (i : Z) (bonus_data : option bytes)
    (pos : Z) (token : T) (ctx : SHA_CTX) : run (Z * Z * T * SHA_CTX) :=
  let deflate_header := pos in
  let pos := pos + 60 in
  if decide (zlen patch < pos) then mret (-1, pos, token, ctx) else
  src_start ← access (size_t <$> Read8 patch deflate_header);
  src_len ← access (size_t <$> Read8 patch (deflate_header + 8));
  patch_offset ← access (size_t <$> Read8 patch (deflate_header + 16));
  expanded_len ← access (size_t <$> Read8 patch (deflate_header + 24));
  target_len ← access (size_t <$> Read8 patch (deflate_header + 32));
  level ← access (Read4 patch (deflate_header + 40));
  method ← access (Read4 patch (deflate_header + 44));
  windowBits ← access (Read4 patch (deflate_header + 48));
  memLevel ← access (Read4 patch (deflate_header + 52));
  strategy ← access (Read4 patch (deflate_header + 56));
  expanded ← expand_source old src_start src_len expanded_len
               (if decide (i = 1) then bonus_data else None);
  match expanded with
  | None => mret (-1, pos, token, ctx)
  | Some expanded_source =>
      '(r, uncompressed_target_data) ←
        ApplyBSDiffPatchMem fresh heap fuel expanded_source patch (off_t patch_offset);
      if decide (r ≠ 0) then mret (-1, pos, token, ctx) else
      let temp_size := if decide (expanded_len < 32768) then 32768 else expanded_len in
      let strm := deflate_start level method windowBits memLevel strategy
                    uncompressed_target_data in
      '(r, token, ctx) ← deflate_loop fuel temp_size strm token ctx;
      mret (r, pos, token, ctx)
  end.

Fixpoint chunk_loop (fuel n : nat) (old patch : bytes) (bonus_data : option bytes)
    (i pos : Z) (token : T) (ctx : SHA_CTX) : run (Z * T * SHA_CTX) :=
  match n with
  | O => mret (0, token, ctx)
  | S n =>
      if decide (zlen patch < pos + 4) then mret (-1, token, ctx) else
      type ← access (Read4 patch pos);
      let pos := pos + 4 in
      '(r, pos, token, ctx) ←
        (if decide (type = CHUNK_NORMAL) then normal_chunk fuel old patch pos token ctx
         else if decide (type = CHUNK_RAW) then raw_chunk patch pos token ctx
         else if decide (type = CHUNK_DEFLATE)
         then deflate_chunk fuel old patch i bonus_data pos token ctx
         else mret (-1, pos, token, ctx));
      if decide (r ≠ 0) then mret (r, token, ctx)
      else chunk_loop fuel n old patch bonus_data (i + 1) pos token ctx
  end.

Definition IMGDIFF_MAGIC : bytes := bytes_of_string "IMGDIFF2".

Definition ApplyImagePatch (fuel : nat) (old patch : bytes) (token : T) (ctx : SHA_CTX)
    (bonus_data : option bytes) : run (Z * T * SHA_CTX) :=
  if decide (zlen patch < 12) then mret (-1, token, ctx) else
  magic ← access (zslice patch 0 8);
  if decide (memcmp magic IMGDIFF_MAGIC ≠ 0) then mret (-1, token, ctx) else
  num_chunks ← access (Read4 patch 8);
  chunk_loop fuel (Z.to_nat num_chunks) old patch bonus_data 0 12 token ctx.
End imgpatch.

(** * Specification: the image a patch describes

    [chunk_at old patch bonus i pos pos' out]: at [pos] of the patch file there
    is a record of chunk [i], which ends at [pos'] and contributes [out] to the
    image. *)
Section image.
Context `{Abi} `{Bz2} `{Z1 : Zlib} `{!DeflateLaws Z1}.
Context (old patch : bytes) (bonus : option bytes).

(** A bsdiff patch is at [off] of the patch file and turns [src] into
    [out]; applying it takes [fuel_need] fuel. *)
Definition bsdiff_at (src : bytes) (off : Z) (out : bytes) (fuel_need : nat) : Prop :=
  ∃ cs d e q pre post, replay src 0 cs d e out q ∧
    patch = pre ++ patch_file cs d e (zlen out) ++ post ∧ zlen pre = off ∧
    (length cs + length out + 24 ≤ fuel_need)%nat.

Inductive chunk_at (need : nat) (i pos : Z) : Z → bytes → Prop :=
| normal_at src_start src off out :
    zslice patch pos 28 = Some (set4LE CHUNK_NORMAL ++ set8LE src_start ++
      set8LE (zlen src) ++ set8LE off) →
    zslice old src_start (zlen src) = Some src →
    bsdiff_at src off out need →
    chunk_at need i pos (pos + 28) out
| raw_at data :
    zslice patch pos (8 + zlen data) =
      Some (set4LE CHUNK_RAW ++ set4LE (zlen data) ++ data) →
    chunk_at need i pos (pos + 8 + zlen data) data
| deflate_at src_start src off expanded expanded_len target_len lvl meth wbits mlvl strat
    inflated out target st st' used :
    zslice patch pos 64 = Some (set4LE CHUNK_DEFLATE ++ set8LE src_start ++
      set8LE (zlen src) ++ set8LE off ++ set8LE expanded_len ++ set8LE target_len ++
      set4LE lvl ++ set4LE meth ++ set4LE wbits ++ set4LE mlvl ++ set4LE strat) →
    zslice old src_start (zlen src) = Some src →
    inflate_start = (Z_OK, st) →
    inflate st src expanded_len = (Z_STREAM_END, inflated, used, st') →
    expanded = inflated ++ (if decide (i = 1) then default [] bonus else []) →
    zlen expanded = expanded_len → expanded_len ≤ INT_MAX → zlen target ≤ INT_MAX →
    in_s 64 target_len →
    bsdiff_at expanded off target need →
    deflates (deflate_start (s32 lvl) (s32 meth) (s32 wbits) (s32 mlvl) (s32 strat) target) out →
    (length out < need)%nat →
    chunk_at need i pos (pos + 64) out.

(** The chunks from the [i]-th on. *)
Inductive chunks_at (need : nat) : Z → Z → nat → bytes → Prop :=
| chunks_nil i pos : chunks_at need i pos 0 []
| chunks_cons i pos pos' n out rest :
    chunk_at need i pos pos' out → chunks_at need (i + 1) pos' n rest →
    chunks_at need i pos (S n) (out ++ rest).

(** The patch file describes the image [out]. *)
Definition image_patch (need : nat) (out : bytes) : Prop :=
  ∃ n, zslice patch 0 12 = Some (IMGDIFF_MAGIC ++ set4LE (Z.of_nat n)) ∧
    Z.of_nat n ≤ INT_MAX ∧ chunks_at need 0 12 n out.
End image.

(** * Proofs *)

Section image_lemmas.
Context `{Abi} `{B : Bz2} `{!Bz2Laws B} `{Z1 : Zlib} `{!DeflateLaws Z1} `{S1 : Sha} `{!ShaLaws S1}.
Context (fresh : nat → Z) (heap : Z) {T : Type} (sink : T → bytes → Z * T).
(** The sink takes everything up to [limit] bytes: [contents] are the bytes it
    has. *)
Context (contents : T → bytes) (limit : Z).
Hypothesis sink_ok : ∀ t d, zlen (contents t ++ d) ≤ limit →
  ∃ t', sink t d = (zlen d, t') ∧ contents t' = contents t ++ d.
Hypothesis heap_ok : INT_MAX ≤ heap.

Lemma region_ok data start out : zslice data start (zlen out) = Some out →
  region data start (zlen out) = Done out.
Proof.
  intros E. unfold region. case_decide; [by rewrite (zlen_nil_inv out)|]. by rewrite E.
Qed.

(** Where [bsdiff_at] holds the patch is applied. *)
Lemma bsdiff_at_ok fuel need src patch off out :
  bsdiff_at patch src off out need → (need ≤ fuel)%nat →
  zlen src ≤ INT_MAX → zlen out ≤ INT_MAX → zlen patch ≤ INT_MAX →
  ApplyBSDiffPatchMem fresh heap fuel src patch (off_t off) = Done (0, out) ∧ 0 ≤ off ≤ INT_MAX.
Proof.
  intros (cs & d & e & q & pre & post & Hr & -> & <- & Hn) Hf Hs Ho Hp.
  pose proof (zlen_nonneg pre). pose proof (zlen_nonneg (patch_file cs d e (zlen out))).
  pose proof (zlen_nonneg post). assert (0 ≤ zlen pre ≤ INT_MAX) by (rewrite !zlen_app in Hp; lia).
  rewrite off_t_id by lia. split; [|done].
  eapply ApplyBSDiffPatchMem_ok; try done; lia.
Qed.

Lemma deflate_loop_ok fuel temp_size strm token ctx out :
  deflates strm out → 0 < temp_size ≤ INT_MAX → (length out < fuel)%nat →
  zlen (contents token ++ out) ≤ limit →
  ∃ token', deflate_loop sink fuel temp_size strm token ctx =
      Done (0, token', SHA_update ctx out) ∧ contents token' = contents token ++ out.
Proof.
  intros Hs Ht. revert strm token ctx out Hs.
  induction fuel as [|fuel IH]; intros strm token ctx out Hs Hf Hl; [lia|].
  cbn [deflate_loop]. rewrite wrap_u_id by (unfold in_u, INT_MAX in *; lia).
  destruct (deflate_progress strm out temp_size Hs) as
    (ret & chunk & rest & s' & -> & -> & _ & Hc); [lia|].
  destruct (sink_ok token chunk) as (t' & -> & Ht').
  { rewrite !zlen_app in *. pose proof (zlen_nonneg rest). lia. }
  rewrite decide_False by (intros Hx; by apply Hx). cbv zeta.
  destruct Hc as [[-> ->]|(Hr & Hne & Hs')].
  - rewrite decide_False by (intros Hx; by apply Hx). rewrite !app_nil_r. by exists t'.
  - rewrite decide_True by done.
    destruct (IH s' t' (SHA_update ctx chunk) rest Hs') as (t'' & -> & Ht'').
    + rewrite length_app in Hf. destruct chunk; [done|]. simpl in Hf. lia.
    + rewrite Ht', <- app_assoc. done.
    + exists t''. by rewrite SHA_update_app, Ht'', Ht', <- app_assoc.
Qed.

Context (old patch : bytes) (bonus : option bytes) (fuel need : nat).
Hypothesis old_size : zlen old ≤ INT_MAX.
Hypothesis patch_size : zlen patch ≤ INT_MAX.
Hypothesis limit_ok : limit ≤ INT_MAX.
Hypothesis fuel_ok : (need ≤ fuel)%nat.

(** A step of the chunk loop on a chunk that is there. *)
Definition chunk_done (i pos pos' : Z) (out : bytes) : Prop :=
  ∀ token ctx n, zlen (contents token ++ out) ≤ limit →
  ∃ token', contents token' = contents token ++ out ∧
    chunk_loop fresh heap sink fuel (S n) old patch bonus i pos token ctx =
    chunk_loop fresh heap sink fuel n old patch bonus (i + 1) pos' token' (SHA_update ctx out).

Lemma normal_done i pos src_start src off out :
  zslice patch pos 28 = Some (set4LE CHUNK_NORMAL ++ set8LE src_start ++
    set8LE (zlen src) ++ set8LE off) →
  zslice old src_start (zlen src) = Some src →
  bsdiff_at patch src off out need → chunk_done i pos (pos + 28) out.
Proof.
  intros (c & H4 & H8 & Hp & Hl & _)%fields_at Hsrc Hb token ctx n Hlim.
  pose proof (zslice_length _ _ _ _ Hsrc) as (_ & ? & ?).
  pose proof (zlen_nonneg out). pose proof (zlen_nonneg (contents token)).
  pose proof (zlen_nonneg src).
  destruct (bsdiff_at_ok fuel need src patch off out Hb fuel_ok) as [Hbs Hoff];
    [lia|rewrite zlen_app in Hlim; lia|done|].
  destruct (sink_ok token out Hlim) as (t' & Hs & Ht'). exists t'. split; [done|].
  unfold INT_MAX in *. cbn [chunk_loop]. rewrite decide_False by lia. rewrite <- (Z.add_0_r pos) at 1.
  rewrite H4 by lia. rewrite <- !app_assoc. read_fields. cbn [access mbind run_bind].
  change (s32 CHUNK_NORMAL) with CHUNK_NORMAL. rewrite decide_True by done.
  unfold normal_chunk. rewrite decide_False by lia. rewrite <- !(Z.add_assoc pos).
  change (4 + 8) with 12. change (4 + 16) with 20.
  rewrite !H8 by lia. rewrite <- !app_assoc. read_fields. cbn [fmap option_fmap option_map access mbind run_bind].
  rewrite !size_t_id by (unfold INT_MAX; lia). rewrite (off_t_id (zlen src)) by (unfold INT_MAX; lia).
  rewrite region_ok by done. cbn [mbind run_bind]. unfold ApplyBSDiffPatch. rewrite Hbs.
  cbn [mbind run_bind]. rewrite decide_False by (intros Hx; by apply Hx). rewrite Hs.
  rewrite decide_False by lia. cbn [mbind run_bind mret run_ret]. cbn. by replace (pos + 4 + 24) with (pos + 28) by lia.
Qed.

Lemma raw_done i pos data :
  zslice patch pos (8 + zlen data) =
    Some (set4LE CHUNK_RAW ++ set4LE (zlen data) ++ data) →
  chunk_done i pos (pos + 8 + zlen data) data.
Proof.
  intros Hz token ctx n Hlim. pose proof (fields_at _ _ _ _ Hz) as (c & H4 & H8 & Hp & Hl & _).
  pose proof (zlen_nonneg data). destruct (sink_ok token data Hlim) as (t' & Hs & Ht').
  exists t'. split; [done|]. unfold INT_MAX in *.
  cbn [chunk_loop]. rewrite decide_False by lia. rewrite <- (Z.add_0_r pos) at 1.
  rewrite H4 by lia. rewrite <- !app_assoc. read_fields. cbn [access mbind run_bind].
  change (s32 CHUNK_RAW) with CHUNK_RAW. rewrite decide_False by done. rewrite decide_True by done.
  unfold raw_chunk. rewrite decide_False by lia.
  rewrite H4 by lia. rewrite <- !app_assoc. read_fields. cbn [access mbind run_bind].
  rewrite wrap_s_id by (unfold in_s; lia). rewrite off_t_id by (unfold INT_MAX; lia). rewrite decide_False by lia.
  assert (zslice patch (pos + 4 + 4) (zlen data) = Some data) as ->.
  { apply zslice_inv in Hz as (a & k & -> & <- & _).
    apply (zslice_at _ (a ++ set4LE CHUNK_RAW ++ set4LE (zlen data)) data k);
      [by rewrite <- !app_assoc| |done].
    rewrite !zlen_app. change (zlen (set4LE _)) with 4. lia. }
  cbn [access mbind run_bind]. rewrite Hs. rewrite decide_False by (intros Hx; by apply Hx).
  cbn [mbind run_bind mret run_ret]. cbn. by replace (pos + 4 + 4) with (pos + 8) by lia.
Qed.

(** Two stores that fill a block. *)
Lemma store_fill (block a b : bytes) : zlen a + zlen b = zlen block →
  ∃ block', store block 0 a = Some block' ∧ store block' (zlen block - zlen b) b = Some (a ++ b).
Proof.
  intros Hl. pose proof (zlen_nonneg a). pose proof (zlen_nonneg b).
  exists (a ++ drop (length a) block). unfold store. split.
  - rewrite decide_True by lia. simpl. by rewrite drop_0 || (do 2 f_equal; unfold zlen; f_equal; lia).
  - rewrite decide_True.
    + f_equal. replace (zlen block - zlen b) with (zlen a) by lia. rewrite Hl.
      unfold zlen. rewrite !Nat2Z.id, take_app_length, drop_ge, app_nil_r; [done|].
      unfold zlen in Hl. rewrite length_app, length_drop. lia.
    + unfold zlen in *. rewrite length_app, length_drop. lia.
Qed.

Lemma expand_source_ok src_start src expanded_len st inflated used st' b :
  zslice old src_start (zlen src) = Some src →
  inflate_start = (Z_OK, st) →
  inflate st src expanded_len = (Z_STREAM_END, inflated, used, st') →
  zlen (inflated ++ default [] b) = expanded_len → expanded_len ≤ INT_MAX →
  expand_source fresh heap old src_start (zlen src) expanded_len b =
    Done (Some (inflated ++ default [] b)).
Proof.
  intros Hsrc Hst Hinf Hlen Hmax. pose proof (zslice_length _ _ _ _ Hsrc) as (_ & ? & ?).
  pose proof (zlen_nonneg src). pose proof (zlen_nonneg inflated).
  pose proof (zlen_nonneg (default [] b)). rewrite zlen_app in Hlen.
  unfold expand_source. rewrite decide_False by lia. unfold INT_MAX in *.
  rewrite !wrap_u_id by (unfold in_u; lia). rewrite region_ok by done.
  cbn [mbind run_bind]. rewrite Hst. rewrite decide_False by (intros Hx; by apply Hx). rewrite Hinf.
  set (block := map fresh (seq 0 (Z.to_nat expanded_len))).
  assert (zlen block = expanded_len) as Hblock.
  { unfold block, zlen. rewrite length_map, length_seq. lia. }
  destruct (store_fill block inflated (default [] b)) as (block' & E1 & E2); [lia|].
  rewrite E1. cbn [access mbind run_bind]. rewrite decide_False by (intros Hx; by apply Hx).
  rewrite decide_False by lia. rewrite <- Hblock, E2. done.
Qed.

Lemma deflate_done i pos src_start src off expanded expanded_len target_len lvl meth wbits mlvl
    strat inflated out target st st' used :
  zslice patch pos 64 = Some (set4LE CHUNK_DEFLATE ++ set8LE src_start ++
    set8LE (zlen src) ++ set8LE off ++ set8LE expanded_len ++ set8LE target_len ++
    set4LE lvl ++ set4LE meth ++ set4LE wbits ++ set4LE mlvl ++ set4LE strat) →
  zslice old src_start (zlen src) = Some src →
  inflate_start = (Z_OK, st) →
  inflate st src expanded_len = (Z_STREAM_END, inflated, used, st') →
  expanded = inflated ++ (if decide (i = 1) then default [] bonus else []) →
  zlen expanded = expanded_len → expanded_len ≤ INT_MAX → zlen target ≤ INT_MAX →
  in_s 64 target_len →
  bsdiff_at patch expanded off target need →
  deflates (deflate_start (s32 lvl) (s32 meth) (s32 wbits) (s32 mlvl) (s32 strat) target) out →
  (length out < need)%nat → chunk_done i pos (pos + 64) out.
Proof.
  intros Hz Hsrc Hst Hinf -> Hlen Hmax Htgt Htl Hb Hd Hn token ctx n Hlim.
  destruct Htl as [Htl1 Htl2]. change (2 ^ (64 - 1)) with 9223372036854775808 in *.
  pose proof (fields_at _ _ _ _ Hz) as (c & H4 & H8 & Hp & Hl & _).
  pose proof (zslice_length _ _ _ _ Hsrc) as (_ & ? & ?). pose proof (zlen_nonneg src).
  set (b := if decide (i = 1) then bonus else None).
  replace (if decide (i = 1) then default [] bonus else []) with (default [] b) in *
    by (unfold b; by case_decide).
  destruct (bsdiff_at_ok fuel need _ patch off target Hb fuel_ok) as [Hbs Hoff];
    [lia|done|done|].
  set (temp := if decide (expanded_len < 32768) then 32768 else expanded_len).
  destruct (deflate_loop_ok fuel temp _ token ctx out Hd) as (t' & Hdl & Ht');
    [unfold temp; case_decide; unfold INT_MAX in *; lia|lia|done|].
  exists t'. split; [done|]. unfold INT_MAX in *.
  pose proof (zlen_nonneg (inflated ++ default [] b)).
  cbn [chunk_loop]. rewrite decide_False by lia. rewrite <- (Z.add_0_r pos) at 1.
  rewrite H4 by lia. rewrite <- !app_assoc. read_fields. cbn [access mbind run_bind].
  change (s32 CHUNK_DEFLATE) with CHUNK_DEFLATE.
  do 2 rewrite decide_False by done. rewrite decide_True by done.
  unfold deflate_chunk. rewrite decide_False by lia. rewrite <- !(Z.add_assoc pos).
  repeat match goal with |- context [4 + Zpos ?i] =>
    let k := eval compute in (4 + Zpos i) in change (4 + Zpos i) with k end.
  rewrite !H8, !H4 by lia. rewrite <- !app_assoc. read_fields.
  cbn [fmap option_fmap option_map access mbind run_bind].
  rewrite (size_t_id src_start), (size_t_id (zlen src)), (size_t_id off), (size_t_id expanded_len)
    by (unfold INT_MAX; lia).
  fold b. rewrite (expand_source_ok _ _ _ st inflated used st') by done.
  cbn [mbind run_bind]. rewrite Hbs. cbn [mbind run_bind].
  rewrite decide_False by (intros Hx; by apply Hx). fold temp. rewrite Hdl.
  cbn [mbind run_bind mret run_ret]. cbn. done.
Qed.

Lemma chunk_at_done i pos pos' out :
  chunk_at old patch bonus need i pos pos' out → chunk_done i pos pos' out.
Proof. destruct 1; [by eapply normal_done|by apply raw_done|by eapply deflate_done]. Qed.

Lemma chunks_at_done i pos n out token ctx :
  chunks_at old patch bonus need i pos n out → zlen (contents token ++ out) ≤ limit →
  ∃ token', contents token' = contents token ++ out ∧
    chunk_loop fresh heap sink fuel n old patch bonus i pos token ctx =
      Done (0, token', SHA_update ctx out).
Proof.
  intros Hc. revert token ctx. induction Hc as [i pos|i pos pos' n out rest Hc Hr IH];
    intros token ctx Hl.
  - exists token. rewrite SHA_update_nil, app_nil_r. done.
  - rewrite app_assoc in Hl. destruct (chunk_at_done _ _ _ _ Hc token ctx n) as (t' & Ht' & ->).
    { rewrite zlen_app in Hl. pose proof (zlen_nonneg rest). lia. }
    destruct (IH t' (SHA_update ctx out)) as (t'' & Ht'' & ->); [by rewrite Ht'|].
    exists t''. by rewrite Ht'', Ht', <- app_assoc, SHA_update_app.
Qed.
End image_lemmas.

(** [ApplyImagePatch] rebuilds the image a patch file describes.  Given the
    old image and a patch file whose chunks are of any of the three kinds
    (bsdiff patches of parts of the old image, raw data, and bsdiff patches of
    inflated parts that are deflated again, with bonus data), it ends without an
    invalid access, returns success, and the sink and the digest receive exactly
    the bytes of the new image. *)
Lemma image_patch_applies `{Abi} `{B : Bz2} `{!Bz2Laws B} `{Z1 : Zlib} `{!DeflateLaws Z1}
    `{S1 : Sha} `{!ShaLaws S1} {T} (sink : T → bytes → Z * T) (contents : T → bytes) limit
    fresh heap fuel need old patch bonus out token ctx :
  (∀ t d, zlen (contents t ++ d) ≤ limit →
    ∃ t', sink t d = (zlen d, t') ∧ contents t' = contents t ++ d) →
  image_patch old patch bonus need out → (need ≤ fuel)%nat →
  zlen old ≤ INT_MAX → zlen patch ≤ INT_MAX → INT_MAX ≤ heap →
  zlen (contents token ++ out) ≤ limit → limit ≤ INT_MAX →
  ∃ token', contents token' = contents token ++ out ∧
    ApplyImagePatch fresh heap sink fuel old patch token ctx bonus =
      Done (0, token', SHA_update ctx out).
Proof.
  intros Hsink (n & Hz & Hn & Hc) Hf Ho Hp Hh Hl Hlim.
  destruct (chunks_at_done fresh heap sink contents limit Hsink Hh old patch bonus fuel need
    Ho Hp Hlim Hf 0 12 n out token ctx Hc Hl) as (t' & Ht' & E).
  exists t'. split; [done|]. unfold ApplyImagePatch.
  pose proof (fields_at _ _ _ _ Hz) as (c & H4 & _ & _ & Hlen & _).
  rewrite decide_False by lia.
  assert (zslice patch 0 8 = Some IMGDIFF_MAGIC) as ->.
  { apply zslice_inv in Hz as (a & k & -> & Ha & _).
    apply (zslice_at _ a IMGDIFF_MAGIC (set4LE (Z.of_nat n) ++ k)); [by rewrite <- app_assoc|lia|done]. }
  cbn [access mbind run_bind]. rewrite decide_False by (intros Hx; by apply Hx).
  change 8 with (0 + 8). rewrite H4 by lia. rewrite <- app_assoc.
  change 8 with (zlen IMGDIFF_MAGIC + 0). rewrite Read4_app_r, Read4_here by lia.
  cbn [access mbind run_bind]. unfold INT_MAX in *.
  rewrite wrap_s_id, Nat2Z.id by (unfold in_s; lia). done.
Qed.

(** ** An image patch with a chunk of each kind *)
Definition list_sink (t d : bytes) : Z * bytes := (zlen d, t ++ d).
Definition img_target : bytes := [9; 4; 9].
Definition img_old : bytes := [1; 2; 3; 4] ++ copy_deflate [7; 8].
Definition img_patch : bytes :=
  let p1 := patch_file [(2, 1, 0)] [1; 1] [5] 3 in
  let p2 := patch_file [(3, 0, 0)] [2; 252; 3] [] 3 in
  let hdr := 12 + 28 + 10 + 64 in
  IMGDIFF_MAGIC ++ set4LE 3 ++
  (set4LE CHUNK_NORMAL ++ set8LE 0 ++ set8LE 4 ++ set8LE hdr) ++
  (set4LE CHUNK_DEFLATE ++ set8LE 4 ++ set8LE 5 ++ set8LE (hdr + zlen p1) ++ set8LE 3 ++
     set8LE 3 ++ set4LE 6 ++ set4LE 8 ++ set4LE (-15) ++ set4LE 8 ++ set4LE 0) ++
  (set4LE CHUNK_RAW ++ set4LE 2 ++ [20; 21]) ++ p1 ++ p2.
Definition img_new : bytes := [2; 3; 5] ++ copy_deflate img_target ++ [20; 21].

Lemma img_patch_describes : image_patch img_old img_patch (Some [6]) 40 img_new.
Proof.
  exists 3%nat. split; [by vm_compute|]. split; [done|].
  unfold img_new. replace [20; 21] with ([20; 21] ++ []) by done.
  eapply chunks_cons; [|eapply chunks_cons; [|eapply chunks_cons; [|apply chunks_nil]]].
  - apply (normal_at img_old img_patch (Some [6]) 40 0 12 0 [1; 2; 3; 4] 114); [by vm_compute..|].
    exists [(2, 1, 0)], [1; 1], [5], 2, (take 114 img_patch), (drop (114 + 89) img_patch).
    split; [|split; [by vm_compute|split; [by vm_compute|simpl; lia]]].
    apply (replay_cons _ 0 2 1 0 [] [1; 1] [1; 2] [5] [] [] [] 2); try done; constructor.
  - apply (deflate_at (Z1 := copying_zlib) img_old img_patch (Some [6]) 40 1 40 4 (copy_deflate [7; 8]) 203
      [7; 8; 6] 3 3 6 8 (-15) 8 0 [7; 8] _ img_target false false 5);
      [by vm_compute|by vm_compute|done|by vm_compute|done|done|done|done|(unfold in_s; lia)| |done|simpl; lia].
    exists [(3, 0, 0)], [2; 252; 3], [], 3, (take 203 img_patch), [].
    split; [|split; [by vm_compute|split; [by vm_compute|simpl; lia]]].
    apply (replay_cons _ 0 3 0 0 [] [2; 252; 3] [7; 8; 6] [] [] [] [] 3); try done; constructor.
  - apply (raw_at img_old img_patch (Some [6]) 40 2 104 [20; 21]). by vm_compute.
Qed.

Lemma image_patch_applies_witness :
  ∃ token', (token' : bytes) = [0] ++ img_new ∧
    ApplyImagePatch (H := abi32) (λ _, 0) INT_MAX list_sink 40 img_old img_patch [0] SHA_init
      (Some [6]) = Done (0, token', SHA_update SHA_init img_new).
Proof.
  apply (image_patch_applies (H := abi32) list_sink (λ t, t) 1000 (λ _, 0) INT_MAX 40 40).
  - intros t d _. by exists (t ++ d).
  - apply (img_patch_describes).
  - done.
  - by vm_compute.
  - by vm_compute.
  - done.
  - by vm_compute.
  - done.
Defined.

(** The result of a [CHUNK_NORMAL] patch is not looked at: a chunk whose
    bsdiff patch is corrupt (here, whose magic is wrong) contributes nothing to
    the image and the application goes on with the next chunk, reporting no
    error. *)
Lemma normal_chunk_failure_ignored `{Abi} `{Bz2} `{Zlib} `{Sha} {T} (sink : T → bytes → Z * T)
    fresh heap fuel old patch pos src_start src off magic token ctx :
  zslice patch pos 24 = Some (set8LE src_start ++ set8LE (zlen src) ++ set8LE off) →
  zslice old src_start (zlen src) = Some src → zlen old ≤ INT_MAX → 0 ≤ off ≤ INT_MAX →
  zslice patch off 8 = Some magic → memcmp magic BSDIFF_MAGIC ≠ 0 →
  normal_chunk fresh heap sink fuel old patch pos token ctx = Done (0, pos + 24, token, ctx).
Proof.
  intros (c & _ & H8 & Hp & Hl & _)%fields_at Hsrc Hold Hoff Hm Hne.
  pose proof (zslice_length _ _ _ _ Hsrc) as (_ & ? & ?). pose proof (zlen_nonneg src).
  unfold INT_MAX in *. unfold normal_chunk. rewrite decide_False by lia.
  rewrite <- (Z.add_0_r pos) at 1. rewrite !H8 by lia. rewrite <- !app_assoc. read_fields.
  cbn [fmap option_fmap option_map access mbind run_bind].
  rewrite !size_t_id by (unfold INT_MAX; lia). rewrite !off_t_id by (unfold INT_MAX; lia).
  rewrite region_ok by done. cbn [mbind run_bind]. unfold ApplyBSDiffPatch, ApplyBSDiffPatchMem.
  rewrite Hm. cbn [access mbind run_bind]. by rewrite decide_True by done.
Qed.

Definition corrupt_patch : bytes := set8LE 0 ++ set8LE 2 ++ set8LE 24 ++ bytes_of_string "XSDIFF40".

Lemma normal_chunk_failure_ignored_witness :
  normal_chunk (H := abi32) (λ _, 0) 100 list_sink 10 [1; 2] corrupt_patch 0 [] SHA_init =
    Done (0, 24, [], SHA_init).
Proof.
  by apply (normal_chunk_failure_ignored (H := abi32) list_sink (λ _, 0) 100 10 [1; 2]
    corrupt_patch 0 0 [1; 2] 24 (bytes_of_string "XSDIFF40")).
Defined.

(** The bound of a raw chunk is a sum of the width of [ssize_t]: with 32 bits it wraps around for a length of nearly 2 GiB, and the
    chunk is read behind the end of the patch. *)
Lemma raw_length_wraps `{Sha} {T} (sink : T → bytes → Z * T) token ctx :
  raw_chunk (H := abi32) sink [255; 255; 255; 127] 0 token ctx = Fault.
Proof. reflexivity. Qed.
Lemma raw_length_refused `{Sha} {T} (sink : T → bytes → Z * T) token ctx :
  raw_chunk (H := abi64) sink [255; 255; 255; 127] 0 token ctx = Done (-1, 4, token, ctx).
Proof. reflexivity. Qed.
