(* ===== verification/ImgDiff.v ===== *)
(** Making patches for images: [applypatch/imgdiff.c].

    [imgdiff] runs on the host that builds packages.  A file is what [stat] and
    [fread] give, [None] when one of them fails; the calls on the temporary file of
    [MakePatch] and on the patch file succeed.  Blocks of 4 GB and more are outside the
    model.  [filename] is only set where the code sets it; fields that are not
    set yet are 0 and not read. *)
From S2P Require Import Prelude CLib Bytes Bz2 ZlibSha BsPatch BsDiff ImgPatch.

Definition GZIP_HEADER_LEN : Z := 10.
Definition GZIP_FOOTER_LEN : Z := 8.
Definition BUFFER_SIZE : Z := 32768.

(** * Chunks *)

(** A pointer into the copy of the image, or to the start of a block of its own. *)
Inductive Ptr := InImage (off : Z) | Block (block : bytes).

(** [c_source]: [source_start], [source_len] and [source_uncompressed_len];
    [c_deflate]: [deflate_data], an offset into the image, and [deflate_len];
    [c_params]: [level], [method], [windowBits], [memLevel], [strategy]. *)
Record ImageChunk := mkChunk {
  c_type : Z;
  c_start : Z;
  c_len : Z;
  c_data : Ptr;
  c_source : Z * Z * Z;
  c_I : option (list Z);
  c_deflate : option (Z * Z);
  c_filename : option bytes;
  c_params : Z * Z * Z * Z * Z
}.

Definition normal_chunk_of (start len : Z) : ImageChunk :=
  mkChunk CHUNK_NORMAL start len (InImage start) (0, 0, 0) None None None (0, 0, 0, 0, 0).
Definition deflate_chunk_of (start deflate_len : Z) (data : bytes) (filename : option bytes)
    : ImageChunk :=
  mkChunk CHUNK_DEFLATE start (zlen data) (Block data) (0, 0, 0) None (Some (start, deflate_len))
    filename (0, 0, 0, 0, 0).

Definition set_type (t : Z) (c : ImageChunk) : ImageChunk :=
  let '(mkChunk _ a b d s i f n p) := c in mkChunk t a b d s i f n p.
Definition set_data (len : Z) (data : Ptr) (c : ImageChunk) : ImageChunk :=
  let '(mkChunk t a _ _ s i f n p) := c in mkChunk t a len data s i f n p.
Definition set_source (s : Z * Z * Z) (c : ImageChunk) : ImageChunk :=
  let '(mkChunk t a b d _ i f n p) := c in mkChunk t a b d s i f n p.
Definition set_I (i : option (list Z)) (c : ImageChunk) : ImageChunk :=
  let '(mkChunk t a b d s _ f n p) := c in mkChunk t a b d s i f n p.
Definition set_params (p : Z * Z * Z * Z * Z) (c : ImageChunk) : ImageChunk :=
  let '(mkChunk t a b d s i f n _) := c in mkChunk t a b d s i f n p.

(** The [n] bytes behind a pointer. *)
Definition at_ptr (img : bytes) (p : Ptr) (n : Z) : option bytes :=
  match p with InImage off => zslice img off n | Block b => zslice b 0 n end.
Definition chunk_data (img : bytes) (c : ImageChunk) : run bytes :=
  access (at_ptr img (c_data c) (c_len c)).
(** The compressed data of a chunk. *)
Definition deflate_data (img : bytes) (c : ImageChunk) : run bytes :=
  '(off, n) ← access (c_deflate c); access (zslice img off n).

(** The bytes [m] are at [i]; the comparison stops at the first difference. *)
Fixpoint starts_with (m img : bytes) (i : Z) : run bool :=
  match m with
  | [] => mret true
  | x :: m =>
      b ← access (znth img i);
      if decide (b = x) then starts_with m img (i + 1) else mret false
  end.

Section imgdiff.
Context `{Abi} `{Bz2} `{Zlib}.
Context (fresh : nat → Z) (heap : Z).

(** * Zip files *)

Record ZipFileEntry := mkZipEntry {
  data_offset : Z; ze_deflate_len : Z; uncomp_len : Z; ze_filename : bytes
}.
Definition fileentry_compare (a b : ZipFileEntry) : Z :=
  if decide (data_offset a < data_offset b) then -1
  else if decide (data_offset b < data_offset a) then 1 else 0.

(** The search for the end-of-central-directory record, from [i] down: where it
    stops. *)
Fixpoint find_eocd_back (n : nat) (img : bytes) (st_size i : Z) : run Z :=
  if decide (0 ≤ i ∧ st_size - 65600 < i) then
    match n with
    | O => OutOfFuel
    | S n =>
        m ← starts_with [80; 75; 5; 6] img i;
        if (m : bool) then mret i else find_eocd_back n img st_size (i - 1)
    end
  else mret i.

(** The entries of the central directory that are compressed; [n] are left,
    and the next is at [cd]. *)
Fixpoint central_entries (n : nat) (img : bytes) (cd : Z) (acc : list ZipFileEntry)
    : run (option (list ZipFileEntry)) :=
  match n with
  | O => mret (Some acc)
  | S n =>
      m ← starts_with [80; 75; 1; 2] img cd;
      if negb m then mret None else
      clen ← access (Read4 img (cd + 20));
      ulen ← access (Read4 img (cd + 24));
      nlen ← access (Read2 img (cd + 28));
      xlen ← access (Read2 img (cd + 30));
      mlen ← access (Read2 img (cd + 32));
      hoffset ← access (Read4 img (cd + 42));
      filename ← access (zslice img (cd + 46) nlen);
      method ← access (Read2 img (cd + 10));
      let cd := cd + 46 + nlen + xlen + mlen in
      if decide (method ≠ 8) then central_entries n img cd acc else
      let lh := hoffset in
      m ← starts_with [80; 75; 3; 4] img lh;
      if negb m then mret None else
      lnlen ← access (Read2 img (lh + 26));
      same ← (if decide (lnlen ≠ nlen) then mret false else
              name ← access (zslice img (lh + 30) nlen);
              mret (bool_decide (memcmp name filename = 0)));
      if negb same then mret None else
      xlen ← access (Read2 img (lh + 28));
      central_entries n img cd
        (acc ++ [mkZipEntry (s32 (hoffset + 30 + nlen + xlen)) clen ulen filename])
  end.

(** The chunk of a compressed entry at [pos]; [None] when it cannot be
    inflated. *)
Definition zip_deflate_chunk (img : bytes) (pos : Z) (e : ZipFileEntry) : run (option ImageChunk) :=
  let len := size_t (uncomp_len e) in
  input ← access (zslice img pos (u32 (ze_deflate_len e)));
  if decide (heap < len) then mret None else
  let '(_, strm) := inflate_start in
  let '(ret, out, _, _) := inflate strm input (u32 len) in
  if decide (ret ≠ Z_STREAM_END) then mret None else
  data ← access (store (map fresh (seq 0 (Z.to_nat len))) 0 out);
  mret (Some (deflate_chunk_of pos (size_t (ze_deflate_len e)) data (Some (ze_filename e)))).

(** The loop that makes the chunks, in the order of the file. *)
Fixpoint zip_chunks (fuel : nat) (img : bytes) (st_size pos : Z) (entries : list ZipFileEntry)
    (acc : list ImageChunk) : run (option (list ImageChunk)) :=
  if decide (pos < st_size) then
    match fuel with
    | O => OutOfFuel
    | S fuel =>
        match entries with
        | [] =>
            let len := size_t (st_size - pos) in
            zip_chunks fuel img st_size (s32 (pos + len)) [] (acc ++ [normal_chunk_of pos len])
        | e :: rest =>
            if decide (pos = data_offset e) then
              c ← zip_deflate_chunk img pos e;
              match c with
              | None => mret None
              | Some c => zip_chunks fuel img st_size (s32 (pos + size_t (ze_deflate_len e))) rest (acc ++ [c])
              end
            else
              let len := size_t (data_offset e - pos) in
              zip_chunks fuel img st_size (s32 (pos + len)) entries (acc ++ [normal_chunk_of pos len])
        end
    end
  else mret (Some acc).

Definition pseudo_chunk (st_size : Z) : ImageChunk := normal_chunk_of 0 st_size.

(** The copy of the file and the chunks. *)
Definition ReadZip (file : option bytes) (include_pseudo_chunk : bool)
    : run (option (bytes * list ImageChunk)) :=
  match file with
  | None => mret None
  | Some img =>
      let st_size := zlen img in
      let i := s32 (st_size - 20) in
      i ← find_eocd_back (S (Z.to_nat i)) img st_size i;
      ok ← starts_with [0; 0; 0; 0] img (i + 4);
      if negb ok then mret None else
      cdcount ← access (Read2 img (i + 8));
      cdoffset ← access (Read4 img (i + 16));
      entries ← central_entries (Z.to_nat cdcount) img cdoffset [];
      match entries with
      | None => mret None
      | Some entries =>
          let entries := qsort fileentry_compare entries in
          chunks ← zip_chunks (2 * length entries + 2) img st_size 0 entries
            (if include_pseudo_chunk then [pseudo_chunk st_size] else []);
          match chunks with Some cs => mret (Some (img, cs)) | None => mret None end
      end
  end.

(** * Images with gzip members *)

Definition GZIP_MAGIC : bytes := [31; 139; 8; 0].

(** The loop that inflates a member: the data and the input left. *)
Fixpoint inflate_member (fuel : nat) (strm : z_stream) (input : bytes) (allocated : Z) (data : bytes)
    : run (bytes * bytes) :=
  match fuel with
  | O => OutOfFuel
  | S fuel =>
      if decide (UINT_MAX < allocated) then Fault else
      let avail_out := allocated - zlen data in
      let '(ret, out, used, strm) := inflate strm input avail_out in
      let input := drop (Z.to_nat used) input in
      let data := data ++ out in
      let allocated := if decide (avail_out - zlen out = 0) then allocated * 2 else allocated in
      if decide (ret ≠ Z_STREAM_END) then inflate_member fuel strm input allocated data
      else mret (data, input)
  end.

(** The length of the normal chunk at [pos], at least [n]: up to the next
    gzip header. *)
Fixpoint scan_normal (fuel : nat) (img : bytes) (st_size pos n : Z) : run Z :=
  if decide (n < st_size - pos) then
    match fuel with
    | O => OutOfFuel
    | S fuel =>
        m ← starts_with GZIP_MAGIC img (pos + n);
        if (m : bool) then mret n else scan_normal fuel img st_size pos (n + 1)
    end
  else mret n.

(** The three chunks of the gzip member at [pos] and the position behind it;
    [None] when its footer does not tell the size. *)
Definition gzip_member (fuel : nat) (img : bytes) (st_size pos : Z)
    : run (option (list ImageChunk * Z)) :=
  let header := normal_chunk_of pos GZIP_HEADER_LEN in
  let pos := pos + GZIP_HEADER_LEN in
  input ← access (zslice img pos (u32 (st_size - pos)));
  let '(_, strm) := inflate_start in
  '(data, unused) ← inflate_member fuel strm input 32768 [];
  let deflate_len := size_t (st_size - zlen unused - pos) in
  let body := deflate_chunk_of pos deflate_len data None in
  let pos := pos + deflate_len in
  let footer := normal_chunk_of pos GZIP_FOOTER_LEN in
  let pos := pos + GZIP_FOOTER_LEN in
  footer_size ← access (Read4 img (pos - 4));
  if decide (size_t footer_size ≠ zlen data) then mret None
  else mret (Some ([header; body; footer], pos)).

Fixpoint image_chunks (fuel : nat) (img : bytes) (st_size pos : Z) (acc : list ImageChunk)
    : run (option (list ImageChunk)) :=
  if decide (pos < st_size) then
    match fuel with
    | O => OutOfFuel
    | S fuel =>
        gz ← (if decide (4 ≤ st_size - pos) then starts_with GZIP_MAGIC img pos else mret false);
        if (gz : bool) then
          member ← gzip_member (S fuel) img st_size pos;
          match member with
          | None => mret None
          | Some (cs, pos) => image_chunks fuel img st_size pos (acc ++ cs)
          end
        else
          len ← scan_normal (Z.to_nat (st_size - pos)) img st_size pos 0;
          image_chunks fuel img st_size (pos + len) (acc ++ [normal_chunk_of pos len])
    end
  else mret (Some acc).

(** The copy of the file, with four zero bytes behind it, and the chunks. *)
Definition ReadImage (fuel : nat) (file : option bytes)
    : run (option (bytes * list ImageChunk)) :=
  match file with
  | None => mret None
  | Some d =>
      let img := d ++ replicate 4 0 in
      chunks ← image_chunks fuel img (zlen d) 0 [];
      match chunks with Some cs => mret (Some (img, cs)) | None => mret None end
  end.

(** * Chunks that can be made again *)

(** The loop that compares what [deflate] produces with the data at [off]; the
    number of bytes when all are the same. *)
Fixpoint reconstruct_loop (fuel : nat) (img : bytes) (off : Z) (strm : d_stream) (p : Z)
    : run (option Z) :=
  match fuel with
  | O => OutOfFuel
  | S fuel =>
      let '(ret, out, strm) := deflate strm BUFFER_SIZE in
      orig ← access (zslice img (off + p) (zlen out));
      if decide (memcmp out orig ≠ 0) then mret None else
      let p := p + zlen out in
      if decide (ret ≠ Z_STREAM_END) then reconstruct_loop fuel img off strm p
      else mret (Some p)
  end.

Definition TryReconstruction (fuel : nat) (img : bytes) (chunk : ImageChunk) : run Z :=
  let '(level, method, windowBits, memLevel, strategy) := c_params chunk in
  data ← chunk_data img chunk;
  '(off, deflate_len) ← access (c_deflate chunk);
  p ← reconstruct_loop fuel img off
        (deflate_start level method windowBits memLevel strategy data) 0;
  mret (if decide (p = Some deflate_len) then 0 else -1).

Definition params_of (level : Z) : Z * Z * Z * Z * Z := (level, 8, -15, 8, 0).

(** The result and the chunk with its parameters. *)
Definition ReconstructDeflateChunk (fuel : nat) (img : bytes) (chunk : ImageChunk)
    : run (Z * ImageChunk) :=
  if decide (c_type chunk ≠ CHUNK_DEFLATE) then mret (-1, chunk) else
  let chunk := set_params (params_of 6) chunk in
  r ← TryReconstruction fuel img chunk;
  if decide (r = 0) then mret (0, chunk) else
  let chunk := set_params (params_of 9) chunk in
  r ← TryReconstruction fuel img chunk;
  if decide (r = 0) then mret (0, chunk) else
  mret (-1, set_params (params_of 12) chunk).

Definition ChangeDeflateChunkToNormal (ch : ImageChunk) : run ImageChunk :=
  if decide (c_type ch ≠ CHUNK_DEFLATE) then mret ch else
  '(off, n) ← access (c_deflate ch);
  mret (set_data n (InImage off) (set_type CHUNK_NORMAL ch)).

Definition AreChunksEqual (img_a img_b : bytes) (a b : ImageChunk) : run bool :=
  if decide (c_type a ≠ c_type b) then mret false
  else if decide (c_type a = CHUNK_NORMAL) then
    if decide (c_len a ≠ c_len b) then mret false else
    x ← chunk_data img_a a; y ← chunk_data img_b b;
    mret (bool_decide (memcmp x y = 0))
  else if decide (c_type a = CHUNK_DEFLATE) then
    if decide (snd <$> c_deflate a ≠ snd <$> c_deflate b) then mret false else
    x ← deflate_data img_a a; y ← deflate_data img_b b;
    mret (bool_decide (memcmp x y = 0))
  else mret false.

(** * Merging chunks *)

(** [b] begins where [a] ends, in the file and in memory. *)
Definition adjacent (a b : ImageChunk) : bool :=
  bool_decide (c_start b = size_t (c_start a + c_len a)) &&
  match c_data a, c_data b with
  | InImage x, InImage y => bool_decide (y = size_t (x + c_len a))
  | _, _ => false
  end.

(** The run of normal chunks after [last]: its last chunk and what follows. *)
Fixpoint normal_run (last : ImageChunk) (chunks : list ImageChunk) : ImageChunk * list ImageChunk :=
  match chunks with
  | c :: rest =>
      if decide (c_type c = CHUNK_NORMAL ∧ adjacent last c = true) then normal_run c rest
      else (last, chunks)
  | [] => (last, [])
  end.

(** The array with the runs merged, each into its first chunk. *)
Fixpoint merge_runs (fuel : nat) (chunks : list ImageChunk) : list ImageChunk :=
  match fuel, chunks with
  | S fuel, c :: rest =>
      if decide (c_type c ≠ CHUNK_NORMAL) then c :: merge_runs fuel rest else
      let '(last, rest') := normal_run c rest in
      (if decide (length rest' = length rest) then c
       else set_data (size_t (c_len last + size_t (c_start last - c_start c))) (c_data c) c)
      :: merge_runs fuel rest'
  | _, _ => []
  end.
Definition MergeAdjacentNormalChunks (chunks : list ImageChunk) : list ImageChunk :=
  merge_runs (length chunks) chunks.

(** * The patch of a chunk *)

(** The index of the compressed chunk with this name. *)
Definition FindChunkByName (name : bytes) (chunks : list ImageChunk) : option nat :=
  fst <$> list_find (λ c, c_type c = CHUNK_DEFLATE ∧
    c_string <$> c_filename c = Some (c_string name)) chunks.

Definition as_raw (img : bytes) (tgt : ImageChunk) : run (bytes * ImageChunk) :=
  d ← chunk_data img tgt; mret (d, set_type CHUNK_RAW tgt).

(** The patch data and the changed chunks; [None] when [bsdiff] ends the program. *)
Definition MakePatch (fuel : nat) (img_s img_t : bytes) (src tgt : ImageChunk)
    : run (option (bytes * ImageChunk * ImageChunk)) :=
  if decide (c_type tgt = CHUNK_NORMAL ∧ c_len tgt ≤ 160) then
    '(d, tgt) ← as_raw img_t tgt; mret (Some (d, src, tgt))
  else
  old ← chunk_data img_s src;
  new ← chunk_data img_t tgt;
  '(sa, patch) ← bsdiff fuel fresh (c_I src) old new;
  let src := set_I (Some sa) src in
  match patch with
  | None => mret None
  | Some patch =>
      if decide (c_type tgt = CHUNK_NORMAL ∧ c_len tgt ≤ zlen patch) then
        '(d, tgt) ← as_raw img_t tgt; mret (Some (d, src, tgt))
      else if decide (c_type tgt = CHUNK_NORMAL) then
        mret (Some (patch, src, set_source (c_start src, c_len src, 0) tgt))
      else if decide (c_type tgt = CHUNK_DEFLATE) then
        '(_, n) ← access (c_deflate src);
        mret (Some (patch, src, set_source (c_start src, n, c_len src) tgt))
      else mret (Some (patch, src, tgt))
  end.

(** * The program *)

(** The counterpart of the chunk [t] of a zip file, if there is one. *)
Definition find_source (name : option bytes) (src : list ImageChunk) : run (option nat) :=
  name ← access name; mret (FindChunkByName name src).
Definition change_at (src : list ImageChunk) (i : nat) : run (list ImageChunk) :=
  c ← access (src !! i); c ← ChangeDeflateChunkToNormal c; mret (<[i := c]> src).

(** The loop over the chunks of the target, from [i], that turns the compressed ones it
    cannot make again, and those that have not changed, into normal ones; [n] are
    left. *)
Fixpoint normalize (n fuel : nat) (zip_mode : bool) (img_s img_t : bytes) (i : nat)
    (src tgt : list ImageChunk) : run (list ImageChunk * list ImageChunk) :=
  match n with
  | O => mret (src, tgt)
  | S n =>
      t ← access (tgt !! i);
      if decide (c_type t ≠ CHUNK_DEFLATE) then normalize n fuel zip_mode img_s img_t (S i) src tgt
      else
      '(r, t) ← ReconstructDeflateChunk fuel img_t t;
      if decide (r < 0) then
        t' ← ChangeDeflateChunkToNormal t;
        j ← (if zip_mode then find_source (c_filename t) src else mret (Some i));
        src ← (match j with Some j => change_at src j | None => mret src end);
        normalize n fuel zip_mode img_s img_t (S i) src (<[i := t']> tgt)
      else
        j ← (if zip_mode then find_source (c_filename t) src else mret (Some i));
        '(src, t) ←
          (match j with
           | None => t' ← ChangeDeflateChunkToNormal t; mret (src, t')
           | Some j =>
               s ← access (src !! j);
               eq ← AreChunksEqual img_t img_s t s;
               if (eq : bool) then
                 t' ← ChangeDeflateChunkToNormal t;
                 src ← change_at src j;
                 mret (src, t')
               else mret (src, t)
           end);
        normalize n fuel zip_mode img_s img_t (S i) src (<[i := t]> tgt)
  end.

(** [realloc] of a block to append the bonus data. *)
Definition append_bonus (bonus : bytes) (c : ImageChunk) : run ImageChunk :=
  match c_data c with
  | InImage _ => Fault
  | Block b => mret (set_data (c_len c + zlen bonus) (Block (b ++ bonus)) c)
  end.

(** The loop that makes the patches: the chunks of the target with their patch data;
    [None] when the program ends. *)
Fixpoint make_patches (fuel : nat) (zip_mode : bool) (bonus : option bytes) (img_s img_t : bytes)
    (i : nat) (src tgt : list ImageChunk) : run (option (list (ImageChunk * bytes))) :=
  match tgt with
  | [] => mret (Some [])
  | t :: tgt =>
      j ← (if zip_mode then
             (if decide (c_type t = CHUNK_DEFLATE) then
                j ← find_source (c_filename t) src; mret (default O j)
              else mret O)
           else mret i);
      s ← access (src !! j);
      s ← (match bonus with
           | Some b => if decide (zip_mode = false ∧ i = 1%nat) then append_bonus b s else mret s
           | None => mret s
           end);
      p ← MakePatch fuel img_s img_t s t;
      match p with
      | None => mret None
      | Some (d, s, t) =>
          rest ← make_patches fuel zip_mode bonus img_s img_t (S i) (<[j := s]> src) tgt;
          match rest with Some rest => mret (Some ((t, d) :: rest)) | None => mret None end
      end
  end.

(** The size of the record of a chunk in the header. *)
Definition header_size (p : ImageChunk * bytes) : Z :=
  4 + (if decide (c_type p.1 = CHUNK_NORMAL) then 8 * 3
       else if decide (c_type p.1 = CHUNK_DEFLATE) then 8 * 5 + 4 * 5
       else if decide (c_type p.1 = CHUNK_RAW) then 4 + zlen p.2 else 0).
Definition total_header_size (ps : list (ImageChunk * bytes)) : Z :=
  foldl (λ n p, size_t (n + header_size p)) 12 ps.

(** The records, and the patches that follow them; [offset] is where the next
    patch will be. *)
Fixpoint write_headers (offset : Z) (ps : list (ImageChunk * bytes)) : bytes :=
  match ps with
  | [] => []
  | (c, d) :: ps =>
      let '(source_start, source_len, source_uncompressed_len) := c_source c in
      let '(level, method, windowBits, memLevel, strategy) := c_params c in
      Write4 (c_type c) ++
      (if decide (c_type c = CHUNK_NORMAL) then
         Write8 source_start ++ Write8 source_len ++ Write8 offset ++
         write_headers (size_t (offset + zlen d)) ps
       else if decide (c_type c = CHUNK_DEFLATE) then
         Write8 source_start ++ Write8 source_len ++ Write8 offset ++
         Write8 source_uncompressed_len ++ Write8 (c_len c) ++
         Write4 level ++ Write4 method ++ Write4 windowBits ++ Write4 memLevel ++ Write4 strategy ++
         write_headers (size_t (offset + zlen d)) ps
       else if decide (c_type c = CHUNK_RAW) then
         Write4 (zlen d) ++ d ++ write_headers offset ps
       else write_headers offset ps)
  end.
Definition write_patches (ps : list (ImageChunk * bytes)) : bytes :=
  mjoin (map (λ p, if decide (c_type p.1 ≠ CHUNK_RAW) then p.2 else []) ps).
Definition patch_file_of (ps : list (ImageChunk * bytes)) : bytes :=
  IMGDIFF_MAGIC ++ Write4 (zlen ps) ++ write_headers (total_header_size ps) ps ++ write_patches ps.

(** From the chunks of the two files to the patch file, and the exit code. *)
Definition diff_chunks (fuel : nat) (zip_mode : bool) (bonus : option bytes) (img_s img_t : bytes)
    (src tgt : list ImageChunk) : run (Z * option bytes) :=
  '(src, tgt) ← normalize (length tgt) fuel zip_mode img_s img_t 0 src tgt;
  let tgt := MergeAdjacentNormalChunks tgt in
  let src := if zip_mode then src else MergeAdjacentNormalChunks src in
  if decide (zip_mode = false ∧ length src ≠ length tgt) then mret (1, None) else
  ps ← make_patches fuel zip_mode bonus img_s img_t 0 src tgt;
  match ps with
  | None => mret (1, None)
  | Some ps => mret (0, Some (patch_file_of ps))
  end.

Definition diff_images (fuel : nat) (bonus : option bytes) (src tgt : option bytes)
    : run (Z * option bytes) :=
  s ← ReadImage fuel src;
  match s with
  | None => mret (1, None)
  | Some (img_s, src) =>
      t ← ReadImage fuel tgt;
      match t with
      | None => mret (1, None)
      | Some (img_t, tgt) =>
          let tgt := MergeAdjacentNormalChunks tgt in
          let src := MergeAdjacentNormalChunks src in
          if decide (c_type <$> src ≠ c_type <$> tgt) then mret (1, None) else
          diff_chunks fuel false bonus img_s img_t src tgt
      end
  end.

Definition diff_zips (fuel : nat) (bonus : option bytes) (src tgt : option bytes)
    : run (Z * option bytes) :=
  s ← ReadZip src true;
  match s with
  | None => mret (1, None)
  | Some (img_s, src) =>
      t ← ReadZip tgt false;
      match t with
      | None => mret (1, None)
      | Some (img_t, tgt) => diff_chunks fuel true bonus img_s img_t src tgt
      end
  end.

(** [main]: the exit code, and what is written to the patch file.  The check that the two images have
    the same chunks compares first their number and then their types. *)
Definition main (fuel : nat) (files : string → option bytes) (argv : list string)
    : run (Z * option bytes) :=
  let zip_mode := bool_decide (argv !! 1%nat = Some "-z"%string) in
  let argv := if zip_mode then tail argv else argv in
  let has_bonus := bool_decide (3 ≤ length argv ∧ argv !! 1%nat = Some "-b"%string)%nat in
  let bonus := if has_bonus then argv !! 2%nat ≫= files else None in
  if has_bonus && bool_decide (bonus = None) then mret (1, None) else
  match (if has_bonus then drop 2 argv else argv) with
  | [_; src; tgt; _] =>
      if zip_mode then diff_zips fuel bonus (files src) (files tgt)
      else diff_images fuel bonus (files src) (files tgt)
  | _ => mret (2, None)
  end.
End imgdiff.
