(* ===== verification/ImgRoundTrip.v ===== *)
(** What [imgdiff] makes, [applypatch] applies: the chunks of an image cover it, the
    passes of [ImgDiff] keep that, and the patch file it writes describes the target in the sense of
    [ImgPatch.image_patch]. *)
From S2P Require Import Prelude CLib Bytes Bz2 ZlibSha BsPatch BsDiff SufSort ImgPatch ImgDiff.

(** The bytes of the file a chunk stands for. *)
Definition raw_len (c : ImageChunk) : Z :=
  if decide (c_type c = CHUNK_NORMAL) then c_len c else default 0 (snd <$> c_deflate c).

Lemma normal_not_deflate c : c_type c = CHUNK_NORMAL → c_type c = CHUNK_DEFLATE → False.
Proof. by intros ->. Qed.

Section chunks.
Context `{Abi} `{Zlib}.
Hypothesis host : long_bits = 64.
Context (Q : bytes → bytes → Prop) (img : bytes).

(** A normal chunk is a part of the image; a compressed one holds data that its
    part of the image, by [Q], is the compressed form of. *)
Definition holds_deflate (c : ImageChunk) : Prop :=
  ∃ d n z, c_data c = Block d ∧ c_len c = zlen d ∧ zlen d ≤ INT_MAX ∧ is_bytes d ∧
    c_deflate c = Some (c_start c, n) ∧ zslice img (c_start c) n = Some z ∧ Q z d.
Definition sound (c : ImageChunk) : Prop :=
  c_I c = None ∧
  (c_type c = CHUNK_NORMAL ∧ c_data c = InImage (c_start c) ∨
   c_type c = CHUNK_DEFLATE ∧ holds_deflate c).

(** The chunks from the position [a] to [b], one behind the other; positions are
    [size_t] numbers. *)
Fixpoint chain (a : Z) (cs : list ImageChunk) (b : Z) : Prop :=
  match cs with
  | [] => a = b
  | c :: cs => c_start c = a ∧ sound c ∧ chain (size_t (a + raw_len c)) cs b
  end.

Lemma chain_app a cs b ds e : chain a cs b → chain b ds e → chain a (cs ++ ds) e.
Proof.
  revert a. induction cs as [|c cs IH]; intros a; [by intros ->|].
  intros (? & ? & ?) ?. split_and!; try done. by eapply IH.
Qed.
Lemma chain_sound a cs b : chain a cs b → Forall sound cs.
Proof. revert a. induction cs as [|c cs IH]; intros a; [constructor|]. intros (_ & ? & ?). constructor; eauto. Qed.

Lemma size_t_add a b : size_t (size_t a + b) = size_t (a + b).
Proof. unfold size_t, wrap_u. by rewrite Z.add_mod_idemp_l by (rewrite host; lia). Qed.
Lemma size_t_add_r a b : size_t (a + size_t b) = size_t (a + b).
Proof. rewrite Z.add_comm, size_t_add. f_equal. lia. Qed.

Lemma normal_chunk_sound start len : sound (normal_chunk_of start len).
Proof. split; [done|]. by left. Qed.
Lemma raw_len_normal c : c_type c = CHUNK_NORMAL → raw_len c = c_len c.
Proof. intros E. unfold raw_len. by rewrite decide_True. Qed.

(** ** Merging *)
Lemma adjacent_chain a c d cs b : chain a (c :: d :: cs) b →
  c_type c = CHUNK_NORMAL → c_type d = CHUNK_NORMAL → adjacent c d = true.
Proof.
  intros (Ec & [_ [[_ Hc]|[? _]]] & Ed & [_ [[_ Hd]|[? _]]] & _) Tc Td;
    try (exfalso; by eauto using normal_not_deflate).
  rewrite raw_len_normal in Ed by done. unfold adjacent. rewrite Hc, Hd.
  by rewrite !bool_decide_true by (by rewrite Ed, Ec).
Qed.

(** The run behind [c]: it ends where the rest begins. *)
Lemma normal_run_ok a c cs b : chain a (c :: cs) b → c_type c = CHUNK_NORMAL →
  let '(last, rest) := normal_run c cs in
  c_type last = CHUNK_NORMAL ∧ (length rest ≤ length cs)%nat ∧
  (length rest = length cs → last = c ∧ rest = cs) ∧
  chain (size_t (c_start last + c_len last)) rest b ∧
  ∃ k, cs = k ++ rest ∧ Forall (λ d, c_type d = CHUNK_NORMAL) k ∧ last ∈ c :: k.
Proof.
  revert a c. induction cs as [|d cs IH]; intros a c Hc Tc; cbn [normal_run].
  - destruct Hc as (Ec & _ & Hb). cbn in Hb. rewrite raw_len_normal in Hb by done. subst a b.
    split_and!; try done. exists []. split_and!; [done|constructor|by left].
  - case_decide as Hd.
    + destruct Hd as [Td _]. destruct Hc as (Ec & _ & Hc). specialize (IH _ d Hc Td).
      destruct (normal_run d cs) as [last rest].
      destruct IH as (? & ? & _ & ? & k & -> & ? & ?). simpl. split_and!; [done|lia|lia|done|].
      exists (d :: k). split_and!; [done|by constructor|by right].
    + destruct Hc as (Ec & _ & Hc). rewrite raw_len_normal in Hc by done. subst a.
      split_and!; try done. exists []. split_and!; [done|constructor|by left].
Qed.

Lemma merge_runs_chain fuel a cs b : 0 ≤ a < 2 ^ 64 → (length cs ≤ fuel)%nat →
  chain a cs b → chain a (merge_runs fuel cs) b.
Proof.
  revert a cs. induction fuel as [|fuel IH]; intros a cs Ha Hf Hc.
  { by destruct cs; [|simpl in Hf; lia]. }
  assert (∀ z, 0 ≤ size_t z < 2 ^ 64) as Hs
    by (intros z; unfold size_t, wrap_u; rewrite host; apply Z.mod_pos_bound; lia).
  destruct cs as [|c cs]; [done|]. cbn [merge_runs]. simpl in Hf. case_decide as Tc.
  - destruct Hc as (Ec & Hsc & Hc). split_and!; try done. apply IH; [apply Hs|lia|done].
  - pose proof (normal_run_ok a c cs b Hc Tc) as Hr.
    destruct (normal_run c cs) as [last rest]. destruct Hr as (Tl & Hl & He & Hrest & _).
    destruct Hc as (Ec & [HI Hsc] & Hc).
    assert (c_data c = InImage (c_start c)) as Hd by (destruct Hsc as [[_ ?]|[? _]]; [done|exfalso; by eauto using normal_not_deflate]).
    case_decide as Hlen.
    + destruct (He Hlen) as [-> ->]. split_and!; [done|split; [done|by left]|].
      apply IH; [apply Hs|lia|]. rewrite raw_len_normal, <- Ec by done. done.
    + split_and!.
      * by destruct c.
      * split; [by destruct c|]. left. by destruct c.
      * apply IH; [apply Hs|lia|]. rewrite raw_len_normal by (by destruct c).
        replace (size_t _) with (size_t (c_start last + c_len last)); [done|].
        replace (c_len (set_data _ _ c)) with (size_t (c_len last + size_t (c_start last - c_start c)))
          by (by destruct c).
        rewrite size_t_add_r, Z.add_assoc, size_t_add_r. f_equal. lia.
Qed.
Lemma merge_chain a cs b : 0 ≤ a < 2 ^ 64 → chain a cs b →
  chain a (MergeAdjacentNormalChunks cs) b.
Proof. intros. by apply merge_runs_chain. Qed.

(** The kinds of the merged chunks depend on the kinds alone. *)
Fixpoint drop_normal (ts : list Z) : list Z :=
  match ts with
  | t :: rest => if decide (t = CHUNK_NORMAL) then drop_normal rest else ts
  | [] => []
  end.
Fixpoint type_runs (fuel : nat) (ts : list Z) : list Z :=
  match fuel, ts with
  | S fuel, t :: ts =>
      t :: type_runs fuel (if decide (t ≠ CHUNK_NORMAL) then ts else drop_normal ts)
  | _, _ => []
  end.
Lemma normal_run_types a c cs b : chain a (c :: cs) b → c_type c = CHUNK_NORMAL →
  c_type <$> (normal_run c cs).2 = drop_normal (c_type <$> cs).
Proof.
  revert a c. induction cs as [|d cs IH]; intros a c Hc Tc; [done|].
  cbn [normal_run fmap list_fmap drop_normal]. destruct (decide (c_type d = CHUNK_NORMAL)) as [Td|Td].
  - rewrite decide_True by (split; [done|by apply (adjacent_chain a c d cs b)]).
    destruct Hc as (_ & _ & Hc). by eapply IH.
  - by rewrite decide_False by (by intros [? _]).
Qed.
Lemma merge_runs_types fuel a cs b : chain a cs b → (length cs ≤ fuel)%nat →
  c_type <$> merge_runs fuel cs = type_runs fuel (c_type <$> cs).
Proof.
  revert a cs. induction fuel as [|fuel IH]; intros a cs Hc Hf; [done|].
  destruct cs as [|c cs]; [done|]. cbn [merge_runs fmap list_fmap type_runs]. simpl in Hf.
  case_decide as Tc.
  - cbn [fmap list_fmap]. f_equal. destruct Hc as (_ & _ & Hc). eapply IH; [done|lia].
  - pose proof (normal_run_types a c cs b Hc Tc) as Ht. pose proof (normal_run_ok a c cs b Hc Tc) as Hr.
    destruct (normal_run c cs) as [last rest]. destruct Hr as (Tl & Hl & _ & Hrest & _).
    cbn [fmap list_fmap]. f_equal; [case_decide; by destruct c|].
    rewrite <- Ht. eapply IH; [done|simpl; lia].
Qed.
(** ** Chunks inside the file *)
Definition inside (e : Z) (c : ImageChunk) : Prop :=
  0 ≤ c_start c ∧ 0 ≤ raw_len c ∧ c_start c + raw_len c ≤ e.
Lemma inside_weaken e e' c : e ≤ e' → inside e c → inside e' c.
Proof. unfold inside. lia. Qed.

Lemma normal_run_inside e a c cs b : e < 2 ^ 63 → chain a (c :: cs) b → c_type c = CHUNK_NORMAL →
  Forall (inside e) (c :: cs) →
  c_start c ≤ c_start (normal_run c cs).1 ∧ inside e (normal_run c cs).1 ∧
  Forall (inside e) (normal_run c cs).2.
Proof.
  intros He. revert a c. induction cs as [|d cs IH]; intros a c Hc Tc [Ic Is]%Forall_cons;
    cbn [normal_run]; [done|].
  case_decide as Hd; [|done]. destruct Hd as [Td _]. destruct Hc as (Ec & _ & Hc).
  destruct (IH _ d Hc Td Is) as (? & ? & ?). split_and!; try done.
  destruct Hc as (Ed & _). destruct Ic as (? & ? & ?). subst a.
  unfold size_t in Ed. rewrite wrap_u_id in Ed by (unfold in_u; rewrite host; lia). lia.
Qed.
Lemma merge_runs_inside e fuel a cs b : e < 2 ^ 63 → chain a cs b → Forall (inside e) cs →
  Forall (inside e) (merge_runs fuel cs).
Proof.
  intros He. revert a cs. induction fuel as [|fuel IH]; intros a cs Hc Hi; [constructor|].
  destruct cs as [|c cs]; [constructor|]. cbn [merge_runs]. case_decide as Tc.
  - apply Forall_cons in Hi as [? ?]. constructor; [done|]. destruct Hc as (_ & _ & Hc). by eapply IH.
  - pose proof (normal_run_inside e a c cs b He Hc Tc Hi) as Hr.
    pose proof (normal_run_ok a c cs b Hc Tc) as Hk. apply Forall_cons in Hi as [Ic Is].
    destruct (normal_run c cs) as [last rest]. cbn [fst snd] in Hr. destruct Hr as (Hle & Il & Ir).
    destruct Hk as (Tl & _ & _ & Hrest & _). constructor; [|by eapply IH].
    case_decide; [done|]. unfold inside in *.
    rewrite (raw_len_normal (set_data _ _ _)) by (by destruct c). rewrite raw_len_normal in Il by done.
    replace (c_len (set_data _ _ c)) with (size_t (c_len last + size_t (c_start last - c_start c)))
      by (by destruct c).
    replace (c_start (set_data _ _ c)) with (c_start c) by (by destruct c).
    rewrite size_t_add_r. unfold size_t. rewrite wrap_u_id by (unfold in_u; rewrite host; lia). lia.
Qed.
Lemma merge_inside e a cs b : e < 2 ^ 63 → chain a cs b → Forall (inside e) cs →
  Forall (inside e) (MergeAdjacentNormalChunks cs).
Proof. apply merge_runs_inside. Qed.
End chunks.

Lemma merge_forall `{Abi} (P : ImageChunk → Prop) cs : Forall P cs → (∀ c, c_type c = CHUNK_NORMAL → P c) →
  Forall P (MergeAdjacentNormalChunks cs).
Proof.
  intros HP Hn. unfold MergeAdjacentNormalChunks. generalize (length cs). intros fuel.
  revert cs HP. induction fuel as [|fuel IH]; intros cs HP; [constructor|].
  destruct cs as [|c cs]; [constructor|]. apply Forall_cons in HP as [Hc HP]. cbn [merge_runs].
  case_decide as Tc; [constructor; auto|].
  assert (Forall P (normal_run c cs).2) as Hrest.
  { clear -HP. revert c. induction HP as [|d cs Hd HP IH]; intros c; cbn [normal_run]; [constructor|].
    case_decide; [apply IH|by constructor]. }
  destruct (normal_run c cs) as [last rest]. constructor; [|by apply IH].
  apply Hn. case_decide; [done|by destruct c].
Qed.
Lemma merge_types `{Abi} Q img a cs b Q' img' a' cs' b' :
  chain Q img a cs b → chain Q' img' a' cs' b' → c_type <$> cs = c_type <$> cs' →
  c_type <$> MergeAdjacentNormalChunks cs = c_type <$> MergeAdjacentNormalChunks cs'.
Proof.
  intros Hc Hc' E. unfold MergeAdjacentNormalChunks.
  rewrite (merge_runs_types _ _ _ _ _ _ Hc), (merge_runs_types _ _ _ _ _ _ Hc') by done.
  rewrite <- E. f_equal. apply (f_equal length) in E. by rewrite !length_fmap in E.
Qed.

(** * Reading images *)
Section read_image.
Context `{Abi} `{Z1 : Zlib} `{!InflateLaws Z1} `{!InflateSound Z1}.
Hypothesis host : long_bits = 64.

Definition member (z d : bytes) : Prop := inflates inflate_start.2 z d.

Lemma size_t_small z : 0 ≤ z < 2 ^ 63 → size_t z = z.
Proof. intros. unfold size_t. rewrite wrap_u_id; [done|]. unfold in_u. rewrite host. lia. Qed.

Lemma inflate_member_ok fuel s input allocated data data' unused :
  inflate_member fuel s input allocated data = Done (data', unused) → zlen data ≤ allocated →
  ∃ out used, data' = data ++ out ∧ input = used ++ unused ∧ inflates s used out ∧
    zlen data' ≤ UINT_MAX ∧ (is_bytes input → is_bytes out).
Proof.
  revert s input allocated data. induction fuel as [|fuel IH]; intros s input allocated data E Hd; [done|].
  cbn [inflate_member] in E. case_decide as Ha; [done|].
  destruct (inflate s input (allocated - zlen data)) as [[[ret out] used] s'] eqn:Ei.
  pose proof (inflate_step _ _ _ _ _ _ _ Ei ltac:(lia)) as (Hu & Ho & Hb & Hend & Hstep).
  assert (take (Z.to_nat used) input ++ drop (Z.to_nat used) input = input) as Hin by apply take_drop.
  case_decide as Hr.
  - apply IH in E as (out' & used' & -> & Hs & Hi & Hl & Hb').
    2: { rewrite zlen_app. pose proof (zlen_nonneg data). case_decide; lia. }
    exists (out ++ out'), (take (Z.to_nat used) input ++ used').
    split_and!; [by rewrite app_assoc| |by apply Hstep|done|].
    + by rewrite <- app_assoc, <- Hs.
    + intros Hbi. apply Forall_app. split; [by apply Hb|]. apply Hb'.
      rewrite <- Hin in Hbi. by apply Forall_app in Hbi as [_ ?].
  - injection E as <- <-. exists out, (take (Z.to_nat used) input).
    split_and!; [done|done|by apply Hend| |done]. rewrite zlen_app. lia.
Qed.

Lemma gzip_member_ok fuel d pos cs pos' : let img := d ++ replicate 4 0 in
  gzip_member fuel img (zlen d) pos = Done (Some (cs, pos')) → is_bytes d → zlen d ≤ INT_MAX →
  0 ≤ pos → pos ≤ zlen d →
  chain member img pos cs pos' ∧ Forall (inside pos') cs ∧ pos < pos' ≤ zlen d + 4.
Proof.
  intros img E Hb Hd Hp Hpd. unfold gzip_member in E.
  assert (zlen img = zlen d + 4) as Hi by (unfold img; rewrite zlen_app; done).
  unfold INT_MAX in *. unfold GZIP_HEADER_LEN, GZIP_FOOTER_LEN in E.
  destruct (zslice img (pos + 10) (u32 (zlen d - (pos + 10)))) as [input|] eqn:Ein; [|done].
  cbn [access mbind run_bind] in E.
  pose proof (zslice_length _ _ _ _ Ein) as (Hil & _ & Hiz).
  assert (u32 (zlen d - (pos + 10)) = zlen d - (pos + 10)) as Hw.
  { destruct (decide (pos + 10 ≤ zlen d)); [apply wrap_u_id; unfold in_u; lia|].
    assert (u32 (zlen d - (pos + 10)) = zlen d - (pos + 10) + 2 ^ 32).
    { unfold wrap_u. symmetry. apply Z.mod_unique with (-1); lia. }
    lia. }
  pose proof inflate_start_ok as Hok. destruct inflate_start as [ret0 strm] eqn:Est.
  destruct (inflate_member fuel strm input 32768 []) as [[data unused]| |] eqn:Em; try done.
  cbn [mbind run_bind] in E.
  apply inflate_member_ok in Em as (out & used & Hdata & Hin & Hinf & Hlen & Hbo); [|done].
  simpl in Hdata. subst data. rewrite Hin, zlen_app in Hil.
  pose proof (zlen_nonneg used). pose proof (zlen_nonneg unused).
  assert (size_t (zlen d - zlen unused - (pos + 10)) = zlen used) as Hsz by (rewrite size_t_small; lia).
  rewrite Hsz in E.
  destruct (Read4 img (pos + 10 + zlen used + 8 - 4)) as [fs|] eqn:Efs; [|done].
  cbn [access mbind run_bind] in E.
  case_decide as Hfs; [done|]. injection E as <- <-.
  apply Read4_Some in Efs as (_ & Hend & Hs32).
  assert (zslice img (pos + 10) (zlen used) = Some used) as Hz.
  { apply zslice_inv in Ein as (a & c & Ei & Ha & _). rewrite Ei, Hin, <- Ha, <- app_assoc. apply zslice_app. }
  assert (is_bytes out) as Hbytes.
  { apply Hbo. apply zslice_inv in Ein as (a & c & Ei & _). unfold is_bytes in *.
    assert (Forall (in_u 8) img) as Hbi.
    { unfold img. apply Forall_app. split; [done|]. repeat constructor; done. }
    rewrite Ei in Hbi. apply Forall_app in Hbi as [_ Hbi]. by apply Forall_app in Hbi as [? _]. }
  assert (zlen out ≤ INT_MAX) as Hout.
  { unfold in_s, INT_MAX, UINT_MAX in *. simpl in Hlen.
    destruct (decide (0 ≤ fs)); [rewrite size_t_small in Hfs by lia; lia|].
    assert (size_t fs = fs + 2 ^ 64) as Hf.
    { unfold size_t, wrap_u. rewrite host. symmetry. apply Z.mod_unique with (-1); lia. }
    lia. }
  split_and!; [|repeat constructor; unfold raw_len; simpl; lia|lia|lia].
  cbn [chain].
  rewrite !(raw_len_normal (normal_chunk_of _ _)) by done.
  replace (raw_len (deflate_chunk_of (pos + 10) (zlen used) out None)) with (zlen used) by done.
  cbn [c_start normal_chunk_of deflate_chunk_of c_len].
  rewrite !size_t_small by (rewrite ?size_t_small; lia).
  split_and!; try done; try apply normal_chunk_sound.
  split; [done|]. right. split; [done|]. exists out, (zlen used), used. split_and!; try done.
  unfold member. by rewrite Est.
Qed.

Lemma scan_normal_ok fuel img st_size pos n m :
  scan_normal fuel img st_size pos n = Done m → n ≤ m ∧ (n ≤ st_size - pos → m ≤ st_size - pos).
Proof.
  revert n. induction fuel as [|fuel IH]; intros n E; cbn [scan_normal] in E; case_decide; try done.
  - injection E as <-. lia.
  - destruct (starts_with _ _ _) as [[]| |]; try done; cbn in E; [injection E as <-; lia|].
    apply IH in E. lia.
  - injection E as <-. lia.
Qed.

Lemma image_chunks_ok fuel d pos acc cs : is_bytes d → zlen d ≤ INT_MAX → 0 ≤ pos ≤ zlen d + 4 →
  image_chunks fuel (d ++ replicate 4 0) (zlen d) pos acc = Done (Some cs) →
  chain member (d ++ replicate 4 0) 0 acc pos → Forall (inside pos) acc →
  ∃ e, chain member (d ++ replicate 4 0) 0 cs e ∧ Forall (inside e) cs ∧ zlen d ≤ e ≤ zlen d + 4.
Proof.
  intros Hb Hd. revert pos acc. induction fuel as [|fuel IH]; intros pos acc Hp E Hc Hi;
    cbn [image_chunks] in E; case_decide; try done.
  - injection E as ->. exists pos. split_and!; [done|done|lia|lia].
  - destruct (if decide (4 ≤ zlen d - pos) then _ else _) as [gz| |]; try done. cbn [mbind run_bind] in E.
    destruct gz.
    + destruct (gzip_member _ _ _ _) as [[[k pos']|]| |] eqn:Eg; try done. cbn [mbind run_bind] in E.
      apply gzip_member_ok in Eg as (Hk & Hik & Hpos); [|done|done|lia|lia].
      apply IH in E; [done|lia|by eapply chain_app|].
      apply Forall_app. split; [|done]. eapply Forall_impl; [done|]. intros c. apply inside_weaken. lia.
    + destruct (scan_normal _ _ _ _ _) as [len| |] eqn:Es; try done. cbn [mbind run_bind] in E.
      apply scan_normal_ok in Es. apply IH in E; [done|lia| |].
      * eapply chain_app; [done|]. cbn. split_and!; [done|apply normal_chunk_sound|].
        rewrite raw_len_normal by done. cbn. apply size_t_small. unfold INT_MAX in *. lia.
      * apply Forall_app. split; [eapply Forall_impl; [done|]; intros c; apply inside_weaken; lia|].
        repeat constructor; unfold raw_len; simpl; lia.
  - injection E as ->. exists pos. split_and!; [done|done|lia|lia].
Qed.

(** The chunks of an image cover it, and end where it ends or in the four zero
    bytes behind it. *)
Lemma ReadImage_ok fuel d img cs : is_bytes d → zlen d ≤ INT_MAX →
  ReadImage fuel (Some d) = Done (Some (img, cs)) → img = d ++ replicate 4 0 ∧
  ∃ e, chain member img 0 cs e ∧ Forall (inside e) cs ∧ zlen d ≤ e ≤ zlen d + 4.
Proof.
  intros Hb Hd E. cbn [ReadImage] in E.
  destruct (image_chunks _ _ _ _ _) as [[k|]| |] eqn:Ek; try done. injection E as <- <-.
  split; [done|]. eapply image_chunks_ok; [done|done| |done|done|constructor].
  pose proof (zlen_nonneg d). lia.
Qed.
End read_image.

(** * Turning chunks into normal ones *)
Section changes.
Context `{Abi} `{Z1 : Zlib} `{!DeflateLaws Z1} `{!DeflateStarts Z1}.
Hypothesis host : long_bits = 64.

Lemma reconstruct_loop_ok fuel img off s p p' out : deflates s out →
  reconstruct_loop fuel img off s p = Done (Some p') →
  zslice img (off + p) (zlen out) = Some out ∧ p' = p + zlen out.
Proof.
  revert s p out. induction fuel as [|fuel IH]; intros s p out Hs E; [done|]. cbn [reconstruct_loop] in E.
  destruct (deflate_progress s out BUFFER_SIZE Hs) as (ret & chunk & rest & s' & Ed & -> & Hl & Hc); [done|].
  rewrite Ed in E. destruct (zslice img (off + p) (zlen chunk)) as [orig|] eqn:Ez; [|done].
  cbn [access mbind run_bind] in E. case_decide as Hm; [done|].
  apply memcmp_eq in Hm; [|symmetry; by eapply zslice_length]. subst orig. rewrite zlen_app.
  destruct Hc as [[-> ->]|(Hr & _ & Hs')].
  - rewrite decide_False in E by auto. injection E as <-. rewrite app_nil_r, zlen_nil, Z.add_0_r. by split; [|lia].
  - rewrite decide_True in E by done. destruct (IH _ _ rest Hs' E) as [Ez' ->]. split; [|lia].
    eapply zslice_to; [done|]. by rewrite <- Z.add_assoc.
Qed.

(** The compressed data of the chunk can be made again from its data. *)
Definition remade (img : bytes) (c : ImageChunk) : Prop :=
  c_type c = CHUNK_DEFLATE → ∃ level d out, 1 ≤ level ≤ 9 ∧ c_params c = params_of level ∧
    chunk_data img c = Done d ∧ deflate_data img c = Done out ∧
    deflates (deflate_start level 8 (-15) 8 0 d) out.

Lemma TryReconstruction_ok fuel img c level : c_params c = params_of level → 1 ≤ level ≤ 9 →
  TryReconstruction fuel img c = Done 0 → remade img c.
Proof.
  intros Hp Hl E _. unfold TryReconstruction in E. rewrite Hp in E. cbn beta iota delta [params_of] in E.
  destruct (chunk_data img c) as [d| |] eqn:Ed; try done. cbn [mbind run_bind] in E.
  destruct (c_deflate c) as [[off n]|] eqn:Ec; [|done]. cbn [access mbind run_bind] in E.
  destruct (deflate_starts level d Hl) as [out Hout].
  destruct (reconstruct_loop _ _ _ _ _) as [p| |] eqn:Er; try done. cbn [mbind run_bind] in E.
  case_decide as Hpn; [|done]. subst p. apply (reconstruct_loop_ok _ _ _ _ _ _ out) in Er as [Hz ->]; [|done].
  exists level, d, out. split_and!; try done; try lia. unfold deflate_data. rewrite Ec.
  cbn [access mbind run_bind]. rewrite Z.add_0_r in Hz. by rewrite Z.add_0_l, Hz.
Qed.

Lemma ReconstructDeflateChunk_ok fuel img c r c' : ReconstructDeflateChunk fuel img c = Done (r, c') →
  ∃ p, c' = set_params p c ∧ (0 ≤ r → remade img c') ∨ r < 0 ∧ c' = c.
Proof.
  unfold ReconstructDeflateChunk. intros E. case_decide; [injection E as <- <-; by exists (c_params c); right|].
  destruct (TryReconstruction fuel img (set_params (params_of 6) c)) as [r6| |] eqn:E6; try done.
  cbn [mbind run_bind] in E. case_decide as H6.
  { injection E as <- <-. exists (params_of 6). left. split; [done|]. intros _.
    subst r6. apply TryReconstruction_ok with (fuel := fuel) (level := 6); [by destruct c|lia|done]. }
  destruct (TryReconstruction fuel img (set_params (params_of 9) (set_params (params_of 6) c)))
    as [r9| |] eqn:E9; try done.
  cbn [mbind run_bind] in E. case_decide as H9; injection E as <- <-.
  - exists (params_of 9). left. split; [by destruct c|]. intros _. subst r9.
    apply TryReconstruction_ok with (fuel := fuel) (level := 9); [by destruct c|lia|done].
  - exists (params_of 12). left. split; [by destruct c|lia].
Qed.

(** ** Single chunks *)
Lemma change_ok Q img c c' : sound Q img c → ChangeDeflateChunkToNormal c = Done c' →
  sound Q img c' ∧ c_start c' = c_start c ∧ raw_len c' = raw_len c ∧ c_type c' = CHUNK_NORMAL ∧
  (c_type c = CHUNK_NORMAL → c' = c).
Proof.
  intros [HI Hc] E. unfold ChangeDeflateChunkToNormal in E. case_decide as Ht.
  - injection E as <-. split_and!; try done. by destruct Hc as [[? _]|[? _]].
  - destruct Hc as [[Tc _]|[_ (d & n & z & _ & _ & _ & _ & Hd & _)]]; [by rewrite Tc in Ht|].
    rewrite Hd in E. cbn [access mbind run_bind] in E. injection E as <-.
    assert (raw_len c = n) as Hr.
    { unfold raw_len. rewrite decide_False, Hd; [done|]. by rewrite Ht. }
    rewrite Hr. split_and!; try by destruct c.
    + split; [by destruct c|]. left. by destruct c.
    + intros Tc. by rewrite Tc in Ht.
Qed.
Lemma params_ok Q img p c : sound Q img c → sound Q img (set_params p c).
Proof. by destruct c. Qed.

Lemma chain_insert Q img a cs b i c c' : chain Q img a cs b → cs !! i = Some c → sound Q img c' →
  c_start c' = c_start c → raw_len c' = raw_len c → chain Q img a (<[i := c']> cs) b.
Proof.
  intros Hc Hi Hs E1 E2. revert a i Hc Hi. induction cs as [|d cs IH]; intros a i Hc Hi; [done|].
  destruct Hc as (Ed & Hd & Hc). destruct i as [|i]; simpl in Hi.
  - injection Hi as ->. cbn. rewrite E1, E2. by split_and!.
  - cbn. split_and!; try done. by apply IH.
Qed.
Lemma inside_insert e cs i c c' : Forall (inside e) cs → cs !! i = Some c →
  c_start c' = c_start c → raw_len c' = raw_len c → Forall (inside e) (<[i := c']> cs).
Proof.
  intros Hi Hc E1 E2. apply Forall_insert; [done|]. unfold inside. rewrite E1, E2.
  by apply (Forall_lookup_1 _ _ _ _ Hi Hc).
Qed.
End changes.

Section normalize.
Context `{Abi} `{Z1 : Zlib} `{!DeflateLaws Z1} `{!DeflateStarts Z1}.
Hypothesis host : long_bits = 64.
Context (Qs Qt : bytes → bytes → Prop) (img_s img_t : bytes) (es et : Z) (zip_mode : bool).

Definition pseudo (c : ImageChunk) : Prop :=
  c_type c = CHUNK_NORMAL ∧ c_start c = 0 ∧ c_len c = zlen img_s ∧ c_data c = InImage 0 ∧
  c_deflate c = None.
Definition src_inv (src tgt : list ImageChunk) : Prop :=
  Forall (sound Qs img_s) src ∧
  if zip_mode then ∃ c, src !! 0%nat = Some c ∧ pseudo c
  else chain Qs img_s 0 src es ∧ Forall (inside es) src ∧ c_type <$> src = c_type <$> tgt.
Definition tgt_inv (tgt : list ImageChunk) : Prop :=
  chain Qt img_t 0 tgt et ∧ (zip_mode = false → Forall (inside et) tgt).

Lemma tgt_inv_insert tgt i t t' : tgt_inv tgt → tgt !! i = Some t → sound Qt img_t t' →
  c_start t' = c_start t → raw_len t' = raw_len t → tgt_inv (<[i := t']> tgt).
Proof.
  intros [Hc Hi] Ht Hs E1 E2. split; [by eapply chain_insert|]. intros Hz.
  eapply inside_insert; eauto.
Qed.
Lemma src_inv_type src tgt i t t' : src_inv src tgt → tgt !! i = Some t → c_type t' = c_type t →
  src_inv src (<[i := t']> tgt).
Proof.
  intros [Hs Hm] Ht E. split; [done|]. destruct zip_mode; [done|]. destruct Hm as (? & ? & Hty).
  split_and!; try done. rewrite list_fmap_insert, E, Hty. symmetry. apply list_insert_id.
  by rewrite list_lookup_fmap, Ht.
Qed.
Lemma src_inv_zip src tgt tgt' : zip_mode = true → src_inv src tgt → src_inv src tgt'.
Proof. unfold src_inv. by intros ->. Qed.
Lemma src_inv_change src src' tgt i t t' j : src_inv src tgt → tgt !! i = Some t →
  c_type t' = CHUNK_NORMAL → (zip_mode = false → j = i) → change_at src j = Done src' →
  src_inv src' (<[i := t']> tgt).
Proof.
  intros [Hs Hm] Ht E Hj Hch. unfold change_at in Hch.
  destruct (src !! j) as [c|] eqn:Ec; [|done]. cbn [access mbind run_bind] in Hch.
  destruct (ChangeDeflateChunkToNormal c) as [c'| |] eqn:Ech; try done. injection Hch as <-.
  pose proof (Forall_lookup_1 _ _ _ _ Hs Ec) as Hsc.
  destruct (change_ok _ _ _ _ Hsc Ech) as (Hsc' & E1 & E2 & Tc' & Hsame).
  split; [by apply Forall_insert|]. destruct zip_mode.
  - destruct Hm as (p & Hp & Hps). destruct (decide (j = 0%nat)) as [->|Hne].
    + exists c'. rewrite Hp in Ec. injection Ec as <-. rewrite list_lookup_insert_eq by (by eapply lookup_lt_Some).
      split; [done|]. by rewrite Hsame by apply Hps.
    + exists p. by rewrite list_lookup_insert_ne.
  - rewrite Hj in * by done. destruct Hm as (? & ? & Hty).
    split_and!; [by eapply chain_insert|by eapply inside_insert|].
    by rewrite !list_fmap_insert, Tc', E, Hty.
Qed.

(** The source of a chunk: in an image the chunk at the same place. *)
Definition counterpart (name : option bytes) (i : nat) (src : list ImageChunk) : run (option nat) :=
  if zip_mode then find_source name src else mret (Some i).
Lemma counterpart_place name i src j : counterpart name i src = Done (Some j) → zip_mode = false → j = i.
Proof. unfold counterpart. intros E ->. by injection E. Qed.
Lemma counterpart_none name i src : counterpart name i src = Done None → zip_mode = true.
Proof. unfold counterpart. by destruct zip_mode. Qed.

Lemma normalize_ok n fuel i src tgt src' tgt' :
  normalize n fuel zip_mode img_s img_t i src tgt = Done (src', tgt') → (i + n = length tgt)%nat →
  src_inv src tgt → tgt_inv tgt → (∀ k t, (k < i)%nat → tgt !! k = Some t → remade img_t t) →
  src_inv src' tgt' ∧ tgt_inv tgt' ∧ Forall (remade img_t) tgt'.
Proof.
  revert i src tgt. induction n as [|n IH]; intros i src tgt E Hn Hs Ht Hr.
  { injection E as <- <-. split_and!; try done. apply Forall_lookup. intros k t Hk.
    eapply Hr; [|done]. apply lookup_lt_Some in Hk. lia. }
  cbn [normalize] in E. destruct (tgt !! i) as [t|] eqn:Et; [|done]. cbn [access mbind run_bind] in E.
  assert (∀ t', remade img_t t' → ∀ k t0, (k < S i)%nat → <[i := t']> tgt !! k = Some t0 →
    remade img_t t0) as Hins.
  { intros t' Ht' k t0 Hk Hk0. destruct (decide (k = i)) as [->|Hne].
    - rewrite list_lookup_insert_eq in Hk0 by (by eapply lookup_lt_Some). by injection Hk0 as <-.
    - rewrite list_lookup_insert_ne in Hk0 by done. eapply Hr; [|done]. lia. }
  assert (∀ t', length (<[i := t']> tgt) = length tgt) as Hlen by (intros; apply length_insert).
  pose proof Ht as [Hct _]. pose proof (Forall_lookup_1 _ _ _ _ (chain_sound _ _ _ _ _ Hct) Et) as Hst.
  case_decide as Td.
  { apply (IH _ _ _ E); try done; [lia|]. intros k t0 Hk Hk0. apply (Hins t) with k; [by intros ?|done|].
    by rewrite list_insert_id. }
  destruct (ReconstructDeflateChunk fuel img_t t) as [[r t1]| |] eqn:Er; try done. cbn [mbind run_bind] in E.
  apply ReconstructDeflateChunk_ok in Er.
  assert (∃ p, t1 = set_params p t) as [p Ep].
  { destruct Er as (p & [[-> _]|[_ ->]]); [by exists p|]. exists (c_params t). by destruct t. }
  assert (0 ≤ r → remade img_t t1) as Hrem.
  { destruct Er as (p' & [[-> ?]|[? _]]); [done|lia]. }
  assert (sound Qt img_t t1) as Hs1 by (subst t1; by apply params_ok).
  assert (c_start t1 = c_start t ∧ raw_len t1 = raw_len t ∧ c_type t1 = c_type t) as (E1 & E2 & E3).
  { subst t1. by destruct t. }
  fold (counterpart (c_filename t1) i src) in E.
  (* what a changed chunk satisfies *)
  assert (∀ t2, ChangeDeflateChunkToNormal t1 = Done t2 →
    tgt_inv (<[i := t2]> tgt) ∧ remade img_t t2 ∧ c_type t2 = CHUNK_NORMAL) as Hchg.
  { intros t2 E4. destruct (change_ok _ _ _ _ Hs1 E4) as (? & F1 & F2 & F3 & _).
    split_and!; [eapply tgt_inv_insert; try done; congruence| |done]. intros F. by rewrite F3 in F. }
  case_decide as Hneg.
  - destruct (ChangeDeflateChunkToNormal t1) as [t2| |] eqn:E4; try done. cbn [mbind run_bind] in E.
    destruct (Hchg t2 eq_refl) as (Ht2 & Hr2 & Tn).
    destruct (counterpart _ i src) as [j| |] eqn:Ej; try done. cbn [mbind run_bind] in E.
    destruct j as [j|].
    + destruct (change_at src j) as [src1| |] eqn:E5; try done. cbn [mbind run_bind] in E.
      apply (IH _ _ _ E); [rewrite Hlen; lia| |done|by apply Hins].
      apply (src_inv_change src src1 tgt i t t2 j); [done|done|done| |done]. by eapply counterpart_place.
    + cbn [mret run_ret mbind run_bind] in E. apply (IH _ _ _ E); [rewrite Hlen; lia| |done|by apply Hins].
      apply (src_inv_zip src tgt); [by eapply counterpart_none|done].
  - destruct (counterpart _ i src) as [j| |] eqn:Ej; try done. cbn [mbind run_bind] in E.
    destruct j as [j|].
    + destruct (src !! j) as [sj|] eqn:Esj; [|done]. cbn [access mbind run_bind] in E.
      destruct (AreChunksEqual img_t img_s t1 sj) as [eq| |]; try done. cbn [mbind run_bind] in E.
      destruct eq.
      * destruct (ChangeDeflateChunkToNormal t1) as [t2| |] eqn:E4; try done. cbn [mbind run_bind] in E.
        destruct (Hchg t2 eq_refl) as (Ht2 & Hr2 & Tn).
        destruct (change_at src j) as [src1| |] eqn:E5; try done. cbn [mbind run_bind mret run_ret] in E.
        apply (IH _ _ _ E); [rewrite Hlen; lia| |done|by apply Hins].
        apply (src_inv_change src src1 tgt i t t2 j); [done|done|done| |done]. by eapply counterpart_place.
      * cbn [mret run_ret mbind run_bind] in E. apply (IH _ _ _ E); [rewrite Hlen; lia| | |apply Hins, Hrem; lia].
        -- by apply (src_inv_type src tgt i t).
        -- by apply (tgt_inv_insert tgt i t).
    + destruct (ChangeDeflateChunkToNormal t1) as [t2| |] eqn:E4; try done. cbn [mbind run_bind mret run_ret] in E.
      destruct (Hchg t2 eq_refl) as (Ht2 & Hr2 & Tn).
      apply (IH _ _ _ E); [rewrite Hlen; lia| |done|by apply Hins].
      apply (src_inv_zip src tgt); [by eapply counterpart_none|done].
Qed.
End normalize.

(** * Making the patches *)
Section patches.
Context `{Abi} `{B : Bz2} `{Z1 : Zlib} `{!DeflateLaws Z1}.
Context (fresh : nat → Z) (old img_s img_t : bytes) (bonus : option bytes).
Hypothesis img_t_ok : is_bytes img_t ∧ zlen img_t ≤ INT_MAX.

Definition bonus_at (i : nat) : bytes := if decide (i = 1%nat) then default [] bonus else [].

(** [made i t d out]: with the chunk [t], the [i]-th, and its patch data [d], the
    record of [t] describes [out]. *)
Inductive made (i : nat) (t : ImageChunk) (d : bytes) : bytes → Prop :=
| made_raw : c_type t = CHUNK_RAW → made i t d d
| made_normal src_start src su out cs dd e q :
    c_type t = CHUNK_NORMAL → c_source t = (src_start, zlen src, su) →
    zslice old src_start (zlen src) = Some src →
    d = patch_file cs dd e (zlen out) → replay src 0 cs dd e out q → made i t d out
| made_deflate src_start src inflated used st' target level out cs dd e q :
    c_type t = CHUNK_DEFLATE →
    c_source t = (src_start, zlen src, zlen (inflated ++ bonus_at i)) →
    zslice old src_start (zlen src) = Some src →
    inflate inflate_start.2 src (zlen (inflated ++ bonus_at i)) = (Z_STREAM_END, inflated, used, st') →
    zlen (inflated ++ bonus_at i) ≤ INT_MAX → zlen target ≤ INT_MAX → c_len t = zlen target →
    d = patch_file cs dd e (zlen target) → replay (inflated ++ bonus_at i) 0 cs dd e target q →
    1 ≤ level ≤ 9 → c_params t = params_of level →
    deflates (deflate_start level 8 (-15) 8 0 target) out → made i t d out.

(** What the source of the [i]-th chunk, of kind [type], must be. *)
Definition cached (s : ImageChunk) : Prop :=
  (∀ d, chunk_data img_s s = Done d → is_bytes d) ∧
  ∀ sa, c_I s = Some sa → ∃ d, chunk_data img_s s = Done d ∧ positions sa d.
Definition source_ok (i : nat) (type : Z) (s : ImageChunk) : Prop :=
  cached s ∧
  (type = CHUNK_NORMAL → c_data s = InImage (c_start s) ∧
     ∀ src, zslice img_s (c_start s) (c_len s) = Some src → zslice old (c_start s) (c_len s) = Some src) ∧
  (type = CHUNK_DEFLATE → c_deflate s = None ∨ ∃ inflated z used st',
     c_data s = Block (inflated ++ bonus_at i) ∧ c_len s = zlen (inflated ++ bonus_at i) ∧
     c_len s ≤ INT_MAX ∧ c_deflate s = Some (c_start s, zlen z) ∧
     zslice old (c_start s) (zlen z) = Some z ∧
     inflate inflate_start.2 z (c_len s) = (Z_STREAM_END, inflated, used, st')).

Lemma bsdiff_any fuel IP old0 new sa patch : is_bytes old0 → (∀ sa, IP = Some sa → positions sa old0) →
  Forall (in_u 8) new → zlen new ≤ INT_MAX → bsdiff fuel fresh IP old0 new = Done (sa, Some patch) →
  positions sa old0 ∧ ∃ cs d e q, replay old0 0 cs d e new q ∧ patch = patch_file cs d e (zlen new).
Proof.
  intros Ho HI Hb Hn E.
  assert (∃ sa0, positions sa0 old0 ∧ bsdiff fuel fresh (Some sa0) old0 new = Done (sa, Some patch))
    as (sa0 & Hsa & E').
  { destruct IP as [sa0|]; [exists sa0; auto|]. unfold bsdiff in E.
    destruct (qsufsort fuel fresh old0) as [sa0| |] eqn:Eq; try done. exists sa0. split; [by eapply qsufsort_positions|done]. }
  pose proof (bsdiff_ok fuel fresh sa0 old0 new Hsa Hb Hn) as (r & E2 & Hr). rewrite E' in E2.
  injection E2 as <-. destruct Hr as (-> & cs & d & e & q & Hr & _ & [= ->]). split; [done|]. by exists cs, d, e, q.
Qed.

Lemma at_block (b : bytes) n : zlen b = n → zslice b 0 n = Some b.
Proof. intros <-. apply zslice_full. Qed.

Lemma shape_data Q t d : sound Q img_t t → chunk_data img_t t = Done d → is_bytes d ∧ zlen d ≤ INT_MAX ∧
  zlen d = c_len t ∧ (c_type t = CHUNK_NORMAL → zslice img_t (c_start t) (raw_len t) = Some d).
Proof.
  destruct img_t_ok as [Hb Hl]. intros [_ [[Tt Ed]|[Tt (d0 & n & z & Ed & El & Hl0 & Hb0 & _)]]] E;
    unfold chunk_data in E; rewrite Ed in E; simpl in E.
  - destruct (zslice img_t _ _) as [d'|] eqn:Ez; [|done]. injection E as ->. rewrite raw_len_normal by done.
    pose proof (zslice_length _ _ _ _ Ez). apply zslice_inv in Ez as Hz. destruct Hz as (a & c & Ei & _).
    split_and!; [|lia|lia|done]. unfold is_bytes in *. rewrite Ei in Hb. apply Forall_app in Hb as [_ Hb].
    by apply Forall_app in Hb as [? _].
  - rewrite at_block in E by done. injection E as <-. split_and!; try done.
    intros Tn. by rewrite Tt in Tn.
Qed.

Lemma MakePatch_ok fuel Q i s t d s' t' : sound Q img_t t → remade img_t t → source_ok i (c_type t) s →
  MakePatch fresh fuel img_s img_t s t = Done (Some (d, s', t')) →
  ∃ out, made i t' d out ∧ zslice img_t (c_start t) (raw_len t) = Some out ∧
    (∃ I, s' = set_I I s) ∧ cached s'.
Proof.
  intros Ht Hr (Hca & Hn & Hd) E. unfold MakePatch, as_raw in E.
  case_decide as Hsmall.
  { destruct (chunk_data img_t t) as [d0| |] eqn:Ec; try done. cbn [mbind run_bind] in E.
    injection E as <- <- <-. apply (shape_data Q) in Ec as (_ & _ & _ & Hz); [|done].
    exists d0. split_and!; [apply made_raw; by destruct t|by apply Hz, Hsmall|exists (c_I s); by destruct s|done]. }
  destruct (chunk_data img_s s) as [o| |] eqn:Eo; try done. cbn [mbind run_bind] in E.
  destruct (chunk_data img_t t) as [new| |] eqn:En; try done. cbn [mbind run_bind] in E.
  destruct (bsdiff fuel fresh (c_I s) o new) as [[sa patch]| |] eqn:Eb; try done. cbn [mbind run_bind] in E.
  destruct patch as [patch|]; [|done].
  pose proof (shape_data Q t new Ht En) as (Hb & Hl & Hlen & Hz).
  apply bsdiff_any in Eb as (Hsa & cs & dd & e & q & Hrep & Hp); try done.
  2: by apply Hca.
  2: { intros sa0 E0. destruct Hca as [_ Hca]. destruct (Hca sa0 E0) as (d0 & E1 & ?). rewrite Eo in E1. by injection E1 as <-. }
  assert (cached (set_I (Some sa) s)) as Hca'.
  { assert (chunk_data img_s (set_I (Some sa) s) = chunk_data img_s s) as Hset by (by destruct s).
    split; rewrite Hset; [apply Hca|]. intros sa0.
    replace (c_I (set_I (Some sa) s)) with (Some sa) by (by destruct s). intros [= <-]. by exists o. }
  case_decide as Hbig.
  { cbn [mbind run_bind mret run_ret] in E. injection E as <- <- <-.
    exists new. split_and!; [apply made_raw; by destruct t|by apply Hz, Hbig|by exists (Some sa)|done]. }
  replace (c_start (set_I (Some sa) s)) with (c_start s) in E by (by destruct s).
  replace (c_len (set_I (Some sa) s)) with (c_len s) in E by (by destruct s).
  replace (c_deflate (set_I (Some sa) s)) with (c_deflate s) in E by (by destruct s).
  case_decide as Tn.
  - injection E as <- <- <-. destruct (Hn Tn) as [Eds Hin]. unfold chunk_data in Eo. rewrite Eds in Eo.
    simpl in Eo. destruct (zslice img_s _ _) as [o'|] eqn:Ezs; [|done]. injection Eo as ->.
    pose proof (zslice_length _ _ _ _ Ezs) as (Hol & _). specialize (Hin o eq_refl).
    exists new. split_and!; [|by apply Hz|by exists (Some sa)|done].
    eapply made_normal; [by destruct t| |rewrite Hol; done|done|done].
    rewrite Hol. by destruct t.
  - assert (c_type t = CHUNK_DEFLATE) as Td by (destruct Ht as [_ [[? _]|[? _]]]; done).
    rewrite decide_True in E by done. destruct (Hd Td) as [E0|(inflated & z & used & st' & E1 & E2 & E3 & E4 & E5 & E6)].
    { by rewrite E0 in E. }
    rewrite E4 in E. cbn [access mbind run_bind] in E. injection E as <- <- <-.
    destruct (Hr Td) as (level & d0 & out & Hlev & Hpar & Ed0 & Eout & Hdef). rewrite En in Ed0. injection Ed0 as <-.
    unfold chunk_data in Eo. rewrite E1 in Eo. simpl in Eo. rewrite at_block in Eo by done. injection Eo as <-.
    exists out. split_and!; [| |by exists (Some sa)|done].
    + rewrite E2 in E3, E6 |- *.
      apply (made_deflate i _ _ (c_start s) z inflated used st' new level out cs dd e q); try done;
        by destruct t.
    + destruct Ht as [_ [[Tn' _]|[_ (d1 & n & z1 & _ & _ & _ & _ & Hdf & Hz1 & _)]]]; [done|].
      unfold deflate_data in Eout. rewrite Hdf in Eout. cbn [access mbind run_bind] in Eout.
      unfold raw_len. rewrite decide_False, Hdf by done. simpl. rewrite Hz1 in *. by injection Eout as ->.
Qed.

Lemma sound_bytes Q img c d : is_bytes img → sound Q img c → chunk_data img c = Done d → is_bytes d.
Proof.
  intros Hb [_ [[_ Ed]|[_ (d0 & n & z & Ed & El & _ & Hb0 & _)]]] E; unfold chunk_data in E; rewrite Ed in E; simpl in E.
  - destruct (zslice img _ _) as [d'|] eqn:Ez; [|done]. injection E as ->.
    apply zslice_inv in Ez as (a & k & -> & _). unfold is_bytes in *. apply Forall_app in Hb as [_ Hb].
    by apply Forall_app in Hb as [? _].
  - rewrite at_block in E by done. by injection E as <-.
Qed.

(** The records of the chunks from the [i]-th on describe this image. *)
Inductive all_made : nat → list (ImageChunk * bytes) → bytes → Prop :=
| all_made_nil i : all_made i [] []
| all_made_cons i t d out ps rest :
    made i t d out → all_made (S i) ps rest → all_made i ((t, d) :: ps) (out ++ rest).

(** The source the loop picks, and what it does with the bonus data. *)
Definition pick (zip_mode : bool) (i : nat) (src : list ImageChunk) (t : ImageChunk) : run nat :=
  if zip_mode then
    (if decide (c_type t = CHUNK_DEFLATE) then
       j ← find_source (c_filename t) src; mret (default O j)
     else mret O)
  else mret i.
Definition with_bonus (zip_mode : bool) (b0 : option bytes) (i : nat) (s : ImageChunk) : run ImageChunk :=
  match b0 with
  | Some b => if decide (zip_mode = false ∧ i = 1%nat) then append_bonus b s else mret s
  | None => mret s
  end.

Section loop.
Hypothesis host : long_bits = 64.
Context (zip_mode : bool) (b0 : option bytes) (R : nat → list ImageChunk → list ImageChunk → Prop).
Hypothesis R_step : ∀ i src t tgt j s s1, R i src (t :: tgt) →
  pick zip_mode i src t = Done j → src !! j = Some s → with_bonus zip_mode b0 i s = Done s1 →
  source_ok i (c_type t) s1 ∧
  ∀ s', (∃ I, s' = set_I I s1) → cached s' → R (S i) (<[j := s']> src) tgt.

Lemma make_patches_ok fuel Q i src tgt ps a b :
  make_patches fresh fuel zip_mode b0 img_s img_t i src tgt = Done (Some ps) → R i src tgt →
  chain Q img_t a tgt b → Forall (remade img_t) tgt → 0 ≤ a ≤ zlen img_t →
  ∃ out, all_made i ps out ∧ zslice img_t a (zlen out) = Some out ∧ b = a + zlen out.
Proof.
  revert i src ps a. induction tgt as [|t tgt IH]; intros i src ps a E HR Hc Hr Ha.
  { injection E as <-. exists []. split_and!; [constructor| |cbn in Hc; unfold zlen; simpl; lia].
    unfold zslice, zlen. simpl. rewrite decide_True by (unfold zlen in *; lia). done. }
  cbn [make_patches] in E. fold (pick zip_mode i src t) in E.
  destruct (pick zip_mode i src t) as [j| |] eqn:Ej; try done. cbn [mbind run_bind] in E.
  destruct (src !! j) as [s|] eqn:Es; [|done]. cbn [access mbind run_bind] in E.
  fold (with_bonus zip_mode b0 i s) in E.
  destruct (with_bonus zip_mode b0 i s) as [s1| |] eqn:E1; try done. cbn [mbind run_bind] in E.
  destruct (R_step _ _ _ _ _ _ _ HR Ej Es E1) as [Hso Hnext].
  destruct (MakePatch fresh fuel img_s img_t s1 t) as [[[[d s'] t']|]| |] eqn:Em; try done.
  cbn [mbind run_bind] in E. apply Forall_cons in Hr as [Hrt Hr]. destruct Hc as (Ea & Hst & Hc).
  eapply MakePatch_ok in Em as (out & Hm & Hz & HI & Hca); try done.
  destruct (make_patches _ _ _ _ _ _ _ _ _) as [[rest|]| |] eqn:Em2; try done. injection E as <-.
  pose proof (zslice_length _ _ _ _ Hz) as (Hol & _ & Hle). rewrite Ea in Hz, Hle.
  pose proof (zlen_nonneg out). destruct img_t_ok as [_ Hlim]. unfold INT_MAX in *.
  rewrite (size_t_small host) in Hc by lia.
  destruct (IH _ _ _ _ Em2 (Hnext _ HI Hca) Hc Hr ltac:(lia)) as (rout & Hall & Hz2 & ->).
  exists (out ++ rout). split_and!; [by constructor| |rewrite zlen_app; lia].
  rewrite zlen_app. rewrite <- Hol in Hz, Hz2. by eapply zslice_to.
Qed.
End loop.
End patches.

(** * The layout of the patch file *)
Section layout.
Context `{Abi} `{B : Bz2} `{Z1 : Zlib} `{!DeflateLaws Z1} `{!InflateLaws Z1} `{!InflateSound Z1}.
Hypothesis host : long_bits = 64.
Context (old : bytes) (bonus : option bytes).

Lemma bsdiff_at_weaken patch src off out need need' : (need ≤ need')%nat →
  bsdiff_at patch src off out need → bsdiff_at patch src off out need'.
Proof.
  intros Hn (cs & d & e & q & pre & post & ? & ? & ? & ?). exists cs, d, e, q, pre, post. split_and!; try done. lia.
Qed.
Lemma chunk_at_weaken patch need need' i pos pos' out : (need ≤ need')%nat →
  chunk_at old patch bonus need i pos pos' out → chunk_at old patch bonus need' i pos pos' out.
Proof.
  intros Hn [ | | ].
  - eapply normal_at; try done. by eapply bsdiff_at_weaken.
  - by eapply raw_at.
  - eapply deflate_at; try done; [by eapply bsdiff_at_weaken|lia].
Qed.
Lemma chunks_at_weaken patch need need' i pos n out : (need ≤ need')%nat →
  chunks_at old patch bonus need i pos n out → chunks_at old patch bonus need' i pos n out.
Proof. intros Hn. induction 1; econstructor; [by eapply chunk_at_weaken|done]. Qed.

(** The record of one chunk, and its size. *)
Definition record (offset : Z) (p : ImageChunk * bytes) : bytes :=
  let '(source_start, source_len, su) := c_source p.1 in
  let '(level, method, windowBits, memLevel, strategy) := c_params p.1 in
  Write4 (c_type p.1) ++
  (if decide (c_type p.1 = CHUNK_NORMAL) then
     Write8 source_start ++ Write8 source_len ++ Write8 offset
   else if decide (c_type p.1 = CHUNK_DEFLATE) then
     Write8 source_start ++ Write8 source_len ++ Write8 offset ++ Write8 su ++ Write8 (c_len p.1) ++
     Write4 level ++ Write4 method ++ Write4 windowBits ++ Write4 memLevel ++ Write4 strategy
   else if decide (c_type p.1 = CHUNK_RAW) then Write4 (zlen p.2) ++ p.2 else []).
Definition next_offset (offset : Z) (p : ImageChunk * bytes) : Z :=
  if decide (c_type p.1 = CHUNK_NORMAL ∨ c_type p.1 = CHUNK_DEFLATE)
  then size_t (offset + zlen p.2) else offset.

Lemma write_headers_cons offset p ps :
  write_headers offset (p :: ps) = record offset p ++ write_headers (next_offset offset p) ps.
Proof.
  destruct p as [c d]. cbn [write_headers]. unfold record, next_offset. cbn [fst snd].
  destruct (c_source c) as [[ss sl] su], (c_params c) as [[[[lv me] wb] ml] st].
  destruct (decide (c_type c = CHUNK_NORMAL)) as [En|En].
  { rewrite (decide_True (P := _ ∨ _)) by auto. by rewrite <- !app_assoc. }
  destruct (decide (c_type c = CHUNK_DEFLATE)) as [Ed|Ed].
  { rewrite (decide_True (P := _ ∨ _)) by auto. by rewrite <- !app_assoc. }
  rewrite (decide_False (P := _ ∨ _)) by tauto. case_decide; by rewrite <- !app_assoc.
Qed.
Lemma record_size offset p : zlen (record offset p) = header_size p.
Proof.
  destruct p as [c d]. unfold record, header_size. cbn [fst snd].
  destruct (c_source c) as [[ss sl] su], (c_params c) as [[[[lv me] wb] ml] st].
  repeat case_decide; rewrite ?zlen_app; unfold zlen; simpl; lia.
Qed.
Lemma header_size_nonneg p : 0 ≤ header_size p.
Proof. rewrite <- (record_size 0). apply zlen_nonneg. Qed.
Lemma headers_size offset offset' ps : zlen (write_headers offset ps) = zlen (write_headers offset' ps).
Proof.
  revert offset offset'. induction ps as [|p ps IH]; intros; [done|].
  rewrite !write_headers_cons, !zlen_app, !record_size. f_equal. apply IH.
Qed.
Lemma total_size_from n ps : 0 ≤ n → n + zlen (write_headers 0 ps) < 2 ^ 63 →
  foldl (λ n p, size_t (n + header_size p)) n ps = n + zlen (write_headers 0 ps).
Proof.
  revert n. induction ps as [|p ps IH]; intros n Hn Hl; [unfold zlen; simpl; lia|].
  rewrite write_headers_cons, zlen_app, record_size, (headers_size _ 0) in *. cbn [foldl].
  pose proof (header_size_nonneg p). pose proof (zlen_nonneg (write_headers 0 ps)).
  rewrite (size_t_small host), IH by lia. lia.
Qed.

(** The bytes of [b] are where the record of a chunk looks for them. *)
Lemma bsdiff_here pre d post src cs dd e out q : d = patch_file cs dd e (zlen out) →
  replay src 0 cs dd e out q →
  ∃ need, bsdiff_at (pre ++ d ++ post) src (zlen pre) out need.
Proof.
  intros -> Hr. exists (length cs + length out + 24)%nat. exists cs, dd, e, q, pre, post. by split_and!.
Qed.

(** The record of a made chunk, followed by anything, with its patch at [offset]. *)
Lemma made_at i t d out patch front rest : made old bonus i t d out → ∀ offset,
  patch = front ++ record offset (t, d) ++ rest →
  (c_type t ≠ CHUNK_RAW → ∃ pre post, patch = pre ++ d ++ post ∧ zlen pre = offset) →
  ∃ need, chunk_at old patch bonus need (Z.of_nat i) (zlen front)
    (zlen (front ++ record offset (t, d))) out.
Proof.
  intros Hm offset Ep Hd. rewrite zlen_app, record_size.
  assert (zslice patch (zlen front) (header_size (t, d)) = Some (record offset (t, d))) as Hz.
  { rewrite <- (record_size offset). rewrite Ep. apply zslice_app. }
  pose proof inflate_start_ok as Hok. destruct inflate_start as [r0 strm] eqn:Est.
  assert (∀ j, (if decide (Z.of_nat j = 1) then default [] bonus else []) = bonus_at bonus j) as Hbon.
  { intros j. unfold bonus_at. destruct (decide (j = 1%nat)); case_decide; done || lia. }
  destruct Hm as [Tt|ss src su out cs dd e q Tt Es Hsrc Hp Hr
                 |ss src inflated used st' target level out cs dd e q Tt Es Hsrc Hinf Hx Hl Hcl Hp Hr Hlev Hpar Hdef];
    unfold record, header_size in *; cbn [fst snd] in *.
  - destruct (c_source t) as [[s1 s2] s3], (c_params t) as [[[[p1 p2] p3] p4] p5].
    rewrite Tt in *. simpl in Hz |- *. exists 0%nat.
    replace (4 + (4 + zlen d)) with (8 + zlen d) in * by lia. rewrite Z.add_assoc. by apply raw_at.
  - rewrite Es, Tt in *. destruct (c_params t) as [[[[p1 p2] p3] p4] p5]. simpl in Hz |- *.
    destruct (Hd ltac:(done)) as (pre & post & -> & <-).
    destruct (bsdiff_here pre d post src cs dd e out q Hp Hr) as [need Hn].
    exists need. apply (normal_at _ _ _ need _ _ ss src (zlen pre) out); [exact Hz|done|done].
  - rewrite Es, Tt, Hpar in *. simpl in Hz |- *.
    destruct (Hd ltac:(done)) as (pre & post & -> & <-).
    destruct (bsdiff_here pre d post (inflated ++ bonus_at bonus i) cs dd e target q Hp Hr) as [need Hn].
    exists (need + S (length out))%nat.
    apply (deflate_at _ _ _ _ _ _ ss src (zlen pre) (inflated ++ bonus_at bonus i)
      (zlen (inflated ++ bonus_at bonus i)) (c_len t) level 8 (-15) 8 0
      inflated out target strm st' used); try done.
    + by rewrite Est, Hok.
    + by rewrite Est in Hinf.
    + by rewrite Hbon.
    + rewrite Hcl. unfold in_s, INT_MAX in *. pose proof (zlen_nonneg target). lia.
    + eapply bsdiff_at_weaken; [|done]. lia.
    + by rewrite !wrap_s_id by (unfold in_s; lia).
    + lia.
Qed.

Lemma layout i ps out : all_made old bonus i ps out → ∀ front done offset patch,
  patch = front ++ write_headers offset ps ++ done ++ write_patches ps →
  offset = zlen (front ++ write_headers offset ps ++ done) → zlen patch ≤ INT_MAX →
  ∃ need, chunks_at old patch bonus need (Z.of_nat i) (zlen front) (length ps) out.
Proof.
  induction 1 as [i|i t d out ps rest Hm Hall IH]; intros front done offset patch Ep Eo Hl.
  { exists 0%nat. constructor. }
  rewrite write_headers_cons in Ep, Eo.
  assert (write_patches ((t, d) :: ps) = (if decide (c_type t ≠ CHUNK_RAW) then d else []) ++ write_patches ps)
    as Ew by done.
  rewrite Ew in Ep. rewrite <- !app_assoc in Ep, Eo. clear Ew.
  assert (offset + (if decide (c_type t ≠ CHUNK_RAW) then zlen d else 0) ≤ INT_MAX) as Hoff.
  { rewrite Eo. rewrite Ep in Hl. rewrite !zlen_app in *. pose proof (zlen_nonneg (write_patches ps)).
    case_decide; rewrite ?zlen_nil in *; lia. }
  assert (next_offset offset (t, d) = offset + (if decide (c_type t ≠ CHUNK_RAW) then zlen d else 0)) as En.
  { unfold next_offset. cbn [fst snd]. assert (0 ≤ offset) by (rewrite Eo; apply zlen_nonneg).
    pose proof (zlen_nonneg d). unfold INT_MAX in *.
    destruct Hm as [Tt|? ? ? ? ? ? ? ? Tt|? ? ? ? ? ? ? ? ? ? ? ? Tt]; rewrite Tt in *.
    - rewrite decide_False by (by intros [?|?]). rewrite decide_False by auto. lia.
    - rewrite decide_True in * by auto. rewrite decide_True in * by done. rewrite (size_t_small host); lia.
    - rewrite decide_True in * by auto. rewrite decide_True in * by done. rewrite (size_t_small host); lia. }
  assert (∃ need, chunk_at old patch bonus need (Z.of_nat i) (zlen front)
    (zlen (front ++ record offset (t, d))) out) as [n1 Hn1].
  { eapply (made_at i t d out patch front); [done|by rewrite Ep|]. intros Hraw. rewrite decide_True in Ep by done.
    exists (front ++ record offset (t, d) ++ write_headers (next_offset offset (t, d)) ps ++ done),
      (write_patches ps). split; [|by rewrite <- Eo]. by rewrite Ep, <- !app_assoc. }
  destruct (IH (front ++ record offset (t, d)) (done ++ (if decide (c_type t ≠ CHUNK_RAW) then d else []))
    (next_offset offset (t, d)) patch) as [n2 Hn2]; [| |done|].
  - by rewrite Ep, <- !app_assoc.
  - rewrite En, Eo at 1. rewrite !zlen_app. destruct (decide (c_type t ≠ CHUNK_RAW)); [lia|]. unfold zlen. simpl. lia.
  - exists (n1 + n2)%nat. eapply chunks_cons; [eapply chunk_at_weaken; [|done]; lia|].
    replace (Z.of_nat i + 1) with (Z.of_nat (S i)) by lia. eapply chunks_at_weaken; [|done]. lia.
Qed.

(** The patch file describes the image. *)
Lemma patch_file_describes ps out : all_made old bonus 0 ps out → zlen (patch_file_of ps) ≤ INT_MAX →
  ∃ need, image_patch old (patch_file_of ps) bonus need out.
Proof.
  intros Hall Hl. unfold patch_file_of in *.
  assert (total_header_size ps = 12 + zlen (write_headers 0 ps)) as Et.
  { apply total_size_from; [lia|]. rewrite !zlen_app, (headers_size _ 0) in Hl.
    pose proof (zlen_nonneg (write_patches ps)). pose proof (zlen_nonneg (Write4 (zlen ps))).
    pose proof (zlen_nonneg IMGDIFF_MAGIC). unfold INT_MAX in *. lia. }
  destruct (layout 0 ps out Hall (IMGDIFF_MAGIC ++ Write4 (zlen ps)) [] (total_header_size ps)
    (IMGDIFF_MAGIC ++ Write4 (zlen ps) ++ write_headers (total_header_size ps) ps ++ write_patches ps))
    as [need Hn].
  - by rewrite <- app_assoc.
  - rewrite app_nil_r, zlen_app, (headers_size _ 0), Et. done.
  - done.
  - exists need, (length ps). split_and!; [| |done].
    + apply (zslice_at _ [] (IMGDIFF_MAGIC ++ Write4 (zlen ps)) (write_headers (total_header_size ps) ps ++ write_patches ps)); done.
    + rewrite !zlen_app in Hl. pose proof (zlen_nonneg (write_patches ps)).
      pose proof (zlen_nonneg (Write4 (zlen ps))). pose proof (zlen_nonneg IMGDIFF_MAGIC).
      assert (zlen ps ≤ zlen (write_headers (total_header_size ps) ps)); [|unfold zlen in *; lia].
      clear. generalize (total_header_size ps). induction ps as [|p ps IH]; intros o; [done|].
      rewrite write_headers_cons, zlen_app, zlen_cons, record_size. specialize (IH (next_offset o p)).
      assert (1 ≤ header_size p); [|lia]. unfold header_size. pose proof (zlen_nonneg p.2). repeat case_decide; lia.
Qed.
End layout.

(** * Images *)
Section images.
Context `{Abi} `{B : Bz2} `{Z1 : Zlib} `{!DeflateLaws Z1} `{!DeflateStarts Z1} `{!InflateLaws Z1}
  `{!InflateSound Z1}.
Hypothesis host : long_bits = 64.
Context (fresh : nat → Z).

Lemma chain_end Q img a cs b e : chain Q img a cs b → Forall (inside e) cs → 0 ≤ a ≤ e → e < 2 ^ 63 → b ≤ e.
Proof.
  revert a. induction cs as [|c cs IH]; intros a Hc Hi Ha He; [cbn in Hc; lia|].
  destruct Hc as (E & _ & Hc). apply Forall_cons in Hi as [(? & ? & ?) Hi].
  eapply IH; [done|done| |done]. rewrite (size_t_small host); lia.
Qed.
Lemma sound_impl (Q Q' : bytes → bytes → Prop) img c :
  (∀ z d, c_data c = Block d → Q z d → Q' z d) → sound Q img c → sound Q' img c.
Proof.
  intros HQ [HI Hc]. split; [done|]. destruct Hc as [?|[? (d & n & z & ? & ? & ? & ? & ? & ? & ?)]]; [by left|right].
  split; [done|]. exists d, n, z. split_and!; auto.
Qed.
Lemma chain_impl (Q Q' : bytes → bytes → Prop) img a cs b :
  Forall (λ c, ∀ z d, c_data c = Block d → Q z d → Q' z d) cs → chain Q img a cs b → chain Q' img a cs b.
Proof.
  revert a. induction cs as [|c cs IH]; intros a Hq Hc; [done|]. apply Forall_cons in Hq as [Hq Hqs].
  destruct Hc as (? & ? & ?). split_and!; [done|by eapply sound_impl|by apply IH].
Qed.

(** The chunks of an image lie in it: it does not end inside the trailer of a gzip
    member; and their data, with [extra] bytes more, can be addressed by an [int]. *)
Definition well_read (fuel : nat) (d : bytes) (extra : Z) : Prop :=
  ∀ img cs, ReadImage fuel (Some d) = Done (Some (img, cs)) →
    Forall (λ c, inside (zlen d) c ∧ c_len c + extra ≤ INT_MAX) cs.

Definition small_member (extra : Z) (z d : bytes) : Prop := member z d ∧ zlen d + extra ≤ INT_MAX.
Lemma ReadImage_chain fuel d extra img cs : is_bytes d → zlen d ≤ INT_MAX → well_read fuel d extra →
  ReadImage fuel (Some d) = Done (Some (img, cs)) →
  img = d ++ replicate 4 0 ∧ chain (small_member extra) img 0 cs (zlen d) ∧ Forall (inside (zlen d)) cs.
Proof.
  intros Hb Hd Hw E. pose proof (Hw _ _ E) as Hi.
  destruct (ReadImage_ok host fuel d img cs Hb Hd E) as (-> & e & Hc & _ & He).
  assert (Forall (inside (zlen d)) cs) as Hin by (eapply Forall_impl; [done|]; by intros c [? _]).
  pose proof (zlen_nonneg d). unfold INT_MAX in Hd.
  assert (e = zlen d) as -> by (pose proof (chain_end _ _ _ _ _ _ Hc Hin); lia).
  split_and!; try done. assert (Forall (sound member (d ++ replicate 4 0)) cs) as Hs by (by eapply chain_sound).
  eapply chain_impl; [|done]. rewrite Forall_forall in Hi, Hs |- *. intros c Hcs z d' Hd' Hm.
  split; [done|]. destruct (Hi c Hcs) as [_ Hl].
  destruct (Hs c Hcs) as [_ [[_ Hx]|[_ (d0 & n & z0 & Ed & El & _)]]]; [congruence|].
  rewrite Hd' in Ed. injection Ed as <-. lia.
Qed.

Definition image_ready (old img_s : bytes) (extra : Z) (i : nat) (src tgt : list ImageChunk) : Prop :=
  ∀ k s t, src !! (i + k)%nat = Some s → tgt !! k = Some t →
    sound (small_member extra) img_s s ∧ inside (zlen old) s ∧ c_type s = c_type t.

Lemma image_step old bonus i src t tgt j s s1 :
  let img_s := old ++ replicate 4 0 in let extra := zlen (default [] bonus) in
  is_bytes old → is_bytes (default [] bonus) → image_ready old img_s extra i src (t :: tgt) → pick false i src t = Done j → src !! j = Some s →
  with_bonus false bonus i s = Done s1 →
  source_ok old img_s bonus i (c_type t) s1 ∧
  ∀ s', (∃ I, s' = set_I I s1) → cached img_s s' → image_ready old img_s extra (S i) (<[j := s']> src) tgt.
Proof.
  intros img_s extra Hbo Hbb HR [= <-] Es E1.
  assert (is_bytes img_s) as Hbs by (apply Forall_app; split; [done|repeat constructor; done]).
  assert (is_bytes (bonus_at bonus i)) as Hbi by (unfold bonus_at; case_decide; [done|constructor]).
  destruct (HR 0%nat s t) as ((HI & Hsh) & (Hi1 & Hi2 & Hi3) & Hty); [by rewrite Nat.add_0_r|done|].
  split.
  2: { intros s' _ _ k s2 t2 Hs2 Ht2. rewrite list_lookup_insert_ne in Hs2 by lia.
       apply (HR (S k)); [|done]. by rewrite Nat.add_succ_r. }
  assert (s1 = s ∧ bonus_at bonus i = [] ∨
    ∃ b, c_data s = Block b ∧ s1 = set_data (c_len s + zlen (bonus_at bonus i)) (Block (b ++ bonus_at bonus i)) s)
    as Hs1.
  { unfold with_bonus, append_bonus, bonus_at in *. destruct bonus as [b|].
    - destruct (decide (i = 1%nat)) as [->|Hne].
      + rewrite decide_True in E1 by done. destruct (c_data s) as [|d]; [done|]. injection E1 as <-.
        right. by exists d.
      + rewrite decide_False in E1 by (by intros [_ ?]). injection E1 as <-. by left.
    - injection E1 as <-. left. split; [done|]. by case_decide. }
  split_and!.
  - split; [|intros sa Hsa; exfalso; destruct Hs1 as [[-> _]|(b & _ & ->)]; destruct s; simpl in *; congruence].
    destruct Hs1 as [[-> _]|(b & Hd & ->)]; [intros d; by apply (sound_bytes _ img_s s d Hbs (conj HI Hsh))|].
    destruct Hsh as [[_ Hd']|[_ (d0 & n & z & Ed & El & _ & Hb0 & _)]]; [congruence|].
    rewrite Hd in Ed. injection Ed as ->. intros d Ez. unfold chunk_data in Ez.
    replace (at_ptr _ _ _) with (zslice (d0 ++ bonus_at bonus i) 0 (c_len s + zlen (bonus_at bonus i))) in Ez by (by destruct s).
    rewrite at_block in Ez by (rewrite zlen_app; lia). injection Ez as <-. by apply Forall_app.
  - intros Tn. rewrite Tn in Hty.
    destruct Hsh as [[_ Hd]|[Td _]]; [|exfalso; by eauto using normal_not_deflate].
    destruct Hs1 as [[-> _]|(b & Hb & _)]; [|congruence]. split; [done|]. intros d Hz.
    rewrite raw_len_normal in Hi3 by done. by eapply zslice_app_l.
  - intros Td. rewrite Td in Hty. right.
    destruct Hsh as [[Tn _]|[_ (d & n & z & Ed & El & _ & _ & Hdf & Hz & Hm & Hlim)]];
      [exfalso; by eauto using normal_not_deflate|].
    assert (raw_len s = n) as Hr by (unfold raw_len; by rewrite Hty, Hdf).
    pose proof (zslice_length _ _ _ _ Hz) as (Hzl & _).
    assert (c_data s1 = Block (d ++ bonus_at bonus i) ∧ c_len s1 = zlen (d ++ bonus_at bonus i) ∧
      c_deflate s1 = Some (c_start s1, n) ∧ c_start s1 = c_start s) as (F1 & F2 & F3 & F4).
    { destruct Hs1 as [[-> ->]|(b & Hb & ->)]; [by rewrite app_nil_r|].
      rewrite Ed in Hb. injection Hb as <-. rewrite zlen_app, <- El. by destruct s. }
    rewrite F4 in *. destruct (inflate_once _ z d (c_len s1) Hm) as [st' Hinf].
    { rewrite F2, zlen_app. pose proof (zlen_nonneg (bonus_at bonus i)). lia. }
    exists d, z, n, st'. rewrite Hzl in *. split_and!; try done.
    + rewrite F2, zlen_app. assert (zlen (bonus_at bonus i) ≤ extra); [|lia].
      unfold bonus_at, extra. case_decide; [done|]. apply zlen_nonneg.
    + eapply zslice_app_l; [done|]. rewrite Hr in Hi3. lia.
Qed.

(** The loop over an image: what it needs holds at the start. *)
Lemma image_ready_start old img_s extra src tgt : Forall (sound (small_member extra) img_s) src →
  Forall (inside (zlen old)) src → c_type <$> src = c_type <$> tgt → image_ready old img_s extra 0 src tgt.
Proof.
  intros Hs Hi Ht k s t Hk Hk'. cbn [Nat.add] in Hk. rewrite Forall_lookup in Hs, Hi. split_and!; [by eapply Hs|by eapply Hi|].
  apply (f_equal (lookup k)) in Ht. rewrite !list_lookup_fmap, Hk, Hk' in Ht. by injection Ht.
Qed.

Lemma diff_images_describes fuel old tgt bonus patch :
  is_bytes old → is_bytes tgt → is_bytes (default [] bonus) → zlen old ≤ INT_MAX → zlen tgt + 4 ≤ INT_MAX →
  well_read fuel old (zlen (default [] bonus)) → well_read fuel tgt 0 →
  diff_images fresh fuel bonus (Some old) (Some tgt) = Done (0, Some patch) → zlen patch ≤ INT_MAX →
  ∃ need, image_patch old patch bonus need tgt.
Proof.
  intros Hbo Hbt Hbb Hlo Hlt Hwo Hwt E Hlp. unfold diff_images in E.
  destruct (ReadImage fuel (Some old)) as [[[img_s src]|]| |] eqn:Es; try done. cbn [mbind run_bind] in E.
  destruct (ReadImage fuel (Some tgt)) as [[[img_t tg]|]| |] eqn:Et; try done. cbn [mbind run_bind] in E.
  destruct (ReadImage_chain _ _ _ _ _ Hbo Hlo Hwo Es) as (-> & Hcs & His).
  destruct (ReadImage_chain _ _ _ _ _ Hbt ltac:(lia) Hwt Et) as (-> & Hct & Hit).
  case_decide as Hty; [done|].
  assert (zlen old < 2 ^ 63 ∧ zlen tgt < 2 ^ 63) as [Ho63 Ht63] by (unfold INT_MAX in *; lia).
  pose proof (merge_inside host _ _ _ _ _ _ Ho63 Hcs His) as His1.
  pose proof (merge_inside host _ _ _ _ _ _ Ht63 Hct Hit) as Hit1.
  apply (merge_chain host) in Hcs, Hct; try lia.
  unfold diff_chunks in E.
  destruct (normalize _ _ _ _ _ _ _ _) as [[src2 tg2]| |] eqn:En; try done. cbn [mbind run_bind] in E.
  set (img_s := old ++ replicate 4 0) in *. set (img_t := tgt ++ replicate 4 0) in *.
  destruct (normalize_ok (small_member (zlen (default [] bonus))) (small_member 0) img_s img_t (zlen old)
    (zlen tgt) false _ _ _ _ _ _ _ En) as ((Hs2 & Hc2 & Hi2 & Hty2) & [Ht2 Hit2] & Hr2); try done.
  { split; [by eapply chain_sound|]. by split_and!. }
  { intros k t Hk. lia. }
  pose proof (merge_types _ _ _ _ _ _ _ _ _ _ Hc2 Ht2 Hty2) as Hty3.
  rewrite decide_False in E.
  2: { intros [_ Hne]. apply Hne. apply (f_equal length) in Hty3. by rewrite !length_fmap in Hty3. }
  pose proof (merge_inside host _ _ _ _ _ _ Ho63 Hc2 Hi2) as Hi3.
  apply (merge_chain host) in Hc2, Ht2; try lia.
  destruct (make_patches _ _ _ _ _ _ _ _ _) as [[ps|]| |] eqn:Em; try done. injection E as <-.
  eapply make_patches_ok with (R := image_ready old (old ++ replicate 4 0) (zlen (default [] bonus)))
    (old := old) (bonus := bonus) in Em as (out & Hall & Hz & Hout); try done.
  - assert (out = tgt) as ->; [|by apply patch_file_describes].
    assert (zlen out = zlen tgt) as Hl by lia. rewrite Hl in Hz. apply zslice_app_l in Hz; [|lia].
    rewrite zslice_full in Hz. by injection Hz.
  - split; [|unfold img_t; rewrite zlen_app; change (zlen (replicate 4 0)) with 4; lia].
    apply Forall_app. split; [done|]. repeat constructor; done.
  - intros. by eapply image_step.
  - apply image_ready_start; [by eapply chain_sound|done|done].
  - apply merge_forall; [done|]. intros c Tn Td. exfalso. by eauto using normal_not_deflate.
  - pose proof (zlen_nonneg img_t). lia.
Qed.
End images.

(** * Zip files *)
Section zips.
Context `{Abi} `{B : Bz2} `{Z1 : Zlib} `{!DeflateLaws Z1} `{!DeflateStarts Z1} `{!InflateLaws Z1}
  `{!InflateSound Z1}.
Hypothesis host : long_bits = 64.
Context (fresh : nat → Z) (heap : Z).
Hypothesis fresh_ok : ∀ i, in_u 8 (fresh i).
Hypothesis heap_ok : heap < 2 ^ 63.

(** What [inflate] gives for the data of an entry fills the block when the size in the directory
    is right. *)
Definition inflated_entry (z d : bytes) : Prop :=
  ∃ out used st', inflate inflate_start.2 z (zlen d) = (Z_STREAM_END, out, used, st') ∧
    (zlen out = zlen d → d = out).
Definition whole_entry (z d : bytes) : Prop :=
  ∃ used st', inflate inflate_start.2 z (zlen d) = (Z_STREAM_END, d, used, st').
(** The directory tells the size of the data of the chunk. *)
Definition honest (img : bytes) (c : ImageChunk) : Prop :=
  ∀ d z, c_data c = Block d → deflate_data img c = Done z →
    zlen (inflate inflate_start.2 z (zlen d)).1.1.2 = zlen d.

Lemma honest_sound img c : honest img c → sound inflated_entry img c → sound whole_entry img c.
Proof.
  intros Hh [HI [?|[? (d & n & z & Ed & El & ? & ? & Edf & Hz & (out & used & st' & Hinf & Ho))]]].
  { split; [done|by left]. }
  split; [done|]. right. split; [done|]. exists d, n, z. split_and!; try done.
  assert (deflate_data img c = Done z) as Hdz.
  { unfold deflate_data. rewrite Edf. cbn [access mbind run_bind]. by rewrite Hz. }
  specialize (Hh d z Ed Hdz). rewrite Hinf in Hh. simpl in Hh. rewrite <- (Ho Hh) in Hinf. by exists used, st'.
Qed.

Definition good_entry (e : ZipFileEntry) : Prop :=
  0 ≤ data_offset e ≤ INT_MAX ∧ in_s 32 (ze_deflate_len e) ∧ in_s 32 (uncomp_len e).

Lemma central_entries_ok n img cd acc es : is_bytes img → zlen img + 65536 ≤ INT_MAX →
  central_entries n img cd acc = Done (Some es) → Forall good_entry acc → Forall good_entry es.
Proof.
  intros Hb Hl. revert cd acc. induction n as [|n IH]; intros cd acc E Ha; [by injection E as <-|].
  cbn [central_entries] in E.
  destruct (starts_with _ img cd) as [m| |]; try done. cbn [mbind run_bind] in E. destruct m; [|done]. simpl negb in E.
  destruct (Read4 img (cd + 20)) as [clen|] eqn:E20; [|done]. cbn [access mbind run_bind] in E.
  destruct (Read4 img (cd + 24)) as [ulen|] eqn:E24; [|done]. cbn [access mbind run_bind] in E.
  destruct (Read2 img (cd + 28)) as [nlen|]; [|done]. cbn [access mbind run_bind] in E.
  destruct (Read2 img (cd + 30)) as [xlen|]; [|done]. cbn [access mbind run_bind] in E.
  destruct (Read2 img (cd + 32)) as [mlen|]; [|done]. cbn [access mbind run_bind] in E.
  destruct (Read4 img (cd + 42)) as [hoff|]; [|done]. cbn [access mbind run_bind] in E.
  destruct (zslice img (cd + 46) nlen) as [fn|] eqn:Efn; [|done]. cbn [access mbind run_bind] in E.
  destruct (Read2 img (cd + 10)) as [method|]; [|done]. cbn [access mbind run_bind] in E.
  case_decide; [by eapply IH|].
  destruct (starts_with _ img hoff) as [m| |] eqn:Elh; try done. cbn [mbind run_bind] in E. destruct m; [|done]. simpl negb in E.
  destruct (Read2 img (hoff + 26)) as [lnlen|]; [|done]. cbn [access mbind run_bind] in E.
  assert (0 ≤ hoff) as Hh.
  { cbn [starts_with] in Elh. destruct (znth img hoff) eqn:Ez; [|done]. apply znth_Some in Ez. lia. }
  case_decide as Hln; [done|].
  destruct (zslice img (hoff + 30) nlen) as [nm|] eqn:Enm; [|done]. cbn [access mbind run_bind mret run_ret] in E.
  destruct (negb _); [done|].
  destruct (Read2 img (hoff + 28)) as [xl|] eqn:Exl; [|done]. cbn [access mbind run_bind] in E.
  eapply IH; [done|]. apply Forall_app. split; [done|]. constructor; [|constructor].
  apply Read4_Some in E20 as (_ & _ & ?), E24 as (_ & _ & ?).
  pose proof (zslice_length _ _ _ _ Enm) as (Hnl & _ & Hend). pose proof (zlen_nonneg nm).
  assert (0 ≤ xl < 65536) as Hxl.
  { unfold Read2, get2LE in Exl. destruct (get2LE_ok img (hoff + 28) Hb) as (v & Ev & ?); [lia|lia|].
    unfold get2LE in Ev. rewrite Exl in Ev. by injection Ev as ->. }
  split; [|by split]. cbn [data_offset]. unfold INT_MAX in *.
  rewrite wrap_s_id by (unfold in_s; lia). lia.
Qed.

Lemma zip_deflate_chunk_ok img pos e c : is_bytes img → zlen img ≤ INT_MAX → good_entry e → 0 ≤ pos →
  zip_deflate_chunk fresh heap img pos e = Done (Some c) →
  sound inflated_entry img c ∧ c_start c = pos ∧ raw_len c = ze_deflate_len e ∧
  0 ≤ ze_deflate_len e ∧ pos + ze_deflate_len e ≤ zlen img.
Proof.
  intros Hb Hl (_ & Hd & Hu) Hp E. unfold zip_deflate_chunk in E. unfold INT_MAX, in_s in *.
  destruct (zslice img pos _) as [input|] eqn:Ein; [|done]. cbn [access mbind run_bind] in E.
  pose proof (zslice_length _ _ _ _ Ein) as (Hil & _ & Hiz).
  assert (0 ≤ ze_deflate_len e) as Hd0.
  { destruct (decide (0 ≤ ze_deflate_len e)); [done|].
    assert (u32 (ze_deflate_len e) = ze_deflate_len e + 2 ^ 32).
    { unfold wrap_u. symmetry. apply Z.mod_unique with (-1); lia. }
    lia. }
  assert (u32 (ze_deflate_len e) = ze_deflate_len e) as Hw by (apply wrap_u_id; unfold in_u; lia).
  rewrite Hw in *. case_decide as Hh; [done|].
  assert (0 ≤ uncomp_len e) as Hu0.
  { destruct (decide (0 ≤ uncomp_len e)); [done|].
    assert (size_t (uncomp_len e) = uncomp_len e + 2 ^ 64).
    { unfold size_t, wrap_u. rewrite host. symmetry. apply Z.mod_unique with (-1); lia. }
    lia. }
  rewrite !(size_t_small host) in E by lia. rewrite wrap_u_id in E by (unfold in_u; lia).
  pose proof inflate_start_ok as Hok. destruct inflate_start as [r0 strm] eqn:Est.
  destruct (inflate strm input (uncomp_len e)) as [[[ret out] used] st'] eqn:Einf.
  case_decide as Hret; [done|].
  destruct (inflate_step _ _ _ _ _ _ _ Einf Hu0) as (_ & Ho & Hbo & _).
  set (block := map fresh (seq 0 (Z.to_nat (uncomp_len e)))) in *.
  assert (zlen block = uncomp_len e) as Hbl by (unfold block, zlen; rewrite length_map, length_seq; lia).
  destruct (store_spec block 0 out) as (a & b & k & Eb & Ha & Hbl' & Est'); [done|lia|].
  rewrite Est' in E. cbn [access mbind run_bind] in E. injection E as <-.
  assert (a = []) as -> by (apply zlen_nil_inv; lia). simpl.
  assert (zlen (out ++ k) = uncomp_len e) as Hdl.
  { rewrite <- Hbl, Eb. unfold zlen. rewrite !length_app. simpl. lia. }
  split_and!; try done; try lia. split; [done|]. right. split; [done|].
  exists (out ++ k), (ze_deflate_len e), input. split_and!; try done.
  - unfold INT_MAX. lia.
  - apply Forall_app. split.
    + apply Hbo. apply zslice_inv in Ein as (x & y & Ei & _). unfold is_bytes in *. rewrite Ei in Hb.
      apply Forall_app in Hb as [_ Hb]. by apply Forall_app in Hb as [? _].
    + assert (Forall (in_u 8) block) as Hf.
      { unfold block. apply Forall_map, Forall_forall. intros i _. apply fresh_ok. }
      rewrite Eb in Hf. simpl in Hf. by apply Forall_app in Hf as [_ ?].
  - exists out, used, st'. rewrite Hdl, Est. simpl. rewrite Einf, Hret. split; [done|].
    intros El. assert (zlen k = 0) as Hk by (rewrite zlen_app in Hdl; lia).
    assert (k = []) as -> by (apply zlen_nil_inv; lia). by rewrite app_nil_r.
Qed.

Lemma zip_chunks_ok fuel img pos es acc cs : is_bytes img → zlen img ≤ INT_MAX → Forall good_entry es →
  0 ≤ pos ≤ INT_MAX → zip_chunks fresh heap fuel img (zlen img) pos es acc = Done (Some cs) →
  ∃ k e, cs = acc ++ k ∧ chain inflated_entry img pos k e ∧ zlen img ≤ e ≤ INT_MAX.
Proof.
  intros Hb Hl. revert pos es acc. induction fuel as [|fuel IH]; intros pos es acc Hes Hp E;
    cbn [zip_chunks] in E; case_decide as Hpos; try done.
  - injection E as <-. exists [], pos. split_and!; [by rewrite app_nil_r|done|lia|lia].
  - unfold INT_MAX in *. assert (∀ d, 0 ≤ d ≤ 2147483647 →
      s32 (pos + size_t (d - pos)) = d ∧ size_t (pos + size_t (d - pos)) = d) as Hjump.
    { intros d Hd. split.
      - rewrite <- (wrap_s_id 32 d) at 2 by (unfold in_s; lia). unfold wrap_s, size_t, wrap_u. rewrite host.
        f_equal. rewrite (Z.mod_eq (d - pos)) by lia.
        replace (pos + (d - pos - 2 ^ 64 * ((d - pos) / 2 ^ 64)) + 2 ^ (32 - 1))
          with (d + 2 ^ (32 - 1) + (- 2 ^ 32 * ((d - pos) / 2 ^ 64)) * 2 ^ 32) by lia.
        by rewrite Z.mod_add by lia.
      - rewrite (size_t_add_r host). rewrite (size_t_small host); lia. }
    destruct es as [|e es].
    + destruct (Hjump (zlen img) ltac:(lia)) as [J1 J2]. rewrite J1 in E.
      apply IH in E as (k & e & -> & Hk & He); [|done|lia].
      exists (normal_chunk_of pos (size_t (zlen img - pos)) :: k), e.
      split_and!; [by rewrite <- app_assoc|split_and!; [done|apply normal_chunk_sound|]|lia|lia].
      rewrite raw_len_normal by done. cbn. by rewrite J2.
    + apply Forall_cons in Hes as [He Hes]. case_decide as Hd.
      * destruct (zip_deflate_chunk _ _ _ _ _) as [[c|]| |] eqn:Ec; try done. cbn [mbind run_bind] in E.
        apply zip_deflate_chunk_ok in Ec as (Hs & Est & Hr & Hn & Hend); [|done|done|done|lia].
        rewrite (size_t_small host) in E by lia. rewrite wrap_s_id in E by (unfold in_s; lia).
        apply IH in E as (k & e' & -> & Hk & He'); [|done|lia].
        exists (c :: k), e'. split_and!; [by rewrite <- app_assoc|split_and!; try done|lia|lia].
        rewrite Hr, (size_t_small host) by lia. done.
      * destruct (Hjump (data_offset e)) as [J1 J2]; [by destruct He as [? _]|]. rewrite J1 in E.
        apply IH in E as (k & e' & -> & Hk & He'); [|by constructor|by destruct He as [? _]].
        exists (normal_chunk_of pos (size_t (data_offset e - pos)) :: k), e'.
        split_and!; [by rewrite <- app_assoc|split_and!; [done|apply normal_chunk_sound|]|lia|lia].
        rewrite raw_len_normal by done. cbn. by rewrite J2.
  - injection E as <-. exists [], pos. split_and!; [by rewrite app_nil_r|done|lia|lia].
Qed.

Lemma ReadZip_ok d b img cs : is_bytes d → zlen d + 65536 ≤ INT_MAX →
  ReadZip fresh heap (Some d) b = Done (Some (img, cs)) → img = d ∧
  ∃ k e, cs = (if b then [pseudo_chunk (zlen d)] else []) ++ k ∧ chain inflated_entry d 0 k e ∧
    zlen d ≤ e ≤ INT_MAX.
Proof.
  intros Hb Hl E. cbn [ReadZip] in E.
  destruct (find_eocd_back _ _ _ _) as [i| |]; try done. cbn [mbind run_bind] in E.
  destruct (starts_with _ d (i + 4)) as [[]| |]; try done. cbn [mbind run_bind negb] in E.
  destruct (Read2 d (i + 8)) as [n|]; [|done]. cbn [access mbind run_bind] in E.
  destruct (Read4 d (i + 16)) as [o|]; [|done]. cbn [access mbind run_bind] in E.
  destruct (central_entries _ _ _ _) as [[es|]| |] eqn:Ec; try done. cbn [mbind run_bind] in E.
  apply central_entries_ok in Ec as Hes; [|done|done|constructor].
  destruct (zip_chunks _ _ _ _ _ _ _ _) as [[k|]| |] eqn:Ek; try done. injection E as <- <-.
  split; [done|]. eapply zip_chunks_ok; [done|lia| |unfold INT_MAX; lia|done].
  by rewrite qsort_Permutation.
Qed.

Definition zip_ready (img : bytes) (_ : nat) (src _ : list ImageChunk) : Prop :=
  Forall (λ s, sound whole_entry img (set_I None s) ∧ cached img s) src ∧
  ∃ p, src !! 0%nat = Some p ∧ pseudo img p.

Lemma zip_step img b0 i src t tgt j s s1 : zip_ready img i src (t :: tgt) →
  pick true i src t = Done j → src !! j = Some s → with_bonus true b0 i s = Done s1 →
  source_ok img img None i (c_type t) s1 ∧
  ∀ s', (∃ I, s' = set_I I s1) → cached img s' → zip_ready img (S i) (<[j := s']> src) tgt.
Proof.
  intros [Hs (p & Hp & Hps)] Ej Es E1.
  assert (s1 = s) as ->.
  { unfold with_bonus in E1. destruct b0; [rewrite decide_False in E1 by (by intros [? _])|]; by injection E1 as <-. }
  pose proof (Forall_lookup_1 _ _ _ _ Hs Es) as [Hsound Hca].
  assert (∀ i, bonus_at None i = []) as Hbon by (intros i0; unfold bonus_at; by case_decide).
  split.
  - split_and!; [done| |].
    + intros Tn. unfold pick in Ej. rewrite decide_False in Ej by (by rewrite Tn). injection Ej as <-.
      rewrite Hp in Es. injection Es as <-. destruct Hps as (_ & Hst & _ & Hd & _). by rewrite Hst, Hd.
    + intros Td. unfold pick, find_source in Ej. rewrite decide_True in Ej by done.
      destruct (c_filename t) as [name|]; [|done]. cbn [access mbind run_bind mret run_ret] in Ej.
      destruct (FindChunkByName name src) as [j'|] eqn:Ef; injection Ej as <-.
      2: { simpl in Es. rewrite Hp in Es. injection Es as <-. left. apply Hps. }
      simpl in Es. unfold FindChunkByName in Ef. apply fmap_Some in Ef as ([j0 s0] & Ef & ->).
      apply list_find_Some in Ef as (Es0 & [Ts _] & _). simpl in Es. rewrite Es0 in Es. injection Es as ->.
      right. destruct Hsound as [_ Hsh].
      assert (c_type (set_I None s) = c_type s ∧ c_data (set_I None s) = c_data s ∧ c_len (set_I None s) = c_len s ∧
        c_deflate (set_I None s) = c_deflate s ∧ c_start (set_I None s) = c_start s) as (G1 & G2 & G3 & G4 & G5)
        by (by destruct s).
      rewrite G1 in Hsh. destruct Hsh as [[Tn _]|[_ Hdf]]; [exfalso; by eauto using normal_not_deflate|].
      unfold holds_deflate in Hdf. rewrite G2, G3, G4, G5 in Hdf.
      destruct Hdf as (d & n & z & Ed & El & Hl & _ & Edf & Hz & (used & st' & Hinf)).
      pose proof (zslice_length _ _ _ _ Hz) as (Hzl & _).
      exists d, z, used, st'. rewrite Hbon, app_nil_r, El, Hzl. split_and!; try done; lia.
  - intros s' [I ->] Hca'. split.
    + apply Forall_insert; [done|]. split; [|done]. by destruct s.
    + destruct (decide (j = 0%nat)) as [->|Hne].
      * exists (set_I I s). rewrite list_lookup_insert_eq by (by eapply lookup_lt_Some). split; [done|].
        rewrite Hp in Es. injection Es as <-. by destruct p.
      * exists p. by rewrite list_lookup_insert_ne.
Qed.


Lemma diff_zips_describes fuel old tgt bonus patch :
  is_bytes old → is_bytes tgt → zlen old + 65536 ≤ INT_MAX → zlen tgt + 65536 ≤ INT_MAX →
  (∀ img cs, ReadZip fresh heap (Some old) true = Done (Some (img, cs)) → Forall (honest old) cs) →
  diff_zips fresh heap fuel bonus (Some old) (Some tgt) = Done (0, Some patch) → zlen patch ≤ INT_MAX →
  ∃ need, image_patch old patch None need tgt.
Proof.
  intros Hbo Hbt Hlo Hlt Hh E Hlp. unfold diff_zips in E.
  destruct (ReadZip fresh heap (Some old) true) as [[[img_s src]|]| |] eqn:Es; try done. cbn [mbind run_bind] in E.
  destruct (ReadZip fresh heap (Some tgt) false) as [[[img_t tg]|]| |] eqn:Et; try done. cbn [mbind run_bind] in E.
  specialize (Hh _ _ eq_refl).
  apply ReadZip_ok in Es as (-> & k & es & -> & Hcs & _); [|done|done].
  apply ReadZip_ok in Et as (-> & kt & et & Htg & Hct & Het); [|done|done]. simpl in Htg. subst kt.
  assert (Forall (sound whole_entry old) (pseudo_chunk (zlen old) :: k)) as Hsrc.
  { apply Forall_cons in Hh as [_ Hh]. constructor; [apply normal_chunk_sound|].
    apply chain_sound in Hcs. rewrite Forall_lookup in Hcs, Hh |- *. intros i c Hc.
    apply honest_sound; [by eapply Hh|by eapply Hcs]. }
  unfold diff_chunks in E.
  destruct (normalize _ _ _ _ _ _ _ _) as [[src2 tg2]| |] eqn:En; try done. cbn [mbind run_bind] in E.
  destruct (normalize_ok whole_entry inflated_entry old tgt 0 et true _ _ _ _ _ _ _ En)
    as ((Hs2 & (p & Hp & Hps)) & [Ht2 _] & Hr2); try done.
  { split; [done|]. exists (pseudo_chunk (zlen old)). by split_and!. }
  { intros i t Hi. lia. }
  rewrite decide_False in E by (by intros [? _]).
  destruct (make_patches _ _ _ _ _ _ _ _ _) as [[ps|]| |] eqn:Em; try done. injection E as <-.
  apply (merge_chain host) in Ht2; [|lia].
  eapply make_patches_ok with (R := zip_ready old) (old := old) (bonus := None)
    in Em as (out & Hall & Hz & Hout); try done.
  - assert (out = tgt) as ->; [|by apply patch_file_describes].
    pose proof (zslice_length _ _ _ _ Hz) as (_ & _ & Hle). assert (zlen out = zlen tgt) as Hl by lia.
    rewrite Hl, zslice_full in Hz. by injection Hz.
  - split; [done|lia].
  - intros. by eapply zip_step.
  - split; [|by exists p]. eapply Forall_impl; [exact Hs2|]. intros c [HI Hc]. split; [split; by destruct c|].
    split; [intros d; by apply (sound_bytes whole_entry old c d Hbo (conj HI Hc))|].
    intros sa Hsa. by rewrite HI in Hsa.
  - apply merge_forall; [done|]. intros c Tn Td. exfalso. by eauto using normal_not_deflate.
  - pose proof (zlen_nonneg tgt). lia.
Qed.
End zips.
