(* ===== verification/DiffTools.v ===== *)
(** From the host tools to the device: what [bsdiff] and [imgdiff] write, the updater turns back into the
    new file, whatever the files are.  Then the images on which [imgdiff] does not do that. *)
From S2P Require Import Prelude CLib Bytes Bz2 ZlibSha BsPatch BsDiff SufSort ImgPatch ImgDiff ImgRoundTrip.

(** * Files *)

(** [bsdiff] called without a suffix array: it ends without an error, and the device makes the new file
    again, wherever the patch is in the file it reads. *)
Lemma bsdiff_ends `{Bz2} sfuel fresh old new : is_bytes old → is_bytes new →
  zlen old ≤ INT_MAX → zlen new ≤ INT_MAX → (33 ≤ sfuel)%nat →
  run_ok (bsdiff sfuel fresh None old new) (λ '(sa, patch), sa ≡ₚ seqZ 0 (zlen old + 1) ∧
    ∃ cs d e q, replay old 0 cs d e new q ∧ (length cs ≤ S (length new))%nat ∧
      patch = Some (patch_file cs d e (zlen new))).
Proof.
  intros Ho Hn Hlo Hln Hf.
  destruct (qsufsort_ok old Ho sfuel fresh ltac:(lia)) as (sa & Esa & Hsa).
  { eapply Z.le_lt_trans; [exact Hlo|]. eapply Z.lt_le_trans; [|apply (Z.pow_le_mono_r 2 32); lia]. done. }
  pose proof (permutation_positions sa old Hsa) as Hpos.
  destruct (bsdiff_ok sfuel fresh sa old new Hpos Hn Hln) as ([sa' patch] & E & (-> & Hcs)).
  exists (sa, patch). split; [|done]. unfold bsdiff in *. by rewrite Esa.
Qed.

(** C1: Two files given to [bsdiff]: it ends without an error for every pair of files of up to 2 GB, with a
    permutation of the positions of the old file as its suffix array, and the patch makes the new file
    wherever it is in the file the device reads. *)
Theorem bsdiff_files_apply `{Abi, B : Bz2, !Bz2Laws B} fresh fresh' heap sfuel fuel old new pre post :
  is_bytes old → is_bytes new → zlen old ≤ INT_MAX → zlen new ≤ INT_MAX → zlen new ≤ heap →
  (33 ≤ sfuel)%nat → (2 * length new + 25 ≤ fuel)%nat →
  run_ok (bsdiff sfuel fresh None old new) (λ '(sa, patch), sa ≡ₚ seqZ 0 (zlen old + 1) ∧
    ∃ file, patch = Some file ∧
      (zlen (pre ++ file ++ post) ≤ INT_MAX →
       ApplyBSDiffPatchMem fresh' heap fuel old (pre ++ file ++ post) (zlen pre) = Done (0, new))).
Proof.
  intros Ho Hn Hlo Hln Hh Hs Hf. eapply run_ok_weaken; [by apply bsdiff_ends|].
  intros [sa patch] (Hsa & cs & d & e & q & Hr & Hc & ->). split; [done|].
  eexists. split; [done|]. intros Hsz. eapply ApplyBSDiffPatchMem_ok; try done. lia.
Qed.

(** * Images and zip files *)

(** The arguments before the file names, and the bonus data they name. *)
Definition bonus_args (files : string → option bytes) (opts : list string) (bonus : option bytes) : Prop :=
  opts = [] ∧ bonus = None ∨ ∃ f b, opts = ["-b"; f]%string ∧ files f = Some b ∧ bonus = Some b.

Section main.
Context {Ah : Abi} `{B : Bz2} `{Z1 : Zlib}.
Context (fresh : nat → Z) (heap : Z) (fuel : nat) (files : string → option bytes).

Lemma main_images prog opts src tgt out bonus : bonus_args files opts bonus → src ≠ "-z"%string → src ≠ "-b"%string →
  main fresh heap fuel files (prog :: opts ++ [src; tgt; out]) = diff_images fresh fuel bonus (files src) (files tgt).
Proof.
  intros [[-> ->]|(f & b & -> & Ef & ->)] Hz Hb; unfold main.
  - simpl. rewrite (bool_decide_eq_false_2 (Some src = _)) by congruence.
    rewrite (bool_decide_eq_false_2 (_ ∧ _)) by (intros [_ E]; simpl in E; congruence). done.
  - simpl. by rewrite Ef.
Qed.
Lemma main_zips prog opts src tgt out bonus : bonus_args files opts bonus → src ≠ "-b"%string →
  main fresh heap fuel files (prog :: "-z"%string :: opts ++ [src; tgt; out]) =
    diff_zips fresh heap fuel bonus (files src) (files tgt).
Proof.
  intros [[-> ->]|(f & b & -> & Ef & ->)] Hb; unfold main.
  - simpl. rewrite (bool_decide_eq_false_2 (_ ∧ _)) by (intros [_ E]; simpl in E; congruence). done.
  - simpl. by rewrite Ef.
Qed.
End main.

(** A sink of the device that takes up to [limit] bytes. *)
Definition takes {T} (sink : T → bytes → Z * T) (contents : T → bytes) (limit : Z) : Prop :=
  limit ≤ INT_MAX ∧ ∀ t d, zlen (contents t ++ d) ≤ limit →
    ∃ t', sink t d = (zlen d, t') ∧ contents t' = contents t ++ d.

(** C4: [imgdiff] of two images, with or without bonus data, on a 64-bit host: when it succeeds, any device turns the old
    image and the patch into exactly the new image, through any sink with room for it.  No gzip member may
    end behind its image ([well_read]; see [image_inside_trailer]). *)
Theorem imgdiff_image_applies {Ah Ad : Abi} `{B : Bz2, !Bz2Laws B} `{Z1 : Zlib, !DeflateLaws Z1, !DeflateStarts Z1,
    !InflateLaws Z1, !InflateSound Z1} `{S1 : Sha, !ShaLaws S1} {T} (sink : T → bytes → Z * T) contents limit
    fresh fresh' heap heap' hfuel files prog opts src tgt out bonus old new patch :
  @long_bits Ah = 64 → bonus_args files opts bonus → src ≠ "-z"%string → src ≠ "-b"%string →
  files src = Some old → files tgt = Some new → is_bytes old → is_bytes new → is_bytes (default [] bonus) →
  zlen old ≤ INT_MAX → zlen new + 4 ≤ INT_MAX →
  well_read (H := Ah) hfuel old (zlen (default [] bonus)) → well_read (H := Ah) hfuel new 0 →
  main (H := Ah) fresh heap hfuel files (prog :: opts ++ [src; tgt; out]) = Done (0, Some patch) →
  zlen patch ≤ INT_MAX → INT_MAX ≤ heap' → takes sink contents limit →
  ∃ need, ∀ fuel token ctx, (need ≤ fuel)%nat → zlen (contents token ++ new) ≤ limit →
    ∃ token', contents token' = contents token ++ new ∧
      ApplyImagePatch (H := Ad) fresh' heap' sink fuel old patch token ctx bonus = Done (0, token', SHA_update ctx new).
Proof.
  intros Hh Hopts Hz Hb Es Et Ho Hn Hbb Hlo Hln Hwo Hwn E Hp Hheap [Hl Hsink].
  rewrite (main_images _ _ _ _ prog opts src tgt out bonus) in E by done. rewrite Es, Et in E.
  apply diff_images_describes in E as [need Hd]; try done. exists need. intros fuel token ctx Hf Hlen.
  by apply (image_patch_applies (H := Ad) sink contents limit fresh' heap' fuel need).
Qed.

(** C17: The same for two zip files, whose directories tell the sizes of their entries truly.  The device is given no
    bonus data: [imgdiff] does not use it for zip files. *)
Theorem imgdiff_zip_applies {Ah Ad : Abi} `{B : Bz2, !Bz2Laws B} `{Z1 : Zlib, !DeflateLaws Z1, !DeflateStarts Z1,
    !InflateLaws Z1, !InflateSound Z1} `{S1 : Sha, !ShaLaws S1} {T} (sink : T → bytes → Z * T) contents limit
    fresh fresh' heap heap' hfuel files prog opts src tgt out bonus old new patch :
  @long_bits Ah = 64 → (∀ i, in_u 8 (fresh i)) → heap < 2 ^ 63 →
  bonus_args files opts bonus → src ≠ "-b"%string →
  files src = Some old → files tgt = Some new → is_bytes old → is_bytes new →
  zlen old + 65536 ≤ INT_MAX → zlen new + 65536 ≤ INT_MAX →
  (∀ img cs, ReadZip (H := Ah) fresh heap (Some old) true = Done (Some (img, cs)) → Forall (honest old) cs) →
  main (H := Ah) fresh heap hfuel files (prog :: "-z"%string :: opts ++ [src; tgt; out]) = Done (0, Some patch) →
  zlen patch ≤ INT_MAX → INT_MAX ≤ heap' → takes sink contents limit →
  ∃ need, ∀ fuel token ctx, (need ≤ fuel)%nat → zlen (contents token ++ new) ≤ limit →
    ∃ token', contents token' = contents token ++ new ∧
      ApplyImagePatch (H := Ad) fresh' heap' sink fuel old patch token ctx None = Done (0, token', SHA_update ctx new).
Proof.
  intros Hh Hfr Hhp Hopts Hb Es Et Ho Hn Hlo Hln Hhon E Hp Hheap [Hl Hsink].
  rewrite (main_zips _ _ _ _ prog opts src tgt out bonus) in E by done. rewrite Es, Et in E.
  apply diff_zips_describes in E as [need Hd]; try done. exists need. intros fuel token ctx Hf Hlen.
  apply (image_patch_applies (H := Ad) sink contents limit fresh' heap' fuel need); try done. unfold INT_MAX in *. lia.
Qed.

(** Four bytes tell a gzip header. *)
Lemma not_magic `{Abi} img i x : znth img i = Some x → x ≠ 31 → starts_with GZIP_MAGIC img i = Done false.
Proof. intros E Hx. unfold GZIP_MAGIC. cbn [starts_with]. rewrite E. cbn [access mbind run_bind]. by rewrite decide_False. Qed.
(** ** Images without gzip members *)
Section plain.
Context `{Abi} `{B : Bz2} `{Z1 : Zlib}.
Context (fresh : nat → Z) (fuel : nat) (bonus : option bytes).

Lemma scan_plain d n i : 31 ∉ d → (i ≤ length d)%nat → (length d ≤ n + i)%nat →
  scan_normal n (d ++ replicate 4 0) (zlen d) 0 (Z.of_nat i) = Done (zlen d).
Proof.
  intros Hd. revert i. induction n as [|n IH]; intros i Hi Hn; cbn [scan_normal].
  { rewrite decide_False by (unfold zlen; lia). f_equal. unfold zlen. lia. }
  case_decide; [|f_equal; unfold zlen in *; lia].
  destruct (lookup_lt_is_Some_2 d i ltac:(unfold zlen in *; lia)) as [x Ex].
  rewrite (not_magic _ (0 + Z.of_nat i) x); [cbn [mbind run_bind]| |].
  - replace (Z.of_nat i + 1) with (Z.of_nat (S i)) by lia. apply lookup_lt_Some in Ex. apply IH; lia.
  - rewrite znth_app_l, znth_lookup by (unfold zlen in *; lia). by replace (Z.to_nat (0 + Z.of_nat i)) with i by lia.
  - intros ->. apply Hd. by eapply list_elem_of_lookup_2.
Qed.
Lemma ReadImage_plain d : 31 ∉ d → d ≠ [] → (1 ≤ fuel)%nat →
  ReadImage fuel (Some d) = Done (Some (d ++ replicate 4 0, [normal_chunk_of 0 (zlen d)])).
Proof.
  intros Hd Hne Hf. destruct fuel as [|fuel']; [lia|]. unfold ReadImage. cbn [image_chunks].
  destruct d as [|x d]; [done|]. assert (0 < zlen (x :: d)) by (rewrite zlen_cons; pose proof (zlen_nonneg d); lia).
  rewrite decide_True by lia. rewrite (not_magic _ 0 x) by (done || set_solver). rewrite Z.sub_0_r.
  pose proof (scan_plain (x :: d) (Z.to_nat (zlen (x :: d))) 0 Hd ltac:(lia) ltac:(unfold zlen; lia)) as Hs.
  change (Z.of_nat 0) with 0 in Hs.
  case_decide; cbn [mbind run_bind mret run_ret]; rewrite Hs; cbn [mbind run_bind]; rewrite Z.add_0_l;
    destruct fuel' as [|fuel']; cbn [image_chunks]; by rewrite decide_False by lia.
Qed.

(** A patch with one record. *)
Lemma patch_one_raw t d : c_type t = CHUNK_RAW → zlen (patch_file_of [(t, d)]) ≤ zlen d + 40.
Proof.
  destruct t as [ty a l da [[s1 s2] s3] i df fn [[[[p1 p2] p3] p4] p5]]. cbn [c_type]. intros ->.
  change (patch_file_of _) with (IMGDIFF_MAGIC ++ Write4 1 ++ (Write4 CHUNK_RAW ++ (Write4 (zlen d) ++ d ++ [])) ++ ([] : bytes)).
  rewrite !zlen_app. unfold zlen. simpl. lia.
Qed.
Lemma patch_one_normal t d : c_type t = CHUNK_NORMAL → zlen (patch_file_of [(t, d)]) = zlen d + 40.
Proof.
  destruct t as [ty a l da [[s1 s2] s3] i df fn [[[[p1 p2] p3] p4] p5]]. cbn [c_type]. intros ->.
  set (off := total_header_size [(mkChunk CHUNK_NORMAL a l da (s1, s2, s3) i df fn (p1, p2, p3, p4, p5), d)]).
  change (patch_file_of _) with (IMGDIFF_MAGIC ++ Write4 1 ++
    (Write4 CHUNK_NORMAL ++ (Write8 s1 ++ Write8 s2 ++ Write8 off ++ [])) ++ (d ++ [])).
  rewrite !zlen_app. unfold zlen. simpl. lia.
Qed.

Lemma merge_one c : c_type c = CHUNK_NORMAL → MergeAdjacentNormalChunks [c] = [c].
Proof. intros Hc. unfold MergeAdjacentNormalChunks. cbn [length merge_runs normal_run]. rewrite decide_False by (by intros E). done. Qed.

Lemma MakePatch_plain old new : is_bytes old → is_bytes new → zlen old ≤ INT_MAX → zlen new ≤ INT_MAX → (33 ≤ fuel)%nat →
  run_ok (MakePatch fresh fuel (old ++ replicate 4 0) (new ++ replicate 4 0) (normal_chunk_of 0 (zlen old)) (normal_chunk_of 0 (zlen new)))
    (λ r, ∃ d s t, r = Some (d, s, t) ∧ (c_type t = CHUNK_RAW ∧ d = new ∨ c_type t = CHUNK_NORMAL ∧ zlen d < zlen new)).
Proof.
  intros Ho Hn Hlo Hln Hf.
  assert (∀ d : bytes, chunk_data (d ++ replicate 4 0) (normal_chunk_of 0 (zlen d)) = Done d) as Hcd.
  { intros d. unfold chunk_data. cbn [at_ptr normal_chunk_of c_data c_len]. by rewrite (zslice_app [] d (replicate 4 0) : zslice (d ++ _) 0 _ = _). }
  unfold MakePatch, as_raw. rewrite !Hcd. cbn [mbind run_bind].
  assert (∀ s, run_ok (mret (Some (new, s, set_type CHUNK_RAW (normal_chunk_of 0 (zlen new)))) : run (option (bytes * ImageChunk * ImageChunk)))
    (λ r, ∃ d s t, r = Some (d, s, t) ∧ (c_type t = CHUNK_RAW ∧ d = new ∨ c_type t = CHUNK_NORMAL ∧ zlen d < zlen new))) as Hraw.
  { intros s. apply run_ok_ret. do 3 eexists. split; [done|]. by left. }
  case_decide; [apply Hraw|].
  eapply run_ok_bind; [by apply bsdiff_ends|]. intros [sa patch] (_ & cs & d & e & q & _ & _ & ->).
  cbn [mret mbind run_ret run_bind]. case_decide as Hbig; [apply Hraw|]. rewrite decide_True by done.
  apply run_ok_ret. do 3 eexists. split; [done|]. right. split; [done|]. 
  apply Z.nle_gt. intros Hle. apply Hbig. by split.
Qed.

(** The diff of two images without the first byte of a gzip header ends with a patch that is hardly longer than the image. *)
Lemma diff_plain old new : is_bytes old → is_bytes new → 31 ∉ old → 31 ∉ new → old ≠ [] → new ≠ [] →
  zlen old ≤ INT_MAX → zlen new ≤ INT_MAX → (33 ≤ fuel)%nat →
  ∃ patch, diff_images fresh fuel bonus (Some old) (Some new) = Done (0, Some patch) ∧ zlen patch ≤ zlen new + 40.
Proof.
  intros Ho Hn H1 H2 Hne1 Hne2 Hlo Hln Hf. unfold diff_images. rewrite !ReadImage_plain by (done || lia).
  cbn [mbind run_bind]. rewrite !merge_one by done. rewrite decide_False by (by intros E; apply E).
  unfold diff_chunks. cbn [normalize length lookup list_lookup access mbind run_bind mret run_ret].
  rewrite decide_True by (by vm_compute). cbn [mbind run_bind mret run_ret]. rewrite !merge_one by done.
  rewrite decide_False by (by intros [_ E]; apply E). cbn [make_patches].
  cbn [mbind run_bind mret run_ret lookup list_lookup access].
  assert (∀ c : ImageChunk, (match bonus with
    | Some b => if decide (false = false ∧ 0%nat = 1%nat) then append_bonus b c else Done c | None => Done c end) = Done c) as ->.
  { intros c. destruct bonus; [|done]. by rewrite decide_False by (by intros [_ ?]). }
  cbn [mbind run_bind].
  destruct (MakePatch_plain old new Ho Hn Hlo Hln Hf) as (r & -> & d & s & t & -> & Ht). cbn [mbind run_bind].
  eexists. split; [done|]. destruct Ht as [[Ht ->]|[Ht Hd]]; [by apply patch_one_raw|].
  rewrite patch_one_normal by done. lia.
Qed.
Lemma well_read_plain d extra : 31 ∉ d → d ≠ [] → (1 ≤ fuel)%nat → zlen d + extra ≤ INT_MAX → well_read fuel d extra.
Proof.
  intros Hd Hne Hf Hl img cs E. rewrite ReadImage_plain in E by done. injection E as <- <-. constructor; [|constructor].
  pose proof (zlen_nonneg d). unfold inside. rewrite raw_len_normal by done. cbn [normal_chunk_of c_start c_len]. lia.
Qed.
End plain.

(** C16: On two non-empty images in which the byte 0x1f, the first of a gzip header, does not occur, [imgdiff] always succeeds,
    with a patch at most 40 bytes longer than the new image, and the device makes the new image from it.  (With the bytes of a header
    alone it may not end: [truncated_header_hangs].) *)
Theorem imgdiff_plain_images {Ah Ad : Abi} `{B : Bz2, !Bz2Laws B} `{Z1 : Zlib, !DeflateLaws Z1, !DeflateStarts Z1,
    !InflateLaws Z1, !InflateSound Z1} `{S1 : Sha, !ShaLaws S1} {T} (sink : T → bytes → Z * T) contents limit
    fresh fresh' heap heap' hfuel files prog opts src tgt out bonus old new :
  @long_bits Ah = 64 → bonus_args files opts bonus → src ≠ "-z"%string → src ≠ "-b"%string →
  files src = Some old → files tgt = Some new → is_bytes old → is_bytes new → is_bytes (default [] bonus) →
  31 ∉ old → 31 ∉ new → old ≠ [] → new ≠ [] →
  zlen old + zlen (default [] bonus) ≤ INT_MAX → zlen new + 40 ≤ INT_MAX → (33 ≤ hfuel)%nat →
  INT_MAX ≤ heap' → takes sink contents limit →
  ∃ patch, main (H := Ah) fresh heap hfuel files (prog :: opts ++ [src; tgt; out]) = Done (0, Some patch) ∧
    zlen patch ≤ zlen new + 40 ∧
    ∃ need, ∀ fuel token ctx, (need ≤ fuel)%nat → zlen (contents token ++ new) ≤ limit →
      ∃ token', contents token' = contents token ++ new ∧
        ApplyImagePatch (H := Ad) fresh' heap' sink fuel old patch token ctx bonus = Done (0, token', SHA_update ctx new).
Proof.
  intros Hh Hopts Hz Hb Es Et Ho Hn Hbb H1 H2 Hne1 Hne2 Hlo Hln Hf Hheap [Hl Hsink].
  pose proof (zlen_nonneg (default [] bonus)).
  rewrite (main_images _ _ _ _ prog opts src tgt out bonus), Es, Et by done.
  destruct (diff_plain (H := Ah) fresh hfuel bonus old new) as (patch & E & Hp); try done; try lia.
  exists patch. split; [done|]. split; [done|].
  apply diff_images_describes in E as [need Hd]; try done; try lia; [|apply well_read_plain; done || lia..].
  exists need. intros fuel token ctx Hf' Hlen.
  apply (image_patch_applies (H := Ad) sink contents limit fresh' heap' fuel need); try done; lia.
Qed.

(** * Images that do not end *)

Section hang.
Context `{Abi} `{Zlib}.
Context (pre : bytes).
Hypothesis no_magic : 31 ∉ pre.
Let img := (pre ++ [31; 139; 8]) ++ replicate 4 0.
Let size := zlen (pre ++ [31; 139; 8]).

Lemma tail_magic : starts_with GZIP_MAGIC img (zlen pre) = Done true.
Proof.
  unfold img. rewrite <- app_assoc. unfold GZIP_MAGIC. cbn [starts_with].
  rewrite <- (Z.add_0_r (zlen pre)) at 1. rewrite znth_app_r by lia. cbn [access mbind run_bind]. simpl.
  rewrite <- !Z.add_assoc, !znth_app_r by lia. done.
Qed.
Lemma scan_pre n i : (i ≤ length pre)%nat → (length pre ≤ n + i)%nat →
  scan_normal (S n) img size 0 (Z.of_nat i) = Done (zlen pre).
Proof.
  assert (size = zlen pre + 3) as Hsize by (unfold size; by rewrite zlen_app).
  revert i. induction n as [|n IH]; intros i Hi Hn; cbn [scan_normal]; rewrite decide_True by (unfold zlen in *; lia).
  - replace (Z.of_nat i) with (zlen pre) by (unfold zlen; lia). by rewrite Z.add_0_l, tail_magic.
  - destruct (decide (i = length pre)) as [->|Hne].
    + fold (zlen pre). change (0 + zlen pre) with (zlen pre). by rewrite tail_magic.
    + destruct (lookup_lt_is_Some_2 pre i ltac:(lia)) as [x Ex].
      rewrite (not_magic img (0 + Z.of_nat i) x); [cbn [mbind run_bind]| |].
      * replace (Z.of_nat i + 1) with (Z.of_nat (S i)) by lia. apply (IH (S i)); lia.
      * unfold img. rewrite <- app_assoc, znth_app_l by (apply lookup_lt_Some in Ex; unfold zlen; lia).
        rewrite znth_lookup by lia. by replace (Z.to_nat (0 + Z.of_nat i)) with i by lia.
      * intros ->. apply no_magic. by eapply list_elem_of_lookup_2.
Qed.
Lemma chunks_hang fuel acc : image_chunks fuel img size (zlen pre) acc = OutOfFuel.
Proof.
  assert (size = zlen pre + 3) as Hsize by (unfold size; by rewrite zlen_app).
  revert acc. induction fuel as [|fuel IH]; intros acc; cbn [image_chunks]; rewrite decide_True by lia; [done|].
  rewrite decide_False by lia. cbn [mbind run_bind mret run_ret]. replace (size - zlen pre) with 3 by lia.
  change (Z.to_nat 3) with 3%nat. cbn [scan_normal]. rewrite decide_True by lia. rewrite Z.add_0_r, tail_magic.
  cbn [mbind run_bind mret run_ret]. rewrite Z.add_0_r. apply IH.
Qed.
End hang.

(** The scan for the next gzip header also looks at the four zero bytes behind the image.  On an image that
    ends in the first three bytes of the header it finds one there, where the image is too short to be read
    as a member: [imgdiff] makes empty chunks for ever. *)
Lemma truncated_header_hangs `{Abi} `{Zlib} fuel pre : 31 ∉ pre →
  ReadImage fuel (Some (pre ++ [31; 139; 8])) = OutOfFuel.
Proof.
  intros Hpre. unfold ReadImage. destruct pre as [|x pre]; [by rewrite (chunks_hang [])|].
  destruct fuel as [|fuel]; cbn [image_chunks]; rewrite decide_True by (rewrite zlen_app; unfold zlen; simpl; lia); [done|].
  rewrite (not_magic _ 0 x) by (done || set_solver).
  assert (∀ c : bool, (if c then Done false else mret false) = Done false) as Hgz by (by intros []).
  case_decide as H4; cbn [mbind run_bind mret run_ret].
  all: rewrite Z.sub_0_r.
  all: pose proof (scan_pre (x :: pre) Hpre (Z.to_nat (zlen ((x :: pre) ++ [31; 139; 8])) - 1) 0) as Hs.
  all: replace (S (Z.to_nat _ - 1)) with (Z.to_nat (zlen ((x :: pre) ++ [31; 139; 8]))) in Hs by (rewrite zlen_app; unfold zlen; simpl; lia).
  all: change (Z.of_nat 0) with 0 in Hs; rewrite Hs by (rewrite ?zlen_app; unfold zlen; simpl; lia).
  all: cbn [mbind run_bind]; rewrite Z.add_0_l; by rewrite chunks_hang.
Qed.

(** A gzip member that [inflate] refuses: the loop only looks at the end of the stream, so an error is tried
    again for ever. *)
Section corrupt.
Context `{Abi} `{Zlib}.
Context (body : bytes) (ret : Z).
Definition corrupt_image : bytes := GZIP_MAGIC ++ replicate 6 0 ++ body.
(** [inflate] answers [ret] and keeps its state; documented for a corrupt stream. *)
Hypothesis refused : inflate inflate_start.2 body 32768 = (ret, [], 0, inflate_start.2).
Hypothesis not_end : ret ≠ Z_STREAM_END.

Lemma inflate_member_stuck fuel : inflate_member fuel inflate_start.2 body 32768 [] = OutOfFuel.
Proof.
  induction fuel as [|fuel IH]; [done|]. cbn [inflate_member]. rewrite decide_False by (by vm_compute).
  change (32768 - zlen []) with 32768. rewrite refused. change (Z.to_nat 0) with 0%nat. rewrite drop_0.
  rewrite (decide_True _ _ not_end). exact IH.
Qed.
Lemma corrupt_member_hangs fuel : zlen body ≤ INT_MAX → ReadImage fuel (Some corrupt_image) = OutOfFuel.
Proof.
  intros Hl. pose proof (zlen_nonneg body). unfold INT_MAX in *.
  assert (zlen corrupt_image = zlen body + 10) as Hsz.
  { unfold corrupt_image. rewrite !zlen_app. change (zlen GZIP_MAGIC) with 4. change (zlen (replicate 6 0)) with 6. lia. }
  unfold ReadImage. destruct fuel as [|fuel]; cbn [image_chunks]; rewrite decide_True by lia; [done|].
  rewrite decide_True by lia. unfold corrupt_image at 1. change (starts_with GZIP_MAGIC _ 0) with (Done true).
  cbn [mbind run_bind]. unfold gzip_member. rewrite Hsz. replace (zlen body + 10 - (0 + GZIP_HEADER_LEN)) with (zlen body) by (unfold GZIP_HEADER_LEN; lia).
  rewrite wrap_u_id by (unfold in_u; lia).
  assert (zslice (corrupt_image ++ replicate 4 0) (0 + GZIP_HEADER_LEN) (zlen body) = Some body) as ->.
  { unfold corrupt_image. change (0 + GZIP_HEADER_LEN) with (zlen (GZIP_MAGIC ++ replicate 6 0)).
    rewrite (app_assoc GZIP_MAGIC), <- app_assoc. apply zslice_app. }
  cbn [access mbind run_bind]. pose proof (inflate_member_stuck (S fuel)) as Hst.
  destruct inflate_start as [r0 strm]. cbn [snd] in Hst. by rewrite Hst.
Qed.
End corrupt.

(** * Examples *)
#[local] Existing Instance abi64.

Definition gzip_example (data : bytes) : bytes :=
  GZIP_MAGIC ++ replicate 6 0 ++ copy_deflate data ++ [9; 9; 9; 9] ++ set4LE (zlen data).
Definition ramp (n : nat) (a : Z) : bytes := map (λ i, a + Z.of_nat i `mod` 50) (seq 0 n).
Definition old_image : bytes := ramp 200 1 ++ gzip_example (ramp 60 10) ++ [5; 6; 7].
Definition new_image : bytes := [9; 9] ++ ramp 201 1 ++ gzip_example (ramp 60 12) ++ [5; 6; 8].
Definition bonus_example : bytes := [1; 2; 3].

(** A zip file with one compressed entry. *)
Definition zip_example (name data : bytes) : bytes :=
  let z := copy_deflate data in
  let sizes := set4LE (zlen z) ++ set4LE (zlen data) in
  let lh := [80; 75; 3; 4; 20; 0; 0; 0; 8; 0; 0; 0; 0; 0; 1; 2; 3; 4] ++ sizes ++ set2LE (zlen name) ++ set2LE 0 ++ name in
  let cd := [80; 75; 1; 2; 20; 0; 20; 0; 0; 0; 8; 0; 0; 0; 0; 0; 1; 2; 3; 4] ++ sizes ++ set2LE (zlen name) ++
    replicate 16 0 ++ name in
  lh ++ z ++ cd ++ [80; 75; 5; 6; 0; 0; 0; 0; 1; 0; 1; 0] ++ set4LE (zlen cd) ++ set4LE (zlen (lh ++ z)) ++ [0; 0].
Definition old_zip : bytes := zip_example [97; 98] (ramp 60 10).
Definition new_zip : bytes := zip_example [97; 98] (ramp 61 10).

Definition files_example (f : string) : option bytes :=
  list_to_map (M := gmap string bytes)
    [("old", old_image); ("new", new_image); ("bonus", bonus_example); ("old.zip", old_zip); ("new.zip", new_zip);
     ("plain.old", ramp 300 40); ("plain.new", ramp 250 40)]%string !! f.
Definition made_patch (argv : list string) : bytes :=
  match main (λ _, 7) (2 ^ 40) 400 files_example argv with Done (_, Some p) => p | _ => [] end.
Definition image_argv : list string := ["imgdiff"; "-b"; "bonus"; "old"; "new"; "out"]%string.
Definition zip_argv : list string := ["imgdiff"; "-z"; "old.zip"; "new.zip"; "out"]%string.

Lemma read_all (P : ImageChunk → Prop) `{∀ c, Decision (P c)} (r : run (option (bytes * list ImageChunk))) :
  match r with Done (Some (_, cs)) => bool_decide (Forall P cs) | _ => true end = true →
  ∀ img cs, r = Done (Some (img, cs)) → Forall P cs.
Proof. intros Hr img cs ->. by apply bool_decide_eq_true in Hr. Qed.
#[local] Instance inside_dec n c : Decision (inside n c).
Proof. unfold inside. apply _. Defined.
#[local] Instance honest_dec img c : Decision (honest img c).
Proof.
  destruct (c_data c) as [off|d] eqn:Ed; [left; unfold honest; intros d z E; congruence|].
  destruct (deflate_data img c) as [z| |] eqn:Ez;
    [|left; intros d' z' _ E; congruence|left; intros d' z' _ E; congruence].
  destruct (decide (zlen (inflate inflate_start.2 z (zlen d)).1.1.2 = zlen d)) as [E|E].
  - left. intros d' z' Ed' Ez'. congruence.
  - right. intros Hh. by apply E, Hh.
Defined.

Lemma bsdiff_files_apply_witness :
  run_ok (bsdiff (H := stored_bz2) 33 (λ _, 7) None old_example new_example) (λ '(sa, patch), sa ≡ₚ seqZ 0 (zlen old_example + 1) ∧
    ∃ file, patch = Some file ∧
      (zlen ([1; 2] ++ file ++ [3]) ≤ INT_MAX →
       ApplyBSDiffPatchMem (λ _, 7) 100 100 old_example ([1; 2] ++ file ++ [3]) (zlen [1; 2]) = Done (0, new_example))).
Proof.
  apply bsdiff_files_apply; try (apply (bool_decide_unpack _); by vm_compute); by (apply Nat.leb_le; vm_compute).
Defined.

Lemma list_sink_takes : takes list_sink (λ t, t) INT_MAX.
Proof. split; [done|]. intros t d _. by exists (t ++ d). Qed.

Lemma imgdiff_image_applies_witness :
  ∃ need, ∀ fuel token ctx, (need ≤ fuel)%nat → zlen (token ++ new_image) ≤ INT_MAX →
    ∃ token', token' = token ++ new_image ∧
      ApplyImagePatch (H := abi32) (λ _, 0) INT_MAX list_sink fuel old_image (made_patch image_argv) token ctx (Some bonus_example) =
        Done (0, token', SHA_update ctx new_image).
Proof.
  apply (imgdiff_image_applies (Ah := abi64) (Ad := abi32) list_sink (λ t, t) INT_MAX (λ _, 7) (λ _, 0) (2 ^ 40) INT_MAX 400
    files_example "imgdiff" ["-b"; "bonus"]%string "old" "new" "out" (Some bonus_example)).
  - done.
  - right. exists "bonus"%string, bonus_example. by vm_compute.
  - done.
  - done.
  - by vm_compute.
  - by vm_compute.
  - apply (bool_decide_unpack _). by vm_compute.
  - apply (bool_decide_unpack _). by vm_compute.
  - apply (bool_decide_unpack _). by vm_compute.
  - by vm_compute.
  - by vm_compute.
  - refine (read_all _ _ _). by vm_compute.
  - refine (read_all _ _ _). by vm_compute.
  - by vm_compute.
  - by vm_compute.
  - done.
  - apply list_sink_takes.
Defined.

Lemma imgdiff_plain_images_witness :
  ∃ patch, main (λ _, 7) (2 ^ 40) 400 files_example ["imgdiff"; "plain.old"; "plain.new"; "out"]%string = Done (0, Some patch) ∧
    zlen patch ≤ zlen (ramp 250 40) + 40 ∧
    ∃ need, ∀ fuel token ctx, (need ≤ fuel)%nat → zlen (token ++ ramp 250 40) ≤ INT_MAX →
      ∃ token', token' = token ++ ramp 250 40 ∧
        ApplyImagePatch (H := abi32) (λ _, 0) INT_MAX list_sink fuel (ramp 300 40) patch token ctx None =
          Done (0, token', SHA_update ctx (ramp 250 40)).
Proof.
  apply (imgdiff_plain_images (Ah := abi64) (Ad := abi32) list_sink (λ t, t) INT_MAX (λ _, 7) (λ _, 0) (2 ^ 40) INT_MAX 400
    files_example "imgdiff" [] "plain.old" "plain.new" "out" None).
  - done.
  - by left.
  - done.
  - done.
  - by vm_compute.
  - by vm_compute.
  - apply (bool_decide_unpack _). by vm_compute.
  - apply (bool_decide_unpack _). by vm_compute.
  - constructor.
  - apply (bool_decide_unpack _). by vm_compute.
  - apply (bool_decide_unpack _). by vm_compute.
  - done.
  - done.
  - by vm_compute.
  - by vm_compute.
  - lia.
  - done.
  - apply list_sink_takes.
Defined.

Lemma imgdiff_zip_applies_witness :
  ∃ need, ∀ fuel token ctx, (need ≤ fuel)%nat → zlen (token ++ new_zip) ≤ INT_MAX →
    ∃ token', token' = token ++ new_zip ∧
      ApplyImagePatch (H := abi32) (λ _, 0) INT_MAX list_sink fuel old_zip (made_patch zip_argv) token ctx None =
        Done (0, token', SHA_update ctx new_zip).
Proof.
  apply (imgdiff_zip_applies (Ah := abi64) (Ad := abi32) list_sink (λ t, t) INT_MAX (λ _, 7) (λ _, 0) (2 ^ 40) INT_MAX 400
    files_example "imgdiff" [] "old.zip" "new.zip" "out" None).
  - done.
  - by intros i.
  - done.
  - by left.
  - done.
  - by vm_compute.
  - by vm_compute.
  - apply (bool_decide_unpack _). by vm_compute.
  - apply (bool_decide_unpack _). by vm_compute.
  - by vm_compute.
  - by vm_compute.
  - refine (read_all _ _ _). by vm_compute.
  - by vm_compute.
  - by vm_compute.
  - done.
  - apply list_sink_takes.
Defined.

Lemma truncated_header_hangs_witness : ReadImage 1000 (Some ([1; 2; 3; 4; 5] ++ [31; 139; 8])) = OutOfFuel.
Proof. apply (truncated_header_hangs 1000 [1; 2; 3; 4; 5]). set_solver. Defined.

(** The copying codec refuses bytes other than 0 and 1. *)
Example corrupt_member_example : ReadImage 50 (Some (corrupt_image [5; 6; 7; 8])) = OutOfFuel.
Proof. apply (corrupt_member_hangs [5; 6; 7; 8] (-5)); [by vm_compute|done|done]. Qed.

(** An image cut inside the trailer of a gzip member: the four zero bytes behind the image are taken for the
    end of the trailer, so the patch makes an image that is longer than the file. *)
Definition cut_image : bytes := GZIP_MAGIC ++ replicate 6 0 ++ copy_deflate [] ++ [9; 9; 9; 9].
Definition cut_files (f : string) : option bytes := Some cut_image.
Definition cut_patch : bytes :=
  match main (λ _, 7) (2 ^ 40) 400 cut_files ["imgdiff"; "old"; "new"; "out"]%string with Done (_, Some p) => p | _ => [] end.
Example image_inside_trailer :
  main (λ _, 7) (2 ^ 40) 400 cut_files ["imgdiff"; "old"; "new"; "out"]%string = Done (0, Some cut_patch) ∧
  ApplyImagePatch (λ _, 0) INT_MAX list_sink 4000 cut_image cut_patch [] SHA_init None =
    Done (0, cut_image ++ [0; 0; 0; 0], SHA_update SHA_init (cut_image ++ [0; 0; 0; 0])).
Proof. split; by vm_compute. Qed.
