(* ===== verification/Retouch.v ===== *)
(** Masking retouched (address-randomized) libraries: [minelf/Retouch.c].

    The object is the list of its bytes; 32-bit words are little-endian, as on
    every machine the code runs on. *)
From S2P Require Import Prelude Bytes.

(** [sizeof(prelink_info_t)] and [sizeof(retouch_info_t)]; both are packed. *)
Definition sizeof_prelink_info : Z := 8.
Definition sizeof_retouch_info : Z := 12.

Definition RETOUCH_DONT_MASK : Z := 0.
Definition RETOUCH_DO_MASK : Z := 1.
Definition RETOUCH_DATA_ERROR : Z := 0.
Definition RETOUCH_DATA_MATCHED : Z := 1.
Definition RETOUCH_DATA_MISMATCHED : Z := 2.
Definition RETOUCH_DATA_NOTAPPLICABLE : Z := 3.

(** The decoder's static state: [offs_prev], an [int32_t], and [cont_prev], a
    [uint32_t]. *)
Record Compression := mkCompression { offs_prev : Z; cont_prev : Z }.
Definition init_compression_state : Compression := mkCompression 0 0.

(** The offset and the contents an encoding stands for. *)
Definition decode_bytes (st : Compression) (encoded_bytes : bytes) (encoded_size : Z)
    : option (Z * Z) :=
  let e i := znth encoded_bytes i in
  if decide (encoded_size = 2) then
    e0 ← e 0; e1 ← e 1;
    let dst_offset := s32 (offs_prev st + (Z.shiftr (Z.land e0 0x60) 5 + 1) * 4) in
    let tmp := Z.lor (Z.shiftl (Z.land e0 0x1f) 8) e1 in
    let tmp := if decide (Z.land tmp 0x1000 ≠ 0) then s32 (Z.lor 0xffffe000 tmp) else tmp in
    Some (dst_offset, u32 (cont_prev st + tmp))
  else if decide (encoded_size = 3) then
    e0 ← e 0; e1 ← e 1; e2 ← e 2;
    let dst_offset := s32 (offs_prev st + (Z.shiftr (Z.land e0 0x30) 4 + 1) * 4) in
    let tmp := Z.lor (Z.lor (Z.shiftl (Z.land e0 0x0f) 16) (Z.shiftl e1 8)) e2 in
    let tmp := if decide (Z.land tmp 0x80000 ≠ 0) then s32 (Z.lor 0xfff00000 tmp) else tmp in
    Some (dst_offset, u32 (cont_prev st + tmp))
  else
    off ← get4BE encoded_bytes 0;
    cont ← get4BE encoded_bytes 4;
    let dst_offset := s32 off in
    Some (if decide (dst_offset = 0x3fffffff) then -1 else dst_offset, u32 cont).

(** [decode_in_memory] at [b_ptr] of the object: the position after the
    encoding, the offset, the contents and the new state. *)
Definition decode_in_memory (st : Compression) (obj : bytes) (b_ptr : Z)
    : option (Z * Z * Z * Compression) :=
  input0 ← znth obj b_ptr;
  let input_size :=
    if decide (Z.land input0 0x80 ≠ 0) then 2
    else if decide (Z.land input0 0x40 ≠ 0) then 3 else 8 in
  input ← zslice obj b_ptr input_size;
  '(offset, contents) ← decode_bytes st input input_size;
  Some (b_ptr + input_size, offset, contents, mkCompression offset contents).

(** The loop over the entries: the return code, the object and the offset
    candidate.  [desired] is [*desired_offset] or [None] for a null pointer. *)
Fixpoint mask_loop (fuel : nat) (desired : option Z) (p_offs r_offs b_offs target_offset : Z)
    (obj : bytes) (st : Compression) (b_ptr offset_candidate : Z)
    (offset_set offset_mismatch : bool) : run (Z * bytes * Z) :=
  if decide (b_ptr < r_offs) then
    match fuel with
    | O => OutOfFuel
    | S fuel =>
        '(b_ptr, off, original, st) ← access (decode_in_memory st obj b_ptr);
        if decide (off < -1 ∨ b_offs ≤ off) then mret (RETOUCH_DATA_ERROR, obj, offset_candidate)
        else
        let retouch_entry := if decide (off = -1) then p_offs else off in
        obj ← access (if desired then store obj retouch_entry (set4LE (u32 (original + target_offset)))
                      else Some obj);
        word ← access (get4LE obj retouch_entry);
        let this := s32 (u32 (word - original)) in
        if offset_set
        then mask_loop fuel desired p_offs r_offs b_offs target_offset obj st b_ptr
               offset_candidate true
               (offset_mismatch || negb (bool_decide (offset_candidate = this)))
        else mask_loop fuel desired p_offs r_offs b_offs target_offset obj st b_ptr
               this true offset_mismatch
    end
  else if decide (r_offs < b_ptr) then mret (RETOUCH_DATA_ERROR, obj, offset_candidate)
  else if (offset_mismatch : bool) then mret (RETOUCH_DATA_MISMATCHED, obj, offset_candidate)
  else mret (RETOUCH_DATA_MATCHED, obj, offset_candidate).

(** The return code, the object, and [*retouch_offset]. *)
Definition retouch_mask_data (obj : bytes) (desired : option Z) : run (Z * bytes * Z) :=
  let binary_size := s32 (zlen obj) in
  let target_offset := default 0 desired in
  let p_offs := binary_size - sizeof_prelink_info in
  let r_offs := p_offs - sizeof_retouch_info in
  let unmasked := mret (if desired then RETOUCH_DATA_MATCHED else RETOUCH_DATA_NOTAPPLICABLE,
                        obj, target_offset) in
  if decide (r_offs < 0) then unmasked else
  p_tag ← access (zslice obj (p_offs + 4) 4);
  r_tag ← access (zslice obj r_offs 8);
  if decide (p_tag ≠ bytes_of_string "PRE " ∨ r_tag ≠ bytes_of_string "RETOUCH ")
  then unmasked else
  blob_size ← access (get4LE obj (r_offs + 8));
  let b_offs := s32 (r_offs - blob_size) in
  if decide (b_offs < 0) then mret (RETOUCH_DATA_ERROR, obj, target_offset) else
  '(r, obj, offset_candidate) ←
    mask_loop (length obj) desired p_offs r_offs b_offs target_offset obj
      init_compression_state b_offs target_offset false false;
  mret (r, obj, if decide (r = RETOUCH_DATA_MATCHED) then offset_candidate else target_offset).

(** * Proofs *)

Lemma get4LE_is_Some l i : 0 ≤ i → i + 4 ≤ zlen l → ∃ v, get4LE l i = Some v.
Proof.
  intros. unfold get4LE. destruct (proj2 (znth_is_Some l i) ltac:(lia)) as [b0 ->].
  destruct (proj2 (znth_is_Some l (i + 1)) ltac:(lia)) as [b1 ->].
  destruct (proj2 (znth_is_Some l (i + 2)) ltac:(lia)) as [b2 ->].
  destruct (proj2 (znth_is_Some l (i + 3)) ltac:(lia)) as [b3 ->]. by eexists.
Qed.

(** A word written is read back. *)
Lemma get4LE_store l i v l' : store l i (set4LE v) = Some l' → get4LE l' i = Some (u32 v).
Proof.
  unfold store. case_decide as Hd; [|done]. intros [= <-].
  set (a := take _ _). assert (zlen a = i) as Ha.
  { unfold a, zlen in *. rewrite length_take. change (length (set4LE v)) with 4%nat in Hd. lia. }
  clearbody a. subst i. rewrite <- (Z.add_0_r (zlen a)) at 2. rewrite get4LE_app_r by lia. apply get4LE_set4LE.
Qed.

Lemma store_length l i b l' : store l i b = Some l' → zlen l' = zlen l.
Proof.
  unfold store. case_decide as Hd; [|done]. intros [= <-].
  unfold zlen in *. rewrite !length_app, length_take, length_drop. lia.
Qed.

Lemma decode_is_Some st obj b_ptr : 0 ≤ b_ptr → b_ptr + 8 ≤ zlen obj →
  ∃ p off v st', decode_in_memory st obj b_ptr = Some (p, off, v, st') ∧
    b_ptr + 2 ≤ p ≤ b_ptr + 8 ∧ in_u 32 v.
Proof.
  intros Hp Hl. unfold decode_in_memory.
  destruct (proj2 (znth_is_Some obj b_ptr) ltac:(lia)) as [b0 ->]. cbn [mbind option_bind].
  set (n := if decide _ then _ else _).
  assert (n = 2 ∨ n = 3 ∨ n = 8) as Hn by (unfold n; repeat case_decide; auto).
  destruct (proj2 (zslice_is_Some obj b_ptr n) ltac:(lia)) as [input Hi]. rewrite Hi.
  apply zslice_length in Hi as (Hi & _).
  assert (∀ i, 0 ≤ i < n → is_Some (znth input i)) as He by (intros; apply znth_is_Some; lia).
  cbn [mbind option_bind]. unfold decode_bytes.
  destruct Hn as [En|[En|En]]; rewrite En in *.
  - rewrite decide_True by done. destruct (He 0 ltac:(lia)) as [? ->], (He 1 ltac:(lia)) as [? ->].
    cbn [mbind option_bind]. eexists _, _, _, _. split; [done|]. split; [lia|by apply wrap_u_range].
  - rewrite decide_False, decide_True by done.
    destruct (He 0 ltac:(lia)) as [? ->], (He 1 ltac:(lia)) as [? ->], (He 2 ltac:(lia)) as [? ->].
    cbn [mbind option_bind]. eexists _, _, _, _. split; [done|]. split; [lia|by apply wrap_u_range].
  - rewrite !decide_False by done. unfold get4BE.
    destruct (He 0 ltac:(lia)) as [? ->], (He (0 + 1) ltac:(lia)) as [? ->],
      (He (0 + 2) ltac:(lia)) as [? ->], (He (0 + 3) ltac:(lia)) as [? ->],
      (He 4 ltac:(lia)) as [? ->], (He (4 + 1) ltac:(lia)) as [? ->],
      (He (4 + 2) ltac:(lia)) as [? ->], (He (4 + 3) ltac:(lia)) as [? ->].
    cbn [mbind option_bind]. eexists _, _, _, _. split; [done|]. split; [lia|by apply wrap_u_range].
Qed.

Section mask.
Context (desired : option Z) (p_offs r_offs b_offs target : Z).
Hypothesis Hp : r_offs + 12 = p_offs.
Hypothesis Hb : 0 ≤ b_offs.
Hypothesis Htarget : in_s 32 target.

Lemma this_offset v : in_u 32 v → s32 (u32 (u32 (u32 (v + target)) - v)) = target.
Proof.
  intros Hv. unfold wrap_u. rewrite Zmod_mod, Zminus_mod_idemp_l.
  replace (v + target - v) with target by lia.
  unfold wrap_s. rewrite Z.add_mod_idemp_l by lia. by apply (wrap_s_id 32).
Qed.

(** The loop ends, touches only the object, and never reports a mismatch when
    it writes the entries. *)
Lemma mask_loop_ok fuel obj st b_ptr cand set mis :
  zlen obj = p_offs + 8 → b_offs ≤ b_ptr → r_offs - b_ptr ≤ Z.of_nat fuel →
  (desired ≠ None → mis = false ∧ cand = target) →
  run_ok (mask_loop fuel desired p_offs r_offs b_offs target obj st b_ptr cand set mis)
    (λ '(r, obj', cand'), zlen obj' = zlen obj ∧ (desired = None → obj' = obj) ∧
       (desired ≠ None → (r = RETOUCH_DATA_ERROR ∨ r = RETOUCH_DATA_MATCHED) ∧ cand' = target)).
Proof.
  revert obj st b_ptr cand set mis.
  induction fuel as [|fuel IH]; intros obj st b_ptr cand set mis Hl Hbp Hf Hd; cbn [mask_loop];
    (case_decide as Hlt; [|repeat case_decide; [|destruct mis eqn:Em; rewrite ?Em];
       apply run_ok_ret; naive_solver]); [lia|].
  destruct (decode_is_Some st obj b_ptr) as (p & off & v & st' & -> & Hbound & Hv); [lia..|].
  cbn [access mbind run_bind]. case_decide as Ho; [apply run_ok_ret; naive_solver|].
  set (entry := if decide (off = -1) then p_offs else off).
  assert (0 ≤ entry ∧ entry + 4 ≤ zlen obj) as He by (unfold entry; case_decide; lia).
  destruct desired as [d|].
  - destruct (Hd ltac:(done)) as [-> ->]. destruct (store obj entry _) as [obj'|] eqn:Es.
    2: { unfold store in Es. rewrite decide_True in Es; [done|]. change (zlen (set4LE _)) with 4. lia. }
    cbn [access mbind run_bind]. rewrite (get4LE_store _ _ _ _ Es). cbn [access mbind run_bind].
    cbv zeta. rewrite this_offset by done. pose proof (store_length _ _ _ _ Es).
    rewrite bool_decide_eq_true_2 by done.
    destruct set; (eapply run_ok_weaken; [apply IH; [lia|lia|lia|done]|]);
      intros [[r o] c] (E & _ & E'); (split; [lia|split; [done|exact E']]).
  - cbn [access mbind run_bind]. destruct (get4LE_is_Some obj entry) as [w ->]; [lia..|].
    cbn [access mbind run_bind]. cbv zeta.
    destruct set; (eapply run_ok_weaken; [apply IH; [lia|lia|lia|done]|]);
      intros [[r o] c] E; exact E.
Qed.
End mask.

(** Masking keeps the size. *)
Lemma mask_loop_length fuel des p r b t obj st bp cand set mis res obj' c :
  mask_loop fuel des p r b t obj st bp cand set mis = Done (res, obj', c) → zlen obj' = zlen obj.
Proof.
  revert obj st bp cand set mis.
  induction fuel as [|fuel IH]; intros obj st bp cand set mis; cbn [mask_loop];
    (case_decide; [|repeat case_decide; [|destruct mis]; by intros [= _ <- _]]); [done|].
  destruct (decode_in_memory st obj bp) as [[[[bp' off] v] st']|]; [|done].
  cbn [access mbind run_bind]. case_decide; [by intros [= _ <- _]|].
  set (e := if decide (off = -1) then p else off).
  destruct (if des then store obj e (set4LE (u32 (v + t))) else Some obj) as [obj1|] eqn:Es; [|done].
  assert (zlen obj1 = zlen obj) as <-.
  { destruct des; [by eapply store_length|by simplify_eq]. }
  cbn [access mbind run_bind]. destruct (get4LE obj1 e); [|done].
  cbn [access mbind run_bind]. destruct set; apply IH.
Qed.

Lemma retouch_mask_length obj des r obj' o :
  retouch_mask_data obj des = Done (r, obj', o) → zlen obj' = zlen obj.
Proof.
  unfold retouch_mask_data. case_decide; [by intros [= _ <- _]|].
  destruct (zslice _ _ 4); [|done]. cbn [access mbind run_bind].
  destruct (zslice _ _ 8); [|done]. cbn [access mbind run_bind].
  case_decide; [by intros [= _ <- _]|]. destruct (get4LE _ _); [|done]. cbn [access mbind run_bind].
  case_decide; [by intros [= _ <- _]|].
  destruct (mask_loop _ _ _ _ _ _ _ _ _ _ _ _) as [[[r1 o1] c1]| |] eqn:E; [|done|done].
  cbn [mbind run_bind]. intros [= _ <- _]. by eapply mask_loop_length.
Qed.

(** C35: [retouch_mask_data] is safe on every object of at most [INT_MAX] bytes,
    whatever its contents: it ends, without an access outside the object, and
    keeps its size; without a desired offset it only reads; with one it reports
    an error or a match with exactly that offset, never a mismatch. *)
Theorem retouch_mask_safe obj desired :
  zlen obj ≤ INT_MAX → in_s 32 (default 0 desired) →
  run_ok (retouch_mask_data obj desired) (λ '(r, obj', offset),
    zlen obj' = zlen obj ∧ (desired = None → obj' = obj) ∧
    (∀ d, desired = Some d → (r = RETOUCH_DATA_ERROR ∨ r = RETOUCH_DATA_MATCHED) ∧ offset = d)).
Proof.
  intros Hl Hd. unfold retouch_mask_data. pose proof (zlen_nonneg obj).
  unfold INT_MAX in *. rewrite wrap_s_id by (unfold in_s; lia). cbv zeta.
  unfold sizeof_prelink_info, sizeof_retouch_info.
  set (p_offs := zlen obj - 8). set (r_offs := p_offs - 12).
  assert (∀ r : Z, desired = None ∨ r = RETOUCH_DATA_ERROR ∨ r = RETOUCH_DATA_MATCHED →
    run_ok (Done (r, obj, default 0 desired)) (λ '(r, obj', offset),
    zlen obj' = zlen obj ∧ (desired = None → obj' = obj) ∧
    (∀ d, desired = Some d → (r = RETOUCH_DATA_ERROR ∨ r = RETOUCH_DATA_MATCHED) ∧ offset = d)))
    as Hdone.
  { intros r Hr. apply run_ok_done. split_and!; [done|done|]. intros d ->. by destruct Hr. }
  assert (desired = None ∨ (if desired then RETOUCH_DATA_MATCHED else RETOUCH_DATA_NOTAPPLICABLE)
    = RETOUCH_DATA_ERROR ∨ (if desired then RETOUCH_DATA_MATCHED else RETOUCH_DATA_NOTAPPLICABLE)
    = RETOUCH_DATA_MATCHED) as Hun by (destruct desired; auto).
  case_decide; [by apply Hdone|].
  destruct (proj2 (zslice_is_Some obj (p_offs + 4) 4) ltac:(lia)) as [ptag ->].
  destruct (proj2 (zslice_is_Some obj r_offs 8) ltac:(lia)) as [rtag ->].
  cbn [access mbind run_bind]. case_decide; [by apply Hdone|].
  destruct (get4LE_is_Some obj (r_offs + 8)) as [blob ->]; [lia..|]. cbn [access mbind run_bind].
  case_decide; [apply Hdone; auto|].
  eapply run_ok_bind; [apply (mask_loop_ok desired p_offs r_offs _ (default 0 desired));
    try done; unfold zlen in *; lia|].
  intros [[r obj'] cand] (E1 & E2 & E3). apply run_ok_ret. split_and!; [done|done|].
  intros d ->. destruct E3 as [E3 ->]; [done|]. split; [done|]. by case_decide.
Qed.

(** ** What masking writes *)

(** The entries the blob from [b_ptr] on encodes, when the decoder ends exactly
    at [r_offs]. *)
Fixpoint entries (fuel : nat) (obj : bytes) (r_offs : Z) (st : Compression) (b_ptr : Z)
    : option (list (Z * Z)) :=
  if decide (b_ptr < r_offs) then
    match fuel with
    | O => None
    | S fuel =>
        '(b_ptr, off, v, st) ← decode_in_memory st obj b_ptr;
        es ← entries fuel obj r_offs st b_ptr;
        Some ((off, v) :: es)
    end
  else if decide (b_ptr = r_offs) then Some [] else None.

(** Every entry is the prelink address or a word in front of the blob. *)
Definition entries_before (b_offs : Z) (es : list (Z * Z)) : Prop :=
  Forall (λ '(off, _), off = -1 ∨ 0 ≤ off ∧ off + 4 ≤ b_offs) es.

#[global] Instance entries_before_dec b es : Decision (entries_before b es).
Proof. unfold entries_before. apply Forall_dec. intros [off v]. apply _. Defined.

(** The words written with offset [d]. *)
Definition entry_at (p_offs off : Z) : Z := if decide (off = -1) then p_offs else off.
Fixpoint write_entries (p_offs d : Z) (es : list (Z * Z)) (obj : bytes) : option bytes :=
  match es with
  | [] => Some obj
  | (off, v) :: es =>
      obj ← store obj (entry_at p_offs off) (set4LE (u32 (v + d)));
      write_entries p_offs d es obj
  end.

(** Two objects agree where [P] holds. *)
Definition agree (P : Z → Prop) (a b : bytes) : Prop :=
  zlen a = zlen b ∧ ∀ i, P i → znth a i = znth b i.

Lemma agree_refl P a : agree P a a.
Proof. done. Qed.
Lemma agree_eq a b : agree (λ _, True) a b → a = b.
Proof.
  intros [Hl Ha]. apply list_eq. intros i. specialize (Ha (Z.of_nat i) I).
  rewrite !znth_lookup in Ha by lia. by rewrite !Nat2Z.id in Ha.
Qed.
Lemma agree_weaken (P Q : Z → Prop) a b : (∀ i, Q i → P i) → agree P a b → agree Q a b.
Proof. intros HPQ [? ?]. split; auto. Qed.
Lemma agree_trans P a b c : agree P a b → agree P b c → agree P a c.
Proof.
  intros [H1 H2] [H3 H4]. split; [congruence|]. intros i Hi. rewrite H2 by done. auto.
Qed.
Lemma agree_sym P a b : agree P a b → agree P b a.
Proof. intros [H1 H2]. split; [done|]. intros i Hi. symmetry. auto. Qed.

Lemma store_lookup l i b l' j : store l i b = Some l' →
  znth l' j = if decide (i ≤ j < i + zlen b) then znth b (j - i) else znth l j.
Proof.
  unfold store. case_decide as Hd; [|done]. intros [= <-].
  destruct (decide (0 ≤ j)) as [Hj|Hj].
  2: { unfold znth. rewrite (decide_False (P := 0 ≤ j)) by done.
       repeat case_decide; lia || done. }
  pose proof (zlen_nonneg b).
  set (a := take _ _). assert (zlen a = i) as Ha.
  { unfold a, zlen in *. rewrite length_take. lia. }
  destruct (decide (j < i)).
  { rewrite znth_app_l by lia. rewrite decide_False by lia. unfold a, znth.
    rewrite !decide_True by lia. apply lookup_take_lt. lia. }
  replace j with (zlen a + (j - i)) at 1 by lia. rewrite znth_app_r by lia.
  case_decide.
  - apply znth_app_l. lia.
  - replace (j - i) with (zlen b + (j - i - zlen b)) by lia. rewrite znth_app_r by lia.
    unfold znth. rewrite !decide_True by lia. rewrite lookup_drop. f_equal. lia.
Qed.

(** Storing the same bytes makes the objects agree there too. *)
Lemma agree_store P a b i w a' :
  agree P a b → store a i w = Some a' →
  ∃ b', store b i w = Some b' ∧ agree (λ j, P j ∨ i ≤ j < i + zlen w) a' b'.
Proof.
  intros [Hl Ha] Hs. pose proof Hs as Hs'. unfold store in Hs'. case_decide as Hd; [|done].
  destruct (store b i w) as [b'|] eqn:Eb.
  2: { unfold store in Eb. rewrite decide_True in Eb by lia. done. }
  exists b'. split; [done|]. split.
  - rewrite (store_length _ _ _ _ Hs), (store_length _ _ _ _ Eb). done.
  - intros j Hj. rewrite (store_lookup _ _ _ _ _ Hs), (store_lookup _ _ _ _ _ Eb).
    case_decide; [done|]. apply Ha. by destruct Hj.
Qed.
Lemma store_agree_self a i w a' : store a i w = Some a' →
  agree (λ j, ¬ (i ≤ j < i + zlen w)) a' a.
Proof.
  intros Hs. split; [by eapply store_length|]. intros j Hj.
  rewrite (store_lookup _ _ _ _ _ Hs). by rewrite decide_False.
Qed.

(** The positions the entries cover. *)
Definition covered (p_offs : Z) (es : list (Z * Z)) (i : Z) : Prop :=
  Exists (λ '(off, _), entry_at p_offs off ≤ i < entry_at p_offs off + 4) es.

Lemma write_entries_self p_offs d es a a' : write_entries p_offs d es a = Some a' →
  agree (λ i, ¬ covered p_offs es i) a' a.
Proof.
  revert a. induction es as [|[off v] es IH]; intros a; simpl; [by intros [= ->]|].
  destruct (store a _ _) as [a1|] eqn:Es; [|done]. simpl. intros Hw%IH.
  eapply agree_trans; [eapply agree_weaken; [|exact Hw]|
    eapply agree_weaken; [|by eapply store_agree_self]].
  - intros i Hi Hc. apply Hi. by right.
  - intros i Hi Hc. apply Hi. by left.
Qed.

(** The words written do not depend on what was there. *)
Lemma write_entries_agree p_offs d es P a b a' :
  agree P a b → write_entries p_offs d es a = Some a' →
  ∃ b', write_entries p_offs d es b = Some b' ∧
    agree (λ i, P i ∨ covered p_offs es i) a' b'.
Proof.
  revert P a b. induction es as [|[off v] es IH]; intros P a b Hab; simpl.
  - intros [= <-]. exists b. split; [done|]. eapply agree_weaken; [|done].
    intros i [?|Hc]; [done|]. by apply Exists_nil in Hc.
  - destruct (store a _ _) as [a1|] eqn:Es; [|done]. simpl. intros Hw.
    destruct (agree_store _ _ _ _ _ _ Hab Es) as (b1 & -> & Hab1). simpl.
    destruct (IH _ _ _ Hab1 Hw) as (b' & -> & Hab'). exists b'. split; [done|].
    eapply agree_weaken; [|exact Hab']. intros i [?|Hc]; [by left; left|].
    inversion Hc; subst; [left; right|by right]. done.
Qed.

Lemma znth_zslice_agree a b i n : agree (λ j, i ≤ j < i + n) a b → zslice a i n = zslice b i n.
Proof.
  intros [Hl Ha]. unfold zslice. rewrite Hl. case_decide as Hd; [|done]. f_equal.
  apply list_eq. intros j. destruct (decide (j < Z.to_nat n)%nat).
  - rewrite !lookup_take_lt, !lookup_drop by lia.
    specialize (Ha (i + Z.of_nat j) ltac:(lia)). rewrite !znth_lookup in Ha by lia.
    by replace (Z.to_nat (i + Z.of_nat j)) with (Z.to_nat i + j)%nat in Ha by lia.
  - rewrite !lookup_take_ge by lia. done.
Qed.

Lemma decode_agree st a b p : agree (λ j, p ≤ j < p + 8) a b →
  decode_in_memory st a p = decode_in_memory st b p.
Proof.
  intros Hab. unfold decode_in_memory. rewrite (proj2 Hab p) by lia.
  destruct (znth b p) as [b0|]; [|done]. cbn [mbind option_bind].
  rewrite (znth_zslice_agree a b); [done|]. eapply agree_weaken; [|done].
  intros j. simpl. repeat case_decide; lia.
Qed.

Lemma decode_advances st a p p' off v st' :
  decode_in_memory st a p = Some (p', off, v, st') → p < p'.
Proof.
  unfold decode_in_memory. destruct (znth a p); [|done]. cbn [mbind option_bind].
  set (n := if decide _ then _ else _).
  assert (2 ≤ n) by (unfold n; repeat case_decide; lia).
  destruct (zslice a p n); [|done]. cbn [mbind option_bind].
  destruct (decode_bytes st l n) as [[? ?]|]; [|done]. intros [= <- _ _ _]. lia.
Qed.

Lemma entries_agree fuel a b r st p :
  agree (λ j, p ≤ j < r + 8) a b → entries fuel a r st p = entries fuel b r st p.
Proof.
  revert st p. induction fuel as [|fuel IH]; intros st p Hab; cbn [entries]; case_decide; try done.
  rewrite (decode_agree st a b p) by (eapply agree_weaken; [|done]; simpl; lia).
  destruct (decode_in_memory st b p) as [[[[p' off] v] st']|] eqn:Ed; [|done].
  cbn [mbind option_bind]. apply decode_advances in Ed.
  rewrite IH; [done|]. eapply agree_weaken; [|done]. simpl. lia.
Qed.

(** When the entries are in front of the blob, masking writes them and
    reports a match. *)
Lemma mask_loop_writes p_offs r b_offs d fuel es obj st p set :
  r + 12 = p_offs → zlen obj = p_offs + 8 → 0 ≤ b_offs ≤ p → in_s 32 d →
  entries fuel obj r st p = Some es → entries_before b_offs es →
  ∃ obj', write_entries p_offs d es obj = Some obj' ∧
    mask_loop fuel (Some d) p_offs r b_offs d obj st p d set false =
      Done (RETOUCH_DATA_MATCHED, obj', d).
Proof.
  intros Hp. revert es obj st p set.
  induction fuel as [|fuel IH]; intros es obj st p set Hl Hb Hd; cbn [entries mask_loop].
  1,2: case_decide; [|case_decide; [|done]; intros [= <-] _; exists obj;
    rewrite decide_False by lia; done].
  1: done.
  destruct (decode_is_Some st obj p) as (p' & off & v & st' & E & Hbound & Hv); [lia..|].
  rewrite E. cbn [mbind option_bind run_bind access].
  destruct (entries fuel obj r st' p') as [es'|] eqn:Ees; [|done]. cbn [mbind option_bind].
  intros [= <-] Hbf. apply Forall_cons in Hbf as [Ho Hbf].
  rewrite decide_False by lia. cbn [write_entries]. fold (entry_at p_offs off).
  assert (0 ≤ entry_at p_offs off ∧ entry_at p_offs off + 4 ≤ zlen obj ∧
    (entry_at p_offs off + 4 ≤ p' ∨ r + 8 ≤ entry_at p_offs off)) as He.
  { unfold entry_at. case_decide; lia. }
  destruct (store obj (entry_at p_offs off) _) as [obj1|] eqn:Es.
  2: { unfold store in Es. rewrite decide_True in Es; [done|]. change (zlen (set4LE _)) with 4. lia. }
  cbn [access mbind run_bind option_bind]. rewrite (get4LE_store _ _ _ _ Es).
  cbn [access mbind run_bind]. cbv zeta. rewrite this_offset by done.
  rewrite bool_decide_eq_true_2 by done. change (false || negb true) with false.
  rewrite (entries_agree _ _ obj1) in Ees.
  2: { apply agree_sym. eapply agree_weaken; [|by eapply store_agree_self].
       change (zlen (set4LE _)) with 4. simpl. lia. }
  pose proof (store_length _ _ _ _ Es).
  destruct (IH es' obj1 st' p' true ltac:(lia) ltac:(lia) Hd Ees Hbf) as (obj' & E1 & E2).
  exists obj'. split; [done|]. by destruct set.
Qed.

(** The layout of a retouched object with its entries. *)
Definition retouched (obj : bytes) (b_offs : Z) (es : list (Z * Z)) : Prop :=
  let r_offs := zlen obj - 20 in
  zlen obj ≤ INT_MAX ∧ 0 ≤ r_offs ∧
  zslice obj (r_offs + 16) 4 = Some (bytes_of_string "PRE ") ∧
  zslice obj r_offs 8 = Some (bytes_of_string "RETOUCH ") ∧
  (∃ blob_size, get4LE obj (r_offs + 8) = Some blob_size ∧ s32 (r_offs - blob_size) = b_offs) ∧
  0 ≤ b_offs ∧ entries (length obj) obj r_offs init_compression_state b_offs = Some es ∧
  entries_before b_offs es.

Lemma retouch_mask_writes obj b_offs es d :
  retouched obj b_offs es → in_s 32 d →
  ∃ obj', write_entries (zlen obj - 8) d es obj = Some obj' ∧
    retouch_mask_data obj (Some d) = Done (RETOUCH_DATA_MATCHED, obj', d).
Proof.
  intros (Hl & Hr & Hpt & Hrt & (blob & Hblob & Hb) & Hb0 & He & Hbf) Hd.
  destruct (mask_loop_writes (zlen obj - 8) (zlen obj - 20) b_offs d (length obj) es obj
    init_compression_state b_offs false) as (obj' & E1 & E2); try done; try lia.
  exists obj'. split; [done|]. unfold retouch_mask_data. pose proof (zlen_nonneg obj).
  unfold INT_MAX in *. rewrite wrap_s_id by (unfold in_s; lia). cbv zeta.
  unfold sizeof_prelink_info, sizeof_retouch_info.
  replace (zlen obj - 8 - 12) with (zlen obj - 20) by lia. rewrite decide_False by lia.
  replace (zlen obj - 8 + 4) with (zlen obj - 20 + 16) by lia. rewrite Hpt. cbn [access mbind run_bind].
  rewrite Hrt. cbn [access mbind run_bind].
  rewrite decide_False by (intros [Hx|Hx]; by apply Hx). rewrite Hblob. cbn [access mbind run_bind].
  rewrite Hb. rewrite decide_False by lia. change (default 0 (Some d)) with d. rewrite E2.
  cbn [mbind run_bind mret run_ret]. by rewrite decide_True by done.
Qed.

(** Writing the entries keeps the layout. *)
Lemma write_entries_retouched obj b_offs es d obj' :
  retouched obj b_offs es → write_entries (zlen obj - 8) d es obj = Some obj' →
  retouched obj' b_offs es.
Proof.
  intros (Hl & Hr & Hpt & Hrt & (blob & Hblob & Hb) & Hb0 & He & Hbf) Hw.
  pose proof (write_entries_self _ _ _ _ _ Hw) as Hag. pose proof (proj1 Hag) as Hlen.
  assert (b_offs ≤ zlen obj - 20) as Hbr.
  { destruct (decide (zlen obj - 20 < b_offs)); [|lia].
    destruct (length obj); cbn [entries] in He; rewrite decide_False in He by lia;
      rewrite decide_False in He by lia; done. }
  assert (agree (λ i, b_offs ≤ i < zlen obj - 8 ∨ zlen obj - 4 ≤ i) obj' obj) as Hag'.
  { eapply agree_weaken; [|exact Hag]. intros i Hi Hc. unfold entries_before, covered in *.
    apply Exists_exists in Hc as ([off v] & Hin & Hc). rewrite Forall_forall in Hbf.
    specialize (Hbf _ Hin). simpl in Hbf. unfold entry_at in Hc. case_decide; lia. }
  assert (∀ i n, b_offs ≤ i → i + n ≤ zlen obj - 8 ∨ zlen obj - 4 ≤ i →
    zslice obj' i n = zslice obj i n) as Hsl.
  { intros i n Hi Hn. apply znth_zslice_agree. eapply agree_weaken; [|exact Hag']. simpl. lia. }
  unfold retouched. rewrite !Hlen.
  split_and!; [done|done| | | |done| |done].
  - rewrite Hsl; [done|lia|lia].
  - rewrite Hsl; [done|lia|lia].
  - exists blob. split; [|done]. unfold get4LE in *.
    rewrite !(proj2 Hag') by lia. done.
  - replace (length obj') with (length obj) by (unfold zlen in Hlen; lia).
    rewrite (entries_agree _ _ obj); [done|]. eapply agree_weaken; [|exact Hag']. simpl. lia.
Qed.

(** C36: Masking forgets the randomization.  For a retouched object whose entries
    lie in front of its blob, shifting the entries by any offset and then
    masking gives the same bytes as masking the original: the SHA-1 checks made
    on the masked data do not see the randomization. *)
Theorem mask_forgets_randomization obj b_offs es d :
  retouched obj b_offs es → in_s 32 d →
  ∃ shifted masked, retouch_mask_data obj (Some d) = Done (RETOUCH_DATA_MATCHED, shifted, d) ∧
    retouch_mask_data shifted (Some 0) = Done (RETOUCH_DATA_MATCHED, masked, 0) ∧
    retouch_mask_data obj (Some 0) = Done (RETOUCH_DATA_MATCHED, masked, 0).
Proof.
  intros Hobj Hd. assert (in_s 32 0) as H0 by (unfold in_s; lia).
  destruct (retouch_mask_writes _ _ _ d Hobj Hd) as (shifted & Ws & Es).
  destruct (retouch_mask_writes _ _ _ 0 Hobj H0) as (masked & Wm & Em).
  pose proof (write_entries_self _ _ _ _ _ Ws) as Hag. pose proof (proj1 Hag) as Hlen.
  destruct (retouch_mask_writes _ _ _ 0 (write_entries_retouched _ _ _ _ _ Hobj Ws) H0)
    as (masked' & Wm' & Em').
  exists shifted, masked. split; [done|]. split; [|done]. rewrite Em'. do 2 f_equal.
  rewrite Hlen in Wm'.
  destruct (write_entries_agree _ _ _ _ _ _ _ Hag Wm') as (b' & E & Hb'). simplify_eq.
  rewrite (agree_eq masked' masked); [done|]. eapply agree_weaken; [|exact Hb'].
  intros i _. simpl. destruct (decide (covered (zlen obj - 8) es i)); tauto.
Qed.

(** A library of three words; the last two and the prelink address are
    randomized. *)
Definition library_example : bytes :=
  set4LE 1 ++ set4LE 100 ++ set4LE 105 ++
  [0; 0; 0; 4; 0; 0; 0; 100] ++ [0x80; 5] ++ [0x3f; 0xff; 0xff; 0xff; 0; 0; 0; 7] ++
  bytes_of_string "RETOUCH " ++ set4LE 18 ++ set4LE 7 ++ bytes_of_string "PRE ".

Lemma mask_forgets_randomization_witness :
  retouched library_example 12 [(4, 100); (8, 105); (-1, 7)] ∧
  ∃ shifted masked,
    retouch_mask_data library_example (Some (-4096)) = Done (RETOUCH_DATA_MATCHED, shifted, -4096) ∧
    retouch_mask_data shifted (Some 0) = Done (RETOUCH_DATA_MATCHED, masked, 0) ∧
    retouch_mask_data library_example (Some 0) = Done (RETOUCH_DATA_MATCHED, masked, 0).
Proof.
  assert (retouched library_example 12 [(4, 100); (8, 105); (-1, 7)]) as Hr.
  { split; [by vm_compute|]. split; [by vm_compute|]. split; [by vm_compute|].
    split; [by vm_compute|]. split; [exists 18; split; by vm_compute|]. split; [done|].
    split; [by vm_compute|]. apply (bool_decide_unpack _). by vm_compute. }
  split; [exact Hr|].
  apply (mask_forgets_randomization library_example 12 [(4, 100); (8, 105); (-1, 7)] (-4096) Hr).
  unfold in_s. lia.
Defined.

Lemma retouch_mask_safe_witness :
  run_ok (retouch_mask_data library_example (Some 64)) (λ '(r, obj', offset),
    zlen obj' = zlen library_example ∧ (Some 64 = None → obj' = library_example) ∧
    (∀ d, Some 64 = Some d → (r = RETOUCH_DATA_ERROR ∨ r = RETOUCH_DATA_MATCHED) ∧ offset = d)).
Proof.
  apply (retouch_mask_safe library_example (Some 64)); [by vm_compute|unfold in_s; simpl; lia].
Defined.
