(* ===== verification/World.v ===== *)
(** The system the recovery runs on: the file system, the eMMC partitions, the
    MTD device and the processes, with the operations of the C library the
    programs call on them.

    The outcome of every system call is decided by an element of the list
    [choices]; a property proved for every list holds whatever fails and
    whenever.  When the list is empty the power fails: the run stops in the
    state reached, as when the recovery is interrupted. *)
From S2P Require Import Prelude Bytes.

Record File := mkFile { f_data : bytes; f_mode : Z; f_uid : Z; f_gid : Z }.

(** [D] is the state of the MTD device. *)
Record Sys (D : Type) := mkSys {
  files : gmap string File;                 (* the regular files by path *)
  emmc : gmap string bytes;                 (* the block devices by path *)
  mtd : D;
  mtd_partitions_scanned : bool;            (* static in applypatch.c *)
  listing : gmap string (list string);      (* the names in each directory *)
  procs : list (string * option (list (option string)))
    (* /proc: the names, and the targets of the links in the fd directory *)
}.
Arguments mkSys {D}.
Arguments files {D}. Arguments emmc {D}. Arguments mtd {D}.
Arguments mtd_partitions_scanned {D}. Arguments listing {D}. Arguments procs {D}.

Definition set_files {D} (f : gmap string File → gmap string File) (s : Sys D) : Sys D :=
  let '(mkSys fs em md sc li pr) := s in mkSys (f fs) em md sc li pr.
Definition set_emmc {D} (f : gmap string bytes → gmap string bytes) (s : Sys D) : Sys D :=
  let '(mkSys fs em md sc li pr) := s in mkSys fs (f em) md sc li pr.
Definition set_mtd {D} (f : D → D) (s : Sys D) : Sys D :=
  let '(mkSys fs em md sc li pr) := s in mkSys fs em (f md) sc li pr.
Definition set_scanned {D} (b : bool) (s : Sys D) : Sys D :=
  let '(mkSys fs em md sc li pr) := s in mkSys fs em md b li pr.

(** [Crashed]: an access outside an object.  [Hung]: out of fuel. *)
Inductive outcome (D A : Type) :=
| Ret (a : A) (s : Sys D) (choices : list Z)
| Stop (s : Sys D)
| Crashed
| Hung.
Arguments Ret {D A}. Arguments Stop {D A}. Arguments Crashed {D A}. Arguments Hung {D A}.

Definition io (D A : Type) : Type := Sys D → list Z → outcome D A.

#[global] Instance io_ret {D} : MRet (io D) := λ A a s cs, Ret a s cs.
#[global] Instance io_bind {D} : MBind (io D) := λ A B f m s cs,
  match m s cs with
  | Ret a s cs => f a s cs
  | Stop s => Stop s
  | Crashed => Crashed
  | Hung => Hung
  end.

Lemma io_bind_ret {D A B} (m : io D A) (f : A → io D B) s cs a s' cs' :
  m s cs = Ret a s' cs' → (m ≫= f) s cs = f a s' cs'.
Proof. intros E. unfold mbind, io_bind. by rewrite E. Qed.
Lemma io_bind_inv {D A B} (m : io D A) (f : A → io D B) s cs b s'' cs'' :
  (m ≫= f) s cs = Ret b s'' cs'' → ∃ a s' cs', m s cs = Ret a s' cs' ∧ f a s' cs' = Ret b s'' cs''.
Proof. unfold mbind, io_bind. destruct (m s cs) as [a s' cs'| | |]; [|done..]. eauto. Qed.
Lemma io_bind_crash {D A B} (m : io D A) (f : A → io D B) s cs :
  m s cs = Crashed → (m ≫= f) s cs = Crashed.
Proof. intros E. unfold mbind, io_bind. by rewrite E. Qed.

Definition choose {D} : io D Z := λ s cs,
  match cs with [] => Stop s | c :: cs => Ret c s cs end.
Definition read_sys {D A} (f : Sys D → A) : io D A := λ s cs, Ret (f s) s cs.
Definition update_sys {D} (f : Sys D → Sys D) : io D unit := λ s cs, Ret tt (f s) cs.
(** A computation on memory. *)
Definition lift {D A} (m : run A) : io D A := λ s cs,
  match m with Done a => Ret a s cs | Fault => Crashed | OutOfFuel => Hung end.

Definition PATH_MAX : Z := 4096.
Definition S_ISDIR (mode : Z) : bool := bool_decide (Z.land mode 61440 = 16384).
Definition S_ISLNK (mode : Z) : bool := bool_decide (Z.land mode 61440 = 40960).

(** * System calls

    A choice of 0 makes a call fail; other choices are as each call says. *)
Section calls.
Context {D : Type}.
Implicit Types path : string.

(** [stat]; also the success of [fopen] for reading. *)
Definition sys_stat path : io D (option File) :=
  c ← choose;
  read_sys (λ s, if decide (c = 0) then None else files s !! path).
(** The number of bytes a read of [n] gives, and the bytes. *)
Definition sys_read (data : bytes) (n : Z) : io D bytes :=
  c ← choose; mret (take (Z.to_nat (Z.min (Z.max 0 c) n)) data).

(** [open] with [O_WRONLY | O_CREAT | O_TRUNC] and mode 384 (octal 0600): whether it
    succeeds. *)
Definition sys_creat path : io D bool :=
  c ← choose;
  if decide (c = 0) then mret false else
  _ ← update_sys (set_files (partial_alter (λ f, Some
        (match f with
         | Some f => mkFile [] (f_mode f) (f_uid f) (f_gid f)
         | None => mkFile [] 384 0 0
         end)) path));
  mret true.

(** [write] to the end of the file: the number of bytes written, or -1. *)
Definition sys_write path (data : bytes) : io D Z :=
  c ← choose;
  if decide (c ≤ 0) then mret (-1) else
  let k := Z.min c (zlen data) in
  _ ← update_sys (set_files (alter (λ f,
        mkFile (f_data f ++ take (Z.to_nat k) data) (f_mode f) (f_uid f) (f_gid f)) path));
  mret k.

(** 0 for success and -1 for failure. *)
Definition sys_change path (f : File → File) : io D Z :=
  c ← choose;
  if decide (c = 0) then mret (-1) else
  _ ← update_sys (set_files (alter f path)); mret 0.
Definition sys_chmod path (mode : Z) : io D Z :=
  sys_change path (λ f, mkFile (f_data f) mode (f_uid f) (f_gid f)).
Definition sys_chown path (uid gid : Z) : io D Z :=
  sys_change path (λ f, mkFile (f_data f) (f_mode f) uid gid).
Definition sys_unlink path : io D Z :=
  c ← choose;
  if decide (c = 0) then mret (-1) else
  _ ← update_sys (set_files (delete path)); mret 0.
Definition sys_rename (from to : string) : io D Z :=
  c ← choose;
  f ← read_sys (λ s, files s !! from);
  match f with
  | Some f =>
      if decide (c = 0) then mret (-1) else
      _ ← update_sys (set_files (λ fs, <[to := f]> (delete from fs))); mret 0
  | None => mret (-1)
  end.

(** Writes to the start of a block device, which does not grow: the number of bytes written. *)
Definition write_emmc path (d : bytes) : io D Z :=
  c ← choose;
  old ← read_sys (λ s, emmc s !! path);
  let k := Z.to_nat (Z.min (Z.max 0 c) (Z.min (zlen d) (zlen (default [] old)))) in
  _ ← update_sys (set_emmc (alter (λ old, take k d ++ drop k old) path));
  mret (Z.of_nat k).

(** [statfs]: the number of free bytes, or nothing when it fails (a negative
    choice). *)
Definition sys_statfs path : io D (option Z) :=
  c ← choose; mret (if decide (c < 0) then None else Some c).
End calls.

(** * Crash triples

    [ctriple P m Q R]: run from a state in [P], [m] ends in a state in [Q], and
    if it is interrupted the state is in [R]. *)
Definition ctriple {D A} (P : Sys D → Prop) (m : io D A) (Q : A → Sys D → Prop)
    (R : Sys D → Prop) : Prop :=
  ∀ s cs, P s → match m s cs with
                | Ret a s' _ => Q a s'
                | Stop s' => R s'
                | _ => True
                end.

Section ctriple.
Context {D : Type}.
Implicit Types P R : Sys D → Prop.

Lemma ct_ret {A} P (a : A) (Q : A → Sys D → Prop) R :
  (∀ s, P s → Q a s) → ctriple P (mret a) Q R.
Proof. intros HQ s cs HP. by apply HQ. Qed.
Lemma ct_bind {A B} P (m : io D A) (f : A → io D B) Q Q' R :
  ctriple P m Q' R → (∀ a, ctriple (Q' a) (f a) Q R) → ctriple P (m ≫= f) Q R.
Proof.
  intros Hm Hf s cs HP. specialize (Hm s cs HP). unfold mbind, io_bind.
  destruct (m s cs) as [a s' cs'|s'| |]; try done. by apply Hf.
Qed.
Lemma ct_choose P (Q : Z → Sys D → Prop) R :
  (∀ s, P s → R s) → (∀ c s, P s → Q c s) → ctriple P choose Q R.
Proof. intros HR HQ s [|c cs] HP; simpl; auto. Qed.
Lemma ct_read {A} P (f : Sys D → A) (Q : A → Sys D → Prop) R :
  (∀ s, P s → Q (f s) s) → ctriple P (read_sys f) Q R.
Proof. intros HQ s cs HP. by apply HQ. Qed.
Lemma ct_update P f (Q : unit → Sys D → Prop) R :
  (∀ s, P s → Q tt (f s)) → ctriple P (update_sys f) Q R.
Proof. intros HQ s cs HP. by apply HQ. Qed.
Lemma ct_lift {A} P (m : run A) (Q : A → Sys D → Prop) R :
  (∀ a s, m = Done a → P s → Q a s) → ctriple P (lift m) Q R.
Proof. intros HQ s cs HP. unfold lift. destruct m eqn:E; try done. by apply HQ. Qed.
Lemma ct_conseq {A} P P' (m : io D A) (Q Q' : A → Sys D → Prop) R R' :
  ctriple P' m Q' R' → (∀ s, P s → P' s) → (∀ a s, Q' a s → Q a s) → (∀ s, R' s → R s) →
  ctriple P m Q R.
Proof.
  intros Hm HP HQ HR s cs Hs. specialize (Hm s cs (HP s Hs)).
  destruct (m s cs); auto.
Qed.
Lemma ct_pure {A} P (φ : Prop) (m : io D A) (Q : A → Sys D → Prop) R :
  (φ → ctriple P m Q R) → ctriple (λ s, φ ∧ P s) m Q R.
Proof. intros Hm s cs [??]. by apply Hm. Qed.
(** Brings a fact that does not depend on the state out of the precondition. *)
Lemma ct_split {A} P (φ : Prop) (m : io D A) (Q : A → Sys D → Prop) R :
  (φ → ctriple P m Q R) → ctriple (λ s, P s ∧ φ) m Q R.
Proof. intros Hm s cs [? ?]. by apply Hm. Qed.

(** The same assertion before, after and at every interruption. *)
Definition keeps {A} R (m : io D A) : Prop := ctriple R m (λ _, R) R.

Lemma keeps_ret {A} R (a : A) : keeps R (mret a).
Proof. by apply ct_ret. Qed.
Lemma keeps_bind {A B} R (m : io D A) (f : A → io D B) :
  keeps R m → (∀ a, keeps R (f a)) → keeps R (m ≫= f).
Proof. intros. by eapply ct_bind. Qed.
Lemma keeps_choose R : keeps R choose.
Proof. by apply ct_choose. Qed.
Lemma keeps_read {A} R (f : Sys D → A) : keeps R (read_sys f).
Proof. by apply ct_read. Qed.
Lemma keeps_lift {A} R (m : run A) : keeps R (lift m).
Proof. by apply ct_lift. Qed.
Lemma keeps_update R f : (∀ s, R s → R (f s)) → keeps R (update_sys f).
Proof. intros. by apply ct_update. Qed.
Lemma keeps_if {A} R (b : bool) (m n : io D A) :
  keeps R m → keeps R n → keeps R (if b then m else n).
Proof. by destruct b. Qed.
Lemma keeps_decide {A} R (P : Prop) `{Decision P} (m n : io D A) :
  keeps R m → keeps R n → keeps R (if decide P then m else n).
Proof. intros. by case_decide. Qed.
End ctriple.

#[export] Hint Resolve keeps_ret keeps_choose keeps_read keeps_lift : recovery.
Ltac keeps_tac :=
  repeat first
    [ assumption | apply keeps_ret | apply keeps_choose | apply keeps_read | apply keeps_lift
    | apply keeps_bind; [|intro] | apply keeps_decide | apply keeps_if ].

(** [calm m]: every run of [m] gives a result or is interrupted. *)
Definition calm {D A} (m : io D A) : Prop :=
  ∀ s cs, match m s cs with Ret _ _ _ | Stop _ => True | _ => False end.
Lemma calm_bind {D A B} (m : io D A) (f : A → io D B) :
  calm m → (∀ a, calm (f a)) → calm (m ≫= f).
Proof.
  intros Hm Hf s cs. specialize (Hm s cs). unfold mbind, io_bind.
  destruct (m s cs) as [a s' cs'|s'| |]; try done. apply Hf.
Qed.
Lemma calm_choose {D} : calm (D := D) choose.
Proof. by intros s [|c cs]. Qed.
Lemma calm_ret {D A} (a : A) : calm (D := D) (mret a).
Proof. done. Qed.
Lemma calm_read {D A} (f : Sys D → A) : calm (read_sys f).
Proof. done. Qed.
Lemma calm_update {D} (f : Sys D → Sys D) : calm (update_sys f).
Proof. done. Qed.
Lemma calm_decide {D A} (P : Prop) `{Decision P} (m n : io D A) :
  calm m → calm n → calm (if decide P then m else n).
Proof. intros. by case_decide. Qed.
Ltac calm_tac :=
  repeat first
    [ assumption | apply calm_ret | apply calm_choose | apply calm_read | apply calm_update
    | apply calm_bind; [|intro] | apply calm_decide ].

(** * Total triples

    [ttriple C P m Q R]: run from a state in [P] with choices in [C], [m] does not
    crash and does not hang; it ends in [Q] or is interrupted in [R]. *)
Definition ttriple {D A} (C : Z → Prop) (P : Sys D → Prop) (m : io D A)
    (Q : A → Sys D → Prop) (R : Sys D → Prop) : Prop :=
  ∀ s cs, Forall C cs → P s → match m s cs with
                              | Ret a s' cs' => Forall C cs' ∧ Q a s'
                              | Stop s' => R s'
                              | _ => False
                              end.

Section ttriple.
Context {D : Type} (C : Z → Prop).
Implicit Types P R : Sys D → Prop.

Lemma tt_ret {A} P (a : A) (Q : A → Sys D → Prop) R :
  (∀ s, P s → Q a s) → ttriple C P (mret a) Q R.
Proof. intros HQ s cs Hc HP. split; [done|]. by apply HQ. Qed.
Lemma tt_bind {A B} P (m : io D A) (f : A → io D B) Q Q' R :
  ttriple C P m Q' R → (∀ a, ttriple C (Q' a) (f a) Q R) → ttriple C P (m ≫= f) Q R.
Proof.
  intros Hm Hf s cs Hc HP. specialize (Hm s cs Hc HP). unfold mbind, io_bind.
  destruct (m s cs) as [a s' cs'|s'| |]; try done. destruct Hm. by apply Hf.
Qed.
Lemma tt_choose P (Q : Z → Sys D → Prop) R :
  (∀ s, P s → R s) → (∀ c s, C c → P s → Q c s) → ttriple C P choose Q R.
Proof. intros HR HQ s [|c cs] Hc HP; simpl; [auto|]. apply Forall_cons in Hc as [??]. auto. Qed.
Lemma tt_read {A} P (f : Sys D → A) (Q : A → Sys D → Prop) R :
  (∀ s, P s → Q (f s) s) → ttriple C P (read_sys f) Q R.
Proof. intros HQ s cs Hc HP. split; [done|]. by apply HQ. Qed.
Lemma tt_update P f (Q : unit → Sys D → Prop) R :
  (∀ s, P s → Q tt (f s)) → ttriple C P (update_sys f) Q R.
Proof. intros HQ s cs Hc HP. split; [done|]. by apply HQ. Qed.
Lemma tt_lift {A} P (m : run A) (Q : A → Sys D → Prop) R :
  run_ok m (λ a, ∀ s, P s → Q a s) → ttriple C P (lift m) Q R.
Proof. intros (a & -> & HQ) s cs Hc HP. split; [done|]. by apply HQ. Qed.
Lemma tt_conseq {A} P P' (m : io D A) (Q Q' : A → Sys D → Prop) R R' :
  ttriple C P' m Q' R' → (∀ s, P s → P' s) → (∀ a s, Q' a s → Q a s) → (∀ s, R' s → R s) →
  ttriple C P m Q R.
Proof.
  intros Hm HP HQ HR s cs Hc Hs. specialize (Hm s cs Hc (HP s Hs)).
  destruct (m s cs); naive_solver.
Qed.
Lemma tt_and {A} P P' (m : io D A) (Q Q' : A → Sys D → Prop) R R' :
  ttriple C P m Q R → ttriple C P' m Q' R' →
  ttriple C (λ s, P s ∧ P' s) m (λ a s, Q a s ∧ Q' a s) (λ s, R s ∧ R' s).
Proof.
  intros H H' s cs Hc [HP HP']. specialize (H s cs Hc HP). specialize (H' s cs Hc HP').
  destruct (m s cs); naive_solver.
Qed.
Lemma tt_decide {A} P (φ : Prop) `{Decision φ} (m n : io D A) (Q : A → Sys D → Prop) R :
  (φ → ttriple C P m Q R) → (¬ φ → ttriple C P n Q R) →
  ttriple C P (if decide φ then m else n) Q R.
Proof. intros. case_decide; auto. Qed.
(** A fact that does not depend on the state. *)
Lemma tt_pure {A} P (φ : Prop) (m : io D A) (Q : A → Sys D → Prop) R :
  (φ → ttriple C P m Q R) → ttriple C (λ s, φ ∧ P s) m Q R.
Proof. intros Hm s cs Hc [??]. by apply Hm. Qed.
Lemma tt_split {A} P (φ : Prop) (m : io D A) (Q : A → Sys D → Prop) R :
  (φ → ttriple C P m Q R) → ttriple C (λ s, P s ∧ φ) m Q R.
Proof. intros Hm s cs Hc [? ?]. by apply Hm. Qed.
Lemma tt_lift_bind {A B} P (m : run B) (b : B) (f : B → io D A) (Q : A → Sys D → Prop) R :
  m = Done b → ttriple C P (f b) Q R → ttriple C P (lift m ≫= f) Q R.
Proof. by intros ->. Qed.
Lemma tt_get {A B} P (o : option B) (b : B) (f : B → io D A) (Q : A → Sys D → Prop) R :
  o = Some b → ttriple C P (f b) Q R → ttriple C P (lift (access o) ≫= f) Q R.
Proof. by intros ->. Qed.
(** A fact the precondition gives. *)
Lemma tt_fact {A} P (φ : Prop) (m : io D A) (Q : A → Sys D → Prop) R :
  (∀ s, P s → φ) → (φ → ttriple C P m Q R) → ttriple C P m Q R.
Proof. intros Hφ Hm s cs Hc HP. apply Hm; eauto. Qed.
Lemma tt_exists {A B} (P : B → Sys D → Prop) (m : io D A) (Q : A → Sys D → Prop) R :
  (∀ b, ttriple C (P b) m Q R) → ttriple C (λ s, ∃ b, P b s) m Q R.
Proof. intros Hm s cs Hc [b HP]. by eapply Hm. Qed.
End ttriple.

(** * Observations

    [observes C s m Q X]: run from [s] with choices in [C], [m] leaves the system as it
    is; its result is in [Q], it crashes only when [X], and does not hang. *)
Definition observes {D A} (C : Z → Prop) (s : Sys D) (m : io D A) (Q : A → Prop) (X : Prop)
    : Prop :=
  ∀ cs, Forall C cs → match m s cs with
                      | Ret a s' cs' => s' = s ∧ Forall C cs' ∧ Q a
                      | Stop s' => s' = s
                      | Crashed => X
                      | Hung => False
                      end.

Section observes.
Context {D : Type} (C : Z → Prop) (s : Sys D) (X : Prop).

Lemma ob_ret {A} (a : A) (Q : A → Prop) : Q a → observes C s (mret a) Q X.
Proof. by intros HQ cs. Qed.
Lemma ob_bind {A B} (m : io D A) (f : A → io D B) Q Q' :
  observes C s m Q' X → (∀ a, Q' a → observes C s (f a) Q X) → observes C s (m ≫= f) Q X.
Proof.
  intros Hm Hf cs Hc. specialize (Hm cs Hc). unfold mbind, io_bind.
  destruct (m s cs) as [a s' cs'|s'| |]; try done. destruct Hm as (-> & Hc' & HQ). by apply Hf.
Qed.
Lemma ob_choose (Q : Z → Prop) : (∀ c, C c → Q c) → observes C s choose Q X.
Proof. intros HQ [|c cs] Hc; simpl; [done|]. apply Forall_cons in Hc as [??]. auto. Qed.
Lemma ob_read {A} (f : Sys D → A) (Q : A → Prop) : Q (f s) → observes C s (read_sys f) Q X.
Proof. by intros HQ cs. Qed.
Lemma ob_access {A} (o : option A) (Q : A → Prop) :
  (o = None → X) → (∀ a, o = Some a → Q a) → observes C s (lift (access o)) Q X.
Proof. intros HX HQ cs Hc. destruct o; simpl; auto. Qed.
Lemma ob_get {A B} (o : option A) (a : A) (f : A → io D B) (Q : B → Prop) :
  o = Some a → observes C s (f a) Q X → observes C s (lift (access o) ≫= f) Q X.
Proof. by intros ->. Qed.
Lemma ob_lift {A} (m : run A) (Q : A → Prop) : run_ok m Q → observes C s (lift m) Q X.
Proof. intros (a & -> & HQ) cs. by split. Qed.
Lemma ob_weaken {A} (m : io D A) (Q Q' : A → Prop) :
  observes C s m Q' X → (∀ a, Q' a → Q a) → observes C s m Q X.
Proof. intros Hm HQ cs Hc. specialize (Hm cs Hc). destruct (m s cs); naive_solver. Qed.
Lemma ob_conseq {A} (m : io D A) (Q Q' : A → Prop) (X' : Prop) :
  observes C s m Q' X' → (∀ a, Q' a → Q a) → (X' → X) → observes C s m Q X.
Proof. intros Hm HQ HX cs Hc. specialize (Hm cs Hc). destruct (m s cs); naive_solver. Qed.
Lemma ob_decide {A} (P : Prop) `{Decision P} (m n : io D A) Q :
  (P → observes C s m Q X) → (¬ P → observes C s n Q X) →
  observes C s (if decide P then m else n) Q X.
Proof. intros. case_decide; auto. Qed.
End observes.

(** A total triple and a crash triple of the same computation. *)
Lemma tt_ct {D A} (C : Z → Prop) (P P' : Sys D → Prop) (m : io D A) (Q Q' : A → Sys D → Prop)
    (R R' : Sys D → Prop) :
  ttriple C P m Q R → ctriple P' m Q' R' →
  ttriple C (λ s, P s ∧ P' s) m (λ a s, Q a s ∧ Q' a s) (λ s, R s ∧ R' s).
Proof.
  intros Ht Hc s cs Hcs [HP HP']. specialize (Ht s cs Hcs HP). specialize (Hc s cs HP').
  destruct (m s cs); naive_solver.
Qed.

(** [consumes m]: [m] takes its choices from the front of the list. *)
Definition consumes {D A} (m : io D A) : Prop :=
  ∀ s cs a s' cs', m s cs = Ret a s' cs' → ∃ k, cs = k ++ cs'.
Lemma consumes_bind {D A B} (m : io D A) (f : A → io D B) :
  consumes m → (∀ a, consumes (f a)) → consumes (m ≫= f).
Proof.
  intros Hm Hf s cs b s'' cs''. unfold mbind, io_bind.
  destruct (m s cs) as [a s' cs'|s'| |] eqn:E; try done. intros Eb.
  destruct (Hm _ _ _ _ _ E) as [k ->], (Hf _ _ _ _ _ _ Eb) as [k' ->].
  exists (k ++ k'). by rewrite app_assoc.
Qed.
Lemma consumes_choose {D} : consumes (D := D) choose.
Proof. intros s [|c cs] a s' cs'; [done|]. intros [= <- <- <-]. by exists [c]. Qed.
Lemma consumes_ret {D A} (a : A) : consumes (D := D) (mret a).
Proof. intros s cs b s' cs' [= <- <- <-]. by exists []. Qed.
Lemma consumes_read {D A} (f : Sys D → A) : consumes (read_sys f).
Proof. intros s cs b s' cs' [= <- <- <-]. by exists []. Qed.
Lemma consumes_decide {D A} (P : Prop) `{Decision P} (m n : io D A) :
  consumes m → consumes n → consumes (if decide P then m else n).
Proof. intros. by case_decide. Qed.
Ltac consumes_tac :=
  repeat first
    [ assumption | apply consumes_ret | apply consumes_choose | apply consumes_read
    | apply consumes_bind; [|intro] | apply consumes_decide ].

(** ** Which files a call changes *)
Section frames.
Context {D : Type}.

(** The assertions that only look at the files in [X]. *)
Definition looks_at (X : string → Prop) (R : Sys D → Prop) : Prop :=
  ∀ s s', (∀ p, X p → files s !! p = files s' !! p) → R s → R s'.

Lemma files_set_files (f : gmap string File → gmap string File) (s : Sys D) :
  files (set_files f s) = f (files s).
Proof. by destruct s. Qed.

Lemma looks_at_update X R (f : gmap string File → gmap string File) :
  looks_at X R → (∀ fs p, X p → f fs !! p = fs !! p) →
  ∀ s, R s → R (set_files f s).
Proof.
  intros HR Hf s Hs. eapply HR; [|exact Hs]. intros p Hp. rewrite files_set_files. by rewrite Hf.
Qed.

Context (X : string → Prop) (R : Sys D → Prop).
Hypothesis HR : looks_at X R.

Lemma keeps_creat path : ¬ X path → keeps R (sys_creat path).
Proof.
  intros Hp. unfold sys_creat. keeps_tac. apply keeps_update.
  apply (looks_at_update X); [done|]. intros fs p Hx. apply lookup_partial_alter_ne. naive_solver.
Qed.
Lemma keeps_alter path f : ¬ X path → keeps R (update_sys (set_files (alter f path))).
Proof.
  intros Hp. apply keeps_update. apply (looks_at_update X); [done|].
  intros fs p Hx. apply lookup_alter_ne. naive_solver.
Qed.
Lemma keeps_write path data : ¬ X path → keeps R (sys_write path data).
Proof. intros Hp. unfold sys_write. keeps_tac. by apply keeps_alter. Qed.
Lemma keeps_change path f : ¬ X path → keeps R (sys_change path f).
Proof. intros Hp. unfold sys_change. keeps_tac. by apply keeps_alter. Qed.
Lemma keeps_unlink path : ¬ X path → keeps R (sys_unlink path).
Proof.
  intros Hp. unfold sys_unlink. keeps_tac. apply keeps_update.
  apply (looks_at_update X); [done|]. intros fs p Hx. apply lookup_delete_ne. naive_solver.
Qed.
Lemma keeps_rename from to : ¬ X from → ¬ X to → keeps R (sys_rename from to).
Proof.
  intros Hf Ht. unfold sys_rename. keeps_tac. destruct a0; keeps_tac. apply keeps_update.
  apply (looks_at_update X); [done|]. intros fs p Hx.
  rewrite lookup_insert_ne, lookup_delete_ne; naive_solver.
Qed.
End frames.
