(* ===== verification/Mtd.v ===== *)
(** The MTD utilities as their callers see them, and the driver of the kernel below
    them. *)
From S2P Require Import Prelude Bytes World.

(** * The utilities

    The operations [applypatch.c], [bootloader.c] and [roots.c] call; [mtdutils.c] implements them. *)
Class Mtd (D : Type) := {
  MtdPartition : Type;
  MtdReadContext : Type;
  MtdWriteContext : Type;
  (** the number of partitions found, or -1 *)
  mtd_scan_partitions : io D Z;
  mtd_find_partition_by_name : string → io D (option MtdPartition);
  mtd_device_index : MtdPartition → Z;
  mtd_partition_info : MtdPartition → io D (option (Z * Z * Z));
  mtd_read_partition : MtdPartition → io D (option MtdReadContext);
  mtd_read_data : MtdReadContext → Z → io D (Z * bytes * MtdReadContext);
  mtd_read_close : MtdReadContext → io D unit;
  mtd_write_partition : MtdPartition → io D (option MtdWriteContext);
  mtd_write_data : MtdWriteContext → bytes → io D (Z * MtdWriteContext);
  mtd_erase_blocks : MtdWriteContext → Z → io D (Z * MtdWriteContext);
  mtd_find_write_start : MtdWriteContext → Z → Z;
  mtd_write_close : MtdWriteContext → io D Z
}.

(** * The driver

    What the system calls on [/proc/mtd] and on the character devices of the MTD
    partitions do, as functions of the state of the flash memory and of a choice of
    the environment.  A partition is known by its device number. *)
Class MtdDriver := {
  Flash : Type;
  (** what a read of [/proc/mtd] gives, when it can be opened and read *)
  drv_proc_mtd : Flash → Z → option string;
  drv_open : Flash → Z → Z → bool;
  (** [MEMGETINFO]: the size, the erase size and the write size *)
  drv_info : Flash → Z → Z → option (Z * Z * Z);
  (** [ECCGETSTATS]: the numbers of corrected and of failed reads *)
  drv_ecc_stats : Flash → Z → Z → option (Z * Z);
  (** [MEMGETBADBLOCK] at a position: the result and [errno] *)
  drv_get_bad : Flash → Z → Z → Z → Z * Z;
  (** [MEMERASE] from a position, a number of bytes: the result *)
  drv_erase : Flash → Z → Z → Z → Z → Z * Flash;
  (** [read] at a position of a number of bytes: the bytes *)
  drv_read : Flash → Z → Z → Z → Z → bytes * Flash;
  (** [write] at a position: the result *)
  drv_write : Flash → Z → Z → bytes → Z → Z * Flash
}.

(** Documented behaviour of the driver on whole erase units.  [works c]: with the
    choice [c] a call on a good block succeeds, and a read of any block hands over all of it.  Blocks marked bad
    stay so; the number of failed reads only grows; data that could not be corrected are handed over
    and counted, so that a full read that does not increase the number gives the contents
    of the block.  Nothing is said of the number after a read that fails. *)
Class MtdDriverLaws (M : MtdDriver) := {
  unit_size : Z → Z;
  units : Z → nat;
  block : Flash → Z → nat → bytes;
  bad : Flash → Z → nat → bool;
  erased : Flash → Z → nat → Prop;
  ecc_failed : Flash → Z → Z;
  works : Z → Prop;
  unit_positive dev : 0 < unit_size dev;
  block_length f dev i : (i < units dev)%nat → zlen (block f dev i) = unit_size dev;

  open_works f dev c : works c → drv_open f dev c = true;
  ecc_stats_value f dev c k e : drv_ecc_stats f dev c = Some (k, e) → e = ecc_failed f dev;
  ecc_stats_works f dev c : works c → is_Some (drv_ecc_stats f dev c);
  get_bad_good f dev i c : (i < units dev)%nat →
    (drv_get_bad f dev (Z.of_nat i * unit_size dev) c).1 = 0 → bad f dev i = false;
  get_bad_works f dev i c : (i < units dev)%nat → works c →
    ((drv_get_bad f dev (Z.of_nat i * unit_size dev) c).1 = 0 ↔ bad f dev i = false) ∧
    0 ≤ (drv_get_bad f dev (Z.of_nat i * unit_size dev) c).1;

  read_ok f dev i c bs f' : (i < units dev)%nat →
    drv_read f dev (Z.of_nat i * unit_size dev) (unit_size dev) c = (bs, f') →
    (∀ d j, block f' d j = block f d j) ∧ (∀ d j, bad f' d j = bad f d j) ∧
    (∀ d, ecc_failed f d ≤ ecc_failed f' d) ∧ zlen bs ≤ unit_size dev ∧
    (zlen bs = unit_size dev → ecc_failed f' dev = ecc_failed f dev → bs = block f dev i);
  read_works f dev i c bs f' : (i < units dev)%nat → works c →
    drv_read f dev (Z.of_nat i * unit_size dev) (unit_size dev) c = (bs, f') →
    zlen bs = unit_size dev ∧ (bad f dev i = false → ∀ d, ecc_failed f' d = ecc_failed f d);

  erase_ok f dev i c r f' : (i < units dev)%nat →
    drv_erase f dev (Z.of_nat i * unit_size dev) (unit_size dev) c = (r, f') →
    (∀ d j, (d, j) ≠ (dev, i) → block f' d j = block f d j) ∧
    (∀ d j, bad f' d j = bad f d j) ∧ (∀ d, ecc_failed f d ≤ ecc_failed f' d) ∧
    (works c → bad f dev i = false → r = 0 ∧ erased f' dev i ∧
       ∀ d, ecc_failed f' d = ecc_failed f d);
  write_ok f dev i data c r f' : (i < units dev)%nat → zlen data = unit_size dev →
    drv_write f dev (Z.of_nat i * unit_size dev) data c = (r, f') →
    (∀ d j, (d, j) ≠ (dev, i) → block f' d j = block f d j) ∧
    (∀ d j, bad f' d j = bad f d j) ∧ (∀ d, ecc_failed f d ≤ ecc_failed f' d) ∧
    (works c → bad f dev i = false → erased f dev i → r = zlen data ∧
       block f' dev i = data ∧ ∀ d, ecc_failed f' d = ecc_failed f d)
}.

(** A device without MTD partitions. *)
#[export] Instance no_mtd : Mtd unit := {|
  MtdPartition := unit; MtdReadContext := unit; MtdWriteContext := unit;
  mtd_scan_partitions := mret (-1);
  mtd_find_partition_by_name _ := mret None;
  mtd_device_index _ := 0;
  mtd_partition_info _ := mret None;
  mtd_read_partition _ := mret None;
  mtd_read_data _ _ := mret (-1, [], tt);
  mtd_read_close _ := mret tt;
  mtd_write_partition _ := mret None;
  mtd_write_data _ _ := mret (-1, tt);
  mtd_erase_blocks _ _ := mret (-1, tt);
  mtd_find_write_start _ pos := pos;
  mtd_write_close _ := mret (-1)
|}.

(** * What the utilities leave alone

    Looking for a partition changes nothing but the state of the utilities and of the device. *)
Definition off_mtd {D} (R : Sys D → Prop) : Prop := ∀ s f, R s → R (set_mtd f s).
Class MtdFrame (D : Type) `{Mtd D} := {
  scan_keeps R : off_mtd R → keeps R mtd_scan_partitions;
  find_keeps R name : off_mtd R → keeps R (mtd_find_partition_by_name name)
}.
#[export] Instance no_mtd_frame : MtdFrame unit.
Proof. split; intros; apply keeps_ret. Defined.
