(* ===== verification/Volumes.v ===== *)
(** Volumes and what is mounted: [roots.c] and [mounts.c].

    The kernel's mounts are the class [Kernel].  A directory that is made, or
    given other permissions, is not part of the state; blocks and strings are
    allocated. *)
From S2P Require Import Prelude CLib Bytes World Mtd.

(** * Text *)

Definition string_of_bytes (d : bytes) : string :=
  foldr (λ b s, String (ascii_of_nat (Z.to_nat b)) s) EmptyString d.

(** [fgets] with a buffer of [n + 1] bytes: the line, at most [n] bytes, and the rest. *)
Fixpoint fgets_line (n : nat) (s : string) : string * string :=
  match n, s with
  | S n, String c s =>
      if decide (uchar c = 10) then (String c EmptyString, s)
      else let '(l, r) := fgets_line n s in (String c l, r)
  | _, _ => (EmptyString, s)
  end.
(** What a buffer holds as a string. *)
Fixpoint until_nul (s : string) : string :=
  match s with
  | String c s => if decide (uchar c = 0) then EmptyString else String c (until_nul s)
  | EmptyString => EmptyString
  end.

(** [strtok]: the delimiters at the front are skipped; the token, and where the next call
    goes on. *)
Definition is_delim (delims : list Z) (c : ascii) : bool := bool_decide (uchar c ∈ delims).
Fixpoint skip_delims (delims : list Z) (s : string) : string :=
  match s with
  | String c s' => if is_delim delims c then skip_delims delims s' else s
  | EmptyString => EmptyString
  end.
Fixpoint take_token (delims : list Z) (s : string) : string * string :=
  match s with
  | String c s =>
      if is_delim delims c then (EmptyString, s)
      else let '(t, r) := take_token delims s in (String c t, r)
  | EmptyString => (EmptyString, EmptyString)
  end.
Definition next_token (delims : list Z) (s : string) : option string * string :=
  match skip_delims delims s with
  | EmptyString => (None, EmptyString)
  | s => let '(t, r) := take_token delims s in (Some t, r)
  end.
Definition blanks : list Z := [32; 9; 10].
Definition comma : list Z := [44].

(** [strtoll(s, NULL, 10)]. *)
Definition strtoll (s : string) : Z := (strtol (H := abi64) s).1.
(** [s + n] when [s] starts with [p], whose length is [n]. *)
Definition after (p s : string) : option string :=
  if String.prefix p s then Some (String.substring (String.length p) (String.length s) s) else None.

(** * The volume table *)

Record Volume := mkVolume {
  mount_point : string; fs_type : string; device : option string; device2 : option string;
  v_length : Z; fs_type2 : option string; fs_options : option string; fs_options2 : option string;
  lun : option string
}.
Definition tmp_volume : Volume := mkVolume "/tmp" "ramdisk" None None 0 None None None None.

Definition set_length (n : Z) (v : Volume) : Volume :=
  let '(mkVolume m f d d2 _ f2 o o2 l) := v in mkVolume m f d d2 n f2 o o2 l.
Definition set_fstype2 (t : string) (v : Volume) : Volume :=
  let '(mkVolume m f d d2 n _ o o2 l) := v in mkVolume m t d d2 n (Some f) o o2 l.
Definition set_options (t : string) (v : Volume) : Volume :=
  let '(mkVolume m f d d2 n f2 _ o2 l) := v in mkVolume m f d d2 n f2 (Some t) o2 l.
Definition set_options2 (t : string) (v : Volume) : Volume :=
  let '(mkVolume m f d d2 n f2 o _ l) := v in mkVolume m f d d2 n f2 o (Some t) l.
Definition set_lun (t : string) (v : Volume) : Volume :=
  let '(mkVolume m f d d2 n f2 o o2 _) := v in mkVolume m f d d2 n f2 o o2 (Some t).

(** One option of a line. *)
Definition parse_option (opt : string) (volume : Volume) : option Volume :=
  match after "length=" opt with Some t => Some (set_length (strtoll t) volume) | None =>
  match after "fstype2=" opt with Some t => Some (set_fstype2 t volume) | None =>
  match after "fs_options=" opt with Some t => Some (set_options t volume) | None =>
  match after "fs_options2=" opt with Some t => Some (set_options2 t volume) | None =>
  match after "lun=" opt with Some t => Some (set_lun t volume) | None => None
  end end end end end.
(** [options] is where [strtok] begins; [None] when the function returns -1. *)
Fixpoint parse_options (fuel : nat) (options : string) (volume : Volume) : run (option Volume) :=
  match fuel with
  | O => OutOfFuel
  | S fuel =>
      match next_token comma options with
      | (None, _) => mret (Some volume)
      | (Some o, rest) =>
          match parse_option o volume with
          | Some volume => parse_options fuel rest volume
          | None => mret None
          end
      end
  end.

(** The volume a line describes; [None] for a blank line, a comment and a malformed line.  With no
    options [strtok] goes on behind the last token. *)
Definition parse_line (buffer : string) : run (option Volume) :=
  let line := skip_spaces buffer in
  match line with
  | EmptyString => mret None
  | String c _ =>
      if decide (c = "#"%char) then mret None else
      let '(mount_point, s) := next_token blanks line in
      let '(fs_type, s) := next_token blanks s in
      let '(device, s) := next_token blanks s in
      let '(device2, s) := next_token blanks s in
      let '(device2, options, s) :=
        match device2 with
        | Some d => if String.prefix "/" d then let '(o, s) := next_token blanks s in (Some d, o, s)
                    else (None, Some d, s)
        | None => (None, None, s)
        end in
      match mount_point, fs_type, device with
      | Some m, Some f, Some d =>
          let options := default s options in
          parse_options (S (String.length options)) options (mkVolume m f (Some d) device2 0 None None None None)
      | _, _, _ => mret None
      end
  end.

Fixpoint load_lines (fuel : nat) (text : string) (vols : list Volume) : run (list Volume) :=
  match text with
  | EmptyString => mret vols
  | _ =>
      match fuel with
      | O => OutOfFuel
      | S fuel =>
          let '(line, rest) := fgets_line 1022 text in
          v ← parse_line (until_nul line);
          load_lines fuel rest (match v with Some v => vols ++ [v] | None => vols end)
      end
  end.

Section load.
Context {D : Type}.
(** The table: [device_volumes] and [num_volumes].  The text may end early, when a read fails. *)
Definition load_volume_table : io D (list Volume) :=
  fstab ← sys_stat "/etc/recovery.fstab";
  match fstab with
  | None => mret [tmp_volume]
  | Some f =>
      data ← sys_read (f_data f) (zlen (f_data f));
      let text := string_of_bytes data in
      lift (load_lines (S (String.length text)) text [tmp_volume])
  end.
End load.

(** [strncmp(path, mount_point, len) == 0] and the path ends or has a slash there. *)
Definition on_volume (path : string) (v : Volume) : bool :=
  match after (mount_point v) path with
  | Some EmptyString => true
  | Some (String c _) => bool_decide (c = "/"%char)
  | None => false
  end.
Definition volume_for_path (vols : list Volume) (path : string) : option Volume :=
  snd <$> list_find (λ v, on_volume path v = true) vols.
Definition is_data_media (vols : list Volume) : bool :=
  existsb (λ v, bool_decide (fs_type v = "datamedia"%string)) vols.
(** Dereferences what [volume_for_path] gives. *)
Definition is_data_media_volume_path (vols : list Volume) (path : string) : run bool :=
  v ← access (volume_for_path vols path);
  mret (bool_decide (fs_type v = "datamedia"%string)).

(** * Mounted volumes *)

(** The fields are null once the volume is unmounted. *)
Record MountedVolume := mkMounted {
  mv_device : option string; mv_mount_point : option string;
  mv_filesystem : option string; mv_flags : option string
}.
Definition no_mounted : MountedVolume := mkMounted None None None None.
(** The array, once it is allocated, and the number of its entries in use. *)
Record MountsState := mkMounts { mt_volumes : option (list MountedVolume); volume_count : Z }.

(** A field of the format ["%63s %63s %63s %127s"]: blanks are skipped, also line ends. *)
Fixpoint word (n : nat) (s : string) : string * string :=
  match n, s with
  | S n, String c s' => if isspace c then (EmptyString, s)
                        else let '(w, r) := word n s' in (String c w, r)
  | _, _ => (EmptyString, s)
  end.
Definition scan_word (n : nat) (s : string) : option (string * string) :=
  let '(w, r) := word n (skip_spaces s) in
  if decide (w = EmptyString) then None else Some (w, r).
Definition scan_mount (s : string) : option MountedVolume :=
  '(d, s) ← scan_word 63 s;
  '(m, s) ← scan_word 63 s;
  '(f, s) ← scan_word 63 s;
  '(o, _) ← scan_word 127 s;
  Some (mkMounted (Some d) (Some m) (Some f) (Some o)).

Fixpoint next_line (s : string) : string :=
  match s with
  | String c s => if decide (uchar c = 10) then s else next_line s
  | EmptyString => EmptyString
  end.

(** The loop over the lines; [sscanf] stops at a zero byte; an entry behind the array is an access outside an object. *)
Fixpoint scan_mounts (fuel : nat) (bufp : string) (vs : list MountedVolume) (count : Z)
    : run (list MountedVolume * Z) :=
  match bufp with
  | EmptyString => mret (vs, count)
  | _ =>
      match fuel with
      | O => OutOfFuel
      | S fuel =>
          match scan_mount (until_nul bufp) with
          | Some v =>
              _ ← access (znth vs count);
              scan_mounts fuel (next_line bufp) (<[Z.to_nat count := v]> vs) (count + 1)
          | None => scan_mounts fuel (next_line bufp) vs count
          end
      end
  end.

Definition numv : nat := 32.
Definition MOUNTS_BUF : nat := 2047.

(** What the kernel does: the text of [/proc/mounts] when it can be opened and read; [mount] with a device, a
    mount point, a type, flags and data; [umount]; and the command line of a shell.  Each
    with a choice of the environment. *)
Class Kernel := {
  Kern : Type;
  proc_mounts : Kern → Z → option string;
  do_mount : Kern → option string → option string → option string → Z → option string → Z → Z * Kern;
  do_umount : Kern → option string → Z → Z * Kern;
  do_system : Kern → string → Z → Z * Kern
}.

Definition MS_RDONLY : Z := 1.
Definition MS_REMOUNT : Z := 32.
(** [MS_NOATIME | MS_NODEV | MS_NODIRATIME]. *)
Definition MS_QUIET : Z := Z.lor (Z.lor 1024 4) 2048.

Section volumes.
Context `{Kernel} {D : Type} `{!Mtd D}.

(** The table of this program and the state of the kernel. *)
Record Mounts := mkWorld { g_mounts_state : MountsState; kernel : Kern }.

Definition ask_kernel (f : Kern → Z → Z * Kern) (w : Mounts) : io D (Z * Mounts) :=
  c ← choose;
  let '(r, k) := f (kernel w) c in mret (r, mkWorld (g_mounts_state w) k).

Definition scan_mounted_volumes (w : Mounts) : io D (Z * Mounts) :=
  let g := g_mounts_state w in
  let vs := match mt_volumes g with
            | Some vs => replicate (Z.to_nat (volume_count g)) no_mounted ++ drop (Z.to_nat (volume_count g)) vs
            | None => replicate numv no_mounted
            end in
  c ← choose;
  match proc_mounts (kernel w) c with
  | None => mret (-1, mkWorld (mkMounts (Some vs) 0) (kernel w))
  | Some buf =>
      let buf := String.substring 0 MOUNTS_BUF buf in
      '(vs, count) ← lift (scan_mounts (S (String.length buf)) buf vs 0);
      mret (0, mkWorld (mkMounts (Some vs) count) (kernel w))
  end.

(** The entries in use, with their places. *)
Definition in_use (g : MountsState) : list MountedVolume :=
  match mt_volumes g with Some vs => take (Z.to_nat (volume_count g)) vs | None => [] end.
Definition find_mounted_volume_by_device (g : MountsState) (device : string) : option nat :=
  fst <$> list_find (λ v, mv_device v = Some device) (in_use g).
Definition find_mounted_volume_by_mount_point (g : MountsState) (mount_point : string) : option nat :=
  fst <$> list_find (λ v, mv_mount_point v = Some mount_point) (in_use g).

Definition clear_entry (i : nat) (g : MountsState) : MountsState :=
  mkMounts (<[i := no_mounted]> <$> mt_volumes g) (volume_count g).
Definition unmount_mounted_volume (i : nat) (w : Mounts) : io D (Z * Mounts) :=
  v ← lift (access (in_use (g_mounts_state w) !! i));
  '(ret, w) ← ask_kernel (λ k, do_umount k (mv_mount_point v)) w;
  mret (ret, if decide (ret = 0) then mkWorld (clear_entry i (g_mounts_state w)) (kernel w) else w).
Definition remount_read_only (i : nat) (w : Mounts) : io D (Z * Mounts) :=
  v ← lift (access (in_use (g_mounts_state w) !! i));
  ask_kernel (λ k, do_mount k (mv_device v) (mv_mount_point v) (mv_filesystem v)
    (Z.lor (Z.lor MS_QUIET MS_RDONLY) MS_REMOUNT) None) w.

(** ** Mounting *)

Definition words (l : list string) : string := String.concat " " l.
(** [sprintf] into a buffer of [PATH_MAX] bytes, and [__system]. *)
Definition shell (cmd : string) (w : Mounts) : io D (Z * Mounts) :=
  if decide (PATH_MAX ≤ strlen cmd) then lift Fault else ask_kernel (λ k, do_system k cmd) w.

Definition try_mount (device : option string) (mount_point : string) (fs_type fs_options : option string)
    (w : Mounts) : io D (Z * Mounts) :=
  match device, fs_type with
  | Some device, Some fs_type =>
      match fs_options with
      | None => ask_kernel (λ k, do_mount k (Some device) (Some mount_point) (Some fs_type) MS_QUIET (Some EmptyString)) w
      | Some o => shell (words ["mount"; "-t"; fs_type; "-o" ++ o; device; mount_point]%string) w
      end
  | _, _ => mret (-1, w)
  end.

(** [stat] of the mount point gives whether its execute bits are set. *)
Definition mtd_mount_partition (read_only : bool) (partition : MtdPartition) (mount_point filesystem : string) (w : Mounts)
    : io D (Z * Mounts) :=
  let devname := ("/dev/block/mtdblock" +:+ pretty (mtd_device_index partition))%string in
  '(rv, w) ← (if read_only then mret (-1, w)
              else ask_kernel (λ k, do_mount k (Some devname) (Some mount_point) (Some filesystem) MS_QUIET None) w);
  '(rv, w) ← (if decide (read_only = true ∨ rv < 0)
              then ask_kernel (λ k, do_mount k (Some devname) (Some mount_point) (Some filesystem)
                                        (Z.lor MS_QUIET MS_RDONLY) None) w else mret (rv, w));
  if decide (rv < 0) then mret (rv, w) else
  c ← choose;
  if decide (c = 0) then mret (-1, w)
  else if decide (c = 1) then mret (0, w)
  else c ← choose; mret (if decide (c = 0) then -1 else 0, w).

(** [rmdir], [mkdir] and [symlink] for the first such volume. *)
Definition setup_data_media (vols : list Volume) : io D unit :=
  if is_data_media vols then _ ← choose; _ ← choose; _ ← choose; mret tt else mret tt.

Definition block_types : list string := ["ext4"; "ext3"; "rfs"; "vfat"]%string.
(** The four attempts. *)
Fixpoint try_mounts (l : list (option string * option string * option string)) (mount_point : string) (w : Mounts)
    : io D (Z * Mounts) :=
  match l with
  | [] => mret (-1, w)
  | (dev, ty, opts) :: l =>
      '(r, w) ← try_mount dev mount_point ty opts w;
      if decide (r = 0 ∨ l = []) then mret (r, w) else try_mounts l mount_point w
  end.

(** The rest of [ensure_path_mounted_at_mount_point], once the mounts are known. *)
Definition mount_volume (v : Volume) (point : string) (w : Mounts) : io D (Z * Mounts) :=
  match find_mounted_volume_by_mount_point (g_mounts_state w) point with
  | Some _ => mret (0, w)
  | None =>
      _ ← choose;
      if decide (fs_type v = "yaffs2"%string) then
        _ ← mtd_scan_partitions;
        device ← lift (access (device v));
        partition ← mtd_find_partition_by_name device;
        match partition with
        | None => mret (-1, w)
        | Some partition => mtd_mount_partition false partition point (fs_type v) w
        end
      else if decide (fs_type v ∈ block_types) then
        try_mounts [(device v, Some (fs_type v), fs_options v); (device2 v, Some (fs_type v), fs_options v);
                    (device v, fs_type2 v, fs_options2 v); (device2 v, fs_type2 v, fs_options2 v)] point w
      else shell (words ["mount"; point]%string) w
  end.
Fixpoint ensure_path_mounted_at_mount_point (fuel : nat) (vols : list Volume) (path : string)
    (at_point : option string) (w : Mounts) : io D (Z * Mounts) :=
  match volume_for_path vols path with
  | None => mret (-1, w)
  | Some v =>
      media ← lift (is_data_media_volume_path vols path);
      if (media : bool) then
        match fuel with
        | O => lift OutOfFuel
        | S fuel =>
            '(ret, w) ← ensure_path_mounted_at_mount_point fuel vols "/data" None w;
            if decide (ret ≠ 0) then mret (ret, w) else
            _ ← setup_data_media vols; mret (0, w)
        end
      else if decide (fs_type v = "ramdisk"%string) then mret (0, w) else
      '(result, w) ← scan_mounted_volumes w;
      if decide (result < 0) then mret (-1, w) else mount_volume v (default (mount_point v) at_point) w
  end.
Definition ensure_path_mounted (fuel : nat) (vols : list Volume) (path : string) (w : Mounts) : io D (Z * Mounts) :=
  ensure_path_mounted_at_mount_point fuel vols path None w.

Fixpoint ensure_path_unmounted (fuel : nat) (vols : list Volume) (path : string) (w : Mounts) : io D (Z * Mounts) :=
  if String.prefix "/data" path && is_data_media vols then mret (0, w) else
  match volume_for_path vols path with
  | None => mret (-1, w)
  | Some v =>
      media ← lift (is_data_media_volume_path vols path);
      if (media : bool) then
        match fuel with
        | O => lift OutOfFuel
        | S fuel => ensure_path_unmounted fuel vols "/data" w
        end
      else if decide (fs_type v = "ramdisk"%string) then mret (-1, w) else
      '(result, w) ← scan_mounted_volumes w;
      if decide (result < 0) then mret (-1, w) else
      match find_mounted_volume_by_mount_point (g_mounts_state w) (mount_point v) with
      | None => mret (0, w)
      | Some i => unmount_mounted_volume i w
      end
  end.
End volumes.

(** * Words *)
Fixpoint sall (p : ascii → bool) (s : string) : bool :=
  match s with EmptyString => true | String c s => p c && sall p s end.
Lemma app_cons c s t : String c s +:+ t = String c (s +:+ t).
Proof. done. Qed.
Lemma sall_app p s t : sall p (s +:+ t) = sall p s && sall p t.
Proof. induction s as [|c s IH]; [done|]. rewrite app_cons. cbn [sall]. by rewrite IH, andb_assoc. Qed.
Lemma sall_impl (p q : ascii → bool) s : (∀ c, p c = true → q c = true) → sall p s = true → sall q s = true.
Proof.
  intros Hpq. induction s as [|c s IH]; [done|]. cbn. rewrite !andb_true_iff. intros [? ?]. auto.
Qed.
Lemma app_assoc_s (s t u : string) : s +:+ (t +:+ u) = (s +:+ t) +:+ u.
Proof. induction s as [|c s IH]; [done|]. by rewrite !app_cons, IH. Qed.

Section tokens.
Context (delims : list Z).
Definition no_delim (w : string) : Prop := sall (λ c, negb (is_delim delims c)) w = true.

Lemma take_token_word w c r : no_delim w → is_delim delims c = true → take_token delims (w +:+ String c r) = (w, r).
Proof.
  unfold no_delim. intros Hw Hc. induction w as [|d w IH]; [change (EmptyString +:+ String c r) with (String c r); cbn [take_token]; by rewrite Hc|]. rewrite app_cons. cbn [sall take_token] in *.
  apply andb_true_iff in Hw as [Hd%negb_true_iff Hw]. by rewrite Hd, IH.
Qed.
Lemma take_token_end w : no_delim w → take_token delims w = (w, EmptyString).
Proof.
  unfold no_delim. intros Hw. induction w as [|d w IH]; cbn in *; [done|].
  apply andb_true_iff in Hw as [Hd%negb_true_iff Hw]. by rewrite Hd, IH.
Qed.
Lemma next_token_start w s : no_delim w → w ≠ EmptyString →
  next_token delims (w +:+ s) = (let '(t, r) := take_token delims (w +:+ s) in (Some t, r)).
Proof.
  intros Hw Hne. destruct w as [|c w]; [done|]. unfold no_delim in Hw. cbn in Hw.
  apply andb_true_iff in Hw as [Hc%negb_true_iff Hw]. unfold next_token. rewrite app_cons. cbn [skip_delims].
  rewrite Hc. done.
Qed.
Lemma next_token_word w c r : no_delim w → w ≠ EmptyString → is_delim delims c = true →
  next_token delims (w +:+ String c r) = (Some w, r).
Proof. intros. by rewrite next_token_start, take_token_word. Qed.
Lemma next_token_end w : no_delim w → w ≠ EmptyString → next_token delims w = (Some w, EmptyString).
Proof.
  intros. rewrite <- (string_app_nil_r w) at 1. rewrite next_token_start, string_app_nil_r, take_token_end by done. done.
Qed.
End tokens.

Lemma substring_all m s : (String.length s ≤ m)%nat → String.substring 0 m s = s.
Proof.
  revert m. induction s as [|c s IH]; intros [|m] Hm; cbn in *; try done; [lia|]. by rewrite IH by lia.
Qed.
Lemma substring_drop p s m : (String.length s ≤ m)%nat → String.substring (String.length p) m (p +:+ s) = s.
Proof.
  intros Hm. induction p as [|c p IH]; [by apply substring_all|]. rewrite app_cons. exact IH.
Qed.
Lemma length_app_s s t : String.length (s +:+ t) = (String.length s + String.length t)%nat.
Proof. induction s as [|c s IH]; [done|]. rewrite app_cons. cbn [String.length]. by rewrite IH. Qed.
Lemma after_app p s : after p (p +:+ s) = Some s.
Proof.
  unfold after. assert (String.prefix p (p +:+ s) = true) as -> by (apply prefix_spec; eauto).
  f_equal. apply substring_drop. rewrite length_app_s. lia.
Qed.
Lemma after_None p s : String.prefix p s = false → after p s = None.
Proof. unfold after. by intros ->. Qed.

(** * The table a file describes *)

(** A volume as a line of the file. *)
Definition volume_options (v : Volume) : list string :=
  (if decide (v_length v = 0) then [] else ["length=" +:+ pretty (v_length v)]) ++
  (match fs_type2 v with Some _ => ["fstype2=" +:+ fs_type v] | None => [] end) ++
  (match fs_options v with Some o => ["fs_options=" +:+ o] | None => [] end) ++
  (match fs_options2 v with Some o => ["fs_options2=" +:+ o] | None => [] end) ++
  (match lun v with Some o => ["lun=" +:+ o] | None => [] end).
Definition printed_options (v : Volume) : string := String.concat "," (volume_options v).
Definition print_volume (v : Volume) : string :=
  mount_point v +:+ " " +:+ default (fs_type v) (fs_type2 v) +:+ " " +:+ default EmptyString (device v) +:+
  match device2 v with Some d => " " +:+ d | None => EmptyString end +:+
  match volume_options v with [] => EmptyString | _ => " " +:+ printed_options v end.
Definition newline : ascii := ascii_of_nat 10.
Fixpoint print_table (vs : list Volume) : string :=
  match vs with [] => EmptyString | v :: vs => print_volume v +:+ String newline (print_table vs) end.

(** Fields that can be written in the file. *)
Definition plain_char (c : ascii) : bool := negb (is_delim [32; 9; 10; 11; 12; 13; 0] c).
Definition option_char (c : ascii) : bool := plain_char c && negb (is_delim comma c).
Definition plain (s : string) : Prop := s ≠ EmptyString ∧ sall plain_char s = true.
Definition plain_option (o : option string) : Prop := match o with Some o => sall option_char o = true | None => True end.
Record printable (v : Volume) : Prop := {
  pr_mount : plain (mount_point v) ∧ String.prefix "#" (mount_point v) = false;
  pr_type : plain (fs_type v) ∧ sall option_char (fs_type v) = true;
  pr_type2 : match fs_type2 v with Some t => plain t | None => True end;
  pr_device : ∃ d, device v = Some d ∧ plain d;
  pr_device2 : match device2 v with Some d => plain d ∧ String.prefix "/" d = true | None => True end;
  pr_length : in_s 64 (v_length v);
  pr_options : plain_option (fs_options v);
  pr_options2 : plain_option (fs_options2 v);
  pr_lun : plain_option (lun v);
  pr_size : (String.length (print_volume v) < 1022)%nat
}.

Lemma is_delim_spec delims c : is_delim delims c = true ↔ uchar c ∈ delims.
Proof. unfold is_delim. apply bool_decide_eq_true. Qed.
Lemma plain_no_delim delims s : delims ⊆ [32; 9; 10; 11; 12; 13; 0] → sall plain_char s = true → no_delim delims s.
Proof.
  intros Hd. apply sall_impl. intros c. unfold plain_char. rewrite !negb_true_iff. intros Hc.
  apply not_true_iff_false. intros Hin%is_delim_spec%Hd. apply not_true_iff_false in Hc. by apply Hc, is_delim_spec.
Qed.
Lemma option_plain s : sall option_char s = true → sall plain_char s = true.
Proof. apply sall_impl. intros c. unfold option_char. by intros [? _]%andb_true_iff. Qed.
Lemma option_no_comma s : sall option_char s = true → no_delim comma s.
Proof. apply sall_impl. intros c. unfold option_char. by intros [_ ?]%andb_true_iff. Qed.

Lemma pretty_chars n : sall option_char (pretty (n : N)) = true.
Proof.
  unfold pretty, pretty_N. case_decide; [done|].
  assert (∀ m s, sall option_char s = true → sall option_char (pretty_N_go m s) = true) as H1.
  { intros m. induction (N.lt_wf_0 m) as [m _ IH]. intros s Hs. destruct (decide (0 < m)%N) as [Hm|Hm].
    - rewrite pretty_N_go_step by done. apply IH; [apply N.div_lt; lia|]. cbn. rewrite Hs, andb_true_r.
      unfold pretty_N_char. repeat case_match; done.
    - assert (m = 0%N) as -> by lia. by rewrite pretty_N_go_0. }
  by apply H1.
Qed.
Lemma pretty_Z_chars (z : Z) : sall option_char (pretty z) = true.
Proof.
  destruct z as [|p|p]; [done|apply (pretty_chars (Npos p))|].
  change (pretty (Z.neg p)) with (String "-" (pretty (Npos p))). cbn [sall]. by rewrite (pretty_chars (Npos p)).
Qed.

(** ** Options *)
Fixpoint apply_options (os : list string) (v : Volume) : option Volume :=
  match os with [] => Some v | o :: os => v ← parse_option o v; apply_options os v end.
Lemma concat_cons o o' os : String.concat "," (o :: o' :: os) = o +:+ String "," (String.concat "," (o' :: os)).
Proof. done. Qed.
Lemma parse_options_join os : ∀ fuel v, Forall (λ o, no_delim comma o ∧ o ≠ EmptyString) os → (length os < fuel)%nat →
  parse_options fuel (String.concat "," os) v = Done (apply_options os v).
Proof.
  induction os as [|o os IH]; intros fuel v Hos Hf; (destruct fuel as [|fuel]; [simpl in Hf; lia|]); [done|].
  apply Forall_cons in Hos as [[Ho Hne] Hos]. simpl in Hf. cbn [parse_options].
  assert (next_token comma (String.concat "," (o :: os)) = (Some o, String.concat "," os)) as ->.
  { destruct os as [|o' os]; [by apply next_token_end|]. rewrite concat_cons. by apply next_token_word. }
  cbn [apply_options]. destruct (parse_option o v) as [v'|]; [|done]. apply IH; [done|lia].
Qed.

Lemma options_good v : printable v →
  Forall (λ o, sall option_char o = true ∧ o ≠ EmptyString ∧ String.prefix "/" o = false) (volume_options v).
Proof.
  intros Hv. unfold volume_options.
  repeat apply Forall_app_2.
  - case_decide; repeat constructor; try done. by rewrite sall_app, pretty_Z_chars.
  - destruct (fs_type2 v); repeat constructor; try done. rewrite sall_app. by destruct Hv as [_ [_ ->]].
  - pose proof (pr_options v Hv). destruct (fs_options v); repeat constructor; done.
  - pose proof (pr_options2 v Hv). destruct (fs_options2 v); repeat constructor; done.
  - pose proof (pr_lun v Hv). destruct (lun v); repeat constructor; done.
Qed.
Lemma options_apply v d : in_s 64 (v_length v) → device v = Some d →
  apply_options (volume_options v) (mkVolume (mount_point v) (default (fs_type v) (fs_type2 v)) (Some d) (device2 v) 0 None None None None) = Some v.
Proof.
  destruct v as [m f dv d2 n f2 o o2 l]. cbn [v_length device mount_point fs_type fs_type2 device2]. intros Hn ->.
  assert (strtoll (pretty n) = n) as Hp by (unfold strtoll; by rewrite (strtol_pretty (H := abi64))).
  assert (∀ x v, parse_option ("length=" +:+ x) v = Some (set_length (strtoll x) v)) as E1.
  { intros x v. unfold parse_option. by rewrite after_app. }
  assert (∀ x v, parse_option ("fstype2=" +:+ x) v = Some (set_fstype2 x v)) as E2.
  { intros x v. unfold parse_option. rewrite (after_None "length=") by done. by rewrite after_app. }
  assert (∀ x v, parse_option ("fs_options=" +:+ x) v = Some (set_options x v)) as E3.
  { intros x v. unfold parse_option. rewrite (after_None "length="), (after_None "fstype2=") by done. by rewrite after_app. }
  assert (∀ x v, parse_option ("fs_options2=" +:+ x) v = Some (set_options2 x v)) as E4.
  { intros x v. unfold parse_option. rewrite (after_None "length="), (after_None "fstype2="), (after_None "fs_options=") by done.
    by rewrite after_app. }
  assert (∀ x v, parse_option ("lun=" +:+ x) v = Some (set_lun x v)) as E5.
  { intros x v. unfold parse_option.
    rewrite (after_None "length="), (after_None "fstype2="), (after_None "fs_options="), (after_None "fs_options2=") by done.
    by rewrite after_app. }
  unfold volume_options. cbn [v_length fs_type fs_type2 fs_options fs_options2 lun].
  case_decide as Hz; destruct f2, o, o2, l; cbn [app apply_options];
    repeat (first [rewrite E1 | rewrite E2 | rewrite E3 | rewrite E4 | rewrite E5];
            cbn [mbind option_bind set_length set_fstype2 set_options set_options2 set_lun default id]);
    rewrite ?Hp; subst; done.
Qed.

(** ** Lines *)
Lemma space_app x : " " +:+ x = String " " x.
Proof. done. Qed.
Lemma empty_app x : EmptyString +:+ x = x.
Proof. done. Qed.
Lemma plain_start p s : plain p → skip_spaces (p +:+ s) = p +:+ s.
Proof.
  intros [Hne Hp]. destruct p as [|c p]; [done|]. rewrite app_cons. cbn [sall] in Hp. apply andb_true_iff in Hp as [Hc _].
  cbn [skip_spaces]. assert (isspace c = false) as ->; [|done]. apply not_true_iff_false. intros Hs.
  unfold plain_char in Hc. apply negb_true_iff, not_true_iff_false in Hc. apply Hc, is_delim_spec.
  unfold isspace in Hs. apply orb_true_iff in Hs as [H%Z.eqb_eq|[H%Z.leb_le H2%Z.leb_le]%andb_true_iff]; rewrite !elem_of_cons; lia.
Qed.
Lemma delim_newline : is_delim blanks newline = true.
Proof. done. Qed.
Lemma plain_word s : plain s → no_delim blanks s ∧ s ≠ EmptyString.
Proof. intros [Hne Hs]. split; [|done]. apply plain_no_delim; [|done]. unfold blanks. set_solver. Qed.

Lemma parse_print v : printable v → parse_line (print_volume v +:+ String newline EmptyString) = Done (Some v).
Proof.
  intros Hv. pose proof (options_good v Hv) as Hos. destruct Hv as [[Hm Hh] [Ht _] Ht2 (d & Ed & Hd) Hd2 Hl _ _ _ _].
  pose proof (options_apply v d Hl Ed) as Happ.
  set (tail := match device2 v with Some d => " " +:+ d | None => EmptyString end +:+
               match volume_options v with [] => EmptyString | _ => " " +:+ printed_options v end +:+ String newline EmptyString).
  assert (print_volume v +:+ String newline EmptyString =
    mount_point v +:+ String " " (default (fs_type v) (fs_type2 v) +:+ String " " (d +:+ tail))) as ->.
  { unfold print_volume, tail. rewrite Ed. cbn [default id]. rewrite <- !app_assoc_s. done. }
  unfold parse_line. rewrite plain_start by done.
  set (line := mount_point v +:+ _).
  assert (∃ c m, line = String c m ∧ c ≠ "#"%char) as (c & m & El & Hc).
  { unfold line. destruct (mount_point v) as [|c m]; [by destruct Hm|]. exists c. eexists. split; [by rewrite app_cons|].
    intros ->. by destruct m. }
  cbv zeta. rewrite El. rewrite decide_False by done. rewrite <- El. unfold line. clear c m El Hc line.
  assert (plain (default (fs_type v) (fs_type2 v))) as Hty by (by destruct (fs_type2 v)).
  apply plain_word in Hm as [? ?], Hty as [? ?], Hd as [? ?].
  rewrite next_token_word by done. rewrite next_token_word by done.
  assert (∀ os, Forall (λ o, sall option_char o = true ∧ o ≠ EmptyString ∧ String.prefix "/" o = false) os → os ≠ [] →
    no_delim blanks (String.concat "," os) ∧ String.concat "," os ≠ EmptyString ∧ String.prefix "/" (String.concat "," os) = false) as Hjoin.
  { induction os as [|o os IH]; [done|]. intros [(Hc & Hne & Hp) Hos']%Forall_cons _.
    assert (no_delim blanks o) as Hnb by (apply plain_no_delim; [unfold blanks; set_solver|by apply option_plain]).
    destruct os as [|o' os]; [done|]. rewrite concat_cons. destruct (IH Hos' ltac:(done)) as (IH1 & _ & _).
    split_and!.
    - unfold no_delim in *. rewrite sall_app. cbn [sall]. by rewrite IH1, Hnb.
    - intros E. destruct o; [done|discriminate E].
    - destruct o as [|a o]; [done|]. revert Hp. rewrite app_cons. cbn [String.prefix]. destruct (Ascii.ascii_dec _ a); [|done]. by destruct o. }
  assert (∀ d2, parse_options (S (String.length (printed_options v))) (printed_options v)
     (mkVolume (mount_point v) (default (fs_type v) (fs_type2 v)) (Some d) d2 0 None None None None) =
     Done (apply_options (volume_options v) (mkVolume (mount_point v) (default (fs_type v) (fs_type2 v)) (Some d) d2 0 None None None None))) as Hparse.
  { intros d2. apply parse_options_join.
    - eapply Forall_impl; [exact Hos|]. intros o (Hc & Hne & _). split; [by apply option_no_comma|done].
    - unfold printed_options. clear -Hos. induction Hos as [|o os (_ & Hne & _) Hos IH]; [simpl; lia|].
      destruct os as [|o' os]; [destruct o; [done|simpl; lia]|]. rewrite concat_cons, length_app_s.
      cbn [String.length length] in *. lia. }
  assert (volume_options v ≠ [] → no_delim blanks (printed_options v) ∧ printed_options v ≠ EmptyString ∧
    String.prefix "/" (printed_options v) = false) as Hpo by (by apply Hjoin).
  unfold tail. destruct (device2 v) as [d2|].
  - destruct Hd2 as [Hd2 Hslash]. apply plain_word in Hd2 as [? ?].
    destruct (volume_options v) as [|o os] eqn:Eo; [|destruct Hpo as (? & ? & _); [done|]];
      rewrite <- !app_assoc_s, ?empty_app, !space_app; rewrite !next_token_word by done; rewrite Hslash.
    + change (next_token blanks "") with (@None string, ""). cbn [apply_options] in Happ. by rewrite <- Happ.
    + cbn [default id]. rewrite Hparse. by rewrite Happ.
  - destruct (volume_options v) as [|o os] eqn:Eo; [|destruct Hpo as (? & ? & Hslash); [done|]];
      rewrite ?empty_app, <- ?app_assoc_s, ?space_app; rewrite next_token_word by done.
    + change (next_token blanks "") with (@None string, ""). cbn [apply_options] in Happ. by rewrite <- Happ.
    + rewrite next_token_word by done. rewrite Hslash. cbn [default id]. rewrite Hparse. by rewrite Happ.
Qed.

(** ** The file *)
Definition line_char (c : ascii) : bool := negb (is_delim [10; 0] c).
Lemma line_plain s : sall plain_char s = true → sall line_char s = true.
Proof.
  apply sall_impl. intros c. unfold plain_char, line_char. rewrite !negb_true_iff. intros Hc.
  apply not_true_iff_false. intros Hin%is_delim_spec. apply not_true_iff_false in Hc. apply Hc, is_delim_spec. set_solver.
Qed.
Lemma print_chars v : printable v → sall line_char (print_volume v) = true.
Proof.
  intros Hv. pose proof (options_good v Hv) as Hos. destruct Hv as [[[_ Hm] _] [[_ Ht] _] Ht2 (d & Ed & _ & Hd) Hd2 _ _ _ _ _].
  assert (sall line_char (default (fs_type v) (fs_type2 v)) = true) as H2.
  { destruct (fs_type2 v); [destruct Ht2 as [_ Ht2]|]; by apply line_plain. }
  unfold print_volume. rewrite !sall_app, H2, Ed. rewrite (line_plain _ Hm). cbn [default id].
  rewrite (line_plain _ Hd). cbn [sall andb].
  assert (sall line_char match device2 v with Some d => " " +:+ d | None => EmptyString end = true) as ->.
  { destruct (device2 v) as [d2|]; [|done]. destruct Hd2 as [[_ Hd2] _]. rewrite sall_app, (line_plain _ Hd2). done. }
  assert (sall line_char (printed_options v) = true) as Hp.
  { unfold printed_options. induction Hos as [|o os (Ho & _) Hos IH]; [done|].
    destruct os as [|o' os]; [by apply line_plain, option_plain|]. rewrite concat_cons, sall_app. cbn [sall].
    rewrite IH. rewrite (line_plain _ (option_plain _ Ho)). done. }
  destruct (volume_options v); [done|]. rewrite sall_app, Hp. done.
Qed.
Lemma line_char_spec c : line_char c = true → uchar c ≠ 10 ∧ uchar c ≠ 0.
Proof.
  unfold line_char. rewrite negb_true_iff. intros Hc. apply not_true_iff_false in Hc.
  split; intros E; apply Hc, is_delim_spec; rewrite E; set_solver.
Qed.
Lemma fgets_word w n r : sall line_char w = true → (String.length w < n)%nat →
  fgets_line n (w +:+ String newline r) = (w +:+ String newline EmptyString, r).
Proof.
  revert n. induction w as [|c w IH]; intros n Hw Hn; (destruct n as [|n]; [simpl in Hn; lia|]); [done|].
  cbn [sall] in Hw. apply andb_true_iff in Hw as [[Hc _]%line_char_spec Hw]. rewrite !app_cons. cbn [fgets_line].
  rewrite decide_False by done. rewrite IH; [done|done|simpl in Hn; lia].
Qed.
Lemma until_nul_line w : sall line_char w = true →
  until_nul (w +:+ String newline EmptyString) = w +:+ String newline EmptyString.
Proof.
  induction w as [|c w IH]; intros Hw; [done|]. cbn [sall] in Hw.
  apply andb_true_iff in Hw as [[_ Hc]%line_char_spec Hw]. rewrite app_cons. cbn [until_nul].
  rewrite decide_False by done. by rewrite IH.
Qed.
Lemma load_print vs : ∀ fuel acc, Forall printable vs → (length vs < fuel)%nat →
  load_lines fuel (print_table vs) acc = Done (acc ++ vs).
Proof.
  induction vs as [|v vs IH]; intros fuel acc Hvs Hf; (destruct fuel as [|fuel]; [simpl in Hf; lia|]).
  { cbn [print_table load_lines]. by rewrite app_nil_r. }
  apply Forall_cons in Hvs as [Hv Hvs]. cbn [print_table].
  assert (∀ t, ∃ c r, print_volume v +:+ String newline t = String c r) as Hne.
  { intros t. destruct (print_volume v) as [|c r]; eauto. }
  destruct (Hne (print_table vs)) as (c & r & E). cbn [load_lines]. rewrite E, <- E.
  pose proof (print_chars v Hv) as Hc. rewrite fgets_word by (done || apply Hv).
  rewrite until_nul_line by done. rewrite parse_print by done. cbn [mbind run_bind].
  rewrite IH by (done || (simpl in Hf; lia)). by rewrite <- app_assoc.
Qed.
Lemma string_of_bytes_of_string s : string_of_bytes (bytes_of_string s) = s.
Proof.
  unfold bytes_of_string, string_of_bytes. induction s as [|c s IH]; [done|]. cbn. f_equal; [|exact IH].
  rewrite Nat2Z.id. apply ascii_nat_embedding.
Qed.
Lemma table_length vs : (length vs ≤ String.length (print_table vs))%nat.
Proof. induction vs as [|v vs IH]; [done|]. cbn [print_table length]. rewrite length_app_s. cbn [String.length]. lia. Qed.

(** C19: [load_volume_table] reads what is written in [/etc/recovery.fstab]: a file that lists any volumes, with
    second devices and all options, gives exactly these volumes, after the one for [/tmp]. *)
Theorem volume_table_round_trip {D} (s : Sys D) vs f c1 c2 cs : Forall printable vs →
  files s !! "/etc/recovery.fstab" = Some f → f_data f = bytes_of_string (print_table vs) →
  c1 ≠ 0 → zlen (f_data f) ≤ c2 →
  load_volume_table s (c1 :: c2 :: cs) = Ret (tmp_volume :: vs) s cs.
Proof.
  intros Hvs Hf Hd Hc1 Hc2. unfold load_volume_table, sys_stat, sys_read, choose, read_sys, mbind, io_bind.
  cbv beta iota zeta delta [mret io_ret]. rewrite decide_False by done. rewrite Hf. cbv beta iota. pose proof (zlen_nonneg (f_data f)).
  rewrite take_ge by (unfold zlen in *; lia). rewrite Hd, string_of_bytes_of_string.
  unfold lift. rewrite load_print; [done|done|]. pose proof (table_length vs). lia.
Qed.

(** * The table of mounts *)

(** A mount as the kernel prints it. *)
Record Mount := mkMount { m_device : string; m_point : string; m_type : string; m_flags : string }.
Definition print_mount (m : Mount) : string :=
  m_device m +:+ String " " (m_point m +:+ String " " (m_type m +:+ String " " (m_flags m +:+ " 0 0"))).
Fixpoint print_mounts (ms : list Mount) : string :=
  match ms with [] => EmptyString | m :: ms => print_mount m +:+ String newline (print_mounts ms) end.
(** Fields without blanks that fit the buffers of the scan. *)
Definition nonspace (c : ascii) : bool := negb (isspace c) && negb (bool_decide (uchar c = 0)).
Definition field (n : nat) (w : string) : Prop := w ≠ EmptyString ∧ sall nonspace w = true ∧ (String.length w ≤ n)%nat.
Definition scannable (m : Mount) : Prop :=
  field 63 (m_device m) ∧ field 63 (m_point m) ∧ field 63 (m_type m) ∧ field 127 (m_flags m).
(** Devices and mount points that fit; types and flags without blanks, of any length. *)
Definition locatable (m : Mount) : Prop :=
  field 63 (m_device m) ∧ field 63 (m_point m) ∧ sall nonspace (m_type m) = true ∧ sall nonspace (m_flags m) = true.
Lemma scannable_locatable m : scannable m → locatable m.
Proof. by intros (? & ? & (_ & ? & _) & (_ & ? & _)). Qed.
Definition as_entry (m : Mount) : MountedVolume :=
  mkMounted (Some (m_device m)) (Some (m_point m)) (Some (m_type m)) (Some (m_flags m)).

Abbreviation cut n s := (String.substring 0 n s).
Lemma cut_cons n c s : cut (S n) (String c s) = String c (cut n s).
Proof. done. Qed.

Lemma word_stop n w c s : sall nonspace w = true → (String.length w ≤ n)%nat → isspace c = true →
  word n (w +:+ String c s) = (w, String c s).
Proof.
  revert n. induction w as [|d w IH]; intros n Hw Hn Hc.
  - change (EmptyString +:+ String c s) with (String c s). destruct n; [done|]. cbn [word]. by rewrite Hc.
  - destruct n as [|n]; [simpl in Hn; lia|]. cbn [sall] in Hw. apply andb_true_iff in Hw as [[Hd%negb_true_iff _]%andb_true_iff Hw].
    rewrite app_cons. cbn [word]. rewrite Hd, IH; [done|done|simpl in Hn; lia|done].
Qed.
Lemma field_start n w s : field n w → skip_spaces (w +:+ s) = w +:+ s.
Proof.
  intros (Hne & Hw & _). destruct w as [|c w]; [done|]. cbn [sall] in Hw.
  apply andb_true_iff in Hw as [[Hc%negb_true_iff _]%andb_true_iff _]. rewrite app_cons. cbn [skip_spaces]. by rewrite Hc.
Qed.
Lemma scan_field n w c s : field n w → isspace c = true → scan_word n (w +:+ String c s) = Some (w, String c s).
Proof.
  intros Hw Hc. unfold scan_word. rewrite (field_start n) by done. destruct Hw as (Hne & Hw & Hl).
  rewrite word_stop by done. by rewrite decide_False.
Qed.
Lemma scan_space n c s : isspace c = true → scan_word n (String c s) = scan_word n s.
Proof. intros Hc. unfold scan_word. cbn [skip_spaces]. by rewrite Hc. Qed.

(** A line scans as the mount. *)
Lemma scan_print m s : scannable m → scan_mount (print_mount m +:+ s) = Some (as_entry m).
Proof.
  intros (H1 & H2 & H3 & H4). unfold scan_mount, print_mount. rewrite <- app_assoc_s, app_cons.
  rewrite scan_field by done. cbn [mbind option_bind]. rewrite scan_space, <- app_assoc_s, app_cons, scan_field by done.
  cbn [mbind option_bind]. rewrite scan_space, <- app_assoc_s, app_cons, scan_field by done.
  cbn [mbind option_bind]. rewrite scan_space, <- app_assoc_s by done.
  change (" 0 0" +:+ s) with (String " " ("0 0" +:+ s)). by rewrite scan_field by done.
Qed.

(** The front of a line: the word scanned is whole, or nothing is left behind it. *)
Lemma scan_cut n k w c s : field n w → isspace c = true →
  (∃ j, scan_word n (cut k (w +:+ String c s)) = Some (w, String c (cut j s))) ∨
  (∀ x r, scan_word n (cut k (w +:+ String c s)) = Some (x, r) → r = EmptyString).
Proof.
  intros Hw Hc. destruct (decide (String.length w < k)%nat) as [Hk|Hk].
  - left. exists (k - S (String.length w))%nat.
    assert (∀ w k, (String.length w < k)%nat → cut k (w +:+ String c s) = w +:+ String c (cut (k - S (String.length w)) s)) as Hcut.
    { clear. induction w as [|d w IH]; intros k Hk; (destruct k as [|k]; [simpl in Hk; lia|]).
      - change (EmptyString +:+ ?x) with x. rewrite cut_cons. cbn [String.length]. by replace (S k - 1)%nat with k by lia.
      - rewrite app_cons, cut_cons, IH by (simpl in Hk; lia). done. }
    rewrite Hcut by done. by apply scan_field.
  - right. assert (∃ w', cut k (w +:+ String c s) = w' ∧ sall nonspace w' = true ∧ (String.length w' ≤ n)%nat) as (w' & -> & Hw' & Hl).
    { destruct Hw as (_ & Hw & Hl). assert (String.length w ≤ n)%nat as Hln by done. clear Hl.
      revert k Hk n Hln. induction w as [|d w IH]; intros k Hk n Hln.
      - destruct k; [|simpl in Hk; lia]. exists EmptyString. split; [|split; [done|simpl; lia]]. done.
      - destruct k as [|k]; [exists EmptyString; split; [done|split; [done|simpl; lia]]|].
        cbn [sall] in Hw. apply andb_true_iff in Hw as [Hd Hw]. destruct n as [|n]; [simpl in Hln; lia|].
        destruct (IH Hw k ltac:(simpl in Hk; lia) n ltac:(simpl in Hln; lia)) as (w' & E & ? & ?).
        exists (String d w'). rewrite app_cons, cut_cons, E. cbn [sall]. rewrite Hd. split; [done|split; [done|simpl; lia]]. }
    intros x r. unfold scan_word.
    assert (skip_spaces w' = w') as ->.
    { destruct w' as [|d w']; [done|]. cbn [sall] in Hw'. apply andb_true_iff in Hw' as [[Hd%negb_true_iff _]%andb_true_iff _].
      cbn [skip_spaces]. by rewrite Hd. }
    assert (word n w' = (w', EmptyString)) as ->.
    { clear -Hw' Hl. revert n Hl. induction w' as [|d w' IH]; intros n Hl; [by destruct n|].
      destruct n as [|n]; [simpl in Hl; lia|]. cbn [sall] in Hw'. apply andb_true_iff in Hw' as [[Hd%negb_true_iff _]%andb_true_iff Hw'].
      cbn [word]. rewrite Hd, IH; [done|done|simpl in Hl; lia]. }
    case_decide; [done|]. by intros [= _ <-].
Qed.
Lemma scan_nothing n : scan_word n EmptyString = None.
Proof. by destruct n. Qed.
Lemma scan_cut_mount m k s v : locatable m → scan_mount (cut k (print_mount m +:+ s)) = Some v →
  mv_mount_point v = Some (m_point m).
Proof.
  intros (H1 & H2 & _). unfold scan_mount, print_mount. rewrite string_app_assoc, app_cons, string_app_assoc, app_cons.
  set (rest := ((m_type m +:+ _) +:+ s)%string).
  destruct (scan_cut 63 k _ " " (m_point m +:+ String " " rest) H1 eq_refl) as [(j & ->)|Hx].
  2: { destruct (scan_word 63 _) as [[d r]|]; [|done]. cbn [mbind option_bind]. rewrite (Hx d r eq_refl). by rewrite scan_nothing. }
  cbn [mbind option_bind]. rewrite scan_space by done.
  destruct (scan_cut 63 j _ " " rest H2 eq_refl) as [(i & ->)|Hx].
  2: { destruct (scan_word 63 _) as [[d r]|]; [|done]. cbn [mbind option_bind]. rewrite (Hx d r eq_refl). by rewrite scan_nothing. }
  cbn [mbind option_bind]. destruct (scan_word 63 _) as [[t r]|]; [|done]. cbn [mbind option_bind].
  destruct (scan_word 127 _) as [[o r']|]; [|done]. by intros [= <-].
Qed.

(** ** The scan *)
Lemma cut_long k w c s : (String.length w < k)%nat →
  cut k (w +:+ String c s) = w +:+ String c (cut (k - S (String.length w)) s).
Proof.
  revert k. induction w as [|d w IH]; intros k Hk; (destruct k as [|k]; [simpl in Hk; lia|]).
  - change (EmptyString +:+ ?x) with x. rewrite cut_cons. cbn [String.length]. by replace (S k - 1)%nat with k by lia.
  - rewrite app_cons, cut_cons, IH by (simpl in Hk; lia). done.
Qed.
Lemma cut_short k w s : (k ≤ String.length w)%nat → cut k (w +:+ s) = cut k w.
Proof.
  revert k. induction w as [|d w IH]; intros k Hk.
  - simpl in Hk. replace k with 0%nat by lia. by destruct s.
  - destruct k as [|k]; [done|]. rewrite app_cons, !cut_cons, IH by (simpl in Hk; lia). done.
Qed.
Definition nonzero (c : ascii) : bool := negb (bool_decide (uchar c = 0)).
Definition in_line (c : ascii) : bool := nonzero c && negb (bool_decide (uchar c = 10)).
Lemma until_nul_id s : sall nonzero s = true → until_nul s = s.
Proof.
  induction s as [|c s IH]; [done|]. cbn. unfold nonzero at 1. intros [Hc%negb_true_iff%bool_decide_eq_false_1 Hs]%andb_true_iff.
  rewrite decide_False by done. by rewrite IH.
Qed.
Lemma next_line_app w s : sall in_line w = true → next_line (w +:+ String newline s) = s.
Proof.
  induction w as [|c w IH]; [done|]. rewrite app_cons. cbn [sall next_line]. unfold in_line at 1.
  rewrite !andb_true_iff. intros [[_ Hc%negb_true_iff%bool_decide_eq_false_1] Hw]. rewrite decide_False by done. auto.
Qed.
Lemma next_line_end w : sall in_line w = true → next_line w = EmptyString.
Proof.
  induction w as [|c w IH]; [done|]. cbn [sall next_line]. unfold in_line at 1.
  rewrite !andb_true_iff. intros [[_ Hc%negb_true_iff%bool_decide_eq_false_1] Hw]. rewrite decide_False by done. auto.
Qed.
Lemma sall_cut p k s : sall p s = true → sall p (cut k s) = true.
Proof.
  revert k. induction s as [|c s IH]; intros [|k]; [done..|]. rewrite cut_cons. cbn [sall].
  rewrite !andb_true_iff. intros [? ?]. auto.
Qed.
Lemma nonspace_in_line c : nonspace c = true → in_line c = true.
Proof.
  unfold nonspace, in_line, nonzero. rewrite !andb_true_iff. intros [Hc ->]. split; [done|].
  apply negb_true_iff. apply bool_decide_eq_false. intros E. apply negb_true_iff in Hc. unfold isspace in Hc.
  rewrite E in Hc. done.
Qed.
Lemma in_line_nonzero c : in_line c = true → nonzero c = true.
Proof. unfold in_line. rewrite andb_true_iff. by intros [? _]. Qed.
Lemma mount_chars m : locatable m → sall in_line (print_mount m) = true.
Proof.
  intros ((_ & H1 & _) & (_ & H2 & _) & H3 & H4). unfold print_mount.
  pose proof (λ s, sall_impl _ in_line s nonspace_in_line) as Hx.
  rewrite !sall_app. cbn [sall]. rewrite !sall_app. cbn [sall]. rewrite !sall_app. cbn [sall]. rewrite !sall_app.
  by rewrite !Hx by done.
Qed.
Lemma mounts_chars ms : Forall locatable ms → sall nonzero (print_mounts ms) = true.
Proof.
  induction 1 as [|m ms Hm _ IH]; [done|]. cbn [print_mounts]. rewrite sall_app. cbn [sall].
  rewrite IH. by rewrite (sall_impl _ nonzero _ in_line_nonzero (mount_chars m Hm)).
Qed.
Lemma print_mount_ne m s : ∃ c r, print_mount m +:+ s = String c r.
Proof. unfold print_mount. destruct (m_device m) as [|c d]; eauto. Qed.

(** One line of the table. *)
Lemma scan_mounts_line fuel m ms vs count : Forall scannable (m :: ms) →
  scan_mounts (S fuel) (print_mounts (m :: ms)) vs count =
  (_ ← access (znth vs count); scan_mounts fuel (print_mounts ms) (<[Z.to_nat count := as_entry m]> vs) (count + 1)).
Proof.
  intros Hms. inversion_clear Hms as [|? ? Hm Hms']. cbn [print_mounts].
  destruct (print_mount_ne m (String newline (print_mounts ms))) as (c & r & E). cbn [scan_mounts]. rewrite E, <- E.
  rewrite until_nul_id by (apply (mounts_chars (m :: ms)); constructor; eauto using scannable_locatable, Forall_impl).
  by rewrite scan_print, next_line_app by (done || by apply mount_chars, scannable_locatable).
Qed.
Lemma scan_all ms : ∀ fuel vs count, Forall scannable ms → (length ms < fuel)%nat →
  (count ≤ length vs)%nat →
  scan_mounts fuel (print_mounts ms) vs (Z.of_nat count) =
  if decide (count + length ms ≤ length vs)%nat
  then Done (take count vs ++ map as_entry ms ++ drop (count + length ms) vs, Z.of_nat (count + length ms)) else Fault.
Proof.
  induction ms as [|m ms IH]; intros fuel vs count Hms Hf Hc.
  { rewrite decide_True by (simpl; lia). destruct fuel; simpl; rewrite Nat.add_0_r, take_drop; done. }
  destruct fuel as [|fuel]; [simpl in Hf; lia|]. rewrite scan_mounts_line by done.
  apply Forall_cons in Hms as [Hm Hms]. simpl in Hf.
  destruct (decide (count = length vs)) as [->|Hne].
  { rewrite decide_False by (simpl; lia). unfold znth. rewrite decide_True by lia. rewrite Nat2Z.id, lookup_ge_None_2 by lia. done. }
  unfold znth. rewrite decide_True, Nat2Z.id by lia.
  destruct (lookup_lt_is_Some_2 vs count ltac:(lia)) as [x Hx]. rewrite Hx. cbn [access mbind run_bind].
  replace (Z.of_nat count + 1) with (Z.of_nat (S count)) by lia.
  rewrite IH by (done || rewrite ?length_insert; lia). rewrite length_insert. simpl length.
  replace (count + S (length ms))%nat with (S count + length ms)%nat by lia.
  case_decide; [|done]. do 2 f_equal.
  rewrite (take_S_r _ _ (as_entry m)) by (apply list_lookup_insert_eq; lia).
  rewrite take_insert_ge by lia. rewrite drop_insert_lt by lia. by rewrite <- app_assoc.
Qed.

(** What a cut text gives. *)
Lemma scan_points ms : ∀ fuel k vs (count : nat) vs' n, Forall locatable ms →
  scan_mounts fuel (cut k (print_mounts ms)) vs (Z.of_nat count) = Done (vs', n) →
  (count ≤ length vs)%nat →
  ∀ v p, v ∈ take (Z.to_nat n) vs' → mv_mount_point v = Some p →
  v ∈ take count vs ∨ ∃ m, m ∈ ms ∧ m_point m = p.
Proof.
  induction ms as [|m ms IH]; intros fuel k vs count vs' n Hms E Hc v p Hv Hp.
  { left. replace (cut k (print_mounts [])) with EmptyString in E by (by destruct k).
    destruct fuel; simpl in E; injection E as <- <-; by rewrite Nat2Z.id in Hv. }
  pose proof (mounts_chars (m :: ms) Hms) as Hz. apply Forall_cons in Hms as [Hm Hms]. pose proof (mount_chars m Hm) as Hl.
  destruct fuel as [|fuel]; [destruct (cut k _); [|done]; simpl in E; injection E as <- <-; left; by rewrite Nat2Z.id in Hv|].
  cbn [scan_mounts] in E. destruct (cut k (print_mounts (m :: ms))) as [|c r] eqn:Et.
  { injection E as <- <-. left. by rewrite Nat2Z.id in Hv. }
  rewrite <- Et in E. rewrite until_nul_id in E by (by apply sall_cut).
  assert (∃ e, (∀ v0, scan_mount (cut k (print_mounts (m :: ms))) = Some v0 → mv_mount_point v0 = Some (m_point m)) ∧
    next_line (cut k (print_mounts (m :: ms))) = cut e (print_mounts ms)) as (e & Hs & En).
  { clear -Hm Hl. cbn [print_mounts]. destruct (decide (String.length (print_mount m) < k)%nat) as [Hk|Hk].
    - exists (k - S (String.length (print_mount m)))%nat. split; [intros v0; by apply scan_cut_mount|].
      rewrite cut_long by done. by apply next_line_app.
    - exists 0%nat. split; [intros v0; by apply scan_cut_mount|]. rewrite cut_short by lia.
      rewrite next_line_end by (by apply sall_cut). by destruct (print_mounts ms). }
  rewrite En in E. destruct (scan_mount _) as [v0|] eqn:Ev.
  - destruct (znth vs (Z.of_nat count)) as [x|] eqn:Hx; [|done]. cbn [access mbind run_bind] in E. apply znth_Some in Hx.
    unfold zlen in Hx. rewrite Nat2Z.id in E.
    replace (Z.of_nat count + 1) with (Z.of_nat (S count)) in E by lia.
    destruct (IH _ _ _ _ _ _ Hms E ltac:(rewrite length_insert; lia) v p Hv Hp) as [Hin|(m' & ? & ?)].
    2: { right. exists m'. split; [by right|done]. }
    rewrite (take_S_r _ _ v0) in Hin by (apply list_lookup_insert_eq; lia). rewrite take_insert_ge in Hin by lia.
    apply elem_of_app in Hin as [?|Hin%list_elem_of_singleton]; [by left|]. subst v.
    right. exists m. split; [left|]. specialize (Hs v0 eq_refl). congruence.
  - destruct (IH _ _ _ _ _ _ Hms E Hc v p Hv Hp) as [?|(m' & ? & ?)]; [by left|right]. exists m'. split; [by right|done].
Qed.

Lemma mounts_length ms : (length ms ≤ String.length (print_mounts ms))%nat.
Proof. induction ms as [|m ms IH]; [done|]. cbn [print_mounts length]. rewrite length_app_s. cbn [String.length]. lia. Qed.

Section mounted.
Context `{Kernel} {D : Type} `{!Mtd D}.

(** The array has its size and the count is within it. *)
Definition valid_mounts (g : MountsState) : Prop :=
  match mt_volumes g with Some vs => length vs = numv ∧ 0 ≤ volume_count g ≤ Z.of_nat numv | None => True end.

(** C20: For mounts whose fields the scan takes whole (words of at most 63 characters, the flags of at most 127) and a text of
    [/proc/mounts] of at most 2047 bytes: [scan_mounted_volumes] gives exactly what is listed, in its order, when that is at most 32
    mounts, and keeps the table well formed; when there are more than 32 it writes behind the table. *)
Theorem scan_mounted_volumes_spec (s : Sys D) (w : Mounts) ms c cs :
  valid_mounts (g_mounts_state w) → Forall scannable ms →
  proc_mounts (kernel w) c = Some (print_mounts ms) → (String.length (print_mounts ms) ≤ MOUNTS_BUF)%nat →
  match scan_mounted_volumes w s (c :: cs) with
  | Ret (r, w') s' cs' => (length ms ≤ numv)%nat ∧ r = 0 ∧ in_use (g_mounts_state w') = map as_entry ms ∧
                          valid_mounts (g_mounts_state w') ∧ kernel w' = kernel w ∧ s' = s ∧ cs' = cs
  | Crashed => (numv < length ms)%nat
  | _ => False
  end.
Proof.
  intros Hv Hms Hk Hlen. unfold scan_mounted_volumes, choose, mbind, io_bind. rewrite Hk, substring_all by done.
  set (vs := match mt_volumes _ with Some _ => _ | None => _ end).
  assert (length vs = numv) as Hvs.
  { subst vs. unfold valid_mounts in Hv. destruct (mt_volumes _) as [l|]; [|apply length_replicate].
    rewrite length_app, length_replicate, length_drop. lia. }
  unfold lift. pose proof (mounts_length ms). change 0 with (Z.of_nat 0).
  rewrite scan_all by (done || lia). rewrite Hvs. case_decide as Hn; [|simpl in Hn; lia].
  cbn. simpl in Hn. split; [lia|]. split; [done|]. unfold in_use, valid_mounts. cbn.
  rewrite Nat2Z.id.
  change (take 0 vs ++ ?l) with l. rewrite take_app_length' by (by rewrite length_map). split; [done|].
  rewrite length_app, length_map, length_drop. repeat split; lia.
Qed.
End mounted.

(** * What the kernel promises *)

(** Text the shell takes as one word, as it is. *)
Definition shell_char (c : ascii) : bool :=
  let u := uchar c in
  (bool_decide (48 ≤ u) && bool_decide (u ≤ 57)) || (bool_decide (65 ≤ u) && bool_decide (u ≤ 90)) ||
  (bool_decide (97 ≤ u) && bool_decide (u ≤ 122)) || bool_decide (u ∈ [44; 45; 46; 47; 58; 61; 95]).
Definition shell_word (s : string) : Prop := s ≠ EmptyString ∧ sall shell_char s = true.

(** Documented behaviour of the kernel and of the command [mount]: [/proc/mounts] lists the mounts, in full or up to where
    the read stops; a device that could be mounted on a path without symbolic links is listed there, and so after the command has
    ended with 0. *)
Class KernelLaws (K : Kernel) := {
  mounts_of : Kern → list Mount;
  real_path : string → Prop;
  mounted k p := ∃ m, m ∈ mounts_of k ∧ m_point m = p;
  proc_mounts_text k c t : proc_mounts k c = Some t → ∃ n, t = cut n (print_mounts (mounts_of k));
  do_mount_ok k d p t f o c r k' : real_path p → do_mount k d (Some p) t f o c = (r, k') → 0 ≤ r → mounted k' p;
  mount_command k p c k' : real_path p → shell_word p → do_system k (words ["mount"; p])%string c = (0, k') → mounted k' p;
  mount_command_type k t o d p c k' : real_path p → Forall shell_word [t; o; d; p] →
    do_system k (words ["mount"; "-t"; t; "-o" ++ o; d; p])%string c = (0, k') → mounted k' p
}.

Lemma cut_cut n k s : cut n (cut k s) = cut (n `min` k) s.
Proof.
  revert n k. induction s as [|c s IH]; intros n k; [by destruct n, k|].
  destruct k as [|k], n as [|n]; [done..|]. rewrite cut_cons, cut_cons, IH. done.
Qed.

Ltac io_step H :=
  let a := fresh "a" in let s := fresh "s" in let cs := fresh "cs" in let E := fresh "E" in
  apply io_bind_inv in H; destruct H as (a & s & cs & E & H).

Section sound.
Context `{KernelLaws} {D : Type} `{!Mtd D}.
Implicit Types (w : Mounts) (s : Sys D) (cs : list Z).

Lemma ask_kernel_Ret f w s cs r w' s' cs' : ask_kernel f w s cs = Ret (r, w') s' cs' →
  ∃ c, f (kernel w) c = (r, kernel w').
Proof.
  unfold ask_kernel. intros E. io_step E. destruct (f (kernel w) a) as [r0 k] eqn:Ef.
  injection E as <- <- <- <-. eauto.
Qed.
Lemma lift_Ret {A} (m : run A) s cs a s' cs' : @lift D A m s cs = Ret a s' cs' → m = Done a ∧ s = s' ∧ cs = cs'.
Proof. unfold lift. destruct m; [|done..]. by intros [= <- <- <-]. Qed.

(** Whatever the scan finds is mounted. *)
Lemma scan_mounted w s cs r w' s' cs' : Forall locatable (mounts_of (kernel w)) → scan_mounted_volumes w s cs = Ret (r, w') s' cs' → 
  kernel w' = kernel w ∧
  ∀ p i, find_mounted_volume_by_mount_point (g_mounts_state w') p = Some i → mounted (kernel w') p.
Proof.
  unfold scan_mounted_volumes. intros Hms E. io_step E. destruct (proc_mounts _ _) as [t|] eqn:Et.
  2: { injection E as <- <- <- <-. split; [done|]. intros p i. unfold find_mounted_volume_by_mount_point, in_use. done. }
  io_step E. destruct a0 as [vs n]. injection E as <- <- <- <-. apply lift_Ret in E1 as (E1 & _ & _).
  split; [done|]. cbn [g_mounts_state kernel]. intros p i Hfind. apply proc_mounts_text in Et as [m ->].
  rewrite cut_cut in E1. apply fmap_Some in Hfind as ([j v] & Hfind & ->). apply list_find_Some in Hfind as (Hj & Hp & _).
  cbn [in_use mt_volumes volume_count] in Hj. apply list_elem_of_lookup_2 in Hj.
  change 0 with (Z.of_nat 0) in E1.
  destruct (scan_points _ _ _ _ _ _ _ Hms E1 ltac:(lia) v p Hj Hp) as [Hin|Hin]; [|exact Hin].
  by apply not_elem_of_nil in Hin.
Qed.

Lemma shell_Ret cmd w s cs r w' s' cs' : shell cmd w s cs = Ret (r, w') s' cs' →
  ∃ c, do_system (kernel w) cmd c = (r, kernel w').
Proof. unfold shell. case_decide; [done|]. apply ask_kernel_Ret. Qed.

Section volume.
Context (p : string) (Hp : real_path p) (Hpw : shell_word p).

Lemma try_mount_ok d t o w s cs w' s' cs' :
  (∀ x, d = Some x → shell_word x) → (∀ x, t = Some x → shell_word x) → (∀ x, o = Some x → shell_word x) →
  try_mount d p t o w s cs = Ret (0, w') s' cs' → mounted (kernel w') p.
Proof.
  intros Hd Ht Ho. unfold try_mount. destruct d as [d|]; [|done]. destruct t as [t|]; [|done].
  destruct o as [o|]; intros E.
  - apply shell_Ret in E as [c E]. eapply mount_command_type in E; eauto 10.
  - apply ask_kernel_Ret in E as [c E]. eapply do_mount_ok in E; [done..|lia].
Qed.
Lemma try_mounts_ok l : ∀ w s cs w' s' cs',
  Forall (λ '(d, t, o), (∀ x, d = Some x → shell_word x) ∧ (∀ x, t = Some x → shell_word x) ∧
                        (∀ x, o = Some x → shell_word x)) l →
  try_mounts l p w s cs = Ret (0, w') s' cs' → mounted (kernel w') p.
Proof.
  induction l as [|[[d t] o] l IH]; intros w s cs w' s' cs' Hl E; [done|]. cbn [try_mounts] in E.
  apply Forall_cons in Hl as [(Hd & Ht & Ho) Hl]. io_step E. destruct a as [r w1]. case_decide as Hr.
  - injection E as -> -> -> ->. exact (try_mount_ok _ _ _ _ _ _ _ _ _ Hd Ht Ho E0).
  - by eapply IH.
Qed.
Lemma mtd_mount_ok ro partition t w s cs w' s' cs' :
  mtd_mount_partition ro partition p t w s cs = Ret (0, w') s' cs' → mounted (kernel w') p.
Proof.
  unfold mtd_mount_partition. intros E. io_step E. destruct a as [r1 w1].
  io_step E. destruct a as [r2 w2].
  assert (0 ≤ r2 → mounted (kernel w2) p) as Hm.
  { intros Hr. clear E. case_decide as Hro.
    - apply ask_kernel_Ret in E1 as [c2 E1]. exact (do_mount_ok _ _ _ _ _ _ _ _ _ Hp E1 Hr).
    - injection E1 as <- <- <- <-. destruct ro; [tauto|]. apply ask_kernel_Ret in E0 as [c1 E0].
      exact (do_mount_ok _ _ _ _ _ _ _ _ _ Hp E0 Hr). }
  case_decide; [injection E as -> _ _ _; lia|]. io_step E.
  case_decide; [done|]. case_decide; [inversion E; subst; apply Hm; lia|].
  io_step E. case_decide; inversion E; subst; apply Hm; lia.
Qed.
End volume.

(** The volume of a path can be used. *)
Inductive available (vols : list Volume) (k : Kern) : string → Prop :=
| av_ramdisk path v : volume_for_path vols path = Some v → fs_type v = "ramdisk"%string → available vols k path
| av_mounted path v : volume_for_path vols path = Some v → mounted k (mount_point v) → available vols k path
| av_media path v : volume_for_path vols path = Some v → fs_type v = "datamedia"%string →
    available vols k "/data" → available vols k path.

Definition opt_word (o : option string) : Prop := ∀ x, o = Some x → shell_word x.
(** A volume whose fields the shell takes as words. *)
Definition simple_volume (v : Volume) : Prop :=
  real_path (mount_point v) ∧ shell_word (mount_point v) ∧ shell_word (fs_type v) ∧
  opt_word (device v) ∧ opt_word (device2 v) ∧ opt_word (fs_type2 v) ∧ opt_word (fs_options v) ∧ opt_word (fs_options2 v).

(** The volume of a path that is not kept in [/data/media]. *)
Lemma available_step vols path v w s cs w' s' cs' : Forall locatable (mounts_of (kernel w)) →
  Forall (λ v, fs_type v ≠ "ramdisk"%string → simple_volume v) vols → volume_for_path vols path = Some v →
  (if decide (fs_type v = "ramdisk"%string) then mret (0, w) else
   '(result, w) ← scan_mounted_volumes w;
   if decide (result < 0) then mret (-1, w) else mount_volume v (mount_point v) w) s cs = Ret (0, w') s' cs' →
  available vols (kernel w') path.
Proof.
  intros Hms Hv Ev E. case_decide as Hr; [injection E as <- <- <-; by eapply av_ramdisk|].
  assert (simple_volume v) as (Hp & Hpw & Ht & Hd & Hd2 & Ht2 & Ho & Ho2).
  { apply fmap_Some in Ev as ([i x] & Hx & ->). apply list_find_Some in Hx as (Hx & _ & _).
    rewrite Forall_lookup in Hv. by eapply Hv. }
  eapply av_mounted; [exact Ev|]. io_step E. destruct a as [r w1]. case_decide; [done|].
  apply scan_mounted in E0 as [_ Hfound]; [|done]. unfold mount_volume in E.
  destruct (find_mounted_volume_by_mount_point _ _) as [i|] eqn:Ei.
  { injection E as <- <- <-. by eapply Hfound. }
  io_step E. case_decide.
  { io_step E. io_step E. io_step E. destruct a2 as [partition|]; [|done]. by eapply mtd_mount_ok. }
  case_decide.
  - eapply try_mounts_ok; [done..| |exact E].
    repeat (apply Forall_cons; split; [split; [done|split; [|done]]; try done; intros x [= <-]; done|]). done.
  - apply shell_Ret in E as [c E]. by eapply mount_command in E.
Qed.

(** C12: For a table of volumes whose names and options the shell takes as they are and whose mount points are paths
    without symbolic links: when [ensure_path_mounted] returns 0 the volume of the path can be used: it is the ramdisk, it is
    mounted on its mount point, or it is kept in [/data/media] and the volume of [/data] can be used; whatever fails on the
    way, and also when the list of mounts does not fit the buffer it is read into.  The devices and mount points of what is mounted
    when it is called have at most 63 characters, as the scan cuts longer ones; their options may be of any length. *)
Theorem ensure_path_mounted_sound fuel vols path w s cs w' s' cs' :
  Forall (λ v, fs_type v ≠ "ramdisk"%string → simple_volume v) vols →
  Forall locatable (mounts_of (kernel w)) →
  ensure_path_mounted fuel vols path w s cs = Ret (0, w') s' cs' →
  available vols (kernel w') path.
Proof.
  intros Hv. unfold ensure_path_mounted. revert path w s cs w' s' cs'.
  induction fuel as [|fuel IH]; intros path w s cs w' s' cs' Hms E; cbn [ensure_path_mounted_at_mount_point] in E;
    (destruct (volume_for_path vols path) as [v|] eqn:Ev; [|done]);
    io_step E; apply lift_Ret in E0 as (E0 & <- & <-); unfold is_data_media_volume_path in E0;
    rewrite Ev in E0; injection E0 as <-; case_bool_decide as Hf.
  - done.
  - eapply available_step; eauto.
  - io_step E. destruct a as [r w1]. case_decide as Hr; [injection E as -> <- <- <-; done|].
    io_step E. injection E as <- <- <-. eapply av_media; [done..|]. eapply IH; [done|]. rewrite E0. by replace r with 0 by lia.
  - eapply available_step; eauto.
Qed.
End sound.

(** The volume of [/data] kept in [/data/media]: no amount of fuel is enough. *)
Lemma data_on_itself_hangs `{Kernel} {D} `{!Mtd D} vols v fuel w (s : Sys D) cs :
  volume_for_path vols "/data" = Some v → fs_type v = "datamedia"%string →
  ensure_path_mounted fuel vols "/data" w s cs = Hung.
Proof.
  intros Hv Hf. unfold ensure_path_mounted. revert w s cs. induction fuel as [|fuel IH]; intros w s cs;
    cbn [ensure_path_mounted_at_mount_point]; rewrite Hv; unfold is_data_media_volume_path; rewrite Hv, Hf;
    unfold mbind, io_bind; cbn [access mbind run_bind lift mret run_ret]; rewrite bool_decide_true by done; [done|].
  unfold mbind, io_bind in IH. by rewrite IH.
Qed.
(** Volumes kept in [/data/media] keep everything below any path that begins with [/data] mounted. *)
Lemma data_stays_mounted `{Kernel} {D} `{!Mtd D} vols fuel path w (s : Sys D) cs : is_data_media vols = true →
  ensure_path_unmounted fuel vols ("/data" +:+ path) w s cs = Ret (0, w) s cs.
Proof.
  intros Hm. assert (String.prefix "/data" ("/data" +:+ path) = true) as Hp by (by destruct path).
  destruct fuel; cbn [ensure_path_unmounted]; by rewrite Hp, Hm.
Qed.

(** * A small kernel

    One device can be mounted, on [/data]. *)
Module Examples.
Definition the_mount : Mount := mkMount "/dev/block/mmcblk0p2" "/data" "ext4" "rw,noatime".
#[export] Instance one_mount : Kernel := {|
  Kern := bool;
  proc_mounts k c := if decide (c = 0) then None else Some (print_mounts (if k then [the_mount] else []));
  do_mount k d p t f o c :=
    if decide (k = false ∧ d = Some "/dev/block/mmcblk0p2" ∧ p = Some "/data" ∧ c ≠ 0)%string then (0, true) else (-1, k);
  do_umount k p c := if decide (k = true ∧ p = Some "/data"%string) then (0, false) else (-1, k);
  do_system k cmd c := if decide (cmd = "mount /data"%string) then (0, true) else (1, k)
|}.
Lemma the_mount_scannable : scannable the_mount.
Proof. repeat split; (done || (apply Nat.leb_le; done)). Qed.
#[export] Instance one_mount_laws : KernelLaws one_mount.
Proof.
  unshelve refine {| mounts_of k := if k : bool then [the_mount] else []; real_path p := p = "/data"%string |}.
  - intros k c t. cbn. case_decide; [done|]. intros [= <-]. exists (String.length (print_mounts (if k : bool then [the_mount] else []))).
    by rewrite substring_all.
  - intros k d p t f o c r k' -> E Hr. cbn in E. case_decide as Hc; injection E as <- <-; [|lia].
    exists the_mount. split; [by left|done].
  - intros k p c k' -> _ E. cbn in E. injection E as <-. exists the_mount. split; [by left|done].
  - intros k t o d p c k' -> _ E. cbn in E. case_decide as Hc; [|done]. done.
Defined.

Definition data_volume : Volume :=
  mkVolume "/data" "ext4" (Some "/dev/block/mmcblk0p2") None (-16384) (Some "ext3") None (Some "discard") None.
Definition table_text : string := "/data ext3 /dev/block/mmcblk0p2 length=-16384,fstype2=ext4,fs_options2=discard
".
Definition sys0 : Sys unit :=
  mkSys {["/etc/recovery.fstab" := mkFile (bytes_of_string table_text) 420 0 0]} ∅ tt false ∅ [].
Definition unmounted : Mounts := mkWorld (mkMounts None 0) false.
Lemma data_volume_printable : printable data_volume.
Proof.
  constructor; try (by repeat split); try (by vm_compute).
  - eexists. by repeat split.
  - apply Nat.ltb_lt. by vm_compute.
Qed.
Lemma data_volume_simple : simple_volume data_volume.
Proof. unfold simple_volume, opt_word. split_and!; try (by split); intros y Hy; cbn in Hy; simplify_eq; by split. Qed.

Lemma volume_table_witness :
  load_volume_table sys0 [1; 100] = Ret [tmp_volume; data_volume] sys0 [].
Proof.
  eapply (volume_table_round_trip sys0 [data_volume]); [|by vm_compute|by vm_compute|done|].
  - repeat constructor; apply data_volume_printable.
  - apply Z.leb_le. by vm_compute.
Defined.
Lemma scan_mounted_volumes_witness :
  match scan_mounted_volumes (mkWorld (mkMounts None 0) true) sys0 [1] with
  | Ret (r, w') _ _ => r = 0 ∧ in_use (g_mounts_state w') = [as_entry the_mount]
  | _ => False
  end.
Proof.
  pose proof (scan_mounted_volumes_spec sys0 (mkWorld (mkMounts None 0) true) [the_mount] 1 [] I
    ltac:(repeat constructor; apply the_mount_scannable) eq_refl ltac:(apply Nat.leb_le; by vm_compute)) as Hx.
  revert Hx. vm_compute. tauto.
Defined.
Lemma ensure_path_mounted_witness : ∃ w',
  ensure_path_mounted 2 [tmp_volume; data_volume] "/data/app" unmounted sys0 [1; 1; 1] = Ret (0, w') sys0 [] ∧
  available [tmp_volume; data_volume] (kernel w') "/data/app".
Proof.
  eexists. split; [by vm_compute|].
  apply (ensure_path_mounted_sound 2 _ _ unmounted sys0 [1; 1; 1] _ sys0 []); [|by constructor|by vm_compute].
  apply Forall_cons. split; [by intros []|]. apply Forall_singleton. intros _. apply data_volume_simple.
Defined.
End Examples.
