(* ===== verification/Cache.v ===== *)
(** What [applypatch.c] needs of the cache partition, and what
    [freecache.c] promises about it. *)
From S2P Require Import Prelude Bytes World.

Definition CACHE_TEMP_SOURCE : string := "/cache/saved.file".

(** [FreeSpaceForFile] of [applypatch.c]; -1 on error, as a [size_t]. *)
Definition FreeSpaceForFile `{Abi} {D} (filename : string) : io D Z :=
  sf ← sys_statfs filename;
  mret (match sf with None => size_t (-1) | Some free => size_t free end).

Definition expendable_dirs : list string := ["/cache"; "/cache/recovery/otatest"].

(** The files that may be deleted to make room. *)
Definition expendable (path : string) : Prop :=
  path ≠ CACHE_TEMP_SOURCE ∧ ∃ dir name, dir ∈ expendable_dirs ∧
    path = (dir ++ "/" ++ name)%string.

(** The interface: making room changes no file that is not expendable, even if it
    is interrupted, and leaves the devices alone. *)
Class CacheSpace (D : Type) := {
  make_free_space : Z → io D Z;
  make_free_space_keeps : ∀ (X : string → Prop) (R : Sys D → Prop) n,
    looks_at X R → (∀ p, X p → ¬ expendable p) → keeps R (make_free_space n)
}.
