(* ===== verification/FreeCache.v ===== *)
(** Making room on the cache partition: [applypatch/freecache.c]. *)
From S2P Require Import Prelude CLib Bytes World Cache.

Section freecache.
Context `{Abi} {D : Type}.

(** Whether the name of a directory of /proc is the number of a process. *)
Fixpoint numeric (d_name : string) : bool :=
  match d_name with
  | EmptyString => true
  | String c d_name => isdigit c && numeric d_name
  end.

(** Drops from the list the file a link leads to. *)
Definition eliminate_link (names : list (option string)) (link : option string)
    : list (option string) :=
  match link with
  | Some link =>
      if String.prefix "/cache/" link
      then map (λ f, if decide (f = Some link) then None else f) names else names
  | None => names
  end.

Fixpoint eliminate_procs (ps : list (string * option (list (option string))))
    (names : list (option string)) : io D (list (option string)) :=
  match ps with
  | [] => mret names
  | (d_name, fds) :: ps =>
      if numeric d_name then
        c ← choose;
        match fds with
        | Some links =>
            if decide (c = 0) then eliminate_procs ps names
            else eliminate_procs ps (foldl eliminate_link names links)
        | None => eliminate_procs ps names
        end
      else eliminate_procs ps names
  end.

(** The return code and the list; a null entry is [None]. *)
Definition EliminateOpenFiles (names : list (option string)) : io D (Z * list (option string)) :=
  c ← choose;
  if decide (c = 0) then mret (-1, names) else
  ps ← read_sys procs;
  names ← eliminate_procs ps names;
  mret (0, names).

(** The regular files among the names of a directory. *)
Fixpoint find_regular (dir : string) (entries : list string) (names : list (option string))
    : io D (list (option string)) :=
  match entries with
  | [] => mret names
  | d_name :: entries =>
      let path := (dir ++ "/" ++ d_name)%string in
      if decide (path = CACHE_TEMP_SOURCE) then find_regular dir entries names else
      st ← sys_stat path;
      find_regular dir entries (match st with Some _ => names ++ [Some path] | None => names end)
  end.

Fixpoint find_in_dirs (dirs : list string) (names : list (option string))
    : io D (list (option string)) :=
  match dirs with
  | [] => mret names
  | dir :: dirs =>
      c ← choose;
      entries ← read_sys (λ s, listing s !! dir);
      match entries with
      | Some entries =>
          if decide (c = 0) then find_in_dirs dirs names else
          names ← find_regular dir entries names;
          find_in_dirs dirs names
      | None => find_in_dirs dirs names
      end
  end.

Definition FindExpendableFiles : io D (Z * list (option string)) :=
  names ← find_in_dirs expendable_dirs [];
  '(r, names) ← EliminateOpenFiles names;
  if decide (r < 0) then mret (-1, names) else mret (0, names).

(** Deletes files until there is room. *)
Fixpoint delete_files (names : list (option string)) (free_now bytes_needed : Z) : io D Z :=
  match names with
  | [] => mret free_now
  | name :: names =>
      if decide (free_now < bytes_needed) then
        match name with
        | Some path =>
            _ ← sys_unlink path;
            free_now ← FreeSpaceForFile "/cache";
            delete_files names free_now bytes_needed
        | None => delete_files names free_now bytes_needed
        end
      else mret free_now
  end.

Definition MakeFreeSpaceOnCache (bytes_needed : Z) : io D Z :=
  free_now ← FreeSpaceForFile "/cache";
  if decide (bytes_needed ≤ free_now) then mret 0 else
  '(r, names) ← FindExpendableFiles;
  if decide (r < 0) then mret (-1) else
  if decide (names = []) then mret (-1) else
  free_now ← delete_files names free_now bytes_needed;
  mret (if decide (bytes_needed ≤ free_now) then 0 else -1).

(** * Proofs *)

(** The list holds expendable files only. *)
Definition all_expendable (names : list (option string)) : Prop :=
  Forall (λ f, ∀ path, f = Some path → expendable path) names.

Lemma eliminate_link_expendable names link :
  all_expendable names → all_expendable (eliminate_link names link).
Proof.
  intros Hn. unfold eliminate_link. destruct link as [link|]; [|done].
  destruct (String.prefix _ _); [|done]. unfold all_expendable in *.
  apply Forall_map. eapply Forall_impl; [exact Hn|]. intros f Hf path. simpl. case_decide; [done|]. auto.
Qed.

Section frame.
Context (X : string → Prop) (R : Sys D → Prop).
Hypothesis HR : looks_at X R.
Hypothesis HX : ∀ p, X p → ¬ expendable p.

(** [m] keeps [R] and its result satisfies [Q]. *)
Definition keeps_giving {A} (m : io D A) (Q : A → Prop) : Prop := ctriple R m (λ a s, Q a ∧ R s) R.

Lemma kg_bind {A B} (m : io D A) (f : A → io D B) Q Q' :
  keeps_giving m Q' → (∀ a, Q' a → keeps_giving (f a) Q) → keeps_giving (m ≫= f) Q.
Proof. intros Hm Hf. eapply ct_bind; [exact Hm|]. intros a. apply ct_pure. apply Hf. Qed.
Lemma kg_keeps {A} (m : io D A) : keeps R m → keeps_giving m (λ _, True).
Proof. intros Hm. by eapply ct_conseq; [exact Hm|..]. Qed.
Lemma kg_ret {A} (a : A) (Q : A → Prop) : Q a → keeps_giving (mret a) Q.
Proof. intros. by apply ct_ret. Qed.

Lemma find_regular_ok dir entries names : dir ∈ expendable_dirs → all_expendable names →
  keeps_giving (find_regular dir entries names) all_expendable.
Proof.
  intros Hdir. revert names. induction entries as [|d_name entries IH]; intros names Hn.
  - by apply kg_ret.
  - cbn [find_regular]. case_decide as Hc; [by apply IH|].
    eapply kg_bind; [apply kg_keeps; unfold sys_stat; keeps_tac|]. intros st _. apply IH.
    destruct st; [|done]. apply Forall_app_2; [done|]. constructor; [|constructor].
    intros path [= <-]. split; [done|]. by exists dir, d_name.
Qed.

Lemma find_in_dirs_ok dirs names : (∀ d, d ∈ dirs → d ∈ expendable_dirs) → all_expendable names →
  keeps_giving (find_in_dirs dirs names) all_expendable.
Proof.
  revert names. induction dirs as [|dir dirs IH]; intros names Hd Hn; [by apply kg_ret|].
  cbn [find_in_dirs].
  assert (∀ d, d ∈ dirs → d ∈ expendable_dirs) by (intros; apply Hd; by right).
  eapply kg_bind; [apply kg_keeps; keeps_tac|]. intros c _.
  eapply kg_bind; [apply kg_keeps; keeps_tac|]. intros [es|] _; [|by apply IH].
  case_decide; [by apply IH|].
  eapply kg_bind; [apply find_regular_ok; [apply Hd; by left|done]|]. intros a Ha. by apply IH.
Qed.

Lemma eliminate_procs_ok ps names : all_expendable names →
  keeps_giving (eliminate_procs ps names) all_expendable.
Proof.
  revert names. induction ps as [|[d_name fds] ps IH]; intros names Hn; [by apply kg_ret|].
  cbn [eliminate_procs]. destruct (numeric d_name); [|by apply IH].
  eapply kg_bind; [apply kg_keeps; keeps_tac|]. intros c _. destruct fds as [links|]; [|by apply IH].
  case_decide; [by apply IH|]. apply IH. clear -Hn. revert names Hn.
  induction links as [|l links IH]; intros names Hn; [done|]. simpl. apply IH.
  by apply eliminate_link_expendable.
Qed.

Lemma FindExpendableFiles_ok :
  keeps_giving FindExpendableFiles (λ '(_, names), all_expendable names).
Proof.
  unfold FindExpendableFiles.
  eapply kg_bind; [apply find_in_dirs_ok; [done|constructor]|]. intros names Hn.
  eapply kg_bind with (Q' := λ '(_, names), all_expendable names).
  - unfold EliminateOpenFiles. eapply kg_bind; [apply kg_keeps; keeps_tac|]. intros c _.
    case_decide; [by apply kg_ret|]. eapply kg_bind; [apply kg_keeps; keeps_tac|]. intros ps _.
    eapply kg_bind; [by apply eliminate_procs_ok|]. intros names' Hn'. by apply kg_ret.
  - intros [r names'] Hn'. case_decide; by apply kg_ret.
Qed.

Lemma keeps_statfs p : keeps R (FreeSpaceForFile p).
Proof. unfold FreeSpaceForFile, sys_statfs. keeps_tac. Qed.

Lemma delete_files_keeps names free_now n : all_expendable names →
  keeps R (delete_files names free_now n).
Proof.
  intros Hn. revert free_now. induction Hn as [|f names Hf Hn IH]; intros free_now; [apply keeps_ret|].
  cbn [delete_files]. apply keeps_decide; [|apply keeps_ret]. destruct f as [path|]; [|apply IH].
  apply keeps_bind; [|intro; apply keeps_bind; [apply keeps_statfs|intro; apply IH]].
  apply (keeps_unlink X); [done|]. intros HXp. by eapply HX, Hf.
Qed.

Lemma MakeFreeSpaceOnCache_keeps n : keeps R (MakeFreeSpaceOnCache n).
Proof.
  unfold MakeFreeSpaceOnCache. apply keeps_bind; [apply keeps_statfs|]. intros free_now.
  apply keeps_decide; [apply keeps_ret|].
  eapply ct_bind; [apply FindExpendableFiles_ok|]. intros [r names]. simpl.
  apply ct_pure. intros Hn. apply keeps_decide; [apply keeps_ret|]. apply keeps_decide; [apply keeps_ret|].
  apply keeps_bind; [by apply delete_files_keeps|]. intros. apply keeps_ret.
Qed.
End frame.

(** Every run ends. *)
Lemma MakeFreeSpaceOnCache_calm n : calm (MakeFreeSpaceOnCache n).
Proof.
  assert (∀ p, calm (FreeSpaceForFile (D := D) p)) as Hfs.
  { intros p. unfold FreeSpaceForFile, sys_statfs. calm_tac. }
  assert (∀ dir es names, calm (find_regular dir es names)) as Hreg.
  { intros dir es. induction es as [|e es IH]; intros names; cbn [find_regular]; [apply calm_ret|].
    apply calm_decide; [apply IH|]. apply calm_bind; [unfold sys_stat; calm_tac|intro; apply IH]. }
  assert (∀ dirs names, calm (find_in_dirs dirs names)) as Hdirs.
  { induction dirs as [|d dirs IH]; intros names; cbn [find_in_dirs]; [apply calm_ret|].
    apply calm_bind; [apply calm_choose|intro]. apply calm_bind; [apply calm_read|intros [es|]]; [|apply IH].
    apply calm_decide; [apply IH|]. apply calm_bind; [apply Hreg|intro; apply IH]. }
  assert (∀ ps names, calm (eliminate_procs ps names)) as Hel.
  { induction ps as [|[d fds] ps IH]; intros names; cbn [eliminate_procs]; [apply calm_ret|].
    destruct (numeric d); [|apply IH]. apply calm_bind; [apply calm_choose|intro].
    destruct fds; [apply calm_decide|]; apply IH. }
  assert (∀ names f n, calm (delete_files names f n)) as Hdel.
  { induction names as [|x names IH]; intros f k; cbn [delete_files]; [apply calm_ret|].
    apply calm_decide; [|apply calm_ret]. destruct x; [|apply IH].
    apply calm_bind; [unfold sys_unlink; calm_tac|intro]. apply calm_bind; [apply Hfs|intro; apply IH]. }
  unfold MakeFreeSpaceOnCache, FindExpendableFiles, EliminateOpenFiles.
  apply calm_bind; [apply Hfs|intro]. apply calm_decide; [apply calm_ret|].
  apply calm_bind; [apply calm_bind; [apply Hdirs|intro]; apply calm_bind;
    [calm_tac; apply Hel|intros [r ns]; calm_tac]|intros [r ns]].
  calm_tac. apply Hdel.
Qed.

(** A file that an open link leads to is taken off the list. *)
Definition open_in (ps : list (string * option (list (option string)))) (path : string) : Prop :=
  String.prefix "/cache/" path = true ∧
  ∃ d_name links, (d_name, Some links) ∈ ps ∧ numeric d_name = true ∧ Some path ∈ links.

Lemma eliminate_link_incl names link f : f ∈ eliminate_link names link → f ∈ names ∨ f = None.
Proof.
  unfold eliminate_link. destruct link; [|by left]. destruct (String.prefix _ _); [|by left].
  intros (x & -> & Hx)%list_elem_of_fmap. case_decide; auto.
Qed.
Lemma eliminate_links_gone names links path : String.prefix "/cache/" path = true →
  Some path ∉ names ∨ Some path ∈ links → Some path ∉ foldl eliminate_link names links.
Proof.
  intros Hp. revert names. induction links as [|l links IH]; intros names Hl; simpl.
  { destruct Hl as [?|Hl]; [done|]. by apply not_elem_of_nil in Hl. }
  apply IH. destruct Hl as [Hl|Hl].
  - left. intros [?|?]%eliminate_link_incl; done.
  - apply elem_of_cons in Hl as [<-|Hl]; [left|by right].
    unfold eliminate_link. rewrite Hp. intros (x & E & _)%list_elem_of_fmap. by case_decide.
Qed.

Lemma eliminate_procs_gone path ps names s cs names' s' cs' :
  Forall (λ c, c ≠ 0) cs → String.prefix "/cache/" path = true →
  eliminate_procs ps names s cs = Ret names' s' cs' →
  (Some path ∉ names ∨ ∃ d_name links,
    (d_name, Some links) ∈ ps ∧ numeric d_name = true ∧ Some path ∈ links) →
  Some path ∉ names'.
Proof.
  intros Hcs Hp. revert names cs Hcs.
  induction ps as [|[d_name fds] ps IH]; intros names cs Hcs Heq Hl; cbn [eliminate_procs] in Heq.
  - injection Heq as <- <- <-. destruct Hl as [?|(? & ? & Hin & _)]; [done|].
    by apply not_elem_of_nil in Hin.
  - assert (numeric d_name = false ∨ fds = None → Some path ∉ names ∨ (∃ d l,
      (d, Some l) ∈ (d_name, fds) :: ps ∧ numeric d = true ∧ Some path ∈ l) →
      Some path ∉ names ∨ ∃ d l, (d, Some l) ∈ ps ∧ numeric d = true ∧ Some path ∈ l) as Hskip.
    { intros Hs [?|(d & l & Hin & Hn & Hm)]; [by left|].
      apply elem_of_cons in Hin as [[= -> <-]|Hin]; [|right; eauto].
      destruct Hs; congruence. }
    destruct (numeric d_name) eqn:En; [|eapply IH; eauto].
    destruct cs as [|c cs]; [done|]. apply Forall_cons in Hcs as [Hc Hcs]. unfold mbind, io_bind, choose in Heq.
    destruct fds as [links|]; [|eapply IH; eauto]. rewrite decide_False in Heq by done.
    eapply IH; [done|exact Heq|].
    destruct Hl as [Hl|(d & l & Hin & Hn & Hm)].
    + left. by apply eliminate_links_gone; [|left].
    + apply elem_of_cons in Hin as [[= -> ->]|Hin]; [|right; eauto].
      left. by apply eliminate_links_gone; [|right].
Qed.

(** [freecache.c] implements the interface. *)
#[export] Instance freecache_space : CacheSpace D := {|
  make_free_space := MakeFreeSpaceOnCache;
  make_free_space_keeps X R n HR HX := MakeFreeSpaceOnCache_keeps X R HR HX n
|}.

(** C24: [MakeFreeSpaceOnCache] always ends, and it is safe: however its calls
    fail and whenever it is interrupted, every file that is not
    under /cache or /cache/recovery/otatest is as it was, and so is the saved source
    file an interrupted installation depends on. *)
Theorem free_cache_spares n s cs path : ¬ expendable path →
  match MakeFreeSpaceOnCache n s cs with
  | Ret _ s' _ | Stop s' => files s' !! path = files s !! path
  | Crashed | Hung => False
  end.
Proof.
  intros Hp. pose proof (MakeFreeSpaceOnCache_calm n s cs) as Hc.
  pose proof (MakeFreeSpaceOnCache_keeps (eq path) (λ s', files s' !! path = files s !! path)) as Hk.
  specialize (Hk ltac:(intros s1 s2 Hs <-; symmetry; by apply Hs) ltac:(by intros ? <-) n s cs eq_refl).
  by destruct (MakeFreeSpaceOnCache n s cs).
Qed.

Lemma find_in_dirs_consumes dirs names : consumes (find_in_dirs dirs names).
Proof.
  assert (∀ dir es names, consumes (find_regular dir es names)) as Hreg.
  { intros dir es. induction es as [|e es IH]; intros ns; cbn [find_regular]; [apply consumes_ret|].
    apply consumes_decide; [apply IH|].
    apply consumes_bind; [unfold sys_stat; consumes_tac|intro; apply IH]. }
  revert names. induction dirs as [|d dirs IH]; intros names; cbn [find_in_dirs]; [apply consumes_ret|].
  apply consumes_bind; [apply consumes_choose|intro].
  apply consumes_bind; [apply consumes_read|intros [es|]]; [|apply IH].
  apply consumes_decide; [apply IH|]. apply consumes_bind; [apply Hreg|intro; apply IH].
Qed.

(** Deleting the files of a list leaves the others. *)
Lemma delete_files_spares names f n path s cs : Some path ∉ names →
  match delete_files names f n s cs with
  | Ret _ s' _ | Stop s' => files s' !! path = files s !! path
  | Crashed | Hung => True
  end.
Proof.
  intros Hp. set (R := λ s' : Sys D, files s' !! path = files s !! path).
  assert (looks_at (eq path) R) as HR by (intros s1 s2 Hs Hr; unfold R in *; by rewrite <- Hs).
  assert (∀ f, keeps R (delete_files names f n)) as Hk.
  { induction names as [|x names IH]; intros f'; cbn [delete_files]; [apply keeps_ret|].
    apply not_elem_of_cons in Hp as [Hx Hp]. apply keeps_decide; [|apply keeps_ret].
    destruct x as [q|]; [|by apply IH].
    apply keeps_bind; [apply (keeps_unlink (eq path)); [done|naive_solver]|intro].
    apply keeps_bind; [apply keeps_statfs|intro; by apply IH]. }
  specialize (Hk f s cs eq_refl). by destruct (delete_files names f n s cs).
Qed.

(** Steps that only look. *)
Lemma bind_readonly {A} (Φ : outcome D A → Prop) {B} (m : io D B) (f : B → io D A) s cs :
  Φ Crashed → Φ Hung → Φ (Stop s) → Forall (λ c, c ≠ 0) cs →
  (∀ R, keeps R m) → consumes m →
  (∀ a cs', Forall (λ c, c ≠ 0) cs' → m s cs = Ret a s cs' → Φ (f a s cs')) →
  Φ ((m ≫= f) s cs).
Proof.
  intros HC HH HS Hcs Hk Hc Hf. specialize (Hk (eq s) s cs eq_refl). unfold mbind, io_bind.
  destruct (m s cs) as [a s' cs'|s'| |] eqn:E; try done; subst; [|done].
  destruct (Hc _ _ _ _ _ E) as [k ->]. apply Forall_app in Hcs as [_ Hcs]. by apply Hf.
Qed.
Lemma bind_assoc_outcome {A B C} (Φ : outcome D C → Prop) (m : io D A) (f : A → io D B)
    (g : B → io D C) s cs : Φ ((m ≫= λ a, f a ≫= g) s cs) → Φ (((m ≫= f) ≫= g) s cs).
Proof. unfold mbind, io_bind. by destruct (m s cs). Qed.

Lemma find_in_dirs_readonly dirs names R : keeps R (find_in_dirs dirs names).
Proof.
  revert names. induction dirs as [|d dirs IH]; intros names; cbn [find_in_dirs]; [apply keeps_ret|].
  apply keeps_bind; [apply keeps_choose|intro].
  apply keeps_bind; [apply keeps_read|intros [es|]]; [|apply IH].
  apply keeps_decide; [apply IH|]. apply keeps_bind; [|intro; apply IH].
  revert names IH. induction es as [|e es IHe]; intros names IH; cbn [find_regular]; [apply keeps_ret|].
  apply keeps_decide; [by apply IHe|].
  apply keeps_bind; [unfold sys_stat; keeps_tac|intro; by apply IHe].
Qed.
Lemma eliminate_procs_readonly ps names R : keeps R (eliminate_procs ps names).
Proof.
  revert names. induction ps as [|[d fds] ps IH]; intros names; cbn [eliminate_procs]; [apply keeps_ret|].
  destruct (numeric d); [|apply IH]. apply keeps_bind; [apply keeps_choose|intro].
  destruct fds; [apply keeps_decide|]; apply IH.
Qed.
Lemma eliminate_procs_consumes ps names : consumes (eliminate_procs ps names).
Proof.
  revert names. induction ps as [|[d fds] ps IH]; intros names; cbn [eliminate_procs]; [apply consumes_ret|].
  destruct (numeric d); [|apply IH]. apply consumes_bind; [apply consumes_choose|intro].
  destruct fds; [apply consumes_decide|]; apply IH.
Qed.

(** A file of the cache partition that a process has open is not deleted,
    when the directories of /proc can be read. *)
Lemma open_files_spared n s cs path : Forall (λ c, c ≠ 0) cs → open_in (procs s) path →
  match MakeFreeSpaceOnCache n s cs with
  | Ret _ s' _ | Stop s' => files s' !! path = files s !! path
  | Crashed | Hung => False
  end.
Proof.
  intros Hcs [Hpre Hopen]. pose proof (MakeFreeSpaceOnCache_calm n s cs) as Hcalm.
  set (Φ := λ o : outcome D Z, match o with
    Ret _ s' _ | Stop s' => files s' !! path = files s !! path | _ => True end).
  assert (Φ (MakeFreeSpaceOnCache n s cs)) as HΦ; [|by destruct (MakeFreeSpaceOnCache n s cs)].
  clear Hcalm. unfold MakeFreeSpaceOnCache, FindExpendableFiles.
  apply (bind_readonly Φ); try done; [intros; apply keeps_statfs|
    unfold FreeSpaceForFile, sys_statfs; consumes_tac|].
  intros free_now cs1 Hcs1 _. case_decide; [done|].
  apply bind_assoc_outcome. apply (bind_readonly Φ); try done;
    [intros R; by apply find_in_dirs_readonly|apply find_in_dirs_consumes|].
  intros names cs2 Hcs2 _. apply bind_assoc_outcome. unfold EliminateOpenFiles.
  apply bind_assoc_outcome. apply (bind_readonly Φ); try done;
    [intros; apply keeps_choose|apply consumes_choose|].
  intros c cs3 Hcs3 Hc. rewrite decide_False.
  2: { destruct cs2 as [|c2 cs2]; [done|]. unfold choose in Hc. simplify_eq. by apply Forall_cons in Hcs2 as [? _]. }
  apply bind_assoc_outcome.
  apply (bind_readonly Φ); try done; [intros; apply keeps_read|apply consumes_read|].
  intros ps cs4 Hcs4 Hps. unfold read_sys in Hps. simplify_eq.
  apply bind_assoc_outcome. apply (bind_readonly Φ); try done;
    [intros; apply eliminate_procs_readonly|apply eliminate_procs_consumes|].
  intros names' cs5 Hcs5 Hel.
  assert (Some path ∉ names') as Hgone by (eapply eliminate_procs_gone; [exact Hcs4|exact Hpre|exact Hel|by right]).
  change (Φ ((if decide (names' = []) then mret (-1) else delete_files names' free_now n ≫=
    λ free_now, mret (if decide (n ≤ free_now) then 0 else -1) : io D Z) s cs5)).
  case_decide; [done|]. pose proof (delete_files_spares names' free_now n path s cs5 Hgone) as Hd.
  unfold mbind, io_bind. by destruct (delete_files names' free_now n s cs5).
Qed.

(** When the size of the free space cannot be read, making room is reported
    as done without deleting anything: the -1 of [FreeSpaceForFile] is the
    greatest [size_t]. *)
Lemma statfs_failure_is_room n s c cs : c < 0 → in_u long_bits n →
  MakeFreeSpaceOnCache n s (c :: cs) = Ret 0 s cs.
Proof.
  intros Hc [? ?]. unfold MakeFreeSpaceOnCache, FreeSpaceForFile, sys_statfs, mbind, io_bind, choose, mret, io_ret.
  rewrite (decide_True (P := c < 0)) by done. rewrite decide_True; [done|].
  unfold size_t, wrap_u. replace (-1) with (2 ^ long_bits - 1 + (-1) * 2 ^ long_bits) by lia.
  rewrite Z.mod_add by lia. rewrite Z.mod_small; lia.
Qed.
End freecache.

(** ** A system with a saved source, an open file and an old download *)
Definition cache_example : Sys unit := {|
  files := <["/cache/saved.file" := mkFile [1; 2] 420 0 0]>
             (<["/cache/open.zip" := mkFile [3] 420 0 0]>
               (<["/cache/old.zip" := mkFile [4; 5] 420 0 0]> ∅));
  emmc := ∅; mtd := tt; mtd_partitions_scanned := false;
  listing := {[ "/cache" := ["."; ".."; "saved.file"; "open.zip"; "old.zip"] ]};
  procs := [("self", None); ("12", Some [Some "/cache/open.zip"; None])]
|}.

(** The choices: no room, two directories (the second cannot be read), [stat] of
    four names, /proc and its process; one deletion, and then 100 bytes. *)
Definition cache_choices : list Z := [5; 1; 1; 1; 1; 1; 1; 1; 1; 1; 100].

Example old_download_deleted :
  match MakeFreeSpaceOnCache (H := abi32) 50 cache_example cache_choices with
  | Ret r s _ => r = 0 ∧ files s !! "/cache/old.zip" = None
  | _ => False
  end.
Proof. by vm_compute. Qed.

Lemma free_cache_spares_witness :
  match MakeFreeSpaceOnCache (H := abi32) 50 cache_example cache_choices with
  | Ret _ s' _ | Stop s' =>
      files s' !! CACHE_TEMP_SOURCE = files cache_example !! CACHE_TEMP_SOURCE
  | Crashed | Hung => False
  end.
Proof.
  apply (free_cache_spares (H := abi32) 50 cache_example cache_choices CACHE_TEMP_SOURCE).
  intros [Hne _]. by apply Hne.
Defined.

Lemma open_files_spared_witness :
  match MakeFreeSpaceOnCache (H := abi32) 50 cache_example cache_choices with
  | Ret _ s' _ | Stop s' => files s' !! "/cache/open.zip" = files cache_example !! "/cache/open.zip"
  | Crashed | Hung => False
  end.
Proof.
  apply (open_files_spared (H := abi32) 50 cache_example cache_choices "/cache/open.zip").
  - repeat constructor; done.
  - split; [done|]. exists "12", [Some "/cache/open.zip"; None]. split; [|split; [done|by left]].
    right. by left.
Defined.

Lemma statfs_failure_is_room_witness :
  MakeFreeSpaceOnCache (H := abi32) 4000000000 cache_example [-1] = Ret 0 cache_example [].
Proof. apply (statfs_failure_is_room (H := abi32)); [done|]. unfold in_u. simpl. lia. Defined.
