(* ===== verification/ApplyPatch.v ===== *)
(** Patching files and partitions: [applypatch/applypatch.c].

    [malloc] gives the blocks the code does not check; the block of the new
    contents of a partition, which it checks, is given up to [heap] bytes.  A
    null pointer is [None]; using one is an access outside an object. *)
From S2P Require Import Prelude CLib Bytes Bz2 ZlibSha BsPatch ImgPatch Retouch World Cache Mtd.

(** * Digests as text *)

Definition hex_digit (c : ascii) : option Z :=
  let v := uchar c in
  if decide (48 ≤ v ≤ 57) then Some (v - 48)
  else if decide (97 ≤ v ≤ 102) then Some (v - 97 + 10)
  else if decide (65 ≤ v ≤ 70) then Some (v - 65 + 10)
  else None.

(** [n] bytes of two digits each, and the rest of the string. *)
Fixpoint parse_digits (n : nat) (ps : string) : option (bytes * string) :=
  match n with
  | O => Some ([], ps)
  | S n =>
      match ps with
      | String c1 (String c2 ps) =>
          d1 ← hex_digit c1;
          d2 ← hex_digit c2;
          '(digest, rest) ← parse_digits n ps;
          Some (Z.lor (Z.shiftl d1 4) d2 :: digest, rest)
      | _ => None
      end
  end.

(** The digest, or [None] when the C function returns -1. *)
Definition ParseSha1 (str : string) : option bytes :=
  '(digest, rest) ← parse_digits (Z.to_nat SHA_DIGEST_SIZE) str;
  if decide (rest = EmptyString) then Some digest else None.

Fixpoint find_matching (i : Z) (sha1 : bytes) (patch_sha1_str : list string) : Z :=
  match patch_sha1_str with
  | [] => -1
  | str :: strs =>
      match ParseSha1 str with
      | Some patch_sha1 =>
          if decide (memcmp patch_sha1 sha1 = 0) then i else find_matching (i + 1) sha1 strs
      | None => find_matching (i + 1) sha1 strs
      end
  end.
Definition FindMatchingPatch (sha1 : bytes) (patch_sha1_str : list string) : Z :=
  find_matching 0 sha1 patch_sha1_str.

(** * Files and partitions in memory *)

(** [data] is null until the contents are loaded. *)
Record FileContents := mkFileContents {
  sha1 : bytes;
  data : option bytes;
  size : Z;
  st_mode : Z; st_uid : Z; st_gid : Z
}.
Definition set_data (d : option bytes) (f : FileContents) : FileContents :=
  let '(mkFileContents s _ n m u g) := f in mkFileContents s d n m u g.
Definition set_size (n : Z) (f : FileContents) : FileContents :=
  let '(mkFileContents s d _ m u g) := f in mkFileContents s d n m u g.

Inductive PartitionType := MTD | EMMC.

(** The tokens [strtok] finds between colons. *)
Fixpoint strtok_from (cur s : string) : list string :=
  match s with
  | EmptyString => if decide (cur = EmptyString) then [] else [cur]
  | String c s =>
      if decide (c = ":"%char)
      then (if decide (cur = EmptyString) then [] else [cur]) ++ strtok_from EmptyString s
      else strtok_from (cur ++ String c EmptyString)%string s
  end.
Definition strtok (s : string) : list string := strtok_from EmptyString s.

Fixpoint count_colons (filename : string) : Z :=
  match filename with
  | EmptyString => 0
  | String c s => (if decide (c = ":"%char) then 1 else 0) + count_colons s
  end.

Definition is_partition (filename : string) : bool :=
  String.prefix "MTD:" filename || String.prefix "EMMC:" filename.

Section applypatch.
Context `{Abi} `{Bz2} `{Zlib} `{Sha} {D : Type} `{Mtd D} `{CacheSpace D}.
Context (fresh : nat → Z) (heap : Z) (fuel : nat).

Definition compare_size_indices (size_array : list Z) (aa bb : nat) : Z :=
  let a := default 0 (size_array !! aa) in
  let b := default 0 (size_array !! bb) in
  if decide (a < b) then -1 else if decide (b < a) then 1 else 0.

(** The sizes and the digest strings; [Done None] when a size is bad. *)
Fixpoint read_pairs (pairs : nat) (tokens : list string) : run (option (list (Z * option string))) :=
  match pairs with
  | O => Done (Some [])
  | S pairs =>
      match tokens with
      | [] => Fault
      | size_str :: tokens =>
          let size := size_t (strtol size_str).1 in
          if decide (size = 0) then Done None else
          rest ← read_pairs pairs (tail tokens);
          Done (option_map (cons (size, head tokens)) rest)
      end
  end.

(** An open partition: the context of an MTD read, or what is left of the block
    device. *)
Inductive Device := MtdDev (ctx : MtdReadContext) | EmmcDev (rest : bytes).

Definition read_device (dev : Device) (next : Z) : io D (bytes * Device) :=
  match dev with
  | MtdDev ctx =>
      '(n, bs, ctx) ← mtd_read_data ctx next;
      mret (take (Z.to_nat n) bs, MtdDev ctx)
  | EmmcDev rest =>
      bs ← sys_read rest next;
      mret (bs, EmmcDev (drop (length bs) rest))
  end.

(** Reads the prefixes of the partition in the order of their sizes until one has
    its digest: the contents read, or the number of bytes read and whether all the
    prefixes were read. *)
Fixpoint match_prefix (pairs : list (Z * option string)) (dev : Device) (sofar : bytes)
    (ctx : SHA_CTX) : io D (bytes * SHA_CTX + Z * bool) :=
  match pairs with
  | [] => mret (inr (zlen sofar, true))
  | (size, sha1sum) :: pairs =>
      let next := size_t (size - zlen sofar) in
      '(bs, dev) ← (if decide (0 < next) then read_device dev next else mret ([], dev));
      if decide (zlen bs ≠ next) then mret (inr (zlen sofar, false)) else
      let ctx := if decide (0 < next) then SHA_update ctx bs else ctx in
      let sofar := sofar ++ bs in
      sha1sum ← lift (access sha1sum);
      match ParseSha1 sha1sum with
      | None => mret (inr (zlen sofar, false))
      | Some parsed_sha =>
          if decide (memcmp (SHA_final ctx) parsed_sha = 0)
          then mret (inl (sofar, ctx))
          else match_prefix pairs dev sofar ctx
      end
  end.

Definition open_partition (type : PartitionType) (partition : option string) : io D (option Device) :=
  match type with
  | MTD =>
      scanned ← read_sys mtd_partitions_scanned;
      _ ← (if (scanned : bool) then mret tt
           else _ ← mtd_scan_partitions; update_sys (set_scanned true));
      partition ← lift (access partition);
      m ← mtd_find_partition_by_name partition;
      match m with
      | None => mret None
      | Some m =>
          ctx ← mtd_read_partition m;
          mret (MtdDev <$> ctx)
      end
  | EMMC =>
      partition ← lift (access partition);
      c ← choose;
      dev ← read_sys (λ s, emmc s !! partition);
      mret (if decide (c = 0) then None else EmmcDev <$> dev)
  end.

Definition close_device (dev : Device) : io D unit :=
  match dev with MtdDev ctx => mtd_read_close ctx | EmmcDev _ => mret tt end.

Definition LoadPartitionContents (filename : string) (file : FileContents)
    : io D (Z * FileContents) :=
  let toks := strtok filename in
  magic ← lift (access (head toks));
  let type := if decide (magic = "MTD") then Some MTD
              else if decide (magic = "EMMC") then Some EMMC else None in
  match type with
  | None => mret (-1, file)
  | Some type =>
      let partition := head (tail toks) in
      let pairs := (count_colons filename - 1) / 2 in
      ps ← lift (read_pairs (Z.to_nat pairs) (tail (tail toks)));
      match ps with
      | None => mret (-1, file)
      | Some ps =>
          let index := qsort (compare_size_indices ps.*1) (seq 0 (length ps)) in
          dev ← open_partition type partition;
          match dev with
          | None => mret (-1, file)
          | Some dev =>
              _ ← lift (access (last index));
              r ← match_prefix (omap (λ i, ps !! i) index) dev [] SHA_init;
              match r with
              | inr (n, ran_off) =>
                  _ ← (if (ran_off : bool) then close_device dev else mret tt);
                  mret (-1, set_size n (set_data None file))
              | inl (contents, ctx) =>
                  _ ← close_device dev;
                  mret (0, mkFileContents (SHA_final ctx) (Some contents) (zlen contents) 420 0 0)
              end
          end
      end
  end.

(** Masks the retouched entries of a file that was read. *)
Definition mask_contents (retouch_flag : Z) (file : FileContents) (d : bytes)
    : io D (Z * FileContents) :=
  if decide (retouch_flag ≠ RETOUCH_DONT_MASK) then
    '(r, d, _) ← lift (retouch_mask_data d (Some 0));
    if decide (r ≠ RETOUCH_DATA_MATCHED) then mret (-1, set_data None file) else
    mret (0, mkFileContents (SHA d) (Some d) (size file) (st_mode file) (st_uid file) (st_gid file))
  else
    mret (0, mkFileContents (SHA d) (Some d) (size file) (st_mode file) (st_uid file) (st_gid file)).

Definition LoadFileContents (filename : string) (file : FileContents) (retouch_flag : Z)
    : io D (Z * FileContents) :=
  let file := set_data None file in
  if is_partition filename then LoadPartitionContents filename file else
  st ← sys_stat filename;
  match st with
  | None => mret (-1, file)
  | Some st =>
      let file := mkFileContents (sha1 file) None (zlen (f_data st)) (f_mode st) (f_uid st) (f_gid st) in
      f ← sys_stat filename;
      match f with
      | None => mret (-1, file)
      | Some f =>
          d ← sys_read (f_data f) (size file);
          if decide (zlen d ≠ size file) then mret (-1, file)
          else mask_contents retouch_flag file d
      end
  end.

(** * Writing *)

(** [FileSink] on the file open as [path]. *)
Fixpoint write_loop (n : nat) (path : string) (d : bytes) (done : Z) : io D Z :=
  if decide (done < zlen d) then
    match n with
    | O => λ _ _, Hung
    | S n =>
        wrote ← sys_write path (drop (Z.to_nat done) d);
        if decide (wrote ≤ 0) then mret done else write_loop n path d (done + wrote)
    end
  else mret done.
Definition FileSink (path : string) (d : bytes) : io D Z := write_loop (length d) path d 0.

(** The sink that stores in a block of [msi_size] bytes; the token is what it
    holds. *)
Definition MemorySink (msi_size : Z) (buffer d : bytes) : Z * bytes :=
  if decide (msi_size - zlen buffer < zlen d) then (-1, buffer) else (zlen d, buffer ++ d).

(** [write] refuses a null pointer. *)
Definition SaveFileContents (filename : string) (file : FileContents) : io D Z :=
  fd ← sys_creat filename;
  if negb fd then mret (-1) else
  bytes_written ← (match data file with Some d => FileSink filename d | None => mret 0 end);
  if decide (bytes_written ≠ size file) then mret (-1) else
  r ← sys_chmod filename (st_mode file);
  if decide (r ≠ 0) then mret (-1) else
  r ← sys_chown filename (st_uid file) (st_gid file);
  mret (if decide (r ≠ 0) then -1 else 0).

Definition WriteToPartition (d : bytes) (target : string) : io D Z :=
  let toks := strtok target in
  magic ← lift (access (head toks));
  let type := if decide (magic = "MTD") then Some MTD
              else if decide (magic = "EMMC") then Some EMMC else None in
  match type, head (tail toks) with
  | None, _ => mret (-1)
  | _, None => mret (-1)
  | Some MTD, Some partition =>
      scanned ← read_sys mtd_partitions_scanned;
      _ ← (if (scanned : bool) then mret tt
           else _ ← mtd_scan_partitions; update_sys (set_scanned true));
      m ← mtd_find_partition_by_name partition;
      match m with
      | None => mret (-1)
      | Some m =>
          ctx ← mtd_write_partition m;
          match ctx with
          | None => mret (-1)
          | Some ctx =>
              '(written, ctx) ← mtd_write_data ctx d;
              if decide (written ≠ zlen d) then _ ← mtd_write_close ctx; mret (-1) else
              '(r, ctx) ← mtd_erase_blocks ctx (-1);
              if decide (r < 0) then _ ← mtd_write_close ctx; mret (-1) else
              r ← mtd_write_close ctx;
              mret (if decide (r ≠ 0) then -1 else 0)
          end
      end
  | Some EMMC, Some partition =>
      c ← choose;
      dev ← read_sys (λ s, emmc s !! partition);
      _ ← lift (access (if decide (c = 0) then None else dev)); (* fwrite to a null FILE *)
      written ← write_emmc partition d;
      if decide (written ≠ zlen d) then mret (-1) else
      c ← choose;
      mret (if decide (c = 0) then -1 else 0)
  end.

(** * Checking *)

(** A [FileContents] with the contents of fresh memory. *)
Definition no_contents : FileContents := mkFileContents [] None (fresh 0) 0 0 0.

Definition check_cache (patch_sha1_str : list string) (file : FileContents) : io D Z :=
  '(r, file) ← LoadFileContents CACHE_TEMP_SOURCE file RETOUCH_DO_MASK;
  if decide (r ≠ 0) then mret 1 else
  mret (if decide (FindMatchingPatch (sha1 file) patch_sha1_str < 0) then 1 else 0).

Definition applypatch_check (filename : string) (patch_sha1_str : list string) : io D Z :=
  '(r, file) ← LoadFileContents filename no_contents RETOUCH_DO_MASK;
  if decide (r ≠ 0 ∨ (patch_sha1_str ≠ [] ∧ FindMatchingPatch (sha1 file) patch_sha1_str < 0))
  then check_cache patch_sha1_str (set_data None file)
  else mret 0.

(** * Patching *)

(** [Value] of [edify/expr.h]; a string is [VAL_STRING] and a blob
    [VAL_BLOB]. *)
Record PatchValue := mkPatchValue { pv_blob : bool; pv_data : bytes }.

(** The directory of the target file system, up to its second slash. *)
Fixpoint upto_slash (s : string) : string :=
  match s with
  | EmptyString => EmptyString
  | String c s => if decide (c = "/"%char) then EmptyString else String c (upto_slash s)
  end.
Definition target_fs (target_filename : string) : run string :=
  match target_filename with
  | EmptyString => Fault
  | String c s => Done (String c (upto_slash s))
  end.

(** Where the patched data go: a block for a partition, a file otherwise. *)
Inductive Output := MemoryOutput (buffer : bytes) | FileOutput (outname : string).

(** A file sink as a token: the system, the choices left, and whether the run was
    interrupted, after which nothing is written. *)
Definition SinkState : Type := Sys D * list Z * bool.
Definition file_sink (outname : string) (t : SinkState) (d : bytes) : Z * SinkState :=
  let '(s, cs, stopped) := t in
  if (stopped : bool) then (-1, t) else
  match FileSink outname d s cs with
  | Ret n s cs => (n, (s, cs, false))
  | Stop s => (-1, (s, [], true))
  | Crashed | Hung => (-1, (s, cs, true))
  end.

(** Applies the patch in the format its first bytes tell; [None] for an unknown
    format. *)
Definition apply_format {T} (sink : T → bytes → Z * T) (old patch : bytes)
    (bonus_data : option bytes) (token : T) : run (option Z * T * SHA_CTX) :=
  let header := take 8 patch in
  if decide (8 ≤ zlen patch ∧ memcmp header BSDIFF_MAGIC = 0) then
    '(r, token, ctx) ← ApplyBSDiffPatch fresh heap sink fuel old patch 0 token (Some SHA_init);
    mret (Some r, token, default SHA_init ctx)
  else if decide (8 ≤ zlen patch ∧ memcmp header IMGDIFF_MAGIC = 0) then
    '(r, token, ctx) ← ApplyImagePatch fresh heap sink fuel old patch token SHA_init bonus_data;
    mret (Some r, token, ctx)
  else mret (None, token, SHA_init).

(** Runs a computation on a file sink in the system. *)
Definition with_file_sink {A} (m : SinkState → run (A * SinkState * SHA_CTX)) : io D (A * SHA_CTX) :=
  λ s cs,
  match m (s, cs, false) with
  | Done (a, (s, cs, stopped), ctx) => if (stopped : bool) then Stop s else Ret (a, ctx) s cs
  | Fault => Crashed
  | OutOfFuel => Hung
  end.

(** Opens the output and applies the patch: [None] when the function returns 1,
    otherwise the result, the digest context and the output. *)
Definition run_patch (old : option bytes) (patch : PatchValue) (target_filename : string)
    (target_size : Z) (bonus_data : option bytes) : io D (option (Z * SHA_CTX * Output)) :=
  if negb (pv_blob patch) then mret None else
  old ← lift (access old);
  if is_partition target_filename then
    if decide (heap < target_size) then mret None else
    '(result, buffer, ctx) ←
      lift (apply_format (MemorySink (off_t target_size)) old (pv_data patch) bonus_data []);
    mret ((λ r : Z, (r, ctx, MemoryOutput buffer)) <$> result)
  else
    let outname := (target_filename ++ ".patch")%string in
    output ← sys_creat outname;
    if negb output then mret None else
    '(result, ctx) ←
      with_file_sink (apply_format (file_sink outname) old (pv_data patch) bonus_data);
    mret ((λ r : Z, (r, ctx, FileOutput outname)) <$> result).

(** Saves the source to the cache partition; [false] when there is no room or
    the copy fails. *)
Definition back_up (source_file : FileContents) : io D bool :=
  r ← make_free_space (size_t (size source_file));
  if decide (r < 0) then mret false else
  r ← SaveFileContents CACHE_TEMP_SOURCE source_file;
  mret (negb (bool_decide (r < 0))).

(** The part of an attempt that makes room for the target: [None] when the
    function returns 1, otherwise [retry] and [made_copy]. *)
Definition make_room (source_file : FileContents) (source_good : bool)
    (source_filename target_filename fs : string) (target_size : Z) (retry : Z) (made_copy : bool)
    : io D (option (Z * bool)) :=
  if is_partition target_filename then
    ok ← back_up source_file;
    mret (if (ok : bool) then Some (0, true) else None)
  else
    enough_space ← (if decide (0 < retry) then
        free_space ← FreeSpaceForFile fs;
        mret (bool_decide (262144 < free_space ∧ size_t (target_size * 3) / 2 < free_space))
      else mret false);
    let retry := if (enough_space : bool) then retry else 0 in
    if (negb enough_space && source_good)%bool then
      if is_partition source_filename then mret None else
      ok ← back_up source_file;
      if negb ok then mret None else
      _ ← sys_unlink source_filename;
      _ ← FreeSpaceForFile fs;
      mret (Some (0, true))
    else mret (Some (retry, made_copy)).

(** The attempts: [None] when the function returns 1. *)
Fixpoint attempts (n : nat) (source_file copy_file : FileContents)
    (source_patch_value copy_patch_value : option PatchValue)
    (source_filename target_filename fs : string) (target_size : Z) (bonus_data : option bytes)
    (retry : Z) (made_copy : bool) : io D (option (SHA_CTX * Output * bool)) :=
  match n with
  | O => λ _ _, Hung
  | S n =>
      room ← make_room source_file (bool_decide (is_Some source_patch_value))
               source_filename target_filename fs target_size retry made_copy;
      match room with
      | None => mret None
      | Some (retry, made_copy) =>
          let '(source_to_use, patch) :=
            match source_patch_value with
            | Some p => (source_file, Some p)
            | None => (copy_file, copy_patch_value)
            end in
          patch ← lift (access patch);
          r ← run_patch (data source_to_use) patch target_filename target_size bonus_data;
          match r with
          | None => mret None
          | Some (result, ctx, output) =>
              if decide (result = 0) then mret (Some (ctx, output, made_copy)) else
              if decide (retry = 0) then mret None else
              _ ← (match output with FileOutput outname => sys_unlink outname | _ => mret 0 end);
              if decide (0 < retry)
              then attempts n source_file copy_file source_patch_value copy_patch_value
                     source_filename target_filename fs target_size bonus_data (retry - 1) made_copy
              else mret (Some (ctx, output, made_copy))
          end
      end
  end.

Definition install_target (source_to_use : FileContents) (target_filename : string)
    (output : Output) : io D bool :=
  match output with
  | MemoryOutput buffer =>
      r ← WriteToPartition buffer target_filename;
      mret (bool_decide (r = 0))
  | FileOutput outname =>
      r ← sys_chmod outname (st_mode source_to_use);
      if decide (r ≠ 0) then mret false else
      r ← sys_chown outname (st_uid source_to_use) (st_gid source_to_use);
      if decide (r ≠ 0) then mret false else
      r ← sys_rename outname target_filename;
      mret (bool_decide (r = 0))
  end.

Definition GenerateTarget (source_file : FileContents) (source_patch_value : option PatchValue)
    (copy_file : FileContents) (copy_patch_value : option PatchValue)
    (source_filename target_filename : string) (target_sha1 : bytes) (target_size : Z)
    (bonus_data : option bytes) : io D Z :=
  fs ← lift (target_fs target_filename);
  r ← attempts 2 source_file copy_file source_patch_value copy_patch_value
        source_filename target_filename fs target_size bonus_data 1 false;
  match r with
  | None => mret 1
  | Some (ctx, output, made_copy) =>
      if decide (memcmp (SHA_final ctx) target_sha1 ≠ 0) then mret 1 else
      let source_to_use := if source_patch_value then source_file else copy_file in
      ok ← install_target source_to_use target_filename output;
      if negb ok then mret 1 else
      _ ← (if (made_copy : bool) then sys_unlink CACHE_TEMP_SOURCE else mret 0);
      mret 0
  end.

Definition CacheSizeCheck (bytes : Z) : io D Z :=
  r ← make_free_space bytes;
  mret (if decide (r < 0) then 1 else 0).

(** [patch_data[to_use]] for the patch whose digest is that of the file. *)
Definition choose_patch (file : FileContents) (patch_sha1_str : list string)
    (patch_data : list PatchValue) : io D (option PatchValue) :=
  let to_use := FindMatchingPatch (sha1 file) patch_sha1_str in
  if decide (0 ≤ to_use) then
    p ← lift (access (znth patch_data to_use)); mret (Some p)
  else mret None.

Definition applypatch (source_filename target_filename target_sha1_str : string)
    (target_size : Z) (patch_sha1_str : list string) (patch_data : list PatchValue)
    (bonus_data : option bytes) : io D Z :=
  let target_filename := if decide (target_filename = "-") then source_filename else target_filename in
  match ParseSha1 target_sha1_str with
  | None => mret 1
  | Some target_sha1 =>
      '(r, source_file) ← LoadFileContents target_filename no_contents RETOUCH_DO_MASK;
      if decide (r = 0 ∧ memcmp (sha1 source_file) target_sha1 = 0) then mret 0 else
      source_file ←
        (if decide (data source_file = None ∨ target_filename ≠ source_filename) then
           '(_, source_file) ←
              LoadFileContents source_filename (set_data None source_file) RETOUCH_DO_MASK;
           mret source_file
         else mret source_file);
      source_patch_value ←
        (if data source_file then choose_patch source_file patch_sha1_str patch_data else mret None);
      match source_patch_value with
      | Some _ =>
          GenerateTarget source_file source_patch_value no_contents None source_filename
            target_filename target_sha1 target_size bonus_data
      | None =>
          '(r, copy_file) ← LoadFileContents CACHE_TEMP_SOURCE no_contents RETOUCH_DO_MASK;
          if decide (r < 0) then mret 1 else
          copy_patch_value ← choose_patch copy_file patch_sha1_str patch_data;
          match copy_patch_value with
          | None => mret 1
          | Some _ =>
              GenerateTarget (set_data None source_file) None copy_file copy_patch_value
                source_filename target_filename target_sha1 target_size bonus_data
          end
      end
  end.
End applypatch.

(** * Proofs *)

(** ** Digests *)
Definition hex_char (n : Z) : ascii :=
  ascii_of_nat (Z.to_nat (if decide (n < 10) then 48 + n else 87 + n)).
Fixpoint sha1_text (digest : bytes) : string :=
  match digest with
  | [] => EmptyString
  | b :: digest => String (hex_char (b / 16)) (String (hex_char (b mod 16)) (sha1_text digest))
  end.

Lemma hex_digit_char n : 0 ≤ n < 16 → hex_digit (hex_char n) = Some n.
Proof.
  intros Hn. assert (n ∈ seqZ 0 16) as Hin by (apply elem_of_seqZ; lia).
  assert (Forall (λ n, hex_digit (hex_char n) = Some n) (seqZ 0 16)) as Hall.
  { apply (bool_decide_unpack _). by vm_compute. }
  rewrite Forall_forall in Hall. by apply Hall.
Qed.

Lemma parse_digits_text digest rest : is_bytes digest →
  parse_digits (length digest) (sha1_text digest ++ rest) = Some (digest, rest).
Proof.
  intros Hd. induction Hd as [|b digest Hb Hd IH]; [done|].
  unfold in_u in Hb. pose proof (Z.div_mod b 16 ltac:(lia)). pose proof (Z.mod_pos_bound b 16 ltac:(lia)).
  assert (0 ≤ b / 16 < 16) by (split; [apply Z.div_pos|apply Z.div_lt_upper_bound]; lia).
  cbn [sha1_text length parse_digits].
  change (String ?c ?t +:+ rest)%string with (String c (t +:+ rest)). cbn iota.
  change (String ?c ?t +:+ rest)%string with (String c (t +:+ rest)). cbn iota.
  rewrite !hex_digit_char by done. cbn [mbind option_bind].
  rewrite IH. cbn [mbind option_bind]. do 3 f_equal.
  rewrite Z.lor_comm, lor_shiftl_add by lia. lia.
Qed.

(** [ParseSha1] inverts the printing of digests: the 40 digits of any digest
    of 20 bytes are parsed to it, and nothing may follow them, not even the
    ":<anything>" its comment allows. *)
Lemma parse_sha1_round_trip digest rest : is_bytes digest → zlen digest = SHA_DIGEST_SIZE →
  ParseSha1 (sha1_text digest ++ rest) = if decide (rest = ""%string) then Some digest else None.
Proof.
  intros Hb Hl. unfold ParseSha1, SHA_DIGEST_SIZE in *.
  replace (Z.to_nat 20) with (length digest) by (unfold zlen in Hl; lia).
  by rewrite parse_digits_text.
Qed.

Lemma parse_sha1_round_trip_witness :
  ParseSha1 (sha1_text (seqZ 100 20) ++ ":boot.img") = None.
Proof.
  apply (parse_sha1_round_trip (seqZ 100 20) ":boot.img"); [|done].
  apply (bool_decide_unpack _). by vm_compute.
Defined.

Section applypatch_lemmas.
Context `{Abi} `{Bz2} `{Zlib} `{Sha} `{!ShaLaws H2} {D : Type} `{Mtd D} `{CacheSpace D}.
Context (fresh : nat → Z) (heap : Z) (fuel : nat).

Lemma LoadFileContents_keeps filename file flag (R : Sys D → Prop) :
  is_partition filename = false → keeps R (LoadFileContents filename file flag).
Proof.
  intros Hp. unfold LoadFileContents. rewrite Hp.
  apply keeps_bind; [unfold sys_stat; keeps_tac|intros [st|]]; [|apply keeps_ret].
  apply keeps_bind; [unfold sys_stat; keeps_tac|intros [f|]]; [|apply keeps_ret].
  apply keeps_bind; [unfold sys_read; keeps_tac|intros d].
  apply keeps_decide; [apply keeps_ret|]. unfold mask_contents. keeps_tac.
  destruct a as [[r ob] o]. keeps_tac.
Qed.

(** [c] is what the file [t] is loaded as. *)
Definition loaded_as (t : File) (c : bytes) : Prop :=
  ∃ o, retouch_mask_data (f_data t) (Some 0) = Done (RETOUCH_DATA_MATCHED, c, o).

(** Loading a file fails, or gives its masked contents with their digest. *)
Lemma LoadFileContents_spec filename file s0 :
  is_partition filename = false →
  ctriple (eq s0) (LoadFileContents filename file RETOUCH_DO_MASK)
    (λ '(r, file') s, s0 = s ∧
       (r = 0 ∧ (∃ t c, files s0 !! filename = Some t ∧ loaded_as t c ∧
          data file' = Some c ∧ size file' = zlen c ∧ sha1 file' = SHA c) ∨
        r = -1 ∧ data file' = None)) (eq s0).
Proof.
  clear heap fuel fresh.
  intros Hp. unfold LoadFileContents. rewrite Hp.
  assert (ctriple (eq s0) (sys_stat filename)
    (λ st s, s0 = s ∧ (st = None ∨ st = files s0 !! filename)) (eq s0)) as Hstat.
  { unfold sys_stat. eapply ct_bind; [by apply (ct_choose _ (λ _, eq s0))|]. intros c.
    apply ct_read. intros s <-. split; [done|]. case_decide; [by left|by right]. }
  eapply ct_bind; [exact Hstat|]. intros [st|]; cbn beta iota.
  2: { apply ct_ret. intros s [-> _]. split; [done|]. right. by destruct file. }
  apply ct_split. intros [?|Hst]; [done|].
  eapply ct_bind; [exact Hstat|].
  intros [f|]; cbn beta iota; [|apply ct_ret; intros s [-> _]; split; [done|by right]].
  apply ct_split. intros [?|Hf]; [done|]. rewrite <- Hst in Hf. injection Hf as ->.
  cbn [size].
  eapply ct_bind with (Q' := λ b s, s0 = s ∧ b = take (length b) (f_data st)).
  { unfold sys_read. eapply ct_bind; [by apply (ct_choose _ (λ _, eq s0))|]. intros c.
    apply ct_ret. intros s <-. split; [done|]. rewrite length_take.
    set (n := Z.to_nat _). destruct (Nat.min_spec n (length (f_data st))) as [[? ->]|[? ->]]; [done|].
    by rewrite !take_ge by lia. }
  intros b. apply ct_split. intros Hb. case_decide as Hn.
  { apply ct_ret. intros s <-. split; [done|]. by right. }
  assert (b = f_data st) as ->.
  { rewrite Hb. apply take_ge. unfold zlen in Hn. lia. }
  unfold mask_contents. rewrite decide_True by done.
  eapply ct_bind with (Q' := λ a s, s0 = s ∧ retouch_mask_data (f_data st) (Some 0) = Done a).
  { apply ct_lift. by intros a s Ha <-. }
  intros [[r c] o]. apply ct_split. intros Hm. case_decide as Hr.
  - apply ct_ret. intros s <-. split; [done|]. by right.
  - apply ct_ret. intros s <-. split; [done|]. left. split; [done|]. cbn.
    exists st, c. split_and!; try done.
    + exists o. rewrite Hm. do 3 f_equal. by destruct (decide (r = RETOUCH_DATA_MATCHED)).
    + symmetry. by eapply retouch_mask_length.
Qed.

Lemma LoadFileContents_gives filename file f d (K : Sys D → Prop) :
  is_partition filename = false →
  retouch_mask_data (f_data f) (Some 0) = Done (RETOUCH_DATA_MATCHED, d, 0) →
  (∀ s, K s → files s !! filename = Some f) →
  ctriple K (LoadFileContents filename file RETOUCH_DO_MASK)
    (λ '(r, file') s, K s ∧ ∀ x, data file' = Some x → x = d ∧ size file' = zlen d) K.
Proof.
  intros Hp Hd HK s cs Hs. pose proof (LoadFileContents_spec filename file s Hp s cs eq_refl) as Hl.
  destruct (LoadFileContents filename file RETOUCH_DO_MASK s cs) as [[r file'] s' cs'|s'| |]; try done.
  2: { by subst. }
  destruct Hl as [<- [(-> & t & c & Ht & (o & Hm) & Hdata & Hsize & _)|[-> Hn]]]; split; try done.
  - intros x Hx. apply HK in Hs. rewrite Hs in Ht. injection Ht as <-. rewrite Hd in Hm.
    injection Hm as <- _. rewrite Hdata in Hx. by injection Hx as <-.
  - intros x Hx. congruence.
Qed.

(** The file at [path] holds exactly [c]. *)
Definition holds (path : string) (c : bytes) (s : Sys D) : Prop :=
  ∃ t, files s !! path = Some t ∧ f_data t = c.

Section writing.
Context (X : string → Prop) (K : Sys D → Prop) (path : string).
Hypothesis HK : looks_at X K.
Hypothesis Hpath : ¬ X path.

Lemma creat_ok : ctriple K (sys_creat path)
  (λ ok s, K s ∧ (ok = true → holds path [] s)) K.
Proof.
  unfold sys_creat. eapply ct_bind; [by apply (ct_choose K (λ _, K))|]. intros c.
  case_decide; [by apply ct_ret|].
  eapply ct_bind with (Q' := λ _ s, K s ∧ holds path [] s).
  - apply ct_update. intros s Hs. split.
    + revert s Hs. apply (looks_at_update X); [done|]. intros fs p Hx.
      apply lookup_partial_alter_ne. naive_solver.
    + unfold holds. rewrite files_set_files, lookup_partial_alter_eq. eexists. split; [done|].
      by destruct (files s !! path).
  - intros _. apply ct_ret. naive_solver.
Qed.

Lemma write_loop_ok n d done pre : 0 ≤ done ≤ zlen d →
  ctriple (λ s, K s ∧ holds path (pre ++ take (Z.to_nat done) d) s) (write_loop n path d done)
    (λ r s, K s ∧ done ≤ r ≤ zlen d ∧ holds path (pre ++ take (Z.to_nat r) d) s) K.
Proof.
  revert done. induction n as [|n IH]; intros done Hd; cbn [write_loop].
  { case_decide; [by intros s cs|]. apply ct_ret. naive_solver lia. }
  case_decide as Hlt; [|apply ct_ret; naive_solver lia].
  eapply ct_bind with (Q' := λ w s, K s ∧ ((w ≤ 0 ∧ holds path (pre ++ take (Z.to_nat done) d) s) ∨
    (0 < w ∧ done + w ≤ zlen d ∧ holds path (pre ++ take (Z.to_nat (done + w)) d) s))).
  - unfold sys_write.
    eapply ct_bind; [apply (ct_choose _ (λ _ s, K s ∧ holds path (pre ++ take (Z.to_nat done) d) s));
      [naive_solver|done]|].
    intros c. case_decide as Hc; [apply ct_ret; naive_solver lia|].
    set (k := Z.min c (zlen (drop (Z.to_nat done) d))).
    assert (zlen (drop (Z.to_nat done) d) = zlen d - done) as Hdrop.
    { unfold zlen in *. rewrite length_drop. lia. }
    eapply ct_bind with (Q' := λ _ s, K s ∧ holds path (pre ++ take (Z.to_nat (done + k)) d) s).
    + apply ct_update. intros s [HKs (t & Ht & Hdata)]. split.
      * revert s HKs Ht. intros s HKs _. revert s HKs. apply (looks_at_update X); [done|].
        intros fs p Hx. apply lookup_alter_ne. naive_solver.
      * unfold holds. rewrite files_set_files, lookup_alter_eq, Ht. eexists. split; [done|]. cbn.
        rewrite Hdata, <- app_assoc. f_equal. rewrite Z2Nat.inj_add by lia.
        by rewrite <- take_take_drop.
    + intros _. apply ct_ret. intros s [? ?]. split; [done|]. right. lia || (split_and!; [lia|lia|done]).
  - intros w. case_decide as Hw.
    + apply ct_ret. intros s [? [[? ?]|(? & ? & ?)]]; [|lia]. split; [done|]. split; [lia|done].
    + eapply ct_conseq with (P' := λ s, (0 < w ∧ done + w ≤ zlen d) ∧
        (K s ∧ holds path (pre ++ take (Z.to_nat (done + w)) d) s)).
      * apply ct_pure. intros [? ?]. apply IH. lia.
      * intros s [? [[? ?]|(? & ? & ?)]]; [lia|done].
      * intros r s (? & ? & ?). split; [done|]. split; [lia|done].
      * done.
Qed.

Lemma FileSink_ok d pre :
  ctriple (λ s, K s ∧ holds path pre s) (FileSink path d)
    (λ r s, K s ∧ 0 ≤ r ≤ zlen d ∧ holds path (pre ++ take (Z.to_nat r) d) s) K.
Proof.
  unfold FileSink. eapply ct_conseq; [apply (write_loop_ok (length d) d 0 pre)|..]; try done.
  - split; [done|apply zlen_nonneg].
  - intros s. simpl. by rewrite app_nil_r.
Qed.
End writing.

Lemma SaveFileContents_ok (X : string → Prop) (K : Sys D → Prop) path file d :
  looks_at X K → ¬ X path → data file = Some d → size file = zlen d →
  ctriple K (SaveFileContents path file)
    (λ r s, K s ∧ (¬ r < 0 → holds path d s)) K.
Proof.
  intros HK Hp Hd Hn. unfold SaveFileContents.
  eapply ct_bind; [by apply (creat_ok X K)|]. intros ok. cbn beta.
  destruct ok; cbn [negb]; [|apply ct_ret; intros s [? _]; split; [done|lia]].
  eapply ct_conseq with (P' := λ s, K s ∧ holds path [] s); [|naive_solver|by intros ? ? Hx; exact Hx|done].
  rewrite Hd. eapply ct_bind; [apply (FileSink_ok X K path HK Hp d [])|]. intros w. cbn [app].
  case_decide as Hw; [apply ct_ret; intros s [? _]; split; [done|lia]|].
  assert (∀ f : File → File, (∀ t, f_data (f t) = f_data t) →
    keeps (λ s, K s ∧ holds path d s) (sys_change path f)) as Hch.
  { intros f Hf. unfold sys_change. keeps_tac. apply keeps_update. intros s [HKs (t & Ht & Hdt)]. split.
    - revert s HKs Ht. intros s HKs _. revert s HKs. apply (looks_at_update X); [done|].
      intros fs p Hx. apply lookup_alter_ne. naive_solver.
    - unfold holds. rewrite files_set_files, lookup_alter_eq, Ht. eexists. split; [done|].
      by rewrite Hf. }
  assert (w = zlen d) as -> by lia.
  eapply ct_conseq with (P' := λ s, K s ∧ holds path d s) (R' := λ s, K s ∧ holds path d s);
    [|intros s (? & _ & Hh)|by intros ? ? Hx; exact Hx|naive_solver].
  2: { split; [done|]. unfold zlen in Hh. by rewrite Nat2Z.id, firstn_all in Hh. }
  eapply ct_bind; [by apply Hch|]. intros r. case_decide; [apply ct_ret; naive_solver lia|].
  eapply ct_bind; [by apply Hch|]. intros r'. apply ct_ret. intros s [? ?]. by split.
Qed.

(** ** Where the source and the patched file are *)
Section no_loss.
Context (source target : string) (f : File) (d tsha : bytes).
Hypothesis source_file : is_partition source = false.
Hypothesis target_file : is_partition target = false.
Hypothesis source_cache : source ≠ CACHE_TEMP_SOURCE.
Hypothesis target_cache : target ≠ CACHE_TEMP_SOURCE.
Let outname := (target ++ ".patch")%string.
Hypothesis out_source : outname ≠ source.
Hypothesis out_cache : outname ≠ CACHE_TEMP_SOURCE.
Hypothesis source_kept : ¬ expendable source.

Definition at_source (s : Sys D) : Prop := files s !! source = Some f.
Definition recoverable (s : Sys D) : Prop := at_source s ∨ holds CACHE_TEMP_SOURCE d s.
Definition installed (s : Sys D) : Prop := ∃ t, files s !! target = Some t ∧ SHA (f_data t) = tsha.

Lemma looks_at_source : looks_at (eq source) at_source.
Proof. intros s s' Hs. unfold at_source. by rewrite Hs. Qed.
Lemma looks_at_holds path c : looks_at (eq path) (holds path c).
Proof. intros s s' Hs (t & Ht & ?). exists t. split; [|done]. by rewrite <- Hs. Qed.
Lemma looks_at_recoverable : looks_at (λ p, p = source ∨ p = CACHE_TEMP_SOURCE) recoverable.
Proof.
  intros s s' Hs [Ha|Hc].
  - left. eapply looks_at_source; [|exact Ha]. intros p <-. auto.
  - right. eapply looks_at_holds; [|exact Hc]. intros p <-. auto.
Qed.

(** Backing up keeps the source where it is. *)
Lemma back_up_ok file : data file = Some d → size file = zlen d →
  ctriple at_source (back_up file)
    (λ ok s, at_source s ∧ (ok = true → holds CACHE_TEMP_SOURCE d s)) at_source.
Proof.
  intros Hd Hn. unfold back_up.
  eapply ct_bind; [apply (make_free_space_keeps (eq source)); [apply looks_at_source|by intros p <-]|].
  intros r. cbn beta. case_decide; [apply ct_ret; naive_solver|].
  eapply ct_bind; [apply (SaveFileContents_ok (eq source)); [apply looks_at_source|done..]|].
  intros r'. apply ct_ret. intros s [? Hr]. split; [done|]. intros Hb. apply Hr.
  case_bool_decide; naive_solver.
Qed.

Lemma make_room_ok file good fs tsize retry made : (good = true → data file = Some d ∧ size file = zlen d) →
  ctriple at_source (make_room file good source target fs tsize retry made)
    (λ r s, recoverable s ∧ ∀ retry' made', r = Some (retry', made') →
       (retry' = 0 ∨ retry' = retry ∧ at_source s)) recoverable.
Proof.
  intros Hgood. unfold make_room. rewrite target_file.
  assert (∀ s, at_source s → recoverable s) as Hrec by (by left).
  eapply ct_bind with (Q' := λ _, at_source).
  { eapply ct_conseq with (P' := at_source) (R' := at_source); [|done|by intros ? ? Hx; exact Hx|done].
    apply keeps_decide; [|apply keeps_ret].
    apply keeps_bind; [|intro; apply keeps_ret].
    unfold FreeSpaceForFile, sys_statfs. keeps_tac. }
  intros enough. cbv zeta.
  destruct (negb enough && good)%bool eqn:Eg.
  2: { apply ct_ret. intros s Hs. split; [by apply Hrec|]. intros r' m' [= <- <-].
       destruct enough; [by right|by left]. }
  apply andb_true_iff in Eg as [_ Eg]. destruct (Hgood Eg) as [Hd Hn].
  rewrite source_file.
  eapply ct_bind; [eapply ct_conseq; [apply (back_up_ok file Hd Hn)|done|by intros ? ? Hx; exact Hx|done]|].
  intros ok. destruct ok; cbn [negb]; [|apply ct_ret; intros s [? _]; split; [by apply Hrec|done]].
  assert (∀ A (m : io D A), keeps (holds CACHE_TEMP_SOURCE d) m →
    ctriple (λ s, at_source s ∧ (true = true → holds CACHE_TEMP_SOURCE d s)) m
      (λ _, holds CACHE_TEMP_SOURCE d) recoverable) as Hheld.
  { intros A m Hm. eapply ct_conseq; [exact Hm|naive_solver|done|by right]. }
  eapply ct_bind; [apply Hheld; apply (keeps_unlink (eq CACHE_TEMP_SOURCE));
    [apply looks_at_holds|naive_solver]|].
  intros ?. eapply ct_bind with (Q' := λ _, holds CACHE_TEMP_SOURCE d).
  { eapply ct_conseq with (R' := holds CACHE_TEMP_SOURCE d); [|done|by intros ? ? Hx; exact Hx|by right].
    unfold FreeSpaceForFile, sys_statfs. keeps_tac. }
  intros _. apply ct_ret. intros s Hs. split; [by right|]. intros r' m' [= <- <-]. by left.
Qed.
End no_loss.

(** ** The output *)

(** A patch that is not in the image format. *)
Definition plain_patch (p : PatchValue) : Prop := ¬ (8 ≤ zlen (pv_data p) ∧ memcmp (take 8 (pv_data p)) IMGDIFF_MAGIC = 0).

Section output.
Context (X : string → Prop) (K : Sys D → Prop) (target : string).
Hypothesis HK : looks_at X K.
Hypothesis target_file : is_partition target = false.
Let outname := (target ++ ".patch")%string.
Hypothesis Hout : ¬ X outname.

(** The output file has the bytes the digest was made of. *)
Definition patched (ctx : SHA_CTX) (s : Sys D) : Prop :=
  ∃ t, files s !! outname = Some t ∧ SHA_final ctx = SHA (f_data t).

Lemma run_patch_ok old p tsize bonus : plain_patch p →
  ctriple K (run_patch fresh heap fuel old p target tsize bonus)
    (λ r s, K s ∧ ∀ res ctx o, r = Some (res, ctx, o) →
       o = FileOutput outname ∧ (res = 0 → patched ctx s)) K.
Proof.
  intros Hplain. unfold run_patch. destruct (pv_blob p); cbn [negb]; [|apply ct_ret; naive_solver].
  eapply ct_bind; [apply keeps_lift|]. intros old'. rewrite target_file. fold outname.
  eapply ct_bind; [by apply (creat_ok X K)|]. intros ok. destruct ok; cbn [negb]; [|apply ct_ret; naive_solver].
  eapply ct_bind with (Q' := λ a s, K s ∧ ∀ ctx, a = (Some 0, ctx) → patched ctx s).
  2: { intros [res ctx]. apply ct_ret. intros s [? Hpt]. split; [done|].
       intros res' ctx' o E. destruct res as [res|]; [|done]. injection E as <- <- <-.
       split; [done|]. intros ->. by apply Hpt. }
  intros s cs [HKs Hh]. specialize (Hh eq_refl). unfold with_file_sink, apply_format.
  destruct (decide (8 ≤ zlen (pv_data p) ∧ memcmp (take 8 (pv_data p)) BSDIFF_MAGIC = 0)).
  2: { rewrite decide_False by exact Hplain. cbn. split; [done|]. done. }
  unfold ApplyBSDiffPatch.
  destruct (ApplyBSDiffPatchMem fresh heap fuel old' (pv_data p) 0) as [[r new]| |]; [|done|done].
  cbn [mbind run_bind]. case_decide; [cbn; split; [done|]; intros ctx [=]|].
  unfold file_sink. pose proof (FileSink_ok X K outname HK Hout new [] s cs (conj HKs Hh)) as Hsink.
  cbn [app] in Hsink. destruct (FileSink outname new s cs) as [w s' cs'|s'| |]; [| | |].
  - destruct Hsink as (HK' & Hw & t & Ht & Hdt). case_decide; [cbn; split; [done|]; intros ctx [=]|].
    cbn. split; [done|]. intros ctx [= <-]. exists t. split; [done|]. rewrite Hdt.
    assert (w = zlen new) as -> by lia. unfold zlen. by rewrite Nat2Z.id, firstn_all.
  - case_decide; cbn; done.
  - case_decide; cbn; done.
  - case_decide; cbn; done.
Qed.
End output.

Section generate.
Context (source target : string) (f : File) (d tsha : bytes).
Hypothesis source_file : is_partition source = false.
Hypothesis target_file : is_partition target = false.
Hypothesis source_cache : source ≠ CACHE_TEMP_SOURCE.
Hypothesis target_cache : target ≠ CACHE_TEMP_SOURCE.
Hypothesis out_source : (target ++ ".patch")%string ≠ source.
Hypothesis out_cache : (target ++ ".patch")%string ≠ CACHE_TEMP_SOURCE.
Hypothesis source_kept : ¬ expendable source.
Hypothesis tsha_size : zlen tsha = SHA_DIGEST_SIZE.

Lemma attempts_ok n sf cf sp cp fs tsize bonus retry made :
  (is_Some sp → data sf = Some d ∧ size sf = zlen d) →
  (∀ p, sp = Some p ∨ cp = Some p → plain_patch p) → retry = 0 ∨ retry = 1 →
  ctriple (at_source source f)
    (attempts fresh heap fuel n sf cf sp cp source target fs tsize bonus retry made)
    (λ r s, recoverable source f d s ∧ ∀ ctx o m, r = Some (ctx, o, m) →
       o = FileOutput (target ++ ".patch") ∧ patched target ctx s) (recoverable source f d).
Proof.
  intros Hsf Hplain. revert retry made. induction n as [|n IH]; intros retry made Hretry; [by intros s cs|].
  cbn [attempts]. eapply ct_bind.
  { apply (make_room_ok source target f d); try done.
    intros Hg%bool_decide_eq_true_1. by apply Hsf. }
  intros [[retry' made']|]; [|apply ct_ret; intros s Hs; split; [tauto|done]].
  set (K := λ s, recoverable source f d s ∧ (retry' = 0 ∨ retry' = retry ∧ at_source source f s)).
  eapply ct_conseq with (P' := K) (R' := recoverable source f d);
    [|intros s [? Hr]; split; [done|by apply (Hr retry' made')]|by intros ? ? Hx; exact Hx|done].
  assert (looks_at (λ p, p = source ∨ p = CACHE_TEMP_SOURCE) K) as HK.
  { intros s s' Hs [Hr Hc]. split; [by eapply looks_at_recoverable|].
    destruct Hc as [?|[? Ha]]; [by left|right]. split; [done|].
    eapply looks_at_source; [|exact Ha]. intros p <-. auto. }
  assert (∀ s, K s → recoverable source f d s) as HKR by (by intros s []).
  set (sel := match sp with Some p => (sf, Some p) | None => (cf, cp) end).
  assert (∀ p, sel.2 = Some p → plain_patch p) as Hpl.
  { unfold sel. destruct sp; simpl; intros p' E; apply Hplain; auto. }
  destruct sel as [use patch] eqn:Esel.
  eapply ct_bind with (Q' := λ p s, K s ∧ patch = Some p).
  { apply ct_lift. intros a s Ha Hs. split; [done|]. by destruct patch; simplify_eq/=. }
  intros p. apply ct_split. intros ->.
  eapply ct_bind; [eapply ct_conseq;
    [apply (run_patch_ok _ K target HK target_file)|done|by intros ? ? Hx; exact Hx|exact HKR]|].
  { by intros [?|?]. } { by apply Hpl. }
  intros [[[res ctx] o]|]; [|apply ct_ret; intros s Hs; split; [apply HKR; tauto|done]].
  eapply ct_conseq with (R' := recoverable source f d)
    (P' := λ s, K s ∧ (o = FileOutput (target ++ ".patch") ∧ (res = 0 → patched target ctx s)));
    [|intros s [HKs Hr]; split; [done|by eapply Hr]|by intros ? ? Hx; exact Hx|done].
  case_decide;
    [apply ct_ret; intros s (? & -> & ?); split; [by apply HKR|intros ? ? ? [= <- <- <-]; auto]|]. case_decide as Hr0;
    [apply ct_ret; intros s [? _]; split; [by apply HKR|done]|].
  eapply ct_conseq with (R' := recoverable source f d)
    (P' := λ s, K s ∧ o = FileOutput (target ++ ".patch"));
    [|by intros s (? & ? & _)|by intros ? ? Hx; exact Hx|done].
  apply ct_split. intros ->.
  eapply ct_bind; [eapply ct_conseq;
    [apply (keeps_unlink _ K HK); by intros [?|?]|done|by intros ? ? Hx; exact Hx|exact HKR]|].
  intros u. cbn beta. case_decide; [|intros s cs [_ [?|[? _]]]; lia].
  eapply ct_conseq with (P' := λ s, at_source source f s ∧ retry' = retry)
    (R' := recoverable source f d); [| |by intros ? ? Hx; exact Hx|done].
  - apply ct_split. intros ->. apply IH. lia.
  - by intros s [_ [?|[? ?]]].
Qed.

(** The output file of a patch that gave the target. *)
Definition ready (s : Sys D) : Prop :=
  ∃ t, files s !! (target ++ ".patch")%string = Some t ∧ SHA (f_data t) = tsha.

Lemma install_ok K use : looks_at (λ p, p = source ∨ p = CACHE_TEMP_SOURCE) K →
  ctriple (λ s, K s ∧ ready s) (install_target use target (FileOutput (target ++ ".patch")))
    (λ ok s, if (ok : bool) then installed target tsha s else K s)
    (λ s, K s ∨ installed target tsha s).
Proof.
  intros HK. unfold install_target.
  assert (∀ g : File → File, (∀ t, f_data (g t) = f_data t) →
    keeps (λ s, K s ∧ ready s) (sys_change (target ++ ".patch") g)) as Hch.
  { intros g Hg. unfold sys_change. keeps_tac. apply keeps_update. intros s [HKs (t & Ht & Hdt)]. split.
    - revert s HKs Ht. intros s HKs _. revert s HKs. apply (looks_at_update (λ p, p = source ∨ p = CACHE_TEMP_SOURCE) K); [done|].
      intros fs p Hx. apply lookup_alter_ne. naive_solver.
    - unfold ready. rewrite files_set_files, lookup_alter_eq, Ht. eexists. split; [done|].
      by rewrite Hg. }
  eapply ct_bind; [eapply ct_conseq; [by apply Hch|done|by intros ? ? Hx; exact Hx|naive_solver]|].
  intros r. case_decide; [apply ct_ret; naive_solver|].
  eapply ct_bind; [eapply ct_conseq; [by apply Hch|done|by intros ? ? Hx; exact Hx|naive_solver]|].
  intros r'. case_decide; [apply ct_ret; naive_solver|].
  unfold sys_rename.
  eapply ct_bind with (Q' := λ r s, if decide (r = 0) then installed target tsha s else K s).
  2: { intros r2. apply ct_ret. intros s. case_decide; case_bool_decide; done. }
  eapply ct_bind; [apply (ct_choose _ (λ _ s, K s ∧ ready s)); [naive_solver|done]|]. intros c.
  eapply ct_bind with (Q' := λ o s, (K s ∧ ready s) ∧ o = files s !! (target ++ ".patch")%string).
  { by apply ct_read. }
  intros [t|]; [|apply ct_ret; intros s [[? _] _]; done].
  case_decide; [apply ct_ret; intros s [[? _] _]; done|].
  eapply ct_bind with (Q' := λ _, installed target tsha); [|intro; by apply ct_ret].
  apply ct_update. intros s [[_ (t' & Ht & Hdt)] E]. exists t. rewrite files_set_files.
  rewrite lookup_insert_eq. split; [done|]. congruence.
Qed.

Lemma GenerateTarget_ok sf cf sp cp tsize bonus :
  (is_Some sp → data sf = Some d ∧ size sf = zlen d) →
  (∀ p, sp = Some p ∨ cp = Some p → plain_patch p) →
  ctriple (at_source source f)
    (GenerateTarget fresh heap fuel sf sp cf cp source target tsha tsize bonus)
    (λ r s, (r = 0 → installed target tsha s) ∧
       (recoverable source f d s ∨ installed target tsha s))
    (λ s, recoverable source f d s ∨ installed target tsha s).
Proof.
  intros Hsf Hplain. unfold GenerateTarget.
  assert (∀ s, at_source source f s → recoverable source f d s ∨ installed target tsha s) as Hrec
    by (left; by left).
  eapply ct_bind; [eapply ct_conseq; [apply keeps_lift|done|by intros ? ? Hx; exact Hx|exact Hrec]|].
  intros fs. eapply ct_bind; [eapply ct_conseq; [apply (attempts_ok 2); auto|done|
    by intros ? ? Hx; exact Hx|by left]|].
  intros [[[ctx o] made]|]; [|apply ct_ret; naive_solver].
  eapply ct_conseq with (P' := λ s, (recoverable source f d s ∧ patched target ctx s) ∧
    o = FileOutput (target ++ ".patch"))
    (R' := λ s, recoverable source f d s ∨ installed target tsha s); [|naive_solver|by intros ? ? Hx; exact Hx|done].
  apply ct_split. intros ->. case_decide as Hm; [apply ct_ret; naive_solver|].
  assert (SHA_final ctx = tsha) as Hsha.
  { apply memcmp_eq; [|by destruct (decide (memcmp (SHA_final ctx) tsha = 0))].
    by rewrite SHA_size, tsha_size. }
  eapply ct_bind; [eapply ct_conseq; [apply (install_ok (recoverable source f d)),
    looks_at_recoverable| |by intros ? ? Hx; exact Hx|done]|].
  { intros s [? (t & Ht & E)]. split; [done|]. exists t. split; [done|]. congruence. }
  intros ok. destruct ok; cbn [negb]; [|apply ct_ret; naive_solver].
  eapply ct_bind with (Q' := λ _, installed target tsha).
  { eapply ct_conseq with (P' := installed target tsha) (R' := installed target tsha);
      [|done|by intros ? ? Hx; exact Hx|by right].
    destruct made; [|apply keeps_ret]. apply (keeps_unlink (eq target)); [|done].
    intros s s' Hs (t & Ht & ?). exists t. split; [|done]. by rewrite <- Hs. }
  intros _. apply ct_ret. naive_solver.
Qed.
End generate.

Lemma parse_digits_length n str digest rest :
  parse_digits n str = Some (digest, rest) → length digest = n.
Proof.
  revert str digest. induction n as [|n IH]; intros str digest; [by intros [= <- _]|].
  destruct str as [|c1 [|c2 str]]; [done..|]. cbn [parse_digits].
  destruct (hex_digit c1); [|done]. destruct (hex_digit c2); [|done]. cbn [mbind option_bind].
  destruct (parse_digits n str) as [[dg rs]|] eqn:E; [|done]. intros [= <- <-]. simpl. f_equal. by eapply IH.
Qed.
Lemma ParseSha1_size str digest : ParseSha1 str = Some digest → zlen digest = SHA_DIGEST_SIZE.
Proof.
  unfold ParseSha1. destruct (parse_digits _ str) as [[dg rs]|] eqn:E; [|done].
  cbn [mbind option_bind]. case_decide; [|done]. intros [= <-].
  apply parse_digits_length in E. unfold zlen. rewrite E. done.
Qed.

Lemma choose_patch_ok file strs ps (K : Sys D → Prop) :
  Forall plain_patch ps →
  ctriple K (choose_patch (D := D) file strs ps) (λ r s, K s ∧ ∀ p, r = Some p → plain_patch p) K.
Proof.
  intros Hps. unfold choose_patch. case_decide; [|by apply ct_ret].
  eapply ct_bind with (Q' := λ p s, K s ∧ plain_patch p).
  - apply ct_lift. intros p s E Hs. split; [done|]. unfold access, znth in E.
    case_decide; [|done]. destruct (ps !! _) eqn:El; [|done]. simplify_eq.
    rewrite Forall_lookup in Hps. by eapply Hps.
  - intros p. apply ct_split. intros Hp. apply ct_ret. intros s Hs. split; [done|]. by intros ? [= <-].
Qed.

(** The target file has the digest: its bytes, or its masked bytes. *)
Definition target_has (target : string) (tsha : bytes) (s : Sys D) : Prop :=
  ∃ t c, files s !! target = Some t ∧ (c = f_data t ∨ loaded_as t c) ∧ SHA c = tsha.

(** What [applypatch] does to a file, for its property and for the scripts that call it. *)
Lemma applypatch_outcome source target0 tsha_str tsha tsize strs ps bonus s cs f d :
  let target := if decide (target0 = "-") then source else target0 in
  is_partition source = false → is_partition target = false →
  source ≠ CACHE_TEMP_SOURCE → target ≠ CACHE_TEMP_SOURCE →
  (target ++ ".patch")%string ≠ source → (target ++ ".patch")%string ≠ CACHE_TEMP_SOURCE →
  ¬ expendable source →
  files s !! source = Some f →
  retouch_mask_data (f_data f) (Some 0) = Done (RETOUCH_DATA_MATCHED, d, 0) →
  ParseSha1 tsha_str = Some tsha → Forall plain_patch ps →
  match applypatch fresh heap fuel source target0 tsha_str tsize strs ps bonus s cs with
  | Ret r s' _ => (r = 0 → target_has target tsha s') ∧
      (at_source source f s' ∨ holds CACHE_TEMP_SOURCE d s' ∨ installed target tsha s')
  | Stop s' => at_source source f s' ∨ holds CACHE_TEMP_SOURCE d s' ∨ installed target tsha s'
  | Crashed | Hung => True
  end.
Proof.
  intros target Hps Hpt Hsc Htc Hos Hoc Hexp Hf Hd Hsha Hplain.
  set (R := λ s, recoverable source f d s ∨ installed target tsha s).
  enough (ctriple (eq s) (applypatch fresh heap fuel source target0 tsha_str tsize strs ps bonus)
    (λ r s', (r = 0 → target_has target tsha s') ∧ R s') R) as Hmain.
  { specialize (Hmain s cs eq_refl). unfold R, recoverable in Hmain.
    destruct (applypatch _ _ _ _ _ _ _ _ _ _ _ _) as [r s' cs'|s'| |]; tauto. }
  assert (∀ s', s = s' → R s') as HR by (intros s' <-; left; by left).
  assert (∀ t, t = source → ∀ t' c, files s !! t = Some t' → loaded_as t' c → c = d) as Hload.
  { intros t -> t' c E (o & Hm). rewrite Hf in E. injection E as <-. rewrite Hd in Hm.
    by injection Hm as <- _. }
  assert (∀ r s', (r = 0 → installed target tsha s') ∧ (recoverable source f d s' ∨ installed target tsha s') →
    (r = 0 → target_has target tsha s') ∧ R s') as Hpost.
  { intros r s' [Hi Hr]. split; [|done]. intros ->. destruct (Hi eq_refl) as (t & Ht & E).
    exists t, (f_data t). auto. }
  unfold applypatch. fold target. rewrite Hsha.
  eapply ct_bind; [eapply ct_conseq; [apply (LoadFileContents_spec target _ s Hpt)|done|
    by intros ? ? Hx; exact Hx|exact HR]|].
  intros [r tf]. apply ct_split. intros Htf. case_decide as Hdone.
  { apply ct_ret. intros s' <-. split; [|by apply HR]. intros _.
    destruct Htf as [(_ & t & c & Ht & Hl & _ & _ & E)|[? _]]; [|lia].
    exists t, c. split; [done|]. split; [by right|]. rewrite <- E.
    apply memcmp_eq; [|tauto]. rewrite E, (ParseSha1_size _ _ Hsha). unfold SHA. apply SHA_size. }
  eapply ct_bind with (Q' := λ sf s', s = s' ∧ ∀ x, data sf = Some x → x = d ∧ size sf = zlen d).
  { case_decide as Hre.
    - eapply ct_bind; [eapply ct_conseq; [apply (LoadFileContents_spec source _ s Hps)|done|
        by intros ? ? Hx; exact Hx|exact HR]|].
      intros [r' sf]. apply ct_split. intros Hsf. apply ct_ret. intros s' <-. split; [done|].
      intros x Hx. destruct Hsf as [(_ & t & c & Ht & Hl & Hdt & Hsz & _)|[_ Hn]]; [|congruence].
      rewrite Hdt in Hx. injection Hx as <-.
      assert (c = d) as -> by (by eapply Hload). done.
    - apply ct_ret. intros s' <-. split; [done|]. intros x Hx.
      destruct Htf as [(_ & t & c & Ht & Hl & Hdt & Hsz & _)|[_ Hn]]; [|congruence].
      rewrite Hdt in Hx. injection Hx as <-.
      assert (c = d) as ->; [|done]. eapply (Hload target); [|done..].
      destruct (decide (target = source)); [done|]. exfalso. apply Hre. by right. }
  intros sf. apply ct_split. intros Hsf.
  eapply ct_bind with (Q' := λ sp s', s = s' ∧ ((is_Some sp → is_Some (data sf)) ∧ ∀ p, sp = Some p → plain_patch p)).
  { destruct (data sf) as [x|]; [|apply ct_ret; intros s' <-; split; [done|]; split; [by intros []|done]].
    eapply ct_conseq; [apply (choose_patch_ok sf strs ps (eq s) Hplain)|done| |exact HR].
    intros sp s' [<- Hp]. split; [done|]. split; [|done]. intros _. by exists x. }
  assert (∀ s', s = s' → at_source source f s') as Hat by (by intros s' <-).
  intros sp. apply ct_split. intros [Hsp Hpp]. destruct sp as [p|].
  - eapply ct_conseq; [apply (GenerateTarget_ok source target f d tsha); try done| |apply Hpost|done].
    + by eapply ParseSha1_size.
    + intros _. destruct (Hsp (mk_is_Some _ p eq_refl)) as [x Hx]. rewrite Hx.
      destruct (Hsf x Hx) as [-> ->]. done.
    + intros p' [E|E]; [by apply Hpp|done].
    + exact Hat.
  - eapply ct_bind; [eapply ct_conseq; [apply (LoadFileContents_keeps CACHE_TEMP_SOURCE _ _ (eq s)); done|
      done|by intros ? ? Hx; exact Hx|exact HR]|].
    intros [r2 cf]. cbn beta. case_decide; [apply ct_ret; intros s' <-; split; [lia|by apply HR]|].
    eapply ct_bind; [eapply ct_conseq; [apply (choose_patch_ok cf strs ps (eq s) Hplain)|done|
      by intros ? ? Hx; exact Hx|exact HR]|].
    intros [p|]; cbn beta iota; [|apply ct_ret; intros s' [<- _]; split; [lia|by apply HR]].
    apply ct_split. intros Hcp.
    eapply ct_conseq; [apply (GenerateTarget_ok source target f d tsha); try done| |apply Hpost|done].
    + by eapply ParseSha1_size.
    + intros p' [E|E]; [done|by apply Hcp].
    + exact Hat.
Qed.

(** C2: Patching a regular file loses nothing and lies about nothing.  Let source and target be files, not
    partitions, the source outside the expendable directories, and let it load as [d]; no patch is in the image format
    (for which a returned 0 may be wrong: see [normal_chunk_failure_ignored]).  However the
    system calls fail, in every run that ends or is interrupted: the source file is
    untouched, or the saved copy in /cache holds [d], or the target file is in
    place with exactly the target digest; and when [applypatch] returns 0 the
    target file has the target digest.  Nothing is said of a run that a malformed patch makes crash or hang. *)
Theorem applypatch_loses_nothing source target0 tsha_str tsha tsize strs ps bonus s cs f d :
  let target := if decide (target0 = "-") then source else target0 in
  is_partition source = false → is_partition target = false →
  source ≠ CACHE_TEMP_SOURCE → target ≠ CACHE_TEMP_SOURCE →
  (target ++ ".patch")%string ≠ source → (target ++ ".patch")%string ≠ CACHE_TEMP_SOURCE →
  ¬ expendable source →
  files s !! source = Some f →
  retouch_mask_data (f_data f) (Some 0) = Done (RETOUCH_DATA_MATCHED, d, 0) →
  ParseSha1 tsha_str = Some tsha → Forall plain_patch ps →
  match applypatch fresh heap fuel source target0 tsha_str tsize strs ps bonus s cs with
  | Ret r s' _ => (r = 0 → target_has target tsha s') ∧
      (at_source source f s' ∨ holds CACHE_TEMP_SOURCE d s' ∨ installed target tsha s')
  | Stop s' => at_source source f s' ∨ holds CACHE_TEMP_SOURCE d s' ∨ installed target tsha s'
  | Crashed | Hung => True
  end.
Proof. apply applypatch_outcome. Qed.

(** C38: [applypatch] is idempotent: when the target file is there and already has
    the target digest, and can be read, it returns 0 and changes nothing,
    whatever the patches are. *)
Theorem already_patched source target tsha_str tsha tsize strs ps bonus s f c o c1 c2 c3 cs :
  target ≠ "-" → is_partition target = false →
  ParseSha1 tsha_str = Some tsha → files s !! target = Some f →
  retouch_mask_data (f_data f) (Some 0) = Done (RETOUCH_DATA_MATCHED, c, o) → SHA c = tsha →
  c1 ≠ 0 → c2 ≠ 0 → zlen (f_data f) ≤ c3 →
  applypatch fresh heap fuel source target tsha_str tsize strs ps bonus s (c1 :: c2 :: c3 :: cs) =
    Ret 0 s cs.
Proof.
  intros Hd Hp Hs Hf Hm Hc H1' H2' H3'. unfold applypatch. rewrite decide_False, Hs by done.
  unfold LoadFileContents. rewrite Hp. unfold sys_stat, sys_read, mbind, io_bind, choose, read_sys.
  rewrite !Hf. rewrite (decide_False (P := c1 = 0)), (decide_False (P := c2 = 0)) by done.
  cbn [size]. rewrite ?Hf. pose proof (zlen_nonneg (f_data f)). cbn [f_data].
  replace (Z.to_nat (Z.min (Z.max 0 c3) (zlen (f_data f)))) with (length (f_data f))
    by (unfold zlen in *; lia).
  unfold mret, io_ret. rewrite firstn_all. rewrite decide_False by (intros Hx; by apply Hx).
  unfold mask_contents, lift, mbind, io_bind. rewrite decide_True, Hm by done.
  rewrite decide_False by (intros Hx; by apply Hx). unfold mret, io_ret. cbn [sha1].
  rewrite Hc, memcmp_refl. by rewrite decide_True.
Qed.

Lemma find_matching_sound i sha strs : 0 ≤ i →
  find_matching i sha strs < 0 ∨ ∃ str digest, str ∈ strs ∧ ParseSha1 str = Some digest ∧
    memcmp digest sha = 0.
Proof.
  clear heap fuel fresh.
  revert i. induction strs as [|str strs IH]; intros i Hi; [left; simpl; lia|].
  cbn [find_matching]. destruct (ParseSha1 str) as [dg|] eqn:E.
  - case_decide; [right; exists str, dg; split; [by left|done]|].
    destruct (IH (i + 1) ltac:(lia)) as [?|(x & y & Hx & ?)]; [by left|right].
    exists x, y. split; [by right|done].
  - destruct (IH (i + 1) ltac:(lia)) as [?|(x & y & Hx & ?)]; [by left|right].
    exists x, y. split; [by right|done].
Qed.

(** The file at [path] loads with a digest of the list. *)
Definition acceptable (strs : list string) (path : string) (s : Sys D) : Prop :=
  ∃ t c str, files s !! path = Some t ∧ loaded_as t c ∧ str ∈ strs ∧ ParseSha1 str = Some (SHA c).

Lemma matching_acceptable strs path s t c :
  files s !! path = Some t → loaded_as t c → ¬ FindMatchingPatch (SHA c) strs < 0 →
  acceptable strs path s.
Proof.
  clear heap fuel fresh. intros Ht Hl Hm. destruct (find_matching_sound 0 (SHA c) strs ltac:(lia)) as
    [?|(str & dg & Hin & Hp & Hd)]; [done|].
  exists t, c, str. split_and!; [done|done|done|]. rewrite Hp. f_equal.
  apply memcmp_eq; [|done]. rewrite (ParseSha1_size _ _ Hp). symmetry. unfold SHA. apply SHA_size.
Qed.

(** C39: [applypatch_check] accepts only what [applypatch] can use: it changes
    nothing, and when it returns 0 the file loads with one of the digests, or no
    digest was given and the file loads, or the saved copy has one of the
    digests. *)
Theorem check_accepts filename strs s cs : is_partition filename = false →
  match applypatch_check fresh filename strs s cs with
  | Ret r s' _ => s' = s ∧ (r = 0 → acceptable strs filename s ∨ acceptable strs CACHE_TEMP_SOURCE s ∨
      (strs = [] ∧ ∃ t c, files s !! filename = Some t ∧ loaded_as t c))
  | Stop s' => s' = s
  | Crashed | Hung => True
  end.
Proof.
  clear heap fuel. intros Hp. set (good := acceptable strs filename s ∨ acceptable strs CACHE_TEMP_SOURCE s ∨
      (strs = [] ∧ ∃ t c, files s !! filename = Some t ∧ loaded_as t c)).
  enough (ctriple (eq s) (applypatch_check fresh filename strs)
    (λ r s', s = s' ∧ (r = 0 → good)) (eq s)) as Hc.
  { specialize (Hc s cs eq_refl). destruct (applypatch_check _ _ _ _ _); naive_solver. }
  unfold applypatch_check. eapply ct_bind; [apply (LoadFileContents_spec filename _ s Hp)|].
  intros [r tf]. apply ct_split. intros Htf. case_decide as Hd.
  - unfold check_cache. eapply ct_bind; [by apply (LoadFileContents_spec CACHE_TEMP_SOURCE _ s)|].
    intros [r2 cf]. apply ct_split. intros Hcf. case_decide; [by apply ct_ret|].
    apply ct_ret. intros s' <-. split; [done|]. case_decide as Hm; [done|]. intros _. right. left.
    destruct Hcf as [(_ & t & c & Ht & Hl & _ & _ & E)|[-> _]]; [|done].
    rewrite E in Hm. by eapply matching_acceptable.
  - apply ct_ret. intros s' <-. split; [done|]. intros _. unfold good.
    destruct Htf as [(-> & t & c & Ht & Hl & _ & _ & E)|[-> _]]; [|exfalso; apply Hd; by left].
    destruct (decide (strs = [])) as [->|Hne]; [right; right; eauto|]. left.
    rewrite E in Hd. eapply matching_acceptable; [done|done|].
    intros Hm. apply Hd. by right.
Qed.

(** A retried partition update destroys the only good source.  When the
    partition holds neither the source nor the target (its write was interrupted)
    the source is read from the saved copy; but [GenerateTarget] then "backs up"
    the source that could not be loaded over that copy: the copy is emptied and
    the function fails. *)
Lemma partition_retry_loses_copy sf cf cp source target tsha tsize bonus s cs c cs' :
  is_partition target = true → data sf = None → size sf ≠ 0 →
  make_free_space (size_t (size sf)) s cs = Ret 0 s (c :: cs') → c ≠ 0 →
  ∃ s', GenerateTarget fresh heap fuel sf None cf cp source target tsha tsize bonus s cs = Ret 1 s' cs' ∧
    holds CACHE_TEMP_SOURCE [] s'.
Proof.
  intros Hp Hd Hn Hroom Hc. unfold GenerateTarget. destruct target as [|ch target]; [done|].
  set (tgt := String ch target) in *. unfold target_fs, lift.
  cbn [attempts]. unfold make_room. rewrite Hp. unfold back_up, SaveFileContents.
  unfold mbind, io_bind. subst tgt. cbn beta iota. rewrite Hroom. cbn beta iota.
  rewrite decide_False by lia. unfold sys_creat, mbind, io_bind, choose, update_sys. cbn beta iota.
  rewrite decide_False by done. unfold mret, io_ret. rewrite Hd.
  eexists. cbn [negb]. cbn beta iota. rewrite decide_True by done. split; [done|].
  unfold holds. rewrite files_set_files, lookup_partial_alter_eq. eexists. split; [done|].
  by destruct (files s !! CACHE_TEMP_SOURCE).
Qed.

(** A partition name without a size and a digest is reported as bad, but the
    function goes on: it takes the last element of an empty array. *)
Lemma partition_name_without_sizes_crashes filename file partition rest s c cs :
  strtok filename = ["EMMC"; partition] → count_colons filename < 3 →
  emmc s !! partition = Some rest → c ≠ 0 →
  LoadPartitionContents filename file s (c :: cs) = Crashed.
Proof.
  intros Ht Hn He Hc. unfold LoadPartitionContents. rewrite Ht.
  assert ((count_colons filename - 1) / 2 < 1) as Hq by (apply Z.div_lt_upper_bound; lia).
  replace (Z.to_nat ((count_colons filename - 1) / 2)) with 0%nat by lia.
  unfold open_partition, lift, mbind, io_bind, choose, read_sys.
  cbn [head tail access read_pairs].
  rewrite (decide_False (P := "EMMC" = "MTD")), (decide_True (P := "EMMC" = "EMMC")) by done.
  cbn beta iota. rewrite He. by rewrite (decide_False (P := c = 0)).
Qed.
End applypatch_lemmas.

(** * Runs on a small system

    The codecs that copy, and the checksum. *)
(** A cache partition with room: nothing is deleted. *)
#[export] Instance roomy_cache : CacheSpace unit.
Proof. refine {| make_free_space _ := mret 0 |}. intros. apply keeps_ret. Defined.

Definition src_data : bytes := bytes_of_string "old".
Definition tgt_data : bytes := bytes_of_string "new!".
Definition src_sha1 : string := sha1_text (SHA src_data).
Definition tgt_sha1 : string := sha1_text (SHA tgt_data).
Definition src_to_tgt : PatchValue :=
  mkPatchValue true (patch_file [(3, 1, 0)]
    (zip_with (λ x y, u8 (x - y)) tgt_data src_data) [33] 4).
Definition system_example : Sys unit := {|
  files := {[ "/system/a" := mkFile src_data 420 1 2 ]};
  emmc := {[ "/dev/boot" := bytes_of_string "???????" ]};
  mtd := tt; mtd_partitions_scanned := false; listing := ∅; procs := []
|}.
Definition run_applypatch (source target : string) (s : Sys unit) (cs : list Z) :=
  applypatch (H := abi32) (λ _, 0) 100 100 source target tgt_sha1 4 [src_sha1] [src_to_tgt] None s cs.

(** With room, the target is made next to the source. *)
Example patched_in_place :
  match run_applypatch "/system/a" "-" system_example (replicate 20 1000000) with
  | Ret r s _ => r = 0 ∧ files s !! "/system/a" = Some (mkFile tgt_data 420 1 2)
  | _ => False
  end.
Proof. by vm_compute. Qed.

Lemma applypatch_loses_nothing_witness :
  match run_applypatch "/system/a" "-" system_example (replicate 20 1) with
  | Ret r s' _ => (r = 0 → target_has "/system/a" (SHA tgt_data) s') ∧
      (at_source "/system/a" (mkFile src_data 420 1 2) s' ∨
       holds CACHE_TEMP_SOURCE src_data s' ∨ installed "/system/a" (SHA tgt_data) s')
  | Stop s' => at_source "/system/a" (mkFile src_data 420 1 2) s' ∨
       holds CACHE_TEMP_SOURCE src_data s' ∨ installed "/system/a" (SHA tgt_data) s'
  | Crashed | Hung => True
  end.
Proof.
  apply (applypatch_loses_nothing (H := abi32) (λ _, 0) 100 100 "/system/a" "-" tgt_sha1
    (SHA tgt_data) 4 [src_sha1] [src_to_tgt] None system_example (replicate 20 1)
    (mkFile src_data 420 1 2) src_data); try (by vm_compute).
  - intros [_ (dir & name & Hd & E)]. apply elem_of_cons in Hd as [->|Hd]; [done|].
    by apply list_elem_of_singleton in Hd as ->.
  - constructor; [intros [_ Hm]; vm_compute in Hm; discriminate|constructor].
Defined.

Lemma already_patched_witness :
  run_applypatch "/x" "/system/a"
    (set_files (λ _, {[ "/system/a" := mkFile tgt_data 420 0 0 ]}) system_example) [1; 1; 4; 7] =
  Ret 0 (set_files (λ _, {[ "/system/a" := mkFile tgt_data 420 0 0 ]}) system_example) [7].
Proof.
  unfold run_applypatch.
  by apply (already_patched (H := abi32) (λ _, 0) 100 100 "/x" "/system/a" tgt_sha1 (SHA tgt_data)
    4 [src_sha1] [src_to_tgt] None _ (mkFile tgt_data 420 0 0) tgt_data 0 1 1 4 [7]); vm_compute.
Defined.

Lemma check_accepts_witness :
  match applypatch_check (H := abi32) (λ _, 0) "/system/a" [src_sha1] system_example [1; 1; 3] with
  | Ret r s' _ => s' = system_example ∧ (r = 0 →
      acceptable [src_sha1] "/system/a" system_example ∨
      acceptable [src_sha1] CACHE_TEMP_SOURCE system_example ∨
      ([src_sha1] = [] ∧ ∃ t c, files system_example !! "/system/a" = Some t ∧ loaded_as t c))
  | Stop s' => s' = system_example
  | Crashed | Hung => True
  end.
Proof. by apply (check_accepts (H := abi32) (λ _, 0) "/system/a" [src_sha1]). Defined.

(** The source of a patch to another file is deleted although the comment of
    [applypatch] says that it is not: when the target file system has little
    room, a successful run leaves the target, and neither the source nor its
    copy. *)
Lemma source_deleted_when_room_is_short :
  match run_applypatch "/system/a" "/system/b" system_example
          ([0; 1; 1; 3; 0] ++ replicate 20 5) with
  | Ret r s _ => r = 0 ∧ files s !! "/system/b" = Some (mkFile tgt_data 420 1 2) ∧
      files s !! "/system/a" = None ∧ files s !! CACHE_TEMP_SOURCE = None
  | _ => False
  end.
Proof. by vm_compute. Qed.

(** A boot partition whose write was interrupted, with the copy in place. *)
Definition interrupted_example : Sys unit :=
  set_files (λ _, {[ CACHE_TEMP_SOURCE := mkFile src_data 420 0 0 ]}) system_example.
Definition boot_name : string := "EMMC:/dev/boot:3:" ++ src_sha1 ++ ":4:" ++ tgt_sha1.
Definition bad_source : FileContents := mkFileContents [] None 4 0 0 0.

Example retry_of_boot_partition :
  match run_applypatch boot_name "-" interrupted_example (replicate 20 100) with
  | Ret r s _ => r = 1 ∧ files s !! CACHE_TEMP_SOURCE = Some (mkFile [] 420 0 0)
  | _ => False
  end.
Proof. by vm_compute. Qed.

Lemma partition_retry_loses_copy_witness :
  ∃ s', GenerateTarget (H := abi32) (λ _, 0) 100 100 bad_source None
      (mkFileContents (SHA src_data) (Some src_data) 3 420 0 0) (Some src_to_tgt)
      boot_name boot_name (SHA tgt_data) 4 None interrupted_example [1] = Ret 1 s' [] ∧
    holds CACHE_TEMP_SOURCE [] s'.
Proof.
  by apply (partition_retry_loses_copy (H := abi32) (λ _, 0) 100 100 bad_source _ _ boot_name
    boot_name (SHA tgt_data) 4 None interrupted_example [1] 1 []).
Defined.

Lemma partition_name_without_sizes_crashes_witness :
  LoadPartitionContents (H := abi32) "EMMC:/dev/boot" bad_source system_example [1] = Crashed.
Proof.
  by apply (partition_name_without_sizes_crashes (H := abi32) "EMMC:/dev/boot" bad_source
    "/dev/boot" (bytes_of_string "???????") system_example 1 []).
Defined.
