(* ===== verification/Hash.v ===== *)
(** The hash table of the zip reader: [minzip/Hash.c] and [minzip/Hash.h].

    Items are pointers the caller owns; they are compared with [=] where the code
    compares pointers.  A slot is empty (a null pointer), a tombstone
    ([HASH_TOMBSTONE]) or holds an item.  A failed assertion and [abort] end the
    program: both are [Fault]. *)
From S2P Require Import Prelude.

Definition LOAD_NUMER : Z := 5.
Definition LOAD_DENOM : Z := 8.

Definition mzHashSize `{Abi} (size : Z) : Z := size_t (size_t (size * LOAD_DENOM) / LOAD_NUMER + 1).

(** [val] is an [unsigned int]. *)
Definition roundUpPower2 (val : Z) : Z :=
  let val := u32 (val - 1) in
  let val := Z.lor val (Z.shiftr val 1) in
  let val := Z.lor val (Z.shiftr val 2) in
  let val := Z.lor val (Z.shiftr val 4) in
  let val := Z.lor val (Z.shiftr val 8) in
  let val := Z.lor val (Z.shiftr val 16) in
  u32 (val + 1).

Inductive Slot (A : Type) := Empty | Tombstone | Item (x : A).
Arguments Empty {A}. Arguments Tombstone {A}. Arguments Item {A} x.

Record HashEntry (A : Type) := mkHashEntry { hashValue : Z; edata : Slot A }.
Arguments mkHashEntry {A}. Arguments hashValue {A}. Arguments edata {A}.

Record HashTable (A : Type) := mkHashTable {
  tableSize : Z;
  numEntries : Z;
  numDeadEntries : Z;
  pEntries : list (HashEntry A)
}.
Arguments mkHashTable {A}. Arguments tableSize {A}. Arguments numEntries {A}.
Arguments numDeadEntries {A}. Arguments pEntries {A}.

Section hash.
Context {A : Type} `{EqDecision A}.
(** Whether [calloc] gives a block for [n] entries. *)
Context (calloc : Z → bool).

Definition is_empty (e : HashEntry A) : bool := match edata e with Empty => true | _ => false end.
Definition is_tombstone (e : HashEntry A) : bool :=
  match edata e with Tombstone => true | _ => false end.
Definition item (e : HashEntry A) : option A := match edata e with Item x => Some x | _ => None end.

Definition zeroed (n : Z) : list (HashEntry A) := replicate (Z.to_nat n) (mkHashEntry 0 Empty).

(** [None] when memory is short. *)
Definition mzHashTableCreate (initialSize : Z) : run (option (HashTable A)) :=
  if decide (0 < initialSize) then
    let tableSize := s32 (roundUpPower2 (u32 initialSize)) in
    Done (if calloc tableSize then Some (mkHashTable tableSize 0 0 (zeroed tableSize)) else None)
  else Fault.

(** The cleared table and the items the free function was called with. *)
Definition mzHashTableClear (t : HashTable A) : HashTable A * list A :=
  (mkHashTable (tableSize t) 0 0 (map (λ e, mkHashEntry (hashValue e) Empty) (pEntries t)),
   omap item (pEntries t)).
(** The items freed with the table. *)
Definition mzHashTableFree (t : HashTable A) : list A := (mzHashTableClear t).2.

Definition countTombStones (t : HashTable A) : Z := zlen (filter is_tombstone (pEntries t)).

Definition mzHashTableNumEntries (t : HashTable A) : Z := numEntries t.

(** The sizes of the two structures follow from the size of a pointer. *)
Definition sizeof_pointer `{Abi} : Z := long_bits / 8.
Definition sizeof_HashTable `{Abi} : Z := (if decide (long_bits = 32) then 12 else 16) + 2 * sizeof_pointer.
Definition sizeof_HashEntry `{Abi} : Z := 2 * sizeof_pointer.
Definition mzHashTableMemUsage `{Abi} (t : HashTable A) : Z :=
  s32 (size_t (sizeof_HashTable + size_t (tableSize t * sizeof_HashEntry))).

(** Writes the entry at an index. *)
Definition set_entry (es : list (HashEntry A)) (i : Z) (e : HashEntry A) : run (list (HashEntry A)) :=
  if decide (0 ≤ i < zlen es) then Done (<[Z.to_nat i := e]> es) else Fault.

(** The next slot of a probe, wrapping around; a table of one entry leaves the
    pointer behind its end. *)
Definition next_slot (size i : Z) : Z :=
  if decide (i + 1 = size) then (if decide (size = 1) then size else 0) else i + 1.

(** Probes from [i] until a slot is empty or [found].  In a table of one entry the
    probe also ends behind it. *)
Fixpoint probe (fuel : nat) (found : HashEntry A → bool) (size : Z) (es : list (HashEntry A))
    (i : Z) : run Z :=
  match fuel with
  | O => OutOfFuel
  | S fuel =>
      e ← access (znth es i);
      if is_empty e then Done i
      else if found e then Done i
      else if decide (i + 1 = size ∧ size = 1) then Done size
      else probe fuel found size es (next_slot size i)
  end.

(** Puts the items of the old table into the new one. *)
Fixpoint reinsert (old : list (HashEntry A)) (newSize : Z) (es : list (HashEntry A))
    : run (list (HashEntry A)) :=
  match old with
  | [] => Done es
  | e :: old =>
      match edata e with
      | Item x =>
          let hash := s32 (hashValue e) in
          i ← probe (Z.to_nat newSize) (λ _, false) newSize es (Z.land hash (newSize - 1));
          es ← set_entry es i (mkHashEntry (u32 hash) (Item x));
          reinsert old newSize es
      | _ => reinsert old newSize es
      end
  end.

(** The resized table, or [None] when memory is short. *)
Definition resizeHash (t : HashTable A) (newSize : Z) : run (option (HashTable A)) :=
  if decide (countTombStones t = numDeadEntries t) then
    if calloc newSize then
      es ← reinsert (pEntries t) newSize (zeroed newSize);
      let t := mkHashTable newSize (numEntries t) 0 es in
      if decide (countTombStones t = 0) then Done (Some t) else Fault
    else Done None
  else Fault.

(** What a lookup looks for. *)
Definition matches (cmpFunc : A → A → Z) (itemHash : Z) (x : A) (e : HashEntry A) : bool :=
  match edata e with
  | Item y => bool_decide (hashValue e = itemHash) && bool_decide (cmpFunc y x = 0)
  | _ => false
  end.

(** The result and the table. *)
Definition mzHashTableLookup (t : HashTable A) (itemHash : Z) (x : A) (cmpFunc : A → A → Z)
    (doAdd : bool) : run (option A * HashTable A) :=
  if decide (0 < tableSize t) then
    i ← probe (Z.to_nat (tableSize t)) (matches cmpFunc itemHash x) (tableSize t) (pEntries t)
          (Z.land itemHash (u32 (tableSize t - 1)));
    e ← access (znth (pEntries t) i);
    if is_empty e then
      if doAdd then
        es ← set_entry (pEntries t) i (mkHashEntry itemHash (Item x));
        let t := mkHashTable (tableSize t) (numEntries t + 1) (numDeadEntries t) es in
        t ← (if decide (s32 ((numEntries t + numDeadEntries t) * LOAD_DENOM)
                        > s32 (tableSize t * LOAD_NUMER)) then
               r ← resizeHash t (s32 (tableSize t * 2));
               match r with Some t => mret t | None => Fault end
             else mret t);
        if decide (numEntries t < tableSize t) then mret (Some x, t) else Fault
      else mret (None, t)
    else mret (item e, t)
  else Fault.

(** Whether the item was there, and the table. *)
Definition mzHashTableRemove (t : HashTable A) (itemHash : Z) (x : A) : run (bool * HashTable A) :=
  if decide (0 < tableSize t) then
    i ← probe (Z.to_nat (tableSize t))
          (λ e, match edata e with Item y => bool_decide (y = x) | _ => false end)
          (tableSize t) (pEntries t) (Z.land itemHash (u32 (tableSize t - 1)));
    if decide (i = tableSize t) then mret (false, t) else
    e ← access (znth (pEntries t) i);
    if is_empty e then mret (false, t) else
    es ← set_entry (pEntries t) i (mkHashEntry (hashValue e) Tombstone);
    mret (true, mkHashTable (tableSize t) (numEntries t - 1) (numDeadEntries t + 1) es)
  else Fault.

(** Runs [func] on the items until it gives a nonzero value; [arg] is what the
    function works on. *)
Section foreach.
Context {S : Type} (func : A → S → Z * S).
Fixpoint foreach_loop (es : list (HashEntry A)) (arg : S) : Z * S :=
  match es with
  | [] => (0, arg)
  | e :: es =>
      match edata e with
      | Item x =>
          let '(val, arg) := func x arg in
          if decide (val ≠ 0) then (val, arg) else foreach_loop es arg
      | _ => foreach_loop es arg
      end
  end.
Definition mzHashForeach (t : HashTable A) (arg : S) : Z * S := foreach_loop (pEntries t) arg.
End foreach.

(** ** Iterators *)

(** The first index from [i] on with an item, or the size. *)
Fixpoint iter_next (n : nat) (t : HashTable A) (i : Z) : run Z :=
  if decide (i < tableSize t) then
    match n with
    | O => OutOfFuel
    | Datatypes.S n =>
        e ← access (znth (pEntries t) i);
        if item e then Done i else iter_next n t (i + 1)
    end
  else Done i.
Definition mzHashIterNext (t : HashTable A) (idx : Z) : run Z :=
  iter_next (length (pEntries t)) t (idx + 1).
Definition mzHashIterBegin (t : HashTable A) : run Z := mzHashIterNext t (-1).
Definition mzHashIterDone (t : HashTable A) (idx : Z) : bool := bool_decide (tableSize t ≤ idx).
Definition mzHashIterData (t : HashTable A) (idx : Z) : run (Slot A) :=
  if decide (0 ≤ idx < tableSize t) then e ← access (znth (pEntries t) idx); mret (edata e) else Fault.

(** ** Statistics *)
Fixpoint count_probes (fuel : nat) (found : HashEntry A → bool) (size : Z) (es : list (HashEntry A))
    (i count : Z) : run Z :=
  match fuel with
  | O => OutOfFuel
  | Datatypes.S fuel =>
      e ← access (znth es i);
      if is_empty e then Done (-1)
      else if found e then Done count
      else if decide (i + 1 = size ∧ size = 1) then Fault (* reads behind the table *)
      else count_probes fuel found size es (next_slot size i) (count + 1)
  end.
Definition countProbes (t : HashTable A) (itemHash : Z) (x : A) (cmpFunc : A → A → Z) : run Z :=
  if decide (0 < tableSize t) then
    count_probes (Z.to_nat (tableSize t)) (matches cmpFunc itemHash x) (tableSize t) (pEntries t)
      (Z.land itemHash (u32 (tableSize t - 1))) 0
  else Fault.

(** [mzHashTableProbeCount]: the number of entries and the least, greatest and
    total number of probes it logs. *)
Record ProbeStats := mkProbeStats { ps_entries : Z; ps_min : Z; ps_max : Z; ps_total : Z }.
Fixpoint probe_count_loop (fuel : nat) (t : HashTable A) (calcFunc : A → Z) (cmpFunc : A → A → Z)
    (idx : Z) (st : ProbeStats) : run ProbeStats :=
  if mzHashIterDone t idx then Done st else
  match fuel with
  | O => OutOfFuel
  | Datatypes.S fuel =>
      d ← mzHashIterData t idx;
      match d with
      | Item x =>
          count ← countProbes t (calcFunc x) x cmpFunc;
          idx ← mzHashIterNext t idx;
          probe_count_loop fuel t calcFunc cmpFunc idx
            (mkProbeStats (ps_entries st + 1) (Z.min (ps_min st) count)
               (Z.max (ps_max st) count) (ps_total st + count))
      | _ => Fault
      end
  end.
Definition mzHashTableProbeCount (t : HashTable A) (calcFunc : A → Z) (cmpFunc : A → A → Z)
    : run ProbeStats :=
  idx ← mzHashIterBegin t;
  probe_count_loop (length (pEntries t)) t calcFunc cmpFunc idx
    (mkProbeStats 0 (65536 * 32767) 0 0).
End hash.

(** ** Rounding up to a power of two *)

(** Bit [i] of [x] tells whether one of the [w] bits of [m] from [i] on is set. *)
Definition smeared (m w x : Z) : Prop :=
  ∀ i, 0 ≤ i → Z.testbit x i = true ↔ ∃ j, 0 ≤ j < w ∧ Z.testbit m (i + j) = true.

Lemma smeared_self m : smeared m 1 m.
Proof.
  intros i Hi. split.
  - intros. exists 0. rewrite Z.add_0_r. split; [lia|done].
  - intros (j & ? & E). by replace (i + j) with i in E by lia.
Qed.
Lemma smeared_double m w x : 0 < w → smeared m w x → smeared m (2 * w) (Z.lor x (Z.shiftr x w)).
Proof.
  intros Hw Hx i Hi. rewrite Z.lor_spec, Z.shiftr_spec, orb_true_iff, (Hx i), (Hx (i + w)) by lia.
  split.
  - intros [(j & ? & E) | (j & ? & E)]; [exists j | exists (w + j)]; rewrite ?Z.add_assoc;
      split; [lia|done|lia|done].
  - intros (j & ? & E). destruct (decide (j < w)); [left; exists j; split; [lia|done]|].
    right. exists (j - w). split; [lia|]. by replace (i + w + (j - w)) with (i + j) by lia.
Qed.
Lemma smeared_ones m w x :
  0 < m → Z.log2 m < w → 0 ≤ x → smeared m w x → x = Z.ones (Z.log2 m + 1).
Proof.
  intros Hm Hw Hx0 Hx. pose proof (Z.log2_nonneg m). apply Z.bits_inj'. intros i Hi.
  apply eq_true_iff_eq. rewrite (Hx i Hi), Z.testbit_ones_nonneg by lia. split.
  - intros (j & ? & E). destruct (decide (i + j ≤ Z.log2 m)); [lia|].
    rewrite Z.bits_above_log2 in E by lia. done.
  - intros Hlt%Z.ltb_lt. exists (Z.log2 m - i). split; [lia|].
    replace (i + (Z.log2 m - i)) with (Z.log2 m) by lia. by apply Z.bit_log2.
Qed.

Lemma roundUpPower2_spec v :
  1 ≤ v ≤ 2 ^ 31 →
  ∃ k, 0 ≤ k ≤ 31 ∧ roundUpPower2 v = 2 ^ k ∧ v ≤ 2 ^ k < 2 * v.
Proof.
  intros Hv. unfold roundUpPower2. rewrite (wrap_u_id 32 (v - 1)) by (unfold in_u; lia).
  destruct (decide (v = 1)) as [->|Hne]; [exists 0; by vm_compute|].
  set (m := v - 1). assert (0 < m < 2 ^ 31) as Hm by (unfold m; lia).
  pose proof (smeared_self m) as S1.
  do 5 (match goal with H : smeared m ?w ?x |- _ =>
          lazymatch goal with _ : smeared m (2 * w) _ |- _ => fail | _ => idtac end;
          pose proof (smeared_double m w x eq_refl H) end).
  change (2 * 1) with 2 in *. change (2 * 2) with 4 in *. change (2 * 4) with 8 in *.
  change (2 * 8) with 16 in *. change (2 * 16) with 32 in *.
  pose proof (Z.log2_spec m ltac:(lia)) as [Hlo Hhi].
  assert (Z.log2 m < 31) as Hl by (apply Z.log2_lt_pow2; lia).
  pose proof (Z.log2_nonneg m).
  assert (∀ a b, 0 ≤ a → 0 ≤ b → 0 ≤ Z.lor a b) as Hlor by (intros; by apply Z.lor_nonneg).
  match goal with H : smeared m 32 ?x |- _ =>
    assert (x = Z.ones (Z.log2 m + 1)) as -> by
      (apply (smeared_ones m 32); [lia|lia| |done];
       repeat (apply Hlor || apply Z.shiftr_nonneg); lia)
  end.
  exists (Z.log2 m + 1). rewrite Z.ones_equiv.
  replace (Z.pred (2 ^ (Z.log2 m + 1)) + 1) with (2 ^ (Z.log2 m + 1)) by lia.
  replace (Z.succ (Z.log2 m)) with (Z.log2 m + 1) in Hhi by lia.
  split; [lia|]. split.
  - apply wrap_u_id. split; [lia|]. apply Z.pow_lt_mono_r; lia.
  - rewrite Z.pow_add_r in * by lia. unfold m in *. lia.
Qed.

(** ** Probing *)

(** The [d]-th slot a probe from [s] looks at. *)
Definition slot (n s : Z) (d : nat) : nat := Z.to_nat ((s + Z.of_nat d) mod n).

Lemma slot_lt n s d : 0 < n → (slot n s d < Z.to_nat n)%nat.
Proof. intros. unfold slot. pose proof (Z.mod_pos_bound (s + Z.of_nat d) n). lia. Qed.
Lemma slot_next n s d : slot n ((s + 1) mod n) d = slot n s (S d).
Proof.
  unfold slot. destruct (decide (n = 0)) as [->|]; [rewrite !Zmod_0_r; f_equal; lia|].
  rewrite Z.add_mod_idemp_l by done. f_equal. f_equal. lia.
Qed.
(** Every slot is on the way of every probe. *)
Lemma slot_reach n s (i : nat) :
  0 < n → (i < Z.to_nat n)%nat → ∃ d, (d < Z.to_nat n)%nat ∧ slot n s d = i.
Proof.
  intros Hn Hi. pose proof (Z.mod_pos_bound (Z.of_nat i - s) n Hn).
  exists (Z.to_nat ((Z.of_nat i - s) mod n)). split; [lia|].
  unfold slot. rewrite Z2Nat.id, Z.add_mod_idemp_r by lia.
  replace (s + (Z.of_nat i - s)) with (Z.of_nat i) by lia. rewrite Z.mod_small; lia.
Qed.
Lemma slot_home n s : 0 < n → 0 ≤ s < n → slot n s 0 = Z.to_nat s.
Proof. intros. unfold slot. rewrite Z.add_0_r, Z.mod_small; lia. Qed.

(** Masking with [size - 1] is the remainder. *)
Lemma land_size k h : 0 ≤ k → Z.land h (2 ^ k - 1) = h mod 2 ^ k.
Proof. intros. rewrite <- Z.land_ones by done. by rewrite Z.ones_equiv, Z.sub_1_r. Qed.

Lemma least_nat (P : nat → Prop) `{!∀ n, Decision (P n)} n :
  P n → ∃ m, (m ≤ n)%nat ∧ P m ∧ ∀ j, (j < m)%nat → ¬ P j.
Proof.
  revert n. apply (well_founded_induction lt_wf (λ n, P n → _)). intros n IH Hn.
  destruct (decide (Exists P (seq 0 n))) as [(j & Hj & HP)%Exists_exists | Hnone].
  - apply elem_of_seq in Hj. destruct (IH j ltac:(lia) HP) as (m & ? & ?). exists m.
    split; [lia|done].
  - exists n. split; [lia|]. split; [done|]. intros j Hj HP. apply Hnone, Exists_exists.
    exists j. rewrite elem_of_seq. split; [lia|done].
Qed.

Section probing.
Context {A : Type} `{EqDecision A}.
Implicit Types (es : list (HashEntry A)) (e : HashEntry A).

(** What ends a probe. *)
Definition stops (found : HashEntry A → bool) (e : HashEntry A) : bool := is_empty e || found e.

Lemma probe_done found n es : ∀ d fuel s e,
  zlen es = n → 0 ≤ s < n → (d < fuel)%nat →
  es !! slot n s d = Some e → stops found e = true →
  (∀ j e', (j < d)%nat → es !! slot n s j = Some e' → stops found e' = false) →
  probe fuel found n es s = Done ((s + Z.of_nat d) mod n).
Proof.
  induction d as [|d IH]; intros fuel s e Hlen Hs Hd He Hstop Hbefore;
    (destruct fuel as [|fuel]; [lia|]); simpl.
  - rewrite slot_home in He by lia. rewrite znth_lookup, He by lia. simpl.
    rewrite Z.add_0_r, Z.mod_small by lia.
    unfold stops in Hstop. destruct (is_empty e); [done|]. by destruct (found e).
  - rewrite znth_lookup by lia.
    destruct (lookup_lt_is_Some_2 es (Z.to_nat s)) as [e0 He0]; [unfold zlen in *; lia|].
    rewrite He0. simpl.
    specialize (Hbefore 0%nat e0 ltac:(lia)) as H0. rewrite slot_home in H0 by lia.
    specialize (H0 He0). unfold stops in H0. apply orb_false_iff in H0 as [-> ->].
    assert (2 ≤ n) as Hn.
    { destruct (decide (n = 1)); [|lia]. subst. replace s with 0 in * by lia.
      unfold slot in He. rewrite e1, Zmod_1_r in He. simpl in *.
      rewrite He0 in He. injection He as ->.
      specialize (Hbefore 0%nat e ltac:(lia)). unfold slot in Hbefore.
      rewrite e1, Zmod_1_r in Hbefore. simpl in Hbefore. rewrite Hbefore in Hstop by done. done. }
    rewrite decide_False by lia.
    assert (next_slot n s = (s + 1) mod n) as ->.
    { unfold next_slot. repeat case_decide; try lia.
      - rewrite H, Z_mod_same_full. done.
      - rewrite Z.mod_small; lia. }
    rewrite (IH _ _ e).
    + f_equal. rewrite Z.add_mod_idemp_l by lia. f_equal. lia.
    + done.
    + apply Z.mod_pos_bound. lia.
    + lia.
    + by rewrite slot_next.
    + done.
    + intros j e' Hj. rewrite slot_next. apply Hbefore. lia.
Qed.

(** A probe of a table with an empty slot ends at the first slot that stops it. *)
Lemma probe_ends found n es s (i : nat) e :
  zlen es = n → 0 ≤ s < n → es !! i = Some e → stops found e = true →
  ∃ d e', (d < Z.to_nat n)%nat ∧ es !! slot n s d = Some e' ∧ stops found e' = true ∧
    (∀ j e', (j < d)%nat → es !! slot n s j = Some e' → stops found e' = false) ∧
    probe (Z.to_nat n) found n es s = Done (Z.of_nat (slot n s d)).
Proof.
  intros Hlen Hs Hi Hstop.
  destruct (slot_reach n s i) as (d0 & Hd0 & <-);
    [lia | apply lookup_lt_Some in Hi; unfold zlen in *; lia |].
  destruct (least_nat (λ d, match es !! slot n s d with
    Some e => stops found e | None => false end = true) d0) as (d & Hd & HP & Hmin).
  { by rewrite Hi. }
  destruct (es !! slot n s d) as [e'|] eqn:He'; [|done]. exists d, e'.
  assert (∀ j e', (j < d)%nat → es !! slot n s j = Some e' → stops found e' = false) as Hb.
  { intros j e1 Hj He1. specialize (Hmin j Hj). rewrite He1 in Hmin. by destruct (stops found e1). }
  split_and!; [lia|done|done|done|].
  rewrite (probe_done found n es d _ s e'); [|done|lia|lia|done|done|done].
  unfold slot. rewrite Z2Nat.id; [done|]. apply Z.mod_pos_bound. lia.
Qed.
End probing.

(** ** Well-formed tables *)

Section wf.
Context {A : Type} `{EqDecision A}.
Implicit Types (es : list (HashEntry A)) (e : HashEntry A) (x : A).

Definition live_entry (e : HashEntry A) : option (Z * A) := (hashValue e,.) <$> item e.
(** The items of a table with the hash values they were added with. *)
Definition live (es : list (HashEntry A)) : list (Z * A) := omap live_entry es.
Definition dead (es : list (HashEntry A)) : list (HashEntry A) := filter is_tombstone es.

(** The probe for [h] reaches its [d]-th slot. *)
Definition reaches (n : Z) (es : list (HashEntry A)) (h : Z) (d : nat) : Prop :=
  ∀ j e, (j < d)%nat → es !! slot n (h mod n) j = Some e → is_empty e = false.

(** Every item is on the way of the probe for its hash value. *)
Definition chained (n : Z) (es : list (HashEntry A)) : Prop :=
  ∀ i e x, es !! i = Some e → edata e = Item x →
    in_u 32 (hashValue e) ∧
    ∃ d, (d < Z.to_nat n)%nat ∧ i = slot n (hashValue e mod n) d ∧ reaches n es (hashValue e) d.

Record wf (t : HashTable A) : Prop := {
  wf_size : ∃ k, 0 ≤ k ∧ tableSize t = 2 ^ k;
  wf_len : zlen (pEntries t) = tableSize t;
  wf_live : numEntries t = zlen (live (pEntries t));
  wf_dead : numDeadEntries t = zlen (dead (pEntries t));
  wf_load : (numEntries t + numDeadEntries t) * LOAD_DENOM ≤ tableSize t * LOAD_NUMER;
  wf_chained : chained (tableSize t) (pEntries t)
}.

Lemma elem_of_live es h x :
  (h, x) ∈ live es ↔ ∃ i e, es !! i = Some e ∧ hashValue e = h ∧ edata e = Item x.
Proof.
  unfold live. rewrite list_elem_of_omap. split.
  - intros (e & [i Hi]%list_elem_of_lookup & E). exists i, e. split; [done|].
    unfold live_entry, item in E. destruct (edata e); naive_solver.
  - intros (i & e & Hi & <- & E). exists e. split; [by eapply list_elem_of_lookup_2|].
    unfold live_entry, item. by rewrite E.
Qed.

(** A table that is not full has an empty slot. *)
Lemma empty_slot es :
  zlen (live es) + zlen (dead es) < zlen es → ∃ i e, es !! i = Some e ∧ is_empty e = true.
Proof.
  unfold live, dead. induction es as [|e es IH]; [unfold zlen; simpl; lia|].
  intros Hlt. destruct (is_empty e) eqn:Ee; [by exists 0%nat, e|].
  destruct IH as (i & e' & ? & ?); [|by exists (S i), e'].
  destruct e as [h [| |x]]; [done| |].
  - change (omap live_entry (mkHashEntry h Tombstone :: es)) with (omap live_entry es) in Hlt.
    rewrite filter_cons_True, !zlen_cons in Hlt by done. lia.
  - change (omap live_entry (mkHashEntry h (Item x) :: es)) with ((h, x) :: omap live_entry es) in Hlt.
    rewrite filter_cons_False, !zlen_cons in Hlt by (intros []). lia.
Qed.

Lemma omap_insert_None {B} (f : HashEntry A → option B) es i e0 e y :
  es !! i = Some e0 → f e0 = None → f e = Some y → omap f (<[i := e]> es) ≡ₚ y :: omap f es.
Proof.
  intros Hi H0 H1. rewrite <- (take_drop_middle es i e0 Hi) at 2.
  rewrite insert_take_drop by (by eapply lookup_lt_Some).
  rewrite !omap_app. simpl. rewrite H0, H1. by rewrite Permutation_middle.
Qed.
Lemma omap_insert_Some {B} (f : HashEntry A → option B) es i e0 e y :
  es !! i = Some e0 → f e0 = Some y → f e = None → omap f es ≡ₚ y :: omap f (<[i := e]> es).
Proof.
  intros Hi H0 H1.
  rewrite <- (list_insert_id es i e0 Hi) at 1. rewrite <- (list_insert_insert_eq es i e0 e).
  apply (omap_insert_None f _ i e); [|done|done].
  apply list_lookup_insert_eq. by eapply lookup_lt_Some.
Qed.
End wf.

(** ** Writing slots *)

Section write.
Context {A : Type} `{EqDecision A}.
Implicit Types (es : list (HashEntry A)) (e : HashEntry A) (x : A).

Lemma insert_lookup_cases es i e j e' :
  <[i := e]> es !! j = Some e' → (j = i ∧ e' = e) ∨ (j ≠ i ∧ es !! j = Some e').
Proof.
  intros E. destruct (decide (j = i)) as [->|]; [left|right].
  - assert (i < length es)%nat by (apply lookup_lt_Some in E; by rewrite length_insert in E).
    rewrite list_lookup_insert_eq in E by done. by injection E as <-.
  - by rewrite list_lookup_insert_ne in E by done.
Qed.

Lemma reaches_write n es i e h d :
  is_empty e = false → reaches n es h d → reaches n (<[i := e]> es) h d.
Proof.
  intros He Hr j e' Hj [[_ ->] | [_ E]]%insert_lookup_cases; [done|]. by eapply Hr.
Qed.

Lemma chained_fill n es h d x :
  chained n es → in_u 32 h → (d < Z.to_nat n)%nat → reaches n es h d →
  chained n (<[slot n (h mod n) d := mkHashEntry h (Item x)]> es).
Proof.
  intros Hc Hh Hd Hr i e y [[-> ->] | [_ E]]%insert_lookup_cases Ey; simpl.
  - split; [done|]. exists d. split_and!; [done|done|]. by apply reaches_write.
  - destruct (Hc i e y E Ey) as (? & d' & ? & ? & ?). split; [done|]. exists d'.
    split_and!; [done|done|]. by apply reaches_write.
Qed.

Lemma chained_bury n es i h :
  chained n es → chained n (<[i := mkHashEntry h Tombstone]> es).
Proof.
  intros Hc j e y [[-> ->] | [_ E]]%insert_lookup_cases Ey; [done|].
  destruct (Hc j e y E Ey) as (? & d' & ? & ? & ?). split; [done|]. exists d'.
  split_and!; [done|done|]. by apply reaches_write.
Qed.

Lemma dead_omap es : zlen (dead es) = zlen (omap (λ e, if is_tombstone e then Some e else None) es).
Proof.
  unfold dead. induction es as [|e es IH]; [done|]. simpl. destruct (is_tombstone e) eqn:E.
  - rewrite filter_cons_True by (by rewrite E). rewrite !zlen_cons. f_equal. exact IH.
  - rewrite filter_cons_False by (rewrite E; by intros []). exact IH.
Qed.

(** An item written to an empty slot. *)
Lemma live_fill es i e0 h x :
  es !! i = Some e0 → is_empty e0 = true →
  live (<[i := mkHashEntry h (Item x)]> es) ≡ₚ (h, x) :: live es.
Proof.
  intros Hi He. eapply omap_insert_None; [done| |done].
  unfold live_entry, item. unfold is_empty in He. by destruct (edata e0).
Qed.
Lemma dead_same es i e0 e :
  es !! i = Some e0 → is_tombstone e0 = false → is_tombstone e = false →
  zlen (dead (<[i := e]> es)) = zlen (dead es).
Proof.
  intros Hi H0 H1. rewrite !dead_omap. f_equal. revert i Hi.
  induction es as [|e' es IH]; intros [|i] Hi; simplify_eq/=; [by rewrite H0, H1|].
  by rewrite IH.
Qed.
(** An item replaced by a tombstone. *)
Lemma live_bury es i h x :
  es !! i = Some (mkHashEntry h (Item x)) →
  live es ≡ₚ (h, x) :: live (<[i := mkHashEntry h Tombstone]> es).
Proof. intros Hi. by eapply omap_insert_Some. Qed.
Lemma dead_bury es i h x :
  es !! i = Some (mkHashEntry h (Item x)) →
  zlen (dead (<[i := mkHashEntry h Tombstone]> es)) = 1 + zlen (dead es).
Proof.
  intros Hi. rewrite !dead_omap.
  erewrite (omap_insert_None _ es i); [by rewrite zlen_cons|done|done|done].
Qed.

Lemma set_entry_ok es (i : nat) e :
  (i < length es)%nat → set_entry es (Z.of_nat i) e = Done (<[i := e]> es).
Proof. intros. unfold set_entry. rewrite decide_True by (unfold zlen; lia). by rewrite Nat2Z.id. Qed.

(** ** Resizing *)

Lemma land_signed k h :
  in_u 32 h → 0 ≤ k ≤ 32 → Z.land (s32 h) (2 ^ k - 1) = h mod 2 ^ k.
Proof.
  intros Hh Hk. rewrite land_size by lia.
  pose proof (Z.div_mod (h + 2 ^ 31) (2 ^ 32) ltac:(lia)) as E.
  unfold wrap_s. change (32 - 1) with 31.
  replace ((h + 2 ^ 31) mod 2 ^ 32 - 2 ^ 31)
    with (h + - (2 ^ (32 - k) * ((h + 2 ^ 31) / 2 ^ 32)) * 2 ^ k).
  - apply Z.mod_add. lia.
  - replace (2 ^ 32) with (2 ^ (32 - k) * 2 ^ k) in *
      by (rewrite <- Z.pow_add_r by lia; f_equal; lia). lia.
Qed.
Lemma u32_s32 h : in_u 32 h → u32 (s32 h) = h.
Proof.
  intros Hh. pose proof (land_signed 32 h Hh ltac:(lia)) as E. rewrite land_size in E by lia.
  unfold wrap_u. rewrite E. by apply Z.mod_small.
Qed.

(** A probe for an empty slot, as [resizeHash] does it. *)
Lemma probe_empty found n es h :
  zlen es = n → zlen (live es) + zlen (dead es) < n →
  ∃ d e, (d < Z.to_nat n)%nat ∧ es !! slot n (h mod n) d = Some e ∧ stops found e = true ∧
    (∀ j e', (j < d)%nat → es !! slot n (h mod n) j = Some e' → stops found e' = false) ∧
    probe (Z.to_nat n) found n es (h mod n) = Done (Z.of_nat (slot n (h mod n) d)).
Proof.
  intros Hlen Hroom. destruct (empty_slot es) as (i & e & Hi & He); [lia|].
  pose proof (zlen_nonneg (live es)). pose proof (zlen_nonneg (dead es)).
  apply (probe_ends found n es (h mod n) i e); [done| |done|].
  - apply Z.mod_pos_bound. lia.
  - unfold stops. by rewrite He.
Qed.
Lemma stops_reaches found n es h d :
  (∀ j e', (j < d)%nat → es !! slot n (h mod n) j = Some e' → stops found e' = false) →
  reaches n es h d.
Proof. intros Hb j e Hj E. specialize (Hb j e Hj E). by apply orb_false_iff in Hb as [? _]. Qed.

Lemma reinsert_ok k n old : n = 2 ^ k → 0 ≤ k ≤ 32 → ∀ es,
  (∀ h x, (h, x) ∈ live old → in_u 32 h) →
  zlen es = n → chained n es → zlen (dead es) = 0 → zlen (live old) + zlen (live es) < n →
  run_ok (reinsert old n es) (λ es',
    zlen es' = n ∧ chained n es' ∧ zlen (dead es') = 0 ∧ live es' ≡ₚ live old ++ live es).
Proof.
  intros Hn Hk. induction old as [|e old IH]; intros es Hu Hlen Hc Hd Hroom; simpl.
  { by apply run_ok_done. }
  destruct e as [h [| |x]]; simpl; [by apply IH|by apply IH|].
  change (live (mkHashEntry h (Item x) :: old)) with ((h, x) :: live old) in *.
  rewrite zlen_cons in Hroom. pose proof (zlen_nonneg (live old)).
  assert (in_u 32 h) as Hh by (eapply Hu; by left).
  replace (Z.land (s32 h) (n - 1)) with (h mod n) by (subst n; symmetry; by apply land_signed).
  destruct (probe_empty (λ _, false) n es h Hlen ltac:(lia)) as (d & e & Hd' & He & Hst & Hb & ->).
  unfold stops in Hst. rewrite orb_false_r in Hst. pose proof (stops_reaches _ _ _ _ _ Hb) as Hr.
  simpl. rewrite set_entry_ok by (by eapply lookup_lt_Some). simpl. rewrite u32_s32 by done.
  eapply run_ok_weaken; [apply IH|].
  - intros h' x' Hin. eapply Hu. by right.
  - by rewrite zlen_insert.
  - by apply chained_fill.
  - erewrite dead_same; [done|done| |done]. unfold is_empty in Hst. unfold is_tombstone.
    by destruct (edata e).
  - rewrite live_fill, zlen_cons by done. lia.
  - intros es' (? & ? & ? & Hp). split_and!; [done..|].
    rewrite Hp, live_fill by done. by rewrite <- Permutation_middle.
Qed.

(** A fresh table. *)
Lemma zlen_zeroed n : 0 ≤ n → zlen (@zeroed A n) = n.
Proof. intros. unfold zlen, zeroed. rewrite length_replicate. lia. Qed.
Lemma live_zeroed n : live (@zeroed A n) = [].
Proof. unfold live, zeroed. induction (Z.to_nat n); [done|]. done. Qed.
Lemma dead_zeroed n : zlen (dead (@zeroed A n)) = 0.
Proof. rewrite dead_omap. unfold zeroed. induction (Z.to_nat n); [done|]. done. Qed.
Lemma chained_zeroed m n : chained m (@zeroed A n).
Proof. intros i e x [-> _]%lookup_replicate. done. Qed.
End write.

(** ** The operations on well-formed tables *)

Section ops.
Context {A : Type} `{EqDecision A} (calloc : Z → bool).
Implicit Types (t : HashTable A) (l : list (Z * A)) (x : A).

(** The items a table holds, with their hash values. *)
Definition contents (t : HashTable A) : list (Z * A) := live (pEntries t).

Lemma wf_room t : wf t → 0 < tableSize t ∧ zlen (live (pEntries t)) + zlen (dead (pEntries t)) < tableSize t.
Proof.
  intros [(k & ? & E) _ Hlive Hdead Hl _].
  assert (0 < 2 ^ k) by lia. unfold LOAD_NUMER, LOAD_DENOM in *. lia.
Qed.

Lemma wf_fresh k : 0 ≤ k → wf (mkHashTable (2 ^ k) 0 0 (@zeroed A (2 ^ k))).
Proof.
  intros Hk. split; simpl.
  - by exists k.
  - apply zlen_zeroed. lia.
  - by rewrite live_zeroed.
  - by rewrite dead_zeroed.
  - unfold LOAD_NUMER. lia.
  - apply chained_zeroed.
Qed.

Lemma resizeHash_ok t n k :
  n = 2 ^ k → 0 ≤ k ≤ 32 → calloc n = true →
  zlen (pEntries t) = tableSize t → chained (tableSize t) (pEntries t) →
  numEntries t = zlen (live (pEntries t)) → numDeadEntries t = zlen (dead (pEntries t)) →
  numEntries t * LOAD_DENOM ≤ n * LOAD_NUMER →
  run_ok (resizeHash calloc t n) (λ r, ∃ t', r = Some t' ∧ wf t' ∧ tableSize t' = n ∧
    numEntries t' = numEntries t ∧ contents t' ≡ₚ contents t).
Proof.
  intros Hn Hk Ha Hlen Hc Hlive Hdead Hroom. unfold resizeHash.
  rewrite decide_True by done. rewrite Ha.
  assert (0 < n) by lia. unfold LOAD_NUMER, LOAD_DENOM in *.
  eapply run_ok_bind; [apply (reinsert_ok k n _ Hn Hk (zeroed n))|].
  - intros h x (i & e & Hi & <- & E)%elem_of_live. by eapply Hc.
  - apply zlen_zeroed. lia.
  - apply chained_zeroed.
  - apply dead_zeroed.
  - rewrite live_zeroed, zlen_nil. lia.
  - intros es (Hlen' & Hc' & Hd' & Hp). rewrite live_zeroed, app_nil_r in Hp.
    rewrite decide_True by done. apply run_ok_done. eexists. split; [done|].
    split; [split; simpl|done].
    + exists k. split; [lia|done].
    + done.
    + by rewrite Hp.
    + done.
    + unfold LOAD_NUMER, LOAD_DENOM. lia.
    + done.
Qed.

(** What a lookup promises of the items a table holds. *)
Definition lookup_spec (l : list (Z * A)) (h : Z) (x : A) (cmpFunc : A → A → Z) (doAdd : bool)
    (r : option A) (l' : list (Z * A)) : Prop :=
  (∃ y, (h, y) ∈ l ∧ cmpFunc y x = 0 ∧ r = Some y ∧ l' = l) ∨
  ((∀ y, (h, y) ∈ l → cmpFunc y x ≠ 0) ∧
   if doAdd then r = Some x ∧ l' ≡ₚ (h, x) :: l else r = None ∧ l' = l).

(** An item a probe for its hash value cannot miss. *)
Lemma chained_found n es found h x d e :
  0 < n → zlen es = n → chained n es → (h, x) ∈ live es →
  (∀ e, hashValue e = h → edata e = Item x → found e = true) →
  es !! slot n (h mod n) d = Some e → is_empty e = true →
  (∀ j e', (j < d)%nat → es !! slot n (h mod n) j = Some e' → stops found e' = false) →
  False.
Proof.
  intros Hn Hlen Hc (i & e1 & Hi & Hh & Hx)%elem_of_live Hf He Hemp Hb.
  destruct (Hc i e1 x Hi Hx) as (Hu & d1 & Hd1 & -> & Hr). rewrite Hh in *.
  destruct (decide (d < d1)%nat) as [Hlt|].
  - specialize (Hr d e Hlt He). congruence.
  - destruct (decide (d = d1)) as [->|].
    + rewrite He in Hi. injection Hi as ->. unfold is_empty in Hemp. by rewrite Hx in Hemp.
    + specialize (Hb d1 e1 ltac:(lia) Hi). unfold stops in Hb.
      rewrite (Hf e1), orb_true_r in Hb by done. done.
Qed.

(** The index a probe starts from. *)
Lemma home_index t h :
  wf t → tableSize t ≤ 2 ^ 31 → Z.land h (u32 (tableSize t - 1)) = h mod tableSize t.
Proof.
  intros [(k & Hk & E) _ _ _ _ _] Hle. rewrite wrap_u_id by (unfold in_u; lia).
  rewrite E. by apply land_size.
Qed.

Lemma matches_found cmp h x (e : HashEntry A) y :
  hashValue e = h → edata e = Item y → cmp y x = 0 → matches cmp h x e = true.
Proof. intros E1 E2 E3. unfold matches. rewrite E2. by rewrite !bool_decide_true. Qed.
Lemma stops_matches cmp h x (e : HashEntry A) :
  stops (matches cmp h x) e = true → is_empty e = false →
  ∃ y, e = mkHashEntry h (Item y) ∧ cmp y x = 0.
Proof.
  unfold stops, matches. intros Hs He. rewrite He in Hs. simpl in Hs.
  destruct e as [h' [| |y]]; [done|done|]. simpl in *.
  apply andb_true_iff in Hs as [->%bool_decide_eq_true ?%bool_decide_eq_true]. by exists y.
Qed.

(** A table with room for one more item. *)
Definition unhurried (t : HashTable A) : Prop :=
  (numEntries t + 1 + numDeadEntries t) * LOAD_DENOM ≤ tableSize t * LOAD_NUMER.

(** Adding to a slot that is empty, and the resize that may follow. *)
Lemma add_ok t h x d e :
  wf t → tableSize t ≤ 2 ^ 27 → (∀ n, n ≤ 2 ^ 28 → calloc n = true) → in_u 32 h →
  (d < Z.to_nat (tableSize t))%nat →
  pEntries t !! slot (tableSize t) (h mod tableSize t) d = Some e → is_empty e = true →
  reaches (tableSize t) (pEntries t) h d →
  let t1 := mkHashTable (tableSize t) (numEntries t + 1) (numDeadEntries t)
              (<[slot (tableSize t) (h mod tableSize t) d := mkHashEntry h (Item x)]> (pEntries t)) in
  run_ok (if decide (s32 ((numEntries t1 + numDeadEntries t1) * LOAD_DENOM)
                        > s32 (tableSize t1 * LOAD_NUMER)) then
            r ← resizeHash calloc t1 (s32 (tableSize t1 * 2));
            match r with Some t => mret t | None => Fault end
          else mret t1)
    (λ t', wf t' ∧ numEntries t' < tableSize t' ∧ contents t' ≡ₚ (h, x) :: contents t ∧
       (unhurried t → tableSize t' = tableSize t ∧ numDeadEntries t' = numDeadEntries t)).
Proof.
  intros Hwf Hsz Hcalloc Hh Hd He Hemp Hr t1.
  pose proof (wf_room t Hwf) as [Hpos Hroom].
  destruct Hwf as [(k & Hk & E) Hlen Hlive Hdead Hload Hc]. unfold LOAD_NUMER, LOAD_DENOM in *.
  assert (live (pEntries t1) ≡ₚ (h, x) :: live (pEntries t)) as Hp by (by eapply live_fill).
  assert (zlen (dead (pEntries t1)) = zlen (dead (pEntries t))) as Hd1.
  { eapply dead_same; [done| |done]. unfold is_empty in Hemp. unfold is_tombstone.
    by destruct (edata e). }
  assert (chained (tableSize t) (pEntries t1)) as Hc1 by (by apply chained_fill).
  assert (zlen (live (pEntries t1)) = numEntries t + 1) as Hl1 by (rewrite Hp, zlen_cons; lia).
  pose proof (zlen_nonneg (live (pEntries t))). pose proof (zlen_nonneg (dead (pEntries t))).
  rewrite !wrap_s_id by (try (unfold in_s; simpl); lia).
  case_decide as Hbig; simpl in Hbig.
  - assert (k ≤ 27) as Hk' by (apply (Z.pow_le_mono_r_iff 2); lia).
    eapply run_ok_bind; [apply (resizeHash_ok t1 _ (k + 1)); simpl; try done|].
    + rewrite E, Z.pow_add_r by lia. lia.
    + lia.
    + apply Hcalloc. lia.
    + by rewrite zlen_insert.
    + by rewrite Hdead, <- Hd1.
    + unfold LOAD_NUMER, LOAD_DENOM. lia.
    + intros r (t' & -> & Hwf' & Hs' & Hn' & Hp'). apply run_ok_ret.
      split; [done|]. simpl in *. split; [lia|]. split; [etrans; [exact Hp' | exact Hp]|].
      unfold unhurried, LOAD_NUMER, LOAD_DENOM. lia.
  - apply run_ok_ret. split; [split; simpl|split; [simpl; lia|by split]].
    + by exists k.
    + by rewrite zlen_insert.
    + done.
    + by rewrite Hdead, <- Hd1.
    + unfold LOAD_NUMER, LOAD_DENOM. lia.
    + done.
Qed.

Lemma mzHashTableLookup_ok t h x cmpFunc doAdd :
  wf t → tableSize t ≤ 2 ^ 27 → (∀ n, n ≤ 2 ^ 28 → calloc n = true) → in_u 32 h →
  run_ok (mzHashTableLookup calloc t h x cmpFunc doAdd) (λ '(r, t'),
    wf t' ∧ lookup_spec (contents t) h x cmpFunc doAdd r (contents t') ∧
    (unhurried t → tableSize t' = tableSize t ∧ numDeadEntries t' = numDeadEntries t)).
Proof.
  intros Hwf Hsz Hcalloc Hh. pose proof (wf_room t Hwf) as [Hpos Hroom].
  unfold mzHashTableLookup. rewrite decide_True by done. rewrite home_index by (done || lia).
  destruct (probe_empty (matches cmpFunc h x) (tableSize t) (pEntries t) h (wf_len t Hwf) Hroom)
    as (d & e & Hd & He & Hst & Hb & ->).
  simpl. rewrite znth_lookup, Nat2Z.id, He by lia. simpl. destruct (is_empty e) eqn:Hemp.
  - assert (∀ y, (h, y) ∈ contents t → cmpFunc y x ≠ 0) as Hnone.
    { intros y Hy Hcmp. eapply (chained_found (tableSize t)); [done|apply Hwf|apply Hwf|done|
        intros; by eapply matches_found|done|done|done]. }
    destruct doAdd; simpl.
    + rewrite set_entry_ok by (by eapply lookup_lt_Some). simpl.
      eapply run_ok_bind; [apply (add_ok t h x d e); try done; by eapply stops_reaches|].
      intros t' (Hwf' & Hlt & Hp & Hsame). rewrite decide_True by done. apply run_ok_ret.
      split; [done|]. split; [by right|done].
    + apply run_ok_ret. split; [done|]. split; [by right|done].
  - destruct (stops_matches _ _ _ _ Hst Hemp) as (y & -> & Hcmp).
    apply run_ok_ret. split; [done|]. split; [|done]. left. exists y. split_and!; try done.
    apply elem_of_live. eexists _, _. done.
Qed.

(** C14: [mzHashTableLookup] on a well-formed table ends without fault and does what
    the set of items promises: it returns an item with this hash value that compares
    equal if the table has one; otherwise it adds the new item and nothing else (growing
    the table if it gets too full), or, without [doAdd], returns nothing and changes
    nothing.  The table stays well-formed. *)
Theorem mzHashTableLookup_refines t h x cmpFunc doAdd :
  wf t → tableSize t ≤ 2 ^ 27 → (∀ n, n ≤ 2 ^ 28 → calloc n = true) → in_u 32 h →
  run_ok (mzHashTableLookup calloc t h x cmpFunc doAdd) (λ '(r, t'),
    wf t' ∧ lookup_spec (contents t) h x cmpFunc doAdd r (contents t')).
Proof.
  intros. eapply run_ok_weaken; [by apply mzHashTableLookup_ok|]. by intros [r t'] (? & ? & _).
Qed.

Lemma remove_stops x (e : HashEntry A) :
  stops (λ e, match edata e with Item y => bool_decide (y = x) | _ => false end) e = true →
  is_empty e = false → edata e = Item x.
Proof.
  unfold stops. intros Hs He. rewrite He in Hs. simpl in Hs.
  destruct (edata e); [done|done|]. apply bool_decide_eq_true in Hs as ->. done.
Qed.

(** [mzHashTableRemove] on a well-formed table with the hash value the item was
    added with ends without fault; it tells whether the item was in the table,
    takes out one entry of it and nothing else, and keeps the table well-formed. *)
Lemma mzHashTableRemove_refines t h x :
  wf t → tableSize t ≤ 2 ^ 31 → (∀ h', (h', x) ∈ contents t → h' = h) →
  run_ok (mzHashTableRemove t h x) (λ '(r, t'), wf t' ∧
    if (r : bool) then contents t ≡ₚ (h, x) :: contents t'
    else (h, x) ∉ contents t ∧ t' = t).
Proof.
  intros Hwf Hsz Hown. pose proof (wf_room t Hwf) as [Hpos Hroom].
  unfold mzHashTableRemove. rewrite decide_True by done. rewrite home_index by done.
  destruct (probe_empty (λ e, match edata e with Item y => bool_decide (y = x) | _ => false end)
    (tableSize t) (pEntries t) h (wf_len t Hwf) Hroom) as (d & e & Hd & He & Hst & Hb & ->).
  simpl. pose proof (slot_lt (tableSize t) (h mod tableSize t) d Hpos).
  rewrite decide_False by lia.
  rewrite znth_lookup, Nat2Z.id, He by lia. simpl. destruct (is_empty e) eqn:Hemp.
  - apply run_ok_ret. split; [done|]. split; [|done]. intros Hx.
    eapply (chained_found (tableSize t)); [done|apply Hwf|apply Hwf|done| |done|done|done].
    intros e1 _ E1. simpl. rewrite E1. by apply bool_decide_eq_true.
  - pose proof (remove_stops x e Hst Hemp) as Ex.
    rewrite set_entry_ok by (by eapply lookup_lt_Some). simpl. apply run_ok_ret.
    assert (e = mkHashEntry h (Item x)) as ->.
    { destruct e as [h' ?]. simpl in *. subst. f_equal. apply Hown, elem_of_live.
      eexists _, _. done. }
    simpl. pose proof (live_bury _ _ _ _ He) as Hp. pose proof (dead_bury _ _ _ _ He) as Hd1.
    destruct Hwf as [(k & Hk & E) Hlen Hlive Hdead Hload Hc].
    split; [|done]. rewrite Hp, zlen_cons in Hlive. split; simpl.
    + by exists k.
    + by rewrite zlen_insert.
    + lia.
    + lia.
    + unfold LOAD_NUMER, LOAD_DENOM in *. lia.
    + by apply chained_bury.
Qed.

Lemma mzHashTableCreate_fresh size :
  0 < size ≤ 2 ^ 30 → (∀ n, n ≤ 2 ^ 30 → calloc n = true) →
  run_ok (mzHashTableCreate (A := A) calloc size) (λ r, ∃ t k,
    r = Some t ∧ wf t ∧ contents t = [] ∧ numEntries t = 0 ∧ numDeadEntries t = 0 ∧
    tableSize t = 2 ^ k ∧ size ≤ 2 ^ k ∧ ∀ j, 0 ≤ j → size ≤ 2 ^ j → 2 ^ k ≤ 2 ^ j).
Proof.
  intros Hs Hcalloc. unfold mzHashTableCreate. rewrite decide_True by lia.
  rewrite wrap_u_id by (unfold in_u; lia).
  destruct (roundUpPower2_spec size ltac:(lia)) as (k & Hk & -> & Hle & Hlt).
  assert (k ≤ 30) as Hk'.
  { destruct (decide (k ≤ 30)); [done|]. assert (k = 31) as -> by lia. lia. }
  assert (2 ^ k ≤ 2 ^ 30) by (apply Z.pow_le_mono_r; lia).
  rewrite wrap_s_id by (try done; unfold in_s; simpl; lia). rewrite Hcalloc by lia.
  apply run_ok_done. eexists _, k. split; [done|]. split; [apply wf_fresh; lia|].
  split; [apply live_zeroed|]. split_and!; [done|done|done|done|].
  intros j Hj Hsj. apply Z.pow_le_mono_r; [lia|].
  destruct (decide (k ≤ j)); [done|]. assert (2 ^ (j + 1) ≤ 2 ^ k) by (apply Z.pow_le_mono_r; lia).
  rewrite Z.pow_add_r in * by lia. lia.
Qed.

(** [mzHashTableCreate] makes an empty well-formed table whose size is the least
    power of two not below the size asked for. *)
Lemma mzHashTableCreate_ok size :
  0 < size ≤ 2 ^ 30 → (∀ n, n ≤ 2 ^ 30 → calloc n = true) →
  run_ok (mzHashTableCreate (A := A) calloc size) (λ r, ∃ t k,
    r = Some t ∧ wf t ∧ contents t = [] ∧ numEntries t = 0 ∧ numDeadEntries t = 0 ∧
    tableSize t = 2 ^ k ∧ size ≤ 2 ^ k ∧ ∀ j, 0 ≤ j → size ≤ 2 ^ j → 2 ^ k ≤ 2 ^ j).
Proof. apply mzHashTableCreate_fresh. Qed.

(** ** Iterators *)

Lemma iter_next_spec t : zlen (pEntries t) = tableSize t → ∀ n i,
  0 ≤ i ≤ tableSize t → tableSize t - i ≤ Z.of_nat n →
  ∃ j, iter_next n t i = Done j ∧ i ≤ j ≤ tableSize t ∧
    (j = tableSize t → omap live_entry (drop (Z.to_nat i) (pEntries t)) = []) ∧
    (j < tableSize t → ∃ e x, pEntries t !! Z.to_nat j = Some e ∧ edata e = Item x ∧
      omap live_entry (drop (Z.to_nat i) (pEntries t)) =
        (hashValue e, x) :: omap live_entry (drop (Z.to_nat (j + 1)) (pEntries t))).
Proof.
  intros Hlen. induction n as [|n IH]; intros i Hi Hn; simpl.
  { rewrite decide_False by lia. exists i. split_and!; try lia; [done|].
    intros _. rewrite drop_ge; [done|]. unfold zlen in *. lia. }
  case_decide as Hlt.
  2: { exists i. split_and!; try lia; [done|]. intros _. rewrite drop_ge; [done|]. unfold zlen in *. lia. }
  rewrite znth_lookup by lia.
  destruct (lookup_lt_is_Some_2 (pEntries t) (Z.to_nat i)) as [e He]; [unfold zlen in *; lia|].
  rewrite He. simpl. rewrite (drop_S _ _ _ He).
  replace (S (Z.to_nat i)) with (Z.to_nat (i + 1)) by lia.
  change (omap live_entry (e :: drop (Z.to_nat (i + 1)) (pEntries t))) with
    (match live_entry e with Some y => y :: omap live_entry (drop (Z.to_nat (i + 1)) (pEntries t))
     | None => omap live_entry (drop (Z.to_nat (i + 1)) (pEntries t)) end).
  assert (live_entry e = (hashValue e,.) <$> item e) as -> by done.
  destruct (item e) as [x|] eqn:Ex; simpl.
  - exists i. split_and!; [done|lia|lia|lia|]. intros _. exists e, x. split_and!; [done| |done].
    unfold item in Ex. destruct (edata e); by simplify_eq.
  - destruct (IH (i + 1) ltac:(lia) ltac:(lia)) as (j & ? & ? & ? & ?). exists j.
    split_and!; [done|lia|lia|done|done].
Qed.

Lemma mzHashIterNext_spec t i :
  zlen (pEntries t) = tableSize t → -1 ≤ i < tableSize t →
  ∃ j, mzHashIterNext t i = Done j ∧ i < j ≤ tableSize t ∧
    (j = tableSize t → omap live_entry (drop (Z.to_nat (i + 1)) (pEntries t)) = []) ∧
    (j < tableSize t → ∃ e x, pEntries t !! Z.to_nat j = Some e ∧ edata e = Item x ∧
      omap live_entry (drop (Z.to_nat (i + 1)) (pEntries t)) =
        (hashValue e, x) :: omap live_entry (drop (Z.to_nat (j + 1)) (pEntries t))).
Proof.
  intros Hlen Hi.
  destruct (iter_next_spec t Hlen (length (pEntries t)) (i + 1)) as (j & ? & ? & ? & ?);
    [lia|unfold zlen in *; lia|]. exists j. split_and!; [done|lia|lia|done|done].
Qed.

Lemma count_probes_done found n (es : list (HashEntry A)) : ∀ d fuel s e c,
  zlen es = n → 0 ≤ s < n → (d < fuel)%nat → Z.of_nat d < n →
  es !! slot n s d = Some e → is_empty e = false → found e = true →
  (∀ j e', (j < d)%nat → es !! slot n s j = Some e' → is_empty e' = false) →
  ∃ c', count_probes fuel found n es s c = Done c' ∧ c ≤ c' ≤ c + Z.of_nat d.
Proof.
  induction d as [|d IH]; intros fuel s e c Hlen Hs Hd Hdn He Hne Hf Hb;
    (destruct fuel as [|fuel]; [lia|]); simpl; rewrite znth_lookup by lia.
  - rewrite slot_home in He by lia. rewrite He. simpl. rewrite Hne, Hf.
    exists c. split; [done|lia].
  - destruct (lookup_lt_is_Some_2 es (Z.to_nat s)) as [e0 He0]; [unfold zlen in *; lia|].
    rewrite He0. simpl. rewrite (Hb 0%nat e0) by (rewrite ?slot_home by lia; done || lia).
    destruct (found e0); [exists c; split; [done|lia]|].
    rewrite decide_False by lia.
    assert (next_slot n s = (s + 1) mod n) as ->.
    { unfold next_slot. repeat case_decide; try lia.
      - by rewrite H, Z_mod_same_full.
      - rewrite Z.mod_small; lia. }
    destruct (IH fuel ((s + 1) mod n) e (c + 1)) as (c' & -> & ?);
      [done|apply Z.mod_pos_bound; lia|lia|lia|by rewrite slot_next|done|done| |].
    + intros j e' Hj. rewrite slot_next. apply Hb. lia.
    + exists c'. split; [done|lia].
Qed.

Lemma countProbes_ok t h x cmpFunc :
  wf t → tableSize t ≤ 2 ^ 31 → (h, x) ∈ contents t → cmpFunc x x = 0 →
  ∃ c, countProbes t h x cmpFunc = Done c ∧ 0 ≤ c < tableSize t.
Proof.
  intros Hwf Hsz (i & e & Hi & <- & Hx)%elem_of_live Hcmp.
  pose proof (wf_room t Hwf) as [Hpos _].
  destruct (wf_chained t Hwf i e x Hi Hx) as (Hu & d & Hd & -> & Hr).
  unfold countProbes. rewrite decide_True by done. rewrite home_index by done.
  destruct (count_probes_done (matches cmpFunc (hashValue e) x) (tableSize t) (pEntries t) d
    (Z.to_nat (tableSize t)) (hashValue e mod tableSize t) e 0) as (c & -> & ?).
  - apply Hwf.
  - by apply Z.mod_pos_bound.
  - done.
  - lia.
  - done.
  - unfold is_empty. by rewrite Hx.
  - by eapply matches_found.
  - exact Hr.
  - exists c. split; [done|lia].
Qed.

Lemma probe_count_loop_ok t calcFunc cmpFunc :
  wf t → tableSize t ≤ 2 ^ 31 →
  (∀ h x, (h, x) ∈ contents t → calcFunc x = h ∧ cmpFunc x x = 0) →
  ∀ fuel i st, -1 ≤ i < tableSize t → tableSize t - i ≤ Z.of_nat fuel + 1 →
  ps_max st < tableSize t →
  run_ok (idx ← mzHashIterNext t i; probe_count_loop fuel t calcFunc cmpFunc idx st) (λ st',
    ps_entries st' = ps_entries st + zlen (omap live_entry (drop (Z.to_nat (i + 1)) (pEntries t))) ∧
    ps_max st' < tableSize t).
Proof.
  intros Hwf Hsz Hown. induction fuel as [|fuel IH]; intros i st Hi Hf Hmax;
    destruct (mzHashIterNext_spec t i (wf_len t Hwf) Hi) as (j & -> & Hj & Hend & Hmore); simpl.
  - unfold mzHashIterDone. rewrite bool_decide_true by lia. apply run_ok_done.
    rewrite Hend, zlen_nil by lia. split; [lia|done].
  - unfold mzHashIterDone. case_bool_decide; [|destruct Hmore as (e & x & He & Hx & Hl); [lia|]].
    { apply run_ok_done. rewrite Hend, zlen_nil by lia. split; [lia|done]. }
    unfold mzHashIterData. rewrite decide_True, znth_lookup, He by lia. simpl. rewrite Hx.
    assert ((hashValue e, x) ∈ contents t) as Hin by (apply elem_of_live; by eexists _, _).
    destruct (Hown _ _ Hin) as [-> Hcmp].
    destruct (countProbes_ok t (hashValue e) x cmpFunc Hwf Hsz Hin Hcmp) as (c & -> & Hc). simpl.
    eapply run_ok_weaken; [apply IH; simpl; lia|]. simpl. intros st' [-> ?].
    rewrite Hl, zlen_cons. split; [lia|done].
Qed.

(** [mzHashTableProbeCount] visits every item of a well-formed table exactly once
    and finds each of them again in less than [tableSize] probes, provided the
    hash function gives the values the items were added with. *)
Lemma mzHashTableProbeCount_complete t calcFunc cmpFunc :
  wf t → tableSize t ≤ 2 ^ 31 →
  (∀ h x, (h, x) ∈ contents t → calcFunc x = h ∧ cmpFunc x x = 0) →
  run_ok (mzHashTableProbeCount t calcFunc cmpFunc) (λ st,
    ps_entries st = numEntries t ∧ ps_max st < tableSize t).
Proof.
  intros Hwf Hsz Hown. pose proof (wf_room t Hwf) as [Hpos _].
  unfold mzHashTableProbeCount, mzHashIterBegin.
  pose proof (wf_len t Hwf) as Hlen. unfold zlen in Hlen.
  eapply run_ok_weaken; [apply probe_count_loop_ok; try done; simpl; lia|].
  simpl. intros st [-> ?]. split; [|done]. rewrite (wf_live t Hwf). unfold live.
  by rewrite drop_0.
Qed.
End ops.

(** ** Examples *)

Definition always (n : Z) : bool := true.
Definition cmpZ (a b : Z) : Z := a - b.
Definition table4 : HashTable Z := mkHashTable 4 0 0 (zeroed 4).
(** Two items with the same home slot. *)
Definition table42 : HashTable Z :=
  mkHashTable 4 2 0 [mkHashEntry 0 Empty; mkHashEntry 1 (Item 1); mkHashEntry 5 (Item 5); mkHashEntry 0 Empty].

Lemma table4_wf : wf table4.
Proof. by apply (wf_fresh 2). Defined.
Lemma table42_wf : wf table42.
Proof.
  split; simpl; [by exists 2|done..|].
  intros [|[|[|[|[]]]]] e x ? ?; simplify_eq/=.
  - split; [done|]. exists 0%nat. split_and!; [lia|done|]. intros j ? ?. lia.
  - split; [done|]. exists 1%nat. split_and!; [lia|done|].
    intros [|j] e ? E; [|lia]. vm_compute in E. by simplify_eq/=.
Defined.

Example lookup_grows :
  mzHashTableLookup always table42 9 9 cmpZ true =
    Done (Some 9, mkHashTable 8 3 0 [mkHashEntry 0 Empty; mkHashEntry 1 (Item 1); mkHashEntry 9 (Item 9);
      mkHashEntry 0 Empty; mkHashEntry 0 Empty; mkHashEntry 5 (Item 5); mkHashEntry 0 Empty;
      mkHashEntry 0 Empty]).
Proof. reflexivity. Qed.

Lemma mzHashTableLookup_refines_witness :
  run_ok (mzHashTableLookup always table42 9 9 cmpZ true) (λ '(r, t'),
    wf t' ∧ lookup_spec (contents table42) 9 9 cmpZ true r (contents t')).
Proof. apply mzHashTableLookup_refines; [apply table42_wf|by vm_compute|done|by vm_compute]. Defined.

Lemma mzHashTableRemove_refines_witness :
  run_ok (mzHashTableRemove table42 5 5) (λ '(r, t'), wf t' ∧
    if (r : bool) then contents table42 ≡ₚ (5, 5) :: contents t'
    else (5, 5) ∉ contents table42 ∧ t' = table42).
Proof.
  apply mzHashTableRemove_refines; [apply table42_wf|by vm_compute|].
  change (contents table42) with [(1, 1); (5, 5)]. set_solver by lia.
Defined.

Lemma mzHashTableCreate_ok_witness :
  run_ok (mzHashTableCreate (A := Z) always 5) (λ r, ∃ t k,
    r = Some t ∧ wf t ∧ contents t = [] ∧ numEntries t = 0 ∧ numDeadEntries t = 0 ∧
    tableSize t = 2 ^ k ∧ 5 ≤ 2 ^ k ∧ ∀ j, 0 ≤ j → 5 ≤ 2 ^ j → 2 ^ k ≤ 2 ^ j).
Proof. apply mzHashTableCreate_ok; [lia|done]. Defined.

Lemma mzHashTableProbeCount_complete_witness :
  run_ok (mzHashTableProbeCount table42 (λ x, x) cmpZ) (λ st,
    ps_entries st = 2 ∧ ps_max st < 4).
Proof.
  apply (mzHashTableProbeCount_complete table42); [apply table42_wf|by vm_compute|].
  intros h x. change (contents table42) with [(1, 1); (5, 5)]. unfold cmpZ.
  rewrite !elem_of_cons, elem_of_nil. intros [[= -> ->] | [[= -> ->] | []]]; done.
Defined.
