(* ===== verification/Zip.v ===== *)
(** Zip archives: [minzip/Zip.c] up to the extraction of single entries.

    The archive is mapped at an address the system chooses; names are slices of
    the map.  The file does not change while the archive is open. *)
From S2P Require Import Prelude CLib Bytes ZlibSha World Hash.

(** * Constants *)
Definition CENSIG : Z := 33639248.  (* 0x02014b50 *)
Definition CENHDR : Z := 46.
Definition CENVEM : Z := 4.
Definition CENHOW : Z := 10.
Definition CENTIM : Z := 12.
Definition CENCRC : Z := 16.
Definition CENSIZ : Z := 20.
Definition CENLEN : Z := 24.
Definition CENNAM : Z := 28.
Definition CENEXT : Z := 30.
Definition CENCOM : Z := 32.
Definition CENATX : Z := 38.
Definition CENOFF : Z := 42.
Definition ENDSIG : Z := 101010256. (* 0x06054b50 *)
Definition ENDHDR : Z := 22.
Definition ENDSUB : Z := 8.
Definition ENDOFF : Z := 16.
Definition LOCSIG : Z := 67324752.  (* 0x04034b50 *)
Definition LOCHDR : Z := 30.
Definition LOCNAM : Z := 26.
Definition LOCEXT : Z := 28.
Definition STORED : Z := 0.
Definition DEFLATED : Z := 8.
Definition CENVEM_UNIX : Z := Z.shiftl 3 8.

(** The macro [safe_add] of the safe-iop library, outside the repository, at
    the types it is used with: the sum unless it overflows. *)
Class SafeIop := {
  safe_add_uintptr : Z → Z → option Z;
  safe_add_long : Z → Z → bool
}.
Class SafeIopLaws `{Abi} (S0 : SafeIop) := {
  safe_add_uintptr_spec : ∀ a b, in_u long_bits a → in_u long_bits b →
    safe_add_uintptr a b = if decide (in_u long_bits (a + b)) then Some (a + b) else None;
  safe_add_long_spec : ∀ a b, in_s long_bits a → in_s long_bits b →
    safe_add_long a b = bool_decide (in_s long_bits (a + b))
}.
#[export] Instance checked_iop `{Abi} : SafeIop := {|
  safe_add_uintptr a b := if decide (in_u long_bits (a + b)) then Some (a + b) else None;
  safe_add_long a b := bool_decide (in_s long_bits (a + b))
|}.
#[export] Instance checked_iop_laws `{Abi} : SafeIopLaws checked_iop.
Proof. by split. Qed.

(** * Data *)

Record ZipEntry := mkZipEntry {
  fileName : bytes;
  offset : Z;
  compLen : Z;
  uncompLen : Z;
  compression : Z;
  modTime : Z;
  entry_crc32 : Z;
  versionMadeBy : Z;
  externalFileAttributes : Z
}.
Definition fileNameLen (e : ZipEntry) : Z := zlen (fileName e).
(** An entry of a block from [calloc]. *)
Definition null_entry : ZipEntry := mkZipEntry [] 0 0 0 0 0 0 0 0.

Record MemMapping := mkMemMapping { map_addr : Z; map_data : bytes }.
Definition map_length (m : MemMapping) : Z := zlen (map_data m).

(** What the pointers given to the hash table point to: an entry of the array, by
    its index, or a name. *)
Inductive pointer := AnEntry (i : Z) | AName (name : bytes).
#[global] Instance pointer_eq_dec : EqDecision pointer.
Proof. solve_decision. Defined.

Record ZipArchive := mkZipArchive {
  fd : Z;
  zip_numEntries : Z;
  zip_pEntries : option (list ZipEntry);
  pHash : option (HashTable pointer);
  zip_map : option MemMapping
}.

(** [strncmp] on names of at least [n] bytes without a null byte. *)
Fixpoint strncmp (a b : bytes) (n : nat) : Z :=
  match n, a, b with
  | S n, x :: a, y :: b =>
      if decide (x = y) then (if decide (x = 0) then 0 else strncmp a b n) else x - y
  | _, _, _ => 0
  end.

Definition long `{Abi} (z : Z) : Z := wrap_s long_bits z.

(** * The directory of the archive *)

(** The callbacks of the hash table, with the array the pointers point into. *)
Definition entry_name (es : list ZipEntry) (p : pointer) : bytes :=
  match p with
  | AnEntry i => match znth es i with Some e => fileName e | None => [] end
  | AName name => name
  end.
Definition hashcmpZipEntry (es : list ZipEntry) (p1 p2 : pointer) : Z :=
  let name1 := entry_name es p1 in
  let name2 := entry_name es p2 in
  if decide (zlen name1 ≠ zlen name2) then s32 (zlen name1 - zlen name2)
  else memcmp name1 name2.
Definition hashcmpZipName (es : list ZipEntry) (p1 p2 : pointer) : Z :=
  let name := entry_name es p1 in
  let vname := entry_name es p2 in
  if decide (zlen name ≠ zlen vname) then s32 (zlen name - zlen vname)
  else memcmp name vname.

Definition computeHash (name : bytes) : Z := foldl (λ hash c, u32 (hash * 31 + c)) 2 name.

Definition validFilename (name : bytes) : bool :=
  bool_decide (zlen name < PATH_MAX) &&
  forallb (λ c, negb (bool_decide (c < 32) || bool_decide (127 ≤ c))) name.

Section zip.
Context `{Abi} `{SafeIop}.
(** Whether there is memory for the array of entries and for a hash table. *)
Context (entries_calloc hash_calloc : Z → bool).

Definition addEntryToHashTable (es : list ZipEntry) (pHash : HashTable pointer) (i : Z)
    : run (HashTable pointer) :=
  e ← access (znth es i);
  '(_, pHash) ← mzHashTableLookup hash_calloc pHash (computeHash (fileName e)) (AnEntry i)
                  (hashcmpZipEntry es) true;
  mret pHash.

(** Searches backward from [ptr] for the end of the central directory; [None] when
    it is not found. *)
Fixpoint find_eocd (fuel : nat) (data : bytes) (ptr : Z) : run (option Z) :=
  if decide (0 ≤ ptr) then
    match fuel with
    | O => OutOfFuel
    | S fuel =>
        b ← access (znth data ptr);
        if decide (b = Z.land ENDSIG 255) then
          sig ← access (get4LE data ptr);
          if decide (sig = ENDSIG) then Done (Some ptr) else find_eocd fuel data (ptr - 1)
        else find_eocd fuel data (ptr - 1)
    end
  else Done None.

(** The comparison of the binary search. *)
Definition name_diff (name1 name2 : bytes) : Z :=
  let diffLen := if decide (zlen name1 < zlen name2) then zlen name1 else zlen name2 in
  let diff := strncmp name1 name2 (Z.to_nat diffLen) in
  if decide (diff = 0) then s32 (zlen name1 - zlen name2) else diff.

(** The value of [high] after the loop. *)
Fixpoint search_slot (fuel : nat) (es : list ZipEntry) (name : bytes) (low high : Z) : run Z :=
  if decide (low ≤ high) then
    match fuel with
    | O => OutOfFuel
    | S fuel =>
        let mid := low + (high - low) `quot` 2 in
        e ← access (znth es mid);
        let diff := name_diff (fileName e) name in
        if decide (diff < 0) then search_slot fuel es name (mid + 1) high
        else if decide (diff > 0) then search_slot fuel es name low (mid - 1)
        else Done mid
    end
  else Done high.

(** The slot of the [i]-th name read. *)
Definition target_slot (es : list ZipEntry) (name : bytes) (i : Z) : run Z :=
  if decide (i > 0) then
    high ← search_slot (Z.to_nat i) es name 0 (i - 1);
    let target := u32 (high + 1) in
    if decide (target ≤ i) then mret target else Fault
  else mret 0.

(** Moves the entries from [target] to [i - 1] up by one. *)
Definition make_slot (es : list ZipEntry) (target i : Z) : run (list ZipEntry) :=
  if decide (target = i) then mret es else
  if decide (0 ≤ target ≤ i ∧ i < zlen es) then
    mret (take (Z.to_nat (target + 1)) es ++
          take (Z.to_nat (i - target)) (drop (Z.to_nat target) es) ++ drop (Z.to_nat (i + 1)) es)
  else Fault.

Definition set_slot (es : list ZipEntry) (i : Z) (e : ZipEntry) : run (list ZipEntry) :=
  if decide (0 ≤ i < zlen es) then Done (<[Z.to_nat i := e]> es) else Fault.

(** The local header of an entry: the offset of its data, or [None] when there is
    something wrong with it. *)
Definition data_offset (m : MemMapping) (localHdrOffset comp : Z) : run (option Z) :=
  match safe_add_uintptr (map_addr m) localHdrOffset with
  | None => mret None
  | Some localHdr =>
      if decide (size_t (localHdr + LOCHDR) > size_t (map_addr m + map_length m)) then mret None else
      let hdr := localHdr - map_addr m in
      sig ← access (get4LE (map_data m) hdr);
      if decide (sig ≠ LOCSIG) then mret None else
      nam ← access (get2LE (map_data m) (hdr + LOCNAM));
      ext ← access (get2LE (map_data m) (hdr + LOCEXT));
      let off := long (u32 (localHdrOffset + LOCHDR + nam + ext)) in
      if negb (safe_add_long off comp) then mret None else
      if decide (size_t (size_t off + size_t comp) > map_length m) then mret None else
      mret (Some off)
  end.

(** One entry of the central directory, at [ptr]: the entry and where the next one
    is, or [None] when the archive is refused.  [place] is what is done with the
    name of the entry before the rest of it is looked at. *)
Definition read_entry {B} (m : MemMapping) (ptr : Z) (place : bytes → run B)
    : run (option (ZipEntry * Z * B)) :=
  let data := map_data m in
  if decide (ptr + CENHDR > map_length m) then mret None else
  sig ← access (get4LE data ptr);
  if decide (sig ≠ CENSIG) then mret None else
  localHdrOffset ← access (get4LE data (ptr + CENOFF));
  nameLen ← access (get2LE data (ptr + CENNAM));
  extraLen ← access (get2LE data (ptr + CENEXT));
  commentLen ← access (get2LE data (ptr + CENCOM));
  if decide (ptr + CENHDR + nameLen > map_length m) then mret None else
  name ← access (zslice data (ptr + CENHDR) nameLen);
  if negb (validFilename name) then mret None else
  slot ← place name;
  comp ← access (get4LE data (ptr + CENSIZ));
  uncomp ← access (get4LE data (ptr + CENLEN));
  how ← access (get2LE data (ptr + CENHOW));
  time ← access (get4LE data (ptr + CENTIM));
  crc ← access (get4LE data (ptr + CENCRC));
  vem ← access (get2LE data (ptr + CENVEM));
  if decide (Z.land vem 65280 ≠ 0 ∧ Z.land vem 65280 ≠ CENVEM_UNIX) then mret None else
  atx ← access (get4LE data (ptr + CENATX));
  off ← data_offset m localHdrOffset (long comp);
  match off with
  | None => mret None
  | Some off =>
      mret (Some (mkZipEntry name off (long comp) (long uncomp) how (long time) (long crc) vem (long atx),
                  ptr + CENHDR + nameLen + extraLen + commentLen, slot))
  end.

(** The loop over the central directory: the array of entries, or [None] when the
    archive is refused; the array is then freed without another look at it. *)
Fixpoint read_entries (n : nat) (m : MemMapping) (i ptr : Z) (es : list ZipEntry)
    : run (option (list ZipEntry)) :=
  match n with
  | O => mret (Some es)
  | S n =>
      r ← read_entry m ptr (λ name,
            target ← target_slot es name i;
            es ← make_slot es target i;
            mret (es, target));
      match r with
      | None => mret None
      | Some (e, ptr, (es, target)) =>
          es ← set_slot es target e;
          read_entries n m (i + 1) ptr es
      end
  end.

Fixpoint add_entries (n : nat) (es : list ZipEntry) (i : Z) (pHash : HashTable pointer)
    : run (HashTable pointer) :=
  match n with
  | O => mret pHash
  | S n => pHash ← addEntryToHashTable es pHash i; add_entries n es (i + 1) pHash
  end.

(** The result and the archive.  On failure the hash table is freed. *)
Definition parseZipArchive (a : ZipArchive) (m : MemMapping) : run (bool * ZipArchive) :=
  let bail (a : ZipArchive) : run (bool * ZipArchive) :=
    mret (false, mkZipArchive (fd a) (zip_numEntries a) (zip_pEntries a) None (zip_map a)) in
  val ← access (get4LE (map_data m) 0);
  if decide (val = ENDSIG) then bail a else
  if decide (val ≠ LOCSIG) then bail a else
  eocd ← find_eocd (length (map_data m)) (map_data m) (map_length m - ENDHDR);
  match eocd with
  | None => bail a
  | Some ptr =>
      numEntries ← access (get2LE (map_data m) (ptr + ENDSUB));
      cdOffset ← access (get4LE (map_data m) (ptr + ENDOFF));
      if decide (numEntries = 0 ∨ map_length m ≤ cdOffset) then bail a else
      let es := if entries_calloc numEntries
                then Some (replicate (Z.to_nat numEntries) null_entry) else None in
      hash ← mzHashTableCreate hash_calloc (mzHashSize numEntries);
      let a := mkZipArchive (fd a) numEntries es hash (zip_map a) in
      match es, hash with
      | Some es, Some hash =>
          r ← read_entries (Z.to_nat numEntries) m 0 cdOffset es;
          match r with
          | None => bail a
          | Some es =>
              hash ← add_entries (Z.to_nat numEntries) es 0 hash;
              mret (true, mkZipArchive (fd a) numEntries (Some es) (Some hash) (zip_map a))
          end
      | _, _ => bail a
      end
  end.

(** * Opening and closing *)

(** [sysMapFileInShmem] of [minzip/SysUtil.c] for a file with these data; the address is chosen
    by the system so that the map lies in the address space. *)
Definition getFileStartAndLength (data : bytes) : option Z :=
  if decide (zlen data = 0) then None else Some (zlen data).
Definition sysMapFileInShmem {D} (data : bytes) : io D (option MemMapping) :=
  match getFileStartAndLength data with
  | None => mret None
  | Some _ =>
      c ← choose;
      mret (if decide (0 < c ∧ c + zlen data ≤ 2 ^ long_bits) then Some (mkMemMapping c data) else None)
  end.

Definition mzCloseZipArchive (a : ZipArchive) : ZipArchive :=
  mkZipArchive (-1) (zip_numEntries a) None None None.

(** The result ([errno] is taken to be -1) and the archive. *)
Definition mzOpenZipArchive {D} (path : string) : io D (Z * ZipArchive) :=
  let a := mkZipArchive 0 0 None None None in
  f ← sys_stat path;
  match f with
  | None => mret (-1, mzCloseZipArchive (mkZipArchive (-1) 0 None None None))
  | Some f =>
      let a := mkZipArchive 3 0 None None None in
      m ← sysMapFileInShmem (f_data f);
      match m with
      | None => mret (-1, mzCloseZipArchive a)
      | Some m =>
          if decide (map_length m < ENDHDR) then mret (-1, mzCloseZipArchive a) else
          '(ok, a) ← lift (parseZipArchive a m);
          if (ok : bool)
          then mret (0, mkZipArchive (fd a) (zip_numEntries a) (zip_pEntries a) (pHash a) (Some m))
          else mret (-1, mzCloseZipArchive a)
      end
  end.

(** The entry found, as the index in the array. *)
Definition mzFindZipEntry (a : ZipArchive) (entryName : string) : run (option pointer) :=
  match pHash a, zip_pEntries a with
  | Some h, Some es =>
      let name := bytes_of_string entryName in
      '(r, _) ← mzHashTableLookup hash_calloc h (computeHash name) (AName name)
                  (hashcmpZipName es) false;
      mret r
  | _, _ => Fault
  end.

Definition mzIsZipEntrySymlink (e : ZipEntry) : bool :=
  if decide (Z.land (versionMadeBy e) 65280 = CENVEM_UNIX)
  then S_ISLNK (Z.shiftr (externalFileAttributes e) 16) else false.
End zip.

(** * The order of names *)

(** The lexicographic order of byte strings. *)
Fixpoint lex (a b : bytes) : comparison :=
  match a, b with
  | [], [] => Eq
  | [], _ :: _ => Lt
  | _ :: _, [] => Gt
  | x :: a, y :: b => match x ?= y with Eq => lex a b | c => c end
  end.

Definition no_null (a : bytes) : Prop := Forall (λ c, c ≠ 0) a.

Lemma lex_eq a b : lex a b = Eq ↔ a = b.
Proof.
  revert b. induction a as [|x a IH]; intros [|y b]; simpl; try done.
  destruct (Z.compare_spec x y) as [->| |]; [rewrite IH; naive_solver|naive_solver lia..].
Qed.
Lemma lex_antisym a b : lex b a = CompOpp (lex a b).
Proof.
  revert b. induction a as [|x a IH]; intros [|y b]; simpl; try done.
  rewrite (Z.compare_antisym x y). destruct (x ?= y); [by rewrite IH|done..].
Qed.
Lemma lex_trans a b c : lex a b ≠ Gt → lex b c ≠ Gt → lex a c ≠ Gt.
Proof.
  revert b c. induction a as [|x a IH]; intros [|y b] [|z c]; simpl; try done.
  destruct (Z.compare_spec x y) as [->| |]; try done.
  - destruct (Z.compare_spec y z); try done. eauto.
  - destruct (Z.compare_spec y z) as [->| |]; try done;
      destruct (Z.compare_spec x z) as [->| |]; (done || lia).
Qed.

Lemma compare_sub (x y : Z) : (x - y ?= 0) = (x ?= y).
Proof. destruct (Z.compare_spec x y), (Z.compare_spec (x - y) 0); (done || lia). Qed.

(** [strncmp] on the common length decides the order, or the lengths do. *)
Lemma strncmp_lex a b : no_null a → no_null b →
  (let d := strncmp a b (Nat.min (length a) (length b)) in
   if decide (d = 0) then zlen a ?= zlen b else d ?= 0) = lex a b.
Proof.
  revert b. induction a as [|x a IH]; intros [|y b] Ha Hb; try done.
  apply Forall_cons in Ha as [Hx Ha]. apply Forall_cons in Hb as [Hy Hb].
  cbn [strncmp lex length Nat.min]. destruct (decide (x = y)) as [E|E]; cbv zeta.
  - subst. rewrite Z.compare_refl, (decide_False _ _ Hy). rewrite <- (IH b Ha Hb). cbv zeta.
    case_decide; [|done]. rewrite !zlen_cons. by rewrite Z.add_compare_mono_l.
  - rewrite decide_False by lia. rewrite compare_sub. destruct (Z.compare_spec x y); (done || lia).
Qed.
Lemma name_diff_lex a b : no_null a → no_null b → zlen a < 2 ^ 30 → zlen b < 2 ^ 30 →
  (name_diff a b ?= 0) = lex a b.
Proof.
  intros Ha Hb Hla Hlb. rewrite <- (strncmp_lex a b) by done. unfold name_diff. simpl.
  assert (Z.to_nat (if decide (zlen a < zlen b) then zlen a else zlen b) =
          Nat.min (length a) (length b)) as ->.
  { unfold zlen. case_decide; lia. }
  pose proof (zlen_nonneg a). pose proof (zlen_nonneg b).
  rewrite wrap_s_id by (try done; unfold in_s; simpl; lia).
  case_decide; [|done]. by rewrite compare_sub.
Qed.

Lemma strongly_sorted_insert {B} (R : B → B → Prop) (l k : list B) x :
  StronglySorted R (l ++ k) → Forall (λ y, R y x) l → Forall (R x) k →
  StronglySorted R (l ++ x :: k).
Proof.
  induction l as [|y l IH]; simpl; intros Hs Hl Hk; [by constructor|].
  apply StronglySorted_inv in Hs as [Hs Hy]. apply Forall_cons in Hl as [? Hl].
  constructor; [by apply IH|]. apply Forall_app in Hy as [? ?]. apply Forall_app. by split; [|constructor].
Qed.

Definition name_le (e1 e2 : ZipEntry) : Prop := lex (fileName e1) (fileName e2) ≠ Gt.

Lemma validFilename_spec name : validFilename name = true →
  zlen name < PATH_MAX ∧ Forall (λ c, 32 ≤ c < 127) name.
Proof.
  unfold validFilename. intros [?%bool_decide_eq_true Hf]%andb_true_iff. split; [done|].
  apply Forall_forall. intros c Hc. rewrite forallb_forall in Hf.
  specialize (Hf c ltac:(by apply list_elem_of_In)). simpl in Hf.
  apply negb_true_iff, orb_false_iff in Hf as [?%bool_decide_eq_false ?%bool_decide_eq_false]. lia.
Qed.
Lemma valid_no_null name : validFilename name = true → no_null name ∧ zlen name < 2 ^ 30.
Proof.
  intros [Hl Hf]%validFilename_spec. unfold PATH_MAX in *. split; [|lia].
  eapply Forall_impl; [done|]. simpl. lia.
Qed.

(** The binary search leaves smaller names below and greater ones above. *)
Lemma search_slot_ok (es : list ZipEntry) i name :
  i ≤ zlen es → StronglySorted name_le (take (Z.to_nat i) es) →
  validFilename name = true → Forall (λ e, validFilename (fileName e) = true) (take (Z.to_nat i) es) →
  ∀ fuel low high, 0 ≤ low → low ≤ high + 1 → high < i → high - low < Z.of_nat fuel →
  (∀ j e, (Z.of_nat j < low) → take (Z.to_nat i) es !! j = Some e → lex (fileName e) name ≠ Gt) →
  (∀ j e, (high < Z.of_nat j) → take (Z.to_nat i) es !! j = Some e → lex name (fileName e) ≠ Gt) →
  run_ok (search_slot fuel es name low high) (λ r, -1 ≤ r < i ∧
    (∀ j e, (Z.of_nat j ≤ r) → take (Z.to_nat i) es !! j = Some e → lex (fileName e) name ≠ Gt) ∧
    (∀ j e, (r < Z.of_nat j) → take (Z.to_nat i) es !! j = Some e → lex name (fileName e) ≠ Gt)).
Proof.
  intros Hlen Hs Hv Hall. destruct (valid_no_null _ Hv) as [Hnn Hl].
  assert (∀ j k e e', take (Z.to_nat i) es !! j = Some e → take (Z.to_nat i) es !! k = Some e' →
    (j ≤ k)%nat → lex (fileName e) (fileName e') ≠ Gt) as Hord.
  { intros j k e e' Hj Hk Hjk. destruct (decide (j = k)) as [->|].
    - rewrite Hj in Hk. injection Hk as ->. by rewrite (proj2 (lex_eq _ _) eq_refl).
    - by apply (StronglySorted_lookup name_le _ j k e e' Hs); [lia|..]. }
  induction fuel as [|fuel IH]; intros low high H1 H2 H3 Hf Hlo Hhi; simpl.
  { rewrite decide_False by lia. apply run_ok_done. split; [lia|].
    split; [intros j e ?; apply Hlo; lia|done]. }
  case_decide.
  2: { apply run_ok_done. split; [lia|]. split; [intros j e ?; apply Hlo; lia|done]. }
  rewrite Z.quot_div_nonneg by lia. set (mid := low + (high - low) / 2).
  assert (low ≤ mid ≤ high) as Hmid by (unfold mid; pose proof (Z.mul_div_le (high - low) 2); pose proof (Z.div_pos (high - low) 2); lia).
  destruct (proj2 (znth_is_Some es mid)) as [e He]; [lia|]. rewrite He. simpl.
  assert (take (Z.to_nat i) es !! Z.to_nat mid = Some e) as Ht.
  { rewrite lookup_take_lt by lia. by rewrite <- znth_lookup by lia. }
  destruct (valid_no_null (fileName e)) as [Hnn' Hl']; [by eapply (Forall_lookup_1 _ _ _ _ Hall)|].
  pose proof (name_diff_lex (fileName e) name Hnn' Hnn Hl' Hl) as Hd.
  destruct (decide (name_diff (fileName e) name < 0)) as [Hneg|Hneg].
  - apply IH; [lia..| |done]. intros j e' Hj He'.
    assert (lex (fileName e) name ≠ Gt) as Hlt by (rewrite <- Hd; destruct (Z.compare_spec (name_diff (fileName e) name) 0); (done || lia)).
    eapply lex_trans; [eapply (Hord j (Z.to_nat mid)); [done|done|lia]|done].
  - destruct (decide (name_diff (fileName e) name > 0)) as [Hpos|Hpos].
    + apply IH; [lia..|done|]. intros j e' Hj He'.
      assert (lex name (fileName e) ≠ Gt) as Hgt.
      { rewrite lex_antisym, <- Hd. destruct (Z.compare_spec (name_diff (fileName e) name) 0); (done || lia). }
      eapply lex_trans; [done|]. eapply (Hord (Z.to_nat mid) j); [done|done|lia].
    + assert (lex (fileName e) name = Eq) as Heq.
      { rewrite <- Hd. destruct (Z.compare_spec (name_diff (fileName e) name) 0); (done || lia). }
      apply lex_eq in Heq. subst name. apply run_ok_done. split; [lia|].
      split; intros j e' Hj He'; [eapply (Hord j (Z.to_nat mid))|eapply (Hord (Z.to_nat mid) j)];
        (done || lia).
Qed.

(** * Parsing *)

(** The part of the address space a map is in. *)
Definition mapped `{Abi} (m : MemMapping) : Prop :=
  0 < map_addr m ∧ map_addr m + map_length m < 2 ^ long_bits ∧ is_bytes (map_data m).

(** No word of the file added to the address of the map gives one of the last
    addresses, where the check of [parseZipArchive] on the local header wraps
    around. *)
Definition no_wrap `{Abi} (m : MemMapping) : Prop :=
  ∀ i v, get4LE (map_data m) i = Some v →
    map_addr m + v + LOCHDR < 2 ^ long_bits ∨ 2 ^ long_bits ≤ map_addr m + v.

(** With 64-bit pointers and a map in the lower half nothing wraps around. *)
Lemma no_wrap_64 `{Abi} m :
  long_bits = 64 → mapped m → map_addr m < 2 ^ 63 → no_wrap m.
Proof.
  intros Hb (_ & _ & Hm) Ha i v Hv. left. rewrite Hb.
  assert (0 ≤ i ∧ i + 4 ≤ zlen (map_data m)) as [Hi Hl].
  { unfold get4LE in Hv. destruct (znth (map_data m) i) eqn:E0; [|done]. simpl in Hv.
    destruct (znth (map_data m) (i + 1)); [|done]. destruct (znth (map_data m) (i + 2)); [|done].
    simpl in Hv. destruct (znth (map_data m) (i + 3)) eqn:E3; [|done].
    apply znth_Some in E0, E3. lia. }
  destruct (get4LE_ok _ _ Hm Hi Hl) as (v' & E & Hr). rewrite Hv in E. injection E as <-.
  unfold in_u, LOCHDR in *. lia.
Qed.

(** What [parseZipArchive] checks of an entry. *)
Record entry_ok `{Abi} (m : MemMapping) (e : ZipEntry) : Prop := {
  ok_name : validFilename (fileName e) = true;
  ok_comp : in_s long_bits (compLen e);
  ok_fits : in_s long_bits (offset e + compLen e);
  ok_end : size_t (size_t (offset e) + size_t (compLen e)) ≤ map_length m;
  ok_offset : map_length m ≤ 2 ^ 30 → LOCHDR ≤ offset e < 2 ^ 31;
  ok_comp64 : long_bits = 64 → 0 ≤ compLen e
}.

(** The data of an entry lie in the file, unless its length is negative. *)
Lemma entry_inside `{Abi} m e : entry_ok m e → map_length m ≤ 2 ^ 30 → 0 ≤ compLen e →
  LOCHDR ≤ offset e ∧ offset e + compLen e ≤ map_length m.
Proof.
  intros [_ Hc Hf He Ho _] Hl Hpos. specialize (Ho Hl). split; [lia|].
  unfold size_t, LOCHDR in *.
  assert (2 ^ long_bits = 2 * 2 ^ (long_bits - 1)) as E.
  { rewrite <- Z.pow_succ_r by (destruct long_bits_ok; lia). f_equal. lia. }
  unfold in_s in Hf. rewrite (wrap_u_id _ (offset e)), (wrap_u_id _ (compLen e)), wrap_u_id in He
    by (unfold in_u; lia). lia.
Qed.

Section parse.
Context `{Abi} `{!SafeIop} `{!SafeIopLaws _}.

Lemma long_u32 v : in_u 32 v → in_s long_bits (long v) ∧ (long_bits = 64 → long v = v).
Proof.
  intros Hv. split; [apply wrap_s_range; destruct long_bits_ok; lia|].
  intros E. apply wrap_s_id; [lia|]. rewrite E. unfold in_u in Hv. unfold in_s. simpl. lia.
Qed.

Lemma data_offset_ok m lho comp :
  mapped m → in_u 32 lho → in_s long_bits comp →
  map_addr m + lho + LOCHDR < 2 ^ long_bits ∨ 2 ^ long_bits ≤ map_addr m + lho →
  run_ok (data_offset m lho comp) (λ r, match r with
    | Some off => in_s long_bits (off + comp) ∧
        size_t (size_t off + size_t comp) ≤ map_length m ∧
        (map_length m ≤ 2 ^ 30 → LOCHDR ≤ off < 2 ^ 31)
    | None => True
    end).
Proof.
  intros (Ha & Hend & Hm) Hl Hc Hw. unfold data_offset.
  pose proof (zlen_nonneg (map_data m)). unfold map_length in *.
  assert (2 ^ 32 ≤ 2 ^ long_bits) as Hbig by (destruct long_bits_ok as [-> | ->]; lia).
  rewrite safe_add_uintptr_spec by (unfold in_u in *; lia).
  case_decide as Hadd; [|by apply run_ok_ret]. destruct Hadd as [_ Hadd].
  destruct Hw as [Hw|Hw]; [|lia].
  unfold in_u, LOCHDR in *.
  assert (size_t (map_addr m + lho + 30) = map_addr m + lho + 30) as ->
    by (apply wrap_u_id; unfold in_u; lia).
  assert (size_t (map_addr m + zlen (map_data m)) = map_addr m + zlen (map_data m)) as ->
    by (apply wrap_u_id; unfold in_u; lia).
  case_decide as Hin; [by apply run_ok_ret|].
  replace (map_addr m + lho - map_addr m) with lho by lia.
  destruct (get4LE_ok (map_data m) lho Hm) as (sig & -> & _); [lia..|]. simpl.
  case_decide; [by apply run_ok_ret|].
  destruct (get2LE_ok (map_data m) (lho + LOCNAM) Hm) as (nam & -> & ?); [unfold LOCNAM; lia..|]. simpl.
  destruct (get2LE_ok (map_data m) (lho + LOCEXT) Hm) as (ext & -> & ?); [unfold LOCEXT; lia..|]. simpl.
  set (off := long _).
  assert (in_s long_bits off) as Hoff by (apply wrap_s_range; destruct long_bits_ok; lia).
  rewrite safe_add_long_spec by done. case_bool_decide as Hadd2; simpl; [|by apply run_ok_ret].
  case_decide; [by apply run_ok_ret|]. apply run_ok_ret. split; [done|]. split; [lia|].
  intros Hsmall. unfold off, long. rewrite wrap_u_id by (unfold in_u; lia).
  rewrite wrap_s_id; [lia|destruct long_bits_ok; lia|].
  unfold in_s. destruct long_bits_ok as [-> | ->]; simpl; lia.
Qed.

(** Reading an entry never leaves the map; the result does not depend on where the
    entry is put. *)
Lemma read_entry_ok {B} m ptr (place : bytes → run B) (P : bytes → B → Prop) :
  mapped m → no_wrap m → 0 ≤ ptr →
  (∀ name, validFilename name = true → run_ok (place name) (P name)) →
  run_ok (read_entry m ptr place) (λ r, match r with
    | Some (e, ptr', b) => entry_ok m e ∧ ptr < ptr' ∧ P (fileName e) b ∧
        read_entry m ptr mret = Done (Some (e, ptr', fileName e))
    | None => True
    end).
Proof.
  intros Hmap Hw Hp Hplace. pose proof Hmap as (Ha & Hend & Hm). unfold read_entry.
  unfold map_length in *. unfold CENHDR.
  case_decide; [by apply run_ok_ret|].
  destruct (get4LE_ok (map_data m) ptr Hm) as (sig & -> & _); [lia..|]. simpl.
  case_decide; [by apply run_ok_ret|].
  destruct (get4LE_ok (map_data m) (ptr + CENOFF) Hm) as (lho & Elho & Hlho); [unfold CENOFF; lia..|].
  rewrite Elho. simpl.
  destruct (get2LE_ok (map_data m) (ptr + CENNAM) Hm) as (nl & -> & ?); [unfold CENNAM; lia..|]. simpl.
  destruct (get2LE_ok (map_data m) (ptr + CENEXT) Hm) as (xl & -> & ?); [unfold CENEXT; lia..|]. simpl.
  destruct (get2LE_ok (map_data m) (ptr + CENCOM) Hm) as (cl & -> & ?); [unfold CENCOM; lia..|]. simpl.
  case_decide; [by apply run_ok_ret|].
  destruct (proj2 (zslice_is_Some (map_data m) (ptr + 46) nl)) as [name ->]; [lia|]. simpl.
  destruct (validFilename name) eqn:Hv; simpl; [|by apply run_ok_ret].
  destruct (Hplace name Hv) as (b & -> & HP). simpl.
  destruct (get4LE_ok (map_data m) (ptr + CENSIZ) Hm) as (comp & -> & Hcomp); [unfold CENSIZ; lia..|]. simpl.
  destruct (get4LE_ok (map_data m) (ptr + CENLEN) Hm) as (unc & -> & _); [unfold CENLEN; lia..|]. simpl.
  destruct (get2LE_ok (map_data m) (ptr + CENHOW) Hm) as (how & -> & _); [unfold CENHOW; lia..|]. simpl.
  destruct (get4LE_ok (map_data m) (ptr + CENTIM) Hm) as (tim & -> & _); [unfold CENTIM; lia..|]. simpl.
  destruct (get4LE_ok (map_data m) (ptr + CENCRC) Hm) as (crc & -> & _); [unfold CENCRC; lia..|]. simpl.
  destruct (get2LE_ok (map_data m) (ptr + CENVEM) Hm) as (vem & -> & _); [unfold CENVEM; lia..|]. simpl.
  case_decide; [by apply run_ok_ret|].
  destruct (get4LE_ok (map_data m) (ptr + CENATX) Hm) as (atx & -> & _); [unfold CENATX; lia..|]. simpl.
  destruct (long_u32 comp Hcomp) as [Hcl Hc64].
  destruct (data_offset_ok m lho (long comp) Hmap Hlho Hcl (Hw _ _ Elho)) as (r & -> & Hr). simpl.
  destruct r as [off|]; [|by apply run_ok_ret]. destruct Hr as (Hr1 & Hr2 & Hr3).
  apply run_ok_ret. split; [|split; [lia|done]].
  split; simpl; [done..|]. intros E. rewrite Hc64 by done. unfold in_u in Hcomp. lia.
Qed.
End parse.

(** ** The array of entries *)

(** The first [i] entries with one more put at [target]. *)
Lemma slots_ok es target i e : 0 ≤ target ≤ i → i < zlen es →
  ∃ es', make_slot es target i = Done es' ∧ zlen es' = zlen es ∧
    set_slot es' target e = Done (<[Z.to_nat target := e]> es') ∧
    take (Z.to_nat (i + 1)) (<[Z.to_nat target := e]> es') =
      take (Z.to_nat target) (take (Z.to_nat i) es) ++
      e :: drop (Z.to_nat target) (take (Z.to_nat i) es).
Proof.
  intros Ht Hi. unfold zlen in *. set (t := Z.to_nat target). set (n := Z.to_nat i).
  set (es' := take (S t) es ++ take (n - t) (drop t es) ++ drop (S n) es).
  assert (length es' = length es) as Hlen.
  { unfold es'. rewrite !length_app, !length_take, !length_drop. unfold t, n. lia. }
  assert (take (S n) (<[t := e]> es') = take t (take n es) ++ e :: drop t (take n es)) as Htake.
  { rewrite take_take, Nat.min_l by (unfold t, n; lia).
    rewrite insert_take_drop by (unfold t, n in *; lia).
    assert (take t es' = take t es) as ->.
    { unfold es'. rewrite take_app_le by (rewrite length_take; unfold t, n; lia).
      rewrite take_take. f_equal. lia. }
    assert (drop (S t) es' = take (n - t) (drop t es) ++ drop (S n) es) as ->.
    { unfold es'. rewrite drop_app_length'; [done|]. rewrite length_take. unfold t, n in *. lia. }
    rewrite take_app_ge by (rewrite length_take; unfold t, n; lia). f_equal.
    rewrite length_take. replace (S n - t `min` length es)%nat with (S (n - t)) by (unfold t, n; lia).
    simpl. f_equal. rewrite take_app_le.
    - rewrite skipn_firstn_comm, take_take. f_equal. lia.
    - rewrite length_take, length_drop. unfold t, n. lia. }
  exists es'. unfold zlen. rewrite Hlen. split; [|split; [done|split]].
  - unfold make_slot. case_decide as E.
    + subst. unfold es'. replace (n - t)%nat with 0%nat by (unfold n, t; lia).
      replace t with n by done. by rewrite take_0, app_nil_l, take_drop.
    + rewrite decide_True by (unfold zlen; lia). unfold mret, run_ret, es', t, n.
      do 2 f_equal; [f_equal; lia|]. f_equal; f_equal; lia.
  - unfold set_slot. rewrite decide_True; [done|]. unfold zlen. lia.
  - replace (Z.to_nat (i + 1)) with (S n) by (unfold n; lia). done.
Qed.

Lemma take_drop_insert_perm {B} (l : list B) n x : take n l ++ x :: drop n l ≡ₚ x :: l.
Proof. rewrite <- Permutation_middle. by rewrite take_drop. Qed.

(** The entries of the central directory in the order of the file. *)
Fixpoint directory `{Abi} `{SafeIop} (n : nat) (m : MemMapping) (ptr : Z)
    : run (option (list ZipEntry)) :=
  match n with
  | O => mret (Some [])
  | S n =>
      r ← read_entry m ptr mret;
      match r with
      | None => mret None
      | Some (e, ptr, _) =>
          r ← directory n m ptr;
          match r with None => mret None | Some l => mret (Some (e :: l)) end
      end
  end.

Section entries.
Context `{Abi} `{!SafeIop} `{!SafeIopLaws _}.

(** What holds of the first [i] entries of the array. *)
Definition ordered (m : MemMapping) (es : list ZipEntry) : Prop :=
  StronglySorted name_le es ∧ Forall (entry_ok m) es.

Lemma target_slot_ok m es name i :
  0 ≤ i < 2 ^ 16 → i ≤ zlen es → ordered m (take (Z.to_nat i) es) → validFilename name = true →
  run_ok (target_slot es name i) (λ t, 0 ≤ t ≤ i ∧
    Forall (λ e, lex (fileName e) name ≠ Gt) (take (Z.to_nat t) (take (Z.to_nat i) es)) ∧
    Forall (λ e, lex name (fileName e) ≠ Gt) (drop (Z.to_nat t) (take (Z.to_nat i) es))).
Proof.
  intros Hi Hlen [Hs Hall] Hv. unfold target_slot. case_decide.
  2: { assert (i = 0) as -> by lia. apply run_ok_ret. split; [lia|]. by split. }
  eapply run_ok_bind.
  - apply (search_slot_ok es i name); try done; try lia.
    + eapply Forall_impl; [exact Hall|]. intros e He. by destruct He.
    + intros j e Hj He. apply lookup_lt_Some in He. rewrite length_take in He. lia.
  - intros r (Hr & Hlo & Hhi). rewrite wrap_u_id by (unfold in_u; lia).
    rewrite decide_True by lia. apply run_ok_ret. split; [lia|].
    split; apply Forall_lookup; intros j e Hj.
    + apply lookup_take_Some in Hj as [Hj ?]. apply (Hlo j); [lia|done].
    + rewrite lookup_drop in Hj. apply (Hhi (Z.to_nat (r + 1) + j)%nat); [lia|done].
Qed.

Lemma read_entries_ok m n : ∀ i ptr es,
  mapped m → no_wrap m → 0 ≤ ptr → 0 ≤ i → i + Z.of_nat n ≤ zlen es → zlen es ≤ 2 ^ 16 →
  ordered m (take (Z.to_nat i) es) →
  run_ok (read_entries n m i ptr es) (λ r, match r with
    | Some es' => zlen es' = zlen es ∧ ordered m (take (Z.to_nat (i + Z.of_nat n)) es') ∧
        ∃ l, directory n m ptr = Done (Some l) ∧
             take (Z.to_nat (i + Z.of_nat n)) es' ≡ₚ take (Z.to_nat i) es ++ l
    | None => True
    end).
Proof.
  induction n as [|n IH]; intros i ptr es Hm Hw Hp Hi Hn Hmax Hord; simpl.
  { apply run_ok_ret. rewrite Z.add_0_r. split; [done|]. split; [done|]. exists [].
    by rewrite app_nil_r. }
  eapply run_ok_bind.
  - apply (read_entry_ok m ptr _ (λ name b, ∃ t, 0 ≤ t ≤ i ∧
      Forall (λ e, lex (fileName e) name ≠ Gt) (take (Z.to_nat t) (take (Z.to_nat i) es)) ∧
      Forall (λ e, lex name (fileName e) ≠ Gt) (drop (Z.to_nat t) (take (Z.to_nat i) es)) ∧
      b.2 = t ∧ make_slot es t i = Done b.1)); [done..|].
    intros name Hv. eapply run_ok_bind; [apply (target_slot_ok m es name i); (done || lia)|].
    intros t (Ht & Hlo & Hhi).
    destruct (slots_ok es t i null_entry Ht) as (es' & Emk & _); [lia|]. rewrite Emk.
    apply run_ok_ret. exists t. by split_and!; try lia.
  - intros [[[e ptr'] [es' t']]|]; [|intros _; by apply run_ok_ret].
    intros (He & Hptr & (t & Ht & Hlo & Hhi & Et & Emk) & Hread). simpl in Et, Emk. subst t'.
    destruct (slots_ok es t i e Ht) as (es1 & E1 & Hlen1 & E2 & Htake); [lia|].
    rewrite E1 in Emk. injection Emk as ->. rewrite E2. simpl.
    destruct Hord as [Hs Hall]. rewrite <- (take_drop (Z.to_nat t) (take (Z.to_nat i) es)) in Hs.
    eapply run_ok_weaken; [apply IH; try done; rewrite ?zlen_insert; try lia|].
    + rewrite Htake. split.
      * apply strongly_sorted_insert; [done|..]; (eapply Forall_impl; [eassumption|done]).
      * rewrite take_drop_insert_perm. by constructor.
    + intros [es2|]; [|done]. rewrite Htake, zlen_insert.
      replace (i + 1 + Z.of_nat n) with (i + Z.of_nat (S n)) by lia.
      intros (? & Hord' & l & Hl & Hperm). split; [lia|]. split; [done|]. exists (e :: l).
      rewrite Hread. simpl. rewrite Hl. simpl. split; [done|].
      rewrite Hperm, take_drop_insert_perm. by rewrite <- Permutation_middle.
Qed.
End entries.

(** ** The index by name *)

Lemma computeHash_range name : in_u 32 (computeHash name).
Proof.
  unfold computeHash. assert (in_u 32 2) as H2 by (unfold in_u; lia). revert H2.
  generalize 2. induction name as [|c name IH]; intros a Ha; simpl; [done|].
  apply IH. apply wrap_u_range. lia.
Qed.

Lemma names_cmp a b : zlen a < 2 ^ 30 → zlen b < 2 ^ 30 →
  (if decide (zlen a ≠ zlen b) then s32 (zlen a - zlen b) else memcmp a b) = 0 ↔ a = b.
Proof.
  intros Ha Hb. pose proof (zlen_nonneg a). pose proof (zlen_nonneg b).
  rewrite wrap_s_id by (try done; unfold in_s; simpl; lia).
  case_decide; split; [lia|by intros ->| |intros ->; apply memcmp_refl].
  apply memcmp_eq. lia.
Qed.

Definition named (es : list ZipEntry) : Prop := Forall (λ e, validFilename (fileName e) = true) es.

Lemma named_len es i e : named es → znth es i = Some e → zlen (fileName e) < 2 ^ 30.
Proof.
  intros Hn He. unfold znth in He. case_decide; [|done].
  eapply Forall_lookup_1 in Hn; [|done]. by apply valid_no_null in Hn as [_ ?].
Qed.

(** The table has, by the hashes of their names, entries of the array, among them
    one for each name of the first [k] entries. *)
Definition indexed (es : list ZipEntry) (k : Z) (l : list (Z * pointer)) : Prop :=
  (∀ hv p, (hv, p) ∈ l →
    ∃ i e, p = AnEntry i ∧ znth es i = Some e ∧ hv = computeHash (fileName e)) ∧
  (∀ j e, j < k → znth es j = Some e →
    ∃ i e', (computeHash (fileName e), AnEntry i) ∈ l ∧ znth es i = Some e' ∧
            fileName e' = fileName e).

Lemma indexed_add es k l x r l' e :
  named es → znth es k = Some e → indexed es k l →
  lookup_spec l (computeHash (fileName e)) (AnEntry k) (hashcmpZipEntry es) true r l' →
  x = AnEntry k → indexed es (k + 1) l' ∧ zlen l' ≤ zlen l + 1.
Proof.
  intros Hn He [Hin Hall] Hspec ->.
  assert (∀ j e', j < k + 1 → znth es j = Some e' → j < k ∨ e' = e) as Hlast.
  { intros j e' Hj E. destruct (decide (j = k)) as [->|]; [|lia]. right.
    rewrite He in E. by injection E. }
  destruct Hspec as [(y & Hy & Hcmp & _ & ->) | [_ (_ & Hp)]].
  - split; [|lia]. split; [done|]. intros j e' Hj E. destruct (Hlast j e' Hj E) as [?| ->]; [by eapply Hall|].
    destruct (Hin _ _ Hy) as (i & e1 & -> & Hi & _). exists i, e1. split; [done|]. split; [done|].
    unfold hashcmpZipEntry, entry_name in Hcmp. rewrite Hi, He in Hcmp.
    apply names_cmp in Hcmp; [done|by eapply named_len|by eapply named_len].
  - split; [|rewrite Hp, zlen_cons; lia]. split.
    + intros hv p. rewrite Hp, elem_of_cons. intros [[= -> ->] | ?]; [by exists k, e|by apply Hin].
    + intros j e' Hj E. destruct (Hlast j e' Hj E) as [Hlt | ->].
      * destruct (Hall j e' Hlt E) as (i & e1 & ? & ? & ?). exists i, e1.
        rewrite Hp, elem_of_cons. split_and!; [by right|done|done].
      * exists k, e. rewrite Hp, elem_of_cons. split_and!; [by left|done|done].
Qed.

Section index.
Context (hash_calloc : Z → bool).
Hypothesis Hcalloc : ∀ n, n ≤ 2 ^ 30 → hash_calloc n = true.

Lemma add_entries_ok (es : list ZipEntry) n : ∀ i h,
  named es → 0 ≤ i → i + Z.of_nat n = zlen es → wf h → tableSize h ≤ 2 ^ 27 →
  zlen es * LOAD_DENOM ≤ tableSize h * LOAD_NUMER → numDeadEntries h = 0 → numEntries h ≤ i →
  indexed es i (contents h) →
  run_ok (add_entries hash_calloc n es i h) (λ h', wf h' ∧ indexed es (zlen es) (contents h') ∧
    tableSize h' = tableSize h).
Proof.
  induction n as [|n IH]; intros i h Hn Hi Hl Hwf Hsz Hroom Hdead Hcount Hidx; simpl.
  { apply run_ok_ret. replace (zlen es) with i by lia. done. }
  destruct (proj2 (znth_is_Some es i)) as [e He]; [lia|].
  unfold LOAD_NUMER, LOAD_DENOM in *.
  assert (unhurried h) as Hun by (unfold unhurried, LOAD_NUMER, LOAD_DENOM; lia).
  eapply (run_ok_bind _ _ (λ h', wf h' ∧ tableSize h' = tableSize h ∧
    numDeadEntries h' = 0 ∧ numEntries h' ≤ i + 1 ∧ indexed es (i + 1) (contents h'))).
  - unfold addEntryToHashTable. rewrite He. simpl.
    eapply run_ok_bind; [apply (mzHashTableLookup_ok hash_calloc h); try done|].
    + intros. apply Hcalloc. lia.
    + apply computeHash_range.
    + intros [r h'] (Hwf' & Hspec & Hsame). destruct (Hsame Hun) as [Hts Hds].
      destruct (indexed_add es i (contents h) _ r (contents h') e Hn He Hidx Hspec eq_refl).
      apply run_ok_ret. split_and!; try done; [lia|].
      rewrite (wf_live h' Hwf'). rewrite (wf_live h Hwf) in Hcount. unfold contents in *. lia.
  - intros h' (Hwf' & Hs' & Hd' & Hc' & Hi'). rewrite <- Hs'. apply IH; try done; lia.
Qed.

(** The size the table is made with leaves room for every entry. *)
Lemma mzHashSize_room `{Abi} n : 0 ≤ n < 2 ^ 16 →
  n * LOAD_DENOM ≤ mzHashSize n * LOAD_NUMER ∧ 0 < mzHashSize n ≤ 2 ^ 17.
Proof.
  intros Hn. unfold mzHashSize, LOAD_DENOM, LOAD_NUMER.
  rewrite (size_t_id (n * 8)) by (unfold INT_MAX; lia).
  pose proof (Z.div_mod (n * 8) 5 ltac:(lia)). pose proof (Z.mod_pos_bound (n * 8) 5 ltac:(lia)).
  rewrite size_t_id by (unfold INT_MAX; lia). lia.
Qed.
End index.

(** * The parser *)

Lemma find_eocd_ok data : is_bytes data → ∀ fuel ptr,
  ptr + ENDHDR ≤ zlen data → ptr < Z.of_nat fuel →
  run_ok (find_eocd fuel data ptr) (λ r, match r with
    | Some p => 0 ≤ p ∧ p + ENDHDR ≤ zlen data
    | None => True
    end).
Proof.
  intros Hd. unfold ENDHDR. induction fuel as [|fuel IH]; intros ptr Hp Hf; simpl.
  { rewrite decide_False by lia. by apply run_ok_done. }
  case_decide; [|by apply run_ok_done].
  destruct (znth_byte data ptr Hd) as (b & -> & _); [lia|]. simpl.
  case_decide; [|apply IH; lia].
  destruct (get4LE_ok data ptr Hd) as (sig & -> & _); [lia..|]. simpl.
  case_decide; [by apply run_ok_done|apply IH; lia].
Qed.

Section parser.
Context `{Abi} `{!SafeIop} `{!SafeIopLaws _}.
Context (entries_calloc hash_calloc : Z → bool).
Hypothesis Hcalloc : ∀ n, n ≤ 2 ^ 30 → hash_calloc n = true.

(** An archive that was parsed. *)
Definition archive_ok (m : MemMapping) (a : ZipArchive) : Prop :=
  ∃ es h, zip_pEntries a = Some es ∧ pHash a = Some h ∧ zlen es = zip_numEntries a ∧
    ordered m es ∧ wf h ∧ tableSize h ≤ 2 ^ 27 ∧ indexed es (zlen es) (contents h) ∧
    ∃ cd l, directory (length es) m cd = Done (Some l) ∧ es ≡ₚ l.

Lemma named_ordered m es : ordered m es → named es.
Proof. intros [_ Ha]. eapply Forall_impl; [exact Ha|]. intros e He. by destruct He. Qed.

Lemma parseZipArchive_ok a m :
  mapped m → no_wrap m → ENDHDR ≤ map_length m →
  run_ok (parseZipArchive entries_calloc hash_calloc a m) (λ '(ok, a'),
    if (ok : bool) then archive_ok m a' else pHash a' = None).
Proof.
  intros Hm Hw Hlen. pose proof Hm as (Ha & Hend & Hb). unfold parseZipArchive.
  unfold map_length in *. unfold ENDHDR in Hlen.
  destruct (get4LE_ok (map_data m) 0 Hb) as (val & -> & _); [lia..|]. simpl.
  case_decide; [by apply run_ok_ret|]. case_decide; [by apply run_ok_ret|].
  eapply run_ok_bind; [apply (find_eocd_ok (map_data m) Hb); unfold ENDHDR, zlen in *; lia|].
  intros [ptr|]; [|intros _; by apply run_ok_ret]. unfold ENDHDR. intros [Hp Hpe].
  destruct (get2LE_ok (map_data m) (ptr + ENDSUB) Hb) as (n & -> & Hn); [unfold ENDSUB; lia..|]. simpl.
  destruct (get4LE_ok (map_data m) (ptr + ENDOFF) Hb) as (cd & -> & Hcd); [unfold ENDOFF; lia..|]. simpl.
  case_decide as Hbad; [by apply run_ok_ret|].
  destruct (mzHashSize_room n ltac:(lia)) as [Hroom Hsz].
  eapply run_ok_bind; [apply (mzHashTableCreate_fresh (A := pointer)); [lia|done]|].
  intros _ (h & k & -> & Hwf & Hcont & Hnum & Hdead & Hts & Hle & Hleast).
  destruct (entries_calloc n); [|by apply run_ok_ret].
  assert (zlen (replicate (Z.to_nat n) null_entry) = n) as Hrep by (unfold zlen; rewrite length_replicate; lia).
  assert (2 ^ k ≤ 2 ^ 17) as Hk by (apply Hleast; lia).
  eapply run_ok_bind; [apply (read_entries_ok m); try done; try (unfold in_u in *; lia)|].
  { split; constructor. }
  intros [es|]; [|intros _; by apply run_ok_ret].
  rewrite Z.add_0_l, Hrep, Z2Nat.id by lia. intros (Hes & Hord & l & Hl & Hp').
  rewrite take_ge in Hord, Hp' by (unfold zlen in *; lia).
  eapply run_ok_bind; [apply (add_entries_ok hash_calloc Hcalloc es); try done|].
  - by eapply named_ordered.
  - lia.
  - lia.
  - rewrite Hes, Hts. unfold LOAD_DENOM, LOAD_NUMER in *. lia.
  - lia.
  - rewrite Hcont. split; [intros ? ? []%elem_of_nil|]. intros j e Hj E. apply znth_Some in E. lia.
  - intros h' (Hwf' & Hidx & Hs'). apply run_ok_ret. exists es, h'. split_and!; try done; [lia|].
    exists cd, l. split; [|done]. rewrite <- Hl. f_equal. unfold zlen in *. lia.
Qed.
End parser.

(** * Properties of the parser *)

Section properties.
Context `{Abi} `{!SafeIop} `{!SafeIopLaws _}.
Context (entries_calloc hash_calloc : Z → bool).
Hypothesis Hcalloc : ∀ n, n ≤ 2 ^ 30 → hash_calloc n = true.

(** C11: Where the parser's sums of pointers do not wrap ([no_wrap]: so with 64-bit pointers, and with 32-bit ones when the file is not mapped near
    the end of the address space; see [local_header_check_wraps]) and memory for the hash table can be had, [parseZipArchive] reads any
    file of at least [ENDHDR] bytes without leaving the map and ends; memory for the array of entries may be refused.  If it
    accepts the file, the array has the entries of the central directory sorted by
    name, each with a printable name, and the hash table is well-formed and has,
    under the hash of its name, an entry for every name; otherwise there is no
    hash table left. *)
Theorem parseZipArchive_safe a m :
  mapped m → no_wrap m → ENDHDR ≤ map_length m →
  run_ok (parseZipArchive entries_calloc hash_calloc a m) (λ '(ok, a'),
    if (ok : bool) then archive_ok m a' else pHash a' = None).
Proof. by apply parseZipArchive_ok. Qed.

Lemma parsed a m a' :
  mapped m → no_wrap m → ENDHDR ≤ map_length m →
  parseZipArchive entries_calloc hash_calloc a m = Done (true, a') → archive_ok m a'.
Proof.
  intros Hm Hw Hl E. destruct (parseZipArchive_ok entries_calloc hash_calloc Hcalloc a m Hm Hw Hl)
    as ([ok a1] & E1 & Hok). rewrite E in E1. by injection E1 as <- <-.
Qed.

(** C34: In an archive that was parsed, [mzFindZipEntry] finds an entry with exactly
    the name asked for whenever there is one. *)
Theorem mzFindZipEntry_spec a m a' name :
  mapped m → no_wrap m → ENDHDR ≤ map_length m → strlen name < 2 ^ 30 →
  parseZipArchive entries_calloc hash_calloc a m = Done (true, a') →
  ∃ es r, zip_pEntries a' = Some es ∧ mzFindZipEntry hash_calloc a' name = Done r ∧
    match r with
    | Some p => ∃ i e, p = AnEntry i ∧ znth es i = Some e ∧ fileName e = bytes_of_string name
    | None => ∀ e, e ∈ es → fileName e ≠ bytes_of_string name
    end.
Proof.
  intros Hm Hw Hl Hlen E.
  destruct (parsed a m a' Hm Hw Hl E) as (es & h & Hes & Hh & _ & Hord & Hwf & Hsz & [Hin Hall] & _).
  exists es. unfold mzFindZipEntry. rewrite Hh, Hes.
  assert (zlen (bytes_of_string name) < 2 ^ 30) as Hlen' by (by rewrite zlen_bytes_of_string).
  pose proof (named_ordered m es Hord) as Hn.
  destruct (mzHashTableLookup_ok hash_calloc h (computeHash (bytes_of_string name))
    (AName (bytes_of_string name)) (hashcmpZipName es) false Hwf Hsz) as ([r h'] & -> & _ & Hspec & _).
  { intros. apply Hcalloc. lia. }
  { apply computeHash_range. }
  exists r. split; [done|]. split; [done|].
  assert (∀ i e, znth es i = Some e →
    hashcmpZipName es (AnEntry i) (AName (bytes_of_string name)) = 0 ↔ fileName e = bytes_of_string name)
    as Hcmp.
  { intros i e Hi. unfold hashcmpZipName, entry_name. rewrite Hi.
    apply names_cmp; [by eapply named_len|done]. }
  destruct Hspec as [(y & Hy & Hc & -> & _) | (Hnone & -> & _)].
  - destruct (Hin _ _ Hy) as (i & e & -> & Hi & _). exists i, e. split_and!; [done|done|].
    by apply (Hcmp i e Hi).
  - intros e [j Hj]%list_elem_of_lookup Hname.
    assert (znth es (Z.of_nat j) = Some e) as Hj' by (by rewrite znth_lookup, Nat2Z.id by lia).
    destruct (Hall (Z.of_nat j) e) as (i & e' & Hi & He' & Hsame); [by apply znth_Some in Hj' as [_ ?]|done|].
    rewrite Hname in Hi, Hsame. by apply (Hnone _ Hi), (Hcmp i e' He').
Qed.

(** The data of every entry of an archive that was parsed lie inside the file,
    after a local header, if the length of the entry is not negative, which it never
    is where [long] has 64 bits. *)
Lemma parsed_entries_inside a m a' es e :
  mapped m → no_wrap m → ENDHDR ≤ map_length m ≤ 2 ^ 30 →
  parseZipArchive entries_calloc hash_calloc a m = Done (true, a') →
  zip_pEntries a' = Some es → e ∈ es → long_bits = 64 ∨ 0 ≤ compLen e →
  LOCHDR ≤ offset e ∧ 0 ≤ compLen e ∧ offset e + compLen e ≤ map_length m.
Proof.
  intros Hm Hw Hl E Hes He Hc.
  destruct (parsed a m a' Hm Hw ltac:(lia) E) as (es' & h & Hes' & _ & _ & [_ Hok] & _).
  rewrite Hes in Hes'. injection Hes' as <-. rewrite Forall_forall in Hok. specialize (Hok e He).
  assert (0 ≤ compLen e) as Hpos by (destruct Hc; [by apply Hok|done]).
  destruct (entry_inside m e Hok); [lia|done|]. done.
Qed.
End properties.

(** ** Examples *)

(** An archive with one file; [off] is where its directory entry says the local header is. *)
Definition local_part (name data : bytes) (how : Z) : bytes :=
  set4LE LOCSIG ++ set2LE 10 ++ set2LE 0 ++ set2LE how ++ set4LE 0 ++ set4LE 0 ++
  set4LE (zlen data) ++ set4LE (zlen data) ++ set2LE (zlen name) ++ set2LE 0 ++ name ++ data.
Definition central_part (name : bytes) (how comp uncomp crc off : Z) : bytes :=
  set4LE CENSIG ++ set2LE 10 ++ set2LE 10 ++ set2LE 0 ++ set2LE how ++ set4LE 0 ++ set4LE crc ++
  set4LE comp ++ set4LE uncomp ++ set2LE (zlen name) ++ set2LE 0 ++ set2LE 0 ++ set2LE 0 ++
  set2LE 0 ++ set4LE 0 ++ set4LE off ++ name.
Definition end_part (n cd : Z) : bytes :=
  set4LE ENDSIG ++ set4LE 0 ++ set2LE n ++ set2LE n ++ set4LE 0 ++ set4LE cd ++ set2LE 0.

Definition two_files : bytes :=
  let l1 := local_part (bytes_of_string "b") [1; 2; 3] STORED in
  let l2 := local_part (bytes_of_string "a") [4; 5] STORED in
  l1 ++ l2 ++ central_part (bytes_of_string "b") STORED 3 3 0 0 ++
  central_part (bytes_of_string "a") STORED 2 2 0 (zlen l1) ++ end_part 2 (zlen (l1 ++ l2)).
Definition two_map : MemMapping := mkMemMapping 4096 two_files.
Definition closed : ZipArchive := mkZipArchive 3 0 None None None.
Definition all_memory (n : Z) : bool := true.
Section examples64.
#[local] Existing Instance abi64.
Definition two_archive : ZipArchive :=
  match parseZipArchive  all_memory all_memory closed two_map with
  | Done (_, a) => a
  | _ => closed
  end.

Example parse_two :
  zip_pEntries two_archive =
    Some [mkZipEntry (bytes_of_string "a") 65 2 2 0 0 0 10 0; mkZipEntry (bytes_of_string "b") 31 3 3 0 0 0 10 0].
Proof. vm_compute. reflexivity. Qed.

Lemma two_mapped : mapped  two_map.
Proof. split_and!; [done|by vm_compute|by apply (bool_decide_unpack _); vm_compute]. Defined.

Lemma two_no_wrap : no_wrap  two_map.
Proof. apply no_wrap_64; [done|apply two_mapped|done]. Defined.

Lemma parseZipArchive_safe_witness :
  run_ok (parseZipArchive  all_memory all_memory closed two_map) (λ '(ok, a'),
    if (ok : bool) then archive_ok  two_map a' else pHash a' = None).
Proof.
  apply (parseZipArchive_safe ); [done|apply two_mapped|apply two_no_wrap|by vm_compute].
Defined.

Lemma mzFindZipEntry_spec_witness :
  ∃ es r, zip_pEntries two_archive = Some es ∧
    mzFindZipEntry all_memory two_archive "b" = Done r ∧
    match r with
    | Some p => ∃ i e, p = AnEntry i ∧ znth es i = Some e ∧ fileName e = bytes_of_string "b"
    | None => ∀ e, e ∈ es → fileName e ≠ bytes_of_string "b"
    end.
Proof.
  apply (mzFindZipEntry_spec  all_memory all_memory ltac:(done) closed two_map);
    [apply two_mapped|apply two_no_wrap|by vm_compute|by vm_compute|by vm_compute].
Defined.

Lemma parsed_entries_inside_witness :
  LOCHDR ≤ 65 ∧ 0 ≤ 2 ∧ 65 + 2 ≤ map_length two_map.
Proof.
  apply (parsed_entries_inside  all_memory all_memory ltac:(done) closed two_map two_archive
    [mkZipEntry (bytes_of_string "a") 65 2 2 0 0 0 10 0; mkZipEntry (bytes_of_string "b") 31 3 3 0 0 0 10 0]
    (mkZipEntry (bytes_of_string "a") 65 2 2 0 0 0 10 0));
    [apply two_mapped|apply two_no_wrap|by vm_compute|by vm_compute|by vm_compute|by left|by left].
Defined.

End examples64.

Section examples32.
#[local] Existing Instance abi32.
(** An archive whose directory puts the local header at the top of the address space. *)
Definition wrapping_file (addr : Z) : bytes :=
  let l := local_part (bytes_of_string "b") [1; 2; 3] STORED in
  l ++ central_part (bytes_of_string "b") STORED 3 3 0 (2 ^ 32 - 8 - addr) ++ end_part 1 (zlen l).

(** The sum with the size of a local header wraps around and passes the check. *)
Lemma data_offset_wraps m lho comp :
  30 < map_addr m → map_addr m + map_length m < 2 ^ 32 → 0 ≤ lho →
  map_addr m + lho < 2 ^ 32 ≤ map_addr m + lho + LOCHDR → map_length m ≤ lho →
  data_offset m lho comp = Fault.
Proof.
  intros Ha Hend Hl Hw Hfar. unfold data_offset. unfold map_length, LOCHDR in *.
  pose proof (zlen_nonneg (map_data m)). simpl.
  rewrite decide_True by (unfold in_u; simpl; lia).
  assert (size_t (map_addr m + lho + 30) ≤ 30) as Hwrap.
  { unfold size_t, wrap_u. simpl. rewrite <- (Z_mod_plus_full _ (-1)), Z.mod_small; lia. }
  assert (size_t (map_addr m + zlen (map_data m)) = map_addr m + zlen (map_data m)) as ->
    by (apply wrap_u_id; unfold in_u; simpl; lia).
  rewrite decide_False by lia. replace (map_addr m + lho - map_addr m) with lho by lia.
  unfold get4LE. destruct (znth (map_data m) lho) eqn:E; [apply znth_Some in E; lia|]. done.
Qed.

Definition wrapping_map : MemMapping := mkMemMapping 3068133376 (wrapping_file 3068133376).

(** Evaluates the head of a computation on literals. *)
Ltac step_head :=
  lazymatch goal with
  | |- (if @decide ?P ?d then _ else _) = _ =>
      let b := eval vm_compute in (@bool_decide P d) in
      lazymatch b with
      | true => rewrite (@decide_True _ P d) by (apply (@bool_decide_unpack P d); vm_compute; exact I)
      | false => rewrite (@decide_False _ P d) by (apply (@bool_decide_eq_false_1 P d); vm_compute; reflexivity)
      end
  | |- (if ?b then _ else _) = _ =>
      let v := eval vm_compute in b in replace b with v by (vm_compute; reflexivity)
  | |- (?m ≫= ?f) = _ =>
      let v := eval vm_compute in m in
      lazymatch v with
      | Done ?a => rewrite (run_bind_done m f a) by (vm_compute; reflexivity)
      end
  end.

(** With 32-bit pointers the check of the local header wraps around: for an archive
    mapped at a known address, [parseZipArchive] reads at the top of the address space. *)
Lemma local_header_check_wraps :
  parseZipArchive all_memory all_memory closed wrapping_map = Fault.
Proof.
  assert (∀ place : bytes → run (list ZipEntry * Z),
    place (bytes_of_string "b") = Done ([null_entry], 0) →
    read_entry wrapping_map 34 place = Fault) as Hread.
  { intros place Hplace. unfold read_entry. do 10 (cbv beta zeta; step_head).
    rewrite (run_bind_done _ _ _ Hplace). do 8 (cbv beta zeta; step_head). cbv beta.
    rewrite data_offset_wraps; [done|..]; by vm_compute. }
  unfold parseZipArchive. do 8 (cbv beta zeta; step_head). cbv beta iota zeta.
  unfold all_memory at 1. cbv beta iota.
  assert (∀ es, es = [null_entry] → read_entries (Z.to_nat 1) wrapping_map 0 34 es = Fault) as ->; [|done|done].
  intros es ->. change (Z.to_nat 1) with 1%nat. cbn [read_entries]. by rewrite Hread.
Qed.
End examples32.
