(* ===== verification/ZipData.v ===== *)
(** The data of zip entries: the second half of [minzip/Zip.c].

    The archive is read through a descriptor on [file]; its offset is saved and
    restored by [mzProcessZipEntryContents], so between calls it is [oldOff]. *)
From S2P Require Import Prelude CLib Bytes ZlibSha World Hash Zip.

(** The size of [buf], [readBuf] and [procBuf]. *)
Definition BUF_SIZE : Z := 32768.
Definition Z_DATA_BAIL : Z := -1.
Definition EINTR : Z := 4.

Section zipdata.
Context `{Abi} `{Zlib} `{Crc} {D : Type}.
Implicit Types file : bytes.

(** [read] of [n] bytes into a block of [size] bytes: the number of bytes read, or -1,
    and the bytes. *)
Definition fd_read file (off size n : Z) : io D (Z * bytes) :=
  c ← choose;
  if decide (c < 0) then mret (-1, []) else
  let got := take (Z.to_nat (Z.min c n)) (drop (Z.to_nat off) file) in
  if decide (zlen got ≤ size) then mret (zlen got, got) else lift Fault.

(** [lseek] to a position from the start. *)
Definition lseek_set (old off : Z) : Z := if decide (0 ≤ off) then off else old.

(** ** Streaming an entry *)

(** [C] is what the cookie points to. *)
Section process.
Context {C : Type} (processFunction : C → bytes → io D (bool * C)).

Fixpoint stored_loop (fuel : nat) file (off bytesLeft : Z) (c : C) : io D (bool * C) :=
  if decide (bytesLeft > 0) then
    match fuel with
    | O => lift OutOfFuel
    | S fuel =>
        let count := if decide (bytesLeft > BUF_SIZE) then BUF_SIZE else bytesLeft in
        '(n, buf) ← fd_read file off BUF_SIZE count;
        if decide (n < 0 ∨ n ≠ count) then mret (false, c) else
        '(ret, c) ← processFunction c buf;
        if (ret : bool) then stored_loop fuel file (off + n) (bytesLeft - count) c
        else mret (false, c)
    end
  else mret (true, c).
Definition processStoredEntry file (off : Z) (e : ZipEntry) (c : C) : io D (bool * C) :=
  let bytesLeft := size_t (compLen e) in
  stored_loop (Z.to_nat (bytesLeft / BUF_SIZE + 1)) file off bytesLeft c.

(** Fills [readBuf] when it is used up: the new [compRemaining], offset and input, or
    [None] when the read fails.  With a negative [getSize] that passes the test the
    input of [inflate] reaches behind [readBuf]. *)
Definition refill file (compRemaining off : Z) (input : bytes) : io D (option (Z * Z * bytes)) :=
  if decide (input = []) then
    let getSize := if decide (compRemaining > BUF_SIZE) then BUF_SIZE else compRemaining in
    '(cc, buf) ← fd_read file off BUF_SIZE (size_t getSize);
    if decide (s32 cc ≠ s32 getSize) then mret None
    else if decide (u32 getSize ≤ BUF_SIZE) then mret (Some (compRemaining - getSize, off + cc, buf))
    else lift Fault
  else mret (Some (compRemaining, off, input)).

(** The number of bytes written to the output, or [Z_DATA_BAIL]; [out] is what
    [procBuf] holds. *)
Fixpoint inflate_loop (fuel : nat) file (compRemaining off : Z) (input : bytes) (strm : z_stream)
    (out : bytes) (total_out : Z) (c : C) : io D (Z * C) :=
  match fuel with
  | O => lift OutOfFuel
  | S fuel =>
      r ← refill file compRemaining off input;
      match r with
      | None => mret (Z_DATA_BAIL, c)
      | Some (compRemaining, off, input) =>
          let '(zerr, chunk, used, strm) := inflate strm input (BUF_SIZE - zlen out) in
          if decide (zerr ≠ Z_OK ∧ zerr ≠ Z_STREAM_END) then mret (Z_DATA_BAIL, c) else
          let out := out ++ chunk in
          let total_out := total_out + zlen chunk in
          let input := drop (Z.to_nat used) input in
          '(ok, out, c) ←
            (if decide (zlen out = BUF_SIZE ∨ (zerr = Z_STREAM_END ∧ zlen out ≠ 0)) then
               '(ret, c) ← processFunction c out;
               mret (ret, [], c)
             else mret (true, out, c));
          if (ok : bool) then
            if decide (zerr = Z_OK)
            then inflate_loop fuel file compRemaining off input strm out total_out c
            else mret (long total_out, c)
          else mret (Z_DATA_BAIL, c)
      end
  end.
Definition processDeflatedEntry (fuel : nat) file (off : Z) (e : ZipEntry) (c : C) : io D (bool * C) :=
  let '(zerr, strm) := inflate_start in
  '(result, c) ← (if decide (zerr ≠ Z_OK) then mret (Z_DATA_BAIL, c)
                  else inflate_loop fuel file (compLen e) off [] strm [] 0 c);
  mret (bool_decide (result = uncompLen e), c).

Definition mzProcessZipEntryContents (fuel : nat) file (oldOff : Z) (e : ZipEntry) (c : C)
    : io D (bool * C) :=
  let off := lseek_set oldOff (offset e) in
  if decide (compression e = STORED) then processStoredEntry file off e c
  else if decide (compression e = DEFLATED) then processDeflatedEntry fuel file off e c
  else mret (false, c).
End process.

(** ** What is done with the data *)

Definition crcProcessFunction (crc : Z) (data : bytes) : io D (bool * Z) :=
  mret (true, crc32 crc data).
Definition mzIsZipEntryIntact (fuel : nat) file (oldOff : Z) (e : ZipEntry) : io D bool :=
  '(ret, crc) ← mzProcessZipEntryContents crcProcessFunction fuel file oldOff e 0;
  if (ret : bool) then mret (bool_decide (crc = wrap_u long_bits (entry_crc32 e))) else mret false.

(** What was copied to the front of the buffer, and the room left in it. *)
Definition copyProcessFunction (args : bytes * Z) (data : bytes) : io D (bool * (bytes * Z)) :=
  let '(buf, bufLen) := args in
  if decide (zlen data ≤ bufLen) then mret (true, (buf ++ data, bufLen - zlen data))
  else mret (false, args).
Definition mzReadZipEntry (fuel : nat) file (oldOff : Z) (e : ZipEntry) (bufLen : Z)
    : io D (bool * bytes) :=
  '(ret, (buf, _)) ← mzProcessZipEntryContents copyProcessFunction fuel file oldOff e ([], bufLen);
  mret (ret, buf).

(** Writes all of [data] to the file; an interrupted write is tried again. *)
Fixpoint write_all (fuel : nat) (path : string) (data : bytes) : io D bool :=
  match fuel with
  | O => lift OutOfFuel
  | S fuel =>
      n ← sys_write path data;
      if decide (n ≤ 0) then
        errno ← choose;
        if decide (errno ≠ EINTR) then mret false else write_all fuel path data
      else if decide (n = zlen data) then mret true
      else write_all fuel path (drop (Z.to_nat n) data)
  end.
(** A write takes at least one choice, so the fuel is enough. *)
Definition writeProcessFunction (path : string) (_ : unit) (data : bytes) : io D (bool * unit) :=
  r ← (λ s cs, write_all (S (length cs)) path data s cs);
  mret (r, tt).
(** [path] is the file open as [fd]. *)
Definition mzExtractZipEntryToFile (fuel : nat) file (oldOff : Z) (e : ZipEntry) (path : string)
    : io D bool :=
  '(ret, _) ← mzProcessZipEntryContents (writeProcessFunction path) fuel file oldOff e tt;
  mret ret.

(** The block of memory, the position in it, and the number of bytes expected. *)
Definition bufferProcessFunction (bec : bytes * Z * Z) (data : bytes) : io D (bool * (bytes * Z * Z)) :=
  let '(buffer, pos, len) := bec in
  buffer ← lift (access (store buffer pos data));
  mret (true, (buffer, pos + zlen data, len - zlen data)).
Definition mzExtractZipEntryToBuffer (fuel : nat) file (oldOff : Z) (e : ZipEntry) (buffer : bytes)
    : io D (bool * bytes) :=
  '(ret, (buffer, _, len)) ←
    mzProcessZipEntryContents bufferProcessFunction fuel file oldOff e (buffer, 0, uncompLen e);
  mret ((ret : bool) && bool_decide (len = 0), buffer).
End zipdata.

(** * Streaming is faithful *)

(** The entry [e] of the archive [file] has the contents [out]. *)
Definition entry_data `{Z0 : Zlib} `{!InflateLaws Z0} (file : bytes) (e : ZipEntry) (out : bytes) : Prop :=
  0 ≤ compLen e ≤ INT_MAX ∧
  ((compression e = STORED ∧ zslice file (offset e) (compLen e) = Some out) ∨
   (compression e = DEFLATED ∧ ∃ cdata, zslice file (offset e) (compLen e) = Some cdata ∧
      fst inflate_start = Z_OK ∧ inflates (snd inflate_start) cdata out ∧
      zlen out = uncompLen e ∧ zlen out ≤ INT_MAX)).

(** The number of rounds that are enough for it. *)
Definition enough_fuel (e : ZipEntry) (out : bytes) (fuel : nat) : Prop :=
  compLen e + zlen out < Z.of_nat fuel.

Section stream.
Context `{Abi} `{Z0 : Zlib} `{!InflateLaws Z0} {D : Type}.
(** The choices, and whether something may fail. *)
Context (C0 : Z → Prop) (may_fail : Prop).
Hypothesis Hreads : (∀ c, C0 c → BUF_SIZE ≤ c) ∨ may_fail.
(** [I done c]: the cookie [c] and the state after the data [done]. *)
Context {C : Type} (processFunction : C → bytes → io D (bool * C)).
Context (I : bytes → C → Sys D → Prop) (R : Sys D → Prop).
Hypothesis HR : ∀ done c s, I done c s → R s.

(** After all of [out], or after a failure. *)
Definition streamed (out : bytes) (r : bool * C) (s : Sys D) : Prop :=
  if r.1 then I out r.2 s else may_fail ∧ R s.

(** The process function is given the next part of [whole]. *)
Context (whole : bytes).
Hypothesis Hprocess : ∀ done c chunk, chunk ≠ [] → done ++ chunk `prefix_of` whole →
  ttriple C0 (I done c) (processFunction c chunk) (streamed (done ++ chunk)) R.

Lemma fd_read_ok P file off n data :
  0 ≤ n ≤ BUF_SIZE → zslice file off n = Some data → (∀ s, P s → R s) →
  ttriple C0 P (fd_read file off BUF_SIZE n) (λ r s, P s ∧
    (r = (n, data) ∨ -1 ≤ r.1 ≤ BUF_SIZE ∧ r.1 ≠ n ∧ may_fail)) R.
Proof.
  intros Hn Hd HPR. unfold fd_read, BUF_SIZE in *.
  eapply tt_bind; [apply (tt_choose _ _ (λ c s, C0 c ∧ P s)); auto|]. intros c. simpl.
  apply tt_pure. intros Hc.
  case_decide as Hneg.
  { apply tt_ret. intros s HP. split; [done|]. simpl. right. split_and!; [lia|lia|lia|].
    destruct Hreads as [Hr|?]; [specialize (Hr c Hc); lia|done]. }
  pose proof (zslice_length _ _ _ _ Hd) as (Hl & Hoff & Hend).
  unfold zslice in Hd. rewrite decide_True in Hd by lia. injection Hd as <-.
  set (got := take _ _). assert (zlen got = Z.min c n) as Hgot.
  { unfold got, zlen in *. rewrite length_take, length_drop. lia. }
  rewrite decide_True by lia. apply tt_ret. intros s HP. split; [done|].
  destruct (decide (n ≤ c)) as [Hle|Hgt].
  - left. rewrite Hgot. unfold got. rewrite Z.min_r by lia. done.
  - right. simpl. rewrite Hgot. split_and!; [lia..|].
    destruct Hreads as [Hr|?]; [specialize (Hr c Hc); lia|done].
Qed.

Lemma zslice_split (file data : bytes) off n k : 0 ≤ k ≤ n → zslice file off n = Some data →
  ∃ d1 d2, data = d1 ++ d2 ∧ zslice file off k = Some d1 ∧ zslice file (off + k) (n - k) = Some d2 ∧
    zlen d1 = k.
Proof.
  intros Hk (a & c & -> & <- & <-)%zslice_inv.
  assert (∃ d1 d2, data = d1 ++ d2 ∧ zlen d1 = k) as (d1 & d2 & -> & <-).
  { exists (take (Z.to_nat k) data), (drop (Z.to_nat k) data). rewrite take_drop. split; [done|].
    unfold zlen in *. rewrite length_take. lia. }
  exists d1, d2. split; [done|]. rewrite <- app_assoc. split; [apply zslice_app|]. split; [|done].
  rewrite app_assoc, <- zlen_app. replace (zlen (d1 ++ d2) - zlen d1) with (zlen d2); [apply zslice_app|].
  rewrite zlen_app. lia.
Qed.

Lemma stored_loop_ok file : ∀ fuel off bytesLeft rest done c,
  zslice file off bytesLeft = Some rest → bytesLeft ≤ Z.of_nat fuel * BUF_SIZE →
  whole = done ++ rest →
  ttriple C0 (I done c) (stored_loop processFunction fuel file off bytesLeft c) (streamed whole) R.
Proof.
  induction fuel as [|fuel IH]; intros off bytesLeft rest done c Hs Hf Hw;
    pose proof (zslice_length _ _ _ _ Hs) as (Hl & Hoff & Hend); pose proof (zlen_nonneg rest);
    simpl; unfold BUF_SIZE in *.
  - rewrite decide_False by lia. rewrite (zlen_nil_inv rest), app_nil_r in Hw by lia. subst. by apply tt_ret.
  - case_decide as Hpos.
    2: { rewrite (zlen_nil_inv rest), app_nil_r in Hw by lia. subst. by apply tt_ret. }
    set (count := if decide (bytesLeft > 32768) then 32768 else bytesLeft).
    assert (0 < count ≤ 32768 ∧ count ≤ bytesLeft ∧ bytesLeft - count ≤ Z.of_nat fuel * 32768) as Hcount.
    { unfold count. case_decide; lia. }
    destruct (zslice_split file rest off bytesLeft count ltac:(lia) Hs) as (d1 & d2 & -> & H1 & H2 & Hd1).
    eapply tt_bind; [apply (fd_read_ok (I done c) file off count d1); unfold BUF_SIZE; try done; [lia|apply HR]|].
    intros [n buf]. simpl. apply tt_split. intros [[= -> ->] | (_ & Hn & Hm)].
    + rewrite decide_False by lia. rewrite app_assoc in Hw. eapply tt_bind; [apply Hprocess|].
      { intros ->. change (zlen (@nil Z)) with 0 in Hd1. lia. }
      { rewrite Hw. by exists d2. }
      intros [ret c']. destruct ret; unfold streamed; simpl; [|by apply tt_ret].
      eapply IH; [done|unfold BUF_SIZE; lia|done].
    + rewrite decide_True by lia. apply tt_ret. intros s Hs'. split; [done|]. by eapply HR.
Qed.

Lemma refill_ok file compRemaining off input more done c :
  0 ≤ compRemaining ≤ INT_MAX → zslice file off compRemaining = Some more →
  ttriple C0 (I done c) (refill file compRemaining off input) (λ r s, I done c s ∧ match r with
    | Some (compRemaining', off', input') => ∃ more', 0 ≤ compRemaining' ≤ INT_MAX ∧
        zslice file off' compRemaining' = Some more' ∧ input' ++ more' = input ++ more ∧
        (input' ≠ [] ∨ more' = [])
    | None => may_fail
    end) R.
Proof.
  intros Hc Hs. unfold refill, BUF_SIZE, INT_MAX in *. case_decide as Hin.
  2: { apply tt_ret. intros s Hs'. split; [done|]. exists more. split_and!; try done; try lia. by left. }
  set (getSize := if decide (compRemaining > 32768) then 32768 else compRemaining).
  assert (0 ≤ getSize ≤ 32768 ∧ getSize ≤ compRemaining ∧ (getSize = 0 → compRemaining = 0)) as Hg.
  { unfold getSize. case_decide; lia. }
  clearbody getSize.
  destruct (zslice_split file more off compRemaining getSize ltac:(lia) Hs) as (d1 & d2 & -> & H1 & H2 & Hd1).
  rewrite size_t_id by (unfold INT_MAX; lia).
  eapply tt_bind; [apply (fd_read_ok (I done c) file off getSize d1); unfold BUF_SIZE; [lia|done|apply HR]|].
  intros [cc buf]. simpl.
  rewrite (wrap_s_id 32 getSize) by (try done; unfold in_s; simpl; lia).
  rewrite (wrap_u_id 32 getSize) by (unfold in_u; simpl; lia).
  apply tt_split. intros Hcc. assert (s32 cc = cc) as ->.
  { apply wrap_s_id; [done|]. unfold in_s, BUF_SIZE in *. simpl. destruct Hcc as [[= -> ->] | (? & ? & ?)]; lia. }
  destruct Hcc as [[= -> ->] | (? & ? & ?)].
  - rewrite decide_False by lia. rewrite decide_True by lia. apply tt_ret. intros s Hs'. split; [done|].
    exists d2. split_and!; [lia|lia|done|by subst|].
    destruct (decide (d1 = [])) as [->|]; [right|by left].
    change (zlen (@nil Z)) with 0 in Hd1. apply zlen_nil_inv.
    apply zslice_length in H2 as [-> _]. lia.
  - rewrite decide_True by done. apply tt_ret. intros s Hs'. by split.
Qed.

Lemma inflate_loop_ok file : ∀ fuel compRemaining off input more strm out total rest done c,
  0 ≤ compRemaining ≤ INT_MAX → zslice file off compRemaining = Some more →
  inflates strm (input ++ more) rest → zlen out < BUF_SIZE →
  total = zlen (done ++ out) → zlen (done ++ out ++ rest) ≤ INT_MAX →
  zlen (input ++ more) + zlen rest < Z.of_nat fuel → whole = done ++ out ++ rest →
  ttriple C0 (I done c) (inflate_loop processFunction fuel file compRemaining off input strm out total c)
    (λ r s, (r.1 = zlen whole ∧ I whole r.2 s) ∨ (r.1 = Z_DATA_BAIL ∧ may_fail ∧ R s)) R.
Proof.
  induction fuel as [|fuel IH]; intros compRemaining off input more strm out total rest done c
    Hc Hs Hinf Hout Htot Hmax Hf Hw;
    [pose proof (zlen_nonneg (input ++ more)); pose proof (zlen_nonneg rest); lia|].
  cbn [inflate_loop]. eapply tt_bind; [by apply refill_ok|].
  intros [[[comp' off'] input']|].
  2: { apply tt_ret. intros s [Hi Hm]. right. split_and!; [done|done|by eapply HR]. }
  apply tt_split. intros (more' & Hc' & Hs' & Hsame & Hne). rewrite <- Hsame in Hinf, Hf.
  destruct (inflate_progress strm input' more' rest (BUF_SIZE - zlen out) Hinf ltac:(lia) Hne)
    as (zerr & chunk & rest' & used & unused & strm' & -> & -> & -> & Hcl & Hcase).
  rewrite decide_False by (destruct Hcase as [(? & _)|(? & _)]; tauto).
  assert (drop (Z.to_nat (zlen used)) (used ++ unused) = unused) as ->
    by (unfold zlen; by rewrite Nat2Z.id, drop_app_length).
  pose proof (zlen_nonneg out). pose proof (zlen_nonneg done). pose proof (zlen_nonneg rest').
  (* the data is passed on, or kept for the next round *)
  eapply (tt_bind _ _ _ _ _ (λ '(ok, out', c') s, if (ok : bool) then
      ∃ done', I done' c' s ∧ (done' ++ out' = done ++ out ++ chunk ∧ zlen out' < BUF_SIZE ∧
        (zerr = Z_STREAM_END → out' = []))
    else may_fail ∧ R s)).
  - case_decide as Hflush.
    + eapply tt_bind; [apply Hprocess|].
      { intros [-> ->]%app_nil. destruct Hflush as [Hx|[_ Hx]]; by change (zlen (@nil Z ++ [])) with 0 in Hx. }
      { rewrite Hw. exists rest'. by rewrite <- !app_assoc. }
      intros [ret c']. apply tt_ret. intros s. unfold streamed. simpl. destruct ret; [|done].
      intros Hi. exists (done ++ out ++ chunk). rewrite app_nil_r. done.
    + apply tt_ret. intros s Hi. exists done. split_and!; [done|done| |].
      * rewrite zlen_app in Hflush |- *. lia.
      * intros Hz. apply zlen_nil_inv. destruct (decide (zlen (out ++ chunk) = 0)); [lia|]. tauto.
  - intros [[[] out'] c'].
    2: { apply tt_ret. intros s [? ?]. by right. }
    apply tt_exists. intros done'. apply tt_split. intros (Hall & Hout' & Hlast).
    assert (done ++ out ++ chunk ++ rest' = done' ++ out' ++ rest') as Hre
      by (rewrite (app_assoc done'), Hall, <- !app_assoc; done).
    rewrite Hre in Hmax, Hw. clear Hre.
    destruct Hcase as [(-> & -> & _) | (-> & Hprog & _ & Hinf')].
    + rewrite decide_False by done. apply tt_ret. intros s Hi. left. simpl.
      rewrite Hlast, !app_nil_r in Hw, Hmax, Hall by done. rewrite Hw. split; [|exact Hi].
      rewrite Hall in Hmax |- *. rewrite Htot, <- zlen_app, <- app_assoc. unfold long.
      apply wrap_s_id; [destruct long_bits_ok; lia|].
      pose proof (zlen_nonneg (done ++ out ++ chunk)). unfold in_s, INT_MAX in *.
      destruct long_bits_ok as [-> | ->]; simpl; lia.
    + rewrite decide_True by done. apply (IH comp' off' unused more' strm' out' _ rest'); try done.
      * rewrite Hall, Htot, !zlen_app. lia.
      * rewrite !zlen_app in *. pose proof (zlen_nonneg used). pose proof (zlen_nonneg chunk).
        assert (zlen chunk + zlen used ≠ 0); [|lia].
        destruct Hprog as [Hx|Hx]; intros Hz; apply Hx, zlen_nil_inv; lia.
Qed.

Lemma mzProcessZipEntryContents_ok file fuel oldOff e out c :
  entry_data file e out → enough_fuel e out fuel → out = whole →
  ttriple C0 (I [] c) (mzProcessZipEntryContents processFunction fuel file oldOff e c)
    (streamed out) R.
Proof.
  intros [Hc Hdata] Hfuel ->. unfold mzProcessZipEntryContents, lseek_set.
  destruct Hdata as [[Hst Hs] | (Hde & cdata & Hs & Hinit & Hinf & Hlen & Hmax)];
    pose proof (zslice_length _ _ _ _ Hs) as (Hl & Hoff & _); rewrite (decide_True (P := 0 ≤ offset e)) by done.
  - rewrite decide_True by done. unfold processStoredEntry. rewrite size_t_id by done.
    apply (stored_loop_ok file _ _ _ whole []); [done| |done].
    unfold BUF_SIZE in *. pose proof (Z.div_pos (compLen e) 32768 ltac:(lia) ltac:(lia)).
    pose proof (Z.mul_succ_div_gt (compLen e) 32768 ltac:(lia)). lia.
  - cbv zeta. rewrite (decide_False (P := compression e = STORED)) by (by rewrite Hde).
    rewrite (decide_True (P := compression e = DEFLATED)) by done.
    unfold processDeflatedEntry. destruct inflate_start as [zerr strm] eqn:E. simpl in Hinit, Hinf.
    subst zerr. rewrite decide_False by tauto.
    eapply tt_bind; [apply (inflate_loop_ok file fuel (compLen e) (offset e) [] cdata strm [] 0 whole [] c); try done|].
    + unfold enough_fuel in Hfuel. simpl. lia.
    + intros [result c']. apply tt_ret. intros s. simpl. unfold streamed. simpl.
      intros [[-> Hi] | (-> & ? & ?)].
      * by rewrite bool_decide_true.
      * rewrite bool_decide_false; [done|]. unfold Z_DATA_BAIL. pose proof (zlen_nonneg whole). lia.
Qed.
End stream.

(** ** The users of the stream *)

Section users.
Context `{Abi} `{Z0 : Zlib} `{!InflateLaws Z0} `{K0 : Crc} `{!CrcLaws K0} {D : Type}.
Context (C0 : Z → Prop) (may_fail : Prop).
Hypothesis Hreads : (∀ c, C0 c → BUF_SIZE ≤ c) ∨ may_fail.
Implicit Types (s : Sys D).

(** C18: [mzProcessZipEntryContents] ends and hands exactly the contents of the entry, in order,
    to any process function; it fails only when a read or the process function does. *)
Theorem mzProcessZipEntryContents_streams {C} (processFunction : C → bytes → io D (bool * C))
    (I : bytes → C → Sys D → Prop) (R : Sys D → Prop) file fuel oldOff e out c :
  (∀ done c s, I done c s → R s) →
  (∀ done c chunk, chunk ≠ [] → done ++ chunk `prefix_of` out →
    ttriple C0 (I done c) (processFunction c chunk) (streamed may_fail I R (done ++ chunk)) R) →
  entry_data file e out → enough_fuel e out fuel →
  ttriple C0 (I [] c) (mzProcessZipEntryContents processFunction fuel file oldOff e c)
    (streamed may_fail I R out) R.
Proof. intros. by apply (mzProcessZipEntryContents_ok C0 may_fail Hreads) with out. Qed.

(** A process function that only computes. *)
Lemma stream_pure {C} (processFunction : C → bytes → io D (bool * C)) (I : bytes → C → Prop)
    file fuel oldOff e out c s :
  (∀ done c chunk, chunk ≠ [] → done ++ chunk `prefix_of` out → I done c →
    (∃ c', processFunction c chunk = mret (true, c') ∧ I (done ++ chunk) c') ∨
    may_fail ∧ ∃ c', processFunction c chunk = mret (false, c')) →
  entry_data file e out → enough_fuel e out fuel → I [] c →
  ttriple C0 (λ s', s' = s) (mzProcessZipEntryContents processFunction fuel file oldOff e c)
    (λ r s', s' = s ∧ if r.1 then I out r.2 else may_fail) (λ s', s' = s).
Proof.
  intros Hp Hd Hf HI.
  eapply tt_conseq; [apply (mzProcessZipEntryContents_ok C0 may_fail Hreads processFunction
    (λ done c s', I done c ∧ s' = s) (λ s', s' = s)) with out| | |].
  - by intros ??? [??].
  - intros done c' chunk Hne Hpre. apply tt_pure. intros Hi.
    destruct (Hp done c' chunk Hne Hpre Hi) as [(c1 & -> & ?) | (? & c1 & ->)]; apply tt_ret; done.
  - exact Hd.
  - exact Hf.
  - done.
  - intros s' ->. done.
  - unfold streamed. intros [[] c'] s'; simpl; tauto.
  - done.
Qed.

(** [mzIsZipEntryIntact] answers whether the checksum of the contents is the one in the
    directory; a failing read can only make it answer no. *)
Lemma mzIsZipEntryIntact_ok file fuel oldOff e out s :
  entry_data file e out → enough_fuel e out fuel →
  ttriple C0 (λ s', s' = s) (mzIsZipEntryIntact fuel file oldOff e)
    (λ r s', s' = s ∧ if (r : bool) then crc32 0 out = wrap_u long_bits (entry_crc32 e)
       else may_fail ∨ crc32 0 out ≠ wrap_u long_bits (entry_crc32 e)) (λ s', s' = s).
Proof.
  intros Hd Hf. unfold mzIsZipEntryIntact.
  eapply tt_bind; [apply (stream_pure crcProcessFunction (λ done crc, crc = crc32 0 done)); try done|].
  - intros done crc chunk _ _ ->. left. eexists. split; [done|]. by rewrite crc32_app.
  - by rewrite crc32_nil.
  - intros [[] crc]; apply tt_ret; simpl; [|intros s' [? ?]; by auto].
    intros s' [-> ->]. split; [done|]. case_bool_decide; auto.
Qed.

(** [mzReadZipEntry] with room for the contents gives exactly them; with too little
    room it fails. *)
Lemma mzReadZipEntry_ok file fuel oldOff e out bufLen s :
  entry_data file e out → enough_fuel e out fuel → 0 ≤ bufLen → (bufLen < zlen out → may_fail) →
  ttriple C0 (λ s', s' = s) (mzReadZipEntry fuel file oldOff e bufLen)
    (λ r s', s' = s ∧ if r.1 then r.2 = out ∧ zlen out ≤ bufLen else may_fail) (λ s', s' = s).
Proof.
  intros Hd Hf Hbuf Hroom. unfold mzReadZipEntry.
  eapply tt_bind; [apply (stream_pure copyProcessFunction
    (λ done args, args = (done, bufLen - zlen done) ∧ zlen done ≤ bufLen)); try done|].
  - intros done args chunk _ [tail Hpre] [-> Hl]. unfold copyProcessFunction.
    case_decide; [left|right].
    + eexists. split; [done|]. rewrite zlen_app. split; [f_equal; lia|lia].
    + split; [|by eexists]. apply Hroom. rewrite Hpre, !zlen_app. pose proof (zlen_nonneg tail). lia.
  - by rewrite Z.sub_0_r.
  - intros [[] [buf left]]; apply tt_ret; simpl; intros s' [-> Hx]; [|done].
    destruct Hx as [[= -> ->] ?]. done.
Qed.

(** *** To a file *)

(** The state with [d] written to the end of the file. *)
Definition appended (path : string) (d : bytes) (s : Sys D) : Sys D :=
  set_files (alter (λ f, mkFile (f_data f ++ d) (f_mode f) (f_uid f) (f_gid f)) path) s.

Lemma appended_app path d1 d2 s : appended path d2 (appended path d1 s) = appended path (d1 ++ d2) s.
Proof.
  unfold appended. destruct s; simpl. f_equal. apply map_eq. intros p.
  destruct (decide (p = path)) as [->|]; [|by rewrite !lookup_alter_ne].
  rewrite !lookup_alter_eq. destruct (files !! path) as [f|]; [|done]. simpl.
  by rewrite <- app_assoc.
Qed.
Lemma appended_nil path s : appended path [] s = s.
Proof.
  unfold appended. destruct s; simpl. f_equal. apply map_eq. intros p.
  destruct (decide (p = path)) as [->|]; [|by rewrite !lookup_alter_ne].
  rewrite lookup_alter_eq. destruct (files !! path) as [[]|]; [|done]. simpl. by rewrite app_nil_r.
Qed.

(** Only a part of [out] was written. *)
Definition partly_written (path : string) (out : bytes) (s s' : Sys D) : Prop :=
  ∃ d, d `prefix_of` out ∧ s' = appended path d s.

Lemma write_all_ok path out s fuel : ∀ data done s' cs,
  (length cs < fuel)%nat → Forall C0 cs → data ≠ [] →
  done ++ data `prefix_of` out →
  s' = appended path done s →
  match write_all fuel path data s' cs with
  | Ret r s'' cs' => Forall C0 cs' ∧
      if (r : bool) then s'' = appended path (done ++ data) s else may_fail ∧ partly_written path out s s''
  | Stop s'' => partly_written path out s s''
  | _ => False
  end.
Proof.
  assert (∀ data done s', done ++ data `prefix_of` out → s' = appended path done s →
    partly_written path out s s') as Hpart.
  { intros data done s' Hpre ->. exists done. split; [|done]. etrans; [|done]. by exists data. }
  induction fuel as [|fuel IH]; intros data done s' cs Hf Hcs Hne Hpre Hs'; [lia|].
  cbn [write_all]. destruct cs as [|c cs]; [by eapply Hpart|]. simpl in Hf.
  apply Forall_cons in Hcs as [Hc Hcs].
  assert (0 < zlen data) as Hpos by (destruct data; [done|]; rewrite zlen_cons; pose proof (zlen_nonneg data); lia).
  unfold sys_write, mbind, io_bind, choose, update_sys, mret, io_ret.
  destruct (decide (c ≤ 0)).
  - rewrite decide_True by lia. destruct cs as [|errno cs]; [by eapply Hpart|].
    apply Forall_cons in Hcs as [_ Hcs]. simpl in Hf. case_decide.
    + split; [done|]. split; [|by eapply Hpart].
      destruct Hreads as [Hr|?]; [specialize (Hr c Hc); unfold BUF_SIZE in Hr; lia|done].
    + apply IH; try done. lia.
  - rewrite decide_False by lia. set (k := c `min` zlen data).
    match goal with |- context [set_files ?f s'] =>
      change (set_files f s') with (appended path (take (Z.to_nat k) data) s') end.
    rewrite Hs', appended_app. case_decide as Hk.
    + split; [done|]. rewrite take_ge; [done|]. unfold zlen in *. lia.
    + specialize (IH (drop (Z.to_nat k) data) (done ++ take (Z.to_nat k) data)).
      rewrite <- app_assoc, take_drop in IH. apply IH; try done; [lia|].
      intros E%(f_equal zlen). unfold zlen in E, Hpos, k, Hk. rewrite length_drop in E. simpl in E.
      unfold zlen in *. lia.
Qed.

Lemma extract_to_path file fuel oldOff e out path s :
  entry_data file e out → enough_fuel e out fuel →
  ttriple C0 (λ s', s' = s) (mzExtractZipEntryToFile fuel file oldOff e path)
    (λ r s', if (r : bool) then s' = appended path out s else may_fail ∧ partly_written path out s s')
    (partly_written path out s).
Proof.
  intros Hd Hf. unfold mzExtractZipEntryToFile.
  eapply tt_bind.
  - eapply tt_conseq; [apply (mzProcessZipEntryContents_ok C0 may_fail Hreads (writeProcessFunction path)
      (λ done (_ : unit) s', done `prefix_of` out ∧ s' = appended path done s) (partly_written path out s)) with out| | |].
    + intros done c s' [? ->]. by exists done.
    + intros done c chunk Hne Hpre s' cs Hcs [_ Hs']. unfold writeProcessFunction, mbind, io_bind.
      pose proof (write_all_ok path out s (S (length cs)) chunk done s' cs ltac:(lia) Hcs Hne Hpre Hs') as Hw.
      destruct (write_all _ _ _ _ _) as [r s'' cs'|s''| |]; try done.
      destruct Hw as [? Hw]. split; [done|]. unfold streamed. simpl. by destruct r.
    + exact Hd.
    + exact Hf.
    + done.
    + intros s' ->. split; [apply prefix_nil|]. by rewrite appended_nil.
    + intros r s' Hr. exact Hr.
    + done.
  - intros [[] []]; apply tt_ret; unfold streamed; simpl; intros s'; [by intros [_ ->]|done].
Qed.

(** C37: [mzExtractZipEntryToFile] appends exactly the contents of the entry to the file it
    is given; when it fails or is interrupted only a part of them is there.  Nothing else
    changes, and interrupted writes are completed. *)
Theorem mzExtractZipEntryToFile_ok file fuel oldOff e out path s :
  entry_data file e out → enough_fuel e out fuel →
  ttriple C0 (λ s', s' = s) (mzExtractZipEntryToFile fuel file oldOff e path)
    (λ r s', if (r : bool) then s' = appended path out s else may_fail ∧ partly_written path out s s')
    (partly_written path out s).
Proof. apply extract_to_path. Qed.

(** *** To memory *)

Lemma store_next (done chunk buffer : bytes) :
  zlen (done ++ chunk) ≤ zlen buffer →
  store (done ++ drop (length done) buffer) (zlen done) chunk =
    Some ((done ++ chunk) ++ drop (length (done ++ chunk)) buffer).
Proof.
  intros Hl. rewrite zlen_app in Hl. pose proof (zlen_nonneg done). pose proof (zlen_nonneg chunk).
  unfold store, zlen in *. rewrite decide_True by (rewrite length_app, length_drop; lia).
  rewrite Nat2Z.id, take_app_length, <- app_assoc. do 3 f_equal.
  rewrite length_app, drop_app_ge by lia.
  rewrite drop_drop. f_equal. lia.
Qed.

(** [mzExtractZipEntryToBuffer] puts exactly the contents of the entry at the front of a buffer
    with room for them, provided they have the length the directory says. *)
Lemma mzExtractZipEntryToBuffer_ok file fuel oldOff e out buffer s :
  entry_data file e out → enough_fuel e out fuel → zlen out = uncompLen e → zlen out ≤ zlen buffer →
  ttriple C0 (λ s', s' = s) (mzExtractZipEntryToBuffer fuel file oldOff e buffer)
    (λ r s', s' = s ∧ if r.1 then r.2 = out ++ drop (length out) buffer else may_fail) (λ s', s' = s).
Proof.
  intros Hd Hf Hlen Hroom. unfold mzExtractZipEntryToBuffer.
  eapply tt_bind; [apply (stream_pure bufferProcessFunction
    (λ done bec, bec = (done ++ drop (length done) buffer, zlen done, uncompLen e - zlen done))); try done|].
  - intros done bec chunk _ [tail Hpre] ->. left. eexists. split.
    + unfold bufferProcessFunction. rewrite store_next; [reflexivity|].
      rewrite Hpre, zlen_app in Hroom. pose proof (zlen_nonneg tail). lia.
    + rewrite zlen_app. f_equal. lia.
  - simpl. by rewrite Z.sub_0_r.
  - intros [ret [[buf pos] len]]. apply tt_ret. simpl. intros s' [-> Hx]. split; [done|].
    destruct ret; simpl; [|done]. injection Hx as -> -> ->. rewrite Hlen, Z.sub_diag. done.
Qed.
End users.

(** ** Lengths that are not checked *)

Section unchecked.
Context `{Abi} `{Z0 : Zlib} {D : Type}.

Lemma fd_read_full file off n data c cs (s : Sys D) :
  zslice file off n = Some data → n ≤ c → 0 ≤ n ≤ BUF_SIZE →
  fd_read file off BUF_SIZE n s (c :: cs) = Ret (n, data) s cs.
Proof.
  intros Hd Hc Hn. pose proof (zslice_length _ _ _ _ Hd) as (Hl & Hoff & Hend).
  unfold fd_read. erewrite io_bind_ret; [|done]. rewrite decide_False by lia.
  unfold zslice in Hd. rewrite decide_True in Hd by lia. injection Hd as <-.
  rewrite Z.min_r by lia. rewrite decide_True by lia. by rewrite Hl.
Qed.

(** [mzExtractZipEntryToBuffer] does not look at the room left in the buffer: the data of a
    stored entry that is longer than the length its directory entry gives for the
    contents are written behind a buffer of that length. *)
Lemma extract_to_buffer_overruns file fuel oldOff e buffer out c cs (s : Sys D) :
  compression e = STORED → zslice file (offset e) (compLen e) = Some out →
  zlen buffer = uncompLen e → uncompLen e < compLen e ≤ BUF_SIZE → compLen e ≤ c →
  mzExtractZipEntryToBuffer fuel file oldOff e buffer s (c :: cs) = Crashed.
Proof.
  intros Hst Hs Hbuf Hc Hch. pose proof (zslice_length _ _ _ _ Hs) as (Hl & Hoff & Hend).
  pose proof (zlen_nonneg buffer).
  unfold mzExtractZipEntryToBuffer, mzProcessZipEntryContents, lseek_set.
  rewrite (decide_True (P := 0 ≤ offset e)), (decide_True (P := compression e = STORED)) by done.
  unfold processStoredEntry, BUF_SIZE in *. rewrite size_t_id by (unfold INT_MAX; lia).
  replace (Z.to_nat (compLen e / 32768 + 1)) with (S (Z.to_nat (compLen e / 32768)))
    by (pose proof (Z.div_pos (compLen e) 32768); lia).
  cbn [stored_loop]. unfold BUF_SIZE. rewrite (decide_True (P := compLen e > 0)) by lia.
  rewrite (decide_False (P := compLen e > 32768)) by lia.
  apply io_bind_crash. erewrite io_bind_ret; [|apply fd_read_full; [done|lia|unfold BUF_SIZE; lia]]. cbv beta iota.
  rewrite decide_False by lia. apply io_bind_crash. unfold bufferProcessFunction.
  apply io_bind_crash. unfold lift, access, store. by rewrite decide_False by lia.
Qed.
End unchecked.

(** *** Lengths of -1 where [long] has 32 bits *)
Section minus_one.
#[local] Existing Instance abi32.

(** An archive with one deflated entry with these lengths. *)
Definition deflated_file (comp uncomp : Z) : bytes :=
  let l := local_part (bytes_of_string "b") [1; 2; 3] DEFLATED in
  l ++ central_part (bytes_of_string "b") DEFLATED comp uncomp 0 0 ++ end_part 1 (zlen l).
Definition deflated_entry (comp uncomp : Z) : ZipEntry :=
  mkZipEntry (bytes_of_string "b") 31 comp uncomp DEFLATED 0 0 10 0.
(** The entries of the archive mapped at 4096. *)
Definition entries_of (file : bytes) : option (list ZipEntry) :=
  match parseZipArchive all_memory all_memory closed (mkMemMapping 4096 file) with
  | Done (true, a) => zip_pEntries a
  | _ => None
  end.

(** With 32-bit integers [parseZipArchive] accepts a compressed length of -1, because
    the sum with the offset is in the file.  Reading the entry then asks for
    [(size_t)-1] bytes, takes the failure of the read, -1, for the number asked for,
    and lets [inflate] read behind the end of its input buffer. *)
Lemma negative_length_overreads :
  let file := deflated_file (2 ^ 32 - 1) 3 in
  let e := deflated_entry (-1) 3 in
  entries_of file = Some [e] ∧
  ∀ fuel bufLen (s : Sys unit) cs,
    mzReadZipEntry (S fuel) file 0 e bufLen s (-1 :: cs) = Crashed.
Proof. split; [vm_compute; reflexivity|]. intros. reflexivity. Qed.

(** It also accepts a length of -1 for the contents.  That is the value that stands for a
    failure, so an entry whose data cannot be read is reported as read. *)
Lemma failed_read_reported_as_success :
  let file := deflated_file 3 (2 ^ 32 - 1) in
  let e := deflated_entry 3 (-1) in
  entries_of file = Some [e] ∧
  ∀ fuel bufLen (s : Sys unit) cs,
    mzReadZipEntry (S fuel) file 0 e bufLen s (-1 :: cs) = Ret (true, []) s cs.
Proof. split; [vm_compute; reflexivity|]. intros. reflexivity. Qed.
End minus_one.


(** ** Examples *)
Section examples.
#[local] Existing Instance abi64.

Definition some_file : bytes := 9 :: copy_deflate [7; 8].
Definition some_entry : ZipEntry :=
  mkZipEntry (bytes_of_string "x") 1 5 2 DEFLATED 0 (crc32 0 [7; 8]) 10 0.
Definition target_state : Sys unit :=
  mkSys {[ "/x" := mkFile [] 420 0 0 ]} ∅ tt false ∅ [].
Definition full_reads (c : Z) : Prop := BUF_SIZE ≤ c.

Lemma some_entry_data : entry_data some_file some_entry [7; 8].
Proof. split; [done|]. right. split; [done|]. exists (copy_deflate [7; 8]). by split_and!. Defined.
Lemma some_fuel : enough_fuel some_entry [7; 8] 10.
Proof. done. Defined.
Lemma full_reads_ok : (∀ c, full_reads c → BUF_SIZE ≤ c) ∨ False.
Proof. by left. Defined.

Example extract_some :
  mzExtractZipEntryToFile 10 some_file 0 some_entry "/x" target_state [40000; 40000] =
    Ret true (appended "/x" [7; 8] target_state) [].
Proof. vm_compute. reflexivity. Qed.

Lemma mzProcessZipEntryContents_streams_witness :
  ttriple full_reads (λ _ : Sys unit, 0 = 0)
    (mzProcessZipEntryContents (λ c chunk, mret (true, c + zlen chunk)) 10 some_file 0 some_entry 0)
    (streamed False (λ done c _, c = zlen done) (λ _, True) [7; 8]) (λ _, True).
Proof.
  apply (mzProcessZipEntryContents_streams full_reads False full_reads_ok
    (λ c chunk, mret (true, c + zlen chunk)) (λ done c _, c = zlen done)).
  - done.
  - intros done c chunk _ _. apply tt_ret. intros s ->. unfold streamed. simpl. by rewrite zlen_app.
  - apply some_entry_data.
  - apply some_fuel.
Defined.
Lemma mzIsZipEntryIntact_ok_witness :
  ttriple full_reads (λ s', s' = target_state) (mzIsZipEntryIntact 10 some_file 0 some_entry)
    (λ r s', s' = target_state ∧ if (r : bool) then crc32 0 [7; 8] = wrap_u long_bits (entry_crc32 some_entry)
       else False ∨ crc32 0 [7; 8] ≠ wrap_u long_bits (entry_crc32 some_entry)) (λ s', s' = target_state).
Proof.
  apply (mzIsZipEntryIntact_ok full_reads False full_reads_ok); [apply some_entry_data|apply some_fuel].
Defined.
Lemma mzReadZipEntry_ok_witness :
  ttriple full_reads (λ s', s' = target_state) (mzReadZipEntry 10 some_file 0 some_entry 2)
    (λ r s', s' = target_state ∧ if r.1 then r.2 = [7; 8] ∧ 2 ≤ 2 else False) (λ s', s' = target_state).
Proof.
  apply (mzReadZipEntry_ok full_reads False full_reads_ok); [apply some_entry_data|apply some_fuel|lia|by vm_compute].
Defined.
Lemma mzExtractZipEntryToFile_ok_witness :
  ttriple full_reads (λ s', s' = target_state) (mzExtractZipEntryToFile 10 some_file 0 some_entry "/x")
    (λ r s', if (r : bool) then s' = appended "/x" [7; 8] target_state
       else False ∧ partly_written "/x" [7; 8] target_state s') (partly_written "/x" [7; 8] target_state).
Proof.
  apply (mzExtractZipEntryToFile_ok full_reads False full_reads_ok); [apply some_entry_data|apply some_fuel].
Defined.
Lemma mzExtractZipEntryToBuffer_ok_witness :
  ttriple full_reads (λ s', s' = target_state)
    (mzExtractZipEntryToBuffer 10 some_file 0 some_entry [0; 0; 0])
    (λ r s', s' = target_state ∧ if r.1 then r.2 = [7; 8; 0] else False) (λ s', s' = target_state).
Proof.
  apply (mzExtractZipEntryToBuffer_ok full_reads False full_reads_ok some_file 10 0 some_entry [7; 8]
    [0; 0; 0] target_state);
    [apply some_entry_data|apply some_fuel|done|by vm_compute].
Defined.
Lemma extract_to_buffer_overruns_witness :
  mzExtractZipEntryToBuffer 10 [1; 2; 3] 0 (mkZipEntry (bytes_of_string "x") 0 3 2 STORED 0 0 10 0) [0; 0]
    target_state [10] = Crashed.
Proof. by apply extract_to_buffer_overruns with [1; 2; 3]. Defined.
End examples.
