(* ===== verification/DirUtil.v ===== *)
(** Directory trees: [minzip/DirUtil.c].

    The system calls are an interface, the class [Vfs] (paths may lead through
    symbolic links, so a path alone does not say which file a call works on).
    [errno] is threaded explicitly: a failing call sets it, a successful one leaves
    it as it was.  Labels of the security module are not modelled. *)
From S2P Require Import Prelude CLib Bytes World.

Definition ENOENT : Z := 2.
Definition ENOMEM : Z := 12.
Definition ENOTDIR : Z := 20.

(** Every call answers 0 or an error number; [vfs_stat] and [vfs_lstat] also the mode.
    [vfs_creat] gives the file that was opened, by its place in [files]. *)
Class Vfs (D : Type) := {
  DIR : Type;
  vfs_stat : string → io D (Z * Z);
  vfs_lstat : string → io D (Z * Z);
  vfs_mkdir : string → Z → io D Z;
  vfs_utime : string → Z → io D Z;
  vfs_unlink : string → io D Z;
  vfs_rmdir : string → io D Z;
  vfs_chown : string → Z → Z → io D Z;
  vfs_chmod : string → Z → io D Z;
  vfs_opendir : string → io D (Z * option DIR);
  vfs_readdir : DIR → io D (Z * option (string * DIR));
  vfs_closedir : DIR → io D Z;
  vfs_symlink : string → string → io D Z;
  vfs_creat : string → Z → io D (option string)
}.

Inductive DirStatus := DMISSING | DDIR | DILLEGAL.
#[global] Instance DirStatus_eq_dec : EqDecision DirStatus.
Proof. solve_decision. Defined.

Section dirutil.
Context {D : Type} `{!Vfs D}.
(** Whether [malloc] gives a block of this size. *)
Context (malloc : Z → bool).

(** The result of a function and [errno]. *)
Definition getPathDirStatus (path : string) (errno : Z) : io D (DirStatus * Z) :=
  '(err, mode) ← vfs_stat path;
  mret (if decide (err = 0) then (if S_ISDIR mode then (DDIR, errno) else (DILLEGAL, ENOTDIR))
        else if decide (err ≠ ENOENT) then (DILLEGAL, err) else (DMISSING, err)).

(** ** Paths *)

(** The slashes a string starts with, and the rest. *)
Fixpoint skip_slashes (s : string) : string * string :=
  match s with
  | String "/" s' => let '(a, b) := skip_slashes s' in (String "/" a, b)
  | _ => ("", s)
  end.
(** What is before the first slash, and the rest from it on; without a slash the
    pointer leaves the string. *)
Fixpoint component_end (s : string) : run (string * string) :=
  match s with
  | EmptyString => Fault
  | String c s' =>
      if decide (c = "/"%char) then Done ("", s)
      else '(a, b) ← component_end s'; Done (String c a, b)
  end.
(** The string up to its last slash; nothing when that is its first character or
    there is none. *)
Fixpoint strip_filename (s : string) : option string :=
  match s with
  | EmptyString => None
  | String c s' =>
      match strip_filename s' with
      | Some d => Some (String c d)
      | None =>
          match s' with
          | String "/" _ => Some (String c "/")
          | _ => None
          end
      end
  end.

(** ** [dirCreateHierarchy] *)

(** The loop, with the string before [p] and the string at [p]. *)
Fixpoint create_levels (fuel : nat) (mode : Z) (timestamp : option Z) (before rest : string)
    (errno : Z) : io D (Z * Z) :=
  match fuel with
  | O => lift OutOfFuel
  | S fuel =>
      let '(slashes, rest) := skip_slashes rest in
      let before := before +:+ slashes in
      if decide (rest = "") then mret (0, errno) else
      '(comp, rest) ← lift (component_end rest);
      let cpath := before +:+ comp in
      '(ds, errno) ← getPathDirStatus cpath errno;
      match ds with
      | DILLEGAL => mret (-1, errno)
      | DMISSING =>
          err ← vfs_mkdir cpath mode;
          if decide (err ≠ 0) then mret (-1, err) else
          match timestamp with
          | Some t =>
              err ← vfs_utime cpath t;
              if decide (err ≠ 0) then mret (-1, err)
              else create_levels fuel mode timestamp cpath rest errno
          | None => create_levels fuel mode timestamp cpath rest errno
          end
      | DDIR => create_levels fuel mode timestamp cpath rest errno
      end
  end.

Definition dirCreateHierarchy (path : string) (mode : Z) (timestamp : option Z)
    (stripFileName : bool) (errno : Z) : io D (Z * Z) :=
  if decide (path = "") then mret (-1, ENOENT) else
  if negb (malloc (strlen path + 2)) then mret (-1, ENOMEM) else
  match (if stripFileName then strip_filename path else Some (path +:+ "/")) with
  | None => mret (-1, ENOENT)
  | Some cpath =>
      '(ds, errno) ← getPathDirStatus cpath errno;
      match ds with
      | DDIR => mret (0, errno)
      | DILLEGAL => mret (-1, errno)
      | DMISSING => create_levels (S (String.length cpath)) mode timestamp "" cpath errno
      end
  end.

(** ** The recursive operations *)

(** [snprintf] into a block of [PATH_MAX] bytes. *)
Definition child_path (path name : string) : string :=
  String.substring 0 (Z.to_nat (PATH_MAX - 1)) (path +:+ "/" +:+ name).
Definition dot_name (name : string) : bool :=
  bool_decide (strcmp name ".." = 0) || bool_decide (strcmp name "." = 0).

(** The loop over a directory: whether a child failed, and [errno]. *)
Fixpoint unlink_children (fuel : nat) (unlink : string → Z → io D (Z * Z)) (path : string) (dir : DIR)
    (errno : Z) : io D (bool * Z) :=
  match fuel with
  | O => lift OutOfFuel
  | S fuel =>
      '(err, de) ← vfs_readdir dir;
      let errno := if decide (err ≠ 0) then err else errno in
      match de with
      | None => mret (false, errno)
      | Some (d_name, dir) =>
          if dot_name d_name then unlink_children fuel unlink path dir errno else
          '(r, errno) ← unlink (child_path path d_name) errno;
          if decide (r < 0) then mret (true, errno) else unlink_children fuel unlink path dir 0
      end
  end.

(** [depth] bounds the depth of the recursion, [fuel] the number of names in a
    directory. *)
Fixpoint dirUnlinkHierarchy (depth fuel : nat) (path : string) (errno : Z) : io D (Z * Z) :=
  match depth with
  | O => lift OutOfFuel
  | S depth =>
      '(err, mode) ← vfs_lstat path;
      if decide (err ≠ 0) then mret (-1, err) else
      if negb (S_ISDIR mode) then
        err ← vfs_unlink path;
        mret (if decide (err ≠ 0) then (-1, err) else (0, errno))
      else
      '(err, dir) ← vfs_opendir path;
      match dir with
      | None => mret (-1, err)
      | Some dir =>
          '(fail, errno) ← unlink_children fuel (dirUnlinkHierarchy depth fuel) path dir 0;
          if (fail : bool) || bool_decide (errno < 0) then
            _ ← vfs_closedir dir;
            mret (-1, errno)
          else
          err ← vfs_closedir dir;
          if decide (err ≠ 0) then mret (-1, err) else
          err ← vfs_rmdir path;
          mret (if decide (err ≠ 0) then (-1, err) else (0, errno))
      end
  end.

Fixpoint permit_children (fuel : nat) (permit : string → Z → io D (Z * Z)) (path : string) (dir : DIR)
    (errno : Z) : io D Z :=
  match fuel with
  | O => lift OutOfFuel
  | S fuel =>
      if decide (errno ≠ 0) then mret errno else
      '(err, de) ← vfs_readdir dir;
      let errno := if decide (err ≠ 0) then err else errno in
      match de with
      | None => mret errno
      | Some (d_name, dir) =>
          if dot_name d_name then permit_children fuel permit path dir errno else
          '(r, errno) ← permit (child_path path d_name) errno;
          permit_children fuel permit path dir
            (if decide (r = 0) then 0 else if decide (errno = 0) then -1 else errno)
      end
  end.

Fixpoint dirSetHierarchyPermissions (depth fuel : nat) (path : string)
    (uid gid dirMode fileMode : Z) (errno : Z) : io D (Z * Z) :=
  match depth with
  | O => lift OutOfFuel
  | S depth =>
      '(err, mode) ← vfs_lstat path;
      if decide (err ≠ 0) then mret (-1, err) else
      if S_ISLNK mode then mret (0, errno) else
      err ← vfs_chown path uid gid;
      if decide (err ≠ 0) then mret (-1, err) else
      err ← vfs_chmod path (if S_ISDIR mode then dirMode else fileMode);
      if decide (err ≠ 0) then mret (-1, err) else
      if S_ISDIR mode then
        '(err, dir) ← vfs_opendir path;
        match dir with
        | None => mret (-1, err)
        | Some dir =>
            errno ← permit_children fuel
                      (λ dn, dirSetHierarchyPermissions depth fuel dn uid gid dirMode fileMode)
                      path dir 0;
            if decide (errno ≠ 0) then
              _ ← vfs_closedir dir;
              mret (-1, errno)
            else
            err ← vfs_closedir dir;
            mret (if decide (err ≠ 0) then (-1, err) else (0, errno))
        end
      else mret (0, errno)
  end.
End dirutil.

(** * Paths *)

(** [p] is the path of a directory on the way to the end of [s]: it is not empty, ends before a
    slash of [s] and does not end in one. *)
Definition level (s p : string) : Prop :=
  ∃ q c r, s = q +:+ String c (String "/" r) ∧ c ≠ "/"%char ∧ p = q +:+ String c "".

Definition ends_in_slash (s : string) : Prop := ∃ r, s = r +:+ "/".

Definition slashes (s : string) : Prop := Forall (λ c, c = "/"%char) (String.list_ascii_of_string s).
Definition no_slash (s : string) : Prop := Forall (λ c, c ≠ "/"%char) (String.list_ascii_of_string s).

Lemma list_ascii_app a b :
  String.list_ascii_of_string (a +:+ b) = String.list_ascii_of_string a ++ String.list_ascii_of_string b.
Proof. induction a as [|c a IH]; [done|]. simpl. by f_equal. Qed.
Lemma list_ascii_inj a b : String.list_ascii_of_string a = String.list_ascii_of_string b → a = b.
Proof.
  intros E. rewrite <- (String.string_of_list_ascii_of_string a), E.
  apply String.string_of_list_ascii_of_string.
Qed.
Lemma string_length (s : string) : String.length s = length (String.list_ascii_of_string s).
Proof. induction s; simpl; congruence. Qed.

Lemma skip_slashes_spec s a b : skip_slashes s = (a, b) →
  s = a +:+ b ∧ slashes a ∧ ∀ r, b ≠ String "/" r.
Proof.
  revert a b. induction s as [|c s IH]; intros a b E; simpl in E.
  { injection E as <- <-. split; [done|]. split; [constructor|done]. }
  destruct (decide (c = "/"%char)) as [->|Hc].
  - destruct (skip_slashes s) as [a' b'] eqn:E'. injection E as <- <-.
    destruct (IH a' b' eq_refl) as (-> & ? & ?). split; [done|]. split; [by constructor|done].
  - assert ((a, b) = ("", String c s)) as [= -> ->].
    { destruct c as [[] [] [] [] [] [] [] []]; done. }
    split; [done|]. split; [constructor|]. by intros r [= -> ->].
Qed.

Lemma component_end_spec s : ends_in_slash s →
  ∃ a b, component_end s = Done (a, String "/" b) ∧ s = a +:+ String "/" b ∧ no_slash a.
Proof.
  intros [r ->]. induction r as [|c r IH].
  2: change (String c r +:+ "/") with (String c (r +:+ "/")); simpl.
  { exists "", "". split; [done|]. split; [done|constructor]. }
  case_decide as Hc; [subst; exists "", (r +:+ "/"); split; [done|split; [done|constructor]]|].
  destruct IH as (a & b & E & E2 & Ha). rewrite E, E2. simpl. exists (String c a), b.
  split; [done|]. split; [done|by constructor].
Qed.

(** A level that is not longer than the next one is an earlier one, or it is the next. *)
Lemma level_step before sl comp rest p :
  slashes sl → no_slash comp →
  level (before +:+ sl +:+ comp +:+ String "/" rest) p →
  (String.length p ≤ String.length (before +:+ sl +:+ comp))%nat →
  (String.length p ≤ String.length before)%nat ∨ p = before +:+ sl +:+ comp.
Proof.
  intros Hsl Hco (q & c & r & E & Hc & ->) Hlen.
  destruct (decide (String.length (q +:+ String c "") ≤ String.length before)%nat) as [|Hlong]; [by left|right].
  apply (f_equal String.list_ascii_of_string) in E. rewrite !list_ascii_app in E. simpl in E.
  rewrite !string_length, ?list_ascii_app, ?length_app in *. simpl in *.
  set (B := String.list_ascii_of_string before) in *. set (S0 := String.list_ascii_of_string sl) in *.
  set (C0 := String.list_ascii_of_string comp) in *. set (Q := String.list_ascii_of_string q) in *.
  assert ((Q ++ c :: "/"%char :: String.list_ascii_of_string r) !! length Q = Some c) as H1
    by (by rewrite lookup_app_r, Nat.sub_diag by lia).
  assert ((Q ++ c :: "/"%char :: String.list_ascii_of_string r) !! S (length Q) = Some "/"%char) as H2
    by (rewrite lookup_app_r by lia; by replace (S (length Q) - length Q)%nat with 1%nat by lia).
  rewrite <- E in H1, H2.
  (* the level does not end in the slashes *)
  rewrite lookup_app_r in H1, H2 by lia.
  destruct (decide (length Q - length B < length S0)%nat).
  { rewrite lookup_app_l in H1 by lia. by eapply Forall_lookup_1 in Hsl. }
  rewrite lookup_app_r in H1, H2 by lia.
  destruct (decide (S (length Q) - length B - length S0 < length C0)%nat).
  { rewrite lookup_app_l in H2 by lia. by eapply Forall_lookup_1 in Hco. }
  assert (length (Q ++ [c]) = length (B ++ S0 ++ C0)) as Hl by (rewrite !length_app in *; simpl; lia).
  apply list_ascii_inj. rewrite !list_ascii_app. fold B S0 C0 Q. simpl.
  assert ((B ++ S0 ++ C0) ++ "/"%char :: String.list_ascii_of_string rest =
          (Q ++ [c]) ++ "/"%char :: String.list_ascii_of_string r) as E'
    by (rewrite <- !app_assoc; simpl; done).
  symmetry. by apply app_inj_1 in E' as [-> _].
Qed.

Lemma level_nil_head p s : level s p → (0 < String.length p)%nat.
Proof. intros (q & c & r & _ & _ & ->). rewrite string_length, list_ascii_app, length_app. simpl. lia. Qed.

Lemma level_end before sl p :
  slashes sl → level (before +:+ sl) p → (String.length p ≤ String.length before)%nat.
Proof.
  intros Hsl (q & c & r & E & Hc & ->).
  destruct (decide (String.length (q +:+ String c "") ≤ String.length before)%nat) as [|Hlong]; [done|exfalso].
  apply (f_equal String.list_ascii_of_string) in E. rewrite !list_ascii_app in E. simpl in E.
  rewrite !string_length, ?list_ascii_app, ?length_app in *. simpl in *.
  set (Q := String.list_ascii_of_string q) in *.
  assert ((Q ++ c :: "/"%char :: String.list_ascii_of_string r) !! length Q = Some c) as H1
    by (by rewrite lookup_app_r, Nat.sub_diag by lia).
  rewrite <- E, lookup_app_r in H1 by lia. by eapply Forall_lookup_1 in Hsl.
Qed.

Lemma ends_in_slash_app sl b : ends_in_slash (sl +:+ b) → b ≠ "" → ends_in_slash b.
Proof.
  intros [r E] Hb. revert r E. induction sl as [|c sl IH]; intros r E; [by exists r|].
  change (String c sl +:+ b) with (String c (sl +:+ b)) in E. destruct r as [|c' r].
  - injection E as -> E. destruct sl; [|done]. by destruct b.
  - injection E as -> E. by eapply IH.
Qed.

(** * Properties *)

(** What the file system promises: a [stat] that finds a directory means there is one, [mkdir]
    makes one, and none of the calls removes a directory. *)
Definition any_choice (c : Z) : Prop := True.

Class VfsLaws {D} (V : Vfs D) := {
  is_dir : string → Sys D → Prop;
  stat_is_dir : ∀ (ds : string → Prop) p,
    ttriple any_choice (λ s, ∀ q, ds q → is_dir q s) (vfs_stat p)
      (λ r s, (∀ q, ds q → is_dir q s) ∧ (r.1 = 0 → S_ISDIR r.2 = true → is_dir p s)) (λ s, ∀ q, ds q → is_dir q s);
  mkdir_is_dir : ∀ (ds : string → Prop) p mode,
    ttriple any_choice (λ s, ∀ q, ds q → is_dir q s) (vfs_mkdir p mode)
      (λ r s, (∀ q, ds q → is_dir q s) ∧ (r = 0 → is_dir p s)) (λ s, ∀ q, ds q → is_dir q s);
  utime_is_dir : ∀ (ds : string → Prop) p t,
    ttriple any_choice (λ s, ∀ q, ds q → is_dir q s) (vfs_utime p t)
      (λ r s, ∀ q, ds q → is_dir q s) (λ s, ∀ q, ds q → is_dir q s)
}.

Section create.
Context {D : Type} `{V : !Vfs D} `{!VfsLaws V} (malloc : Z → bool).

Definition dirs (ds : string → Prop) (s : Sys D) : Prop := ∀ q, ds q → is_dir q s.

Lemma status_ok (ds : string → Prop) p errno :
  ttriple any_choice (dirs ds) (getPathDirStatus p errno)
    (λ r s, dirs ds s ∧ (r.1 = DDIR → is_dir p s)) (dirs ds).
Proof.
  unfold getPathDirStatus. eapply tt_bind; [apply stat_is_dir|]. intros [err mode]. apply tt_ret.
  simpl. intros s [Hs Hd]. split; [done|].
  case_decide; [|by case_decide]. destruct (S_ISDIR mode); [auto|done].
Qed.

(** The directories there were and the levels found so far. *)
Context (ds : string → Prop).
Definition reached (cpath before p : string) : Prop :=
  ds p ∨ level cpath p ∧ (String.length p ≤ String.length before)%nat.
Lemma reached_before cpath before s : dirs (reached cpath before) s → dirs ds s.
Proof. intros Hs q Hq. apply Hs. by left. Qed.
#[local] Hint Resolve reached_before : core.

Lemma reached_next cpath before sl comp rest s :
  slashes sl → no_slash comp → cpath = before +:+ sl +:+ comp +:+ String "/" rest →
  dirs (reached cpath before) s → is_dir (before +:+ sl +:+ comp) s →
  dirs (reached cpath (before +:+ sl +:+ comp)) s.
Proof.
  intros Hsl Hco -> Hs Hd p [Hp|[Hl Hlen]]; [by apply Hs; left|].
  destruct (level_step _ _ _ _ _ Hsl Hco Hl Hlen) as [? | ->]; [by apply Hs; right|done].
Qed.

Lemma tt_reached {A} cpath before P (m : io D A) Q :
  ttriple any_choice P m Q (dirs (reached cpath before)) → ttriple any_choice P m Q (dirs ds).
Proof. intros Hm. eapply tt_conseq; [exact Hm|done|done|]. intros s. by apply reached_before. Qed.

Lemma create_levels_ok mode timestamp cpath : ∀ fuel before rest errno,
  cpath = before +:+ rest → rest = "" ∨ ends_in_slash rest → (String.length rest < fuel)%nat →
  ttriple any_choice (dirs (reached cpath before)) (create_levels fuel mode timestamp before rest errno)
    (λ r s, dirs ds s ∧ (r.1 = 0 → dirs (level cpath) s)) (dirs ds).
Proof.
  induction fuel as [|fuel IH]; intros before rest errno Hc Hends Hf; [lia|]. cbn [create_levels].
  destruct (skip_slashes rest) as [sl rest1] eqn:Esk.
  destruct (skip_slashes_spec _ _ _ Esk) as (-> & Hsl & Hrest1). case_decide as Hr.
  { subst rest1. apply tt_ret. intros s Hs. split; [by eauto|]. intros _ p Hp. apply Hs. right. split; [done|].
    rewrite Hc in Hp. eapply level_end; [exact Hsl|]. by rewrite string_app_nil_r in Hp. }
  assert (ends_in_slash rest1) as Hends1.
  { destruct Hends as [E|E]; [|by eapply ends_in_slash_app].
    exfalso. apply Hr. destruct sl; [by destruct rest1|done]. }
  destruct (component_end_spec rest1 Hends1) as (comp & rest2 & -> & -> & Hco).
  eapply tt_bind; [apply (tt_lift _ _ _ (λ r s, dirs (reached cpath before) s ∧ r = (comp, String "/" rest2)));
    by apply run_ok_done|].
  intros r. apply tt_split. intros ->.
  rewrite string_app_assoc.
  assert (∀ errno, ttriple any_choice (dirs (reached cpath (before +:+ sl +:+ comp)))
    (create_levels fuel mode timestamp (before +:+ sl +:+ comp) (String "/" rest2) errno)
    (λ r s, dirs ds s ∧ (r.1 = 0 → dirs (level cpath) s)) (dirs ds)) as Hnext.
  { intros errno'. apply IH.
    - by rewrite Hc, !string_app_assoc.
    - right. eapply (ends_in_slash_app comp); [done|done].
    - assert (comp ≠ "") as Hne by (intros ->; by eapply Hrest1).
      rewrite !string_length, !list_ascii_app, !length_app in *. simpl.
      destruct comp; [done|]. simpl in Hf. lia. }
  assert (∀ s, dirs (reached cpath before) s → is_dir (before +:+ sl +:+ comp) s →
    dirs (reached cpath (before +:+ sl +:+ comp)) s) as Hreach.
  { intros s. apply (reached_next cpath before sl comp rest2 s Hsl Hco). by rewrite Hc. }
  eapply tt_bind; [apply (tt_reached cpath before), status_ok|]. intros [[] errno1]; simpl.
  - eapply (tt_conseq _ _ (dirs (reached cpath before))); [|by intros ? []|intros ? ? Hx; exact Hx|done].
    eapply tt_bind; [apply (tt_reached cpath before), mkdir_is_dir|]. intros err. simpl.
    case_decide as Herr; [apply tt_ret; intros s [Hs _]; split; [by eapply reached_before|done]|]. assert (err = 0) as -> by lia.
    assert (∀ m, ttriple any_choice (dirs (reached cpath (before +:+ sl +:+ comp))) m
        (λ (r : Z * Z) s, dirs ds s ∧ (r.1 = 0 → dirs (level cpath) s)) (dirs ds) →
      ttriple any_choice (λ s, (∀ q, reached cpath before q → is_dir q s) ∧
        (0 = 0 → is_dir (before +:+ sl +:+ comp) s)) m
        (λ r s, dirs ds s ∧ (r.1 = 0 → dirs (level cpath) s)) (dirs ds)) as Hpre.
    { intros m Hm. eapply tt_conseq; [exact Hm| |done|done]. intros s [Hs Hd]. apply Hreach; [done|by apply Hd]. }
    apply Hpre. destruct timestamp as [t|]; [|apply Hnext].
    eapply tt_bind; [apply (tt_reached cpath (before +:+ sl +:+ comp)), utime_is_dir|]. intros err. case_decide; [apply tt_ret; intros s Hs; split; [by eapply reached_before|done]|apply Hnext].
  - eapply tt_conseq; [apply (Hnext errno1)| |done|done]. intros s [Hs Hd]. apply Hreach; [done|by apply Hd].
  - apply tt_ret. intros s [Hs _]. split; [by eapply reached_before|done].
Qed.

(** The directory a path is about: with a slash at the end. *)
Definition directory_path (path : string) (stripFileName : bool) : option string :=
  if stripFileName then strip_filename path else Some (path +:+ "/").

Lemma strip_filename_none s : strip_filename s = None →
  match s with "" => True | String _ n => no_slash n end.
Proof.
  induction s as [|c s IH]; simpl; [done|]. destruct (strip_filename s); [done|].
  specialize (IH eq_refl). destruct s as [|c' s]; [constructor|]. intros E. constructor; [|done].
  intros ->. done.
Qed.
Lemma strip_filename_spec path d : strip_filename path = Some d →
  ends_in_slash d ∧ ∃ name, path = d +:+ name ∧ no_slash name.
Proof.
  revert d. induction path as [|c path IH]; intros d; simpl; [done|].
  destruct (strip_filename path) as [d'|] eqn:E.
  - intros [= <-]. destruct (IH d' eq_refl) as ([r ->] & name & -> & Hn).
    split; [by exists (String c r)|]. by exists name.
  - apply strip_filename_none in E.
    destruct path as [|[[] [] [] [] [] [] [] []] path]; try done. intros [= <-].
    split; [by exists (String c "")|]. by exists path.
Qed.

(** C40: When [dirCreateHierarchy] succeeds every directory on the way to the end of its path is
    there, and the path itself; it always ends, and every directory there was before is there afterwards, also when it fails or is
    interrupted, whatever the calls of the file system do.  With [stripFileName] the path is the one of the directory the file is in. *)
Theorem dirCreateHierarchy_ok path mode timestamp stripFileName errno :
  ttriple any_choice (dirs ds) (dirCreateHierarchy malloc path mode timestamp stripFileName errno)
    (λ r s, dirs ds s ∧ (r.1 = 0 → ∃ cpath, directory_path path stripFileName = Some cpath ∧
       (is_dir cpath s ∨ ∀ p, level cpath p → is_dir p s))) (dirs ds).
Proof.
  unfold dirCreateHierarchy. fold (directory_path path stripFileName).
  case_decide; [by apply tt_ret|]. destruct (malloc _); simpl; [|by apply tt_ret].
  destruct (directory_path path stripFileName) as [cpath|] eqn:Ec; [|by apply tt_ret].
  assert (ends_in_slash cpath) as Hends.
  { unfold directory_path in Ec. destruct stripFileName; [by apply strip_filename_spec in Ec as [? _]|].
    injection Ec as <-. by exists path. }
  eapply tt_bind.
  { eapply tt_conseq; [apply (status_ok (reached cpath ""))|..]; [|done|by eauto].
    intros s Hs p [Hp|[Hl Hlen]]; [by apply Hs|]. apply level_nil_head in Hl. simpl in Hlen. lia. }
  intros [[] errno1]; cbv beta iota.
  - eapply tt_conseq; [apply (create_levels_ok mode timestamp cpath (S (String.length cpath)) "" cpath errno1
      eq_refl (or_intror Hends)); lia|by intros ? []| |done].
    simpl. intros r s [Hs Hr]. split; [done|]. intros E. exists cpath. split; [done|]. right. by apply Hr.
  - apply tt_ret. intros s [Hs Hd]. split; [by eauto|]. intros _. exists cpath. split; [done|]. left. by apply Hd.
  - apply tt_ret. intros s [Hs _]. split; [by eauto|done].
Qed.
End create.

(** ** What the recursive operations touch *)

(** [p] is [root] or below it. *)
Definition inside (root p : string) : Prop := p = root ∨ ∃ q, p = root +:+ "/" +:+ q.

Lemma string_length_app a b : String.length (a +:+ b) = (String.length a + String.length b)%nat.
Proof. by rewrite !string_length, list_ascii_app, length_app. Qed.

Lemma substring_app n a b : (String.length a ≤ n)%nat →
  String.substring 0 n (a +:+ b) = a +:+ String.substring 0 (n - String.length a) b.
Proof.
  revert n. induction a as [|c a IH]; intros n Hn; [by rewrite Nat.sub_0_r|].
  destruct n as [|n]; [simpl in Hn; lia|]. simpl in Hn.
  change (String c (String.substring 0 n (a +:+ b)) = String c (a +:+ String.substring 0 (n - String.length a) b)).
  rewrite IH by lia. done.
Qed.
Lemma substring_length n s : (String.length (String.substring 0 n s) ≤ n)%nat.
Proof. revert s. induction n as [|n IH]; intros [|c s]; simpl; [lia|lia|lia|]. specialize (IH s). lia. Qed.

Lemma child_inside root path name :
  (String.length path < Z.to_nat PATH_MAX)%nat → inside root path → inside root (child_path path name) ∧
  (String.length (child_path path name) < Z.to_nat PATH_MAX)%nat.
Proof.
  unfold PATH_MAX. intros Hlen Hin. unfold child_path, PATH_MAX.
  split; [|pose proof (substring_length (Z.to_nat (4096 - 1)) (path +:+ "/" +:+ name)); lia].
  rewrite substring_app by lia. destruct (Z.to_nat (4096 - 1) - String.length path)%nat as [|n].
  { change (String.substring 0 0 ("/" +:+ name)) with "". by rewrite string_app_nil_r. }
  change (String.substring 0 (S n) ("/" +:+ name)) with ("/" +:+ String.substring 0 n name).
  destruct Hin as [-> | [q ->]]; right; [by eexists|].
  exists (q +:+ "/" +:+ String.substring 0 n name). by rewrite !string_app_assoc.
Qed.

Section touch.
Context {D : Type} `{V : !Vfs D} (R : Sys D → Prop) (root : string).
Hypothesis Hlstat : ∀ p, keeps R (vfs_lstat p).
Hypothesis Hopendir : ∀ p, keeps R (vfs_opendir p).
Hypothesis Hreaddir : ∀ d, keeps R (vfs_readdir d).
Hypothesis Hclosedir : ∀ d, keeps R (vfs_closedir d).
Hypothesis Hroot : (String.length root < Z.to_nat PATH_MAX)%nat.

Lemma unlink_children_keeps unlink path :
  (∀ name errno, keeps R (unlink (child_path path name) errno)) →
  ∀ fuel dir errno, keeps R (unlink_children fuel unlink path dir errno).
Proof.
  intros Hun. induction fuel as [|fuel IH]; intros dir errno; cbn [unlink_children]; [apply keeps_lift|].
  apply keeps_bind; [apply Hreaddir|]. intros [err [[name dir']|]]; [|apply keeps_ret].
  apply keeps_if; [apply IH|]. apply keeps_bind; [apply Hun|]. intros [r errno'].
  apply keeps_decide; [apply keeps_ret|apply IH].
Qed.
Lemma dirUnlinkHierarchy_keeps :
  (∀ p, inside root p → keeps R (vfs_unlink p) ∧ keeps R (vfs_rmdir p)) →
  ∀ depth fuel path errno, inside root path → (String.length path < Z.to_nat PATH_MAX)%nat →
  keeps R (dirUnlinkHierarchy depth fuel path errno).
Proof.
  intros Hops. induction depth as [|depth IH]; intros fuel path errno Hin Hlen;
    cbn [dirUnlinkHierarchy]; [apply keeps_lift|]. destruct (Hops path Hin) as [Hun Hrm].
  apply keeps_bind; [apply Hlstat|]. intros [err mode]. apply keeps_decide; [apply keeps_ret|].
  apply keeps_if; [keeps_tac|]. apply keeps_bind; [apply Hopendir|].
  intros [err' [dir|]]; [|apply keeps_ret]. apply keeps_bind.
  { apply unlink_children_keeps. intros name e. destruct (child_inside root path name Hlen Hin). by apply IH. }
  intros [fail errno']. apply keeps_if.
  - apply keeps_bind; [apply Hclosedir|intro; apply keeps_ret].
  - apply keeps_bind; [apply Hclosedir|intro]. keeps_tac.
Qed.

Lemma permit_children_keeps permit path :
  (∀ name errno, keeps R (permit (child_path path name) errno)) →
  ∀ fuel dir errno, keeps R (permit_children fuel permit path dir errno).
Proof.
  intros Hun. induction fuel as [|fuel IH]; intros dir errno; cbn [permit_children]; [apply keeps_lift|].
  apply keeps_decide; [apply keeps_ret|].
  apply keeps_bind; [apply Hreaddir|]. intros [err [[name dir']|]]; [|apply keeps_ret].
  apply keeps_if; [apply IH|]. apply keeps_bind; [apply Hun|]. intros [r errno']. apply IH.
Qed.
Lemma dirSetHierarchyPermissions_keeps :
  (∀ p, inside root p → (∀ u g, keeps R (vfs_chown p u g)) ∧ ∀ m, keeps R (vfs_chmod p m)) →
  ∀ depth fuel path uid gid dirMode fileMode errno,
  inside root path → (String.length path < Z.to_nat PATH_MAX)%nat →
  keeps R (dirSetHierarchyPermissions depth fuel path uid gid dirMode fileMode errno).
Proof.
  intros Hops. induction depth as [|depth IH]; intros fuel path uid gid dm fm errno Hin Hlen;
    cbn [dirSetHierarchyPermissions]; [apply keeps_lift|]. destruct (Hops path Hin) as [Hown Hmod].
  apply keeps_bind; [apply Hlstat|]. intros [err mode]. apply keeps_decide; [apply keeps_ret|].
  apply keeps_if; [apply keeps_ret|]. apply keeps_bind; [apply Hown|]. intros err1.
  apply keeps_decide; [apply keeps_ret|]. apply keeps_bind; [apply Hmod|]. intros err2.
  apply keeps_decide; [apply keeps_ret|]. apply keeps_if; [|apply keeps_ret].
  apply keeps_bind; [apply Hopendir|]. intros [err' [dir|]]; [|apply keeps_ret]. apply keeps_bind.
  { apply permit_children_keeps. intros name e. destruct (child_inside root path name Hlen Hin). by apply IH. }
  intros errno'. apply keeps_decide; (apply keeps_bind; [apply Hclosedir|intro; apply keeps_ret]).
Qed.

(** Whatever directories contain, and whatever fails, the recursive removal calls [unlink]
    and [rmdir], and the recursive setting of permissions calls [chown] and [chmod], only on the path they are
    given or below it; the truncation of long paths included. *)
Lemma hierarchy_stays_inside depth fuel uid gid dirMode fileMode errno :
  ((∀ p, inside root p → keeps R (vfs_unlink p) ∧ keeps R (vfs_rmdir p)) →
   keeps R (dirUnlinkHierarchy depth fuel root errno)) ∧
  ((∀ p, inside root p → (∀ u g, keeps R (vfs_chown p u g)) ∧ ∀ m, keeps R (vfs_chmod p m)) →
   keeps R (dirSetHierarchyPermissions depth fuel root uid gid dirMode fileMode errno)).
Proof.
  split; intros Hops; [apply dirUnlinkHierarchy_keeps|apply dirSetHierarchyPermissions_keeps];
    (done || by left).
Qed.
End touch.

(** * A file system without links, for the examples *)

(** The state of the device is the set of the directories. *)
Definition trim (p : string) : string :=
  match strip_filename p with
  | Some d => if decide (d = p) then String.substring 0 (String.length p - 1) p else p
  | None => p
  end.
Definition kind_of (p : string) (s : Sys (gset string)) : Z * Z :=
  if decide (trim p ∈ mtd s) then (0, 16877)
  else if decide (is_Some (files s !! p)) then (0, 33188) else (ENOENT, 0).
Definition or_fail {A} (bad : A) (m : io (gset string) A) : io (gset string) A :=
  c ← choose; if decide (c = 0) then mret bad else m.
Definition EACCES : Z := 13.

#[export] Instance flat_vfs : Vfs (gset string) := {|
  DIR := list string;
  vfs_stat p := or_fail (EACCES, 0) (read_sys (kind_of p));
  vfs_lstat p := or_fail (EACCES, 0) (read_sys (kind_of p));
  vfs_mkdir p _ := or_fail EACCES (_ ← update_sys (set_mtd (λ ds, {[ trim p ]} ∪ ds)); mret 0);
  vfs_utime _ _ := or_fail EACCES (mret 0);
  vfs_unlink p := or_fail EACCES (_ ← update_sys (set_files (delete p)); mret 0);
  vfs_rmdir p := or_fail EACCES (_ ← update_sys (set_mtd (λ ds, ds ∖ {[ trim p ]})); mret 0);
  vfs_chown _ _ _ := or_fail EACCES (mret 0);
  vfs_chmod _ _ := or_fail EACCES (mret 0);
  vfs_opendir p := or_fail (EACCES, None)
    (l ← read_sys (λ s, default [] (listing s !! p)); mret (0, Some l));
  vfs_readdir d := mret (0, match d with [] => None | n :: d => Some (n, d) end);
  vfs_closedir _ := mret 0;
  vfs_symlink _ _ := mret EACCES;
  vfs_creat p _ := b ← sys_creat p; mret (if (b : bool) then Some p else None)
|}.

Lemma tt_or_fail {A} (bad : A) P (m : io (gset string) A) Q :
  ttriple any_choice P m Q P → (∀ s, P s → Q bad s) →
  ttriple any_choice P (or_fail bad m) Q P.
Proof.
  intros Hm Hb. unfold or_fail. eapply tt_bind; [apply (tt_choose _ _ (λ _ s, P s)); done|].
  intros c. case_decide; [by apply tt_ret|done].
Qed.

#[export] Instance flat_vfs_laws : VfsLaws flat_vfs.
Proof.
  refine {| is_dir := λ p s, trim p ∈ mtd s |}; simpl.
  - intros ds p. apply tt_or_fail; [|intros s Hs; split; [done|]; simpl; discriminate].
    apply tt_read. intros s Hs. split; [done|]. unfold kind_of. case_decide; [done|].
    case_decide; simpl; discriminate.
  - intros ds p _. apply tt_or_fail; [|intros s Hs; split; [done|discriminate]].
    eapply tt_bind; [apply (tt_update _ _ _ (λ _ s, (∀ q, ds q → trim q ∈ mtd s) ∧ trim p ∈ mtd s))|].
    + intros [] Hs. simpl in *. split; [|set_solver]. intros q Hq. specialize (Hs q Hq). set_solver.
    + intros []. apply tt_ret. intros s [? ?]. by split.
  - intros ds p _. apply tt_or_fail; [by apply tt_ret|done].
Defined.

Definition small_tree : Sys (gset string) :=
  mkSys {[ "/d/f" := mkFile [1] 420 0 0; "/e" := mkFile [2] 420 0 0 ]} ∅ {[ ""; "/d" ]} false
    {[ "/d" := ["."; ".."; "f"] ]} [].
Definition big_heap (n : Z) : bool := true.

Example create_ab :
  dirCreateHierarchy big_heap "/d/a//b/c.txt" 493 None true 0 small_tree (replicate 9 1) =
    Ret (0, ENOENT) (set_mtd (λ _, {[ ""; "/d"; "/d/a"; "/d/a//b" ]}) small_tree) [1; 1; 1].
Proof. vm_compute. reflexivity. Qed.
(** A file directly under the root has no directory component. *)
Example strip_root : dirCreateHierarchy big_heap "/init" 493 None true 0 small_tree [1; 1] =
  Ret (-1, ENOENT) small_tree [1; 1].
Proof. reflexivity. Qed.
Example unlink_d :
  dirUnlinkHierarchy 3 5 "/d" 0 small_tree (replicate 5 1) =
    Ret (0, 0) (set_mtd (λ _, {[ "" ]}) (set_files (delete "/d/f") small_tree)) [].
Proof. vm_compute. reflexivity. Qed.

Definition e_intact (s : Sys (gset string)) : Prop := files s !! "/e" = Some (mkFile [2] 420 0 0).

Lemma hierarchy_stays_inside_witness :
  keeps e_intact (dirUnlinkHierarchy 3 5 "/d" 0) ∧
  keeps e_intact (dirSetHierarchyPermissions 3 5 "/d" 0 0 493 420 0).
Proof.
  assert (∀ s f, e_intact s → e_intact (set_mtd f s)) as Hm by (by intros [] f).
  assert (∀ p s, inside "/d" p → e_intact s → e_intact (set_files (delete p) s)) as Hf.
  { intros p [] Hin He. unfold e_intact in *. simpl in *. rewrite lookup_delete_ne; [done|].
    intros ->. destruct Hin as [?|[q ?]]; done. }
  assert (∀ A (bad : A) m, keeps e_intact m → keeps e_intact (or_fail bad m)) as Ho.
  { intros. unfold or_fail. keeps_tac. }
  destruct (hierarchy_stays_inside e_intact "/d") with (depth := 3%nat) (fuel := 5%nat) (uid := 0) (gid := 0)
    (dirMode := 493) (fileMode := 420) (errno := 0) as [Hu Hp].
  - intros p. apply Ho. keeps_tac.
  - intros p. apply Ho. keeps_tac.
  - intros d. simpl. keeps_tac.
  - intros d. simpl. keeps_tac.
  - by vm_compute; lia.
  - split; [apply Hu|apply Hp]; intros p Hin; split; intros; apply Ho; keeps_tac; apply keeps_update; eauto.
Defined.

Lemma dirCreateHierarchy_ok_witness :
  ttriple any_choice (dirs (λ p, p = "/d"%string)) (dirCreateHierarchy big_heap "/d/a/c" 493 None true 0)
    (λ r s, dirs (λ p, p = "/d"%string) s ∧ (r.1 = 0 → ∃ cpath, directory_path "/d/a/c" true = Some cpath ∧
       (is_dir cpath s ∨ ∀ p, level cpath p → is_dir p s))) (dirs (λ p, p = "/d"%string)).
Proof. apply (dirCreateHierarchy_ok (V := flat_vfs)). Defined.
