(* ===== verification/ZipExtract.v ===== *)
(** Unpacking a directory of a zip archive: [targetEntryPath] and
    [mzExtractRecursive] of [minzip/Zip.c]. *)
From S2P Require Import Prelude CLib Bytes ZlibSha World Hash Zip ZipData DirUtil.

Definition MZ_EXTRACT_FILES_ONLY : Z := 1.
Definition MZ_EXTRACT_DRY_RUN : Z := 2.
Definition UNZIP_DIRMODE : Z := 493.  (* 0755 *)
Definition UNZIP_FILEMODE : Z := 420. (* 0644 *)

(** [buf] is a block of [bufLen] bytes. *)
Record MzPathHelper := mkMzPathHelper {
  targetDir : bytes;
  zipDir : bytes;
  buf : option bytes;
  targetDirLen : Z;
  zipDirLen : Z;
  bufLen : Z
}.

Definition text_of_bytes (l : bytes) : string :=
  String.string_of_list_ascii (map (λ b, Ascii.ascii_of_nat (Z.to_nat b)) l).

Section extract.
Context `{Abi} `{Zlib} {D : Type} `{!Vfs D}.
(** Whether there is memory for a block, and what is in it at first. *)
Context (malloc : Z → bool) (fresh : Z → bytes).

(** [realloc] to a larger size. *)
Definition grow (old : option bytes) (n : Z) : option bytes :=
  if malloc n then Some (default [] old ++ drop (length (default [] old)) (fresh n)) else None.

(** The path, as bytes, and the helper; [None] when memory is short. *)
Definition targetEntryPath (h : MzPathHelper) (name : bytes) : run (option (bytes * MzPathHelper)) :=
  let firstTime := match buf h with None => true | Some _ => false end in
  let needLen := s32 (targetDirLen h + 1 + zlen name - zipDirLen h + 1) in
  let '(block, len) :=
    if decide (needLen > bufLen h) then (grow (buf h) (needLen * 2), needLen * 2)
    else (buf h, bufLen h) in
  match block with
  | None => mret None
  | Some block =>
      '(block, dirLen) ←
        (if firstTime then
           block ← access (store block 0 (targetDir h));
           if decide (targetDirLen h = 0 ∨ znth (targetDir h) (targetDirLen h - 1) ≠ Some 47) then
             block ← access (store block (targetDirLen h) [47]);
             mret (block, targetDirLen h + 1)
           else mret (block, targetDirLen h)
         else mret (block, targetDirLen h));
      rest ← access (zslice name (zipDirLen h) (zlen name - zipDirLen h));
      block ← access (store block dirLen rest);
      block ← access (store block (dirLen + zlen rest) [0]);
      mret (Some (c_string block,
                  mkMzPathHelper (targetDir h) (zipDir h) (Some block) dirLen (zipDirLen h) len))
  end.

(** How an entry is left: with the callback and the next entry, or with [break] and
    the value of [ok]. *)
Inductive step := Next | Break (ok : bool).

Definition extract_symlink (fuel : nat) (file : bytes) (oldOff : Z) (e : ZipEntry) (target : string)
    : io D step :=
  if decide (uncompLen e = 0) then mret (Break false) else
  if negb (malloc (uncompLen e + 1)) then mret (Break false) else
  '(ok, data) ← mzReadZipEntry fuel file oldOff e (s32 (uncompLen e));
  if negb ok then mret (Break false) else
  block ← lift (access (store (fresh (uncompLen e + 1)) 0 data));
  block ← lift (access (store block (uncompLen e) [0]));
  ret ← vfs_symlink (text_of_bytes (c_string block)) target;
  mret (if decide (ret ≠ 0) then Break false else Next).

(** A second variable [ok] hides the one of the function: its [false] is lost. *)
Definition extract_file (fuel : nat) (file : bytes) (oldOff : Z) (e : ZipEntry) (target : string)
    (timestamp : option Z) : io D step :=
  fd ← vfs_creat target UNZIP_FILEMODE;
  match fd with
  | None => mret (Break false)
  | Some fd =>
      ok ← mzExtractZipEntryToFile fuel file oldOff e fd;
      if negb ok then mret (Break true) else
      match timestamp with
      | Some t => err ← vfs_utime target t; mret (if decide (err ≠ 0) then Break true else Next)
      | None => mret Next
      end
  end.

Definition extract_entry (fuel : nat) (file : bytes) (oldOff flags : Z) (timestamp : option Z)
    (e : ZipEntry) (target : string) : io D step :=
  let files_only := bool_decide (Z.land flags MZ_EXTRACT_FILES_ONLY ≠ 0) in
  last ← lift (access (znth (fileName e) (fileNameLen e - 1)));
  if decide (last = 47) then
    if files_only then mret Next else
    '(ret, _) ← dirCreateHierarchy malloc target UNZIP_DIRMODE timestamp false 0;
    mret (if decide (ret ≠ 0) then Break false else Next)
  else
    '(ret, _) ← dirCreateHierarchy malloc target UNZIP_DIRMODE timestamp true 0;
    if decide (ret ≠ 0) then mret (Break false)
    else if negb files_only && mzIsZipEntrySymlink e then extract_symlink fuel file oldOff e target
    else extract_file fuel file oldOff e target timestamp.

(** The result and the names given to the callback. *)
Fixpoint extract_loop (fuel : nat) (file : bytes) (oldOff flags : Z) (timestamp : option Z)
    (zpath : bytes) (entries : list ZipEntry) (seenMatch : bool) (h : MzPathHelper)
    (names : list string) : io D (bool * list string) :=
  match entries with
  | [] => mret (true, names)
  | e :: entries =>
      if decide (fileNameLen e < zlen zpath ∨
                 strncmp (fileName e) zpath (length zpath) ≠ 0) then
        if seenMatch then mret (true, names)
        else extract_loop fuel file oldOff flags timestamp zpath entries seenMatch h names
      else
        r ← lift (targetEntryPath h (fileName e));
        match r with
        | None => mret (false, names)
        | Some (target, h) =>
            let target := text_of_bytes target in
            step ← (if decide (Z.land flags MZ_EXTRACT_DRY_RUN ≠ 0) then mret Next
                    else extract_entry fuel file oldOff flags timestamp e target);
            match step with
            | Next => extract_loop fuel file oldOff flags timestamp zpath entries true h (names ++ [target])
            | Break ok => mret (ok, names)
            end
        end
  end.

Definition mzExtractRecursive (fuel : nat) (file : bytes) (oldOff : Z) (a : ZipArchive)
    (zip_dir target_dir : string) (flags : Z) (timestamp : option Z) : io D (bool * list string) :=
  if String.prefix "/" zip_dir then mret (false, []) else
  if negb (String.prefix "/" target_dir) then mret (false, []) else
  if negb (malloc (strlen zip_dir + 2)) then mret (false, []) else
  let zpath :=
    match last (bytes_of_string zip_dir) with
    | Some c => if decide (c ≠ 47) then bytes_of_string zip_dir ++ [47] else bytes_of_string zip_dir
    | None => []
    end in
  let helper := mkMzPathHelper (bytes_of_string target_dir) zpath None (strlen target_dir) (zlen zpath) 0 in
  match zip_pEntries a with
  | Some es => extract_loop fuel file oldOff flags timestamp zpath es false helper []
  | None => lift Fault
  end.
End extract.

(** * Target paths *)

Lemma store_at (p tail src : bytes) : zlen src ≤ zlen tail →
  ∃ tail', store (p ++ tail) (zlen p) src = Some (p ++ src ++ tail') ∧ zlen tail' = zlen tail - zlen src.
Proof.
  intros Hl. exists (drop (length src) tail). unfold store, zlen in *.
  rewrite decide_True by (rewrite length_app; lia).
  rewrite Nat2Z.id, take_app_length, length_drop. split; [|lia]. do 3 f_equal.
  rewrite drop_app_ge by lia. f_equal. lia.
Qed.

(** The target directory with a slash at the end. *)
Definition slashed (t : bytes) : bytes :=
  if decide (zlen t = 0 ∨ znth t (zlen t - 1) ≠ Some 47) then t ++ [47] else t.

Definition helper_ok (t z : bytes) (h : MzPathHelper) : Prop :=
  targetDir h = t ∧ zipDirLen h = zlen z ∧
  match buf h with
  | None => targetDirLen h = zlen t ∧ bufLen h = 0
  | Some b => targetDirLen h = zlen (slashed t) ∧ bufLen h = zlen b ∧ ∃ tail, b = slashed t ++ tail
  end.

Lemma c_string_app a b : no_null a → c_string (a ++ 0 :: b) = a.
Proof.
  intros Ha. induction a as [|x a IH]; [done|]. apply Forall_cons in Ha as [Hx Ha]. simpl.
  rewrite decide_False by done. by rewrite IH.
Qed.

Lemma slashed_bounds t : zlen t ≤ zlen (slashed t) ≤ zlen t + 1.
Proof. unfold slashed. case_decide; rewrite ?zlen_app; change (zlen [47]) with 1; lia. Qed.
Lemma slashed_no_null t : no_null t → no_null (slashed t).
Proof. intros. unfold slashed. case_decide; [|done]. apply Forall_app. split; [done|by constructor]. Qed.

Section paths.
Context (malloc : Z → bool) (fresh : Z → bytes).
Hypothesis Hmalloc : ∀ n, malloc n = true.
Hypothesis Hfresh : ∀ n, 0 ≤ n → zlen (fresh n) = n.

Lemma grow_ok old n : zlen (default [] old) ≤ n →
  ∃ block tail, grow malloc fresh old n = Some block ∧ block = default [] old ++ tail ∧ zlen block = n.
Proof.
  intros Hn. unfold grow. rewrite Hmalloc. eexists _, _. split; [done|]. split; [done|].
  pose proof (zlen_nonneg (default [] old)). specialize (Hfresh n ltac:(lia)).
  unfold zlen in *. rewrite length_app, length_drop. lia.
Qed.

(** The target directory is put into a new buffer, with a slash. *)
Lemma first_time_ok t block :
  zlen t + 1 ≤ zlen block →
  ∃ tail, (block ← access (store block 0 t);
     if decide (zlen t = 0 ∨ znth t (zlen t - 1) ≠ Some 47) then
       block ← access (store block (zlen t) [47]);
       mret (block, zlen t + 1)
     else mret (block, zlen t)) = Done (slashed t ++ tail, zlen (slashed t)) ∧
   zlen (slashed t ++ tail) = zlen block.
Proof.
  intros Hl. destruct (store_at [] block t) as (tail & E & Htail); [lia|].
  change ([] ++ block) with block in E. change (zlen (@nil Z)) with 0 in E. rewrite E. simpl.
  unfold slashed. case_decide.
  - destruct (store_at t tail [47]) as (tail' & -> & Htail'); [change (zlen [47]) with 1; lia|].
    exists tail'. simpl. rewrite <- app_assoc, zlen_app. split; [done|].
    rewrite !zlen_app. change (zlen [47]) with 1 in *. lia.
  - exists tail. split; [done|]. rewrite zlen_app. lia.
Qed.

Lemma targetEntryPath_ok t z h name :
  helper_ok t z h → no_null t → no_null name → zlen z ≤ zlen name < 2 ^ 20 → zlen t < 2 ^ 20 →
  ∃ h', targetEntryPath malloc fresh h name =
      Done (Some (slashed t ++ drop (length z) name, h')) ∧ helper_ok t z h'.
Proof.
  intros (Ht & Hz & Hbuf) Hnt Hnn Hn Hlt. unfold targetEntryPath.
  pose proof (slashed_bounds t). pose proof (zlen_nonneg t). pose proof (zlen_nonneg z).
  rewrite Ht, Hz.
  assert (zlen t ≤ targetDirLen h ≤ zlen t + 1) as Htl by (destruct (buf h); lia).
  rewrite wrap_s_id by (try done; unfold in_s; simpl; lia).
  set (needLen := targetDirLen h + 1 + zlen name - zlen z + 1).
  (* the buffer is large enough *)
  assert (∃ block len,
    (if decide (needLen > bufLen h) then (grow malloc fresh (buf h) (needLen * 2), needLen * 2)
     else (buf h, bufLen h)) = (Some block, len) ∧ zlen block = len ∧ needLen ≤ len ∧
    (buf h = None ∨ ∃ tail, block = slashed t ++ tail)) as (block & len & -> & Hblock & Hlen & Hcont).
  { destruct (buf h) as [b|] eqn:Eb.
    - destruct Hbuf as (_ & Hbl & tail & ->). case_decide.
      + destruct (grow_ok (Some (slashed t ++ tail)) (needLen * 2)) as (block & tail' & -> & -> & ?); [simpl; lia|].
        eexists _, _. split; [done|]. split; [done|]. split; [lia|]. right. eexists. simpl. by rewrite <- app_assoc.
      + eexists _, _. split; [done|]. split; [done|]. split; [lia|]. right. by eexists.
    - destruct Hbuf as [_ ->]. rewrite decide_True by (unfold needLen; lia).
      destruct (grow_ok None (needLen * 2)) as (block & tail' & -> & _ & ?); [simpl; change (zlen (@nil Z)) with 0; unfold needLen; lia|].
      eexists _, _. split; [done|]. split; [done|]. split; [unfold needLen in *; lia|]. by left. }
  (* the directory is in it *)
  assert (∃ tail, (if match buf h with None => true | Some _ => false end
     then block ← access (store block 0 t);
          if decide (targetDirLen h = 0 ∨ znth t (targetDirLen h - 1) ≠ Some 47) then
            block ← access (store block (targetDirLen h) [47]); mret (block, targetDirLen h + 1)
          else mret (block, targetDirLen h)
     else mret (block, targetDirLen h)) = Done (slashed t ++ tail, zlen (slashed t)) ∧
     zlen (slashed t ++ tail) = len) as (tail & -> & Htail).
  { destruct (buf h) as [b|] eqn:Eb.
    - destruct Hcont as [?|[tail ->]]; [done|]. destruct Hbuf as (-> & _). by exists tail.
    - destruct Hbuf as [-> _]. destruct (first_time_ok t block) as (tail & -> & ?); [unfold needLen in *; lia|].
      exists tail. split; [done|lia]. }
  simpl. rewrite zlen_app in Htail.
  set (rest := drop (length z) name).
  assert (zslice name (zlen z) (zlen name - zlen z) = Some rest) as ->.
  { unfold zslice. rewrite decide_True by lia. f_equal. unfold rest, zlen in *.
    rewrite Nat2Z.id, take_ge; [done|]. rewrite length_drop. lia. }
  simpl. assert (zlen rest = zlen name - zlen z) as Hrest by (unfold rest, zlen in *; rewrite length_drop; lia).
  destruct (store_at (slashed t) tail rest) as (tail1 & -> & Ht1); [unfold needLen in *; lia|]. simpl.
  rewrite app_assoc, <- zlen_app.
  destruct (store_at (slashed t ++ rest) tail1 [0]) as (tail2 & -> & Ht2);
    [change (zlen [0]) with 1; unfold needLen in *; lia|]. simpl.
  eexists. split.
  - rewrite c_string_app; [reflexivity|]. apply Forall_app. split; [by apply slashed_no_null|].
    unfold rest. by apply Forall_drop.
  - split_and!; try done. simpl. split; [done|]. split; [|exists (rest ++ [0] ++ tail2); by rewrite <- app_assoc].
    rewrite <- Htail, !zlen_app, zlen_cons. change (zlen [0]) with 1 in Ht2. lia.
Qed.
End paths.

(** * Which entries are unpacked *)

Lemma strncmp_prefix a z : no_null a → no_null z →
  ¬ (zlen a < zlen z ∨ strncmp a z (length z) ≠ 0) ↔ z `prefix_of` a.
Proof.
  intros Ha Hz. revert a Ha. induction z as [|y z IH]; intros a Ha.
  { split; [intros _; apply prefix_nil|]. intros _ [H|H]; [|by destruct a].
    change (zlen (@nil Z)) with 0 in H. pose proof (zlen_nonneg a). lia. }
  apply Forall_cons in Hz as [Hy Hz]. destruct a as [|x a].
  { split; [|intros ?%prefix_nil_inv; done]. intros Hn. exfalso. apply Hn. left.
    rewrite zlen_cons. change (zlen (@nil Z)) with 0. pose proof (zlen_nonneg z). lia. }
  apply Forall_cons in Ha as [Hx Ha]. rewrite !zlen_cons. cbn [strncmp length].
  specialize (IH Hz a Ha). destruct (decide (x = y)) as [->|Hne].
  - rewrite decide_False by done. split.
    + intros Hn. apply prefix_cons, IH. intros [?|?]; apply Hn; [left; lia|by right].
    + intros Hp%prefix_cons_inv_2 [?|?]; apply (proj2 IH Hp); [left; lia|by right].
  - split; [|by intros ?%prefix_cons_inv_1]. intros Hn. exfalso. apply Hn. right. lia.
Qed.

(** The names with a prefix are together in the order. *)
Lemma prefix_between z a b c :
  z `prefix_of` a → z `prefix_of` c → lex a b ≠ Gt → lex b c ≠ Gt → z `prefix_of` b.
Proof.
  revert a b c. induction z as [|y z IH]; intros a b c [a' ->] [c' ->] Hab Hbc; [apply prefix_nil|].
  destruct b as [|x b]; [done|]. simpl in *.
  destruct (Z.compare_spec y x) as [->|Hlt|Hgt]; [|exfalso|done].
  - rewrite Z.compare_refl in Hbc. apply prefix_cons.
    eapply (IH (z ++ a') b (z ++ c')); [by eexists|by eexists|done|done].
  - by rewrite (proj2 (Z.compare_gt_iff x y) Hlt) in Hbc.
Qed.

(** After a match and an entry that does not match there is no other match. *)
Lemma filter_none_between z a b (l : list ZipEntry) :
  z `prefix_of` fileName a → ¬ z `prefix_of` fileName b → name_le a b → Forall (name_le b) l →
  filter (λ e, z `prefix_of` fileName e) l = [].
Proof.
  intros Ha Hb Hab Hl. induction l as [|c l IH]; [done|].
  apply Forall_cons in Hl as [Hbc Hl]. rewrite filter_cons_False; [by apply IH|].
  intros Hc. apply Hb. by apply (prefix_between z (fileName a) _ (fileName c)).
Qed.

(** The path an entry is unpacked to, and the entries of a directory of the archive. *)
Definition target_path (t z : bytes) (e : ZipEntry) : string :=
  text_of_bytes (slashed t ++ drop (length z) (fileName e)).
Abbreviation under z := (λ e, z `prefix_of` fileName e) (only parsing).

Section loop.
Context `{Abi} `{Zlib} {D : Type} `{!Vfs D}.
Context (malloc : Z → bool) (fresh : Z → bytes).
Hypothesis Hmalloc : ∀ n, malloc n = true.
Hypothesis Hfresh : ∀ n, 0 ≤ n → zlen (fresh n) = n.
Context (fuel : nat) (file : bytes) (oldOff flags : Z) (timestamp : option Z) (t z : bytes).
Hypothesis Ht : no_null t ∧ zlen t < 2 ^ 20.
Hypothesis Hz : no_null z.

(** Unpacking each of some entries in turn, up to the first that ends it. *)
Fixpoint extract_each (es : list ZipEntry) (names : list string) : io D (bool * list string) :=
  match es with
  | [] => mret (true, names)
  | e :: es =>
      step ← extract_entry malloc fresh fuel file oldOff flags timestamp e (target_path t z e);
      match step with
      | Next => extract_each es (names ++ [target_path t z e])
      | Break ok => mret (ok, names)
      end
  end.
(** What the loop does, for the entries that are left to visit. *)
Definition loop_spec (m : io D (bool * list string)) (todo : list ZipEntry) (names : list string) : Prop :=
  ∀ s cs, m s cs = (if decide (Z.land flags MZ_EXTRACT_DRY_RUN ≠ 0) then mret (true, names ++ map (target_path t z) todo)
                    else extract_each todo names) s cs.

Lemma loop_spec_stop names : loop_spec (mret (true, names)) [] names.
Proof. intros s cs. rewrite app_nil_r. by case_decide. Qed.

Lemma extract_loop_spec : ∀ entries seenMatch h names,
  StronglySorted name_le entries → named entries → helper_ok t z h →
  (seenMatch = true → ∃ e0, z `prefix_of` fileName e0 ∧ Forall (name_le e0) entries) →
  loop_spec (extract_loop malloc fresh fuel file oldOff flags timestamp z entries seenMatch h names)
    (filter (under z) entries) names.
Proof.
  destruct Ht as [Hnt Hlt].
  induction entries as [|e entries IH]; intros seenMatch h names Hs Hn Hh Hseen; cbn [extract_loop].
  { by apply loop_spec_stop. }
  apply Forall_cons in Hn as [He Hn]. destruct (valid_no_null _ He) as [Hnn _].
  apply validFilename_spec in He as [Hel _]. unfold PATH_MAX in Hel.
  apply StronglySorted_inv in Hs as [Hs Hle].
  pose proof (strncmp_prefix (fileName e) z Hnn Hz) as Hpre. unfold fileNameLen. case_decide as Hcmp.
  - assert (¬ z `prefix_of` fileName e) as Hnot by (rewrite <- Hpre; tauto).
    rewrite filter_cons_False by done. destruct seenMatch.
    + destruct (Hseen eq_refl) as (e0 & He0 & [Hle0 Hall]%Forall_cons).
      rewrite (filter_none_between z e0 e) by done. apply loop_spec_stop.
    + by apply IH.
  - apply Hpre in Hcmp. rewrite filter_cons_True by done.
    destruct (targetEntryPath_ok malloc fresh Hmalloc Hfresh t z h (fileName e) Hh Hnt Hnn)
      as (h' & E & Hh'); [pose proof (prefix_length _ _ Hcmp); unfold zlen in *; lia|done|].
    specialize (IH true h' (names ++ [target_path t z e]) Hs Hn Hh').
    assert (∃ e0, z `prefix_of` fileName e0 ∧ Forall (name_le e0) entries) as He0 by (by exists e).
    specialize (IH (λ _, He0)). intros s cs. erewrite io_bind_ret; [|unfold lift; rewrite E; done]. cbv beta iota zeta.
    fold (target_path t z e). unfold loop_spec in IH. cbn [map extract_each]. case_decide as Hdry.
    + erewrite io_bind_ret; [|done]. cbv beta iota. by rewrite IH, <- app_assoc.
    + unfold mbind, io_bind. destruct (extract_entry _ _ _ _ _ _ _ _ _ s cs) as [[|ok] s1 cs1|?| |]; [|done..]. apply IH.
Qed.
End loop.

(** The directory of the archive with a slash, or nothing. *)
Definition zip_path (zip_dir : bytes) : bytes :=
  match last zip_dir with Some c => if decide (c ≠ 47) then zip_dir ++ [47] else zip_dir | None => [] end.

Lemma zip_path_no_null z : no_null z → no_null (zip_path z).
Proof.
  intros Hz. unfold zip_path. destruct (last z); [|constructor]. case_decide; [|done].
  apply Forall_app. split; [done|]. by constructor.
Qed.

Section recursive.
Context `{Abi} `{!SafeIop} `{!SafeIopLaws _} `{Zlib} {D : Type} `{!Vfs D}.
Context (malloc : Z → bool) (fresh : Z → bytes).
Hypothesis Hmalloc : ∀ n, malloc n = true.
Hypothesis Hfresh : ∀ n, 0 ≤ n → zlen (fresh n) = n.

(** C26: [mzExtractRecursive] on an archive that was parsed, with an absolute target directory and memory for its paths, does
    to the entries under the directory asked for, in the order of their names, each once, and to no other, what
    [extract_entry] does to one, until that ends the loop: stopping at the first
    entry that does not match after one that did loses none, because the entries are sorted.  A dry run gives the
    paths of all of them to the callback and does nothing else.  The path is the target directory, a slash, and the rest of the name;
    building it stays inside its buffer. *)
Theorem mzExtractRecursive_visits entries_calloc hash_calloc a m a' fuel file oldOff
    (zip_dir target_dir : string) flags timestamp :
  (∀ n, n ≤ 2 ^ 30 → hash_calloc n = true) →
  mapped m → no_wrap m → ENDHDR ≤ map_length m →
  parseZipArchive entries_calloc hash_calloc a m = Done (true, a') →
  String.prefix "/" zip_dir = false → String.prefix "/" target_dir = true →
  no_null (bytes_of_string zip_dir) → no_null (bytes_of_string target_dir) → strlen target_dir < 2 ^ 20 →
  ∃ es, zip_pEntries a' = Some es ∧
    let z := zip_path (bytes_of_string zip_dir) in
    let t := bytes_of_string target_dir in
    let chosen := filter (λ e, z `prefix_of` fileName e) es in
    let run := mzExtractRecursive malloc fresh fuel file oldOff a' zip_dir target_dir flags timestamp in
    ∀ (s : Sys D) cs,
      run s cs = if decide (Z.land flags MZ_EXTRACT_DRY_RUN ≠ 0) then Ret (true, map (target_path t z) chosen) s cs
                 else extract_each malloc fresh fuel file oldOff flags timestamp t z chosen [] s cs.
Proof.
  intros Hcalloc Hm Hw Hl Hparse Hz Ht Hnz Hnt Hlt.
  destruct (parsed entries_calloc hash_calloc Hcalloc a m a' Hm Hw Hl Hparse)
    as (es & h & Hes & _ & _ & Hord & _). exists es. split; [done|].
  unfold mzExtractRecursive. rewrite Hz, Ht, Hmalloc. simpl. rewrite Hes.
  fold (zip_path (bytes_of_string zip_dir)).
  assert (zlen (bytes_of_string target_dir) = strlen target_dir) as Hlen by apply zlen_bytes_of_string.
  intros s cs. rewrite (extract_loop_spec malloc fresh Hmalloc Hfresh fuel file oldOff flags timestamp
    (bytes_of_string target_dir) (zip_path (bytes_of_string zip_dir)) ltac:(split; [done|lia]) ltac:(by apply zip_path_no_null) es false _ []).
  - by case_decide.
  - apply Hord.
  - by eapply named_ordered.
  - split_and!; [done|done|]. simpl. by rewrite Hlen.
  - done.
Qed.
End recursive.

(** ** Examples *)
Section examples.
#[local] Existing Instance abi64.

Definition zeros (n : Z) : bytes := replicate (Z.to_nat n) 0.
Lemma zeros_len n : 0 ≤ n → zlen (zeros n) = n.
Proof. intros. unfold zlen, zeros. rewrite length_replicate. lia. Defined.

Lemma mzExtractRecursive_visits_witness :
  ∃ es, zip_pEntries two_archive = Some es ∧
    let z := zip_path (bytes_of_string "") in
    let t := bytes_of_string "/d" in
    let chosen := filter (λ e, z `prefix_of` fileName e) es in
    let run := mzExtractRecursive big_heap zeros 10 two_files 0 two_archive "" "/d" 0 None in
    ∀ s cs, run s cs = if decide (Z.land 0 MZ_EXTRACT_DRY_RUN ≠ 0) then Ret (true, map (target_path t z) chosen) s cs
                       else extract_each big_heap zeros 10 two_files 0 0 None t z chosen [] s cs.
Proof.
  apply (mzExtractRecursive_visits big_heap zeros (λ _, eq_refl) zeros_len all_memory all_memory closed two_map);
    [done|apply two_mapped|apply two_no_wrap|by vm_compute|by vm_compute|done|done|..];
    [constructor|repeat constructor; discriminate|done].
Defined.

Example extract_both :
  mzExtractRecursive big_heap zeros 10 two_files 0 two_archive "" "/d" 0 None small_tree
    [1; 1; 40000; 40000; 1; 1; 40000; 40000] =
  Ret (true, ["/d/a"; "/d/b"])
    (set_files (λ fs, <["/d/a" := mkFile [4; 5] 384 0 0]> (<["/d/b" := mkFile [1; 2; 3] 384 0 0]> fs)) small_tree) [].
Proof. vm_compute. reflexivity. Qed.

(** The [false] of a failed extraction is lost in a second variable of the same name: here no
    byte of the first file could be written and the second was not tried, but
    [mzExtractRecursive] returns true. *)
Lemma failed_extraction_returns_true :
  mzExtractRecursive big_heap zeros 10 two_files 0 two_archive "" "/d" 0 None small_tree
    [1; 1; 40000; 0; 28] =
  Ret (true, []) (set_files <["/d/a" := mkFile [] 384 0 0]> small_tree) [].
Proof. vm_compute. reflexivity. Qed.

(** A name may lead out of the target directory. *)
Definition climbing_file : bytes :=
  let l := local_part (bytes_of_string "../x") [1] STORED in
  l ++ central_part (bytes_of_string "../x") STORED 1 1 0 0 ++ end_part 1 (zlen l).
Example names_may_climb :
  match parseZipArchive all_memory all_memory closed (mkMemMapping 4096 climbing_file) with
  | Done (true, a) =>
      mzExtractRecursive big_heap zeros 10 climbing_file 0 a "" "/d" 2 None small_tree [] =
        Ret (true, ["/d/../x"]) small_tree []
  | _ => False
  end.
Proof. vm_compute. reflexivity. Qed.
End examples.
