(* ===== verification/Verifier.v ===== *)
(** Whole-file signatures of update packages: [verifier.c].

    The keys and the signature check of libmincrypt are the class [Rsa], its SHA-1 the
    class [Sha].  The progress shown to the user is not modelled. *)
From S2P Require Import Prelude Bytes ZlibSha World Hash Zip.

(** A key, the number of bytes of a signature, and whether a signature of a digest
    verifies against a key. *)
Class Rsa := {
  RSAPublicKey : Type;
  RSANUMBYTES : Z;
  RSA_verify : RSAPublicKey → bytes → bytes → bool
}.
Class RsaLaws (R0 : Rsa) := { RSANUMBYTES_size : 0 < RSANUMBYTES < 4096 }.

Definition VERIFY_SUCCESS : Z := 0.
Definition VERIFY_FAILURE : Z := 1.
Definition FOOTER_SIZE : Z := 6.
Definition EOCD_HEADER_SIZE : Z := 22.
Definition BUFFER_SIZE : Z := 4096.

Section verifier.
Context `{Abi} `{Sha} `{Rsa} {D : Type}.

(** ** An open file: its contents and the position *)
Record FILE := mkFILE { fh_data : bytes; fh_pos : Z }.

Definition fopen (path : string) : io D (option FILE) :=
  f ← sys_stat path;
  mret (match f with Some f => Some (mkFILE (f_data f) 0) | None => None end).
(** [fseek] to the position [target] from the start.  A position that is negative or no
    [long] is an error, and so is a choice of 0. *)
Definition fseek (f : FILE) (target : Z) : io D (Z * FILE) :=
  c ← choose;
  mret (if decide (c = 0 ∨ target < 0 ∨ LONG_MAX < target) then (-1, f)
        else (0, mkFILE (fh_data f) target)).
Definition SEEK_END (f : FILE) (off : Z) : Z := zlen (fh_data f) + off.
Definition ftell (f : FILE) : Z := fh_pos f.
Definition fread (f : FILE) (n : Z) : io D (bytes * FILE) :=
  bs ← sys_read (drop (Z.to_nat (fh_pos f)) (fh_data f)) n;
  mret (bs, mkFILE (fh_data f) (fh_pos f + zlen bs)).
(** Whether [malloc] gives a block. *)
Definition malloc : io D bool := c ← choose; mret (bool_decide (c ≠ 0)).

(** Whether the four bytes at [i] are the marker of the end of the central
    directory. *)
Definition eocd_marker (eocd : bytes) (i : Z) : run bool :=
  b0 ← access (znth eocd i);
  if decide (b0 ≠ 80) then mret false else
  b1 ← access (znth eocd (i + 1));
  if decide (b1 ≠ 75) then mret false else
  b2 ← access (znth eocd (i + 2));
  if decide (b2 ≠ 5) then mret false else
  b3 ← access (znth eocd (i + 3));
  mret (bool_decide (b3 = 6)).

(** Whether the marker is at one of the [n] positions from [i]. *)
Fixpoint marker_after (n : nat) (eocd : bytes) (i : Z) : run bool :=
  match n with
  | O => mret false
  | S n => m ← eocd_marker eocd i;
           if (m : bool) then mret true else marker_after n eocd (i + 1)
  end.

(** The digest context after the first [signed_len] bytes; [None] when a read
    fails. *)
Fixpoint hash_signed (fuel : nat) (f : FILE) (signed_len so_far : Z) (ctx : SHA_CTX)
    : io D (option SHA_CTX) :=
  if decide (so_far < signed_len) then
    match fuel with
    | O => lift OutOfFuel
    | S fuel =>
        let size := if decide (size_t (signed_len - so_far) < BUFFER_SIZE)
                    then signed_len - so_far else BUFFER_SIZE in
        '(buffer, f) ← fread f size;
        if decide (zlen buffer ≠ size) then mret None else
        hash_signed fuel f signed_len (so_far + size) (SHA_update ctx buffer)
    end
  else mret (Some ctx).

(** The loop over the keys. *)
Fixpoint try_keys (n : nat) (pKeys : list RSAPublicKey) (i : Z) (eocd : bytes) (eocd_size : Z)
    (sha1 : bytes) : run Z :=
  match n with
  | O => mret VERIFY_FAILURE
  | S n =>
      key ← access (znth pKeys i);
      signature ← access (zslice eocd (eocd_size - 6 - RSANUMBYTES) RSANUMBYTES);
      if RSA_verify key signature sha1 then mret VERIFY_SUCCESS
      else try_keys n pKeys (i + 1) eocd eocd_size sha1
  end.

(** [verify_file] from the second [malloc]: the digest of the signed part is compared
    with the signature in [eocd]. *)
Definition check_signature (f : FILE) (pKeys : list RSAPublicKey) (numKeys : Z) (signed_len : Z)
    (eocd : bytes) (eocd_size : Z) : io D Z :=
  got ← malloc;
  if decide (got = false) then mret VERIFY_FAILURE else
  '(_, f) ← fseek f 0;
  ctx ← hash_signed (S (Z.to_nat (signed_len / BUFFER_SIZE))) f signed_len 0 SHA_init;
  match ctx with
  | None => mret VERIFY_FAILURE
  | Some ctx => lift (try_keys (Z.to_nat numKeys) pKeys 0 eocd eocd_size (SHA_final ctx))
  end.

Definition verify_file (path : string) (pKeys : list RSAPublicKey) (numKeys : Z) : io D Z :=
  f ← fopen path;
  match f with
  | None => mret VERIFY_FAILURE
  | Some f =>
      '(r, f) ← fseek f (SEEK_END f (- FOOTER_SIZE));
      if decide (r ≠ 0) then mret VERIFY_FAILURE else
      '(footer, f) ← fread f FOOTER_SIZE;
      if decide (zlen footer ≠ FOOTER_SIZE) then mret VERIFY_FAILURE else
      footer2 ← lift (access (znth footer 2));
      footer3 ← lift (access (znth footer 3));
      if decide (footer2 ≠ 255 ∨ footer3 ≠ 255) then mret VERIFY_FAILURE else
      footer4 ← lift (access (znth footer 4));
      footer5 ← lift (access (znth footer 5));
      footer0 ← lift (access (znth footer 0));
      footer1 ← lift (access (znth footer 1));
      let comment_size := footer4 + Z.shiftl footer5 8 in
      let signature_start := footer0 + Z.shiftl footer1 8 in
      if decide (signature_start - FOOTER_SIZE < RSANUMBYTES) then mret VERIFY_FAILURE else
      let eocd_size := size_t (comment_size + EOCD_HEADER_SIZE) in
      '(r, f) ← fseek f (SEEK_END f (wrap_s long_bits (size_t (- eocd_size))));
      if decide (r ≠ 0) then mret VERIFY_FAILURE else
      let signed_len := size_t (ftell f + EOCD_HEADER_SIZE - 2) in
      got ← malloc;
      if decide (got = false) then mret VERIFY_FAILURE else
      '(eocd, f) ← fread f eocd_size;
      if decide (zlen eocd ≠ eocd_size) then mret VERIFY_FAILURE else
      m ← lift (eocd_marker eocd 0);
      if decide (m = false) then mret VERIFY_FAILURE else
      again ← lift (marker_after (Z.to_nat (size_t (eocd_size - 3) - 4)) eocd 4);
      if decide (again = true) then mret VERIFY_FAILURE else
      check_signature f pKeys numKeys signed_len eocd eocd_size
  end.
End verifier.

(** * What a signed archive is *)
Definition EOCD_MARKER : bytes := [80; 75; 5; 6].

(** The archive ends in a record of the end of the central directory, of which the
    first 20 bytes and everything before them, [signed], are signed by a key of [keys].
    The comment, behind two bytes of its length, ends in the signature and a footer,
    and the marker of the record is not there a second time. *)
Definition signed_archive `{Sha} `{Rsa} (keys : list RSAPublicKey) (data : bytes) : Prop :=
  ∃ front record tail before sig s0 s1 c0 c1 key,
    data = front ++ record ++ tail ∧ zlen record = 20 ∧ take 4 record = EOCD_MARKER ∧
    record ++ tail = before ++ sig ++ [s0; s1; 255; 255; c0; c1] ∧ zlen sig = RSANUMBYTES ∧
    zlen tail = 2 + (c0 + 256 * c1) ∧ FOOTER_SIZE + RSANUMBYTES ≤ s0 + 256 * s1 ∧
    (∀ i, 0 < i → zslice (record ++ tail) i 4 ≠ Some EOCD_MARKER) ∧
    key ∈ keys ∧ RSA_verify key sig (SHA (front ++ record)) = true.

(** The footer gives a comment too short for a signature. *)
Definition short_comment `{Rsa} (data : bytes) : Prop :=
  ∃ front s0 s1 c0 c1, data = front ++ [s0; s1; 255; 255; c0; c1] ∧
    EOCD_HEADER_SIZE + (c0 + 256 * c1) < FOOTER_SIZE + RSANUMBYTES.

(** * Lemmas *)
Lemma zslice_last {A} (l : list A) n k :
  zslice l (zlen l - n) n = Some k → ∃ a, l = a ++ k.
Proof.
  intros (a & c & E & Ha & Hk)%zslice_inv. exists a.
  pose proof (f_equal zlen E) as El. rewrite !zlen_app in El.
  destruct c as [|x c]; [by rewrite app_nil_r in E|].
  rewrite zlen_cons in El. pose proof (zlen_nonneg c). lia.
Qed.
Lemma zslice_suffix {A} (l a k : list A) n :
  l = a ++ k → zlen k = n → zslice l (zlen l + - n) n = Some k.
Proof.
  intros -> <-. rewrite zlen_app. replace (zlen a + zlen k + - zlen k) with (zlen a) by lia.
  rewrite <- (app_nil_r k) at 1. apply zslice_app.
Qed.
Lemma zslice_cons_4 (l : bytes) i b0 b1 b2 b3 :
  zslice l i 4 = Some [b0; b1; b2; b3] ↔
  0 ≤ i ∧ znth l i = Some b0 ∧ znth l (i + 1) = Some b1 ∧ znth l (i + 2) = Some b2 ∧
  znth l (i + 3) = Some b3.
Proof.
  split.
  - intros E. pose proof (zslice_length _ _ _ _ E) as (_ & ? & ?).
    apply zslice_inv in E as (a & c & -> & <- & _).
    rewrite <- (Z.add_0_r (zlen a)) at 2. by rewrite !znth_app_r by lia.
  - intros (Hi & H0 & H1 & H2 & H3). pose proof (znth_Some _ _ _ H3).
    destruct (proj2 (zslice_is_Some l i 4)) as [k E]; [lia|]. rewrite E. f_equal.
    pose proof (zslice_length _ _ _ _ E) as (Hk & _ & _).
    apply zslice_inv in E as (a & c & -> & <- & _). rewrite <- (Z.add_0_r (zlen a)) in H0.
    rewrite !znth_app_r in H0, H1, H2, H3 by lia.
    destruct k as [|? [|? [|? [|? [|? k]]]]];
      rewrite ?zlen_cons in Hk; try (change (zlen (@nil Z)) with 0 in Hk; lia).
    + vm_compute in H0, H1, H2, H3. congruence.
    + pose proof (zlen_nonneg k). lia.
Qed.

Lemma eocd_marker_ok (l : bytes) i : 0 ≤ i → i + 4 ≤ zlen l →
  run_ok (eocd_marker l i) (λ m, m = true ↔ zslice l i 4 = Some EOCD_MARKER).
Proof.
  intros Hi Hl. unfold EOCD_MARKER.
  destruct (proj2 (znth_is_Some l i)) as [b0 E0]; [lia|].
  destruct (proj2 (znth_is_Some l (i + 1))) as [b1 E1]; [lia|].
  destruct (proj2 (znth_is_Some l (i + 2))) as [b2 E2]; [lia|].
  destruct (proj2 (znth_is_Some l (i + 3))) as [b3 E3]; [lia|].
  unfold eocd_marker. rewrite E0, E1, E2, E3. cbn [access mbind run_bind].
  repeat (case_decide; [apply run_ok_ret; rewrite zslice_cons_4; naive_solver|]).
  apply run_ok_ret. rewrite bool_decide_eq_true, zslice_cons_4. naive_solver.
Qed.

Lemma marker_after_ok (l : bytes) n : ∀ i, 0 ≤ i → i + Z.of_nat n + 3 ≤ zlen l →
  run_ok (marker_after n l i) (λ m, m = true ↔
    ∃ j, i ≤ j < i + Z.of_nat n ∧ zslice l j 4 = Some EOCD_MARKER).
Proof.
  induction n as [|n IH]; intros i Hi Hl; simpl.
  { apply run_ok_ret. split; [done|]. intros (j & ? & _). lia. }
  eapply run_ok_bind; [apply eocd_marker_ok; lia|]. intros [] Hm.
  - apply run_ok_ret. split; [|done]. intros _. exists i. split; [lia|by apply Hm].
  - eapply run_ok_weaken; [apply (IH (i + 1)); lia|]. simpl. intros b ->. split.
    + intros (j & ? & ?). exists j. split; [lia|done].
    + intros (j & ? & E). destruct (decide (j = i)) as [->|]; [by apply Hm in E|].
      exists j. split; [lia|done].
Qed.

(** Choices with which no call on a file with these contents fails. *)
Definition obliging (C : Z → Prop) (data : bytes) : Prop := ∀ c, C c → c ≠ 0 ∧ zlen data ≤ c.

Section calls.
Context `{Abi} `{Sha} `{!ShaLaws _} {D : Type} (C : Z → Prop) (s : Sys D) (X : Prop).

Lemma fopen_ob path : observes C s (fopen path) (λ r,
  (∀ f, r = Some f → ∃ file, files s !! path = Some file ∧ f = mkFILE (f_data file) 0) ∧
  ∀ file, files s !! path = Some file → obliging C (f_data file) →
    r = Some (mkFILE (f_data file) 0)) X.
Proof.
  unfold fopen, sys_stat. eapply ob_bind with (Q' := λ r,
    (∀ f, r = Some f → files s !! path = Some f) ∧
    ∀ file, files s !! path = Some file → obliging C (f_data file) → r = Some file).
  { eapply ob_bind; [by apply (ob_choose _ _ _ C)|]. intros c Hc. apply ob_read.
    case_decide; [|done]. split; [done|]. intros file _ Hg. by destruct (Hg c Hc). }
  intros [f|] [Hf Hg]; apply ob_ret; split.
  - intros ? [= <-]. eauto.
  - intros file E Hob. by injection (Hg file E Hob) as ->.
  - done.
  - intros file E Hob. by specialize (Hg file E Hob).
Qed.

Lemma fseek_ob f target : observes C s (fseek f target) (λ p,
  (p.1 = 0 ∧ 0 ≤ target ≤ LONG_MAX ∧ p.2 = mkFILE (fh_data f) target ∨
   p.1 = -1 ∧ p.2 = f) ∧
  (obliging C (fh_data f) → 0 ≤ target ≤ LONG_MAX → p = (0, mkFILE (fh_data f) target))) X.
Proof.
  unfold fseek. eapply ob_bind; [by apply (ob_choose _ _ _ C)|]. intros c Hc.
  apply ob_ret. case_decide as Hd; simpl; (split; [|intros Hg Ht; destruct (Hg c Hc)]).
  - by right.
  - destruct Hd; lia.
  - left. split_and!; lia || done.
  - done.
Qed.

Lemma malloc_ob data : observes C s malloc (λ b, obliging C data → b = true) X.
Proof.
  eapply ob_bind; [by apply (ob_choose _ _ _ C)|]. intros c Hc. apply ob_ret.
  intros Hg. apply bool_decide_eq_true. by destruct (Hg c Hc).
Qed.

Lemma fread_ob f n : 0 ≤ fh_pos f → 0 < n → observes C s (fread f n) (λ p,
  zlen p.1 ≤ Z.max 0 (zlen (fh_data f) - fh_pos f) ∧
  (zlen p.1 = n → zslice (fh_data f) (fh_pos f) n = Some p.1) ∧
  (obliging C (fh_data f) → fh_pos f + n ≤ zlen (fh_data f) → zlen p.1 = n) ∧
  p.2 = mkFILE (fh_data f) (fh_pos f + zlen p.1)) X.
Proof.
  intros Hf Hn. unfold fread, sys_read.
  eapply ob_bind with (Q' := λ bs, ∃ k, 0 ≤ k ≤ n ∧
    (obliging C (fh_data f) → Z.min n (zlen (fh_data f)) ≤ k) ∧
    bs = take (Z.to_nat k) (drop (Z.to_nat (fh_pos f)) (fh_data f))).
  { eapply ob_bind; [by apply (ob_choose _ _ _ C)|]. intros c Hc. apply ob_ret.
    eexists. split; [|split; [|done]]; [lia|]. intros Hg. destruct (Hg c Hc). lia. }
  intros _ (k & Hk & Hg & ->). apply ob_ret. cbn [fst snd].
  set (bs := take _ _). assert (zlen bs = Z.min k (Z.max 0 (zlen (fh_data f) - fh_pos f))) as Hl.
  { unfold bs, zlen. rewrite length_take, length_drop. lia. }
  split_and!; [rewrite Hl; apply Z.le_min_r| | |done].
  - rewrite Hl. intros Hbs. unfold zslice. rewrite decide_True by lia. unfold bs. do 2 f_equal. lia.
  - rewrite Hl. intros Hob Hle. specialize (Hg Hob). lia.
Qed.

Lemma hash_signed_ob fuel f signed_len : signed_len < 2 ^ long_bits →
  ∀ so_far ctx, 0 ≤ so_far → signed_len - so_far ≤ BUFFER_SIZE * Z.of_nat fuel →
  so_far ≤ signed_len ≤ zlen (fh_data f) →
  fh_pos f = so_far ∨ (fh_pos f = zlen (fh_data f) ∧ so_far < signed_len) →
  observes C s (hash_signed fuel f signed_len so_far ctx) (λ r,
    (∀ c, r = Some c → c = SHA_update ctx (take (Z.to_nat (signed_len - so_far))
                             (drop (Z.to_nat so_far) (fh_data f)))) ∧
    (obliging C (fh_data f) → fh_pos f = so_far → is_Some r)) X.
Proof.
  intros Hmax. revert f. unfold BUFFER_SIZE.
  induction fuel as [|fuel IH]; intros f so_far ctx Hs Hfuel Hle Hp; simpl.
  { change (Z.of_nat 0) with 0 in Hfuel. rewrite decide_False by lia.
    apply ob_ret. split; [|eauto]. intros c [= <-].
    replace (Z.to_nat _) with O by lia. by rewrite take_0, SHA_update_nil. }
  apply ob_decide; intros Hlt.
  2: { apply ob_ret. split; [|eauto]. intros c [= <-]. replace (Z.to_nat (_ - _)) with O by lia.
       by rewrite take_0, SHA_update_nil. }
  assert (size_t (signed_len - so_far) = signed_len - so_far) as ->.
  { unfold size_t. apply wrap_u_id. unfold in_u. lia. }
  unfold BUFFER_SIZE. set (size := if decide _ then _ else _).
  assert (0 < size ≤ signed_len - so_far ∧ (size < 4096 → size = signed_len - so_far)) as [Hsz Hsm].
  { unfold size. case_decide; lia. }
  eapply ob_bind; [apply fread_ob; lia|]. intros [buffer f']. cbn [fst snd].
  intros (Hb & Hbs & Hg & ->). apply ob_decide.
  { intros Hne. apply ob_ret. split; [done|]. intros Hob Hpos. destruct Hne. apply Hg; [done|lia]. }
  intros Heq%dec_stable. destruct Hp as [Hp|[Hp _]]; [|lia].
  specialize (Hbs Heq). rewrite Hp, Heq in *.
  eapply ob_weaken; [apply IH; cbn [fh_data fh_pos]; try lia|].
  intros r [Hr Hsome]. split; [|intros Hob _; by apply Hsome].
  intros c E. rewrite (Hr c E), SHA_update_app. cbn [fh_data]. f_equal.
  apply zslice_inv in Hbs as (a & k & -> & <- & <-).
  replace (Z.to_nat (zlen a + zlen buffer)) with (length (a ++ buffer))
    by (rewrite length_app; unfold zlen; lia).
  rewrite app_assoc, drop_app_length, <- app_assoc.
  unfold zlen at 4. rewrite Nat2Z.id, drop_app_length.
  rewrite take_app_ge by (unfold zlen in *; lia). do 2 f_equal. unfold zlen in *. lia.
Qed.
End calls.

Lemma try_keys_ok `{Rsa} keys eocd sha1 eocd_size sig :
  zslice eocd (eocd_size - 6 - RSANUMBYTES) RSANUMBYTES = Some sig →
  ∀ n i, 0 ≤ i → i + Z.of_nat n ≤ zlen keys →
  run_ok (try_keys n keys i eocd eocd_size sha1) (λ r,
    if decide (r = VERIFY_SUCCESS)
    then ∃ key, key ∈ take n (drop (Z.to_nat i) keys) ∧ RSA_verify key sig sha1 = true
    else ∀ key, key ∈ take n (drop (Z.to_nat i) keys) → RSA_verify key sig sha1 = false).
Proof.
  intros Es. induction n as [|n IH]; intros i Hi Hn; simpl.
  { apply run_ok_ret. rewrite decide_False by done. intros key Hk. by apply elem_of_nil in Hk. }
  destruct (proj2 (znth_is_Some keys i)) as [key E]; [lia|]. rewrite E, Es. cbn [access mbind run_bind].
  rewrite znth_lookup in E by lia. rewrite (drop_S _ _ _ E). cbn [take].
  destruct (RSA_verify key sig sha1) eqn:Ev.
  { apply run_ok_ret. rewrite decide_True by done. exists key. split; [by left|done]. }
  eapply run_ok_weaken; [apply (IH (i + 1)); lia|]. simpl. intros r.
  replace (Z.to_nat (i + 1)) with (S (Z.to_nat i)) by lia.
  case_decide; [intros (k & Hk & ?); exists k; split; [by right|done]|].
  intros Hall k [->|Hk]%elem_of_cons; auto.
Qed.

(** The bytes of a footer. *)
Lemma six_bytes (l : bytes) : zlen l = 6 → ∃ b0 b1 b2 b3 b4 b5, l = [b0; b1; b2; b3; b4; b5].
Proof.
  intros Hl. do 6 (destruct l as [|? l]; [done|]). rewrite !zlen_cons in Hl.
  rewrite (zlen_nil_inv l) by lia. by eauto 10.
Qed.

Lemma long_bounds `{Abi} : 2147483647 ≤ LONG_MAX ∧ 2 * LONG_MAX + 2 = 2 ^ long_bits.
Proof. unfold LONG_MAX. destruct long_bits_ok as [-> | ->]; lia. Qed.

(** Minus a small size, as a [long]. *)
Lemma long_minus `{Abi} n : 0 < n ≤ INT_MAX → wrap_s long_bits (size_t (- n)) = - n.
Proof.
  intros Hn. unfold wrap_s, size_t, wrap_u. rewrite Zplus_mod_idemp_l.
  fold (wrap_s long_bits (- n)). apply wrap_s_id; unfold in_s, INT_MAX in *;
    destruct long_bits_ok as [-> | ->]; lia.
Qed.

(** A common suffix. *)
Lemma suffix_of_suffix {A} (a b k l : list A) :
  a ++ k = b ++ l → zlen k ≤ zlen l → ∃ c, l = c ++ k.
Proof.
  intros E Hl. apply app_eq_inv in E as [(c & -> & ->)|(c & -> & ->)]; [eauto|].
  rewrite zlen_app in Hl. rewrite (zlen_nil_inv c) by lia. by exists [].
Qed.

(** The marker at the start does not overlap another one. *)
Lemma markers_apart (l : bytes) m : zslice l 0 4 = Some EOCD_MARKER →
  (∀ j, 4 ≤ j < m → zslice l j 4 ≠ Some EOCD_MARKER) → zlen l ≤ m + 3 →
  ∀ i, 0 < i → zslice l i 4 ≠ Some EOCD_MARKER.
Proof.
  unfold EOCD_MARKER. intros (_ & ? & H1 & H2 & H3)%zslice_cons_4 Hj Hm i Hi E.
  pose proof (zslice_length _ _ _ _ E) as (_ & _ & ?).
  destruct (decide (4 ≤ i)); [eapply (Hj i); [lia|done]|].
  apply zslice_cons_4 in E as (_ & E0 & _).
  rewrite Z.add_0_l in *. assert (i = 1 ∨ i = 2 ∨ i = 3) as [-> |[-> | ->]] by lia; congruence.
Qed.

(** The shape of a signed archive from the two views of its end. *)
Lemma signed_archive_intro `{Sha} `{Rsa} `{!RsaLaws _} keys front eocd rest sig b0 b1 b4 b5 key d :
  d = front ++ eocd → eocd = rest ++ [b0; b1; 255; 255; b4; b5] →
  zlen eocd = b4 + b5 * 256 + EOCD_HEADER_SIZE → 0 ≤ b4 + b5 * 256 →
  FOOTER_SIZE + RSANUMBYTES ≤ b0 + b1 * 256 →
  zslice eocd 0 4 = Some EOCD_MARKER → (∀ i, 0 < i → zslice eocd i 4 ≠ Some EOCD_MARKER) →
  zslice eocd (b4 + b5 * 256 + EOCD_HEADER_SIZE - 6 - RSANUMBYTES) RSANUMBYTES = Some sig →
  key ∈ keys → RSA_verify key sig (SHA (take (Z.to_nat (zlen front + 20)) d)) = true →
  signed_archive keys d.
Proof.
  unfold EOCD_HEADER_SIZE, FOOTER_SIZE. intros -> Erest Hl Hc Hs Hmark Honly Es Hk Hv.
  assert (∃ record tail, eocd = record ++ tail ∧ zlen record = 20) as (record & tail & Er & Hrl).
  { exists (take 20 eocd), (drop 20 eocd). rewrite take_drop. split; [done|].
    unfold zlen in *. rewrite length_take. lia. }
  pose proof (f_equal zlen Erest) as Hrest. rewrite zlen_app in Hrest.
  change (zlen [b0; b1; 255; 255; b4; b5]) with 6 in Hrest.
  replace (_ - 6 - RSANUMBYTES) with (zlen rest - RSANUMBYTES) in Es by lia.
  pose proof (zslice_length _ _ _ _ Es) as (Hsl & ? & _).
  rewrite Erest in Es. apply zslice_inv in Es as (before & c & Eb & Hbl & _).
  rewrite app_assoc in Eb. apply app_inj_1 in Eb as [-> <-].
  2: { assert (zlen rest = zlen (before ++ sig)) by (rewrite zlen_app; lia). unfold zlen in *. lia. }
  rewrite <- app_assoc in Erest. rewrite Er in *. rewrite zlen_app in Hl.
  exists front, record, tail, before, sig, b0, b1, b4, b5, key.
  split_and!; try done; unfold FOOTER_SIZE; try lia.
  - apply zslice_inv in Hmark as (a & c & E & Ha & _). rewrite (zlen_nil_inv a) in E by lia.
    apply (f_equal (take 4)) in E. rewrite take_app_le in E by (unfold zlen in Hrl; lia). exact E.
  - rewrite app_assoc, <- Hrl, <- zlen_app in Hv. unfold zlen in Hv.
    by rewrite Nat2Z.id, take_app_length in Hv.
Qed.

Lemma signed_archive_elim `{Sha} `{Rsa} keys d : signed_archive keys d → is_bytes d →
  ∃ front eocd pre sig b0 b1 b4 b5 key,
    d = front ++ eocd ∧ d = pre ++ [b0; b1; 255; 255; b4; b5] ∧
    (in_u 8 b0 ∧ in_u 8 b1 ∧ in_u 8 b4 ∧ in_u 8 b5) ∧
    zlen eocd = b4 + b5 * 256 + EOCD_HEADER_SIZE ∧ FOOTER_SIZE + RSANUMBYTES ≤ b0 + b1 * 256 ∧
    zslice eocd 0 4 = Some EOCD_MARKER ∧ (∀ i, 0 < i → zslice eocd i 4 ≠ Some EOCD_MARKER) ∧
    zslice eocd (zlen eocd - 6 - RSANUMBYTES) RSANUMBYTES = Some sig ∧
    key ∈ keys ∧ RSA_verify key sig (SHA (take (Z.to_nat (zlen front + 20)) d)) = true.
Proof.
  intros (front & record & tail & before & sig & b0 & b1 & b4 & b5 & key & Ed & Hrl &
    Hmark & Erest & Hsl & Htl & Hstart & Honly & Hk & Hv) Hb.
  unfold EOCD_HEADER_SIZE, FOOTER_SIZE in *.
  assert (d = (front ++ before ++ sig) ++ [b0; b1; 255; 255; b4; b5]) as Ed6
    by (rewrite Ed, Erest, <- !app_assoc; done).
  exists front, (record ++ tail), (front ++ before ++ sig), sig, b0, b1, b4, b5, key.
  split_and!; try done; try lia.
  1-4: rewrite Ed6 in Hb; apply Forall_app in Hb as [_ Hb];
    by repeat (apply Forall_cons in Hb as [? Hb]).
  - rewrite zlen_app. lia.
  - rewrite <- (take_drop 4 record), Hmark, <- app_assoc. apply (zslice_app []).
  - rewrite Erest, <- Hsl, !zlen_app. change (zlen [b0; b1; 255; 255; b4; b5]) with 6.
    replace (_ - zlen sig) with (zlen before) by lia. apply zslice_app.
  - rewrite Ed, app_assoc, <- Hrl, <- zlen_app. unfold zlen. by rewrite Nat2Z.id, take_app_length.
Qed.

Section verify.
Context `{Abi} `{Sha} `{!ShaLaws _} `{Rsa} `{!RsaLaws _} {D : Type}.
Context (s : Sys D) (path : string) (keys : list RSAPublicKey) (n : Z).
Hypothesis contents : ∀ file, files s !! path = Some file → is_bytes (f_data file).
Hypothesis enough_keys : 0 ≤ n ≤ zlen keys.

(** A check whose failure makes the function return. *)
Lemma ob_check C X (Q : Z → Prop) (P : Prop) `{Decision P} (m : io D Z) :
  Q VERIFY_FAILURE → (¬ P → observes C s m Q X) →
  observes C s (if decide P then mret VERIFY_FAILURE else m) Q X.
Proof. intros. case_decide; [by apply ob_ret|auto]. Qed.

(** [sha] is the digest of the first [signed_len] bytes. *)
Definition signed_digest (d : bytes) (signed_len : Z) : bytes := SHA (take (Z.to_nat signed_len) d).

Lemma check_signature_ob C f signed_len eocd eocd_size :
  0 < signed_len < 2 ^ long_bits → signed_len ≤ zlen (fh_data f) → fh_pos f = zlen (fh_data f) →
  zlen eocd = eocd_size →
  observes C s (check_signature f keys n signed_len eocd eocd_size)
    (λ r, (r = VERIFY_SUCCESS → ∃ key sig, key ∈ take (Z.to_nat n) keys ∧
             zslice eocd (eocd_size - 6 - RSANUMBYTES) RSANUMBYTES = Some sig ∧
             RSA_verify key sig (signed_digest (fh_data f) signed_len) = true) ∧
          (r ≠ VERIFY_SUCCESS → obliging C (fh_data f) → ∀ key sig,
             zslice eocd (eocd_size - 6 - RSANUMBYTES) RSANUMBYTES = Some sig →
             key ∈ take (Z.to_nat n) keys →
             RSA_verify key sig (signed_digest (fh_data f) signed_len) = false))
    (eocd_size < 6 + RSANUMBYTES).
Proof.
  pose proof RSANUMBYTES_size as Hrsa. pose proof long_bounds as [Hl1 Hl2].
  intros Hs Hle Hpos Hl. unfold check_signature.
  eapply ob_bind; [apply (malloc_ob _ _ _ (fh_data f))|]. intros got Hgot. apply ob_decide.
  { intros ->. apply ob_ret. split; [done|]. intros _ Hob. by specialize (Hgot Hob). }
  intros _. clear Hgot.
  eapply ob_bind; [apply fseek_ob|]. intros [r f']. cbn [fst snd]. intros [Hf Hseek].
  assert (fh_data f' = fh_data f ∧ (fh_pos f' = 0 ∨ fh_pos f' = zlen (fh_data f))) as [Hfd Hfp]
    by (destruct Hf as [(_ & _ & ->)|[_ ->]]; simpl; auto).
  eapply ob_bind; [apply hash_signed_ob; rewrite ?Hfd; try lia|].
  { unfold BUFFER_SIZE. rewrite Nat2Z.inj_succ, Z2Nat.id by (apply Z.div_pos; lia).
    pose proof (Z.mod_pos_bound signed_len 4096 ltac:(lia)).
    pose proof (Z.div_mod signed_len 4096 ltac:(lia)). lia. }
  rewrite Hfd, Z.sub_0_r, drop_0. intros [ctx|] [Hctx Hsome].
  2: { apply ob_ret. split; [done|]. intros _ Hob.
       destruct Hsome as [? [=]]; [done|]. by injection (Hseek Hob ltac:(lia)) as _ ->. }
  clear Hsome Hseek. specialize (Hctx ctx eq_refl). fold (SHA (take (Z.to_nat signed_len) (fh_data f))).
  rewrite Hctx. fold (SHA (take (Z.to_nat signed_len) (fh_data f))).
  fold (signed_digest (fh_data f) signed_len).
  destruct (zslice eocd (eocd_size - 6 - RSANUMBYTES) RSANUMBYTES) as [sig|] eqn:Es.
  - eapply ob_weaken; [apply ob_lift; eapply (try_keys_ok _ _ _ _ _ Es _ 0); lia|].
    rewrite drop_0. intros res. simpl. case_decide as Hr; intros Hk.
    + split; [|done]. intros _. destruct Hk as (key & ? & ?). eauto.
    + split; [done|]. intros _ _ key ? [= <-]. apply Hk.
  - destruct (Z.to_nat n) as [|k] eqn:En; [by apply ob_ret|]. intros cs _. simpl.
    destruct (proj2 (znth_is_Some keys 0)) as [key Ek]; [lia|]. rewrite Ek, Es.
    apply Z.nle_gt. intros Hlt.
    destruct (proj2 (zslice_is_Some eocd (eocd_size - 6 - RSANUMBYTES) RSANUMBYTES)); [lia|].
    congruence.
Qed.
Lemma verify_file_sound_ob C : observes C s (verify_file path keys n)
  (λ r, r = VERIFY_SUCCESS → ∃ file, files s !! path = Some file ∧
    signed_archive (take (Z.to_nat n) keys) (f_data file))
  (∃ file, files s !! path = Some file ∧ short_comment (f_data file)).
Proof.
  pose proof long_bounds as [Hl1 Hl2]. pose proof RSANUMBYTES_size as Hrsa.
  unfold verify_file. eapply ob_bind; [apply fopen_ob|]. intros [f|] [Hf _]; [|by apply ob_ret].
  destruct (Hf f eq_refl) as (file & Hfile & ->). clear Hf.
  pose proof (contents file Hfile) as Hb. set (d := f_data file) in *.
  eapply ob_bind; [apply fseek_ob|]. intros [r f]. cbn [fst snd fh_data]. unfold SEEK_END, FOOTER_SIZE.
  cbn [fh_data]. intros [[(-> & Ht & ->)|[-> _]] _]; [|by apply ob_ret].
  rewrite decide_False by lia.
  eapply ob_bind; [apply fread_ob; simpl; lia|]. intros [footer f]. cbn [fst snd fh_data fh_pos].
  intros (_ & Hfoot & _ & ->). apply ob_check; [done|]. intros Hl%dec_stable.
  specialize (Hfoot Hl). apply zslice_last in Hfoot as [pre Ed].
  apply six_bytes in Hl as (b0 & b1 & b2 & b3 & b4 & b5 & ->).
  do 2 (eapply ob_get; [reflexivity|]). apply ob_check; [done|]. intros Hff.
  assert (b2 = 255 ∧ b3 = 255) as [-> ->] by lia. clear Hff.
  do 4 (eapply ob_get; [reflexivity|]). cbn zeta.
  assert (in_u 8 b0 ∧ in_u 8 b1 ∧ in_u 8 b4 ∧ in_u 8 b5) as (Hb0 & Hb1 & Hb4 & Hb5).
  { rewrite Ed in Hb. apply Forall_app in Hb as [_ Hb]. repeat (apply Forall_cons in Hb as [? Hb]). auto. }
  unfold in_u in *. rewrite !Z.shiftl_mul_pow2 by lia. change (2 ^ 8) with 256 in *.
  apply ob_check; [done|]. intros Hsig. unfold EOCD_HEADER_SIZE.
  rewrite size_t_id by (unfold INT_MAX; lia). set (n_eocd := b4 + b5 * 256 + 22) in *.
  rewrite long_minus by (unfold INT_MAX; lia).
  eapply ob_bind; [apply fseek_ob|]. intros [r f]. cbn [fst snd fh_data].
  intros [[(-> & Ht' & ->)|[-> _]] _]; [|by apply ob_ret]. rewrite decide_False by lia.
  unfold SEEK_END in *. cbn [fh_data ftell fh_pos] in *.
  eapply ob_bind; [apply (malloc_ob _ _ _ [])|]. intros got _. apply ob_check; [done|]. intros _.
  eapply ob_bind; [apply fread_ob; simpl; lia|]. intros [eocd f]. cbn [fst snd fh_data fh_pos].
  intros (_ & Heocd & _ & ->). apply ob_check; [done|]. intros Hl%dec_stable.
  specialize (Heocd Hl). apply zslice_last in Heocd as [front Ed'].
  eapply ob_bind; [apply ob_lift, eocd_marker_ok; lia|]. intros m Hm. apply ob_check; [done|].
  intros Hm'. assert (zslice eocd 0 4 = Some EOCD_MARKER) as Hmark
    by (apply Hm; by destruct m). clear m Hm Hm'.
  rewrite (size_t_id (n_eocd - 3)) by (unfold INT_MAX; lia).
  eapply ob_bind; [apply ob_lift, marker_after_ok; lia|]. intros m Hm. apply ob_check; [done|].
  intros Hm'. assert (∀ j, 4 ≤ j < n_eocd - 3 → zslice eocd j 4 ≠ Some EOCD_MARKER) as Hlater.
  { intros j Hj E. apply Hm', Hm. exists j. split; [lia|done]. }
  clear m Hm Hm'. pose proof (markers_apart _ _ Hmark Hlater ltac:(lia)) as Honly.
  pose proof (f_equal zlen Ed') as Hzd. rewrite zlen_app in Hzd. pose proof (zlen_nonneg front).
  assert (size_t (zlen d + - n_eocd + 22 - 2) = zlen front + 20) as ->.
  { unfold size_t. rewrite wrap_u_id; [lia|]. unfold in_u. lia. }
  pose proof (suffix_of_suffix pre front [b0; b1; 255; 255; b4; b5] eocd ltac:(congruence)
    ltac:(rewrite Hl; unfold zlen; simpl; lia)) as [rest Erest].
  intros cs Hcs. pose proof (check_signature_ob C (mkFILE d (zlen d + - n_eocd + zlen eocd))
    (zlen front + 20) eocd n_eocd ltac:(lia) ltac:(simpl; lia) ltac:(simpl; lia) Hl cs Hcs) as Hck.
  destruct (check_signature _ _ _ _ _ _ s cs) as [r s' cs'|s'| |]; [|done| |done].
  - destruct Hck as (-> & Hcs' & Hk & _). split_and!; [done..|]. intros Hr. exists file.
    split; [done|]. destruct (Hk Hr) as (key & sig & Hin & Hsl & Hv).
    eapply (signed_archive_intro _ front eocd rest sig b0 b1 b4 b5); unfold FOOTER_SIZE; (done || lia).
  - exists file. split; [done|]. exists pre, b0, b1, b4, b5. split; [done|].
    unfold EOCD_HEADER_SIZE, FOOTER_SIZE. lia.
Qed.

Lemma verify_file_complete_ob C file :
  files s !! path = Some file → obliging C (f_data file) → zlen (f_data file) ≤ LONG_MAX →
  signed_archive (take (Z.to_nat n) keys) (f_data file) →
  observes C s (verify_file path keys n) (λ r, r = VERIFY_SUCCESS) False.
Proof.
  pose proof long_bounds as [Hl1 Hl2]. pose proof RSANUMBYTES_size as Hrsa.
  intros Hfile Hob Hlong Hsigned. pose proof (contents file Hfile) as Hb. set (d := f_data file) in *.
  apply signed_archive_elim in Hsigned as (front & eocd & pre & sig & b0 & b1 & b4 & b5 & key & Ed &
    Ed6 & (Hb0 & Hb1 & Hb4 & Hb5) & Hel & Hstart & Hmark & Honly & Es & Hk & Hv); [|done].
  unfold EOCD_HEADER_SIZE, FOOTER_SIZE, in_u in *. change (2 ^ 8) with 256 in *.
  set (n_eocd := b4 + b5 * 256 + 22) in *.
  pose proof (f_equal zlen Ed) as Hzd. rewrite zlen_app in Hzd. pose proof (zlen_nonneg front).
  pose proof (f_equal zlen Ed6) as Hzd6. rewrite zlen_app in Hzd6.
  change (zlen [b0; b1; 255; 255; b4; b5]) with 6 in Hzd6. pose proof (zlen_nonneg pre).
  unfold verify_file. eapply ob_bind; [apply fopen_ob|]. intros o [_ Ho]. rewrite (Ho file) by done.
  eapply ob_bind; [apply fseek_ob|]. intros p [_ Hp]. unfold SEEK_END, FOOTER_SIZE in *.
  cbn [fh_data] in *. fold d in Hp. rewrite Hp by (done || lia). cbn [fst snd]. rewrite decide_False by lia.
  eapply ob_bind; [apply fread_ob; cbn [fh_pos]; lia|]. intros [footer f]. cbn [fst snd fh_data fh_pos].
  intros (_ & Hfoot & Hfl & ->). specialize (Hfl Hob ltac:(lia)). specialize (Hfoot Hfl).
  rewrite Hfl. rewrite decide_False by lia. rewrite (zslice_suffix d _ _ 6 Ed6 eq_refl) in Hfoot.
  injection Hfoot as <-. do 2 (eapply ob_get; [reflexivity|]). rewrite decide_False by lia.
  do 4 (eapply ob_get; [reflexivity|]). cbn zeta. rewrite !Z.shiftl_mul_pow2 by lia.
  change (2 ^ 8) with 256 in *. rewrite decide_False by lia. unfold EOCD_HEADER_SIZE.
  rewrite size_t_id by (unfold INT_MAX; lia). fold n_eocd. rewrite long_minus by (unfold INT_MAX; lia).
  eapply ob_bind; [apply fseek_ob|]. clear Hp p. intros p [_ Hp]. cbn [fh_data] in *.
  rewrite Hp by (done || lia). cbn [fst snd ftell fh_pos]. rewrite decide_False by lia.
  eapply ob_bind; [apply (malloc_ob _ _ _ d)|]. intros got ->; [|done]. rewrite decide_False by done.
  eapply ob_bind; [apply fread_ob; cbn [fh_pos]; lia|]. intros [eocd' f]. cbn [fst snd fh_data fh_pos].
  intros (_ & Heocd & Hfl' & ->). specialize (Hfl' Hob ltac:(lia)). specialize (Heocd Hfl').
  rewrite Hfl'. rewrite decide_False by lia. rewrite (zslice_suffix d front eocd n_eocd) in Heocd by done.
  injection Heocd as <-.
  eapply ob_bind; [apply ob_lift, eocd_marker_ok; lia|]. intros m Hm.
  rewrite decide_False by (intros ->; by apply Hm in Hmark).
  rewrite (size_t_id (n_eocd - 3)) by (unfold INT_MAX; lia).
  eapply ob_bind; [apply ob_lift, marker_after_ok; lia|]. intros again Hagain.
  rewrite decide_False by (intros (j & ? & E)%Hagain; apply (Honly j); [lia|done]).
  assert (size_t (zlen d + - n_eocd + 22 - 2) = zlen front + 20) as ->.
  { unfold size_t. rewrite wrap_u_id; [lia|]. unfold in_u. lia. }
  pose proof (zslice_length _ _ _ _ Es) as (_ & ? & _).
  eapply ob_conseq; [apply check_signature_ob; simpl; lia| |lia].
  cbn [fh_data]. intros r [_ Hr]. rewrite Hel in Es. destruct (decide (r = VERIFY_SUCCESS)) as [|Hne]; [done|].
  specialize (Hr Hne Hob key sig Es Hk). unfold signed_digest in Hr. congruence.
Qed.
End verify.

(** ** The parser of the archive finds the signed record *)
Lemma get4LE_marker (l : bytes) i : is_bytes l → 0 ≤ i → i + 4 ≤ zlen l →
  get4LE l i = Some ENDSIG ↔ zslice l i 4 = Some EOCD_MARKER.
Proof.
  intros Hb Hi Hl. unfold EOCD_MARKER. rewrite zslice_cons_4.
  destruct (znth_byte l i) as (b0 & E0 & ?); [done|lia|].
  destruct (znth_byte l (i + 1)) as (b1 & E1 & ?); [done|lia|].
  destruct (znth_byte l (i + 2)) as (b2 & E2 & ?); [done|lia|].
  destruct (znth_byte l (i + 3)) as (b3 & E3 & ?); [done|lia|].
  unfold get4LE. rewrite E0, E1, E2, E3. simpl.
  rewrite (lor_shiftl_add b0 b1 8), (lor_shiftl_add _ b2 16), (lor_shiftl_add _ b3 24) by lia.
  unfold ENDSIG. split.
  - intros [= E]. assert (b0 = 80 ∧ b1 = 75 ∧ b2 = 5 ∧ b3 = 6) as (-> & -> & -> & ->) by lia. done.
  - intros (_ & [= ->] & [= ->] & [= ->] & [= ->]). done.
Qed.

Lemma find_eocd_last data p : is_bytes data → 0 ≤ p → zslice data p 4 = Some EOCD_MARKER →
  ∀ fuel ptr, p ≤ ptr → ptr + ENDHDR ≤ zlen data → ptr < Z.of_nat fuel →
  (∀ i, p < i → zslice data i 4 ≠ Some EOCD_MARKER) →
  find_eocd fuel data ptr = Done (Some p).
Proof.
  unfold ENDHDR. intros Hb Hp Hm. induction fuel as [|fuel IH]; intros ptr Hle Hl Hf Hno; [lia|].
  simpl. rewrite decide_True by lia.
  destruct (znth_byte data ptr Hb) as (b & Eb & _); [lia|]. rewrite Eb. simpl.
  destruct (get4LE_ok data ptr Hb) as (sig & Es & _); [lia..|].
  destruct (decide (ptr = p)) as [->|Hne].
  - pose proof Hm as Hm'. apply get4LE_marker in Hm'; [|done|lia..]. rewrite Hm'. simpl.
    unfold EOCD_MARKER in Hm. apply zslice_cons_4 in Hm as (_ & E0 & _).
    assert (b = Z.land ENDSIG 255) as -> by (change (Z.land ENDSIG 255) with 80; congruence).
    by rewrite !decide_True.
  - assert (sig ≠ ENDSIG).
    { intros ->. apply get4LE_marker in Es; [|done|lia..]. apply (Hno ptr); [lia|done]. }
    rewrite Es. simpl. rewrite (decide_False (P := sig = ENDSIG)) by done.
    case_decide; apply IH; lia || done.
Qed.

(** The offsets of the fields of the record that the parser reads are signed. *)
Lemma signed_record_found `{Sha} `{Rsa} keys data : signed_archive keys data → is_bytes data →
  ∃ front record tail key sig, data = front ++ record ++ tail ∧ key ∈ keys ∧
    RSA_verify key sig (SHA (front ++ record)) = true ∧
    find_eocd (length data) data (zlen data - ENDHDR) = Done (Some (zlen front)) ∧
    zlen record = 20.
Proof.
  intros (front & record & tail & before & sig & b0 & b1 & b4 & b5 & key & Ed & Hrl &
    Hmark & Erest & Hsl & Htl & Hstart & Honly & Hk & Hv) Hb.
  exists front, record, tail, key, sig. split_and!; try done.
  assert (zlen data = zlen front + 22 + (b4 + 256 * b5)) as Hl by (rewrite Ed, !zlen_app; lia).
  pose proof (zlen_nonneg front).
  assert (0 ≤ b4 + 256 * b5).
  { assert (in_u 8 b4 ∧ in_u 8 b5) as [? ?]; [|unfold in_u in *; lia].
    rewrite Ed, Erest in Hb. apply Forall_app in Hb as [_ Hb]. apply Forall_app in Hb as [_ Hb].
    apply Forall_app in Hb as [_ Hb]. by repeat (apply Forall_cons in Hb as [? Hb]). }
  apply find_eocd_last; unfold ENDHDR; try done; try (unfold zlen in *; lia).
  - rewrite Ed. rewrite <- (take_drop 4 record), Hmark, <- app_assoc. apply (zslice_app front EOCD_MARKER).
  - intros i Hi Hm. pose proof (zslice_length _ _ _ _ Hm) as (_ & _ & ?).
    apply zslice_inv in Hm as (a & c & E & Ha & _). rewrite Ed in E.
    apply app_eq_inv in E as [(k & -> & E)|(k & -> & E)].
    { rewrite zlen_app in *. pose proof (zlen_nonneg k). lia. }
    apply (Honly (zlen k)); [rewrite zlen_app in *; lia|]. rewrite E. apply (zslice_app k EOCD_MARKER).
Qed.

(** * Properties *)
Section properties.
Context `{Abi} `{Sha} `{!ShaLaws _} `{Rsa} `{!RsaLaws _} {D : Type}.

(** C5: Signatures are sound: whatever calls fail and whenever it is interrupted,
    [verify_file] changes nothing and does not hang, and a returned
    [VERIFY_SUCCESS] means that the archive is signed by one of the keys given to it.
    It crashes only when the comment is too short to hold a signature. *)
Theorem verify_file_sound (s : Sys D) path keys n cs file :
  files s !! path = Some file → is_bytes (f_data file) → 0 ≤ n ≤ zlen keys →
  match verify_file path keys n s cs with
  | Ret r s' _ => s' = s ∧ (r = VERIFY_SUCCESS →
      signed_archive (take (Z.to_nat n) keys) (f_data file))
  | Stop s' => s' = s
  | Crashed => short_comment (f_data file)
  | Hung => False
  end.
Proof.
  intros Hf Hb Hn.
  pose proof (verify_file_sound_ob s path keys n ltac:(congruence) Hn (λ _, True) cs) as Hs.
  specialize (Hs ltac:(by apply Forall_true)).
  destruct (verify_file path keys n s cs) as [r s' cs'|s'| |]; [|done| |done].
  - destruct Hs as (-> & _ & Hr). split; [done|]. intros E.
    destruct (Hr E) as (? & ? & ?). congruence.
  - destruct Hs as (? & ? & ?). congruence.
Qed.

(** C32: Signatures are complete: an archive signed by one of the keys is accepted when
    every call succeeds, unless the power fails before the end. *)
Theorem verify_file_complete (s : Sys D) path keys n cs file :
  files s !! path = Some file → is_bytes (f_data file) → 0 ≤ n ≤ zlen keys →
  zlen (f_data file) ≤ LONG_MAX → Forall (λ c, c ≠ 0 ∧ zlen (f_data file) ≤ c) cs →
  signed_archive (take (Z.to_nat n) keys) (f_data file) →
  match verify_file path keys n s cs with
  | Ret r s' _ => s' = s ∧ r = VERIFY_SUCCESS
  | Stop s' => s' = s
  | Crashed | Hung => False
  end.
Proof.
  intros Hf Hb Hn Hl Hc Hs.
  pose proof (verify_file_complete_ob s path keys n ltac:(congruence) Hn _ file Hf
    ltac:(by intros c Hx; exact Hx) Hl Hs cs Hc) as Hok.
  destruct (verify_file path keys n s cs) as [r s' cs'|s'| |]; naive_solver.
Qed.

(** C33: What was verified is what is installed: when [verify_file] accepts an archive,
    the record of the end of the central directory that [parseZipArchive] finds
    in it, and which says how many entries there are and where, is the one
    whose bytes are signed. *)
Theorem verified_record_is_parsed (s : Sys D) path keys n cs file s' cs' :
  files s !! path = Some file → is_bytes (f_data file) → 0 ≤ n ≤ zlen keys →
  verify_file path keys n s cs = Ret VERIFY_SUCCESS s' cs' →
  ∃ front record tail key sig, f_data file = front ++ record ++ tail ∧
    key ∈ take (Z.to_nat n) keys ∧ RSA_verify key sig (SHA (front ++ record)) = true ∧
    find_eocd (length (f_data file)) (f_data file) (zlen (f_data file) - ENDHDR) =
      Done (Some (zlen front)) ∧
    get2LE (f_data file) (zlen front + ENDSUB) = get2LE record ENDSUB ∧
    get4LE (f_data file) (zlen front + ENDOFF) = get4LE record ENDOFF.
Proof.
  intros Hf Hb Hn E.
  pose proof (verify_file_sound_ob s path keys n ltac:(congruence) Hn (λ _, True) cs
    ltac:(by apply Forall_true)) as Hs.
  rewrite E in Hs. destruct Hs as (_ & _ & Hr). destruct (Hr eq_refl) as (file' & Hf' & Hsig).
  rewrite Hf in Hf'. injection Hf' as <-.
  destruct (signed_record_found _ _ Hsig Hb) as (front & record & tail & key & sig & Ed & Hk & Hv & Hfind & Hl).
  exists front, record, tail, key, sig. split_and!; try done.
  - rewrite Ed. unfold get2LE, ENDSUB. rewrite <- !Z.add_assoc, !znth_app_r by lia.
    by rewrite !znth_app_l by lia.
  - rewrite Ed. unfold get4LE, ENDOFF. rewrite <- !Z.add_assoc, !znth_app_r by lia.
    by rewrite !znth_app_l by lia.
Qed.
End properties.

(** ** Examples

    A key is a number; a signature of a digest is the digest with the key added to
    every byte, behind twelve zeros. *)
#[export] Instance shift_rsa : Rsa := {|
  RSAPublicKey := Z;
  RSANUMBYTES := 32;
  RSA_verify key sig sha := bool_decide (sig = replicate 12 0 ++ map (λ b, u8 (b + key)) sha)
|}.
#[export] Instance shift_rsa_laws : RsaLaws shift_rsa.
Proof. by constructor. Qed.

Definition signed_part : bytes :=
  [80; 75; 3; 4; 9; 9; 9] ++ EOCD_MARKER ++ [0; 0; 0; 0; 1; 0; 1; 0; 0; 0; 0; 0; 0; 0; 0; 0].
Definition signed_example : bytes :=
  signed_part ++ [40; 0; 7; 7] ++
  (replicate 12 0 ++ map (λ b, u8 (b + 3)) (SHA signed_part)) ++ [38; 0; 255; 255; 40; 0].
Definition with_file (data : bytes) : Sys unit :=
  mkSys {[ "/cache/update.zip" := mkFile data 420 0 0 ]} ∅ tt false ∅ [].

Lemma signed_example_signed : signed_archive [8; 3] signed_example.
Proof.
  exists [80; 75; 3; 4; 9; 9; 9], (drop 7 signed_part), (drop 27 signed_example),
    (drop 7 signed_part ++ [40; 0; 7; 7]), (replicate 12 0 ++ map (λ b, u8 (b + 3)) (SHA signed_part)),
    38, 0, 40, 0, 3.
  split_and!; try (by vm_compute).
  - intros i Hi E. pose proof (zslice_length _ _ _ _ E) as (_ & _ & Hl).
    change (zlen (drop 7 signed_part ++ drop 27 signed_example)) with 62 in Hl.
    assert (Forall (λ j, zslice (drop 7 signed_part ++ drop 27 signed_example) j 4 ≠ Some EOCD_MARKER)
      (seqZ 1 62)) as Hno by (apply (bool_decide_unpack _); by vm_compute).
    eapply Forall_forall in Hno; [by apply Hno|]. apply elem_of_seqZ. lia.
  - by right; left.
Qed.

Definition run_verify (data : bytes) (keys : list Z) (cs : list Z) : outcome unit Z :=
  verify_file (H := abi32) (H1 := shift_rsa) "/cache/update.zip" keys (zlen keys) (with_file data) cs.

Example signed_example_accepted :
  match run_verify signed_example [8; 3] (replicate 9 100) with Ret r _ _ => r = 0 | _ => False end.
Proof. by vm_compute. Qed.
Example other_key_rejected :
  match run_verify signed_example [8; 4] (replicate 9 100) with Ret r _ _ => r = 1 | _ => False end.
Proof. by vm_compute. Qed.

Lemma verify_file_sound_witness :
  match run_verify signed_example [8; 3] (replicate 9 100) with
  | Ret r s' _ => s' = with_file signed_example ∧
      (r = VERIFY_SUCCESS → signed_archive (take (Z.to_nat (zlen [8; 3])) [8; 3]) signed_example)
  | Stop s' => s' = with_file signed_example
  | Crashed => short_comment signed_example
  | Hung => False
  end.
Proof.
  unfold run_verify. apply (verify_file_sound (H := abi32) (H1 := shift_rsa) (with_file signed_example)
    "/cache/update.zip" [8; 3] (zlen [8; 3]) (replicate 9 100) (mkFile signed_example 420 0 0));
    [done|by apply (bool_decide_unpack _); vm_compute|by vm_compute].
Defined.

Lemma verify_file_complete_witness :
  match run_verify signed_example [8; 3] (replicate 9 100) with
  | Ret r s' _ => s' = with_file signed_example ∧ r = VERIFY_SUCCESS
  | Stop s' => s' = with_file signed_example
  | Crashed | Hung => False
  end.
Proof.
  unfold run_verify. apply (verify_file_complete (H := abi32) (H1 := shift_rsa) (with_file signed_example)
    "/cache/update.zip" [8; 3] (zlen [8; 3]) (replicate 9 100) (mkFile signed_example 420 0 0));
    [done|by apply (bool_decide_unpack _); vm_compute|by vm_compute|by vm_compute
    |by apply Forall_replicate|apply signed_example_signed].
Defined.

Lemma verified_record_is_parsed_witness :
  ∃ front record tail key sig, signed_example = front ++ record ++ tail ∧
    key ∈ take (Z.to_nat (zlen [8; 3])) [8; 3] ∧ RSA_verify key sig (SHA (front ++ record)) = true ∧
    find_eocd (length signed_example) signed_example (zlen signed_example - ENDHDR) =
      Done (Some (zlen front)) ∧
    get2LE signed_example (zlen front + ENDSUB) = get2LE record ENDSUB ∧
    get4LE signed_example (zlen front + ENDOFF) = get4LE record ENDOFF.
Proof.
  apply (verified_record_is_parsed (H := abi32) (H1 := shift_rsa) (with_file signed_example)
    "/cache/update.zip" [8; 3] (zlen [8; 3]) (replicate 9 100) (mkFile signed_example 420 0 0)
    (with_file signed_example) []);
    [done|by apply (bool_decide_unpack _); vm_compute|by vm_compute|by vm_compute].
Defined.

(** The start of the signature is not compared with the size of the comment: an
    unsigned file of 22 bytes makes the verifier read the signature in front of the
    block with the record. *)
Lemma short_comment_underreads :
  run_verify (EOCD_MARKER ++ replicate 12 0 ++ [255; 255; 255; 255; 0; 0]) [8] (replicate 9 100) =
  Crashed.
Proof. by vm_compute. Qed.
