(* ===== verification/MtdUtils.v ===== *)
(** Raw flash partitions: [mtdutils/mtdutils.c].

    A descriptor is the position it is at; [lseek] can fail.  [errno] is not modelled
    where it only goes into messages.  A context holds a copy of the entry of the table
    of partitions: no function scans again while a context is in use. *)
From S2P Require Import Prelude CLib Bytes World Mtd.

Definition EOPNOTSUPP : Z := 95.

(** A partition; [device_index] is -1 in an unused entry of the table. *)
Record Partition := mkPartition {
  device_index : Z;
  p_size : Z;
  erase_size : Z;
  p_name : option string
}.
(** [partitions] is null before the first scan. *)
Record MtdState := mkMtdState {
  partitions : option (list Partition);
  partition_count : Z
}.

Record ReadContext := mkRead {
  r_partition : Partition;
  r_buffer : bytes;       (* the block last read; empty before the first *)
  consumed : Z;
  r_fd : Z
}.
(** [bad_block_offsets] is the used part of the array. *)
Record WriteContext := mkWrite {
  w_partition : Partition;
  w_buffer : bytes;
  stored : Z;
  w_fd : Z;
  bad_block_offsets : list Z
}.
Definition set_r_fd (fd : Z) (ctx : ReadContext) : ReadContext :=
  let '(mkRead p b c _) := ctx in mkRead p b c fd.
Definition set_w_fd (fd : Z) (ctx : WriteContext) : WriteContext :=
  let '(mkWrite p b n _ l) := ctx in mkWrite p b n fd l.
(** The array has room: that [realloc] fails, which the code does not look at, is not modelled. *)
Definition add_bad_block_offset (ctx : WriteContext) (pos : Z) : WriteContext :=
  let '(mkWrite p b n fd l) := ctx in mkWrite p b n fd (l ++ [pos]).

(** * The lines of [/proc/mtd] *)
Section scan.
Definition hex_value (c : ascii) : option Z :=
  let v := uchar c in
  if decide (48 ≤ v ≤ 57) then Some (v - 48)
  else if decide (97 ≤ v ≤ 102) then Some (v - 87)
  else if decide (65 ≤ v ≤ 70) then Some (v - 55)
  else None.
Fixpoint hex_digits (acc : Z) (s : string) : Z * string :=
  match s with
  | String c s' =>
      match hex_value c with Some v => hex_digits (16 * acc + v) s' | None => (acc, s) end
  | EmptyString => (acc, s)
  end.
(** [%d] of [sscanf] into an [int]. *)
Definition scan_d (s : string) : option (Z * string) :=
  let '(sg, s) := sign (skip_spaces s) in
  match s with
  | String c _ => if isdigit c then let '(v, s) := digits 0 s in Some (s32 (sg * v), s) else None
  | EmptyString => None
  end.
(** [%x], with an optional sign and an optional [0x]. *)
Definition scan_x (s : string) : option (Z * string) :=
  let '(sg, s) := sign (skip_spaces s) in
  let s := match s with
           | String "0" (String x (String c _ as s')) =>
               if bool_decide (x = "x"%char ∨ x = "X"%char) && bool_decide (is_Some (hex_value c))
               then s' else s
           | _ => s
           end in
  match s with
  | String c _ =>
      if decide (is_Some (hex_value c))
      then let '(v, s) := hex_digits 0 s in Some (s32 (sg * v), s) else None
  | EmptyString => None
  end.
Fixpoint lit (l s : string) : option string :=
  match l, s with
  | EmptyString, _ => Some s
  | String a l, String b s => if decide (a = b) then lit l s else None
  | _, _ => None
  end.
(** At most [n] characters up to a quote. *)
Fixpoint until_quote (n : nat) (s : string) : string :=
  match n, s with
  | S n, String c s => if decide (uchar c = 34) then EmptyString else String c (until_quote n s)
  | _, _ => EmptyString
  end.

(** [sscanf(bufp, format, ...)] with the format of a line: the device number, the two
    sizes and the name in quotes, when all four match. *)
Definition scan_line (bufp : string) : option (Z * Z * Z * string) :=
  s ← lit "mtd" bufp;
  '(mtdnum, s) ← scan_d s;
  s ← lit ":" s;
  '(mtdsize, s) ← scan_x (skip_spaces s);
  '(mtderasesize, s) ← scan_x (skip_spaces s);
  s ← lit (String (ascii_of_nat 34) EmptyString) (skip_spaces s);
  let mtdname := until_quote 63 s in
  if decide (mtdname = EmptyString) then None else Some (mtdnum, mtdsize, mtderasesize, mtdname).

(** What is left after the end of the line. *)
Fixpoint eat_line (s : string) : string :=
  match s with
  | String c s => if decide (uchar c = 10) then s else eat_line s
  | EmptyString => EmptyString
  end.

End scan.

Definition nump : nat := 32.
Definition MTD_BUF : nat := 2047.

Section mtdutils.
Context `{Abi} `{MtdDriver}.

(** The table of partitions and the flash memory. *)
Record MtdWorld := mkMtdWorld { g_mtd_state : MtdState; flash : Flash }.

Definition ask {A} (f : Flash → Z → A) : io MtdWorld A :=
  c ← choose; read_sys (λ s, f (flash (mtd s)) c).
Definition drive {A} (f : Flash → Z → A * Flash) : io MtdWorld A :=
  c ← choose;
  r ← read_sys (λ s, f (flash (mtd s)) c);
  _ ← update_sys (set_mtd (λ w, mkMtdWorld (g_mtd_state w) r.2));
  mret r.1.
Definition set_state (g : MtdState) : io MtdWorld unit :=
  update_sys (set_mtd (λ w, mkMtdWorld g (flash w))).
(** Whether [malloc] gives a block. *)
Definition alloc : io MtdWorld bool := c ← choose; mret (bool_decide (c ≠ 0)).
(** [lseek] that asks for the position, and one that sets it. *)
Definition lseek_cur (fd : Z) : io MtdWorld Z := c ← choose; mret (if decide (c = 0) then -1 else fd).
Definition mtd_lseek_set (pos : Z) : io MtdWorld Z :=
  c ← choose; mret (if decide (c = 0 ∨ pos < 0) then -1 else pos).

Definition unused (p : Partition) : Partition := mkPartition (-1) (p_size p) (erase_size p) None.

(** The loop over the lines, with the number of partitions found: the table, and the
    number or -1 when [strdup] fails.  An entry outside the table is an access outside
    an object. *)
Fixpoint scan_lines (fuel : nat) (bufp : string) (ps : list Partition) (count : Z)
    : io MtdWorld (list Partition * Z) :=
  match bufp with
  | EmptyString => mret (ps, count)
  | _ =>
      match fuel with
      | O => lift OutOfFuel
      | S fuel =>
          match scan_line bufp with
          | Some (mtdnum, mtdsize, mtderasesize, mtdname) =>
              _ ← lift (access (znth ps mtdnum));
              got ← alloc;
              let entry := mkPartition mtdnum (u32 mtdsize) (u32 mtderasesize) in
              if decide (got = false) then mret (<[Z.to_nat mtdnum := entry None]> ps, -1) else
              scan_lines fuel (eat_line bufp) (<[Z.to_nat mtdnum := entry (Some mtdname)]> ps)
                (count + 1)
          | None => scan_lines fuel (eat_line bufp) ps count
          end
      end
  end.

Definition mtd_scan_partitions : io MtdWorld Z :=
  g ← read_sys (λ s, g_mtd_state (mtd s));
  got ← (match partitions g with Some _ => mret true | None => alloc end);
  if decide (got = false) then mret (-1) else
  let ps := map unused (default (replicate nump (mkPartition 0 0 0 None)) (partitions g)) in
  buf ← ask drv_proc_mtd;
  match buf with
  | None => _ ← set_state (mkMtdState (Some ps) (-1)); mret (-1)
  | Some buf =>
      let buf := String.substring 0 MTD_BUF buf in
      '(ps, count) ← scan_lines (String.length buf) buf ps 0;
      _ ← set_state (mkMtdState (Some ps) count);
      mret count
  end.

Definition is_named (name : string) (p : Partition) : Prop :=
  0 ≤ device_index p ∧ (λ n, strcmp n name) <$> p_name p = Some 0.
#[global] Instance is_named_dec name p : Decision (is_named name p).
Proof. unfold is_named. apply _. Defined.

Definition mtd_find_partition_by_name (name : string) : io MtdWorld (option Partition) :=
  g ← read_sys (λ s, g_mtd_state (mtd s));
  mret (ps ← partitions g; snd <$> list_find (is_named name) ps).

(** The three sizes; [None] when the function returns -1. *)
Definition mtd_partition_info (partition : Partition) : io MtdWorld (option (Z * Z * Z)) :=
  ok ← ask (λ f, drv_open f (device_index partition));
  if decide (ok = false) then mret None else
  ask (λ f, drv_info f (device_index partition)).

(** ** Reading *)
Definition mtd_read_partition (partition : Partition) : io MtdWorld (option ReadContext) :=
  got ← alloc;
  if decide (got = false) then mret None else
  got ← alloc;
  if decide (got = false) then mret None else
  ok ← ask (λ f, drv_open f (device_index partition));
  if decide (ok = false) then mret None else
  mret (Some (mkRead partition [] (erase_size partition) 0)).

Definition mtd_read_skip_to (ctx : ReadContext) (offset : Z) : io MtdWorld ReadContext :=
  r ← mtd_lseek_set offset;
  mret (if decide (r = -1) then ctx else set_r_fd offset ctx).

(** [before] is the number of failed reads so far; the block, and the position of the
    descriptor. *)
Fixpoint read_block_loop (fuel : nat) (partition : Partition) (before pos fd : Z)
    : io MtdWorld (option bytes * Z) :=
  let size := wrap_s long_bits (erase_size partition) in
  if decide (pos + size ≤ s32 (p_size partition)) then
    match fuel with
    | O => lift OutOfFuel
    | S fuel =>
        let dev := device_index partition in
        let next := pos + erase_size partition in
        r ← mtd_lseek_set pos;
        if decide (r ≠ pos) then read_block_loop fuel partition before next fd else
        data ← drive (λ f, drv_read f dev pos size);
        let fd := pos + zlen data in
        if decide (zlen data ≠ size) then read_block_loop fuel partition before next fd else
        after ← ask (λ f, drv_ecc_stats f dev);
        match after with
        | None => mret (None, fd)
        | Some (_, failed) =>
            if decide (failed ≠ before) then read_block_loop fuel partition failed next fd else
            mgbb ← ask (λ f, drv_get_bad f dev pos);
            if decide (mgbb.1 ≠ 0) then read_block_loop fuel partition before next fd else
            mret (Some data, fd)
        end
    end
  else mret (None, fd).

Definition read_block (partition : Partition) (fd : Z) : io MtdWorld (option bytes * Z) :=
  before ← ask (λ f, drv_ecc_stats f (device_index partition));
  match before with
  | None => mret (None, fd)
  | Some (_, failed) =>
      pos ← lseek_cur fd;
      read_block_loop (S (Z.to_nat (p_size partition / erase_size partition)))
        partition failed pos fd
  end.

(** The loop that reads whole blocks into the caller's memory; whether it
    succeeded. *)
Fixpoint read_whole (fuel : nat) (ctx : ReadContext) (len : Z) (data : bytes)
    : io MtdWorld (bool * bytes * ReadContext) :=
  let es := erase_size (r_partition ctx) in
  if decide (consumed ctx = es ∧ es ≤ size_t (len - zlen data)) then
    match fuel with
    | O => lift OutOfFuel
    | S fuel =>
        '(b, fd) ← read_block (r_partition ctx) (r_fd ctx);
        let ctx := set_r_fd fd ctx in
        match b with
        | None => mret (false, data, ctx)
        | Some b => read_whole fuel ctx len (data ++ b)
        end
    end
  else mret (true, data, ctx).

(** The loop of [mtd_read_data]; [data] is what is read so far. *)
Fixpoint read_loop (fuel : nat) (ctx : ReadContext) (len : Z) (data : bytes)
    : io MtdWorld (Z * bytes * ReadContext) :=
  if decide (zlen data < s32 len) then
    match fuel with
    | O => lift OutOfFuel
    | S fuel =>
        let es := erase_size (r_partition ctx) in
        '(data, ctx) ←
          (if decide (consumed ctx < es) then
             let avail := size_t (es - consumed ctx) in
             let copy := if decide (size_t (len - zlen data) < avail)
                         then size_t (len - zlen data) else avail in
             piece ← lift (access (zslice (r_buffer ctx) (consumed ctx) copy));
             mret (data ++ piece,
                   mkRead (r_partition ctx) (r_buffer ctx) (consumed ctx + copy) (r_fd ctx))
           else mret (data, ctx));
        '(ok, data, ctx) ← read_whole (Z.to_nat len) ctx len data;
        if decide (ok = false) then mret (-1, data, ctx) else
        if decide (s32 len ≤ zlen data) then mret (zlen data, data, ctx) else
        if decide (consumed ctx = es) then
          '(b, fd) ← read_block (r_partition ctx) (r_fd ctx);
          let ctx := set_r_fd fd ctx in
          match b with
          | None => mret (-1, data, ctx)
          | Some b => read_loop fuel (mkRead (r_partition ctx) b 0 (r_fd ctx)) len data
          end
        else read_loop fuel ctx len data
    end
  else mret (zlen data, data, ctx).

Definition mtd_read_data (ctx : ReadContext) (len : Z) : io MtdWorld (Z * bytes * ReadContext) :=
  read_loop (S (S (Z.to_nat len))) ctx len [].

Definition mtd_read_close (ctx : ReadContext) : io MtdWorld unit := _ ← choose; mret tt.
(** ** Writing *)
Definition mtd_write_partition (partition : Partition) : io MtdWorld (option WriteContext) :=
  got ← alloc;
  if decide (got = false) then mret None else
  got ← alloc;
  if decide (got = false) then mret None else
  ok ← ask (λ f, drv_open f (device_index partition));
  if decide (ok = false) then mret None else
  mret (Some (mkWrite partition (replicate (Z.to_nat (erase_size partition)) 0) 0 0 [])).

(** The attempts at the block at [pos]: whether one succeeded, and the position of the
    descriptor. *)
Fixpoint write_attempts (n : nat) (dev pos size fd : Z) (data : bytes) : io MtdWorld (bool * Z) :=
  match n with
  | O => mret (false, fd)
  | S n =>
      r ← drive (λ f, drv_erase f dev pos size);
      if decide (r < 0) then write_attempts n dev pos size fd data else
      r ← mtd_lseek_set pos;
      fd ← (if decide (r ≠ pos) then mret fd
            else w ← drive (λ f, drv_write f dev pos data); mret (pos + Z.max 0 w));
      r ← mtd_lseek_set pos;
      if decide (r ≠ pos) then write_attempts n dev pos size fd data else
      verify ← drive (λ f, drv_read f dev pos size);
      let fd := pos + zlen verify in
      if decide (zlen verify ≠ size) then write_attempts n dev pos size fd data else
      if decide (memcmp data verify ≠ 0) then write_attempts n dev pos size fd data else
      mret (true, fd)
  end.

Fixpoint write_block_loop (fuel : nat) (ctx : WriteContext) (pos : Z) (data : bytes)
    : io MtdWorld (Z * WriteContext) :=
  let partition := w_partition ctx in
  let size := wrap_s long_bits (erase_size partition) in
  if decide (pos + size ≤ s32 (p_size partition)) then
    match fuel with
    | O => lift OutOfFuel
    | S fuel =>
        let dev := device_index partition in
        let next := pos + erase_size partition in
        ret ← ask (λ f, drv_get_bad f dev pos);
        if decide (ret.1 ≠ 0 ∧ ¬ (ret.1 = -1 ∧ ret.2 = EOPNOTSUPP)) then
          write_block_loop fuel (add_bad_block_offset ctx pos) next data
        else
        '(ok, fd) ← write_attempts 2 dev pos size (w_fd ctx) data;
        let ctx := set_w_fd fd ctx in
        if (ok : bool) then mret (0, ctx) else
        let ctx := add_bad_block_offset ctx pos in
        _ ← drive (λ f, drv_erase f dev pos size);
        write_block_loop fuel ctx next data
    end
  else mret (-1, ctx).

Definition write_block (ctx : WriteContext) (data : bytes) : io MtdWorld (Z * WriteContext) :=
  pos ← lseek_cur (w_fd ctx);
  if decide (pos = -1) then mret (1, ctx) else
  got ← alloc;
  if decide (got = false) then mret (1, ctx) else
  let partition := w_partition ctx in
  write_block_loop (S (Z.to_nat (p_size partition / erase_size partition))) ctx pos data.

(** The loop that writes whole blocks of the caller's data. *)
Fixpoint write_whole (fuel : nat) (ctx : WriteContext) (data : bytes) (wrote : Z)
    : io MtdWorld (bool * Z * WriteContext) :=
  let es := erase_size (w_partition ctx) in
  if decide (stored ctx = 0 ∧ es ≤ size_t (zlen data - wrote)) then
    match fuel with
    | O => lift OutOfFuel
    | S fuel =>
        b ← lift (access (zslice data wrote es));
        '(r, ctx) ← write_block ctx b;
        if decide (r ≠ 0) then mret (false, wrote, ctx) else write_whole fuel ctx data (wrote + es)
    end
  else mret (true, wrote, ctx).

Definition set_stored (n : Z) (ctx : WriteContext) : WriteContext :=
  let '(mkWrite p b _ fd l) := ctx in mkWrite p b n fd l.

(** The loop of [mtd_write_data]. *)
Fixpoint mtd_write_loop (fuel : nat) (ctx : WriteContext) (data : bytes) (wrote : Z)
    : io MtdWorld (Z * WriteContext) :=
  if decide (wrote < zlen data) then
    match fuel with
    | O => lift OutOfFuel
    | S fuel =>
        let es := erase_size (w_partition ctx) in
        '(ctx, wrote) ←
          (if decide (stored ctx > 0 ∨ size_t (zlen data - wrote) < es) then
             let avail := size_t (es - stored ctx) in
             let copy := if decide (size_t (zlen data - wrote) < avail)
                         then size_t (zlen data - wrote) else avail in
             piece ← lift (access (zslice data wrote copy));
             buffer ← lift (access (store (w_buffer ctx) (stored ctx) piece));
             mret (mkWrite (w_partition ctx) buffer (stored ctx + copy) (w_fd ctx)
                     (bad_block_offsets ctx), wrote + copy)
           else mret (ctx, wrote));
        '(r, ctx) ←
          (if decide (stored ctx = es) then
             '(r, ctx) ← write_block ctx (w_buffer ctx);
             mret (if decide (r = 0) then (0, set_stored 0 ctx) else (r, ctx))
           else mret (0, ctx));
        if decide (r ≠ 0) then mret (-1, ctx) else
        '(ok, wrote, ctx) ← write_whole (Z.to_nat (zlen data)) ctx data wrote;
        if decide (ok = false) then mret (-1, ctx) else mtd_write_loop fuel ctx data wrote
    end
  else mret (wrote, ctx).

Definition mtd_write_data (ctx : WriteContext) (data : bytes) : io MtdWorld (Z * WriteContext) :=
  mtd_write_loop (S (Z.to_nat (zlen data))) ctx data 0.

(** The loop of [mtd_erase_blocks]: the position behind it. *)
Fixpoint erase_loop (blocks : nat) (partition : Partition) (pos : Z) : io MtdWorld Z :=
  match blocks with
  | O => mret pos
  | S blocks =>
      let dev := device_index partition in
      let next := pos + erase_size partition in
      r ← ask (λ f, drv_get_bad f dev pos);
      if decide (0 < r.1) then erase_loop blocks partition next else
      _ ← drive (λ f, drv_erase f dev pos (erase_size partition));
      erase_loop blocks partition next
  end.

(** [partition->size - pos] is computed as the wider of [unsigned int] and [off_t]. *)
Definition room_after (size pos : Z) : Z :=
  if decide (long_bits = 32) then u32 (size - pos) else size - pos.

Definition mtd_erase_blocks (ctx : WriteContext) (blocks : Z) : io MtdWorld (Z * WriteContext) :=
  let partition := w_partition ctx in
  let es := erase_size partition in
  '(r, ctx) ←
    (if decide (stored ctx > 0) then
       buffer ← lift (access (store (w_buffer ctx) (stored ctx)
                                (replicate (Z.to_nat (size_t (es - stored ctx))) 0)));
       let ctx := mkWrite partition buffer (stored ctx) (w_fd ctx) (bad_block_offsets ctx) in
       '(r, ctx) ← write_block ctx buffer;
       mret (if decide (r = 0) then (0, set_stored 0 ctx) else (r, ctx))
     else mret (0, ctx));
  if decide (r ≠ 0) then mret (-1, ctx) else
  pos ← lseek_cur (w_fd ctx);
  if decide (pos = -1) then mret (-1, ctx) else
  if decide (es = 0) then lift Fault else
  let total := s32 (Z.quot (room_after (p_size partition) pos) es) in
  let blocks := if decide (blocks < 0) then total else blocks in
  if decide (total < blocks) then mret (-1, ctx) else
  pos ← erase_loop (Z.to_nat blocks) partition pos;
  mret (pos, ctx).

Definition mtd_write_close (ctx : WriteContext) : io MtdWorld Z :=
  '(r, ctx) ← mtd_erase_blocks ctx 0;
  c ← choose;
  mret (if decide (r = -1 ∨ c = 0) then -1 else 0).

(** The first good block at or after [pos]. *)
Fixpoint find_start (offsets : list Z) (es pos : Z) : Z :=
  match offsets with
  | [] => pos
  | o :: offsets =>
      if decide (o = pos) then find_start offsets es (pos + es)
      else if decide (pos < o) then pos else find_start offsets es pos
  end.
Definition mtd_find_write_start (ctx : WriteContext) (pos : Z) : Z :=
  find_start (bad_block_offsets ctx) (erase_size (w_partition ctx)) pos.

#[export] Instance mtdutils : Mtd.Mtd MtdWorld := {|
  Mtd.MtdPartition := Partition;
  Mtd.MtdReadContext := ReadContext;
  Mtd.MtdWriteContext := WriteContext;
  Mtd.mtd_scan_partitions := mtd_scan_partitions;
  Mtd.mtd_find_partition_by_name := mtd_find_partition_by_name;
  Mtd.mtd_device_index := device_index;
  Mtd.mtd_partition_info := mtd_partition_info;
  Mtd.mtd_read_partition := mtd_read_partition;
  Mtd.mtd_read_data := mtd_read_data;
  Mtd.mtd_read_close := mtd_read_close;
  Mtd.mtd_write_partition := mtd_write_partition;
  Mtd.mtd_write_data := mtd_write_data;
  Mtd.mtd_erase_blocks := mtd_erase_blocks;
  Mtd.mtd_find_write_start := mtd_find_write_start;
  Mtd.mtd_write_close := mtd_write_close
|}.
End mtdutils.
