(* ===== verification/MtdSession.v ===== *)
(** Sessions of writing and reading a raw flash partition: what the operations of
    [MtdUtils] promise together, for any driver that keeps its laws. *)
From stdpp Require Import sorting.
From S2P Require Import Prelude CLib Bytes World Mtd MtdUtils.

Section laws.
Context `{Abi} `{!MtdDriver} `{!MtdDriverLaws _}.
Notation fl s := (flash (mtd s)).

(** ** The calls of the driver *)
Section calls.
Context (C : Z → Prop).

Lemma flash_set_mtd g (s : Sys MtdWorld) : fl (set_mtd g s) = flash (g (mtd s)).
Proof. by destruct s. Qed.

Lemma tt_ask {A} (f : Flash → Z → A) (P : Sys MtdWorld → Prop) (Q : A → Sys MtdWorld → Prop) :
  (∀ c s, C c → P s → Q (f (fl s) c) s) → ttriple C P (ask f) Q (λ _, True).
Proof.
  intros HQ. unfold ask. eapply tt_bind with (Q' := λ c s, C c ∧ P s); [by apply tt_choose|].
  intros c. apply tt_read. intros s [??]. auto.
Qed.
Lemma tt_drive {A} (f : Flash → Z → A * Flash) (P : Sys MtdWorld → Prop)
    (Q : A → Sys MtdWorld → Prop) :
  (∀ c s s' r, C c → P s → f (fl s) c = (r, fl s') → Q r s') →
  ttriple C P (drive f) Q (λ _, True).
Proof.
  intros HQ. unfold drive. eapply tt_bind with (Q' := λ c s, C c ∧ P s); [by apply tt_choose|].
  intros c. eapply tt_bind with (Q' := λ r s, C c ∧ P s ∧ f (fl s) c = r);
    [apply tt_read; naive_solver|].
  intros r. eapply tt_bind with (Q' := λ _ s, Q r.1 s); [|intros _; by apply tt_ret].
  apply tt_update. intros s (Hc & HP & E). eapply HQ; [done..|]. rewrite flash_set_mtd. simpl.
  by destruct r.
Qed.
Lemma tt_alloc P : ttriple C P alloc (λ b s, ((∀ c, C c → c ≠ 0) → b = true) ∧ P s) (λ _, True).
Proof.
  unfold alloc. eapply tt_bind with (Q' := λ c s, C c ∧ P s); [by apply tt_choose|].
  intros c. apply tt_ret. intros s [Hc ?]. split; [|done]. intros Hn. apply bool_decide_eq_true. auto.
Qed.
Lemma tt_lseek_cur P fd : ttriple C P (lseek_cur fd)
  (λ r s, ((∀ c, C c → c ≠ 0) → r = fd) ∧ (r = fd ∨ r = -1) ∧ P s) (λ _, True).
Proof.
  unfold lseek_cur. eapply tt_bind with (Q' := λ c s, C c ∧ P s); [by apply tt_choose|].
  intros c. apply tt_ret. intros s [Hc ?]. split_and!; [|case_decide; auto|done].
  intros Hn. apply decide_False. auto.
Qed.
Lemma tt_lseek_set P pos : ttriple C P (mtd_lseek_set pos)
  (λ r s, ((∀ c, C c → c ≠ 0) → 0 ≤ pos → r = pos) ∧ P s) (λ _, True).
Proof.
  unfold mtd_lseek_set. eapply tt_bind with (Q' := λ c s, C c ∧ P s); [by apply tt_choose|].
  intros c. apply tt_ret. intros s [Hc ?]. split; [|done].
  intros Hn Hp. apply decide_False. intros [?|?]; [by eapply Hn|lia].
Qed.
End calls.

(** ** A partition of the flash memory *)
Section partition.
Context (p : Partition).
Let dev := device_index p.
Let U := unit_size dev.
Let N := units dev.
(** The entry of the partition is the one the driver reports. *)
Definition well_described : Prop :=
  erase_size p = U ∧ p_size p = Z.of_nat N * U ∧ p_size p ≤ INT_MAX ∧ U ≤ INT_MAX.
Hypothesis described : well_described.

Lemma U_pos : 0 < U.
Proof. apply unit_positive. Qed.
Lemma size_ok : wrap_s long_bits (erase_size p) = U.
Proof.
  destruct described as (-> & _ & _ & ?). pose proof U_pos. unfold INT_MAX in *.
  apply wrap_s_id; unfold in_s; destruct long_bits_ok as [-> | ->]; lia.
Qed.
Lemma s32_size : s32 (p_size p) = Z.of_nat N * U.
Proof.
  destruct described as (_ & E & Hm & _). pose proof U_pos. rewrite E in *. unfold INT_MAX in *.
  apply wrap_s_id; unfold in_s; nia.
Qed.
Lemma inside i : Z.of_nat i * U + U ≤ Z.of_nat N * U ↔ (i < N)%nat.
Proof. pose proof U_pos. split; intros; nia. Qed.
Lemma fuel_ok : S (Z.to_nat (p_size p / erase_size p)) = S N.
Proof.
  destruct described as (-> & -> & _). pose proof U_pos. f_equal. rewrite Z.div_mul by lia. lia.
Qed.
Lemma next_pos i : Z.of_nat i * U + erase_size p = Z.of_nat (S i) * U.
Proof. destruct described as (-> & _). lia. Qed.

(** The good units from the [i]th on. *)
Definition good_from (f : Flash) (i : nat) : list nat :=
  filter (λ j, bad f dev j = false) (seq i (N - i)).
Lemma good_from_end f : good_from f N = [].
Proof. unfold good_from. by rewrite Nat.sub_diag. Qed.
Lemma good_from_step f i : (i < N)%nat →
  good_from f i = if bad f dev i then good_from f (S i) else i :: good_from f (S i).
Proof.
  intros Hi. unfold good_from. replace (N - i)%nat with (S (N - S i)) by lia.
  cbn [seq]. destruct (bad f dev i) eqn:E;
    [rewrite filter_cons_False by congruence|rewrite filter_cons_True by done]; done.
Qed.

(** The units with the same contents and marks. *)
Definition same_blocks (f f' : Flash) : Prop :=
  (∀ d j, block f' d j = block f d j) ∧ (∀ d j, bad f' d j = bad f d j).
#[local] Instance same_blocks_equiv : Equivalence same_blocks.
Proof.
  split.
  - done.
  - intros f f' [??]. by split.
  - intros f f' f'' [H1 H2] [H3 H4]. split; intros; [by rewrite H3|by rewrite H4].
Qed.
Lemma good_from_same f f' i : same_blocks f f' → good_from f' i = good_from f i.
Proof.
  intros [_ Hb]. unfold good_from. apply list_filter_iff. intros j. by rewrite Hb.
Qed.

(** Choices with which no call on a good unit fails. *)
Definition smooth (c : Z) : Prop := works c ∧ c ≠ 0.
Lemma smooth_nonzero c : smooth c → c ≠ 0.
Proof. by intros []. Qed.

(** *** Reading a unit *)
Lemma read_unit f0 i c s s' bs before : (i < N)%nat → works c → same_blocks f0 (fl s) →
  ecc_failed (fl s) dev = before →
  drv_read (fl s) dev (Z.of_nat i * U) U c = (bs, fl s') →
  same_blocks f0 (fl s') ∧ zlen bs = U ∧
  (ecc_failed (fl s') dev = before → bs = block f0 dev i) ∧
  (bad f0 dev i = false → ecc_failed (fl s') dev = before).
Proof.
  intros Hlt Hc Hs <- E.
  destruct (read_ok _ _ _ _ _ _ Hlt E) as (Hb & Hbad & _ & _ & Hfull).
  destruct (read_works _ _ _ _ _ _ Hlt Hc E) as [Hl Hgood]. split_and!; [by etrans|done| |].
  - intros He. rewrite (Hfull Hl He). by destruct Hs as [-> _].
  - intros Hg. destruct Hs as [_ Hs]. rewrite <- Hs in Hg. auto.
Qed.
Lemma read_block_loop_ok f0 fuel : ∀ i before fd, (N - i < fuel)%nat → (i ≤ N)%nat →
  ttriple smooth (λ s, same_blocks f0 (fl s) ∧ ecc_failed (fl s) dev = before)
    (read_block_loop fuel p before (Z.of_nat i * U) fd)
    (λ r s, same_blocks f0 (fl s) ∧ match good_from f0 i with
            | [] => r.1 = None
            | j :: _ => r = (Some (block f0 dev j), Z.of_nat (S j) * U)
            end) (λ _, True).
Proof.
  induction fuel as [|fuel IH]; intros i before fd Hf Hi; [lia|].
  cbn [read_block_loop]. rewrite size_ok, s32_size, next_pos.
  destruct (decide (i < N)%nat) as [Hlt|].
  2: { rewrite decide_False by (rewrite inside; lia). replace i with N by lia.
       rewrite good_from_end. apply tt_ret. naive_solver. }
  rewrite decide_True by (by apply inside). rewrite good_from_step by done. fold dev.
  assert (∀ before' fd', bad f0 dev i = true →
    ttriple smooth (λ s, same_blocks f0 (fl s) ∧ ecc_failed (fl s) dev = before')
      (read_block_loop fuel p before' (Z.of_nat (S i) * U) fd') (λ r s, same_blocks f0 (fl s) ∧
         match (if bad f0 dev i then good_from f0 (S i) else i :: good_from f0 (S i)) with
         | [] => r.1 = None
         | j :: _ => r = (Some (block f0 dev j), Z.of_nat (S j) * U)
         end) (λ _, True)) as Hnext by (intros before' fd' ->; apply IH; lia).
  eapply tt_bind; [apply tt_lseek_set|]. intros r. apply tt_pure. intros Hr.
  rewrite Hr by (try apply smooth_nonzero; pose proof U_pos; lia). rewrite decide_False by lia.
  eapply tt_bind; [apply tt_drive; intros c s s' bs [Hc _] [Hs Hecc] E;
    exact (read_unit f0 i c s s' bs before Hlt Hc Hs Hecc E)|].
  intros bs. eapply tt_conseq with (P' := λ s, zlen bs = U ∧ same_blocks f0 (fl s) ∧
    (ecc_failed (fl s) dev = before → bs = block f0 dev i) ∧ (bad f0 dev i = false → ecc_failed (fl s) dev = before));
    [|by intros s (? & ? & ? & ?)|by intros ? ? Hx; exact Hx|done].
  apply tt_pure. intros Hl. rewrite decide_False by auto.
  eapply tt_bind with (Q' := λ o s, same_blocks f0 (fl s) ∧
    (∃ k, o = Some (k, ecc_failed (fl s) dev)) ∧ (ecc_failed (fl s) dev = before → bs = block f0 dev i) ∧
    (bad f0 dev i = false → ecc_failed (fl s) dev = before)).
  { apply tt_ask. intros c s [Hc _] (Hs & Hfull & Hgood). split_and!; auto.
    destruct (ecc_stats_works (fl s) dev c Hc) as [[k e] Ee]. rewrite Ee. exists k.
    by rewrite (ecc_stats_value _ _ _ _ _ Ee). }
  intros [[k failed]|]; [|by intros s cs Hcs (_ & [? ?] & _)].
  case_decide as Hfail.
  { intros s cs Hcs (Hs & (? & [= _ ->]) & _ & Hgood). apply Hnext; [|done..].
    destruct (bad f0 dev i); [done|]. by destruct Hfail; apply Hgood. }
  subst failed.
  eapply tt_bind with (Q' := λ m s, same_blocks f0 (fl s) ∧ ecc_failed (fl s) dev = before ∧
    bs = block f0 dev i ∧ (m.1 = 0 ↔ bad f0 dev i = false)).
  { apply tt_ask. intros c s [Hc _] (Hs & (? & [= _ Ee]) & Hfull & _). rewrite <- Ee in Hfull.
    split_and!; auto. destruct Hs as [_ Hs]. rewrite <- Hs. by apply get_bad_works. }
  intros m. case_decide as Hm.
  { intros s cs Hcs (Hs & He & _ & Hg). apply Hnext; [|done..].
    destruct (bad f0 dev i); [done|]. by destruct Hm; apply Hg. }
  apply tt_ret. intros s (Hs & _ & -> & Hg). split; [done|].
  rewrite (proj1 Hg Hm), Hl, <- next_pos. do 2 f_equal. by destruct described as (-> & _).
Qed.

Lemma read_block_ok f0 i fd : (i ≤ N)%nat → fd = Z.of_nat i * U →
  ttriple smooth (λ s, same_blocks f0 (fl s)) (read_block p fd)
    (λ r s, same_blocks f0 (fl s) ∧ match good_from f0 i with
            | [] => r.1 = None
            | j :: _ => r = (Some (block f0 dev j), Z.of_nat (S j) * U)
            end) (λ _, True).
Proof.
  intros Hi ->. unfold read_block. fold dev.
  eapply tt_bind with (Q' := λ o s, same_blocks f0 (fl s) ∧ ∃ k, o = Some (k, ecc_failed (fl s) dev)).
  { apply tt_ask. intros c s [Hc _] Hs. split; [done|].
    destruct (ecc_stats_works (fl s) dev c Hc) as [[k e] Ee]. rewrite Ee. exists k.
    by rewrite (ecc_stats_value _ _ _ _ _ Ee). }
  intros [[k before]|]; [|by intros s cs Hcs (_ & ? & ?)].
  eapply tt_bind; [apply tt_lseek_cur|]. intros pos. apply tt_pure. intros Hpos.
  rewrite Hpos by apply smooth_nonzero. rewrite fuel_ok.
  intros s cs Hcs (_ & Hs & k' & [= -> ->]). eapply (read_block_loop_ok f0 (S N)); [lia..|done|done].
Qed.

(** *** Reading sessions *)

(** What can be read: the contents of the good units. *)
Definition blocks (f : Flash) (us : list nat) : bytes := concat (map (block f dev) us).
Definition contents (f : Flash) : bytes := blocks f (good_from f 0).

Lemma good_from_lt f i j : j ∈ good_from f i → (i ≤ j < N)%nat.
Proof. unfold good_from. rewrite list_elem_of_filter, elem_of_seq. lia. Qed.
Lemma blocks_length f us : Forall (λ j, (j < N)%nat) us → zlen (blocks f us) = zlen us * U.
Proof.
  induction 1 as [|j us Hj _ IH]; [done|]. unfold blocks in *. simpl.
  rewrite zlen_app, zlen_cons, IH, block_length by done. lia.
Qed.
Lemma good_from_all f i : Forall (λ j, (j < N)%nat) (good_from f i).
Proof. apply Forall_forall. intros j Hj%good_from_lt. lia. Qed.
Lemma blocks_app f us js : blocks f (us ++ js) = blocks f us ++ blocks f js.
Proof. unfold blocks. by rewrite map_app, concat_app. Qed.
(** The good units behind the first one found. *)
Lemma good_from_tail f i j js : (i ≤ N)%nat → good_from f i = j :: js →
  (j < N)%nat ∧ js = good_from f (S j).
Proof.
  intros Hi. remember (N - i)%nat as n eqn:En. revert i Hi En.
  induction n as [|n IH]; intros i Hi En E.
  { replace i with N in E by lia. by rewrite good_from_end in E. }
  rewrite good_from_step in E by lia. destruct (bad f dev i).
  - by eapply (IH (S i)); [lia|lia|].
  - injection E as -> ->. split; [lia|done].
Qed.

(** [bs] has been read: the units read so far are [bs] and the rest of the buffer. *)
Definition reading (f0 : Flash) (bs : bytes) (ctx : ReadContext) (s : Sys MtdWorld) : Prop :=
  same_blocks f0 (fl s) ∧ r_partition ctx = p ∧ 0 ≤ consumed ctx ≤ U ∧
  (zlen (r_buffer ctx) = U ∨ r_buffer ctx = [] ∧ consumed ctx = U) ∧
  ∃ i used, (i ≤ N)%nat ∧ r_fd ctx = Z.of_nat i * U ∧
    good_from f0 0 = used ++ good_from f0 i ∧
    blocks f0 used = bs ++ drop (Z.to_nat (consumed ctx)) (r_buffer ctx).

Lemma reading_prefix f0 bs ctx s : reading f0 bs ctx s → bs `prefix_of` contents f0.
Proof.
  intros (_ & _ & _ & _ & i & used & _ & _ & E & Hb). unfold contents.
  rewrite E, blocks_app, Hb, <- app_assoc. by apply prefix_app_r.
Qed.

Lemma read_step f0 bs ctx : consumed ctx = U →
  ttriple smooth (reading f0 bs ctx) (read_block p (r_fd ctx))
    (λ r s, match r.1 with
            | None => bs = contents f0
            | Some b => zlen b = U ∧ reading f0 (bs ++ b) (set_r_fd r.2 ctx) s ∧
                reading f0 bs (mkRead p b 0 r.2) s
            end) (λ _, True).
Proof.
  intros Hc s cs Hcs (Hs & Hp & Hr & Hbuf & i & used & Hi & Hfd & Eg & Hb).
  assert (drop (Z.to_nat (consumed ctx)) (r_buffer ctx) = []) as Hrest.
  { rewrite Hc. destruct Hbuf as [Hbuf|[-> _]]; [|by rewrite drop_nil].
    apply drop_ge. unfold zlen in Hbuf. lia. }
  rewrite Hrest, app_nil_r in Hb.
  pose proof (read_block_ok f0 i (r_fd ctx) Hi Hfd s cs Hcs Hs) as Hrb.
  destruct (read_block p (r_fd ctx) s cs) as [[b fd] s' cs'|s'| |]; try done.
  destruct Hrb as (Hcs' & Hs' & Hres). split; [done|]. cbn [fst snd] in *.
  destruct (good_from f0 i) as [|j js] eqn:Ei.
  { subst b. unfold contents. by rewrite Eg, app_nil_r. }
  apply good_from_tail in Ei as [Hj ->]; [|done]. injection Hres as -> ->.
  rewrite cons_middle, app_assoc in Eg.
  assert (blocks f0 (used ++ [j]) = bs ++ block f0 dev j) as Hb'.
  { rewrite blocks_app, Hb. unfold blocks. simpl. by rewrite app_nil_r. }
  split; [by apply block_length|]. destruct ctx as [p' buf con fd]. simpl in *. subst p' con. unfold reading. simpl. split.
  - split_and!; try done; try lia. exists (S j), (used ++ [j]). split_and!; [lia|done|done|].
    by rewrite Hrest, app_nil_r.
  - split_and!; try done; [pose proof U_pos; lia|left; by apply block_length|].
    by exists (S j), (used ++ [j]).
Qed.

(** What is left of [len] bytes, as the code computes it. *)
Lemma rest_ok len (data : bytes) : len ≤ INT_MAX → zlen data ≤ len →
  size_t (len - zlen data) = len - zlen data.
Proof. intros. pose proof (zlen_nonneg data). apply size_t_id. lia. Qed.

Lemma reading_ctx f0 bs ctx ctx' s : reading f0 bs ctx s → r_partition ctx' = r_partition ctx →
  r_buffer ctx' = r_buffer ctx → consumed ctx' = consumed ctx → r_fd ctx' = r_fd ctx →
  reading f0 bs ctx' s.
Proof. unfold reading. intros Hr -> -> -> ->. done. Qed.

Lemma read_whole_ok f0 bs len : len ≤ INT_MAX → ∀ fuel ctx data,
  r_partition ctx = p → zlen data ≤ len → len - zlen data ≤ Z.of_nat fuel →
  ttriple smooth (reading f0 (bs ++ data) ctx) (read_whole fuel ctx len data)
    (λ r s, ∃ more ctx', r = (r.1.1, data ++ more, ctx') ∧ zlen (data ++ more) ≤ len ∧
       if (r.1.1 : bool)
       then reading f0 (bs ++ data ++ more) ctx' s ∧ r_partition ctx' = p ∧
            ¬ (consumed ctx' = U ∧ U ≤ len - zlen (data ++ more)) ∧
            consumed ctx' = consumed ctx
       else zlen (contents f0) < zlen bs + len) (λ _, True).
Proof.
  intros Hlen. induction fuel as [|fuel IH]; intros ctx data Hp Hd Hf; cbn [read_whole];
    rewrite Hp, (proj1 described), rest_ok by done; pose proof U_pos.
  { rewrite decide_False by lia. apply tt_ret. intros s Hr. exists [], ctx.
    cbn [fst]. rewrite app_nil_r. split_and!; auto. lia. }
  case_decide as Hc.
  2: { apply tt_ret. intros s Hr. exists [], ctx. cbn [fst]. rewrite app_nil_r. auto 10. }
  destruct Hc as [Hc Hle]. eapply tt_bind; [by apply read_step|].
  intros [[b|] fd]; cbn [fst snd].
  2: { apply tt_ret. intros s Hcont. exists [], (set_r_fd fd ctx). cbn [fst]. rewrite app_nil_r.
       split_and!; [done|done|]. rewrite <- Hcont, zlen_app. lia. }
  apply tt_pure. intros Hb.
  eapply tt_conseq; [apply (IH (set_r_fd fd ctx) (data ++ b))| | |done].
  - by destruct ctx.
  - rewrite zlen_app. lia.
  - rewrite zlen_app. lia.
  - intros s [Hr _]. by rewrite app_assoc.
  - intros [[ok data'] ctx''] s. cbn [fst snd]. intros (more & ctx' & [= -> ->] & Hl & Hok).
    exists (b ++ more), ctx'. rewrite !app_assoc in *. split_and!; [done..|].
    destruct ok; [|done]. destruct Hok as (? & ? & ? & Hm). split_and!; try done.
    rewrite Hm. by destruct ctx.
Qed.

(** The copy out of the buffer. *)
Lemma copy_ok f0 bs len ctx data : len ≤ INT_MAX → zlen data < len →
  ttriple smooth (reading f0 (bs ++ data) ctx)
    (if decide (consumed ctx < U) then
       piece ← lift (access (zslice (r_buffer ctx) (consumed ctx)
         (if decide (size_t (len - zlen data) < size_t (U - consumed ctx))
          then size_t (len - zlen data) else size_t (U - consumed ctx))));
       mret (data ++ piece, mkRead p (r_buffer ctx) (consumed ctx +
         (if decide (size_t (len - zlen data) < size_t (U - consumed ctx))
          then size_t (len - zlen data) else size_t (U - consumed ctx))) (r_fd ctx))
     else mret (data, ctx))
    (λ r s, ∃ piece, (r.1 = data ++ piece ∧ zlen (data ++ piece) ≤ len ∧ r_partition r.2 = p ∧
       (zlen (data ++ piece) = len ∨ consumed r.2 = U ∧
          (consumed ctx ≠ U → 0 < zlen piece))) ∧
       reading f0 (bs ++ data ++ piece) r.2 s) (λ _, True).
Proof.
  intros Hlen Hd. pose proof U_pos. destruct described as (_ & _ & _ & HU).
  apply (tt_fact _ _ (r_partition ctx = p ∧ 0 ≤ consumed ctx ≤ U ∧
    (zlen (r_buffer ctx) = U ∨ r_buffer ctx = [] ∧ consumed ctx = U)));
    [by intros s (? & ? & ? & ? & _)|].
  intros (Hp & Hc & Hbuf). apply tt_decide; intros Hlt.
  2: { apply tt_ret. intros s Hr. exists []. cbn [fst snd]. rewrite app_nil_r. split_and!; auto; [lia|].
       right. split; [lia|]. intros []. lia. }
  destruct Hbuf as [Hbuf|[_ ?]]; [|lia]. rewrite rest_ok, (size_t_id (U - _)) by lia.
  set (copy := if decide _ then _ else _).
  assert (0 < copy ∧ copy ≤ U - consumed ctx ∧ copy ≤ len - zlen data ∧
    (copy = len - zlen data ∨ copy = U - consumed ctx)) as (? & ? & ? & Hcopy)
    by (unfold copy; case_decide; lia).
  destruct (proj2 (zslice_is_Some (r_buffer ctx) (consumed ctx) copy)) as [piece Ep]; [lia|].
  pose proof (zslice_length _ _ _ _ Ep) as (Hpl & _ & _).
  rewrite Ep. intros s cs Hcs Hr. split; [done|]. exists piece. cbn [fst snd r_partition consumed].
  rewrite zlen_app. split_and!; auto; [lia|destruct Hcopy; [left; lia|right; lia]|].
  destruct Hr as (? & _ & _ & _ & i & used & Hi & Hfd & Eg & Eb).
  unfold reading. cbn [r_partition consumed r_buffer r_fd]. split_and!; auto; [lia|lia|].
  exists i, used. split_and!; auto. rewrite Eb, <- !app_assoc. do 2 f_equal.
  apply zslice_inv in Ep as (a & c & -> & <- & <-). unfold zlen.
  rewrite Nat2Z.id, drop_app_length. replace (Z.to_nat _) with (length (a ++ piece))
    by (rewrite length_app; lia). by rewrite app_assoc, drop_app_length.
Qed.

Lemma read_loop_ok f0 bs len : len ≤ INT_MAX → ∀ fuel ctx data,
  zlen data ≤ len →
  len - zlen data + (if decide (consumed ctx = U) then 1 else 0) < Z.of_nat fuel →
  ttriple smooth (reading f0 (bs ++ data) ctx) (read_loop fuel ctx len data)
    (λ r s, (∃ more, r.1 = (len, data ++ more) ∧ zlen (data ++ more) = len ∧
               reading f0 (bs ++ data ++ more) r.2 s) ∨
            (r.1.1 = -1 ∧ zlen (contents f0) < zlen bs + len)) (λ _, True).
Proof.
  intros Hlen. pose proof U_pos. induction fuel as [|fuel IH]; intros ctx data Hd Hf;
    cbn [read_loop]; rewrite (wrap_s_id 32 len) by (unfold in_s, INT_MAX in *; pose proof (zlen_nonneg data); lia).
  { exfalso. destruct (decide (consumed ctx = U)); lia. }
  apply (tt_fact _ _ (r_partition ctx = p ∧ 0 ≤ consumed ctx ≤ U)); [by intros s (? & ? & ? & _)|].
  intros [Hp Hcons].
  apply tt_decide; intros Hlt.
  2: { apply tt_ret. intros s Hr. left. exists []. rewrite app_nil_r.
       cbn [fst snd]. split_and!; [f_equal; lia|lia|done]. }
  rewrite Hp, (proj1 described).
  eapply tt_bind; [apply (copy_ok f0 bs len ctx data); done || lia|].
  intros [data1 ctx1]. apply tt_exists. intros piece. cbn [fst snd].
  apply tt_pure. intros (-> & Hd1 & Hp1 & Hmeas). pose proof (zlen_nonneg data).
  pose proof (zlen_nonneg piece). pose proof (zlen_app data piece).
  eapply tt_bind; [apply (read_whole_ok f0 bs len); done || lia|].
  intros [[ok data2] ctx2]. cbn [fst snd]. apply tt_exists. intros more.
  apply tt_exists. intros ctx'. apply tt_pure. intros [= -> <-].
  apply tt_pure. intros Hl2. apply tt_decide; intros Hok.
  { subst ok. apply tt_ret. intros s Hx. by right. }
  apply not_false_is_true in Hok. subst ok. apply tt_decide; intros Hend.
  { apply tt_ret. intros s (Hr & _). left. exists (piece ++ more). cbn [fst snd].
    rewrite !app_assoc in *. split_and!; [f_equal; lia|lia|done]. }
  apply (tt_fact _ _ (consumed ctx2 = U ∧ r_partition ctx2 = p ∧ consumed ctx1 = U)).
  { intros s (_ & Hp2 & _ & Hc). rewrite zlen_app in Hend. pose proof (zlen_nonneg more).
    destruct Hmeas as [Hm|Hm]; [lia|]. rewrite Hc. tauto. }
  intros (Hc2 & Hp2 & Hc1). rewrite decide_True, Hp2 by done.
  eapply tt_bind with (Q' := λ r s, match r.1 with
    | None => bs ++ (data ++ piece) ++ more = contents f0
    | Some b => zlen b = U ∧ reading f0 (bs ++ (data ++ piece) ++ more) (mkRead p b 0 r.2) s
    end).
  { eapply tt_conseq; [by apply (read_step f0 (bs ++ (data ++ piece) ++ more) ctx2)| | |done].
    - by intros s (Hr & _).
    - intros [[b|] fd] s; cbn [fst snd]; [naive_solver|done]. }
  intros [[b|] fd]; cbn [fst snd].
  2: { apply tt_ret. intros s Hcont. right. split; [done|]. rewrite <- Hcont, !zlen_app in *. lia. }
  apply tt_pure. intros Hb.
  replace (r_partition (set_r_fd fd ctx2)) with p by (by destruct ctx2).
  replace (r_fd (set_r_fd fd ctx2)) with fd by (by destruct ctx2).
  eapply tt_conseq; [apply (IH (mkRead p b 0 fd) ((data ++ piece) ++ more)); [lia|]| | |done].
  - cbn [consumed]. rewrite decide_False by lia. rewrite !zlen_app in *. pose proof (zlen_nonneg more).
    destruct Hmeas as [?|[_ Hm]]; [lia|]. revert Hf. case_decide as Hcd; [lia|].
    specialize (Hm Hcd). lia.
  - intros s Hr. destruct ctx2. simpl in *. by subst.
  - intros r s [(more' & Er & Hl & Hr)|?]; [left|by right].
    exists (piece ++ more ++ more'). rewrite !app_assoc in *. done.
Qed.

Lemma mtd_read_data_ok f0 bs len ctx : 0 ≤ len ≤ INT_MAX →
  ttriple smooth (reading f0 bs ctx) (mtd_read_data ctx len) (λ r s,
    r.1.1 = len ∧ zlen r.1.2 = len ∧ reading f0 (bs ++ r.1.2) r.2 s ∨
    r.1.1 = -1 ∧ zlen (contents f0) < zlen bs + len) (λ _, True).
Proof.
  intros Hlen. unfold mtd_read_data.
  eapply tt_conseq; [apply (read_loop_ok f0 bs len); [lia|by change (zlen (@nil Z)) with 0; lia|]| | |done].
  - change (zlen (@nil Z)) with 0. case_decide; lia.
  - intros s Hs. by rewrite app_nil_r.
  - intros [[n d] ctx'] s [(more & [= -> ->] & Hl & Hr)|?]; [left|by right]. by split_and!.
Qed.

(** *** Buffered writing

    For any invariant [Inv bs ctx s] ("the units [bs] are written") that a successful
    [write_block] extends; [Full bs s] is what a failed one gives. *)
Section writing.
Context (C : Z → Prop) (Inv : bytes → WriteContext → Sys MtdWorld → Prop).
Context (Full : bytes → Sys MtdWorld → Prop).
Hypothesis Inv_fd : ∀ bs ctx s, Inv bs ctx s → 0 ≤ w_fd ctx ≤ p_size p.
Hypothesis Inv_ctx : ∀ bs ctx ctx' s, Inv bs ctx s → w_fd ctx' = w_fd ctx →
  bad_block_offsets ctx' = bad_block_offsets ctx → Inv bs ctx' s.
Hypothesis erase_loop_ok : ∀ bs ctx n, w_fd ctx + Z.of_nat n * U ≤ p_size p →
  ttriple C (Inv bs ctx) (erase_loop n p (w_fd ctx)) (λ pos s, 0 ≤ pos ∧ Inv bs ctx s) (λ _, True).
(** A unit was written or there is no room. *)
Definition block_written (bs b : bytes) (ctx : WriteContext) (r : Z * WriteContext)
    (s : Sys MtdWorld) : Prop :=
  (∃ fd l, 0 ≤ fd ∧ r.2 = mkWrite p (w_buffer ctx) (stored ctx) fd l) ∧
  (r.1 = 0 ∧ Inv (bs ++ b) r.2 s ∨ r.1 ≠ 0 ∧ Full bs s).
Hypothesis write_block_ok : ∀ bs b ctx, w_partition ctx = p → zlen b = U →
  ttriple C (Inv bs ctx) (write_block ctx b) (block_written bs b ctx) (λ _, True).

(** [data] has been accepted: units that are written and the front of the buffer. *)
Definition writing (data : bytes) (ctx : WriteContext) (s : Sys MtdWorld) : Prop :=
  w_partition ctx = p ∧ zlen (w_buffer ctx) = U ∧ 0 ≤ stored ctx ≤ U ∧
  ∃ bs, data = bs ++ take (Z.to_nat (stored ctx)) (w_buffer ctx) ∧ Inv bs ctx s.
(** A context that can be closed. *)
Definition usable (ctx : WriteContext) : Prop :=
  w_partition ctx = p ∧ zlen (w_buffer ctx) = U ∧ 0 ≤ stored ctx ≤ U ∧ 0 ≤ w_fd ctx.
Definition no_room (data : bytes) (ctx : WriteContext) (s : Sys MtdWorld) : Prop :=
  usable ctx ∧ ∃ bs b, zlen b = U ∧ bs ++ b `prefix_of` data ∧ Full bs s.

Lemma writing_shape data ctx s : writing data ctx s →
  w_partition ctx = p ∧ zlen (w_buffer ctx) = U ∧ 0 ≤ stored ctx ≤ U.
Proof. unfold writing. tauto. Qed.

Lemma flush_ok bs b data data' ctx n : w_partition ctx = p → zlen b = U → zlen (w_buffer ctx) = U →
  0 ≤ n ≤ U → 0 ≤ stored ctx ≤ U → data' = bs ++ b ++ take (Z.to_nat n) (w_buffer ctx) → bs ++ b `prefix_of` data →
  ttriple C (Inv bs ctx) (write_block ctx b) (λ r s, stored r.2 = stored ctx ∧
    (r.1 = 0 ∧ writing data' (set_stored n r.2) s ∨ r.1 ≠ 0 ∧ no_room data r.2 s)) (λ _, True).
Proof.
  intros Hp Hb Hbuf Hn Hst -> Hpre. eapply tt_conseq; [by apply write_block_ok|done| |done].
  intros [r ctx'] s [(fd & l & Hfd & ->) Hr]. cbn [fst snd stored] in *. split; [done|].
  destruct Hr as [[-> HI]|[? Hf]]; [left|right].
  - split; [done|]. unfold writing. simpl. split_and!; try done; try lia.
    exists (bs ++ b). rewrite <- app_assoc. split; [done|]. by eapply Inv_ctx.
  - split; [done|]. split; [by unfold usable|]. by exists bs, b.
Qed.

Lemma write_rest len wrote : len ≤ INT_MAX → 0 ≤ wrote ≤ len → size_t (len - wrote) = len - wrote.
Proof. intros. apply size_t_id. lia. Qed.

Lemma write_whole_ok d more : zlen more ≤ INT_MAX → ∀ fuel ctx wrote,
  0 ≤ wrote ≤ zlen more → zlen more - wrote ≤ Z.of_nat fuel →
  ttriple C (writing (d ++ take (Z.to_nat wrote) more) ctx) (write_whole fuel ctx more wrote)
    (λ r s, if (r.1.1 : bool)
      then writing (d ++ take (Z.to_nat r.1.2) more) r.2 s ∧ wrote ≤ r.1.2 ≤ zlen more ∧
           stored r.2 = stored ctx ∧ ¬ (stored ctx = 0 ∧ U ≤ zlen more - r.1.2)
      else no_room (d ++ more) r.2 s) (λ _, True).
Proof.
  intros Hlen. pose proof U_pos. induction fuel as [|fuel IH]; intros ctx wrote Hw Hf.
  all: apply (tt_fact _ _ (w_partition ctx = p)); [by intros s [? _]|]; intros Hp;
    cbn [write_whole]; rewrite Hp, (proj1 described), write_rest by done.
  { rewrite decide_False by lia. apply tt_ret. intros s Hs. cbn. split_and!; auto; lia. }
  apply tt_decide; intros Hc.
  2: { apply tt_ret. intros s Hs. cbn. split_and!; auto; lia. }
  destruct Hc as [Hst Hle].
  destruct (proj2 (zslice_is_Some more wrote U)) as [b Eb]; [lia|]. rewrite Eb.
  pose proof (zslice_length _ _ _ _ Eb) as (Hb & _ & _). pose proof (take_zslice _ _ _ _ Eb) as Et.
  eapply tt_get; [done|].
  eapply tt_bind with (Q' := λ r s, stored r.2 = stored ctx ∧
    (r.1 = 0 ∧ writing (d ++ take (Z.to_nat (wrote + U)) more) (set_stored 0 r.2) s ∨
     r.1 ≠ 0 ∧ no_room (d ++ more) r.2 s)).
  { intros s cs Hcs (_ & Hbuf & _ & bs & Ed & HI). rewrite Hst, take_0, app_nil_r in Ed.
    apply (flush_ok bs b _ _ ctx 0); try done; [lia|lia| |].
    - by rewrite take_0, app_nil_r, Et, app_assoc, Ed.
    - rewrite <- Ed, <- app_assoc, <- Et. apply prefix_app, prefix_take. }
  intros [r ctx']. cbn [fst snd]. apply tt_pure. intros Hst'. apply tt_decide; intros Hr.
  - apply tt_ret. intros s [[? _]|[_ ?]]; done.
  - replace (set_stored 0 ctx') with ctx' by (destruct ctx'; simpl in *; congruence).
    eapply tt_conseq; [apply (IH ctx' (wrote + U)); lia| | |done].
    + by intros s [[_ Hs]|[? _]].
    + intros [[ok w] c] s. cbn [fst snd]. destruct ok; [|done]. intros (? & ? & ? & ?).
      rewrite Hst' in *. split_and!; auto; lia.
Qed.

(** The copy into the buffer. *)
Lemma fill_ok d more ctx wrote : zlen more ≤ INT_MAX → 0 ≤ wrote < zlen more → stored ctx < U →
  ttriple C (writing (d ++ take (Z.to_nat wrote) more) ctx)
    (if decide (stored ctx > 0 ∨ size_t (zlen more - wrote) < U) then
       piece ← lift (access (zslice more wrote
         (if decide (size_t (zlen more - wrote) < size_t (U - stored ctx))
          then size_t (zlen more - wrote) else size_t (U - stored ctx))));
       buffer ← lift (access (store (w_buffer ctx) (stored ctx) piece));
       mret (mkWrite (w_partition ctx) buffer (stored ctx +
         (if decide (size_t (zlen more - wrote) < size_t (U - stored ctx))
          then size_t (zlen more - wrote) else size_t (U - stored ctx))) (w_fd ctx)
               (bad_block_offsets ctx), wrote +
         (if decide (size_t (zlen more - wrote) < size_t (U - stored ctx))
          then size_t (zlen more - wrote) else size_t (U - stored ctx)))
     else mret (ctx, wrote))
    (λ r s, writing (d ++ take (Z.to_nat r.2) more) r.1 s ∧ wrote ≤ r.2 ≤ zlen more ∧
       (wrote < r.2 ∨ r.2 = wrote ∧ stored r.1 = 0 ∧ U ≤ zlen more - wrote)) (λ _, True).
Proof.
  intros Hlen Hw Hst. pose proof U_pos. destruct described as (_ & _ & _ & HU).
  apply (tt_fact _ _ (w_partition ctx = p ∧ zlen (w_buffer ctx) = U ∧ 0 ≤ stored ctx ≤ U));
    [by apply writing_shape|]. intros (Hp & Hbuf & Hs).
  rewrite write_rest, (size_t_id (U - _)) by lia. apply tt_decide; intros Hc.
  2: { apply tt_ret. intros s Hwr. cbn [fst snd]. split_and!; [done|lia..]. }
  set (copy := if decide (_ < U - stored ctx) then _ else _).
  assert (0 < copy ∧ copy ≤ U - stored ctx ∧ copy ≤ zlen more - wrote) as (? & ? & ?)
    by (unfold copy; case_decide; lia).
  destruct (proj2 (zslice_is_Some more wrote copy)) as [piece Ep]; [lia|].
  pose proof (zslice_length _ _ _ _ Ep) as (Hpl & _ & _). pose proof (take_zslice _ _ _ _ Ep) as Et.
  eapply tt_get; [done|].
  destruct (store_front (w_buffer ctx) (stored ctx) piece) as (buf & Eb & Hbl & Htk); [lia..|].
  eapply tt_get; [done|]. apply tt_ret. intros s (_ & _ & _ & bs & Ed & HI). cbn [fst snd].
  split_and!; [|lia..]. unfold writing. simpl. split_and!; try done; try lia.
  exists bs. rewrite <- Hpl, Htk, app_assoc, <- Ed, Hpl, Et, app_assoc. split; [done|].
  by eapply Inv_ctx.
Qed.

Lemma mtd_write_loop_ok d more : zlen more ≤ INT_MAX → ∀ fuel ctx wrote,
  0 ≤ wrote ≤ zlen more → zlen more - wrote < Z.of_nat fuel → stored ctx < U →
  ttriple C (writing (d ++ take (Z.to_nat wrote) more) ctx) (mtd_write_loop fuel ctx more wrote)
    (λ r s, r.1 = zlen more ∧ writing (d ++ more) r.2 s ∧ stored r.2 < U ∨
            r.1 = -1 ∧ no_room (d ++ more) r.2 s) (λ _, True).
Proof.
  intros Hlen. pose proof U_pos. induction fuel as [|fuel IH]; intros ctx wrote Hw Hf Hst; [lia|].
  cbn [mtd_write_loop]. apply tt_decide; intros Hlt.
  2: { apply tt_ret. intros s Hs. left. cbn [fst snd]. replace wrote with (zlen more) in * by lia.
       unfold zlen in Hs. rewrite Nat2Z.id, firstn_all in Hs. done. }
  apply (tt_fact _ _ (w_partition ctx = p)); [by intros s [? _]|]. intros Hp.
  rewrite Hp, (proj1 described).
  eapply tt_bind; [rewrite <- Hp; apply fill_ok; done || lia|].
  intros [ctx1 w1]. cbn [fst snd].
  eapply tt_bind with (Q' := λ r s, (wrote ≤ w1 ≤ zlen more ∧
     (wrote < w1 ∨ w1 = wrote ∧ stored r.2 = 0 ∧ U ≤ zlen more - wrote)) ∧
    (r.1 = 0 ∧ writing (d ++ take (Z.to_nat w1) more) r.2 s ∧ stored r.2 < U ∨
     r.1 ≠ 0 ∧ no_room (d ++ more) r.2 s)).
  { apply (tt_fact _ _ ((w_partition ctx1 = p ∧ zlen (w_buffer ctx1) = U ∧ 0 ≤ stored ctx1 ≤ U) ∧
      wrote ≤ w1 ≤ zlen more ∧
      (wrote < w1 ∨ w1 = wrote ∧ stored ctx1 = 0 ∧ U ≤ zlen more - wrote)));
      [by intros s (?%writing_shape & ? & ?)|].
    intros [(Hp1 & Hb1 & Hs1) Hw1]. apply tt_decide; intros Hfull.
    2: { apply tt_ret. intros s [Hs _]. cbn [fst snd]. split; [done|]. left. split_and!; done || lia. }
    assert (take (Z.to_nat (stored ctx1)) (w_buffer ctx1) = w_buffer ctx1) as Hall
      by (apply take_ge; unfold zlen in *; lia).
    eapply tt_bind with (Q' := λ r s, stored r.2 = stored ctx1 ∧
      (r.1 = 0 ∧ writing (d ++ take (Z.to_nat w1) more) (set_stored 0 r.2) s ∨
       r.1 ≠ 0 ∧ no_room (d ++ more) r.2 s)).
    { intros s cs Hcs [(_ & _ & _ & bs & Ed & HI) _]. rewrite Hall in Ed.
      apply (flush_ok bs (w_buffer ctx1) _ _ ctx1 0); try done; [lia|by rewrite take_0, app_nil_r|].
      rewrite <- Ed. apply prefix_app, prefix_take. }
    intros [r ctx2]. cbn [fst snd]. apply tt_pure. intros Hst2. apply tt_ret.
    intros s [[-> Hs]|[Hr Hs]].
    - rewrite decide_True by done. cbn [fst snd]. split; [split; [tauto|]|].
      + destruct ctx2. simpl. destruct Hw1 as [? [?|?]]; [by left|lia].
      + left. split_and!; [done|done|]. destruct ctx2. simpl. lia.
    - rewrite decide_False by done. cbn [fst snd]. split; [|by right]. split; [tauto|].
      destruct Hw1 as [? [?|?]]; [by left|lia]. }
  intros [r ctx2]. cbn [fst snd]. apply tt_pure. intros [Hw1 Hprog]. apply tt_decide; intros Hr.
  { apply tt_ret. intros s [[? _]|[_ ?]]; [done|]. by right. }
  apply (tt_fact _ _ (stored ctx2 < U)); [by intros s [(_ & _ & ?)|[? _]]|]. intros Hst2.
  eapply tt_bind.
  { eapply tt_conseq; [apply (write_whole_ok d more Hlen (Z.to_nat (zlen more)) ctx2 w1); lia| | |done].
    - by intros s [(_ & ? & _)|[? _]].
    - intros ? ? Hx. exact Hx. }
  intros [[ok w2] ctx3]. cbn [fst snd]. apply tt_decide; intros Hok.
  { subst ok. apply tt_ret. by right. }
  apply not_false_is_true in Hok. subst ok.
  apply (tt_fact _ _ (w1 ≤ w2 ≤ zlen more ∧ stored ctx3 = stored ctx2 ∧
    ¬ (stored ctx2 = 0 ∧ U ≤ zlen more - w2))); [by intros s (_ & ?)|]. intros (? & Hst3 & ?).
  eapply tt_conseq; [apply (IH ctx3 w2); lia| |done|done]. by intros s [? _].
Qed.

(** [mtd_write_data] accepts all of the data, unless the partition is full. *)
Lemma mtd_write_data_ok d more ctx : zlen more ≤ INT_MAX → stored ctx < U →
  ttriple C (writing d ctx) (mtd_write_data ctx more)
    (λ r s, r.1 = zlen more ∧ writing (d ++ more) r.2 s ∧ stored r.2 < U ∨
            r.1 = -1 ∧ no_room (d ++ more) r.2 s) (λ _, True).
Proof.
  intros. pose proof (zlen_nonneg more). unfold mtd_write_data.
  eapply tt_conseq; [apply (mtd_write_loop_ok d more); lia| |done|done].
  intros s Hs. by rewrite take_0, app_nil_r.
Qed.

(** The zeros that fill the last unit. *)
Definition padding (ctx : WriteContext) : bytes :=
  if decide (stored ctx > 0) then replicate (Z.to_nat (U - stored ctx)) 0 else [].

(** Writing the rest of the buffer. *)
Lemma flush_rest_ok data ctx : w_partition ctx = p → zlen (w_buffer ctx) = U → 0 ≤ stored ctx < U →
  ttriple C (writing data ctx)
    (if decide (stored ctx > 0) then
       buffer ← lift (access (store (w_buffer ctx) (stored ctx)
                                (replicate (Z.to_nat (size_t (U - stored ctx))) 0)));
       '(r, ctx) ← write_block (mkWrite p buffer (stored ctx) (w_fd ctx) (bad_block_offsets ctx)) buffer;
       mret (if decide (r = 0) then (0, set_stored 0 ctx) else (r, ctx))
     else mret (0, ctx))
    (λ r s, r.1 = 0 ∧ writing (data ++ padding ctx) r.2 s ∧ stored r.2 = 0 ∨
            r.1 ≠ 0 ∧ no_room (data ++ padding ctx) r.2 s) (λ _, True).
Proof.
  intros Hp Hbuf Hs. pose proof U_pos. destruct described as (_ & _ & _ & HU). unfold padding.
  apply tt_decide; intros Hpend.
  2: { rewrite decide_False by done. apply tt_ret. intros s Hs'. left. cbn [fst snd]. rewrite app_nil_r. split_and!; [done..|lia]. }
  rewrite !decide_True by done. rewrite (size_t_id (U - _)) by lia.
  destruct (store_front (w_buffer ctx) (stored ctx) (replicate (Z.to_nat (U - stored ctx)) 0))
    as (buf & Eb & Hbl & Htk); [lia|unfold zlen; rewrite length_replicate; unfold zlen in *; lia|].
  eapply tt_get; [done|].
  assert (buf = take (Z.to_nat (stored ctx)) (w_buffer ctx) ++
    replicate (Z.to_nat (U - stored ctx)) 0) as Ebuf.
  { rewrite <- Htk, take_ge; [done|]. unfold zlen in *. rewrite length_replicate. lia. }
  set (ctx1 := mkWrite _ _ _ _ _).
  eapply tt_bind with (Q' := λ r s,
    r.1 = 0 ∧ writing (data ++ replicate (Z.to_nat (U - stored ctx)) 0) (set_stored 0 r.2) s ∨
    r.1 ≠ 0 ∧ no_room (data ++ replicate (Z.to_nat (U - stored ctx)) 0) r.2 s).
  { intros s cs Hcs (_ & _ & _ & bs & Ed & HI).
    assert (Inv bs ctx1 s) as HI1 by (by eapply Inv_ctx).
    pose proof (flush_ok bs buf (data ++ replicate (Z.to_nat (U - stored ctx)) 0)
      (data ++ replicate (Z.to_nat (U - stored ctx)) 0) ctx1 0 eq_refl ltac:(congruence)
      ltac:(simpl; congruence) ltac:(lia) ltac:(simpl; lia)) as Hfl.
    rewrite take_0, app_nil_r, Ebuf, app_assoc, <- Ed in Hfl.
    specialize (Hfl eq_refl ltac:(done) s cs Hcs HI1). rewrite <- Ebuf in Hfl.
    destruct (write_block ctx1 buf s cs) as [[r c] s' cs'|s'| |]; try done. naive_solver. }
  intros [r c]. apply tt_ret. cbn [fst snd]. intros s [[-> HI]|[Hr Hn]].
  - left. rewrite decide_True by done. cbn [fst snd]. split_and!; [done|done|by destruct c].
  - right. by rewrite decide_False.
Qed.

Lemma mtd_erase_blocks_ok data ctx blocks : blocks ≤ 0 → stored ctx < U →
  ttriple C (writing data ctx) (mtd_erase_blocks ctx blocks)
    (λ r s, 0 ≤ r.1 ∧ writing (data ++ padding ctx) r.2 s ∧ stored r.2 = 0 ∨
            r.1 = -1 ∧ usable r.2 ∧ ((∀ c, C c → c ≠ 0) → no_room (data ++ padding ctx) r.2 s))
    (λ _, True).
Proof.
  intros Hbl Hst. pose proof U_pos. pose proof described as (Hes & Hsz & Hmax & HU).
  apply (tt_fact _ _ (w_partition ctx = p ∧ zlen (w_buffer ctx) = U ∧ 0 ≤ stored ctx ≤ U));
    [by apply writing_shape|]. intros (Hp & Hbuf & Hs).
  unfold mtd_erase_blocks. rewrite Hp, Hes.
  eapply tt_bind; [apply flush_rest_ok; done || lia|].
  intros [r c]. cbn [fst snd]. apply tt_decide; intros Hr.
  { apply tt_ret. intros s [(? & _)|[_ Hn]]; [done|]. right. split_and!; [done|apply Hn|by intros _]. }
  apply (tt_fact _ _ (0 ≤ w_fd c ≤ p_size p ∧ stored c = 0 ∧ usable c)).
  { intros s [(_ & (? & ? & ? & bs & _ & HI) & ?)|[? _]]; [|done]. apply Inv_fd in HI.
    unfold usable. split_and!; try done; lia. }
  intros (Hfd & Hc0 & Hus).
  eapply tt_conseq with (P' := writing (data ++ padding ctx) c);
    [|by intros s [(_ & ? & _)|[? _]]|intros ? ? Hx; exact Hx|done].
  eapply tt_bind; [apply tt_lseek_cur|]. intros pos. apply tt_pure. intros Hpos.
  apply tt_pure. intros Hpos'. apply tt_decide; intros Hm1.
  { apply tt_ret. intros s _. right. split_and!; [done|done|]. intros Hnz. specialize (Hpos Hnz). lia. }
  destruct Hpos' as [->|]; [|done]. rewrite decide_False by lia.
  assert (room_after (p_size p) (w_fd c) = p_size p - w_fd c) as ->.
  { unfold room_after, INT_MAX in *. case_decide; [|done]. apply wrap_u_id. unfold in_u. lia. }
  unfold INT_MAX in *. rewrite Z.quot_div_nonneg by lia. set (total := (p_size p - w_fd c) / U).
  pose proof (Z.div_pos (p_size p - w_fd c) U ltac:(lia) ltac:(lia)).
  pose proof (Z.mul_div_le (p_size p - w_fd c) U ltac:(lia)). fold total in H0, H1.
  rewrite wrap_s_id by (unfold in_s; nia).
  set (n := if decide (blocks < 0) then total else blocks).
  assert (0 ≤ n ≤ total) as Hn by (unfold n; case_decide; lia). rewrite decide_False by lia.
  eapply tt_bind with (Q' := λ pos s, 0 ≤ pos ∧ writing (data ++ padding ctx) c s).
  { intros s cs Hcs (Hpc & Hbc & Hsc & bs & Ed & HI).
    pose proof (erase_loop_ok bs c (Z.to_nat n) ltac:(rewrite Z2Nat.id by lia; nia) s cs Hcs HI) as Hl.
    destruct (erase_loop _ _ _ s cs) as [pos s' cs'|s'| |]; try done.
    destruct Hl as (? & ? & ?). split; [done|]. split; [done|]. split_and!; try done; try lia. eauto. }
  intros pos. apply tt_ret. intros s [? ?]. left. done.
Qed.

Lemma mtd_write_close_ok data ctx : stored ctx < U →
  ttriple C (writing data ctx) (mtd_write_close ctx)
    (λ r s, r = 0 ∧ (∃ ctx', Inv (data ++ padding ctx) ctx' s) ∨
            r = -1 ∧ ((∀ c, C c → c ≠ 0) → ∃ ctx', no_room (data ++ padding ctx) ctx' s)) (λ _, True).
Proof.
  intros Hst. unfold mtd_write_close. eapply tt_bind; [by apply mtd_erase_blocks_ok|].
  intros [r c]. cbn [fst snd].
  eapply tt_bind with (Q' := λ ch s, C ch ∧ (0 ≤ r ∧ (∃ ctx', Inv (data ++ padding ctx) ctx' s) ∨
    r = -1 ∧ ((∀ c, C c → c ≠ 0) → ∃ ctx', no_room (data ++ padding ctx) ctx' s))).
  { apply tt_choose; [done|]. intros ch s Hch [(Hr & (_ & _ & _ & bs & Ed & HI) & Hc0)|(? & _ & ?)];
      (split; [done|]); [left|right; eauto].
    split; [done|]. exists c. by rewrite Ed, Hc0, take_0, app_nil_r. }
  intros ch. apply tt_pure. intros Hch. apply tt_ret. intros s [[Hr HI]|[-> Hn]].
  - destruct (decide (ch = 0)) as [->|].
    + right. rewrite decide_True by auto. split; [done|]. intros Hnz. by destruct (Hnz 0).
    + left. rewrite decide_False by lia. done.
  - right. rewrite decide_True by auto. done.
Qed.
End writing.

(** *** Writing a unit

    For any choices: a success means that the unit was read back as it was written, so
    that it holds the data unless a read failed meanwhile. *)
Section units.
Context (C : Z → Prop).

(** Nothing but unit [i] of the partition has changed since [f1], apart from the number of
    failed reads. *)
Definition only_unit (i : nat) (f1 f : Flash) : Prop :=
  (∀ j, j ≠ i → block f dev j = block f1 dev j) ∧ (∀ d j, bad f d j = bad f1 d j) ∧
  ecc_failed f1 dev ≤ ecc_failed f dev.
#[local] Instance only_unit_preorder i : PreOrder (only_unit i).
Proof.
  split; [by intros f; split_and!|]. intros f f' f'' (H1 & H2 & H3) (H4 & H5 & H6).
  split_and!; intros; [by rewrite H4, H1|by rewrite H5|lia].
Qed.

Lemma only_unit_refl i f : only_unit i f f.
Proof. reflexivity. Qed.

Lemma erase_unit i f c r f' : (i < N)%nat →
  drv_erase f dev (Z.of_nat i * U) U c = (r, f') → only_unit i f f'.
Proof.
  intros Hi E. destruct (erase_ok _ _ _ _ _ _ Hi E) as (Hb & Hm & He & _).
  split_and!; auto. intros j Hj. apply Hb. congruence.
Qed.
Lemma write_unit i f data c r f' : (i < N)%nat → zlen data = U →
  drv_write f dev (Z.of_nat i * U) data c = (r, f') → only_unit i f f'.
Proof.
  intros Hi Hl E. destruct (write_ok _ _ _ _ _ _ _ Hi Hl E) as (Hb & Hm & He & _).
  split_and!; auto. intros j Hj. apply Hb. congruence.
Qed.

Lemma write_attempts_ok f1 i data n : (i < N)%nat → zlen data = U → ∀ fd,
  ttriple C (λ s, only_unit i f1 (fl s)) (write_attempts n dev (Z.of_nat i * U) U fd data)
    (λ r s, only_unit i f1 (fl s) ∧ ((r.1 : bool) → r.2 = Z.of_nat (S i) * U ∧
       (ecc_failed (fl s) dev = ecc_failed f1 dev → block (fl s) dev i = data)))
    (λ _, True).
Proof.
  intros Hi Hl. pose proof U_pos. induction n as [|n IH]; intros fd; cbn [write_attempts].
  { apply tt_ret. intros s ?. by split. }
  eapply tt_bind with (Q' := λ _ s, only_unit i f1 (fl s)).
  { apply tt_drive. intros c s s' r _ Hs E%erase_unit; [by etrans|done]. }
  intros r. apply tt_decide; intros _; [apply IH|].
  eapply tt_bind; [apply tt_lseek_set|]. intros r1. apply tt_pure. intros _.
  eapply tt_bind with (Q' := λ _ s, only_unit i f1 (fl s)).
  { apply tt_decide; intros _; [by apply tt_ret|].
    eapply tt_bind with (Q' := λ _ s, only_unit i f1 (fl s)); [|intros; by apply tt_ret].
    apply tt_drive. intros c s s' w _ Hs E%write_unit; [by etrans|done..]. }
  intros fd1. eapply tt_bind; [apply tt_lseek_set|]. intros r2. apply tt_pure. intros _.
  apply tt_decide; intros _; [apply IH|].
  eapply tt_bind with (Q' := λ bs s, only_unit i f1 (fl s) ∧ (zlen bs = U →
    ecc_failed (fl s) dev = ecc_failed f1 dev → block (fl s) dev i = bs)).
  { apply tt_drive. intros c s s' bs _ Hs E.
    destruct (read_ok _ _ _ _ _ _ Hi E) as (Hb & Hm & He & _ & Hfull).
    assert (only_unit i (fl s) (fl s')) as Hss by (split_and!; auto).
    split; [by etrans|]. intros Hbl Hee. rewrite Hb. symmetry. apply Hfull; [done|].
    destruct Hs as (_ & _ & ?), Hss as (_ & _ & ?). lia. }
  intros bs. apply tt_decide; intros Hbl; [eapply tt_conseq; [apply IH|by intros ? [? _]|done|done]|].
  apply dec_stable in Hbl. apply tt_decide; intros Hcmp;
    [eapply tt_conseq; [apply IH|by intros ? [? _]|done|done]|].
  apply dec_stable in Hcmp. apply memcmp_eq in Hcmp as <-; [|congruence].
  apply tt_ret. intros s [Hs Hd]. cbn [fst snd]. split; [done|]. intros _. split; [lia|auto].
Qed.

(** With smooth choices the first attempt on a good unit succeeds. *)
Lemma write_attempts_smooth f1 i data fd n : (∀ c, C c → smooth c) → (i < N)%nat →
  zlen data = U → bad f1 dev i = false →
  ttriple C (λ s, only_unit i f1 (fl s) ∧ ecc_failed (fl s) dev = ecc_failed f1 dev)
    (write_attempts (S n) dev (Z.of_nat i * U) U fd data)
    (λ r s, (r.1 : bool) ∧ ecc_failed (fl s) dev = ecc_failed f1 dev) (λ _, True).
Proof.
  intros Hsm Hi Hl Hg. pose proof U_pos. cbn [write_attempts].
  assert (∀ c, C c → c ≠ 0) as Hnz by (intros c ?%Hsm; by apply smooth_nonzero).
  eapply tt_bind with (Q' := λ r s, r = 0 ∧ only_unit i f1 (fl s) ∧
    ecc_failed (fl s) dev = ecc_failed f1 dev ∧ erased (fl s) dev i).
  { apply tt_drive. intros c s s' r Hc [Hs He] E. pose proof (erase_unit _ _ _ _ _ Hi E).
    destruct (erase_ok _ _ _ _ _ _ Hi E) as (_ & _ & _ & Hw). pose proof Hs as (_ & Hbad & _).
    destruct Hw as (-> & ? & Hee); [by apply Hsm|by rewrite Hbad|].
    split_and!; [done|by etrans|by rewrite Hee|done]. }
  intros r. apply tt_pure. intros ->. rewrite decide_False by lia.
  eapply tt_bind; [apply tt_lseek_set|]. intros r1. apply tt_pure. intros Hr1.
  rewrite Hr1 by (done || lia). rewrite decide_False by auto.
  eapply tt_bind with (Q' := λ _ s, only_unit i f1 (fl s) ∧
    ecc_failed (fl s) dev = ecc_failed f1 dev ∧ block (fl s) dev i = data).
  { eapply tt_bind with (Q' := λ _ s, only_unit i f1 (fl s) ∧
      ecc_failed (fl s) dev = ecc_failed f1 dev ∧ block (fl s) dev i = data);
      [|intros; by apply tt_ret].
    apply tt_drive. intros c s s' w Hc (Hs & He & Her) E. pose proof (write_unit _ _ _ _ _ _ Hi Hl E).
    destruct (write_ok _ _ _ _ _ _ _ Hi Hl E) as (_ & _ & _ & Hw). pose proof Hs as (_ & Hbad & _).
    destruct Hw as (_ & ? & Hee); [by apply Hsm|by rewrite Hbad|done|].
    split_and!; [by etrans|by rewrite Hee|done]. }
  intros fd1. eapply tt_bind; [apply tt_lseek_set|]. intros r2. apply tt_pure. intros Hr2.
  rewrite Hr2 by (done || lia). rewrite decide_False by auto.
  eapply tt_bind with (Q' := λ bs s, bs = data ∧ ecc_failed (fl s) dev = ecc_failed f1 dev).
  { apply tt_drive. intros c s s' bs Hc (Hs & He & Hd) E. pose proof Hs as (_ & Hbad & _).
    destruct (read_works _ _ _ _ _ _ Hi (proj1 (Hsm c Hc)) E) as [Hbl Hee]. specialize (Hee ltac:(by rewrite Hbad)).
    destruct (read_ok _ _ _ _ _ _ Hi E) as (_ & _ & _ & _ & Hfull).
    rewrite (Hfull Hbl (Hee dev)). split; [done|]. by rewrite Hee. }
  intros bs. apply tt_pure. intros ->. rewrite !decide_False by (rewrite ?memcmp_refl; auto).
  apply tt_ret. done.
Qed.

(** The units below [i] have not changed since [f1]. *)
Definition below (i : nat) (f1 f : Flash) : Prop :=
  (∀ j, (j < i)%nat → block f dev j = block f1 dev j) ∧ (∀ d j, bad f d j = bad f1 d j) ∧
  ecc_failed f1 dev ≤ ecc_failed f dev.
#[local] Instance below_preorder i : PreOrder (below i).
Proof.
  split; [by intros f; split_and!|]. intros f f' f'' (H1 & H2 & H3) (H4 & H5 & H6).
  split_and!; intros; [by rewrite H4, H1|by rewrite H5|lia].
Qed.
Lemma only_unit_below i k f f' : only_unit k f f' → (i ≤ k)%nat → below i f f'.
Proof. intros (Hb & Hm & He) Hk. split_and!; auto. intros j Hj. apply Hb. lia. Qed.

Definition offsets_of (i j : nat) : list Z := map (λ k, Z.of_nat k * U) (seq i (j - i)).
Lemma offsets_snoc i j : (i ≤ j)%nat → offsets_of i j ++ [Z.of_nat j * U] = offsets_of i (S j).
Proof.
  intros Hj. unfold offsets_of. replace (S j - i)%nat with (S (j - i)) by lia.
  rewrite seq_S, map_app. simpl. do 3 f_equal. lia.
Qed.

(** The unit written, the units skipped before it, and what the partition holds. *)
Definition unit_done (ctx : WriteContext) (data : bytes) (f1 : Flash) (i : nat)
    (r : Z * WriteContext) (s : Sys MtdWorld) : Prop :=
  below i f1 (fl s) ∧ ∃ j, (i ≤ j)%nat ∧ ∃ fd,
    r.2 = mkWrite p (w_buffer ctx) (stored ctx) fd (bad_block_offsets ctx ++ offsets_of i j) ∧
    (r.1 = 0 → (j < N)%nat ∧ fd = Z.of_nat (S j) * U ∧
       (ecc_failed (fl s) dev = ecc_failed f1 dev → block (fl s) dev j = data)).

Lemma write_block_loop_ok f1 i data fuel : zlen data = U → ∀ k ctx,
  (i ≤ k ≤ N)%nat → (N - k < fuel)%nat → w_partition ctx = p →
  ttriple C (λ s, below i f1 (fl s)) (write_block_loop fuel ctx (Z.of_nat k * U) data)
    (λ r s, below i f1 (fl s) ∧ ∃ j, (k ≤ j)%nat ∧ ∃ fd,
       r.2 = mkWrite p (w_buffer ctx) (stored ctx) fd (bad_block_offsets ctx ++ offsets_of k j) ∧
       (r.1 = 0 → (j < N)%nat ∧ fd = Z.of_nat (S j) * U ∧
          (ecc_failed (fl s) dev = ecc_failed f1 dev → block (fl s) dev j = data)))
    (λ _, True).
Proof.
  intros Hl. induction fuel as [|fuel IH]; intros k ctx Hk Hf Hp; [lia|].
  assert (∀ ctx', (∃ fd, ctx' = mkWrite p (w_buffer ctx) (stored ctx) fd
        (bad_block_offsets ctx ++ [Z.of_nat k * U])) → (k < N)%nat →
    ttriple C (λ s, below i f1 (fl s)) (write_block_loop fuel ctx' (Z.of_nat (S k) * U) data)
    (λ r s, below i f1 (fl s) ∧ ∃ j, (k ≤ j)%nat ∧ ∃ fd,
       r.2 = mkWrite p (w_buffer ctx) (stored ctx) fd (bad_block_offsets ctx ++ offsets_of k j) ∧
       (r.1 = 0 → (j < N)%nat ∧ fd = Z.of_nat (S j) * U ∧
          (ecc_failed (fl s) dev = ecc_failed f1 dev → block (fl s) dev j = data)))
    (λ _, True)) as Hnext.
  { intros ctx' [fd0 ->] Hlt. eapply tt_conseq; [apply (IH (S k)); [lia|lia|done]|done| |done].
    intros r s (Hb & j & Hj & fd & -> & Hr). split; [done|]. exists j. split; [lia|]. exists fd.
    split; [|done]. simpl. f_equal. rewrite <- app_assoc. f_equal. unfold offsets_of.
    replace (j - k)%nat with (S (j - S k)) by lia. done. }
  cbn [write_block_loop]. rewrite Hp, size_ok, s32_size, next_pos. fold dev.
  apply tt_decide; intros Hin.
  2: { apply tt_ret. intros s Hs. split; [done|]. exists k. split; [lia|]. exists (w_fd ctx).
       unfold offsets_of. rewrite Nat.sub_diag, app_nil_r. split; [|done]. destruct ctx; simpl in *. by subst. }
  apply inside in Hin.
  eapply tt_bind with (Q' := λ _ s, below i f1 (fl s)); [by apply tt_ask|].
  intros ret. apply tt_decide; intros _.
  { apply Hnext; [|done]. exists (w_fd ctx). destruct ctx. simpl in *. by subst. }
  eapply tt_bind with (Q' := λ r s, below i f1 (fl s) ∧ ((r.1 : bool) → r.2 = Z.of_nat (S k) * U ∧
    (ecc_failed (fl s) dev = ecc_failed f1 dev → block (fl s) dev k = data))).
  { intros s cs Hcs Hs.
    pose proof (write_attempts_ok (fl s) k data 2 Hin Hl (w_fd ctx) s cs Hcs
      (only_unit_refl k (fl s))) as Hw.
    destruct (write_attempts 2 dev _ U (w_fd ctx) data s cs) as [r s' cs'|s'| |]; try done.
    destruct Hw as (? & Ho & Hr). split; [done|]. pose proof (only_unit_below i _ _ _ Ho ltac:(lia)).
    split; [by etrans|]. intros Hok. destruct (Hr Hok) as [? Hd]. split; [done|]. intros He.
    apply Hd. destruct Ho as (_ & _ & ?), Hs as (_ & _ & ?). lia. }
  intros [[] fd]; cbn [fst snd].
  - apply tt_ret. intros s [Hs Hr]. destruct (Hr I) as [-> Hd]. split; [done|]. exists k.
    split; [lia|]. exists (Z.of_nat (S k) * U). unfold offsets_of. rewrite Nat.sub_diag, app_nil_r.
    split; [destruct ctx; simpl in *; by subst|done].
  - eapply tt_bind with (Q' := λ _ s, below i f1 (fl s)).
    { apply tt_drive. intros c s s' r _ [Hs _] E%erase_unit; [|done]. etrans; [done|].
      eapply only_unit_below; [done|lia]. }
    intros _. apply Hnext; [|done]. exists fd. destruct ctx. simpl in *. by subst.
Qed.

Lemma write_block_loop_smooth f0 e data fuel : (∀ c, C c → smooth c) → zlen data = U → ∀ k ctx,
  (k ≤ N)%nat → (N - k < fuel)%nat → w_partition ctx = p →
  ttriple C (λ s, (∀ d j, bad (fl s) d j = bad f0 d j) ∧ ecc_failed (fl s) dev = e)
    (write_block_loop fuel ctx (Z.of_nat k * U) data)
    (λ r s, ecc_failed (fl s) dev = e ∧ match good_from f0 k with
            | [] => r.1 ≠ 0
            | j :: _ => r.1 = 0 ∧ w_fd r.2 = Z.of_nat (S j) * U
            end) (λ _, True).
Proof.
  intros Hsm Hl. induction fuel as [|fuel IH]; intros k ctx Hk Hf Hp; [lia|].
  cbn [write_block_loop]. rewrite Hp, size_ok, s32_size, next_pos. fold dev.
  apply tt_decide; intros Hin.
  2: { rewrite inside in Hin. replace k with N by lia. rewrite good_from_end. apply tt_ret. by intros s []. }
  apply inside in Hin. rewrite good_from_step by done.
  eapply tt_bind with (Q' := λ ret s, (0 ≤ ret.1 ∧ (ret.1 = 0 ↔ bad f0 dev k = false)) ∧
    (∀ d j, bad (fl s) d j = bad f0 d j) ∧ ecc_failed (fl s) dev = e).
  { apply tt_ask. intros c s Hc [Hs He]. split; [|done].
    destruct (get_bad_works (fl s) dev k c Hin (proj1 (Hsm c Hc))) as [Hg Hm]. rewrite <- Hs. split; assumption. }
  intros ret. apply tt_pure. intros [Hne Hret]. destruct (bad f0 dev k) eqn:Eb.
  - rewrite decide_True by naive_solver lia. apply IH; [lia..|]. by destruct ctx.
  - rewrite decide_False by naive_solver.
    eapply tt_bind with (Q' := λ r s, (r.1 : bool) ∧ r.2 = Z.of_nat (S k) * U ∧ ecc_failed (fl s) dev = e).
    { intros s cs Hcs [Hs He]. rewrite <- Hs in Eb.
      pose proof (tt_and _ _ _ _ _ _ _ _ (write_attempts_ok (fl s) k data 2 Hin Hl (w_fd ctx))
        (write_attempts_smooth (fl s) k data (w_fd ctx) 1 Hsm Hin Hl Eb) s cs Hcs
        (conj (only_unit_refl k (fl s)) (conj (only_unit_refl k (fl s)) eq_refl))) as Hw.
      destruct (write_attempts 2 dev _ U (w_fd ctx) data s cs) as [r s' cs'|s'| |]; try done.
      destruct Hw as (? & [_ Ho] & Hok & Hee). split; [done|]. split; [done|].
      split; [by apply Ho|congruence]. }
    intros [[] fd]; cbn [fst snd]; [|by intros s cs _ []]. apply tt_ret. intros s (_ & -> & He).
    split; [done|]. by destruct ctx.
Qed.

(** *** Closing after a failure

    Whatever the blocks hold and wherever the descriptor is, the calls end. *)
Lemma write_attempts_total n dev' pos size fd data : 0 ≤ pos → 0 ≤ fd →
  ttriple C (λ _, True) (write_attempts n dev' pos size fd data) (λ r _, 0 ≤ r.2) (λ _, True).
Proof.
  intros Hpos. revert fd. induction n as [|n IH]; intros fd Hfd; cbn [write_attempts]; [by apply tt_ret|].
  eapply tt_bind with (Q' := λ _ _, True); [by apply tt_drive|]. intros r.
  apply tt_decide; intros _; [by apply IH|].
  eapply tt_bind; [apply tt_lseek_set|]. intros r1. apply tt_pure. intros _.
  eapply tt_bind with (Q' := λ fd' _, 0 ≤ fd' ∧ True).
  { apply tt_decide; intros _; [by apply tt_ret|].
    eapply tt_bind with (Q' := λ _ _, True); [by apply tt_drive|]. intros w. apply tt_ret. lia. }
  intros fd'. apply tt_pure. intros Hfd'.
  eapply tt_bind; [apply tt_lseek_set|]. intros r2. apply tt_pure. intros _.
  apply tt_decide; intros _; [by apply IH|].
  eapply tt_bind with (Q' := λ _ _, True); [by apply tt_drive|]. intros v.
  pose proof (zlen_nonneg v). apply tt_decide; intros _; [apply IH; lia|].
  apply tt_decide; intros _; [apply IH; lia|]. apply tt_ret. intros _ _. cbn [snd]. lia.
Qed.

Lemma write_block_loop_total fuel data : ∀ ctx pos, w_partition ctx = p → 0 ≤ pos → 0 ≤ w_fd ctx →
  p_size p - pos < Z.of_nat fuel * U →
  ttriple C (λ _, True) (write_block_loop fuel ctx pos data) (λ r _, ∃ fd l, 0 ≤ fd ∧
    r.2 = mkWrite p (w_buffer ctx) (stored ctx) fd l) (λ _, True).
Proof.
  pose proof U_pos. pose proof described as (Hes & Hsz & _).
  induction fuel as [|fuel IH]; intros ctx pos Hp Hpos Hfd Hf; cbn [write_block_loop];
    rewrite Hp, size_ok, s32_size, <- Hsz; apply tt_decide; intros Hin.
  1: lia.
  1, 3: apply tt_ret; intros _ _; exists (w_fd ctx), (bad_block_offsets ctx); split; [done|];
    destruct ctx; simpl in *; by subst.
  assert (∀ ctx', w_partition ctx' = p → w_buffer ctx' = w_buffer ctx → stored ctx' = stored ctx →
    0 ≤ w_fd ctx' → ttriple C (λ _, True) (write_block_loop fuel ctx' (pos + erase_size p) data)
      (λ r _, ∃ fd l, 0 ≤ fd ∧ r.2 = mkWrite p (w_buffer ctx) (stored ctx) fd l) (λ _, True)) as Hnext.
  { intros ctx' Hp' <- <- Hfd'. apply IH; [done|lia|done|]. rewrite Hes. lia. }
  eapply tt_bind with (Q' := λ _ _, True); [by apply tt_ask|]. intros ret.
  apply tt_decide; intros _; [apply Hnext; by destruct ctx|].
  eapply tt_bind; [by apply write_attempts_total|]. intros [ok fd]. cbn [snd].
  apply (tt_fact _ _ (0 ≤ fd)); [done|]. intros Hfd'. destruct ok.
  - apply tt_ret. intros _ _. exists fd, (bad_block_offsets ctx). split; [done|].
    destruct ctx; simpl in *; by subst.
  - eapply tt_bind with (Q' := λ _ _, True); [by apply tt_drive|]. intros _.
    apply Hnext; by destruct ctx.
Qed.

Lemma write_block_total ctx data : w_partition ctx = p → 0 ≤ w_fd ctx →
  ttriple C (λ _, True) (write_block ctx data) (λ r _, ∃ fd l, 0 ≤ fd ∧
    r.2 = mkWrite p (w_buffer ctx) (stored ctx) fd l) (λ _, True).
Proof.
  intros Hp Hfd. pose proof U_pos. pose proof described as (_ & Hsz & _).
  assert (ttriple (D := MtdWorld) C (λ _, True) (mret (1, ctx)) (λ r _, ∃ fd l, 0 ≤ fd ∧
    r.2 = mkWrite p (w_buffer ctx) (stored ctx) fd l) (λ _, True)) as Hret.
  { apply tt_ret. intros _ _. exists (w_fd ctx), (bad_block_offsets ctx). split; [done|].
    destruct ctx; simpl in *; by subst. }
  unfold write_block. eapply tt_bind; [apply tt_lseek_cur|]. intros pos. apply tt_pure. intros _.
  apply tt_pure. intros Hpos. apply tt_decide; intros Hm1; [done|].
  eapply tt_bind; [apply tt_alloc|]. intros got. apply tt_pure. intros _.
  apply tt_decide; intros _; [done|]. rewrite Hp, fuel_ok.
  apply write_block_loop_total; lia || done.
Qed.

Lemma close_total ctx : usable ctx →
  ttriple C (λ _, True) (mtd_write_close ctx) (λ _ _, True) (λ _, True).
Proof.
  intros (Hp & Hbuf & Hs & Hfd). pose proof U_pos. pose proof described as (Hes & _ & _ & HU).
  unfold mtd_write_close, mtd_erase_blocks. rewrite Hp, Hes.
  eapply tt_bind with (Q' := λ _ _, True); [|intros [r c]; eapply tt_bind with (Q' := λ _ _, True);
    [by apply tt_choose|intros ch; by apply tt_ret]].
  eapply tt_bind with (Q' := λ _ _, True).
  { apply tt_decide; intros Hpend; [|by apply tt_ret]. rewrite size_t_id by lia.
    destruct (store_front (w_buffer ctx) (stored ctx) (replicate (Z.to_nat (U - stored ctx)) 0))
      as (buf & Eb & _ & _); [lia|unfold zlen; rewrite length_replicate; unfold zlen in *; lia|].
    eapply tt_get; [done|]. eapply tt_bind; [by apply write_block_total|]. intros [r c].
    by apply tt_ret. }
  intros [r c]. apply tt_decide; intros _; [by apply tt_ret|].
  eapply tt_bind; [apply tt_lseek_cur|]. intros pos. apply tt_pure. intros _. apply tt_pure. intros _.
  apply tt_decide; intros _; [by apply tt_ret|]. rewrite decide_False by lia. cbn zeta.
  rewrite (decide_False (P := 0 < 0)) by lia. apply tt_decide; intros _; [by apply tt_ret|].
  cbn [Z.to_nat erase_loop]. eapply tt_bind with (Q' := λ _ _, True); [by apply tt_ret|].
  intros pos'. by apply tt_ret.
Qed.

(** *** The invariant of a writing session

    The units written so far are in order in front of the descriptor, and hold [bs] unless
    a read failed since the start of the session in [f0]; with smooth choices they are
    the first good units. *)
Definition all_smooth : Prop := ∀ c, C c → smooth c.
Definition session (f0 : Flash) (bs : bytes) (ctx : WriteContext) (s : Sys MtdWorld) : Prop :=
  (∀ d j, bad (fl s) d j = bad f0 d j) ∧ ecc_failed f0 dev ≤ ecc_failed (fl s) dev ∧
  (all_smooth → ecc_failed (fl s) dev = ecc_failed f0 dev) ∧
  ∃ i us, (i ≤ N)%nat ∧ w_fd ctx = Z.of_nat i * U ∧
    StronglySorted lt us ∧ Forall (λ j, (j < i)%nat) us ∧ zlen bs = zlen us * U ∧
    (ecc_failed (fl s) dev = ecc_failed f0 dev → blocks (fl s) us = bs) ∧
    (all_smooth → good_from f0 0 = us ++ good_from f0 i).
Definition out_of_units (f0 : Flash) (bs : bytes) (_ : Sys MtdWorld) : Prop :=
  all_smooth → zlen bs = zlen (good_from f0 0) * U.

Lemma session_ctx f0 bs ctx ctx' s : session f0 bs ctx s → w_fd ctx' = w_fd ctx →
  bad_block_offsets ctx' = bad_block_offsets ctx → session f0 bs ctx' s.
Proof. unfold session. by intros Hs -> _. Qed.
Lemma session_fd f0 bs ctx s : session f0 bs ctx s → 0 ≤ w_fd ctx ≤ p_size p.
Proof.
  pose proof U_pos. intros (_ & _ & _ & i & us & Hi & -> & _).
  destruct described as (_ & -> & _). nia.
Qed.

Lemma blocks_below f f' i us : below i f f' → Forall (λ j, (j < i)%nat) us →
  blocks f' us = blocks f us.
Proof.
  intros (Hb & _) Hus. unfold blocks. f_equal. apply map_ext_Forall.
  eapply Forall_impl; [done|]. intros j Hj. by apply Hb.
Qed.
Lemma sorted_snoc us i j : StronglySorted lt us → Forall (λ k, (k < i)%nat) us → (i ≤ j)%nat →
  StronglySorted lt (us ++ [j]) ∧ Forall (λ k, (k < S j)%nat) (us ++ [j]).
Proof.
  intros Hs Hf Hj. split.
  - apply StronglySorted_app_2; [|done|repeat constructor].
    intros x y Hx ->%list_elem_of_singleton. eapply (Forall_forall _ us) in Hf; [|done]. lia.
  - apply Forall_app. split; [|repeat constructor; lia].
    eapply Forall_impl; [done|]. simpl. lia.
Qed.

(** One more unit. *)
Lemma session_step f0 bs b ctx s r s' i us :
  (∀ d j, bad (fl s) d j = bad f0 d j) → ecc_failed f0 dev ≤ ecc_failed (fl s) dev →
  (all_smooth → ecc_failed (fl s) dev = ecc_failed f0 dev) → zlen b = U →
  StronglySorted lt us → Forall (λ j, (j < i)%nat) us → zlen bs = zlen us * U →
  (ecc_failed (fl s) dev = ecc_failed f0 dev → blocks (fl s) us = bs) →
  (all_smooth → good_from f0 0 = us ++ good_from f0 i) → (i ≤ N)%nat →
  unit_done ctx b (fl s) i r s' → r.1 = 0 →
  (all_smooth → ecc_failed (fl s') dev = ecc_failed (fl s) dev ∧
     match good_from f0 i with [] => False | j :: _ => w_fd r.2 = Z.of_nat (S j) * U end) →
  session f0 (bs ++ b) r.2 s'.
Proof.
  intros Hbad He Hsm Hb Hsort Hlt Hlen Hbl Hgood Hi (Hbelow & j & Hj & fd & Er & Hr) Hr0 Hsm'.
  destruct (Hr Hr0) as (HjN & Hfd & Hd). pose proof Hbelow as (_ & Hbad' & He'). pose proof U_pos.
  split_and!; [intros; by rewrite Hbad'|lia|intros Ha; destruct (Hsm' Ha); by rewrite <- Hsm|].
  exists (S j), (us ++ [j]). destruct (sorted_snoc us i j Hsort Hlt Hj). split_and!; try done.
  - by rewrite Er.
  - rewrite !zlen_app, zlen_cons. change (zlen (@nil nat)) with 0. lia.
  - intros Hee. rewrite blocks_app, (blocks_below (fl s) _ i) by done.
    rewrite Hbl by lia. f_equal. unfold blocks. simpl. rewrite app_nil_r. apply Hd. lia.
  - intros Ha. destruct (Hsm' Ha) as [_ Hw]. rewrite (Hgood Ha), <- app_assoc. f_equal.
    destruct (good_from f0 i) as [|k ks] eqn:Eg; [done|].
    apply good_from_tail in Eg as [Hk ->]; [|done]. rewrite Er in Hw. simpl in Hw.
    assert (k = j) as -> by nia. done.
Qed.

Lemma write_block_session f0 bs b ctx : w_partition ctx = p → zlen b = U →
  ttriple C (session f0 bs ctx) (write_block ctx b)
    (block_written (session f0) (out_of_units f0) bs b ctx) (λ _, True).
Proof.
  intros Hp Hb. pose proof U_pos. unfold write_block.
  assert (∀ n, n ≠ 0 → (all_smooth → ∀ s, session f0 bs ctx s → False) →
    ttriple C (session f0 bs ctx) (mret (n, ctx))
      (block_written (session f0) (out_of_units f0) bs b ctx) (λ _, True)) as Hfail.
  { intros n Hn Hno. apply tt_ret. intros s Hs. split; [|right; split; [done|]].
    - pose proof (session_fd _ _ _ _ Hs) as [? _]. exists (w_fd ctx), (bad_block_offsets ctx).
      split; [done|]. destruct ctx. simpl in *. by subst.
    - intros Ha. by destruct (Hno Ha s Hs). }
  assert (all_smooth → ∀ c, C c → c ≠ 0) as Hnz by (intros Ha c ?%Ha; by apply smooth_nonzero).
  eapply tt_bind; [apply tt_lseek_cur|]. intros pos. apply tt_pure. intros Hpos. apply tt_pure.
  intros Hpos'. apply tt_decide; intros Hm1.
  { apply Hfail; [done|]. intros Ha s Hs%session_fd. rewrite Hpos in Hm1; [lia|auto]. }
  destruct Hpos' as [->|]; [|done].
  eapply tt_bind; [apply tt_alloc|]. intros got. apply tt_pure. intros Hgot.
  apply tt_decide; intros Hng.
  { apply Hfail; [done|]. intros Ha. specialize (Hgot (Hnz Ha)). congruence. }
  rewrite Hp, fuel_ok. intros s cs Hcs (Hbad & He & Hsm & i & us & Hi & Hfd & Hsort & Hlt & Hlen & Hbl & Hgood).
  rewrite Hfd. pose proof (write_block_loop_ok (fl s) i b (S N) Hb i ctx ltac:(lia) ltac:(lia) Hp s cs Hcs
    ltac:(by split_and!)) as Hl.
  assert (all_smooth → match write_block_loop (S N) ctx (Z.of_nat i * U) b s cs with
    | Ret r s' _ => ecc_failed (fl s') dev = ecc_failed (fl s) dev ∧
        match good_from f0 i with [] => r.1 ≠ 0 | j :: _ => r.1 = 0 ∧ w_fd r.2 = Z.of_nat (S j) * U end
    | _ => True end) as Hsmooth.
  { intros Ha. pose proof (write_block_loop_smooth f0 _ b (S N) Ha Hb i ctx Hi ltac:(lia) Hp s cs Hcs
      (conj Hbad eq_refl)) as Hl'.
    destruct (write_block_loop _ _ _ _ s cs) as [r s' cs'|s'| |]; try done. by destruct Hl'. }
  pose proof (write_block_loop_total (S N) b ctx (Z.of_nat i * U) Hp ltac:(lia) ltac:(lia)
    ltac:(destruct described as (_ & -> & _); lia) s cs Hcs I) as Hshape.
  destruct (write_block_loop (S N) ctx (Z.of_nat i * U) b s cs) as [r s' cs'|s'| |]; try done.
  destruct Hl as (? & Hdone), Hshape as [_ Hshape]. split; [done|].
  assert (unit_done ctx b (fl s) i r s') as Hunit by exact Hdone. split; [done|].
  clear Hdone Hshape.
  destruct (decide (r.1 = 0)) as [Hr0|Hr0]; [left|right]; (split; [done|]).
  - eapply (session_step f0 bs b ctx s r s' i us); try done.
    intros Ha. destruct (Hsmooth Ha) as [? Hg]. split; [done|].
    destruct (good_from f0 i); [done|]. by destruct Hg.
  - intros Ha. destruct (Hsmooth Ha) as [_ Hg]. rewrite (Hgood Ha).
    destruct (good_from f0 i) eqn:Eg; [|by destruct Hg]. by rewrite app_nil_r.
Qed.

(** Erasing behind the descriptor. *)
Lemma erase_loop_session f0 bs ctx n : w_fd ctx + Z.of_nat n * U ≤ p_size p →
  ttriple C (session f0 bs ctx) (erase_loop n p (w_fd ctx)) (λ pos s, 0 ≤ pos ∧ session f0 bs ctx s)
    (λ _, True).
Proof.
  intros Hroom. pose proof U_pos. pose proof described as (Hes & Hsz & _).
  assert (∀ n i k, (i ≤ k)%nat → (k + n ≤ N)%nat → w_fd ctx = Z.of_nat i * U →
    ttriple C (session f0 bs ctx) (erase_loop n p (Z.of_nat k * U)) (λ pos s, 0 ≤ pos ∧ session f0 bs ctx s)
      (λ _, True)) as Hloop.
  { clear n Hroom. induction n as [|n IH]; intros i k Hik Hk Hfd; cbn [erase_loop].
    { apply tt_ret. intros s Hs. split; [nia|done]. }
    rewrite next_pos. fold dev.
    eapply tt_bind with (Q' := λ r s, (all_smooth → 0 ≤ r.1 ∧ (r.1 = 0 ↔ bad f0 dev k = false)) ∧
      session f0 bs ctx s).
    { apply tt_ask. intros c s Hc Hs. split; [|done]. intros Ha.
      destruct (get_bad_works (fl s) dev k c ltac:(lia) (proj1 (Ha c Hc))) as [Hg Hm].
      destruct Hs as [Hbad _]. rewrite <- Hbad. split; assumption. }
    intros r. apply tt_pure. intros Hret. apply tt_decide; intros Hr; [apply (IH i); lia|].
    eapply tt_bind with (Q' := λ _, session f0 bs ctx); [|intros _; apply (IH i); lia].
    apply tt_drive. intros c s s' e Hc (Hbad & He & Hsm & i' & us & Hi' & Hfd' & Hsort & Hlt & Hlen & Hbl & Hgood) E.
    rewrite Hes in E. assert (i' = i) as -> by nia.
    assert (k < N)%nat as HkN by lia. destruct (erase_ok _ _ _ _ _ _ HkN E) as (_ & Hm & Hee & Hw).
    pose proof (only_unit_below i k _ _ (erase_unit k _ _ _ _ HkN E) Hik) as Hb.
    split_and!.
    - intros. by rewrite Hm.
    - specialize (Hee dev). lia.
    - intros Ha. destruct (Hret Ha) as [? Hg]. destruct (Hw (proj1 (Ha c Hc))) as (_ & _ & ->); [|auto].
      rewrite Hbad. apply Hg. lia.
    - exists i, us. split_and!; try done. intros Hx. rewrite (blocks_below (fl s) _ i) by done.
      apply Hbl. specialize (Hee dev). lia. }
  intros s cs Hcs Hs. pose proof Hs as (_ & _ & _ & i & us & Hi & Hfd & _).
  rewrite Hfd in *. apply (Hloop n i i); [lia|nia|done|done|done].
Qed.

(** *** Whole sessions *)
Definition accepted (f0 : Flash) (d : bytes) : WriteContext → Sys MtdWorld → Prop :=
  writing (session f0) d.
Lemma mtd_write_partition_ok f0 :
  ttriple C (λ s, fl s = f0) (mtd_write_partition p) (λ o s,
    match o with
    | Some ctx => stored ctx = 0 ∧ accepted f0 [] ctx s
    | None => ¬ all_smooth
    end) (λ _, True).
Proof.
  pose proof U_pos. pose proof described as (Hes & _). unfold mtd_write_partition.
  assert (all_smooth → ∀ c, C c → c ≠ 0) as Hnz by (intros Ha c ?%Ha; by apply smooth_nonzero).
  do 2 (eapply tt_bind; [apply tt_alloc|]; intros ?; apply tt_pure; intros ?; apply tt_decide; intros ?;
    [apply tt_ret; intros s _ Ha; naive_solver|]).
  eapply tt_bind with (Q' := λ b s, (all_smooth → b = true) ∧ fl s = f0).
  { apply tt_ask. intros c s Hc Hs. split; [|done]. intros Ha. apply open_works, Ha, Hc. }
  intros ok. apply tt_pure. intros Hok. apply tt_decide; intros Hn.
  { apply tt_ret. intros s _ Ha. specialize (Hok Ha). congruence. }
  apply tt_ret. intros s Hs. split; [done|]. unfold accepted, writing. cbn [w_partition w_buffer stored].
  rewrite Hes. split_and!; [done|unfold zlen; rewrite length_replicate; lia|lia..|].
  exists []. split; [done|]. rewrite <- Hs. split_and!; [done|done|done|].
  exists 0%nat, []. split_and!; try done; [lia|constructor].
Qed.

(** The units for the padded data; [d] without the padding. *)
Lemma padded f0 d ctx s : writing (session f0) d ctx s → stored ctx < U →
  ∃ m, zlen (d ++ padding ctx) = m * U ∧ zlen (padding ctx) < U ∧ Forall (λ b, b = 0) (padding ctx).
Proof.
  pose proof U_pos. intros (_ & Hbuf & Hs & bs & -> & (_ & _ & _ & i & us & _ & _ & _ & _ & Hlen & _)) Hst.
  unfold padding. rewrite !zlen_app, Hlen.
  assert (zlen (take (Z.to_nat (stored ctx)) (w_buffer ctx)) = stored ctx) as ->
    by (unfold zlen in *; rewrite length_take; lia).
  case_decide.
  - assert (zlen (replicate (Z.to_nat (U - stored ctx)) 0) = U - stored ctx) as ->
      by (unfold zlen; rewrite length_replicate; lia).
    exists (zlen us + 1). split_and!; [lia|lia|]. by apply Forall_replicate.
  - exists (zlen us). change (zlen (@nil Z)) with 0. split_and!; [lia|lia|constructor].
Qed.
Lemma enough_room f0 d ctx s : no_room (out_of_units f0) d ctx s → all_smooth →
  zlen (good_from f0 0) * U < zlen d.
Proof.
  pose proof U_pos. intros (_ & bs & b & Hb & [k ->] & Hfull) Ha. specialize (Hfull Ha).
  rewrite !zlen_app. pose proof (zlen_nonneg k). lia.
Qed.

(** There is no room for [d]. *)
Definition too_big (f0 : Flash) (d : bytes) : Prop := all_smooth → zlen (good_from f0 0) * U < zlen d.

Lemma session_write_data f0 d more ctx : zlen more ≤ INT_MAX → stored ctx < U →
  ttriple C (accepted f0 d ctx) (mtd_write_data ctx more)
    (λ r s, r.1 = zlen more ∧ accepted f0 (d ++ more) r.2 s ∧ stored r.2 < U ∨
            r.1 = -1 ∧ usable r.2 ∧ too_big f0 (d ++ more)) (λ _, True).
Proof.
  intros Hl Hst. pose proof U_pos. eapply tt_conseq;
    [apply (mtd_write_data_ok C (session f0) (out_of_units f0) (session_ctx f0)
       (write_block_session f0)); done|done| |done].
  intros r s [?|[? (Hus & bs & b & Hb & [k E] & Hfull)]]; [by left|right].
  split_and!; [done|done|]. intros Ha.
  specialize (Hfull Ha). rewrite E, !zlen_app. pose proof (zlen_nonneg k). lia.
Qed.

(** Failing to write the padded data means that there is no room for the data. *)
Lemma no_room_padded f0 d ctx s s' : accepted f0 d ctx s → stored ctx < U →
  ((∀ c, C c → c ≠ 0) → ∃ ctx', no_room (out_of_units f0) (d ++ padding ctx) ctx' s') → too_big f0 d.
Proof.
  intros Hw Hst Hno Ha. pose proof U_pos. destruct (padded _ _ _ _ Hw Hst) as (m & Hm & Hp & _).
  assert (∀ c, C c → c ≠ 0) as Hnz by (intros c ?%Ha; by apply smooth_nonzero).
  destruct (Hno Hnz) as [ctx' Hnr]. pose proof (enough_room f0 _ ctx' s' Hnr Ha) as Hlt.
  set (g := zlen (good_from f0 0)) in *. assert (g + 1 ≤ m) by nia.
  rewrite zlen_app in Hm. nia.
Qed.
Lemma accepted_fits f0 d ctx s : accepted f0 d ctx s → stored ctx = 0 → all_smooth → ¬ too_big f0 d.
Proof.
  intros (_ & _ & _ & bs & -> & (_ & _ & _ & i & us & _ & _ & _ & _ & Hlen & _ & Hg)) -> Ha Hbig.
  specialize (Hbig Ha). rewrite take_0, app_nil_r, Hlen, (Hg Ha), zlen_app in Hbig. pose proof U_pos.
  pose proof (zlen_nonneg (good_from f0 i)). nia.
Qed.

Lemma session_erase_blocks f0 d ctx blocks : blocks ≤ 0 → stored ctx < U →
  ttriple C (accepted f0 d ctx) (mtd_erase_blocks ctx blocks)
    (λ r s, 0 ≤ r.1 ∧ stored r.2 = 0 ∧ (∃ pad, zlen pad < U ∧ Forall (λ b, b = 0) pad ∧
              accepted f0 (d ++ pad) r.2 s) ∨
            r.1 < 0 ∧ usable r.2 ∧ too_big f0 d) (λ _, True).
Proof.
  intros Hb Hst s cs Hcs Hw.
  pose proof (mtd_erase_blocks_ok C (session f0) (out_of_units f0) (session_fd f0) (session_ctx f0)
    (erase_loop_session f0) (write_block_session f0) d ctx blocks Hb Hst s cs Hcs Hw) as He.
  destruct (mtd_erase_blocks ctx blocks s cs) as [r s' cs'|s'| |]; try done.
  destruct He as (? & He). split; [done|]. destruct (padded _ _ _ _ Hw Hst) as (m & _ & Hp & Hz).
  destruct He as [(? & ? & ?)|(? & ? & Hno)]; [left|right].
  - split_and!; [done..|]. by exists (padding ctx).
  - split_and!; [lia|done|]. eapply no_room_padded; eauto.
Qed.

Lemma session_close f0 d ctx : stored ctx < U →
  ttriple C (accepted f0 d ctx) (mtd_write_close ctx)
    (λ r s, r = 0 ∧ (∃ pad ctx', zlen pad < U ∧ Forall (λ b, b = 0) pad ∧
              (stored ctx = 0 → pad = []) ∧ session f0 (d ++ pad) ctx' s) ∨
            r = -1 ∧ too_big f0 d) (λ _, True).
Proof.
  intros Hst s cs Hcs Hw.
  pose proof (mtd_write_close_ok C (session f0) (out_of_units f0) (session_fd f0) (session_ctx f0)
    (erase_loop_session f0) (write_block_session f0) d ctx Hst s cs Hcs Hw) as He.
  destruct (mtd_write_close ctx s cs) as [r s' cs'|s'| |]; try done.
  destruct He as (? & He). split; [done|]. destruct (padded _ _ _ _ Hw Hst) as (m & _ & Hp & Hz).
  destruct He as [(? & ctx' & ?)|[? Hno]]; [left|right].
  - split; [done|]. exists (padding ctx), ctx'. split_and!; try done.
    intros E. unfold padding. by rewrite decide_False by lia.
  - split; [done|]. by eapply no_room_padded.
Qed.

Lemma mtd_read_partition_ok f0 : all_smooth →
  ttriple C (λ s, fl s = f0) (mtd_read_partition p) (λ o s,
    ∃ ctx, o = Some ctx ∧ consumed ctx = U ∧ reading f0 [] ctx s) (λ _, True).
Proof.
  intros Ha. pose proof U_pos. pose proof described as (Hes & _). unfold mtd_read_partition.
  assert (∀ c, C c → c ≠ 0) as Hnz by (intros c ?%Ha; by apply smooth_nonzero).
  do 2 (eapply tt_bind; [apply tt_alloc|]; intros ?; apply tt_pure; intros Hgot; rewrite (Hgot Hnz),
    decide_False by done; clear Hgot).
  eapply tt_bind with (Q' := λ b s, b = true ∧ fl s = f0).
  { apply tt_ask. intros c s Hc Hs. split; [|done]. apply open_works, Ha, Hc. }
  intros ok. apply tt_pure. intros ->. rewrite decide_False by done.
  apply tt_ret. intros s Hs. eexists. split; [done|]. split; [done|].
  unfold reading. cbn [r_partition r_buffer consumed r_fd]. rewrite Hes, Hs.
  split_and!; try done; try lia; [by right|]. exists 0%nat, []. split_and!; try done; [lia|].
  by rewrite drop_nil.
Qed.
End units.
End partition.
End laws.
