(* ===== verification/FlashPatch.v ===== *)
(** Patching raw flash partitions: [applypatch.c] on top of [mtdutils.c].

    [ApplyPatch] is proved against the interface [Mtd]; here the interface is the
    implementation of [MtdUtils], and the driver any that keeps its laws. *)
From stdpp Require Import sorting.
From S2P Require Import Prelude CLib Bytes Bz2 ZlibSha BsPatch ImgPatch World Mtd Cache ApplyPatch.
From S2P Require Import MtdUtils MtdSession.

(** * What the utilities leave alone *)
Create HintDb frame.
Section frame.
Context `{Abi} `{!MtdDriver}.

(** An assertion that does not look at the flash memory. *)
Definition off_flash (R : Sys MtdWorld → Prop) : Prop :=
  ∀ s f, R s → R (set_mtd (λ w, mkMtdWorld (g_mtd_state w) f) s).
Context (R : Sys MtdWorld → Prop).
Hypothesis HR : off_flash R.

Lemma keeps_ask {A} (f : Flash → Z → A) : keeps R (ask f).
Proof. unfold ask. keeps_tac. Qed.
Lemma keeps_drive {A} (f : Flash → Z → A * Flash) : keeps R (drive f).
Proof. unfold drive. keeps_tac. apply keeps_update. intros s. apply (HR s). Qed.
Lemma keeps_alloc : keeps R alloc.
Proof. unfold alloc. keeps_tac. Qed.
Lemma keeps_lseek_cur fd : keeps R (lseek_cur fd).
Proof. unfold lseek_cur. keeps_tac. Qed.
Lemma keeps_lseek_set pos : keeps R (mtd_lseek_set pos).
Proof. unfold mtd_lseek_set. keeps_tac. Qed.

#[local] Hint Resolve keeps_ret keeps_lift keeps_choose keeps_ask keeps_drive keeps_alloc
  keeps_lseek_cur keeps_lseek_set : frame.
Ltac frame_tac :=
  repeat (cbn beta iota zeta; first
    [ solve [auto with frame nocore] | apply keeps_bind; [|intro] | apply keeps_decide
    | match goal with |- keeps _ (match ?x with _ => _ end) => destruct x end ]).

Lemma keeps_read_partition p : keeps R (mtd_read_partition p).
Proof. unfold mtd_read_partition. frame_tac. Qed.
Lemma keeps_read_block p fd : keeps R (read_block p fd).
Proof.
  assert (∀ fuel before pos fd, keeps R (read_block_loop fuel p before pos fd)).
  { induction fuel as [|fuel IH]; intros; cbn [read_block_loop]; frame_tac. }
  unfold read_block. frame_tac.
Qed.
#[local] Hint Resolve keeps_read_block : frame.
Lemma keeps_read_data ctx len : keeps R (mtd_read_data ctx len).
Proof.
  assert (∀ fuel ctx len data, keeps R (read_whole fuel ctx len data)) as Hw.
  { induction fuel as [|fuel IH]; intros; cbn [read_whole]; frame_tac. }
  unfold mtd_read_data. generalize (S (S (Z.to_nat len))) (@nil Z). intros fuel.
  revert ctx. induction fuel as [|fuel IH]; intros; cbn [read_loop]; frame_tac.
Qed.
Lemma keeps_write_partition p : keeps R (mtd_write_partition p).
Proof. unfold mtd_write_partition. frame_tac. Qed.
Lemma keeps_write_block ctx data : keeps R (write_block ctx data).
Proof.
  assert (∀ n dev pos size fd, keeps R (write_attempts n dev pos size fd data)).
  { induction n as [|n IH]; intros; cbn [write_attempts]; frame_tac. }
  assert (∀ fuel ctx pos, keeps R (write_block_loop fuel ctx pos data)).
  { induction fuel as [|fuel IH]; intros; cbn [write_block_loop]; frame_tac. }
  unfold write_block. frame_tac.
Qed.
#[local] Hint Resolve keeps_write_block : frame.
Lemma keeps_write_data ctx data : keeps R (mtd_write_data ctx data).
Proof.
  assert (∀ fuel ctx wrote, keeps R (write_whole fuel ctx data wrote)) as Hw.
  { induction fuel as [|fuel IH]; intros; cbn [write_whole]; frame_tac. }
  unfold mtd_write_data. generalize (S (Z.to_nat (zlen data))) 0. intros fuel. revert ctx.
  induction fuel as [|fuel IH]; intros; cbn [mtd_write_loop]; frame_tac.
Qed.
Lemma keeps_erase_blocks ctx blocks : keeps R (mtd_erase_blocks ctx blocks).
Proof.
  assert (∀ n p pos, keeps R (erase_loop n p pos)).
  { induction n as [|n IH]; intros; cbn [erase_loop]; frame_tac. }
  unfold mtd_erase_blocks. frame_tac.
Qed.
#[local] Hint Resolve keeps_erase_blocks : frame.
Lemma keeps_write_close ctx : keeps R (mtd_write_close ctx).
Proof. unfold mtd_write_close. frame_tac. Qed.
Lemma keeps_read_close ctx : keeps R (mtd_read_close ctx).
Proof. unfold mtd_read_close. frame_tac. Qed.
End frame.

(** * Writing a partition *)
Section patch.
Context `{Abi} `{!MtdDriver} `{!MtdDriverLaws _} (C : Z → Prop).
Context (p : Partition) (name target : string) (rest : list string) (g : MtdState).
Hypothesis described : well_described p.
Hypothesis named : strtok target = "MTD" :: name :: rest.
Hypothesis found : (ps ← partitions g; snd <$> list_find (is_named name) ps) = Some p.
Notation fl s := (flash (mtd s)).

(** The partitions have been scanned, with the result [g]. *)
Definition scanned (s : Sys MtdWorld) : Prop :=
  mtd_partitions_scanned s = true ∧ g_mtd_state (mtd s) = g.
Lemma scanned_off_flash : off_flash scanned.
Proof. intros [] f [Hs Hg]. by split. Qed.

(** [d] and zeros up to the end of a unit are in the units [us]. *)
Definition holds_image (f0 : Flash) (d : bytes) (s : Sys MtdWorld) : Prop :=
  ∃ us pad, StronglySorted lt us ∧ Forall (λ j, (j < units (device_index p))%nat) us ∧
    Forall (λ b, b = 0) pad ∧ zlen pad < unit_size (device_index p) ∧
    (ecc_failed (fl s) (device_index p) = ecc_failed f0 (device_index p) →
     blocks p (fl s) us = d ++ pad) ∧
    (all_smooth C → us `prefix_of` good_from p f0 0 ∧
       ecc_failed (fl s) (device_index p) = ecc_failed f0 (device_index p)) ∧
    (∀ e j, bad (fl s) e j = bad f0 e j).

Lemma session_holds f0 d pad ctx s : session p C f0 (d ++ pad) ctx s → Forall (λ b, b = 0) pad →
  zlen pad < unit_size (device_index p) → holds_image f0 d s.
Proof.
  intros (Hbad & _ & Hsm & i & us & Hi & _ & Hsort & Hlt & _ & Hbl & Hg) Hz Hp.
  exists us, pad. split_and!; try done.
  - eapply Forall_impl; [done|]. simpl. lia.
  - intros Ha. split; [|auto]. rewrite (Hg Ha). by apply prefix_app_r.
Qed.

Lemma with_frame {A} P (m : io MtdWorld A) Q : ttriple C P m Q (λ _, True) → keeps scanned m →
  ttriple C (λ s, P s ∧ scanned s) m (λ a s, Q a s ∧ scanned s) (λ _, True).
Proof.
  intros Hm Hk. eapply tt_conseq; [apply (tt_ct _ _ _ _ _ _ _ _ Hm Hk)|done|done|done].
Qed.

Lemma scan_skip P {A} (f : unit → io MtdWorld A) Q :
  ttriple C (λ s, P s ∧ scanned s) (f tt) Q (λ _, True) →
  ttriple C (λ s, P s ∧ scanned s)
    (scan ← read_sys mtd_partitions_scanned;
     x ← (if (scan : bool) then mret tt else _ ← Mtd.mtd_scan_partitions; update_sys (set_scanned true));
     f x) Q (λ _, True).
Proof.
  intros Hf s cs Hcs [HP [Hs Hg]].
  erewrite (io_bind_ret _ _ s) by reflexivity. rewrite Hs.
  erewrite (io_bind_ret _ _ s) by reflexivity. by apply Hf.
Qed.
Lemma find_ok P {A} (f : option Partition → io MtdWorld A) Q :
  ttriple C (λ s, P s ∧ scanned s) (f (Some p)) Q (λ _, True) →
  ttriple C (λ s, P s ∧ scanned s) (m ← mtd_find_partition_by_name name; f m) Q (λ _, True).
Proof.
  intros Hf s cs Hcs [HP [Hs Hg]]. erewrite (io_bind_ret _ _ s); [by apply Hf|].
  unfold mtd_find_partition_by_name. erewrite (io_bind_ret _ _ s) by reflexivity.
  by rewrite Hg, found.
Qed.

Lemma write_flash_ok f0 d : zlen d ≤ INT_MAX →
  ttriple C (λ s, fl s = f0 ∧ scanned s) (WriteToPartition d target)
    (λ r s, (r = 0 ∧ holds_image f0 d s ∨ r = -1 ∧ too_big p C f0 d) ∧ scanned s) (λ _, True).
Proof.
  intros Hd. unfold WriteToPartition. rewrite named. cbn [head tail].
  eapply tt_get; [done|]. rewrite decide_True by done. apply scan_skip, find_ok.
  pose proof scanned_off_flash as Hoff. pose proof (unit_positive (device_index p)) as HU.
  eapply tt_bind; [apply with_frame; [by apply mtd_write_partition_ok|by apply keeps_write_partition]|].
  intros [ctx|]; [|apply tt_ret; intros s [Hn ?]; split; [|done]; right; split; [done|]; by intros ?].
  eapply tt_conseq with (P' := λ s, stored ctx = 0 ∧ accepted p C f0 [] ctx s ∧ scanned s);
    [|by intros s [[? ?] ?]|intros ? ? Hx; exact Hx|done].
  apply tt_pure. intros Hst.
  assert (∀ c, too_big p C f0 d → usable p c →
    ttriple C scanned (_ ← mtd_write_close c; mret (-1)) (λ r s,
      (r = 0 ∧ holds_image f0 d s ∨ r = -1 ∧ too_big p C f0 d) ∧ scanned s) (λ _, True)) as Hfail.
  { intros c Hbig Hus. eapply tt_bind with (Q' := λ _, scanned).
    - eapply tt_conseq; [apply (with_frame (λ _, True)); [by apply (close_total p described C)|by apply keeps_write_close]
        | | |]; naive_solver.
    - intros r. apply tt_ret. auto. }
  eapply tt_bind; [apply with_frame; [apply session_write_data; done || lia|by apply keeps_write_data]|].
  intros [written ctx1]. cbn [fst snd app]. apply tt_decide; intros Hw.
  { intros s cs Hcs [[(? & _)|(_ & Hus & Hbig)] Hsc]; [done|]. by apply Hfail. }
  apply (tt_fact _ _ (stored ctx1 < unit_size (device_index p))).
  { pose proof (zlen_nonneg d). intros s [[(_ & _ & ?)|[? _]] _]; lia. }
  intros Hst1.
  eapply tt_conseq with (P' := λ s, accepted p C f0 d ctx1 s ∧ scanned s);
    [|pose proof (zlen_nonneg d); intros s [[(_ & ? & _)|[? _]] ?]; [done|lia]
     |intros ? ? Hx; exact Hx|done].
  eapply tt_bind; [apply with_frame; [apply (session_erase_blocks p described C f0 d ctx1 (-1)); lia|
    by apply keeps_erase_blocks]|].
  intros [r ctx2]. cbn [fst snd]. apply tt_decide; intros Hr.
  { intros s cs Hcs [[(? & _)|(_ & Hus & Hbig)] Hsc]; [lia|]. by apply Hfail. }
  eapply tt_conseq with (P' := λ s, ∃ pad, (stored ctx2 = 0 ∧ zlen pad < unit_size (device_index p) ∧
      Forall (λ b, b = 0) pad) ∧ accepted p C f0 (d ++ pad) ctx2 s ∧ scanned s);
    [| |intros ? ? Hx; exact Hx|done].
  2: { intros s [[(_ & ? & pad & ? & ? & ?)|[? _]] ?]; [|lia]. by exists pad. }
  apply tt_exists. intros pad. apply tt_pure. intros (Hst2 & Hpl & Hpz).
  apply (tt_fact _ _ (all_smooth C → ¬ too_big p C f0 (d ++ pad))).
  { intros s [Ha _] Hall. by eapply accepted_fits. }
  intros Hfits.
  eapply tt_bind; [apply with_frame; [apply session_close; done || lia|by apply keeps_write_close]|].
  intros r'. apply tt_ret. intros s [[(-> & pad' & c & _ & _ & Hpad' & Hs)|[-> Hbig]] Hsc].
  - rewrite decide_False by auto. split; [|done]. left. split; [done|].
    rewrite (Hpad' Hst2), app_nil_r in Hs. by eapply session_holds.
  - rewrite decide_True by done. split; [|done]. right. split; [done|]. intros Hall. by destruct (Hfits Hall).
Qed.
End patch.

(** * Reading it back *)
Section load.
Context `{Abi} `{Sha} `{!ShaLaws _} `{!MtdDriver} `{!MtdDriverLaws _}.
Context (p : Partition) (name target size_str sha_str : string) (g : MtdState) (d : bytes).
Hypothesis described : well_described p.
Hypothesis named : strtok target = ["MTD"; name; size_str; sha_str].
Hypothesis one_pair : count_colons target = 3.
Hypothesis found : (ps ← partitions g; snd <$> list_find (is_named name) ps) = Some p.
Hypothesis size_ok : (strtol size_str).1 = zlen d.
Hypothesis sha_ok : ParseSha1 sha_str = Some (SHA d).
Hypothesis d_size : 0 < zlen d ≤ INT_MAX.
Notation fl s := (flash (mtd s)).

Lemma load_flash_ok f1 file : d `prefix_of` contents p f1 →
  ttriple smooth (λ s, fl s = f1 ∧ scanned g s) (LoadPartitionContents target file)
    (λ r s, r.1 = 0 ∧ data r.2 = Some d) (λ _, True).
Proof.
  intros Hpre. unfold LoadPartitionContents. rewrite named, one_pair. cbn [head tail].
  eapply tt_get; [done|]. rewrite decide_True by done. change (Z.to_nat ((3 - 1) / 2)) with 1%nat.
  assert (read_pairs 1 [size_str; sha_str] = Done (Some [(zlen d, Some sha_str)])) as ->.
  { cbn [read_pairs]. rewrite size_ok, size_t_id by lia. by rewrite decide_False by lia. }
  eapply tt_lift_bind; [done|]. cbn -[mtd_read_partition match_prefix].
  eapply tt_bind with (Q' := λ o s, ∃ ctx : ReadContext, o = Some (@MtdDev MtdWorld mtdutils ctx) ∧ reading p f1 [] ctx s).
  { unfold open_partition. apply scan_skip. eapply tt_lift_bind; [done|]. eapply find_ok; [done|].
    eapply tt_bind.
    - eapply tt_conseq; [apply (mtd_read_partition_ok p described smooth f1); by intros c| | |done].
      + by intros s [? _].
      + intros ? ? Hx. exact Hx.
    - intros o. apply tt_ret. intros s (ctx & -> & _ & Hr). by exists ctx. }
  intros o. apply tt_exists. intros ctx. apply tt_pure. intros ->.
  eapply tt_lift_bind; [done|].
  eapply tt_bind with (Q' := λ r s, r = inl (d, SHA_update SHA_init d) ∧ True).
  2: { intros r. apply tt_pure. intros ->. cbn beta iota.
       eapply tt_bind with (Q' := λ _ _, True); [|intros u; by apply tt_ret].
       cbn. unfold mtd_read_close. eapply tt_bind with (Q' := λ _ _, True);
         [by apply tt_choose|intros; by apply tt_ret]. }
  cbn [match_prefix]. change (zlen []) with 0. rewrite Z.sub_0_r, size_t_id, decide_True by lia.
  eapply tt_bind with (Q' := λ r s, r.1 = d ∧ True).
  { unfold read_device. eapply tt_bind; [apply (mtd_read_data_ok p described f1 [] (zlen d) ctx); lia|].
    intros [[n bs] ctx']. cbn [fst snd]. apply tt_ret. cbn [fst].
    intros s [(-> & Hl & Hr)|[_ Hshort]]; (split; [|done]).
    - rewrite take_ge by (unfold zlen in *; lia). apply reading_prefix in Hr.
      destruct Hpre as [k Ek], Hr as [k' Ek']. simpl in Ek'. rewrite Ek in Ek'.
      by apply app_inj_1 in Ek' as [? _]; [|unfold zlen in *; lia].
    - destruct Hpre as [k Ek]. rewrite Ek, zlen_app in Hshort. change (zlen []) with 0 in Hshort.
      pose proof (zlen_nonneg k). lia. }
  intros [bs dev]. cbn [fst]. apply tt_pure. intros ->. rewrite decide_False by lia.
  rewrite (decide_True (P := 0 < zlen d)) by lia.
  eapply tt_lift_bind; [done|]. rewrite sha_ok. fold (SHA d). rewrite memcmp_refl, decide_True by done.
  cbn [app]. apply tt_ret. done.
Qed.
End load.

(** * Properties *)
Section properties.
Context `{Abi} `{Sha} `{!ShaLaws _} `{!MtdDriver} `{!MtdDriverLaws _}.
Notation fl s := (flash (mtd s)).

(** C31: A reported success is a stored image: whatever calls of the driver fail, writing
    a partition by [WriteToPartition] on top of [mtdutils.c] never crashes and always ends, and
    when it returns 0 and no read has failed its error correction meanwhile, the data, padded
    with zeros, are in erase units of the partition in increasing order. *)
Theorem reported_image_is_stored (p : Partition) name target rest (s : Sys MtdWorld) cs d :
  well_described p → strtok target = "MTD" :: name :: rest → zlen d ≤ INT_MAX →
  mtd_partitions_scanned s = true →
  (ps ← partitions (g_mtd_state (mtd s)); snd <$> list_find (is_named name) ps) = Some p →
  match WriteToPartition d target s cs with
  | Ret r s' _ => r = -1 ∨ (r = 0 ∧
      (ecc_failed (fl s') (device_index p) = ecc_failed (fl s) (device_index p) →
       ∃ us pad, StronglySorted lt us ∧ Forall (λ j, (j < units (device_index p))%nat) us ∧
         Forall (λ b, b = 0) pad ∧ zlen pad < unit_size (device_index p) ∧
         blocks p (fl s') us = d ++ pad))
  | Stop _ => True
  | Crashed | Hung => False
  end.
Proof.
  intros Hp Hn Hd Hs Hf.
  pose proof (write_flash_ok (λ _, True) p name target rest _ Hp Hn Hf (fl s) d Hd s cs
    ltac:(by apply Forall_true) ltac:(by split)) as Hw.
  destruct (WriteToPartition d target s cs) as [r s' cs'|s'| |]; try done.
  destruct Hw as (_ & [(-> & us & pad & ? & ? & ? & ? & Hb & _)|[-> _]] & _); [right|by left].
  split; [done|]. intros He. exists us, pad. split_and!; auto.
Qed.

End properties.

(** ** An example: a device of five units of [u] bytes, with pages of [page] bytes *)
Record ram := mkRam { ram_bad : list nat; ram_cells : gmap nat bytes }.
Definition ram_set (i : nat) (b : bytes) (f : ram) : ram :=
  mkRam (ram_bad f) (<[i := b]> (ram_cells f)).
Section ram.
Context (u : nat) (page : Z) (proc_mtd : string).
Definition ram_cell (f : ram) (i : nat) : bytes :=
  take u (default [] (ram_cells f !! i) ++ replicate u 0).
Definition ram_unit (pos : Z) : nat := Z.to_nat (pos / Z.of_nat u).

Definition ram_driver_of : MtdDriver := {|
  Flash := ram;
  drv_proc_mtd _ _ := Some proc_mtd;
  drv_open _ _ c := bool_decide (c ≠ 0);
  drv_info _ _ _ := Some (5 * Z.of_nat u, Z.of_nat u, page);
  drv_ecc_stats _ _ c := if decide (c = 0) then None else Some (0, 0);
  drv_get_bad f dev pos c :=
    if decide (c = 0) then (-1, 5) else (if decide (ram_unit pos ∈ ram_bad f) then 1 else 0, 0);
  drv_erase f dev pos len c :=
    if decide (dev = 0 ∧ c ≠ 0 ∧ ram_unit pos ∉ ram_bad f)
    then (0, ram_set (ram_unit pos) (replicate u 255) f) else (-1, f);
  drv_read f dev pos n c := (if decide (c = 0) then [] else ram_cell f (ram_unit pos), f);
  drv_write f dev pos data c :=
    if decide (dev = 0 ∧ c ≠ 0 ∧ ram_unit pos ∉ ram_bad f)
    then (zlen data, ram_set (ram_unit pos) data f) else (-1, f)
|}.

Context (u_pos : 0 < Z.of_nat u).
Lemma ram_unit_at i : ram_unit (Z.of_nat i * Z.of_nat u) = i.
Proof. unfold ram_unit. rewrite Z.div_mul by lia. lia. Qed.
Lemma ram_cell_length f i : zlen (ram_cell f i) = Z.of_nat u.
Proof. unfold ram_cell, zlen. rewrite length_take, length_app, length_replicate. lia. Qed.
Lemma ram_cell_set_eq f i b : zlen b = Z.of_nat u → ram_cell (ram_set i b f) i = b.
Proof.
  intros Hb. unfold ram_cell, ram_set. simpl. rewrite lookup_insert_eq. simpl.
  rewrite take_app_le by (unfold zlen in *; lia). apply take_ge. unfold zlen in *. lia.
Qed.
Lemma ram_cell_set_ne f i j b : i ≠ j → ram_cell (ram_set i b f) j = ram_cell f j.
Proof. intros Hij. unfold ram_cell, ram_set. simpl. by rewrite lookup_insert_ne. Qed.

Definition ram_block (f : ram) (dev : Z) (i : nat) : bytes :=
  if decide (dev = 0) then ram_cell f i else replicate u 0.
Lemma ram_block_set f i b d j : (d, j) ≠ (0, i) → ram_block (ram_set i b f) d j = ram_block f d j.
Proof.
  intros Hn. unfold ram_block. case_decide as Hd; [|done]. apply ram_cell_set_ne.
  intros ->. by rewrite Hd in Hn.
Qed.

Lemma at_dev (dev : Z) (i : nat) : (i < (if decide (dev = 0%Z) then 5 else 0))%nat → dev = 0 ∧ (i < 5)%nat.
Proof. case_decide; lia. Qed.

Definition ram_laws_of : MtdDriverLaws ram_driver_of.
Proof.
  refine {| unit_size _ := Z.of_nat u; units dev := if decide (dev = 0) then 5%nat else 0%nat;
    block (f : Flash (MtdDriver := ram_driver_of)) dev i := ram_block f dev i;
    bad (f : Flash (MtdDriver := ram_driver_of)) _ i := bool_decide (i ∈ ram_bad f);
    erased _ _ _ := True; ecc_failed _ _ := 0; works c := c ≠ 0 |};
    cbn -[ram_block ram_cell ram_unit ram_set replicate Z.mul]; try done.
  - intros f dev i Hi. apply at_dev in Hi as [-> _]. apply ram_cell_length.
  - intros f dev c Hw. by rewrite bool_decide_eq_true.
  - intros f dev c k e. case_decide; naive_solver.
  - intros f dev c Hw. rewrite decide_False by done. by eexists.
  - intros f dev i c Hi. rewrite ram_unit_at. repeat case_decide; cbn; by rewrite ?bool_decide_eq_false.
  - intros f dev i c _ Hw. rewrite ram_unit_at, decide_False, bool_decide_eq_false by done.
    case_decide; cbn; (split; [split; intros; done || lia|lia]).
  - intros f dev i c bs f' [-> Hi]%at_dev [= <- <-]. rewrite ram_unit_at.
    case_decide; cbn -[ram_block ram_cell Z.of_nat]; rewrite ?ram_cell_length; split_and!; try done; change (zlen []) with 0; lia.
  - intros f dev i c bs f' [-> Hi]%at_dev Hw [= <- <-]. by rewrite decide_False, ram_cell_length.
  - intros f dev i c r f' [-> Hi]%at_dev. rewrite ram_unit_at, bool_decide_eq_false.
    case_decide; intros [= <- <-]; split_and!; try done; [intros; by apply ram_block_set|naive_solver].
  - intros f dev i bs c r f' [-> Hi]%at_dev Hl. rewrite ram_unit_at, bool_decide_eq_false.
    case_decide; intros [= <- <-]; split_and!; try done; [intros; by apply ram_block_set| |naive_solver].
    intros _ _ _. split_and!; try done. by apply ram_cell_set_eq.
Defined.
End ram.

Definition quote : string := String (ascii_of_nat 34) EmptyString.
#[export] Instance ram_driver : MtdDriver := ram_driver_of 4 4 (String.concat quote
    ["dev:    size   erasesize  name
mtd0: 00000014 00000004 "; "boot"; "
"]).
#[export] Instance ram_laws : MtdDriverLaws ram_driver.
Proof. apply ram_laws_of. lia. Defined.

Definition boot_partition : Partition := mkPartition 0 20 4 (Some "boot"%string).
Definition boot_data : bytes := [7; 1; 2; 3; 4; 5; 6].
Definition boot_target : string :=
  ("MTD:boot:7:" ++ sha1_text (SHA boot_data))%string.
Definition boot_device : Sys MtdWorld :=
  mkSys ∅ ∅ (mkMtdWorld (mkMtdState (Some [boot_partition]) 1) (mkRam [1; 3]%nat ∅)) true ∅ [].

#[local] Existing Instance abi32.

Lemma reported_image_is_stored_witness :
  match WriteToPartition boot_data boot_target boot_device (replicate 50 1) with
  | Ret r s' _ => r = -1 ∨ (r = 0 ∧
      (ecc_failed (flash (mtd s')) (device_index boot_partition) =
         ecc_failed (flash (mtd boot_device)) (device_index boot_partition) →
       ∃ us pad, StronglySorted lt us ∧
         Forall (λ j, (j < units (device_index boot_partition))%nat) us ∧
         Forall (λ b, b = 0) pad ∧ zlen pad < unit_size (device_index boot_partition) ∧
         blocks boot_partition (flash (mtd s')) us = boot_data ++ pad))
  | Stop _ => True
  | Crashed | Hung => False
  end.
Proof.
  apply (reported_image_is_stored boot_partition "boot" boot_target
    ["7"; sha1_text (SHA boot_data)]%string boot_device (replicate 50 1) boot_data).
  - by repeat (split; [by vm_compute|]).
  - by vm_compute.
  - by vm_compute.
  - done.
  - by vm_compute.
Defined.

