(* ===== verification/BootMessage.v ===== *)
(** The boot control block: [bootloader.c], and what [recovery.c] keeps in it.

    The block tells the boot loader to start the recovery, and the recovery what to do;
    it is on a block device or in the second page of a flash partition.  The type of the flash memory,
    a global of [flashutils.c], is passed as the state of the caller. *)
From S2P Require Import Prelude CLib Bytes World Mtd Volumes.

(** * The message *)
Record bootloader_message := mkMessage { command : bytes; status : bytes; recovery : bytes }.
Definition COMMAND : Z := 32.
Definition RECOVERY : Z := 1024.
Definition MESSAGE : Z := 1088.
Definition zero_bytes (n : Z) : bytes := replicate (Z.to_nat n) 0.
Definition no_message : bootloader_message := mkMessage (zero_bytes COMMAND) (zero_bytes COMMAND) (zero_bytes RECOVERY).
(** The memory of the structure. *)
Definition message_bytes (m : bootloader_message) : bytes := command m ++ status m ++ recovery m.
Definition bytes_message (b : bytes) : bootloader_message :=
  mkMessage (take 32 b) (take 32 (drop 32 b)) (drop 64 b).
Definition set_recovery (r : bytes) (m : bootloader_message) : bootloader_message :=
  mkMessage (command m) (status m) r.

(** [strlcpy] and [strlcat] into the whole array; the text ends with the zero byte they write. *)
Definition strlcpy (dst src : bytes) : bytes :=
  let n := Z.to_nat (Z.min (zlen src) (zlen dst - 1)) in
  take n src ++ 0 :: drop (S n) dst.
Definition strlcat (dst src : bytes) : bytes :=
  let i := zlen (c_string dst) in
  if decide (i = zlen dst) then dst else
  let n := Z.to_nat (Z.min (zlen src) (zlen dst - 1 - i)) in
  take (Z.to_nat i) dst ++ take n src ++ 0 :: drop (Z.to_nat i + S n) dst.

(** [strtok] in an array, from where the last call stopped: the token, the part passed, with a zero byte
    for the delimiter behind the token, and the part where the next call begins. *)
Fixpoint tok_skip (delims : list Z) (l : bytes) : bytes * bytes :=
  match l with
  | b :: l' => if decide (b ∈ delims) then let '(p, r) := tok_skip delims l' in (b :: p, r) else ([], l)
  | [] => ([], [])
  end.
Fixpoint tok_word (delims : list Z) (l : bytes) : bytes * bytes :=
  match l with
  | b :: l' => if decide (b ∈ delims ∨ b = 0) then ([], l) else let '(t, r) := tok_word delims l' in (b :: t, r)
  | [] => ([], [])
  end.
Definition strtok_mem (delims : list Z) (l : bytes) : run (option bytes * bytes * bytes) :=
  let '(p, r) := tok_skip delims l in
  let '(t, r) := tok_word delims r in
  match r with
  | [] => Fault
  | b :: r' => if decide (t = []) then Done (None, p, r)
               else if decide (b = 0) then Done (Some t, p ++ t, r) else Done (Some t, p ++ t ++ [0], r')
  end.
Definition newlines : list Z := [10].
Definition RECOVERY_WORD : bytes := bytes_of_string "recovery".
Definition MAX_ARGS : Z := 100.

(** The loop that takes at most [n] more arguments from the block: the arguments, and the array. *)
Fixpoint boot_tokens (n : nat) (rest : bytes) : run (list bytes * bytes) :=
  match n with
  | O => Done ([], rest)
  | S n =>
      '(arg, passed, rest) ← strtok_mem newlines rest;
      match arg with
      | None => Done ([], passed ++ rest)
      | Some arg => '(args, buf) ← boot_tokens n rest; Done (arg :: args, passed ++ buf)
      end
  end.
(** The arguments in the block, and the block as [strtok] leaves it. *)
Definition boot_args (argv : list bytes) (boot : bootloader_message) : run (list bytes * bootloader_message) :=
  let r := take 1023 (recovery boot) ++ [0] in
  '(arg, passed, rest) ← strtok_mem newlines r;
  match arg with
  | Some arg =>
      if decide (arg = RECOVERY_WORD) then
        '(args, buf) ← boot_tokens (Z.to_nat (MAX_ARGS - 1)) rest;
        Done (arg :: args, set_recovery (passed ++ buf) boot)
      else Done (argv, set_recovery (passed ++ rest) boot)
  | None => Done (argv, set_recovery (passed ++ rest) boot)
  end.

(** The arguments in the command file: one for each line that is not empty; the loop runs until there are
    100 with the name of the program. *)
Fixpoint command_tokens (fuel : nat) (n : nat) (text : string) : run (list bytes) :=
  match n, text with
  | S n', String _ _ =>
      match fuel with
      | O => OutOfFuel
      | S fuel =>
          let '(line, rest) := fgets_line 4095 text in
          match (next_token [13; 10] (until_nul line)).1 with
          | Some token => args ← command_tokens fuel n' rest; Done (bytes_of_string token :: args)
          | None => command_tokens fuel n rest
          end
      end
  | _, _ => Done []
  end.

(** The message written back. *)
Definition write_args (args : list bytes) (boot : bootloader_message) : bootloader_message :=
  let boot := mkMessage (strlcpy (command boot) (bytes_of_string "boot-recovery")) (status boot)
                (strlcpy (recovery boot) (RECOVERY_WORD ++ [10])) in
  set_recovery (foldl (λ r arg, strlcat (strlcat r arg) [10]) (recovery boot) args) boot.

(** * Devices *)
Section devices.
Context {D : Type} `{!Mtd D}.

(** The first bytes of a block device, or of a file where there is no device of that name. *)
Definition device_contents (path : string) (s : Sys D) : option bytes :=
  match emmc s !! path with Some d => Some d | None => f_data <$> files s !! path end.
(** [fopen] for writing and for appending: whether it succeeds; a file that is not there is made. *)
Definition open_with (keep : bytes → bytes) (path : string) : io D bool :=
  c ← choose;
  if decide (c = 0) then mret false else
  _ ← update_sys (set_files (partial_alter (λ f, Some
        (match f with
         | Some f => mkFile (keep (f_data f)) (f_mode f) (f_uid f) (f_gid f)
         | None => mkFile [] 438 0 0
         end)) path));
  mret true.
Definition sys_append : string → io D bool := open_with (λ d, d).
Definition sys_fopen_w : string → io D bool := open_with (λ _, []).
(** [access(path, F_OK) == 0]. *)
Definition sys_exists (path : string) : io D bool :=
  c ← choose; read_sys (λ s, if decide (c = 0) then false else bool_decide (is_Some (device_contents path s))).

Definition UNSUPPORTED : Z := -1.
Definition UNKNOWN : Z := 0.
Definition FLASH_TYPE_MTD : Z := 1.
Definition FLASH_TYPE_MMC : Z := 2.
Definition FLASH_TYPE_BML : Z := 3.
Definition BOARD_BML_BOOT : string := "/dev/block/bml7".
(** [the_flash_type] before and after. *)
Definition device_flash_type (the_flash_type : Z) : io D Z :=
  if decide (the_flash_type ≠ UNKNOWN) then mret the_flash_type else
  bml ← sys_exists BOARD_BML_BOOT;
  if (bml : bool) then mret FLASH_TYPE_BML else
  emmc ← sys_exists "/proc/emmc";
  if (emmc : bool) then mret FLASH_TYPE_MMC else
  mtd ← sys_exists "/proc/mtd";
  mret (if (mtd : bool) then FLASH_TYPE_MTD else UNSUPPORTED).

(** ** Flash partitions *)
Definition MISC_PAGES : Z := 3.
Definition MISC_COMMAND_PAGE : Z := 1.

(** The front of both functions: the partition, the size of a page and the three pages. *)
Definition read_misc (v : Volume) : io D (option (MtdPartition * Z * bytes)) :=
  _ ← mtd_scan_partitions;
  device ← lift (access (device v));
  part ← mtd_find_partition_by_name device;
  match part with
  | None => mret None
  | Some part =>
      info ← mtd_partition_info part;
      match info with
      | None => mret None
      | Some (_, _, write_size) =>
          read ← mtd_read_partition part;
          match read with
          | None => mret None
          | Some read =>
              let size := write_size * MISC_PAGES in
              '(r, data, read) ← mtd_read_data read size;
              _ ← mtd_read_close read;
              mret (if decide (r ≠ size) then None else Some (part, write_size, data))
          end
      end
  end.
(** 0 or -1, and [*out]. *)
Definition get_bootloader_message_mtd (out : bootloader_message) (v : Volume) : io D (Z * bootloader_message) :=
  misc ← read_misc v;
  match misc with
  | None => mret (-1, out)
  | Some (_, write_size, data) =>
      b ← lift (access (zslice data (write_size * MISC_COMMAND_PAGE) MESSAGE));
      mret (0, bytes_message b)
  end.
Definition set_bootloader_message_mtd (in_ : bootloader_message) (v : Volume) : io D Z :=
  misc ← read_misc v;
  match misc with
  | None => mret (-1)
  | Some (part, write_size, data) =>
      data ← lift (access (store data (write_size * MISC_COMMAND_PAGE) (message_bytes in_)));
      write ← mtd_write_partition part;
      match write with
      | None => mret (-1)
      | Some write =>
          '(written, write) ← mtd_write_data write data;
          if decide (written ≠ write_size * MISC_PAGES) then _ ← mtd_write_close write; mret (-1) else
          r ← mtd_write_close write;
          mret (if decide (r ≠ 0) then -1 else 0)
      end
  end.

(** ** Block devices *)
Fixpoint wait_for_device (tries : nat) (fn : string) : io D unit :=
  match tries with
  | O => mret tt
  | S tries => ok ← sys_exists fn; if (ok : bool) then mret tt else wait_for_device tries fn
  end.
(** [fclose]: whether it succeeds. *)
Definition sys_fclose : io D bool := c ← choose; mret (bool_decide (c ≠ 0)).

Definition get_bootloader_message_block (out : bootloader_message) (v : Volume) : io D (Z * bootloader_message) :=
  fn ← lift (access (device v));
  _ ← wait_for_device 10 fn;
  c ← choose;
  f ← read_sys (λ s, if decide (c = 0) then None else device_contents fn s);
  match f with
  | None => mret (-1, out)
  | Some data =>
      temp ← sys_read data MESSAGE;
      if decide (zlen temp ≠ MESSAGE) then mret (-1, out) else
      ok ← sys_fclose;
      mret (if ok : bool then (0, bytes_message temp) else (-1, out))
  end.
(** [fopen] for writing creates a file where there is no device. *)
Definition set_bootloader_message_block (in_ : bootloader_message) (v : Volume) : io D Z :=
  fn ← lift (access (device v));
  _ ← wait_for_device 10 fn;
  dev ← read_sys (λ s, bool_decide (is_Some (emmc s !! fn)));
  f ← (if (dev : bool) then c ← choose; mret (bool_decide (c ≠ 0)) else sys_fopen_w fn);
  if negb f then mret (-1) else
  count ← (if (dev : bool) then write_emmc fn (message_bytes in_) else sys_write fn (message_bytes in_));
  if decide (count ≠ MESSAGE) then mret (-1) else
  ok ← sys_fclose;
  mret (if ok : bool then 0 else -1).

Definition get_bootloader_message (vols : list Volume) (out : bootloader_message) : io D (Z * bootloader_message) :=
  match volume_for_path vols "/misc" with
  | None => mret (-1, out)
  | Some v => if decide (fs_type v = "mtd"%string) then get_bootloader_message_mtd out v
              else if decide (fs_type v = "emmc"%string) then get_bootloader_message_block out v
              else mret (-1, out)
  end.
Definition set_bootloader_message (vols : list Volume) (in_ : bootloader_message) : io D Z :=
  match volume_for_path vols "/misc" with
  | None => mret (-1)
  | Some v => if decide (fs_type v = "mtd"%string) then set_bootloader_message_mtd in_ v
              else if decide (fs_type v = "emmc"%string) then set_bootloader_message_block in_ v
              else mret (-1)
  end.

(** * The arguments of the recovery *)
Context `{Kernel}.
Definition COMMAND_FILE : string := "/cache/recovery/command".
Definition IGNORE_FILE : string := "/tmp/.ignorebootmessage".

(** [fopen_path] for reading: the contents. *)
Definition fopen_path_r (fuel : nat) (vols : list Volume) (path : string) (w : Mounts)
    : io D (option bytes * Mounts) :=
  '(r, w) ← ensure_path_mounted fuel vols path w;
  if decide (r ≠ 0) then mret (None, w) else
  f ← sys_stat path; mret (f_data <$> f, w).

Definition command_args (fuel : nat) (vols : list Volume) (argv : list bytes) (w : Mounts)
    : io D (list bytes * Mounts) :=
  '(fp, w) ← fopen_path_r fuel vols COMMAND_FILE w;
  match fp with
  | None => mret (argv, w)
  | Some data =>
      argv0 ← lift (access (head argv));
      data ← sys_read data (zlen data);
      let text := string_of_bytes data in
      args ← lift (command_tokens (S (String.length text)) (Z.to_nat (MAX_ARGS - 1)) text);
      mret (argv0 :: args, w)
  end.

(** [get_args] up to where the arguments are known; [*argc] is the length of [argv]. *)
Definition collect_args (fuel : nat) (vols : list Volume) (argv : list bytes) (the_flash_type : Z) (w : Mounts)
    : io D (list bytes * bootloader_message * Z * Mounts) :=
  type ← device_flash_type the_flash_type;
  boot ← (if decide (type = FLASH_TYPE_MTD ∨ type = FLASH_TYPE_MMC)
          then '(_, boot) ← get_bootloader_message vols no_message; mret boot else mret no_message);
  '(argv, boot) ← (if decide (zlen argv ≤ 1) then
                     file_info ← sys_exists IGNORE_FILE;
                     if (file_info : bool) then mret (argv, boot) else lift (boot_args argv boot)
                   else mret (argv, boot));
  '(argv, w) ← (if decide (zlen argv ≤ 1) then command_args fuel vols argv w else mret (argv, w));
  mret (argv, boot, type, w).
Definition get_args (fuel : nat) (vols : list Volume) (argv : list bytes) (the_flash_type : Z) (w : Mounts)
    : io D (list bytes * Z * Mounts) :=
  '(argv, boot, type, w) ← collect_args fuel vols argv the_flash_type w;
  _ ← set_bootloader_message vols (write_args (tail argv) boot);
  mret (argv, type, w).

Definition set_sdcard_update_bootloader_message (vols : list Volume) : io D unit :=
  _ ← set_bootloader_message vols (write_args [] no_message); mret tt.

(** * Finishing *)
Definition INTENT_FILE : string := "/cache/recovery/intent".
Definition LOG_FILE : string := "/cache/recovery/log".
Definition LAST_LOG_FILE : string := "/sdcard/cotrecovery/recovery_log".
Definition TEMPORARY_LOG_FILE : string := "/tmp/recovery.log".

(** [fopen_path] for writing: whether the file is open; the directories above it are made.  With [append] what is there
    stays. *)
Definition fopen_path_w (fuel : nat) (vols : list Volume) (path : string) (append : bool) (w : Mounts)
    : io D (bool * Mounts) :=
  '(r, w) ← ensure_path_mounted fuel vols path w;
  if decide (r ≠ 0) then mret (false, w) else
  _ ← choose;
  ok ← (if append then sys_append path else sys_fopen_w path);
  mret (ok, w).

(** What [fgets] and [fputs] copy: a zero byte hides the rest of its line. *)
Fixpoint copied_lines (fuel : nat) (text : string) : run string :=
  match text with
  | EmptyString => Done EmptyString
  | _ =>
      match fuel with
      | O => OutOfFuel
      | S fuel => let '(line, rest) := fgets_line 4095 text in
                  t ← copied_lines fuel rest; Done (until_nul line +:+ t)
      end
  end.
(** [tmplog_offset] before and after. *)
Definition copy_log_file (fuel : nat) (vols : list Volume) (destination : string) (append : bool)
    (tmplog_offset : Z) (w : Mounts) : io D (Z * Mounts) :=
  '(log, w) ← fopen_path_w fuel vols destination append w;
  if negb log then mret (tmplog_offset, w) else
  tmplog ← sys_stat TEMPORARY_LOG_FILE;
  match tmplog with
  | None => mret (tmplog_offset, w)
  | Some f =>
      let rest := if append then drop (Z.to_nat tmplog_offset) (f_data f) else f_data f in
      data ← sys_read rest (zlen rest);
      let text := string_of_bytes data in
      out ← lift (copied_lines (S (String.length text)) text);
      _ ← sys_write destination (bytes_of_string out);
      mret (if append then tmplog_offset + zlen data else tmplog_offset, w)
  end.

(** [finish_recovery] up to the message: the intent and the logs. *)
Definition write_logs (fuel : nat) (vols : list Volume) (send_intent : option bytes) (tmplog_offset : Z) (w : Mounts)
    : io D (Z * Mounts) :=
  w ← match send_intent with
      | None => mret w
      | Some intent =>
          '(fp, w) ← fopen_path_w fuel vols INTENT_FILE false w;
          _ ← (if (fp : bool) then sys_write INTENT_FILE intent else mret 0);
          mret w
      end;
  '(tmplog_offset, w) ← copy_log_file fuel vols LOG_FILE true tmplog_offset w;
  '(tmplog_offset, w) ← copy_log_file fuel vols LAST_LOG_FILE false tmplog_offset w;
  _ ← sys_chmod LAST_LOG_FILE 416;
  mret (tmplog_offset, w).
(** The end of it: whether the command file is gone. *)
Definition remove_command (fuel : nat) (vols : list Volume) (w : Mounts) : io D (bool * Mounts) :=
  '(r, w) ← ensure_path_mounted fuel vols COMMAND_FILE w;
  if decide (r ≠ 0) then mret (false, w) else
  r ← sys_unlink COMMAND_FILE; mret (bool_decide (r = 0), w).
Definition finish_recovery (fuel : nat) (vols : list Volume) (send_intent : option bytes) (tmplog_offset : Z)
    (w : Mounts) : io D (Z * Mounts) :=
  '(tmplog_offset, w) ← write_logs fuel vols send_intent tmplog_offset w;
  _ ← set_bootloader_message vols no_message;
  '(_, w) ← remove_command fuel vols w;
  mret (tmplog_offset, w).

(** * Updates for the boot loader *)
Definition UPDATE_MAGIC : bytes := bytes_of_string "MSM-RADIO-UPDATE".
Definition UPDATE_VERSION : Z := 65536.
Record update_header := mkUpdate {
  uh_MAGIC : bytes; uh_version : Z; uh_size : Z; uh_image_offset : Z; uh_image_length : Z;
  uh_bitmap_width : Z; uh_bitmap_height : Z; uh_bitmap_bpp : Z;
  uh_busy_bitmap_offset : Z; uh_busy_bitmap_length : Z; uh_fail_bitmap_offset : Z; uh_fail_bitmap_length : Z
}.
Definition no_update : update_header := mkUpdate (zero_bytes 16) 0 0 0 0 0 0 0 0 0 0 0.
Definition header_bytes (h : update_header) : bytes :=
  uh_MAGIC h ++ flat_map set4LE [uh_version h; uh_size h; uh_image_offset h; uh_image_length h;
    uh_bitmap_width h; uh_bitmap_height h; uh_bitmap_bpp h; uh_busy_bitmap_offset h; uh_busy_bitmap_length h;
    uh_fail_bitmap_offset h; uh_fail_bitmap_length h].
Definition update_header_size : Z := 60.

(** [mtd_write_data] from memory that may be a null pointer: whether all was written. *)
Definition write_memory (ctx : MtdWriteContext) (mem : option bytes) (len : Z) : io D (bool * MtdWriteContext) :=
  data ← lift (access (match mem with
                       | Some b => zslice b 0 len
                       | None => if decide (len = 0) then Some [] else None
                       end));
  '(n, ctx) ← mtd_write_data ctx data; mret (bool_decide (n = len), ctx).
(** Closes the context and fails. *)
Definition close_failed (ctx : MtdWriteContext) : io D Z := _ ← mtd_write_close ctx; mret (-1).

(** The second pass: the header with everything it refers to. *)
Definition rewrite_header (part : MtdPartition) (header : update_header) (image_start_pos : Z) : io D Z :=
  write ← mtd_write_partition part;
  match write with
  | None => mret (-1)
  | Some write =>
      '(ok, write) ← write_memory write (Some (header_bytes header)) update_header_size;
      if negb ok then close_failed write else
      '(pos, write) ← mtd_erase_blocks write 0;
      if decide (pos ≠ image_start_pos) then close_failed write else
      r ← mtd_write_close write; mret (if decide (r ≠ 0) then -1 else 0)
  end.

(** An offset is compared with -1 before it is set: each is 0 there. *)
Definition write_update_for_bootloader (fuel : nat) (vols : list Volume) (update : bytes) (update_length : Z)
    (bitmap_width bitmap_height bitmap_bpp : Z) (busy_bitmap fail_bitmap : option bytes) (w : Mounts)
    : io D (Z * Mounts) :=
  '(r, w) ← ensure_path_unmounted fuel vols "/cache" w;
  if decide (r ≠ 0) then mret (-1, w) else
  part ← mtd_find_partition_by_name "cache";
  match part with
  | None => mret (-1, w)
  | Some part =>
      write ← mtd_write_partition part;
      match write with
      | None => mret (-1, w)
      | Some write =>
          '(ok, write) ← write_memory write (Some (header_bytes no_update)) update_header_size;
          if negb ok then r ← close_failed write; mret (r, w) else
          '(image_start_pos, write) ← mtd_erase_blocks write 0;
          '(ok, write) ← write_memory write (Some update) update_length;
          if negb ok then r ← close_failed write; mret (r, w) else
          '(busy_start_pos, write) ← mtd_erase_blocks write 0;
          let image_offset := mtd_find_write_start write image_start_pos in
          let bitmap_length := Z.quot (bitmap_bpp + 7) 8 * bitmap_width * bitmap_height in
          _ ← lift (access (if decide (in_s 32 (bitmap_bpp + 7) ∧ in_s 32 (Z.quot (bitmap_bpp + 7) 8 * bitmap_width) ∧ in_s 32 bitmap_length) then Some tt else None));
          '(ok, write) ← write_memory write busy_bitmap bitmap_length;
          if negb ok then r ← close_failed write; mret (r, w) else
          '(fail_start_pos, write) ← mtd_erase_blocks write 0;
          let busy_offset := mtd_find_write_start write busy_start_pos in
          '(ok, write) ← write_memory write fail_bitmap bitmap_length;
          if negb ok then r ← close_failed write; mret (r, w) else
          '(_, write) ← mtd_erase_blocks write 0;
          let fail_offset := mtd_find_write_start write fail_start_pos in
          let length_of (b : option bytes) := match b with Some _ => u32 bitmap_length | None => 0 end in
          let header := mkUpdate UPDATE_MAGIC UPDATE_VERSION update_header_size (u32 image_offset) (u32 update_length)
            (u32 bitmap_width) (u32 bitmap_height) (u32 bitmap_bpp) (u32 busy_offset) (length_of busy_bitmap)
            (u32 fail_offset) (length_of fail_bitmap) in
          r ← mtd_write_close write;
          if decide (r ≠ 0) then mret (-1, w) else
          r ← rewrite_header part header image_start_pos; mret (r, w)
      end
  end.

(** A missing bitmap is read all the same. *)
Lemma missing_bitmap_overrun ctx len s cs : len ≠ 0 → write_memory ctx None len s cs = Crashed.
Proof. intros Hl. unfold write_memory. by rewrite decide_False. Qed.
End devices.

(** * The text of the block *)
Definition arg_ok (a : bytes) : Prop := a ≠ [] ∧ Forall (λ b, b ≠ 0 ∧ b ≠ 10) a.
#[export] Instance arg_ok_dec a : Decision (arg_ok a).
Proof. unfold arg_ok. apply _. Defined.
Definition encode (args : list bytes) : bytes := RECOVERY_WORD ++ [10] ++ concat (map (λ a, a ++ [10]) args).
(** They fit, with the zero byte behind them, and there are not too many. *)
Definition args_ok (args : list bytes) : Prop :=
  Forall arg_ok args ∧ zlen (encode args) < RECOVERY ∧ zlen args < MAX_ARGS.
Definition sized (m : bootloader_message) : Prop :=
  zlen (command m) = COMMAND ∧ zlen (status m) = COMMAND ∧ zlen (recovery m) = RECOVERY.

Lemma strlcpy_fits dst src : zlen src < zlen dst → strlcpy dst src = src ++ 0 :: drop (S (length src)) dst.
Proof.
  intros Hl. unfold strlcpy. rewrite Z.min_l by lia. unfold zlen. by rewrite Nat2Z.id, firstn_all.
Qed.
Lemma zlen_strlcpy dst src : 0 < zlen dst → zlen (strlcpy dst src) = zlen dst.
Proof.
  intros Hd. unfold strlcpy. pose proof (zlen_nonneg src). rewrite zlen_app, zlen_cons.
  unfold zlen in *. rewrite length_take, length_drop. lia.
Qed.
Lemma c_string_upto t r : Forall (λ b, b ≠ 0) t → c_string (t ++ 0 :: r) = t.
Proof. induction 1 as [|b t Hb _ IH]; [done|]. cbn. rewrite decide_False by done. by rewrite IH. Qed.
Lemma strlcat_fits t r src : Forall (λ b, b ≠ 0) t → zlen src ≤ zlen r →
  strlcat (t ++ 0 :: r) src = (t ++ src) ++ 0 :: drop (length src) r.
Proof.
  intros Ht Hl. unfold strlcat. rewrite c_string_upto by done. pose proof (zlen_nonneg r).
  rewrite decide_False by (rewrite zlen_app, zlen_cons; lia).
  rewrite Z.min_l by (rewrite zlen_app, zlen_cons; lia). unfold zlen. rewrite !Nat2Z.id, take_app_length, firstn_all.
  rewrite <- app_assoc. do 3 f_equal. rewrite drop_app_ge by lia.
  by replace (length t + S (length src) - length t)%nat with (S (length src)) by lia.
Qed.
Lemma zlen_strlcat dst src : zlen (strlcat dst src) = zlen dst.
Proof.
  unfold strlcat. case_decide as Hd; [done|]. pose proof (zlen_nonneg src). pose proof (zlen_nonneg (c_string dst)).
  assert (zlen (c_string dst) ≤ zlen dst).
  { clear. induction dst as [|b dst IH]; [done|]. cbn. case_decide; rewrite !zlen_cons || rewrite zlen_cons; unfold zlen in *; simpl; lia. }
  rewrite !zlen_app, zlen_cons. unfold zlen in *. rewrite !length_take, length_drop. lia.
Qed.
Lemma arg_nonzero a : arg_ok a → Forall (λ b, b ≠ 0) a.
Proof. intros [_ Ha]. eapply Forall_impl; [exact Ha|]. by intros b []. Qed.

(** What is written back. *)
Lemma write_args_text args boot : sized boot → Forall arg_ok args → zlen (encode args) < RECOVERY →
  ∃ r, recovery (write_args args boot) = encode args ++ 0 :: r.
Proof.
  intros (_ & _ & Hr) Ha Hl. unfold write_args. cbn [set_recovery recovery].
  assert (∀ args t r, Forall arg_ok args → Forall (λ b, b ≠ 0) t → zlen (concat (map (λ a, a ++ [10]) args)) ≤ zlen r →
    ∃ r', foldl (λ r arg, strlcat (strlcat r arg) [10]) (t ++ 0 :: r) args =
          (t ++ concat (map (λ a, a ++ [10]) args)) ++ 0 :: r') as Hfold.
  { clear. induction args as [|a args IH]; intros t r Ha Ht Hl; [exists r; by rewrite app_nil_r|].
    apply Forall_cons in Ha as [Ha Has]. cbn [map concat foldl] in *. rewrite !zlen_app in Hl.
    pose proof (zlen_nonneg (concat (map (λ a, a ++ [10]) args))). change (zlen [10]) with 1 in Hl. pose proof (arg_nonzero a Ha).
    rewrite strlcat_fits by (done || lia).
    rewrite strlcat_fits by ((by apply Forall_app) || (change (zlen [10]) with 1; unfold zlen in *; rewrite length_drop; lia)).
    destruct (IH ((t ++ a) ++ [10]) (drop 1 (drop (length a) r)) Has) as [r' E].
    - rewrite !Forall_app. split_and!; try done. by repeat constructor.
    - unfold zlen in *. rewrite !length_drop. lia.
    - exists r'. cbn [length]. rewrite E. by rewrite <- !app_assoc. }
  unfold encode in Hl. rewrite !zlen_app in Hl. change (zlen RECOVERY_WORD) with 8 in Hl. change (zlen [10]) with 1 in Hl.
  pose proof (zlen_nonneg (concat (map (λ a, a ++ [10]) args))). unfold RECOVERY in *.
  rewrite strlcpy_fits by (rewrite zlen_app; change (zlen RECOVERY_WORD) with 8; change (zlen [10]) with 1; lia).
  edestruct (Hfold args (RECOVERY_WORD ++ [10])) as [r E]; [done|by repeat constructor| |exists r; rewrite E; by rewrite <- !app_assoc].
  unfold zlen in *. rewrite length_drop, length_app. change (length RECOVERY_WORD) with 8%nat. simpl length. lia.
Qed.
Lemma write_args_sized args boot : sized boot → sized (write_args args boot).
Proof.
  intros (Hc & Hs & Hr). unfold write_args, sized. cbn [set_recovery command status recovery].
  assert (∀ l r, zlen r = RECOVERY → zlen (foldl (λ r arg, strlcat (strlcat r arg) [10]) r l) = RECOVERY) as Hf.
  { clear. induction l as [|a l IH]; intros r Hr; [done|]. cbn [foldl]. apply IH. by rewrite !zlen_strlcat. }
  unfold COMMAND, RECOVERY in *.
  split_and!; [rewrite zlen_strlcpy; lia|done|]. apply Hf. rewrite zlen_strlcpy; lia.
Qed.

(** ** Reading it *)
Lemma strtok_word a r : arg_ok a → strtok_mem newlines (a ++ 10 :: r) = Done (Some a, a ++ [0], r).
Proof.
  intros [Hne Ha]. unfold strtok_mem.
  assert (tok_skip newlines (a ++ 10 :: r) = ([], a ++ 10 :: r)) as ->.
  { destruct a as [|b a]; [done|]. apply Forall_cons in Ha as [[_ Hb] _]. cbn. rewrite decide_False; [done|]. set_solver. }
  assert (tok_word newlines (a ++ 10 :: r) = (a, 10 :: r)) as ->.
  { clear Hne. induction a as [|b a IH]; [done|]. apply Forall_cons in Ha as [[H0 Hb] Ha]. cbn.
    rewrite decide_False by set_solver. by rewrite IH. }
  rewrite decide_False, decide_False by done. done.
Qed.
Lemma strtok_end r : strtok_mem newlines (0 :: r) = Done (None, [], 0 :: r).
Proof. done. Qed.
Lemma boot_tokens_args args : ∀ n r, Forall arg_ok args → (length args ≤ n)%nat →
  ∃ buf, boot_tokens n (concat (map (λ a, a ++ [10]) args) ++ 0 :: r) = Done (args, buf).
Proof.
  induction args as [|a args IH]; intros n r Ha Hn.
  - destruct n; eexists; [done|]. cbn [map concat app boot_tokens]. by rewrite strtok_end.
  - destruct n as [|n]; [simpl in Hn; lia|]. apply Forall_cons in Ha as [Ha Has].
    destruct (IH n r Has ltac:(simpl in Hn; lia)) as [buf E]. eexists.
    cbn [map concat boot_tokens]. rewrite <- !app_assoc. cbn [app]. rewrite strtok_word by done.
    cbn [mbind run_bind]. by rewrite E.
Qed.
Lemma boot_args_written argv boot args r : args_ok args → recovery boot = encode args ++ 0 :: r →
  ∃ boot', boot_args argv boot = Done (RECOVERY_WORD :: args, boot').
Proof.
  intros (Ha & Hl & Hn) Hr. unfold boot_args. rewrite Hr.
  assert (∃ r', take 1023 (encode args ++ 0 :: r) ++ [0] = encode args ++ 0 :: r') as [r' ->].
  { unfold RECOVERY, zlen in Hl. rewrite take_app_ge by lia. rewrite <- app_assoc.
    destruct (1023 - length (encode args))%nat as [|k]; [by exists []|]. cbn. eauto. }
  unfold encode. rewrite <- !app_assoc. cbn [app]. rewrite strtok_word by (split; [done|by repeat constructor]).
  cbn [mbind run_bind]. rewrite decide_True by done.
  destruct (boot_tokens_args args (Z.to_nat (MAX_ARGS - 1)) r' Ha) as [buf ->].
  { unfold zlen, MAX_ARGS in *. lia. }
  eauto.
Qed.

Lemma message_bytes_length m : sized m → zlen (message_bytes m) = MESSAGE.
Proof. intros (Hc & Hs & Hr). unfold message_bytes. rewrite !zlen_app, Hc, Hs, Hr. done. Qed.
Lemma bytes_message_bytes m : sized m → bytes_message (message_bytes m) = m.
Proof.
  destruct m as [c s r]. intros (Hc & Hs & Hr). unfold bytes_message, message_bytes. cbn in *. unfold zlen, COMMAND in *.
  rewrite take_app_length' by lia. rewrite drop_app_length' by lia. rewrite take_app_length' by lia.
  rewrite app_assoc. rewrite drop_app_length' by (rewrite length_app; lia). done.
Qed.
Lemma bytes_message_sized b : zlen b = MESSAGE → sized (bytes_message b).
Proof.
  unfold zlen, MESSAGE. intros Hb. unfold sized, bytes_message, COMMAND, RECOVERY, zlen. cbn.
  rewrite !length_take, !length_drop. lia.
Qed.

(** * Restarting *)

Section restart.
Context {D : Type} `{!Mtd D} `{Kernel}.
Implicit Types (s : Sys D) (cs : list Z).

Lemma sized_no_message : sized no_message.
Proof. done. Qed.
Lemma tok_skip_length delims l p r : tok_skip delims l = (p, r) → zlen p + zlen r = zlen l.
Proof.
  revert p r. induction l as [|b l IH]; intros p r E; cbn in E; [by injection E as <- <-|].
  case_decide; [|by injection E as <- <-]. destruct (tok_skip delims l) as [p' r']. injection E as <- <-.
  rewrite !zlen_cons. specialize (IH _ _ eq_refl). lia.
Qed.
Lemma tok_word_length delims l p r : tok_word delims l = (p, r) → zlen p + zlen r = zlen l.
Proof.
  revert p r. induction l as [|b l IH]; intros p r E; cbn in E; [by injection E as <- <-|].
  case_decide; [by injection E as <- <-|]. destruct (tok_word delims l) as [p' r']. injection E as <- <-.
  rewrite !zlen_cons. specialize (IH _ _ eq_refl). lia.
Qed.
Lemma strtok_mem_length delims l t p r : strtok_mem delims l = Done (t, p, r) → zlen p + zlen r = zlen l.
Proof.
  unfold strtok_mem. destruct (tok_skip delims l) as [p0 r0] eqn:E0. destruct (tok_word delims r0) as [t0 r1] eqn:E1.
  apply tok_skip_length in E0. apply tok_word_length in E1. destruct r1 as [|b r1]; [done|].
  rewrite zlen_cons in E1.
  case_decide as Ht; [|case_decide]; intros [= <- <- <-]; rewrite ?zlen_app, ?zlen_cons, ?zlen_nil; [|lia..].
  subst t0. rewrite zlen_nil in E1. lia.
Qed.
Lemma boot_tokens_length n : ∀ rest args buf, boot_tokens n rest = Done (args, buf) → zlen buf = zlen rest.
Proof.
  induction n as [|n IH]; intros rest args buf E; [by injection E as <- <-|]. cbn [boot_tokens] in E.
  destruct (strtok_mem newlines rest) as [[[t p] r]| |] eqn:Et; [|done..]. cbn [mbind run_bind] in E.
  apply strtok_mem_length in Et. destruct t as [t|].
  - destruct (boot_tokens n r) as [[a b]| |] eqn:Eb; [|done..]. cbn [mbind run_bind] in E.
    injection E as <- <-. apply IH in Eb. rewrite zlen_app. lia.
  - injection E as <- <-. rewrite zlen_app. lia.
Qed.
Lemma boot_args_sized argv boot argv' boot' : sized boot → boot_args argv boot = Done (argv', boot') → sized boot'.
Proof.
  intros (Hc & Hs & Hr) E. unfold boot_args in E.
  assert (zlen (take 1023 (recovery boot) ++ [0]) = RECOVERY) as Hl.
  { unfold RECOVERY, zlen in *. rewrite length_app, length_take. cbn [length]. lia. }
  destruct (strtok_mem newlines _) as [[[t p] r]| |] eqn:Et; [|done..]. cbn [mbind run_bind] in E.
  apply strtok_mem_length in Et. destruct t as [t|]; [case_decide|].
  - destruct (boot_tokens _ r) as [[a b]| |] eqn:Eb; [|done..]. cbn [mbind run_bind] in E.
    injection E as <- <-. apply boot_tokens_length in Eb. unfold sized. cbn. rewrite zlen_app. repeat split; lia.
  - injection E as <- <-. unfold sized. cbn. rewrite zlen_app. repeat split; lia.
  - injection E as <- <-. unfold sized. cbn. rewrite zlen_app. repeat split; lia.
Qed.

Lemma get_block_sized out v s cs r m s' cs' : sized out →
  get_bootloader_message_block out v s cs = Ret (r, m) s' cs' → sized m.
Proof.
  intros Ho E. unfold get_bootloader_message_block in E. io_step E. io_step E. io_step E. io_step E.
  destruct a2 as [data|]; [|by injection E as _ <- _ _]. io_step E. case_decide as Hl; [by injection E as _ <- _ _|].
  io_step E. destruct a3; injection E as _ <- _ _; [|done]. apply bytes_message_sized. by destruct (decide (zlen a2 = MESSAGE)).
Qed.
Lemma get_mtd_sized out v s cs r m s' cs' : sized out →
  get_bootloader_message_mtd out v s cs = Ret (r, m) s' cs' → sized m.
Proof.
  intros Ho E. unfold get_bootloader_message_mtd in E. io_step E. destruct a as [[[part page] data]|]; [|by injection E as _ <- _ _].
  io_step E. injection E as _ <- _ _. apply lift_Ret in E1 as (E1 & _). apply bytes_message_sized.
  destruct (zslice data _ _) as [b|] eqn:Eb; [|done]. injection E1 as <-. by apply zslice_length in Eb as [? _].
Qed.
Lemma get_sized vols out s cs r m s' cs' : sized out →
  get_bootloader_message vols out s cs = Ret (r, m) s' cs' → sized m.
Proof.
  intros Ho. unfold get_bootloader_message. destruct (volume_for_path _ _) as [v|]; [|by intros [= _ <- _ _]].
  case_decide; [by apply get_mtd_sized|]. case_decide; [by apply get_block_sized|]. by intros [= _ <- _ _].
Qed.
Lemma collect_sized fuel vols argv ft w s cs argv' boot ty w' s' cs' :
  collect_args fuel vols argv ft w s cs = Ret (argv', boot, ty, w') s' cs' → sized boot.
Proof.
  unfold collect_args. intros E. io_step E. io_step E.
  assert (sized a0) as Hb.
  { clear E. case_decide; [|by injection E1 as <- _ _]. io_step E1. destruct a1 as [r m]. injection E1 as <- <- <-.
    by eapply get_sized in E. }
  io_step E. destruct a1 as [argv1 boot1].
  assert (sized boot1) as Hb1.
  { clear E. case_decide; [|by injection E2 as _ <- _ _]. io_step E2. destruct a1; [by injection E2 as _ <- _ _|].
    apply lift_Ret in E2 as (E2 & _). by eapply boot_args_sized. }
  io_step E. destruct a1 as [argv2 w2]. by injection E as _ <- _ _ _ _.
Qed.

(** ** The block device *)
Lemma choose_Ret s cs c s' cs' : choose s cs = Ret c s' cs' → s' = s.
Proof. destruct cs; [done|]. by intros [= <- <- <-]. Qed.
Ltac io_clean := repeat match goal with
  | H : choose _ _ = Ret _ _ _ |- _ => apply choose_Ret in H; subst
  | H : read_sys _ _ _ = Ret _ _ _ |- _ => injection H as <- <- <-
  | H : update_sys _ _ _ = Ret _ _ _ |- _ => injection H as <- <- <-
  | H : mret _ _ _ = Ret _ _ _ |- _ => injection H as H <- <-; try match type of H with _ = ?a => is_var a; subst a end
  | H : (_ ≫= _) _ _ = Ret _ _ _ |- _ => io_step H
  end.
Ltac case_in H := match type of H with context [decide ?P] => destruct (decide P) end.
Lemma sys_exists_same path s cs r s' cs' : sys_exists path s cs = Ret r s' cs' → s' = s.
Proof. unfold sys_exists. intros E. io_step E. destruct cs; [done|]. injection E0 as <- <- <-. by injection E as _ <- _. Qed.
Lemma wait_same n fn : ∀ s cs r s' cs', wait_for_device n fn s cs = Ret r s' cs' → s' = s.
Proof.
  induction n as [|n IH]; intros s cs r s' cs' E; [by injection E as _ <- _|]. cbn in E. io_step E.
  apply sys_exists_same in E0 as ->. destruct a; [by injection E as _ <- _|]. by apply IH in E.
Qed.

(** A reported success is a stored message. *)
Lemma set_block_ok v fn m s cs s' cs' : device v = Some fn → sized m →
  set_bootloader_message_block m v s cs = Ret 0 s' cs' →
  ∃ rest, device_contents fn s' = Some (message_bytes m ++ rest).
Proof.
  intros Hv Hm E. pose proof (message_bytes_length m Hm) as Hl. unfold set_bootloader_message_block in E. rewrite Hv in E.
  io_step E. injection E0 as <- <- <-. io_step E. apply wait_same in E0 as ->. io_step E. injection E0 as <- <- <-.
  io_step E. destruct (bool_decide (is_Some (emmc s !! fn))) eqn:Ed.
  - apply bool_decide_eq_true in Ed as [old Hold]. io_clean. destruct (negb _); [done|]. io_step E.
    unfold write_emmc in E0. io_clean. case_decide as Hk; [done|]. unfold sys_fclose in E. io_clean.
    destruct (bool_decide _); [|done]. rewrite Hold in *. cbn [default] in *.
    pose proof (zlen_nonneg old). unfold MESSAGE in *. exists (drop 1088 old).
    unfold device_contents. destruct s; cbn in *. rewrite lookup_alter_eq, Hold. cbn. f_equal.
    replace (Z.to_nat _) with 1088%nat by lia. rewrite take_ge by (unfold zlen in Hl; lia). done.
  - apply bool_decide_eq_false in Ed.
    assert (emmc s !! fn = None) as He by (destruct (emmc s !! fn); [destruct Ed; eauto|done]).
    unfold sys_fopen_w, open_with in E0. io_step E0. apply choose_Ret in E1 as ->. case_decide; io_clean; [done|]. cbn [negb] in E. io_step E.
    unfold sys_write in E0. io_step E0. apply choose_Ret in E1 as ->. case_in E0; io_clean; [done|].
    case_decide as Hk; [done|]. unfold sys_fclose in E. io_clean. destruct (bool_decide _); [|done].
    exists []. unfold device_contents. destruct s; cbn in *. rewrite He, lookup_alter_eq, lookup_partial_alter_eq. cbn.
    f_equal. rewrite Hk, take_ge by (unfold zlen in Hl; unfold MESSAGE in *; lia). rewrite app_nil_r. by destruct (files !! fn).
Qed.

(** Choices with which no call fails and every read gives what is there. *)
Definition plentiful (c : Z) : Prop := MESSAGE ≤ c.

Lemma ob_exists path s (Q : bool → Prop) X : Q (bool_decide (is_Some (device_contents path s))) →
  observes plentiful s (sys_exists path) Q X.
Proof.
  intros HQ. eapply ob_bind; [apply (ob_choose _ _ _ (λ c, c ≠ 0)); unfold plentiful, MESSAGE; lia|].
  intros c Hc. apply ob_read. cbn beta in Hc.
  rewrite decide_False by done. exact HQ.
Qed.
Lemma ob_wait n fn s : observes plentiful s (wait_for_device n fn) (λ _, True) False.
Proof.
  induction n as [|n IH]; [by apply ob_ret|]. cbn. eapply ob_bind with (Q' := λ _, True); [by apply ob_exists|].
  intros [] _; [by apply ob_ret|done].
Qed.
Lemma get_block_ok out v fn m rest s : device v = Some fn → sized m → device_contents fn s = Some (message_bytes m ++ rest) →
  observes plentiful s (get_bootloader_message_block out v) (λ r, r = (0, m)) False.
Proof.
  intros Hv Hm Hd. pose proof (message_bytes_length m Hm) as Hl. unfold get_bootloader_message_block. eapply ob_get; [exact Hv|].
  eapply ob_bind; [apply ob_wait|]. intros _ _.
  eapply ob_bind; [apply (ob_choose _ _ _ (λ c, c ≠ 0)); unfold plentiful, MESSAGE; lia|]. intros c Hc.
  eapply ob_bind with (Q' := λ o, o = Some (message_bytes m ++ rest)).
  { apply ob_read. cbn beta in Hc. by rewrite decide_False, Hd by done. }
  intros ? ->. cbn beta iota.
  eapply ob_bind with (Q' := λ t, t = message_bytes m).
  { eapply ob_bind; [apply (ob_choose _ _ _ plentiful); done|]. intros c' Hc'. unfold plentiful, MESSAGE in *. apply ob_ret.
    replace (Z.to_nat _) with (length (message_bytes m)) by (unfold zlen in Hl; lia). apply take_app_length. }
  intros t ->. rewrite decide_False by (intros Hx; by apply Hx).
  eapply ob_bind with (Q' := λ b, b = true).
  { eapply ob_bind; [apply (ob_choose _ _ _ (λ c, c ≠ 0)); unfold plentiful, MESSAGE; lia|].
    intros c' Hc'. apply ob_ret. by apply bool_decide_eq_true. }
  intros ? ->. apply ob_ret. by rewrite bytes_message_bytes.
Qed.
Lemma calm_get {A B} (o : option A) (b : A) (f : A → io D B) : o = Some b → calm (f b) → calm (lift (access o) ≫= f).
Proof. by intros ->. Qed.
Lemma calm_set_block m v fn : device v = Some fn → calm (D := D) (set_bootloader_message_block m v).
Proof.
  intros Hv. unfold set_bootloader_message_block. eapply calm_get; [exact Hv|].
  assert (∀ n, calm (wait_for_device (D := D) n fn)) as Hw.
  { induction n as [|n IH]; cbn; calm_tac. unfold sys_exists. calm_tac. destruct a; calm_tac. }
  assert (calm (sys_fopen_w (D := D) fn)) by (unfold sys_fopen_w, open_with; calm_tac; destruct (decide _); calm_tac).
  assert (calm (sys_write (D := D) fn (message_bytes m))) by (unfold sys_write; calm_tac).
  assert (calm (write_emmc (D := D) fn (message_bytes m))) by (unfold write_emmc; calm_tac).
  apply calm_bind; [apply Hw|intros _]. apply calm_bind; [apply calm_read|intros dev].
  apply calm_bind; [destruct dev; calm_tac|intros f]. destruct (negb f); [calm_tac|].
  apply calm_bind; [by destruct dev|intros n]. unfold sys_fclose. calm_tac.
Qed.

(** The system after a restart: the block device as it was left in [s']; no mark in [/tmp] says that the message is to
    be ignored; the memory is of a type for which the recovery reads the message. *)
Definition restarted (fn : string) (s' s2 : Sys D) : Prop :=
  device_contents fn s2 = device_contents fn s' ∧ device_contents IGNORE_FILE s2 = None ∧
  device_contents BOARD_BML_BOOT s2 = None ∧
  (is_Some (device_contents "/proc/emmc" s2) ∨ is_Some (device_contents "/proc/mtd" s2)).

Lemma flash_type_read s : device_contents BOARD_BML_BOOT s = None →
  is_Some (device_contents "/proc/emmc" s) ∨ is_Some (device_contents "/proc/mtd" s) →
  observes plentiful s (device_flash_type UNKNOWN) (λ t, t = FLASH_TYPE_MTD ∨ t = FLASH_TYPE_MMC) False.
Proof.
  intros Hb He. unfold device_flash_type. rewrite decide_False by (intros Hx; by apply Hx).
  eapply ob_bind with (Q' := λ b, b = false); [apply ob_exists; by rewrite Hb|]. intros ? ->.
  eapply ob_bind with (Q' := λ b, b = bool_decide (is_Some (device_contents "/proc/emmc" s))); [by apply ob_exists|].
  intros ? ->. case_bool_decide as Hem; [apply ob_ret; by right|].
  eapply ob_bind with (Q' := λ b, b = true); [apply ob_exists; apply bool_decide_eq_true; tauto|].
  intros ? ->. apply ob_ret. by left.
Qed.

(** C7: Installing or erasing can be restarted at any point.  With [/misc] on a block device and arguments that are words without newlines or
    zero bytes and fit the block: when the recovery has written
    them to the block, and is started again without arguments on a device with [/proc/emmc] or [/proc/mtd] and no BML
    memory, it finds the same arguments there when no call fails after the restart, whatever it had read
    first, from the block or from the command file, and whatever the command file says now. *)
Theorem get_args_restarts vols v fn fuel argv ft (w : Mounts) s cs argv0 args boot ty w1 s1 cs1 s' cs' s2 cs2 fuel2 name w2 :
  volume_for_path vols "/misc" = Some v → fs_type v = "emmc"%string → device v = Some fn →
  collect_args fuel vols argv ft w s cs = Ret (argv0 :: args, boot, ty, w1) s1 cs1 →
  set_bootloader_message vols (write_args args boot) s1 cs1 = Ret 0 s' cs' →
  args ≠ [] → args_ok args → restarted fn s' s2 → Forall plentiful cs2 →
  match get_args fuel2 vols [name] UNKNOWN w2 s2 cs2 with
  | Ret (argv2, _, _) _ _ => argv2 = RECOVERY_WORD :: args
  | Stop _ => True
  | Crashed | Hung => False
  end.
Proof.
  intros Hv Ht Hd Hcol Hset Hne Hargs (Hdev & Hign & Hbml & Hty) Hcs. pose proof (collect_sized _ _ _ _ _ _ _ _ _ _ _ _ _ Hcol) as Hsz.
  unfold set_bootloader_message in Hset. rewrite Hv, Ht, decide_False, decide_True in Hset by done.
  apply (set_block_ok v fn) in Hset as [rest Hc]; [|done|by apply write_args_sized].
  destruct (write_args_text args boot Hsz) as [r Hr]; [apply Hargs..|].
  assert (observes plentiful s2 (collect_args fuel2 vols [name] UNKNOWN w2)
    (λ x, x.1.1.1 = RECOVERY_WORD :: args) False) as Hob.
  { unfold collect_args. eapply ob_bind; [by apply flash_type_read|]. intros t Htype. rewrite decide_True by done.
    eapply ob_bind with (Q' := λ b, b = write_args args boot).
    { eapply ob_bind with (Q' := λ r, r = (0, write_args args boot)); [|intros ? ->; by apply ob_ret].
      unfold get_bootloader_message. rewrite Hv, Ht, decide_False, decide_True by done.
      eapply get_block_ok; [done|by apply write_args_sized|by rewrite Hdev]. }
    intros ? ->. rewrite decide_True by done.
    destruct (boot_args_written [name] (write_args args boot) args r Hargs Hr) as [boot' Hb].
    eapply ob_bind with (Q' := λ x, x = (RECOVERY_WORD :: args, boot')).
    { eapply ob_bind with (Q' := λ b, b = false); [apply ob_exists; by rewrite Hign|]. intros ? ->.
      apply ob_lift. rewrite Hb. by eexists. }
    intros ? ->. rewrite decide_False by (rewrite zlen_cons; destruct args; [done|]; rewrite zlen_cons; pose proof (zlen_nonneg args); lia).
    eapply ob_bind with (Q' := λ x, x = (RECOVERY_WORD :: args, w2)); [by apply ob_ret|]. intros ? ->. by apply ob_ret. }
  unfold get_args. specialize (Hob cs2 Hcs). unfold mbind, io_bind.
  destruct (collect_args fuel2 vols [name] UNKNOWN w2 s2 cs2) as [[[[argv2 boot2] ty2] w3] s3 cs3|s3| |]; try done.
  destruct Hob as (-> & _ & Hargv). cbn in Hargv. subst argv2.
  unfold set_bootloader_message. rewrite Hv, Ht, decide_False, decide_True by done.
  pose proof (calm_set_block (write_args (tail (RECOVERY_WORD :: args)) boot2) v fn Hd s2 cs3) as Hcalm.
  destruct (set_bootloader_message_block _ v s2 cs3) as [x s4 cs4|s4| |]; done.
Qed.

(** ** Finishing *)
Lemma keeps_Ret {A} (R : Sys D → Prop) (m : io D A) s cs a s' cs' : keeps R m → m s cs = Ret a s' cs' → R s → R s'.
Proof. intros Hm E Hs. specialize (Hm s cs Hs). by rewrite E in Hm. Qed.

Section keeps.
Context `{!MtdFrame D} (R : Sys D → Prop) (HR : off_mtd R).
#[local] Hint Resolve keeps_ret keeps_lift keeps_choose keeps_read scan_keeps find_keeps : boot.
Ltac boot_tac :=
  repeat (cbn beta iota zeta; first
    [ solve [auto with boot nocore] | apply keeps_bind; [|intro] | apply keeps_decide
    | match goal with |- keeps _ (match ?x with _ => _ end) => destruct x end ]).

Lemma keeps_ask_kernel f w : keeps R (ask_kernel f w).
Proof. unfold ask_kernel. boot_tac. Qed.
#[local] Hint Resolve keeps_ask_kernel : boot.
Lemma keeps_shell cmd w : keeps R (shell cmd w).
Proof. unfold shell. boot_tac. Qed.
#[local] Hint Resolve keeps_shell : boot.
Lemma keeps_try_mounts l point w : keeps R (try_mounts l point w).
Proof.
  assert (∀ d p t o w, keeps R (try_mount d p t o w)) by (intros; unfold try_mount; boot_tac).
  revert w. induction l as [|[[d t] o] l IH]; intros w; cbn [try_mounts]; boot_tac.
Qed.
Lemma keeps_mtd_mount ro partition point ty w : keeps R (mtd_mount_partition ro partition point ty w).
Proof. unfold mtd_mount_partition. destruct ro; boot_tac. Qed.
Lemma keeps_scan_mounted w : keeps R (scan_mounted_volumes w).
Proof. unfold scan_mounted_volumes. boot_tac. Qed.
#[local] Hint Resolve keeps_try_mounts keeps_mtd_mount keeps_scan_mounted : boot.
Lemma keeps_mount_volume v point w : keeps R (mount_volume v point w).
Proof. unfold mount_volume. boot_tac. Qed.
#[local] Hint Resolve keeps_mount_volume : boot.
Lemma keeps_ensure fuel vols path point w : keeps R (ensure_path_mounted_at_mount_point fuel vols path point w).
Proof.
  revert path point w. induction fuel as [|fuel IH]; intros path point w; cbn [ensure_path_mounted_at_mount_point];
    unfold setup_data_media; boot_tac.
Qed.
End keeps.

Lemma device_off_mtd fn x : off_mtd (λ s, device_contents fn s = x).
Proof. by intros [] f. Qed.
Lemma get_block_same out v s cs r m s' cs' : get_bootloader_message_block out v s cs = Ret (r, m) s' cs' → s' = s.
Proof.
  intros E. unfold get_bootloader_message_block in E. io_step E. apply lift_Ret in E0 as (_ & <- & <-). io_step E.
  apply wait_same in E0 as ->. io_step E. apply choose_Ret in E0 as ->. io_step E. injection E0 as <- <- <-.
  destruct (if decide (a1 = 0) then _ else _) as [data|]; [|by injection E as _ _ <- _]. io_step E. unfold sys_read in E0. io_clean.
  case_decide; [by injection E as _ _ <- _|]. unfold sys_fclose in E. io_clean. done.
Qed.
Lemma get_block_any v fn m rest s cs r m' s' cs' : device v = Some fn → sized m → device_contents fn s = Some (message_bytes m ++ rest) →
  get_bootloader_message_block m v s cs = Ret (r, m') s' cs' → m' = m.
Proof.
  intros Hv Hm Hd E. pose proof (message_bytes_length m Hm) as Hl. unfold get_bootloader_message_block in E. rewrite Hv in E.
  io_step E. injection E0 as <- <- <-. io_step E. apply wait_same in E0 as ->. io_step E. apply choose_Ret in E0 as ->.
  io_step E. injection E0 as <- <- <-. rewrite Hd in E. case_decide; [by injection E as _ <- _ _|].
  io_step E. unfold sys_read in E0. io_clean. case_decide as Hk; [by injection E as _ <- _ _|]. unfold sys_fclose in E. io_clean.
  destruct (bool_decide _); injection E as _ <-; [|done]. unfold MESSAGE in *.
  match goal with |- bytes_message ?t = _ => replace t with (message_bytes m) end; [by apply bytes_message_bytes|].
  unfold zlen in Hk, Hl. rewrite length_take in Hk. rewrite take_app_le by lia. rewrite take_ge by lia. done.
Qed.

Lemma exists_keeps path (R : Sys D → Prop) : keeps R (sys_exists path).
Proof. unfold sys_exists. keeps_tac. Qed.
Lemma flash_type_same ft s cs r s' cs' : device_flash_type ft s cs = Ret r s' cs' → s' = s.
Proof.
  intros E. apply (keeps_Ret (λ x, x = s) (device_flash_type ft) s cs r s' cs'); [|done|done].
  pose proof (λ p, exists_keeps p (λ x, x = s)) as Hx. unfold device_flash_type. keeps_tac; apply Hx.
Qed.

(** The empty message is no message. *)
Lemma no_message_args name : ∃ boot, boot_args [name] no_message = Done ([name], boot).
Proof. eexists. unfold boot_args. change (take 1023 (recovery no_message) ++ [0]) with (zero_bytes RECOVERY). reflexivity. Qed.

(** A recovery that is started without arguments, finds the empty message and no command file has no arguments. *)
Lemma nothing_to_do `{!MtdFrame D} vols v fn rest fuel name ft w s cs r s' cs' :
  volume_for_path vols "/misc" = Some v → fs_type v = "emmc"%string → device v = Some fn →
  device_contents fn s = Some (message_bytes no_message ++ rest) → files s !! COMMAND_FILE = None →
  get_args fuel vols [name] ft w s cs = Ret r s' cs' → r.1.1 = [name].
Proof.
  intros Hv Ht Hd Hc Hf E. unfold get_args in E. io_step E. destruct a as [[[argv boot] ty] w1].
  io_step E. injection E as <- _ _. cbn [fst]. clear E1. unfold collect_args in E0. io_step E0.
  apply flash_type_same in E as ->. io_step E0.
  assert (a1 = no_message ∧ s2 = s) as [-> ->].
  { clear E0. case_in E; [|by injection E as <- <- _]. io_step E. destruct a2 as [r m]. injection E as <- <- _.
    unfold get_bootloader_message in E0. rewrite Hv, Ht, decide_False, decide_True in E0 by done.
    split; [by eapply get_block_any in E0|by eapply get_block_same in E0]. }
  clear E. io_step E0. destruct a1 as [argv1 boot1].
  assert (argv1 = [name] ∧ s2 = s) as [-> ->].
  { clear E0. rewrite decide_True in E by done. io_step E. apply sys_exists_same in E0 as ->.
    destruct a1; [by injection E as <- _ <- _|]. destruct (no_message_args name) as [b Hb].
    apply lift_Ret in E as (E & <- & _). rewrite Hb in E. by injection E as <- _. }
  clear E. io_step E0. destruct a1 as [argv2 w2]. injection E0 as <- _ _ _ _ _.
  rewrite decide_True in E by done. unfold command_args, fopen_path_r in E. io_step E. destruct a1 as [fp w3].
  io_step E0. destruct a1 as [r1 w4].
  assert (files s4 !! COMMAND_FILE = None) as Hf4.
  { eapply (keeps_Ret (λ s, files s !! COMMAND_FILE = None)) in E1; [done| |done].
    apply keeps_ensure. by intros [] f. }
  case_in E0; [injection E0 as <- _ _ _; by injection E as <- _ _ _|]. io_step E0. unfold sys_stat in E2. io_step E2.
  apply choose_Ret in E3 as ->. injection E2 as <- <- <-. rewrite Hf4 in E0. injection E0 as <- _ _ _.
  case_in E; by injection E as <- _ _ _.
Qed.

(** ** Finishing with calls that do not fail *)
Definition block_there (fn : string) s : Prop := ∃ old, emmc s !! fn = Some old ∧ MESSAGE ≤ zlen old.
(** The volume of the command file can be used: mounting it succeeds when no call fails. *)
Definition command_usable (fuel : nat) (vols : list Volume) : Prop :=
  ∀ (w : Mounts) s cs r w' s' cs', Forall plentiful cs →
    ensure_path_mounted fuel vols COMMAND_FILE w s cs = Ret (r, w') s' cs' → r = 0 ∧ Forall plentiful cs'.

Lemma ob_total {A} (m : io D A) (P : Sys D → Prop) (Q : A → Prop) :
  (∀ s, observes plentiful s m Q False) → ttriple plentiful P m (λ a s, Q a ∧ P s) (λ _, True).
Proof.
  intros Hm s cs Hcs HP. specialize (Hm s cs Hcs). destruct (m s cs); try done. by destruct Hm as (-> & ? & ?).
Qed.
Lemma set_block_works v fn m : device v = Some fn → sized m →
  ttriple plentiful (block_there fn) (set_bootloader_message_block m v) (λ r _, r = 0) (λ _, True).
Proof.
  intros Hv Hm. pose proof (message_bytes_length m Hm) as Hl. unfold set_bootloader_message_block.
  eapply tt_get; [exact Hv|]. eapply tt_bind; [apply (ob_total _ _ (λ _, True)); intros; apply ob_wait|]. intros []. cbn beta.
  eapply tt_bind with (Q' := λ b s, b = true ∧ block_there fn s).
  { apply tt_read. intros s [_ Hs]. split; [|done]. destruct Hs as (old & -> & _). by apply bool_decide_eq_true. }
  intros dev. apply tt_pure. intros ->.
  eapply tt_bind with (Q' := λ b s, b = true ∧ block_there fn s).
  { eapply tt_bind with (Q' := λ c s, plentiful c ∧ block_there fn s); [by apply tt_choose|].
    intros c. apply tt_ret. intros s [Hc ?]. unfold plentiful, MESSAGE in Hc. split; [|done]. apply bool_decide_eq_true. lia. }
  intros f. apply tt_pure. intros ->. cbn [negb].
  eapply tt_bind with (Q' := λ n _, n = MESSAGE).
  { unfold write_emmc. eapply tt_bind with (Q' := λ c s, plentiful c ∧ block_there fn s); [by apply tt_choose|].
    intros c. apply tt_pure. intros Hc.
    eapply tt_bind with (Q' := λ o _, ∃ old, o = Some old ∧ MESSAGE ≤ zlen old); [by apply tt_read|].
    intros o. eapply tt_bind with (Q' := λ _ _, ∃ old, o = Some old ∧ MESSAGE ≤ zlen old); [by apply tt_update|].
    intros []. apply tt_ret. intros _ (old & -> & Hold). cbn. unfold plentiful, MESSAGE in *. lia. }
  intros n. eapply tt_fact with (φ := n = MESSAGE); [done|]. intros ->. rewrite decide_False by (intros Hx; by apply Hx).
  eapply tt_bind with (Q' := λ b _, b = true).
  { eapply tt_bind with (Q' := λ c s, plentiful c); [by apply tt_choose|].
    intros c. apply tt_ret. intros s Hc. unfold plentiful, MESSAGE in Hc. apply bool_decide_eq_true. lia. }
  intros ok. apply tt_ret. by intros s ->.
Qed.

(** Files are not block devices. *)
Lemma write_logs_keeps `{!MtdFrame D} fuel vols intent off w fn : keeps (block_there fn) (write_logs fuel vols intent off w).
Proof.
  assert (∀ point w, keeps (block_there fn) (ensure_path_mounted fuel vols point w)) as He.
  { intros. apply keeps_ensure. by intros [] f. }
  assert (∀ path, keeps (block_there fn) (sys_fopen_w path) ∧ keeps (block_there fn) (sys_append path)) as Ho.
  { intros. unfold sys_fopen_w, sys_append, open_with. split; keeps_tac; apply keeps_update; by intros []. }
  assert (∀ path d, keeps (block_there fn) (sys_write path d)) as Hw.
  { intros. unfold sys_write. keeps_tac. apply keeps_update. by intros []. }
  assert (∀ path append w, keeps (block_there fn) (fopen_path_w fuel vols path append w)) as Hp.
  { intros path append w0. unfold fopen_path_w. destruct (Ho path).
    apply keeps_bind; [apply He|]. intros [r w1]. keeps_tac. }
  assert (∀ path append o w, keeps (block_there fn) (copy_log_file fuel vols path append o w)) as Hc.
  { intros path append o w0. unfold copy_log_file. apply keeps_bind; [apply Hp|]. intros [log w1].
    destruct (negb log); [keeps_tac|]. apply keeps_bind; [unfold sys_stat; keeps_tac|]. intros [f|]; [|keeps_tac].
    apply keeps_bind; [unfold sys_read; keeps_tac|]. intros data. apply keeps_bind; [keeps_tac|]. intros out.
    apply keeps_bind; [apply Hw|]. intros _. keeps_tac. }
  unfold write_logs. apply keeps_bind.
  { destruct intent; [|keeps_tac]. apply keeps_bind; [apply Hp|]. intros [fp w1].
    apply keeps_bind; [destruct fp; [apply Hw|keeps_tac]|]. intros _. keeps_tac. }
  intros w1. apply keeps_bind; [apply Hc|]. intros [o1 w2]. apply keeps_bind; [apply Hc|]. intros [o2 w3].
  unfold sys_chmod, sys_change. keeps_tac. apply keeps_update. by intros [].
Qed.

Lemma remove_command_ok `{!MtdFrame D} fuel vols (w : Mounts) fn x s cs b w' s' cs' : fn ≠ COMMAND_FILE →
  command_usable fuel vols → Forall plentiful cs → device_contents fn s = x →
  remove_command fuel vols w s cs = Ret (b, w') s' cs' → device_contents fn s' = x ∧ files s' !! COMMAND_FILE = None.
Proof.
  intros Hne Huse Hcs Hx E. unfold remove_command in E. io_step E. destruct a as [r w2].
  pose proof E0 as Hok. apply Huse in Hok as [-> Hcs2]; [|done].
  eapply (keeps_Ret (λ s, device_contents fn s = x)) in E0; [|apply keeps_ensure, device_off_mtd|exact Hx].
  rewrite decide_False in E by (intros Hn; by apply Hn). io_step E. unfold sys_unlink in E1. io_step E1.
  match goal with H : choose _ ?l = Ret ?c _ _ |- _ => assert (c ≠ 0) as Hc;
    [destruct l; [done|]; injection H as <- _ _; apply Forall_cons in Hcs2 as [Hp _]; unfold plentiful, MESSAGE in Hp; lia|
     apply choose_Ret in H as ->] end.
  rewrite decide_False in E1 by done. io_step E1. injection E2 as <- <- <-. injection E1 as <- <- <-.
  injection E as _ _ <- _. unfold device_contents in *. destruct s0; cbn in *. rewrite lookup_delete_ne by done.
  split; [done|]. apply lookup_delete_eq.
Qed.

(** C8: After [finish_recovery] the main system is booted and nothing is done twice: with [/misc] on a block device that has
    room for the message, when no call fails from the time the logs have been written and the volume of the command file
    can be mounted then, a [finish_recovery] that ends has put the empty message into the block and removed the command file, and a
    recovery that is started from there without arguments finds none, whatever calls of it fail.  What happens while the intent and the logs are
    written does not matter. *)
Theorem finish_recovery_clears `{!MtdFrame D} vols v fn fuel intent off (w : Mounts) s cs o1 w1 s1 cs1 r s' cs' :
  volume_for_path vols "/misc" = Some v → fs_type v = "emmc"%string → device v = Some fn → fn ≠ COMMAND_FILE →
  block_there fn s → command_usable fuel vols →
  write_logs fuel vols intent off w s cs = Ret (o1, w1) s1 cs1 → Forall plentiful cs1 →
  finish_recovery fuel vols intent off w s cs = Ret r s' cs' →
  (∃ rest, device_contents fn s' = Some (message_bytes no_message ++ rest)) ∧
  files s' !! COMMAND_FILE = None ∧
  ∀ s3 fuel3 name ft w3 cs3 r s4 cs4, device_contents fn s3 = device_contents fn s' → files s3 !! COMMAND_FILE = None →
    get_args fuel3 vols [name] ft w3 s3 cs3 = Ret r s4 cs4 → r.1.1 = [name].
Proof.
  intros Hv Ht Hd Hne Hblock Huse Hlogs Hcs E. unfold finish_recovery in E.
  rewrite (io_bind_ret _ _ _ _ _ _ _ Hlogs) in E. cbn beta iota in E.
  pose proof (keeps_Ret _ _ _ _ _ _ _ (write_logs_keeps fuel vols intent off w fn) Hlogs Hblock) as Hblock1.
  io_step E. rename E0 into Hset. unfold set_bootloader_message in Hset. rewrite Hv, Ht, decide_False, decide_True in Hset by done.
  pose proof (set_block_works v fn no_message Hd sized_no_message s1 cs1 Hcs Hblock1) as Hworks.
  rewrite Hset in Hworks. destruct Hworks as [Hcs2 ->].
  apply (set_block_ok v fn) in Hset as [rest Hc]; [|done|done].
  io_step E. destruct a as [b w2]. injection E as _ <- _.
  eapply remove_command_ok in E0 as [Hc' Hf]; [|done..].
  split_and!; [eexists; by rewrite Hc'|done|].
  intros s3 fuel3 name ft w3 cs3 r' s4 cs4 Hc3 Hf3. eapply nothing_to_do; [done..| |done]. by rewrite Hc3, Hc'.
Qed.
End restart.

(** ** An example *)
Module BootExample.
Import Volumes.Examples.
Definition misc : string := "/dev/block/misc".
Definition misc_volume : Volume := mkVolume "/misc" "emmc" (Some misc) None 0 None None None None.
Definition in_ram (point : string) : Volume := mkVolume point "ramdisk" (Some "none") None 0 None None None None.
Definition table : list Volume := [tmp_volume; misc_volume; in_ram "/cache"; in_ram "/sdcard"].
Definition args : list bytes := map bytes_of_string ["--update_package=/cache/update.zip"; "--wipe_cache"]%string.
Definition newline_string : string := String newline EmptyString.
Definition command_text : string :=
  "--update_package=/cache/update.zip" +:+ newline_string +:+ newline_string +:+ "--wipe_cache" +:+ newline_string.
Definition booted : Sys unit :=
  mkSys {[COMMAND_FILE := mkFile (bytes_of_string command_text) 420 0 0; "/proc/emmc" := mkFile [] 292 0 0]}
    {[misc := replicate 1100 255]} tt false ∅ [].
Definition plenty : list Z := replicate 40 5000.
Definition name : bytes := bytes_of_string "/sbin/recovery".
Definition state_of {A} (o : outcome unit A) : Sys unit := match o with Ret _ s _ => s | _ => booted end.
Definition after_args : Sys unit := state_of (get_args 2 table [name] UNKNOWN unmounted booted plenty).

Lemma get_args_restarts_witness :
  match get_args 2 table [name] UNKNOWN unmounted after_args plenty with
  | Ret (argv, _, _) _ _ => argv = RECOVERY_WORD :: args
  | Stop _ => True
  | Crashed | Hung => False
  end.
Proof.
  eapply (get_args_restarts table misc_volume misc 2 [name] UNKNOWN unmounted booted plenty).
  - by vm_compute.
  - done.
  - done.
  - vm_compute. reflexivity.
  - vm_compute. reflexivity.
  - done.
  - split; [apply (bool_decide_eq_true_1 (Forall arg_ok args)); by vm_compute|]. split; by vm_compute.
  - split; [by vm_compute|]. split; [by vm_compute|]. split; [by vm_compute|]. left. eexists. vm_compute. reflexivity.
  - apply Forall_replicate. done.
Defined.

Lemma finish_recovery_witness : ∃ s' : Sys unit, files s' !! COMMAND_FILE = None ∧
  ∃ rest, device_contents misc s' = Some (message_bytes no_message ++ rest).
Proof.
  edestruct (finish_recovery_clears table misc_volume misc 2 None 0 unmounted after_args plenty) as (Hd & Hf & _).
  - by vm_compute.
  - done.
  - done.
  - done.
  - eexists. split; [vm_compute; reflexivity|done].
  - intros w s cs r w' s' cs' Hcs E. vm_compute in E. by injection E as <- _ _ <-.
  - vm_compute. reflexivity.
  - apply Forall_forall. intros c Hc. repeat (apply elem_of_cons in Hc as [->|Hc]; [done|]). by apply elem_of_nil in Hc.
  - vm_compute. reflexivity.
  - eexists. split; [exact Hf|exact Hd].
Defined.
End BootExample.
