(* ===== verification/FlashMessage.v ===== *)
(** The boot control block in a flash partition: [bootloader.c] on top of [mtdutils.c]. *)
From stdpp Require Import sorting.
From S2P Require Import Prelude CLib Bytes World Mtd MtdUtils MtdSession FlashPatch Volumes BootMessage.

(** * What looking for a partition leaves alone *)
Section frame.
Context `{Abi} `{!MtdDriver}.
Lemma keeps_set_state (R : Sys MtdWorld → Prop) g : off_mtd R → keeps R (set_state g).
Proof. intros HR. apply keeps_update. intros s. apply HR. Qed.
#[export] Instance mtdutils_frame : MtdFrame MtdWorld.
Proof.
  split; intros R.
  - intros HR. cbn [mtd_scan_partitions mtdutils].
    assert (∀ fuel b ps count, keeps R (scan_lines fuel b ps count)) as Hl.
    { induction fuel as [|fuel IH]; intros b ps count; destruct b as [|c b]; cbn [scan_lines]; keeps_tac.
      destruct (scan_line _) as [[[[? ?] ?] ?]|]; unfold alloc; keeps_tac; apply IH. }
    unfold MtdUtils.mtd_scan_partitions, alloc, ask. keeps_tac.
    + destruct (partitions _); keeps_tac.
    + destruct a1 as [buf|]; keeps_tac; [apply Hl| |by apply keeps_set_state].
      match goal with x : list Partition * Z |- _ => destruct x as [ps n] end. keeps_tac. by apply keeps_set_state.
  - intros name HR. cbn. unfold mtd_find_partition_by_name. keeps_tac.
Qed.
End frame.

(** * A round trip *)
Section message.
Context `{Abi} `{!MtdDriver} `{!MtdDriverLaws _}.
Context (p : Partition) (name text : string) (page : Z).
Notation fl s := (flash (mtd s)).
Notation U := (unit_size (device_index p)).
Hypothesis described : well_described p.

(** ** Finding the partition *)
(** The table a text gives, when memory is found for the names. *)
Fixpoint listed (fuel : nat) (bufp : string) (ps : list Partition) : option (list Partition) :=
  match bufp with
  | EmptyString => Some ps
  | _ =>
      match fuel with
      | O => None
      | S fuel =>
          match scan_line bufp with
          | Some (n, size, erasesize, mtdname) =>
              _ ← znth ps n;
              listed fuel (eat_line bufp)
                (<[Z.to_nat n := mkPartition n (u32 size) (u32 erasesize) (Some mtdname)]> ps)
          | None => listed fuel (eat_line bufp) ps
          end
      end
  end.
Definition proc_mtd_text : string := String.substring 0 MTD_BUF text.
(** [/proc/mtd] lists the partition, and the driver gives its page size. *)
Definition lists_partition : Prop :=
  (∀ f c, works c → drv_proc_mtd f c = Some text) ∧
  (∀ f c, works c → ∃ size erase, drv_info f (device_index p) c = Some (size, erase, page)) ∧
  ∀ ps, length ps = nump → Forall (λ q, device_index q = -1) ps →
    ∃ ps', listed (String.length proc_mtd_text) proc_mtd_text ps = Some ps' ∧
      (snd <$> list_find (is_named name) ps') = Some p.
Hypothesis lists : lists_partition.

Definition table_ok (s : Sys MtdWorld) : Prop :=
  match partitions (g_mtd_state (mtd s)) with Some ps => length ps = nump | None => True end.
Lemma listed_length fuel : ∀ b ps ps', listed fuel b ps = Some ps' → length ps' = length ps.
Proof.
  induction fuel as [|fuel IH]; intros b ps ps' E; destruct b as [|c b]; cbn [listed] in E; try congruence.
  destruct (scan_line _) as [[[[n size] es] nm]|]; [|by eapply IH].
  destruct (znth ps n); [|done]. cbn [mbind option_bind] in E. apply IH in E. by rewrite length_insert in E.
Qed.
Lemma scan_lines_smooth P fuel : ∀ b ps ps' count, listed fuel b ps = Some ps' →
  ttriple smooth P (scan_lines fuel b ps count)
    (λ r s, (r.1 = ps' ∧ count ≤ r.2 ∧ (r.2 = count → ps' = ps)) ∧ P s) (λ _, True).
Proof.
  induction fuel as [|fuel IH]; intros b ps ps' count E; destruct b as [|c b]; cbn [listed scan_lines] in *;
    try (injection E as <-; apply tt_ret; simpl; intros; split_and!; done || lia); [done|].
  destruct (scan_line _) as [[[[n size] es] nm]|]; [|by apply IH].
  destruct (znth ps n) as [x|] eqn:Ex; [|done]. cbn [mbind option_bind] in E.
  eapply tt_lift_bind; [done|]. eapply tt_bind; [apply tt_alloc|]. intros got. apply tt_pure. intros Hgot.
  rewrite Hgot by (intros c' []; done). rewrite decide_False by done.
  eapply tt_conseq; [by apply IH|done| |done]. intros r s ((-> & ? & ?) & ?). split_and!; [done|lia|lia|done].
Qed.

Lemma scan_ok f0 : ttriple smooth (λ s, fl s = f0 ∧ table_ok s) Mtd.mtd_scan_partitions
  (λ n s, 0 < n ∧ fl s = f0 ∧ table_ok s ∧
     (ps ← partitions (g_mtd_state (mtd s)); snd <$> list_find (is_named name) ps) = Some p) (λ _, True).
Proof.
  cbn. unfold mtd_scan_partitions.
  eapply tt_bind with (Q' := λ g s, fl s = f0 ∧ match partitions g with Some ps => length ps = nump | None => True end).
  { apply tt_read. by intros s []. }
  intros g. apply tt_split. intros Hg.
  eapply tt_bind with (Q' := λ got s, got = true ∧ fl s = f0).
  { destruct (partitions g); [by apply tt_ret|]. eapply tt_conseq; [apply (tt_alloc smooth (λ s, fl s = f0))|done| |done].
    intros b s [Hb ?]. split; [|done]. apply Hb. by intros c []. }
  intros got. apply tt_pure. intros ->. rewrite decide_False by done.
  destruct lists as (Htext & _ & Hfind).
  eapply tt_bind with (Q' := λ t s, t = Some text ∧ fl s = f0).
  { apply tt_ask. intros c s [Hc _] Hs. split; [by apply Htext|done]. }
  intros t. apply tt_pure. intros ->. cbn beta iota zeta. fold proc_mtd_text.
  set (ps0 := map unused _).
  destruct (Hfind ps0) as (ps' & Hl & Hp).
  { subst ps0. rewrite length_map. by destruct (partitions g). }
  { subst ps0. apply Forall_map, Forall_true. done. }
  eapply tt_bind; [by apply (scan_lines_smooth (λ s, fl s = f0) _ _ _ ps' 0)|].
  intros [ps n]. cbn [fst snd]. apply tt_pure. intros (-> & Hn & Hnone).
  assert (0 < n) as Hpos.
  { destruct (decide (n = 0)) as [->|]; [|lia]. rewrite (Hnone eq_refl) in Hp. exfalso.
    destruct (list_find _ ps0) as [[i q]|] eqn:Ef; [|done]. apply list_find_Some in Ef as (Hi & [Hq _] & _).
    subst ps0. apply list_lookup_fmap_Some in Hi as (q' & -> & _). simpl in Hq. lia. }
  eapply tt_bind with (Q' := λ _ s, fl s = f0 ∧ table_ok s ∧
     (ps ← partitions (g_mtd_state (mtd s)); snd <$> list_find (is_named name) ps) = Some p);
    [|intros u; apply tt_ret; intros s Hs; by split].
  unfold set_state. apply tt_update. intros [] Hs. cbn in *. unfold table_ok. cbn. split_and!; try done.
  apply listed_length in Hl. rewrite Hl. subst ps0. rewrite length_map. by destruct (partitions g).
Qed.

(** ** The three pages *)
Notation pages := (page * MISC_PAGES).
Hypothesis pages_ok : 0 < pages ≤ INT_MAX.
(** There is room for the pages in the good units. *)
Definition room (f : Flash) : Prop := pages ≤ zlen (good_from p f 0) * U.

Lemma off_flash_table : off_flash table_ok.
Proof. by intros [] f. Qed.
Lemma framed {A} P (m : io MtdWorld A) Q : ttriple smooth P m Q (λ _, True) → keeps table_ok m →
  ttriple smooth (λ s, P s ∧ table_ok s) m (λ a s, Q a s ∧ table_ok s) (λ _, True).
Proof. intros Hm Hk. eapply tt_conseq; [apply (tt_ct _ _ _ _ _ _ _ _ Hm Hk)|done|done|done]. Qed.

Lemma smooth_all : all_smooth smooth.
Proof. by intros c. Qed.
Lemma contents_length f : zlen (contents p f) = zlen (good_from p f 0) * U.
Proof. unfold contents. apply blocks_length, good_from_all. Qed.

Lemma read_misc_ok v f0 : device v = Some name → room f0 →
  ttriple smooth (λ s, fl s = f0 ∧ table_ok s) (read_misc v)
    (λ r s, ∃ data, r = Some (p, page, data) ∧ zlen data = pages ∧ data `prefix_of` contents p f0 ∧
              same_blocks f0 (fl s) ∧ table_ok s) (λ _, True).
Proof.
  intros Hv Hroom. unfold read_misc. eapply tt_bind; [by apply scan_ok|]. intros u. apply tt_pure. intros _. cbn beta. eapply tt_get; [done|].
  eapply tt_bind with (Q' := λ o s, o = Some p ∧ fl s = f0 ∧ table_ok s).
  { cbn. unfold mtd_find_partition_by_name. intros s cs Hcs (? & ? & Hf). split; [done|]. by split. }
  intros o. apply tt_pure. intros ->. cbn beta iota. destruct lists as (_ & Hinfo & _).
  eapply tt_bind with (Q' := λ o s, (∃ size erase, o = Some (size, erase, page)) ∧ fl s = f0 ∧ table_ok s).
  { cbn. unfold mtd_partition_info. eapply tt_bind with (Q' := λ ok s, ok = true ∧ fl s = f0 ∧ table_ok s).
    { apply tt_ask. intros c s [Hc _] Hs. split; [by apply open_works|done]. }
    intros ok. apply tt_pure. intros ->. rewrite decide_False by done.
    apply tt_ask. intros c s [Hc _] Hs. split; [|done]. by apply Hinfo. }
  intros o. apply tt_pure. intros (size & erase & ->). cbn beta iota.
  eapply tt_bind; [apply (framed (λ s, fl s = f0)); [apply (mtd_read_partition_ok p described smooth f0 smooth_all)|
    apply keeps_read_partition]|].
  intros o. eapply tt_conseq with (R' := λ _, True) (P' := λ s, ∃ ctx : ReadContext, o = Some ctx ∧ reading p f0 [] ctx s ∧ table_ok s);
    [|intros s [(ctx & Ho & _ & ?) ?]; by exists ctx|intros ? ? Hx; exact Hx|done].
  apply tt_exists. intros ctx. apply tt_pure. intros ->. cbn beta iota zeta.
  eapply tt_bind; [apply (framed (reading p f0 [] ctx)); [apply (mtd_read_data_ok p described f0 [] pages ctx); lia|
    apply keeps_read_data, off_flash_table]|].
  intros [[r data] ctx']. cbn [fst snd app].
  eapply tt_conseq with (R' := λ _, True) (P' := λ s, (r = pages ∧ zlen data = pages ∧ data `prefix_of` contents p f0) ∧
      same_blocks f0 (fl s) ∧ table_ok s);
    [| |intros ? ? Hx; exact Hx|done].
  2: { intros s [[(Hr0 & Hl & Hr)|[_ Hshort]] Ht].
       - split; [|split; [apply Hr|done]]. split_and!; [done|done|]. by eapply reading_prefix.
       - rewrite contents_length in Hshort. change (zlen []) with 0 in Hshort. unfold room in Hroom. lia. }
  apply tt_pure. intros (-> & Hl & Hpre).
  eapply tt_bind with (Q' := λ _ s, same_blocks f0 (fl s) ∧ table_ok s).
  { cbn. unfold mtd_read_close. eapply tt_bind with (Q' := λ _ s, same_blocks f0 (fl s) ∧ table_ok s);
      [by apply tt_choose|]. intros c. by apply tt_ret. }
  intros x. rewrite decide_False by (intros Hx; by apply Hx). apply tt_ret. intros s [Hs Ht]. by exists data.
Qed.

(** ** Setting and getting *)
Hypothesis big_pages : MESSAGE ≤ page * 2.
Definition misc_message (m : bootloader_message) (f : Flash) : Prop :=
  room f ∧ ∃ data, data `prefix_of` contents p f ∧ zlen data = pages ∧ zslice data page MESSAGE = Some (message_bytes m).

Lemma get_flash_ok out v m f0 : device v = Some name → sized m → misc_message m f0 →
  ttriple smooth (λ s, fl s = f0 ∧ table_ok s) (get_bootloader_message_mtd out v)
    (λ r s, r = (0, m) ∧ same_blocks f0 (fl s) ∧ table_ok s) (λ _, True).
Proof.
  intros Hv Hm (Hroom & data & Hpre & Hl & Hmsg). unfold get_bootloader_message_mtd.
  eapply tt_bind; [by apply read_misc_ok|]. intros o. apply tt_exists. intros data'. apply tt_pure. intros ->.
  apply tt_pure. intros Hl'. apply tt_pure. intros Hpre'. cbn beta iota.
  assert (data' = data) as ->.
  { destruct Hpre as [k Ek], Hpre' as [k' Ek']. rewrite Ek in Ek'. apply app_inj_1 in Ek' as [? _]; [done|].
    unfold zlen in *. lia. }
  unfold MISC_COMMAND_PAGE. rewrite Z.mul_1_r. eapply tt_get; [exact Hmsg|]. apply tt_ret. intros s Hs.
  by rewrite bytes_message_bytes.
Qed.

Lemma set_flash_ok v m f0 : device v = Some name → sized m → room f0 →
  ttriple smooth (λ s, fl s = f0 ∧ table_ok s) (set_bootloader_message_mtd m v)
    (λ r s, r = 0 ∧ misc_message m (fl s) ∧ table_ok s) (λ _, True).
Proof.
  intros Hv Hm Hroom. unfold set_bootloader_message_mtd. pose proof (message_bytes_length m Hm) as Hml.
  eapply tt_bind; [by apply read_misc_ok|]. intros o. apply tt_exists. intros data. apply tt_pure. intros ->.
  apply tt_pure. intros Hl. apply tt_pure. intros _. cbn beta iota.
  unfold MISC_COMMAND_PAGE. rewrite Z.mul_1_r.
  assert (∃ a c, data = a ++ take 1088 (drop (Z.to_nat page) data) ++ c ∧ zlen a = page ∧
    store data page (message_bytes m) = Some (a ++ message_bytes m ++ c) ∧ zlen (a ++ message_bytes m ++ c) = pages)
    as (a & c & _ & Ha & Hst & Hl').
  { exists (take (Z.to_nat page) data), (drop (Z.to_nat (page + MESSAGE)) data). unfold MISC_PAGES, MESSAGE in *.
    assert (zlen (take (Z.to_nat page) data) = page) as Htk by (unfold zlen in *; rewrite length_take; lia).
    split_and!; [|done| |].
    - rewrite <- (take_drop (Z.to_nat page) data) at 1. f_equal.
      rewrite <- (take_drop 1088 (drop (Z.to_nat page) data)) at 1. f_equal. rewrite drop_drop. f_equal. lia.
    - unfold store. rewrite decide_True by lia. by rewrite Hml.
    - rewrite !zlen_app, Hml, Htk. unfold zlen in *. rewrite length_drop. lia. }
  eapply tt_get; [exact Hst|].
  apply (tt_conseq _ _ (λ s, ∃ f1, (fl s = f1 ∧ table_ok s) ∧ same_blocks f0 f1) _ _
    (λ r s, r = 0 ∧ misc_message m (fl s) ∧ table_ok s) _ (λ _, True)); [|intros s [? ?]; by exists (fl s)|done|done].
  apply tt_exists. intros f1. apply tt_split. intros Hsame.
  pose proof (good_from_same p f0 f1 0 Hsame) as Hgood.
  assert (∀ d, zlen d = pages → ¬ too_big p smooth f1 d) as Hfits.
  { intros d Hd Hbig. specialize (Hbig smooth_all). rewrite Hgood, Hd in Hbig. unfold room in Hroom. lia. }
  eapply tt_bind; [apply (framed (λ s, fl s = f1)); [by apply (mtd_write_partition_ok p described smooth f1)|
    apply keeps_write_partition]|].
  intros o. eapply tt_conseq with (R' := λ _, True) (P' := λ s, ∃ ctx : WriteContext, o = Some ctx ∧ (stored ctx = 0) ∧
      accepted p smooth f1 [] ctx s ∧ table_ok s); [| |intros ? ? Hx; exact Hx|done].
  2: { intros s [Ho ?]. destruct o as [ctx|]; [|destruct (Ho smooth_all)]. exists ctx. tauto. }
  apply tt_exists. intros ctx. apply tt_pure. intros ->. apply tt_pure. intros Hst0. cbn beta iota.
  pose proof (unit_positive (device_index p)) as HU.
  eapply tt_bind; [apply framed; [apply (session_write_data p described smooth f1 [] _ ctx); lia|
    apply keeps_write_data, off_flash_table]|].
  intros [r ctx']. cbn [fst snd app].
  eapply tt_conseq with (R' := λ _, True) (P' := λ s, (r = pages ∧ stored ctx' < U) ∧ accepted p smooth f1 (a ++ message_bytes m ++ c) ctx' s ∧ table_ok s);
    [| |intros ? ? Hx; exact Hx|done].
  2: { intros s [[(Hr0 & ? & ?)|(_ & _ & Hbig)] ?]; [by rewrite Hr0, Hl'|by apply Hfits in Hbig]. }
  apply tt_pure. intros [-> Hst1]. rewrite decide_False by (intros Hx; by apply Hx).
  eapply tt_bind; [apply framed; [by apply (session_close p described smooth f1 _ ctx')|apply keeps_write_close, off_flash_table]|].
  intros r. apply tt_ret. intros s [[(-> & pad & ctx2 & _ & _ & _ & Hs)|[_ Hbig]] Ht]; [|by apply Hfits in Hbig].
  rewrite decide_False by (intros Hx; by apply Hx). split_and!; [done| |done].
  destruct Hs as (Hbad & _ & Hsm & i & us & Hi & _ & _ & _ & _ & Hbl & Hg).
  assert (good_from p (fl s) 0 = good_from p f1 0) as Hgf
    by (unfold good_from; apply list_filter_iff; intros j; by rewrite Hbad).
  split; [unfold room; rewrite Hgf, Hgood; exact Hroom|]. exists (a ++ message_bytes m ++ c). split_and!; [|done|].
  - unfold contents. rewrite Hgf, (Hg smooth_all), blocks_app, Hbl by (apply Hsm, smooth_all). rewrite <- app_assoc. by apply prefix_app_r.
  - rewrite <- Ha, <- Hml. apply zslice_app.
Qed.
End message.

(** * Properties *)


(** Pages of less than 544 bytes: the structure is copied from behind the array. *)
Lemma small_pages_overrun {D} `{!Mtd.Mtd D} v out (s : Sys D) cs part page data s' cs' :
  read_misc v s cs = Ret (Some (part, page, data)) s' cs' → zlen data = page * MISC_PAGES → page * 2 < MESSAGE →
  get_bootloader_message_mtd out v s cs = Crashed.
Proof.
  intros E Hl Hp. unfold get_bootloader_message_mtd. rewrite (io_bind_ret _ _ _ _ _ _ _ E). cbn beta iota.
  assert (zslice data (page * MISC_COMMAND_PAGE) MESSAGE = None) as ->; [|done].
  unfold zslice, MISC_COMMAND_PAGE, MISC_PAGES in *. rewrite decide_False by lia. done.
Qed.

(** ** An example: five units of 2048 bytes, two of them bad, with pages of 1024 bytes *)
Module MiscExample.
#[local] Existing Instance abi32.
Definition misc_text : string := String.concat quote
    ["dev:    size   erasesize  name
mtd0: 00002800 00000800 "; "misc"; "
"].
#[local] Instance misc_driver : MtdDriver := ram_driver_of 2048 1024 misc_text.
#[local] Instance misc_laws : MtdDriverLaws misc_driver.
Proof. apply ram_laws_of. lia. Defined.
Definition misc_partition : Partition := mkPartition 0 10240 2048 (Some "misc"%string).
Definition misc_device : Sys MtdWorld :=
  mkSys ∅ ∅ (mkMtdWorld (mkMtdState None 0) (mkRam [0; 2]%nat ∅)) false ∅ [].
Definition misc_volume : Volume := mkVolume "/misc" "mtd" (Some "misc") None 0 None None None None.
Lemma misc_listed : lists_partition misc_partition "misc" misc_text 1024.
Proof.
  split_and!.
  - done.
  - intros f c _. by exists 10240, 2048.
  - intros ps Hl _. destruct ps as [|x ps]; [done|]. eexists. split; [by vm_compute|]. done.
Qed.
End MiscExample.
