(* ===== verification/MmcUtils.v ===== *)
(** The partitions of an eMMC device: [mmcutils/mmcutils.c].

    Streams of the C library, the table of partitions read from the master boot record and the chain of extended
    boot records, and the raw copies. *)
From S2P Require Import Prelude CLib Bytes World Mtd Volumes BootMessage.

(** * Streams

    What is written to a stream stays in its buffer until a part of it is passed on, by a later write or by
    [fclose]; how much, the environment chooses. *)
Record Stream := mkStream { st_path : string; st_pos : Z; st_pending : bytes }.
Definition splice (pos : Z) (d old : bytes) : bytes :=
  take (Z.to_nat pos) old ++ d ++ drop (Z.to_nat pos + length d) old.

Section streams.
Context `{Abi} {D : Type}.
(** A block device does not grow. *)
Definition put_at (path : string) (pos : Z) (d : bytes) (s : Sys D) : Sys D :=
  match emmc s !! path with
  | Some old => set_emmc (insert path (take (length old) (splice pos d old))) s
  | None => set_files (alter (λ f, mkFile (splice pos d (f_data f)) (f_mode f) (f_uid f) (f_gid f)) path) s
  end.
Definition flush (k : Z) (st : Stream) : io D Stream :=
  let k := Z.to_nat (Z.min (Z.max 0 k) (zlen (st_pending st))) in
  _ ← update_sys (put_at (st_path st) (st_pos st) (take k (st_pending st)));
  mret (mkStream (st_path st) (st_pos st + Z.of_nat k) (drop k (st_pending st))).

(** [fopen] for reading: whether it succeeds. *)
Definition fopen_r (path : string) : io D bool :=
  c ← choose; f ← read_sys (device_contents path);
  mret (bool_decide (c ≠ 0 ∧ is_Some f)).
Definition fopen_w (path : string) : io D (option Stream) :=
  dev ← read_sys (λ s, bool_decide (is_Some (emmc s !! path)));
  ok ← (if (dev : bool) then c ← choose; mret (bool_decide (c ≠ 0)) else sys_fopen_w path);
  mret (if (ok : bool) then Some (mkStream path 0 []) else None).
(** [fread] of [n] bytes at [pos]: the bytes that were read. *)
Definition read_at (path : string) (pos n : Z) : io D bytes :=
  f ← read_sys (device_contents path);
  sys_read (drop (Z.to_nat pos) (default [] f)) n.
(** [fwrite]: whether all was taken; with a choice of 0 or below it fails, after some bytes. *)
Definition fwrite (st : Stream) (d : bytes) : io D (bool * Stream) :=
  c ← choose;
  if decide (c ≤ 0)
  then mret (false, mkStream (st_path st) (st_pos st) (st_pending st ++ take (Z.to_nat (- c)) d)) else
  st ← flush (c - 1) (mkStream (st_path st) (st_pos st) (st_pending st ++ d));
  mret (true, st).
(** The result of [fclose] is never looked at. *)
Definition fclose (st : Stream) : io D unit := c ← choose; _ ← flush c st; mret tt.
(** [fseek] to the end and [ftell], as an [unsigned]. *)
Definition stream_size (path : string) : io D Z :=
  f ← read_sys (device_contents path);
  let n := zlen (default [] f) in
  mret (u32 (if decide (n ≤ LONG_MAX) then n else -1)).

(** ** Copies *)
(** [fgetc] and [fputc] until the end of the input, or until [size] bytes were copied; the results of [fputc] are not
    looked at. *)
Fixpoint copy_bytes (fuel : nat) (in_file : string) (pos : Z) (size : option Z) (out : Stream) : io D Stream :=
  match fuel with
  | O => lift OutOfFuel
  | S fuel =>
      ch ← read_at in_file pos 1;
      match ch with
      | [] => mret out
      | _ =>
          '(_, out) ← fwrite out ch;
          if decide (size = Some (pos + 1)) then mret out else copy_bytes fuel in_file (pos + 1) size out
      end
  end.
Fixpoint copy_blocks (n : nat) (in_file : string) (pos : Z) (out : Stream) : io D (bool * Stream) :=
  match n with
  | O => mret (true, out)
  | S n =>
      buf ← read_at in_file pos 512;
      if decide (zlen buf ≠ 512) then mret (false, out) else
      '(ok, out) ← fwrite out buf;
      if negb ok then mret (false, out) else copy_blocks n in_file (pos + 512) out
  end.
(** Copies a file to a stream; [size] is the number of bytes, [limit] where the copy of single bytes stops. *)
Definition copy_contents (in_file : string) (size : Z) (limit : option Z) (out : Stream) : io D Z :=
  f ← read_sys (device_contents in_file);
  '(ok, out) ← (if decide (size mod 512 ≠ 0)
                then out ← copy_bytes (S (length (default [] f))) in_file 0 limit out; mret (true, out)
                else copy_blocks (Z.to_nat (size / 512)) in_file 0 out);
  _ ← fclose out;
  mret (if (ok : bool) then 0 else -1).
(** [size] 0 stands for the size of the input. *)
Definition raw_copy (in_file out_file : string) (size : Z) (counted : bool) : io D Z :=
  ok ← fopen_r in_file;
  if negb ok then mret (-1) else
  out ← fopen_w out_file;
  match out with
  | None => mret (-1)
  | Some out =>
      size ← (if decide (size = 0) then stream_size in_file else mret size);
      copy_contents in_file size (if counted then Some size else None) out
  end.
End streams.

(** * The table of partitions *)
Record MmcPartition := mkMmcPartition {
  d_index : option string; d_filesystem : option string; d_name : option string;
  dstatus : Z; dtype : Z; dfirstsec : Z; dsize : Z
}.
Definition blank_partition : MmcPartition := mkMmcPartition None None None 0 0 0 0.
(** [g_mmc_state] without the number of entries allocated. *)
Record MmcState := mkMmcState { mmc_partitions : option (list MmcPartition); partition_count : Z }.
Definition mmc_init : MmcState := mkMmcState None (-1).

Definition ext3_partitions : list string := ["system"; "userdata"; "cache"; "NONE"]%string.
Definition vfat_partitions : list string := ["modem"; "NONE"]%string.
Definition MMC_DEVICENAME : string := "/dev/block/mmcblk0".
Definition MAX_PARTITIONS : Z := 64.
Definition TABLE_ENTRY_0 : Z := 446.
Definition TABLE_ENTRY_1 : Z := 462.
Definition TABLE_ENTRY_SIZE : Z := 16.
Definition TABLE_SIGNATURE : Z := 510.
Definition MMC_BOOT_TYPE : Z := 72.
Definition MMC_RECOVERY_TYPE : Z := 113.
Definition MMC_EXT3_TYPE : Z := 131.
Definition MMC_VFAT_TYPE : Z := 12.

(** The next name of a list, until ["NONE"]; the name and the counter. *)
Definition next_name (names : list string) (count : Z) (old : option string) : run (option string * Z) :=
  n ← access (znth names count);
  Done (if decide (n = "NONE"%string) then (old, count) else (Some n, count + 1)).
Definition set_name (name filesystem : option string) (p : MmcPartition) : MmcPartition :=
  mkMmcPartition (d_index p) filesystem name (dstatus p) (dtype p) (dfirstsec p) (dsize p).
(** [ext3_count] and [vfat_count] before and after. *)
Definition mmc_partition_name (mbr : MmcPartition) (type : Z) (counts : Z * Z) : run (MmcPartition * (Z * Z)) :=
  let '(ext3_count, vfat_count) := counts in
  if decide (type = MMC_BOOT_TYPE) then Done (set_name (Some "boot"%string) (d_filesystem mbr) mbr, counts)
  else if decide (type = MMC_RECOVERY_TYPE) then Done (set_name (Some "recovery"%string) (d_filesystem mbr) mbr, counts)
  else if decide (type = MMC_EXT3_TYPE) then
    '(name, c) ← next_name ext3_partitions ext3_count (d_name mbr);
    Done (set_name name (Some "ext3"%string) mbr, (c, vfat_count))
  else if decide (type = MMC_VFAT_TYPE) then
    '(name, c) ← next_name vfat_partitions vfat_count (d_name mbr);
    Done (set_name name (Some "vfat"%string) mbr, (ext3_count, c))
  else Done (mbr, counts).

(** The table while it is read: [mbr], the counters of the names, and [mmc_partition_count]. *)
Record Scan := mkScan { sc_table : list MmcPartition; sc_counts : Z * Z; sc_count : Z }.

Definition signed (buffer : bytes) : run bool :=
  a ← access (znth buffer TABLE_SIGNATURE); b ← access (znth buffer (TABLE_SIGNATURE + 1));
  Done (bool_decide (a = 85 ∧ b = 170)).
Definition read_record (device : string) (buffer : bytes) (entry base : Z) (t : Scan) : run Scan :=
  p ← access (znth (sc_table t) (sc_count t));
  status ← access (znth buffer entry);
  type ← access (znth buffer (entry + 4));
  first ← access (get4LE buffer (entry + 8));
  size ← access (get4LE buffer (entry + 12));
  '(p, counts) ← mmc_partition_name
     (mkMmcPartition (d_index p) (d_filesystem p) (d_name p) status type (u32 (first + base)) size) type (sc_counts t);
  let name := (device +:+ "p" +:+ pretty (sc_count t + 1))%string in
  if decide (128 ≤ strlen name) then Fault else
  Done (mkScan (<[Z.to_nat (sc_count t) := mkMmcPartition (Some name) (d_filesystem p) (d_name p) (dstatus p) (dtype p)
                   (dfirstsec p) (dsize p)]> (sc_table t)) counts (sc_count t + 1)).
(** The entries [i .. i + n) of the master boot record: whether the table is full. *)
Fixpoint read_primaries (n : nat) (device : string) (buffer : bytes) (i : Z) (t : Scan) : run (bool * Scan) :=
  match n with
  | O => Done (false, t)
  | S n =>
      t ← read_record device buffer (TABLE_ENTRY_0 + i * TABLE_ENTRY_SIZE) 0 t;
      if decide (sc_count t = MAX_PARTITIONS) then Done (true, t) else read_primaries n device buffer (i + 1) t
  end.

Section mmc.
Context `{Abi} {D : Type}.

(** [fseek] to an offset computed as an [unsigned] and passed as a [long]; it fails when that is negative, which is not
    noticed. *)
Definition fseek_sector (pos sector : Z) : Z :=
  let off := wrap_s long_bits (u32 (sector * 512)) in if decide (off < 0) then pos else off.
(** [fread] of a block at [pos]. *)
Definition read_sector (device : string) (pos : Z) : io D (option bytes) :=
  b ← read_at device pos 512;
  mret (if decide (zlen b = 512) then Some b else None).

(** The loop over the extended boot records, with the block in [buffer] and the position behind it: the count, or -1. *)
Fixpoint read_ebr (n : nat) (device : string) (first current pos : Z) (buffer : bytes) (t : Scan) : io D (Z * Scan) :=
  match n with
  | O => lift OutOfFuel
  | S n =>
      ok ← lift (signed buffer);
      if negb ok then mret (sc_count t, t) else
      t ← lift (read_record device buffer TABLE_ENTRY_0 current t);
      if decide (sc_count t = MAX_PARTITIONS) then mret (sc_count t, t) else
      next ← lift (access (get4LE buffer (TABLE_ENTRY_1 + 8)));
      if decide (next = 0) then mret (sc_count t, t) else
      let pos := fseek_sector pos (first + next) in
      b ← read_sector device pos;
      match b with
      | None => mret (-1, t)
      | Some buffer => read_ebr n device first (u32 (first + next)) (pos + 512) buffer t
      end
  end.

Definition mmc_read_mbr (device : string) (mbr : list MmcPartition) : io D (Z * list MmcPartition) :=
  fd ← fopen_r device;
  if negb fd then mret (-1, mbr) else
  b ← read_sector device 0;
  match b with
  | None => mret (-1, mbr)
  | Some buffer =>
      ok ← lift (signed buffer);
      if negb ok then mret (-1, mbr) else
      '(full, t) ← lift (read_primaries 4 device buffer 0 (mkScan mbr (0, 0) 0));
      if (full : bool) then mret (sc_count t, sc_table t) else
      last ← lift (access (znth (sc_table t) (sc_count t - 1)));
      if decide (dtype last ≠ 5) then mret (sc_count t, sc_table t) else
      let first := dfirstsec last in
      let pos := fseek_sector 512 first in
      b ← read_sector device pos;
      match b with
      | None => mret (-1, sc_table t)
      | Some buffer =>
          '(ret, t) ← read_ebr (Z.to_nat MAX_PARTITIONS) device first first (pos + 512) buffer t;
          mret (ret, sc_table t)
      end
  end.

Definition clear_names (p : MmcPartition) : MmcPartition :=
  mkMmcPartition None None None (dstatus p) (dtype p) (dfirstsec p) (dsize p).
Definition mmc_scan_partitions (g : MmcState) : io D (Z * MmcState) :=
  got ← (match mmc_partitions g with Some _ => mret true | None => c ← choose; mret (bool_decide (c ≠ 0)) end);
  if negb got then mret (-1, g) else
  let mbr := map clear_names (default (replicate (Z.to_nat MAX_PARTITIONS) blank_partition) (mmc_partitions g)) in
  '(count, mbr) ← mmc_read_mbr MMC_DEVICENAME mbr;
  mret (count, mkMmcState (Some mbr) count).

Definition mmc_find (field : MmcPartition → option string) (name : string) (g : MmcState) : option MmcPartition :=
  ps ← mmc_partitions g;
  snd <$> list_find (λ p, is_Some (d_index p) ∧ is_Some (d_name p) ∧ field p = Some name) ps.
Definition mmc_find_partition_by_device_index (device_index : string) (g : MmcState) : option MmcPartition :=
  mmc_find d_index device_index g.
Definition mmc_find_partition_by_name (name : string) (g : MmcState) : option MmcPartition :=
  if String.prefix "/" name then mmc_find_partition_by_device_index name g else mmc_find d_name name g.

(** * Raw access *)
Definition mmc_raw_copy (partition : MmcPartition) (in_file : string) : io D Z :=
  out_file ← lift (access (d_index partition)); raw_copy in_file out_file 0 false.
Definition mmc_raw_dump_internal (in_file out_file : string) (size : Z) : io D Z := raw_copy in_file out_file size true.
Definition mmc_raw_dump (partition : MmcPartition) (out_file : string) : io D Z :=
  in_file ← lift (access (d_index partition)); mmc_raw_dump_internal in_file out_file 0.
(** The result and what is in [data] now; the result of [fread] is not looked at. *)
Definition mmc_raw_read (partition : MmcPartition) (data : bytes) : io D (Z * bytes) :=
  in_file ← lift (access (d_index partition));
  ok ← fopen_r in_file;
  if negb ok then mret (-1, data) else
  b ← read_at in_file 0 (zlen data);
  mret (0, b ++ drop (length b) data).
Definition mmc_raw_write (partition : MmcPartition) (data : bytes) : io D Z :=
  out_file ← lift (access (d_index partition));
  out ← fopen_w out_file;
  match out with
  | None => mret (-1)
  | Some out => '(_, out) ← fwrite out data; _ ← fclose out; mret 0
  end.

(** * Formatting and mounting *)
(** A child process runs a program: its wait status. *)
Context (spawn : list string → io D Z).
(** [WIFEXITED] and [WEXITSTATUS]. *)
Definition exited (status : Z) : bool := bool_decide (Z.land status 127 = 0).
Definition exit_status (status : Z) : Z := Z.land (Z.shiftr status 8) 255.
Definition run_exec_process (argv : list string) : io D Z :=
  status ← spawn argv;
  mret (if negb (exited status) || bool_decide (exit_status status ≠ 0) then 1 else 0).
Fixpoint run_all (cmds : list (list string)) : io D Z :=
  match cmds with
  | [] => mret 0
  | c :: cmds => r ← run_exec_process c; if decide (r ≠ 0) then mret (-1) else run_all cmds
  end.
Definition MKE2FS_BIN : string := "/sbin/mke2fs".
Definition TUNE2FS_BIN : string := "/sbin/tune2fs".
Definition E2FSCK_BIN : string := "/sbin/e2fsck".
Definition format_ext3_device (device : string) : io D Z :=
  run_all [[MKE2FS_BIN; "-j"; "-q"; device]; [TUNE2FS_BIN; "-C"; "1"; device]; [E2FSCK_BIN; "-fy"; device]]%string.
Definition format_ext2_device (device : string) : io D Z :=
  run_all [[MKE2FS_BIN; device]; [TUNE2FS_BIN; "-C"; "1"; device]; [E2FSCK_BIN; "-fy"; device]]%string.
Definition mmc_format_ext3 (partition : MmcPartition) : io D Z :=
  device ← lift (access (d_index partition));
  if decide (128 ≤ strlen device) then lift Fault else format_ext3_device device.

Context `{Kernel}.
Definition mmc_mount_partition (partition : MmcPartition) (mount_point : string) (read_only : bool) (w : Mounts)
    : io D (Z * Mounts) :=
  devname ← lift (access (d_index partition));
  if decide (128 ≤ strlen devname) then lift Fault else
  match d_filesystem partition with
  | None => mret (-1, w)
  | Some fs =>
      '(rv, w) ← (if read_only then mret (-1, w)
                  else ask_kernel (λ k, do_mount k (Some devname) (Some mount_point) (Some fs) MS_QUIET None) w);
      if decide (read_only = true ∨ rv < 0)
      then ask_kernel (λ k, do_mount k (Some devname) (Some mount_point) (Some fs) (Z.lor MS_QUIET MS_RDONLY) None) w
      else mret (rv, w)
  end.

(** * Commands *)
Definition cmd_mmc_restore_raw_partition (partition filename : string) (g : MmcState) : io D (Z * MmcState) :=
  if negb (String.prefix "/" partition) then
    '(_, g) ← mmc_scan_partitions g;
    match mmc_find_partition_by_name partition g with
    | None => mret (-1, g)
    | Some p => r ← mmc_raw_copy p filename; mret (r, g)
    end
  else r ← mmc_raw_dump_internal filename partition 0; mret (r, g).
(** The sizes the board gives for its boot, recovery and boot loader devices, if any. *)
Context (device_sizes : string → option Z).
Definition cmd_mmc_backup_raw_partition (partition filename : string) (g : MmcState) : io D (Z * MmcState) :=
  if negb (String.prefix "/" partition) then
    '(_, g) ← mmc_scan_partitions g;
    match mmc_find_partition_by_name partition g with
    | None => mret (-1, g)
    | Some p => r ← mmc_raw_dump p filename; mret (r, g)
    end
  else r ← mmc_raw_dump_internal partition filename (default 0 (device_sizes partition)); mret (r, g).
Definition cmd_mmc_erase_raw_partition (partition : string) : io D Z := mret 0.
Definition cmd_mmc_erase_partition (partition : string) (g : MmcState) : io D (Z * MmcState) :=
  '(_, g) ← mmc_scan_partitions g;
  match mmc_find_partition_by_name partition g with
  | None => mret (-1, g)
  | Some p => r ← mmc_format_ext3 p; mret (r, g)
  end.
Definition cmd_mmc_mount_partition (partition mount_point : string) (read_only : bool) (g : MmcState) (w : Mounts)
    : io D (Z * MmcState * Mounts) :=
  '(_, g) ← mmc_scan_partitions g;
  match mmc_find_partition_by_name partition g with
  | None => mret (-1, g, w)
  | Some p => '(r, w) ← mmc_mount_partition p mount_point read_only w; mret (r, g, w)
  end.
(** The result and the text put into [device]. *)
Definition cmd_mmc_get_partition_device (partition : string) (g : MmcState) : io D (Z * option string * MmcState) :=
  '(_, g) ← mmc_scan_partitions g;
  match mmc_find_partition_by_name partition g with
  | None => mret (-1, None, g)
  | Some p => d ← lift (access (d_index p)); mret (0, Some d, g)
  end.
End mmc.

(** * Reading the table *)

(** A record as it is on the disk; the first sector is counted from [base]. *)
Record DiskRecord := mkRecord { r_status : Z; r_type : Z; r_first : Z; r_size : Z }.
Definition record_at (buffer : bytes) (entry base : Z) : option DiskRecord :=
  status ← znth buffer entry;
  type ← znth buffer (entry + 4);
  first ← get4LE buffer (entry + 8);
  size ← get4LE buffer (entry + 12);
  Some (mkRecord status type (u32 (first + base)) size).
Definition block_at (disk : bytes) (n : Z) : option bytes := zslice disk (n * 512) 512.

(** How many records of a type there are. *)
Definition count_type (ty : Z) (types : list Z) : nat := length (filter (ty =.) types).
(** The name and the file system of a partition of type [type] that comes after partitions of the types [before]. *)
Definition name_for (before : list Z) (type : Z) : option string :=
  if decide (type = MMC_BOOT_TYPE) then Some "boot"%string
  else if decide (type = MMC_RECOVERY_TYPE) then Some "recovery"%string
  else if decide (type = MMC_EXT3_TYPE) then ["system"; "userdata"; "cache"]%string !! count_type MMC_EXT3_TYPE before
  else if decide (type = MMC_VFAT_TYPE) then ["modem"]%string !! count_type MMC_VFAT_TYPE before
  else None.
Definition fs_for (type : Z) : option string :=
  if decide (type = MMC_EXT3_TYPE) then Some "ext3"%string
  else if decide (type = MMC_VFAT_TYPE) then Some "vfat"%string else None.
(** The partitions for the records [rs] behind records of the types [before]. *)
Fixpoint partitions_for (device : string) (before : list Z) (rs : list DiskRecord) : list MmcPartition :=
  match rs with
  | [] => []
  | r :: rs =>
      mkMmcPartition (Some (device +:+ "p" +:+ pretty (zlen before + 1))) (fs_for (r_type r)) (name_for before (r_type r))
        (r_status r) (r_type r) (r_first r) (r_size r) :: partitions_for device (before ++ [r_type r]) rs
  end.

(** The chain of extended boot records from the sector [current], in the first 2 GiB of the device. *)
Inductive ebr_chain (disk : bytes) (first : Z) : Z → list DiskRecord → Prop :=
| ebr_unsigned current b : 0 ≤ current < 2 ^ 22 → block_at disk current = Some b → signed b = Done false →
    ebr_chain disk first current []
| ebr_last current b r : 0 ≤ current < 2 ^ 22 → block_at disk current = Some b → signed b = Done true →
    record_at b TABLE_ENTRY_0 current = Some r → get4LE b (TABLE_ENTRY_1 + 8) = Some 0 →
    ebr_chain disk first current [r]
| ebr_next current b r next rs : 0 ≤ current < 2 ^ 22 → block_at disk current = Some b → signed b = Done true →
    record_at b TABLE_ENTRY_0 current = Some r → get4LE b (TABLE_ENTRY_1 + 8) = Some next → next ≠ 0 →
    ebr_chain disk first (first + next) rs → ebr_chain disk first current (r :: rs).
(** The records of a disk: those of the master boot record, and the chain when the last of them is an extended
    partition. *)
Definition disk_records (disk : bytes) (rs : list DiskRecord) : Prop :=
  ∃ b r0 r1 r2 r3 ls, block_at disk 0 = Some b ∧ signed b = Done true ∧
    record_at b 446 0 = Some r0 ∧ record_at b 462 0 = Some r1 ∧ record_at b 478 0 = Some r2 ∧
    record_at b 494 0 = Some r3 ∧ rs = [r0; r1; r2; r3] ++ ls ∧
    if decide (r_type r3 = 5) then ebr_chain disk (r_first r3) (r_first r3) ls else ls = [].

Lemma short_number n : 1 ≤ n ≤ 64 → strlen (pretty n) ≤ 2.
Proof.
  intros Hn. assert (Forall (λ n, strlen (pretty n) ≤ 2) (seqZ 1 64)) as Hall by (vm_compute; repeat constructor; discriminate).
  rewrite Forall_forall in Hall. apply Hall, elem_of_seqZ. lia.
Qed.

Section reading.
Context `{Abi} {D : Type}.
Context (device : string) (disk : bytes) (mbr0 : list MmcPartition).
Hypothesis short_name : strlen device < 120.
Hypothesis room : length mbr0 = 64%nat.
Hypothesis no_names : Forall (λ p, d_filesystem p = None ∧ d_name p = None) mbr0.
Notation types := (map r_type).

(** The state once the records [rs] are read. *)
Definition scan_of (rs : list DiskRecord) : Scan :=
  mkScan (partitions_for device [] rs ++ drop (length rs) mbr0)
    (Z.min 3 (Z.of_nat (count_type MMC_EXT3_TYPE (types rs))), Z.min 1 (Z.of_nat (count_type MMC_VFAT_TYPE (types rs))))
    (zlen rs).

Lemma partitions_for_app rs r : ∀ before,
  partitions_for device before (rs ++ [r]) = partitions_for device before rs ++ partitions_for device (before ++ types rs) [r].
Proof.
  induction rs as [|x rs IH]; intros before; [by rewrite app_nil_r|]. cbn [partitions_for app map].
  rewrite IH, <- app_assoc. done.
Qed.
Lemma partitions_for_length rs : ∀ before, length (partitions_for device before rs) = length rs.
Proof. induction rs; intros; simpl; auto. Qed.

Lemma count_type_snoc ty l x : count_type ty (l ++ [x]) = (count_type ty l + if decide (ty = x) then 1 else 0)%nat.
Proof. unfold count_type. rewrite filter_app, length_app. f_equal. rewrite filter_cons. by case_decide. Qed.

(** The names the counters give. *)
Lemma next_name_ok names n (k : nat) :
  names !! k = Some n → next_name names (Z.of_nat k) None =
    Done (if decide (n = "NONE"%string) then (None, Z.of_nat k) else (Some n, Z.of_nat k + 1)).
Proof. intros E. unfold next_name, znth. rewrite decide_True, Nat2Z.id, E by lia. done. Qed.

Lemma naming p rs : d_filesystem p = None → d_name p = None →
  mmc_partition_name p (dtype p) (sc_counts (scan_of rs)) =
    Done (set_name (name_for (types rs) (dtype p)) (fs_for (dtype p)) p,
      (Z.min 3 (Z.of_nat (count_type MMC_EXT3_TYPE (types rs ++ [dtype p]))),
       Z.min 1 (Z.of_nat (count_type MMC_VFAT_TYPE (types rs ++ [dtype p]))))).
Proof.
  intros Hf Hn. unfold mmc_partition_name, name_for, fs_for. cbn [scan_of sc_counts].
  rewrite !count_type_snoc. generalize (types rs). intros ts.
  case_decide as E1; [rewrite E1; simpl; rewrite !Nat.add_0_r, Hf; by repeat f_equal|].
  case_decide as E2; [rewrite E2; simpl; rewrite !Nat.add_0_r, Hf; by repeat f_equal|].
  case_decide as E3.
  - rewrite E3. set (k := count_type MMC_EXT3_TYPE ts). rewrite Hn. cbn [decide]. rewrite Nat.add_0_r.
    assert (k = 0 ∨ k = 1 ∨ k = 2 ∨ 3 ≤ k)%nat as [->|[->|[->|Hk]]] by lia; [done..|].
    replace (Z.min 3 (Z.of_nat k)) with 3 by lia. change 3 with (Z.of_nat 3) at 1.
    rewrite (next_name_ok _ "NONE"%string 3) by done. simpl. f_equal. f_equal.
    + f_equal. symmetry. apply lookup_ge_None_2. simpl. lia.
    + f_equal; cbn; lia.
  - case_decide as E4; [|rewrite !(decide_False (P := _ = dtype p)) by done; rewrite !Nat.add_0_r; destruct p; simpl in *; by subst].
    rewrite E4. set (k := count_type MMC_VFAT_TYPE ts). rewrite Hn, Nat.add_0_r.
    assert (k = 0 ∨ 1 ≤ k)%nat as [->|Hk] by lia; [done|].
    replace (Z.min 1 (Z.of_nat k)) with 1 by lia. change 1 with (Z.of_nat 1) at 1.
    rewrite (next_name_ok _ "NONE"%string 1) by done. simpl. f_equal. f_equal.
    + f_equal. symmetry. apply lookup_ge_None_2. simpl. lia.
    + f_equal; cbn; lia.
Qed.

Lemma read_record_ok rs buffer entry base r : (length rs < 64)%nat → record_at buffer entry base = Some r →
  read_record device buffer entry base (scan_of rs) = Done (scan_of (rs ++ [r])).
Proof.
  intros Hl Hr. unfold record_at in Hr.
  destruct (znth buffer entry) as [st|] eqn:E1; [|done]. cbn [mbind option_bind] in Hr.
  destruct (znth buffer (entry + 4)) as [ty|] eqn:E2; [|done]. cbn [mbind option_bind] in Hr.
  destruct (get4LE buffer (entry + 8)) as [fi|] eqn:E3; [|done]. cbn [mbind option_bind] in Hr.
  destruct (get4LE buffer (entry + 12)) as [si|] eqn:E4; [|done]. cbn [mbind option_bind] in Hr. injection Hr as <-.
  destruct (lookup_lt_is_Some_2 mbr0 (length rs) ltac:(lia)) as [p Hp].
  pose proof Hp as [Hf Hn]%(Forall_lookup_1 _ _ _ _ no_names).
  unfold read_record. rewrite E1, E2, E3, E4. cbn [scan_of sc_table sc_count].
  assert (znth (partitions_for device [] rs ++ drop (length rs) mbr0) (zlen rs) = Some p) as ->.
  { unfold znth, zlen. rewrite decide_True, Nat2Z.id, lookup_app_r by (rewrite ?partitions_for_length; lia).
    rewrite partitions_for_length, Nat.sub_diag, lookup_drop, Nat.add_0_r. done. }
  cbn [access mbind run_bind].
  change (sc_counts _) with (sc_counts (scan_of rs)).
  match goal with |- context [mmc_partition_name ?q ty _] => pose proof (naming q rs Hf Hn) as Hname end.
  cbn [dtype] in Hname. rewrite Hname. clear Hname. cbn [mbind run_bind]. cbn beta iota zeta.
  rewrite decide_False.
  2: { rewrite !strlen_app. change (strlen "p") with 1. pose proof (short_number (zlen rs + 1)). unfold zlen in *. lia. }
  unfold scan_of. f_equal. f_equal.
  - replace (Z.to_nat (zlen rs)) with (length rs) by (unfold zlen; lia). rewrite insert_app_r_alt by (rewrite partitions_for_length; lia).
    rewrite partitions_for_length, Nat.sub_diag, partitions_for_app, <- app_assoc. f_equal.
    erewrite drop_S by exact Hp. rewrite length_app. simpl. rewrite Nat.add_1_r. f_equal.
    unfold set_name. simpl. f_equal. unfold zlen. by rewrite length_map.
  - rewrite map_app. done.
  - by rewrite zlen_app.
Qed.

(** Every call succeeds, and reads whole blocks. *)
Definition whole_blocks (c : Z) : Prop := 512 ≤ c.
Definition on_disk (s : Sys D) : Prop := device_contents device s = Some disk.

Lemma read_block b n : block_at disk n = Some b → 0 ≤ n →
  ttriple whole_blocks on_disk (read_sector device (n * 512)) (λ r s, r = Some b ∧ on_disk s) (λ _, True).
Proof.
  intros Hb Hn. unfold read_sector, read_at, sys_read. pose proof (zslice_length _ _ _ _ Hb) as (Hl & _ & _).
  eapply tt_bind with (Q' := λ r s, r = b ∧ on_disk s).
  - eapply tt_bind with (Q' := λ r s, r = Some disk ∧ on_disk s); [by apply tt_read|].
    intros f. apply tt_pure. intros ->.
    eapply tt_bind with (Q' := λ c s, whole_blocks c ∧ on_disk s); [by apply tt_choose|].
    intros c. apply tt_pure. intros Hc. apply tt_ret. intros s Hs. split; [|done].
    unfold whole_blocks in Hc. replace (Z.min (Z.max 0 c) 512) with 512 by lia.
    unfold block_at, zslice in Hb. case_decide; [|done]. by injection Hb as <-.
  - intros r. apply tt_pure. intros ->. apply tt_ret. intros s Hs. split; [|done]. by rewrite decide_True.
Qed.
Lemma near n pos : 0 ≤ n < 2 ^ 22 → fseek_sector pos n = n * 512.
Proof.
  intros Hn. unfold fseek_sector. rewrite wrap_u_id by (unfold in_u; lia).
  rewrite wrap_s_id; [by rewrite decide_False by lia|destruct long_bits_ok as [-> | ->]; lia|].
  unfold in_s. destruct long_bits_ok as [-> | ->]; lia.
Qed.

Lemma chain_start first current ls : ebr_chain disk first current ls → 0 ≤ current < 2 ^ 22 ∧ is_Some (block_at disk current).
Proof. destruct 1; eauto. Qed.

Lemma read_ebr_ok first current ls : ebr_chain disk first current ls → ∀ n rs pos b,
  zlen rs + zlen ls ≤ 64 → (length ls < n)%nat → zlen rs < 64 → block_at disk current = Some b →
  ttriple whole_blocks on_disk (read_ebr n device first current pos b (scan_of rs))
    (λ r s, r = (zlen (rs ++ ls), scan_of (rs ++ ls)) ∧ on_disk s) (λ _, True).
Proof.
  induction 1 as [current b' Hc Hb Hs|current b' r Hc Hb Hs Hr Hn|current b' r next ls Hc Hb Hs Hr Hn Hnz Hch IH];
    intros n rs pos b Hlen Hfuel Hrs E; rewrite Hb in E; injection E as <-;
    (destruct n as [|n]; [lia|]); cbn [read_ebr]; (eapply tt_lift_bind; [exact Hs|]); cbn [negb].
  - rewrite app_nil_r. by apply tt_ret.
  - eapply tt_lift_bind; [apply read_record_ok; [unfold zlen in *; lia|done]|].
    apply tt_decide; intros Hfull; [by apply tt_ret|].
    eapply tt_get; [exact Hn|]. rewrite decide_True by done. by apply tt_ret.
  - assert (ls ≠ [] ∨ ls = []) as Hls by (destruct ls; auto).
    eapply tt_lift_bind; [apply read_record_ok; [unfold zlen in *; lia|done]|].
    rewrite (app_assoc rs [r] ls : rs ++ r :: ls = (rs ++ [r]) ++ ls).
    rewrite zlen_cons in Hlen. pose proof (zlen_nonneg ls).
    apply tt_decide; intros Hfull.
    { cbn [scan_of sc_count] in Hfull. unfold MAX_PARTITIONS in Hfull. rewrite zlen_app in Hfull. change (zlen [r]) with 1 in Hfull.
      assert (ls = []) as -> by (destruct ls; [done|rewrite zlen_cons in Hlen; pose proof (zlen_nonneg ls); lia]).
      rewrite app_nil_r. by apply tt_ret. }
    eapply tt_get; [exact Hn|]. rewrite decide_False by done.
    destruct (chain_start _ _ _ Hch) as [Hnear [b1 Hb1]].
    rewrite near by done. eapply tt_bind; [by apply read_block; [exact Hb1|lia]|].
    intros o. cbn beta. apply tt_pure. intros ->. cbn beta iota.
    rewrite (wrap_u_id 32 (first + next)) by (unfold in_u; lia).
    assert (zlen (rs ++ [r]) = zlen rs + 1) as El by (by rewrite zlen_app).
    cbn [scan_of sc_count] in Hfull. rewrite El in Hfull. unfold MAX_PARTITIONS in Hfull. simpl in Hfuel.
    apply IH; [lia|lia|lia|done].
Qed.

Lemma primaries_ok buffer n i t rs : (∀ k, (k < n)%nat →
    is_Some (rs !! k) ∧ record_at buffer (TABLE_ENTRY_0 + (i + Z.of_nat k) * TABLE_ENTRY_SIZE) 0 = rs !! k) →
  length rs = n → zlen t + zlen rs < 64 → read_primaries n device buffer i (scan_of t) = Done (false, scan_of (t ++ rs)).
Proof.
  revert i t rs. induction n as [|n IH]; intros i t rs Hrs Hn Hl.
  - destruct rs; [|done]. by rewrite app_nil_r.
  - destruct rs as [|r rs]; [done|]. rewrite zlen_cons in Hl. pose proof (zlen_nonneg rs).
    cbn [read_primaries]. destruct (Hrs 0%nat ltac:(lia)) as [_ Hr]. simpl in Hr. rewrite Z.add_0_r in Hr.
    rewrite (read_record_ok t buffer _ 0 r) by (done || unfold zlen in *; lia). cbn [mbind run_bind].
    rewrite decide_False by (cbn [scan_of sc_count]; unfold MAX_PARTITIONS; rewrite zlen_app; change (zlen [r]) with 1; lia).
    rewrite IH with (rs := rs); [by rewrite <- app_assoc| |simpl in Hn; lia|rewrite zlen_app; change (zlen [r]) with 1; lia].
    intros k Hk. specialize (Hrs (S k) ltac:(lia)). simpl in Hrs.
    replace (i + Z.of_nat (S k)) with (i + 1 + Z.of_nat k) in Hrs by lia. exact Hrs.
Qed.

(** The partitions of a device are found, in their order. *)
Lemma mmc_read_mbr_ok rs : disk_records disk rs → zlen rs ≤ 64 →
  ttriple whole_blocks on_disk (mmc_read_mbr device mbr0)
    (λ r s, r = (zlen rs, partitions_for device [] rs ++ drop (length rs) mbr0) ∧ on_disk s) (λ _, True).
Proof.
  intros (b & r0 & r1 & r2 & r3 & ls & Hb & Hs & H0 & H1 & H2 & H3 & -> & Hls) Hlen. unfold mmc_read_mbr.
  eapply tt_bind with (Q' := λ ok s, ok = true ∧ on_disk s).
  { unfold fopen_r. eapply tt_bind with (Q' := λ c s, whole_blocks c ∧ on_disk s); [by apply tt_choose|].
    intros c. apply tt_pure. intros Hc.
    eapply tt_bind with (Q' := λ f s, f = Some disk ∧ on_disk s); [by apply tt_read|].
    intros f. apply tt_pure. intros ->. apply tt_ret. intros s Hd. split; [|done].
    apply bool_decide_eq_true. unfold whole_blocks in Hc. split; [lia|eauto]. }
  intros ok. apply tt_pure. intros ->. cbn [negb].
  eapply tt_bind; [apply (read_block b 0 Hb); lia|]. intros o. cbn beta. apply tt_pure. intros ->. cbn beta iota.
  eapply tt_lift_bind; [exact Hs|]. cbn [negb].
  assert (mkScan mbr0 (0, 0) 0 = scan_of []) as ->.
  { unfold scan_of, count_type. simpl. by rewrite drop_0. }
  eapply tt_lift_bind.
  { apply (primaries_ok b 4 0 [] [r0; r1; r2; r3]); [|done|done].
    intros k Hk. destruct k as [|[|[|[|k]]]]; [..|lia]; simpl; split; eauto. }
  cbn [app]. cbn beta iota.
  eapply tt_get.
  { unfold scan_of, znth. cbn [sc_table sc_count]. change (zlen [r0; r1; r2; r3] - 1) with 3. rewrite decide_True by lia. reflexivity. }
  cbn [dtype dfirstsec].
  rewrite zlen_app in Hlen. change (zlen [r0; r1; r2; r3]) with 4 in Hlen.
  destruct (decide (r_type r3 = 5)) as [E5|E5].
  - rewrite decide_False by tauto.
    destruct (chain_start _ _ _ Hls) as [Hnear [b1 Hb1]].
    rewrite near by done. eapply tt_bind; [apply (read_block b1 _ Hb1); lia|]. intros o. cbn beta.
    apply tt_pure. intros ->. cbn beta iota.
    eapply tt_bind; [apply (read_ebr_ok _ _ ls Hls _ [r0; r1; r2; r3]); [done|
      change (Z.to_nat MAX_PARTITIONS) with 64%nat; unfold zlen in *; lia|done|done]|].
    intros [x t]. cbn beta. apply tt_pure. intros [= -> ->]. by apply tt_ret.
  - rewrite decide_True by done. subst ls. by apply tt_ret.
Qed.
End reading.

Lemma partitions_for_indexed device rs : ∀ before, Forall (λ p, is_Some (d_index p)) (partitions_for device before rs).
Proof. induction rs as [|r rs IH]; intros before; cbn [partitions_for]; constructor; eauto. Qed.
(** Entries that are not part of the table are not found. *)
Lemma find_in_table field name (ps rest : list MmcPartition) count :
  Forall (λ p, is_Some (d_index p)) ps → Forall (λ p, d_index p = None) rest →
  mmc_find field name (mkMmcState (Some (ps ++ rest)) count) =
    snd <$> list_find (λ p, is_Some (d_name p) ∧ field p = Some name) ps.
Proof.
  intros Hps Hrest. unfold mmc_find. cbn [mmc_partitions mbind option_bind].
  assert (list_find (λ p, is_Some (d_index p) ∧ is_Some (d_name p) ∧ field p = Some name) rest = None) as Hno.
  { apply list_find_None. eapply Forall_impl; [exact Hrest|]. intros p Hp [Hi _]. simpl in Hp. rewrite Hp in Hi.
    by destruct Hi. }
  induction Hps as [|p ps Hp _ IH].
  - simpl. by rewrite Hno.
  - cbn [app list_find]. repeat case_decide; [done|tauto|tauto|].
    destruct (list_find _ (ps ++ rest)) as [[? ?]|], (list_find _ ps) as [[? ?]|]; simpl in *; congruence.
Qed.

Section scanning.
Context `{Abi} {D : Type}.
Lemma mmc_scan_ok disk rs g : disk_records disk rs → zlen rs ≤ 64 →
  match mmc_partitions g with Some ps => length ps = 64%nat | None => True end →
  ttriple whole_blocks (on_disk (D := D) MMC_DEVICENAME disk) (mmc_scan_partitions g)
    (λ r _, ∃ rest, Forall (λ p, d_index p = None ∧ d_name p = None) rest ∧
       r = (zlen rs, mkMmcState (Some (partitions_for MMC_DEVICENAME [] rs ++ rest)) (zlen rs))) (λ _, True).
Proof.
  intros Hrs Hlen Hg. unfold mmc_scan_partitions.
  set (mbr := map clear_names _).
  assert (length mbr = 64%nat) as Hroom by (subst mbr; rewrite length_map; by destruct (mmc_partitions g)).
  assert (Forall (λ p, d_index p = None ∧ d_filesystem p = None ∧ d_name p = None) mbr) as Hclear
    by (apply Forall_map, Forall_true; done).
  eapply tt_bind with (Q' := λ b s, b = true ∧ on_disk MMC_DEVICENAME disk s).
  { destruct (mmc_partitions g); [by apply tt_ret|].
    eapply tt_bind with (Q' := λ c s, whole_blocks c ∧ on_disk MMC_DEVICENAME disk s); [by apply tt_choose|].
    intros c. apply tt_pure. intros Hc. apply tt_ret. intros s' Hs. split; [|done]. apply bool_decide_eq_true.
    unfold whole_blocks in Hc. lia. }
  intros b. apply tt_pure. intros ->. cbn [negb].
  eapply tt_bind; [apply (mmc_read_mbr_ok MMC_DEVICENAME disk mbr); try done;
    eapply Forall_impl; [exact Hclear|by intros ? (_ & ?)]|].
  intros [r t]. cbn beta. apply tt_pure. intros [= -> ->]. apply tt_ret. intros s _.
  exists (drop (length rs) mbr). split; [|done]. apply Forall_drop. eapply Forall_impl; [exact Hclear|naive_solver].
Qed.
End scanning.

(** C28: On a disk whose master boot record and chain of extended boot records, all within the first 2 GiB, list at most 64 partitions,
    and with reads that succeed, [mmc_scan_partitions] ends with a table that holds exactly these partitions, in the order of the master boot
    record and of the chain, under the names that go with their types, and behind them only entries without a
    device or a name; finding a partition by name or device finds the first of these. *)
Theorem mmc_scan_partitions_finds `{Abi} {D} disk rs g (s : Sys D) cs :
  device_contents MMC_DEVICENAME s = Some disk → disk_records disk rs → zlen rs ≤ 64 →
  match mmc_partitions g with Some ps => length ps = 64%nat | None => True end → Forall whole_blocks cs →
  match mmc_scan_partitions g s cs with
  | Ret (r, g') _ _ => r = zlen rs ∧
      (∃ rest, g' = mkMmcState (Some (partitions_for MMC_DEVICENAME [] rs ++ rest)) (zlen rs) ∧
         Forall (λ p, d_index p = None ∧ d_name p = None) rest) ∧
      ∀ name, mmc_find_partition_by_name name g' =
        snd <$> list_find (λ p, is_Some (d_name p) ∧
          (if String.prefix "/" name then d_index p else d_name p) = Some name) (partitions_for MMC_DEVICENAME [] rs)
  | Stop _ => True
  | Crashed | Hung => False
  end.
Proof.
  intros Hd Hrs Hlen Hg Hcs. pose proof (mmc_scan_ok disk rs g Hrs Hlen Hg s cs Hcs Hd) as Hscan.
  destruct (mmc_scan_partitions g s cs) as [[r g'] s' cs'|s'| |]; try done.
  destruct Hscan as (_ & rest & Hrest & [= -> ->]). split_and!; [done|by exists rest|].
  intros name. unfold mmc_find_partition_by_name, mmc_find_partition_by_device_index.
  destruct (String.prefix "/" name); apply find_in_table; [apply partitions_for_indexed| |apply partitions_for_indexed|];
    (eapply Forall_impl; [exact Hrest|by intros p []]).
Qed.

(** * Any disk *)
Section any_disk.
Context `{Abi} {D : Type}.
Context (device : string).
Hypothesis short_name : strlen device < 120.

Definition names_ok (t : Scan) : Prop :=
  length (sc_table t) = 64%nat ∧ 0 ≤ (sc_counts t).1 ≤ 3 ∧ 0 ≤ (sc_counts t).2 ≤ 1.

Lemma next_name_safe names count old : last names = Some "NONE"%string → 0 ≤ count < zlen names →
  run_ok (next_name names count old) (λ r, 0 ≤ r.2 < zlen names).
Proof.
  intros Hlast Hc. unfold next_name. eapply run_ok_bind; [apply run_ok_access_is; [by apply znth_is_Some|intros n E; exact E]|].
  intros n E. apply run_ok_done. case_decide as Hn; simpl; [done|]. split; [lia|].
  destruct (decide (count = zlen names - 1)) as [->|]; [|lia]. exfalso. apply Hn.
  rewrite last_lookup in Hlast. unfold znth, zlen in E. rewrite decide_True in E by (unfold zlen in Hc; lia).
  replace (Z.to_nat _) with (pred (length names)) in E by lia. congruence.
Qed.
Lemma naming_safe p ty counts : 0 ≤ counts.1 ≤ 3 → 0 ≤ counts.2 ≤ 1 →
  run_ok (mmc_partition_name p ty counts) (λ r, (0 ≤ r.2.1 ≤ 3 ∧ 0 ≤ r.2.2 ≤ 1) ∧ dtype r.1 = dtype p).
Proof.
  destruct counts as [e v]. simpl. intros He Hv. unfold mmc_partition_name.
  do 2 (case_decide; [by apply run_ok_done|]).
  case_decide; [|case_decide; [|by apply run_ok_done]].
  - eapply run_ok_bind; [apply next_name_safe; [done|change (zlen ext3_partitions) with 4; lia]|].
    change (zlen ext3_partitions) with 4. intros [n c] Hc. apply run_ok_done. simpl in *. split; [lia|done].
  - eapply run_ok_bind; [apply next_name_safe; [done|change (zlen vfat_partitions) with 2; lia]|].
    change (zlen vfat_partitions) with 2. intros [n c] Hc. apply run_ok_done. simpl in *. split; [lia|done].
Qed.
Lemma get4LE_inside b i : 0 ≤ i → i + 4 ≤ zlen b → is_Some (get4LE b i).
Proof.
  intros Hi Hl. unfold get4LE.
  destruct (proj2 (znth_is_Some b i) ltac:(lia)) as [? ->]. destruct (proj2 (znth_is_Some b (i + 1)) ltac:(lia)) as [? ->].
  destruct (proj2 (znth_is_Some b (i + 2)) ltac:(lia)) as [? ->]. destruct (proj2 (znth_is_Some b (i + 3)) ltac:(lia)) as [? ->].
  by eexists.
Qed.

Lemma read_record_safe buffer entry base t : zlen buffer = 512 → 0 ≤ entry ≤ 496 → names_ok t → 0 ≤ sc_count t < 64 →
  run_ok (read_record device buffer entry base t) (λ t', names_ok t' ∧ sc_count t' = sc_count t + 1).
Proof.
  intros Hb He (Hl & Hc1 & Hc2) Hn. unfold read_record.
  eapply run_ok_bind; [apply run_ok_access_is; [apply znth_is_Some; unfold zlen; lia|intros p _; exact I]|]. intros p _.
  do 2 (eapply run_ok_bind; [apply run_ok_access_is; [apply znth_is_Some; lia|intros ? _; exact I]|]; intros ? _).
  do 2 (eapply run_ok_bind; [apply run_ok_access_is; [apply get4LE_inside; lia|intros ? _; exact I]|]; intros ? _).
  eapply run_ok_bind; [by apply naming_safe|]. intros [p' counts] [Hcounts _].
  rewrite decide_False.
  2: { rewrite !strlen_app. change (strlen "p") with 1. pose proof (short_number (sc_count t + 1)). lia. }
  apply run_ok_done. split; [|done]. split; [|done]. simpl. by rewrite length_insert.
Qed.
Lemma primaries_safe buffer n : zlen buffer = 512 → ∀ i t, 0 ≤ i → i + Z.of_nat n ≤ 4 → names_ok t →
  0 ≤ sc_count t → sc_count t + Z.of_nat n < 64 →
  run_ok (read_primaries n device buffer i t) (λ r, names_ok r.2 ∧ sc_count r.2 = sc_count t + Z.of_nat n ∧ r.1 = false).
Proof.
  intros Hb. induction n as [|n IH]; intros i t Hi Hn Ht Hc Hmax; cbn [read_primaries].
  { apply run_ok_done. split_and!; try done. simpl. lia. }
  eapply run_ok_bind; [apply read_record_safe; try done; unfold TABLE_ENTRY_0, TABLE_ENTRY_SIZE; lia|].
  intros t' [Ht' Hc']. rewrite decide_False by (unfold MAX_PARTITIONS; lia).
  eapply run_ok_weaken; [apply IH; [lia|lia|done|lia|lia]|].
  intros [full t2] (? & ? & ?). simpl in *. split_and!; [done|lia|done].
Qed.

Notation TT := (λ _ : Sys D, True).
Definition free_choice (_ : Z) : Prop := True.

Lemma sector_safe pos : ttriple free_choice TT (read_sector device pos)
  (λ r _, ∀ b, r = Some b → zlen b = 512) TT.
Proof.
  unfold read_sector, read_at, sys_read. eapply tt_bind with (Q' := λ _ _, True).
  - eapply tt_bind with (Q' := λ _ _, True); [by apply tt_read|]. intros f.
    eapply tt_bind with (Q' := λ _ _, True); [by apply tt_choose|]. intros c. by apply tt_ret.
  - intros b. apply tt_ret. intros s _ b'. by case_decide; intros [= <-].
Qed.
Lemma signed_safe b : zlen b = 512 → ∃ r, signed b = Done r.
Proof.
  intros Hb. unfold signed.
  destruct (proj2 (znth_is_Some b TABLE_SIGNATURE) ltac:(unfold TABLE_SIGNATURE; lia)) as [? ->].
  destruct (proj2 (znth_is_Some b (TABLE_SIGNATURE + 1)) ltac:(unfold TABLE_SIGNATURE; lia)) as [? ->]. by eexists.
Qed.

Definition count_ok (r : Z) (table : list MmcPartition) : Prop := (r = -1 ∨ 4 ≤ r ≤ 64) ∧ length table = 64%nat.
Lemma ebr_safe first n : ∀ current pos b t, zlen b = 512 → names_ok t → 4 ≤ sc_count t < 64 →
  (64 - Z.to_nat (sc_count t) < n)%nat →
  ttriple free_choice TT (read_ebr n device first current pos b t) (λ r _, count_ok r.1 (sc_table r.2)) TT.
Proof.
  induction n as [|n IH]; intros current pos b t Hb Ht Hc Hfuel; [lia|]. cbn [read_ebr].
  destruct (signed_safe b Hb) as [ok Hok]. eapply tt_lift_bind; [exact Hok|].
  assert (∀ t', names_ok t' → length (sc_table t') = 64%nat) as Htab by (by intros t' (? & _)).
  destruct ok; cbn [negb]; [|apply tt_ret; intros; split; simpl; [lia|auto]].
  destruct (read_record_safe b TABLE_ENTRY_0 current t Hb ltac:(unfold TABLE_ENTRY_0; lia) Ht ltac:(lia)) as (t' & Et & Ht' & Hc').
  eapply tt_lift_bind; [exact Et|].
  apply tt_decide; intros Hfull; [apply tt_ret; intros; split; simpl; [lia|auto]|]. unfold MAX_PARTITIONS in Hfull.
  destruct (get4LE_inside b (TABLE_ENTRY_1 + 8) ltac:(unfold TABLE_ENTRY_1; lia) ltac:(unfold TABLE_ENTRY_1; lia)) as [nx Hnx].
  eapply tt_get; [exact Hnx|].
  apply tt_decide; intros Hz; [apply tt_ret; intros; split; simpl; [lia|auto]|].
  eapply tt_bind; [apply sector_safe|]. intros [b'|]; cbn beta iota.
  - apply (tt_fact _ _ (zlen b' = 512)); [intros s Hs; by apply Hs|]. intros Hb'.
    eapply tt_conseq; [apply IH; try done; lia|done|intros ? ? Hx; exact Hx|done].
  - apply tt_ret. intros; split; simpl; [by left|auto].
Qed.

Lemma mmc_read_mbr_safe mbr : length mbr = 64%nat →
  ttriple free_choice TT (mmc_read_mbr device mbr) (λ r _, count_ok r.1 r.2) TT.
Proof.
  intros Hmbr. unfold mmc_read_mbr.
  eapply tt_bind with (Q' := λ _ _, True).
  { unfold fopen_r. eapply tt_bind with (Q' := λ _ _, True); [by apply tt_choose|]. intros c.
    eapply tt_bind with (Q' := λ _ _, True); [by apply tt_read|]. intros f. by apply tt_ret. }
  intros [|]; cbn [negb]; [|apply tt_ret; intros; split; simpl; [by left|done]].
  eapply tt_bind; [apply sector_safe|]. intros [b|]; cbn beta iota; [|apply tt_ret; intros; split; simpl; [by left|done]].
  apply (tt_fact _ _ (zlen b = 512)); [intros s Hs; by apply Hs|]. intros Hb.
  destruct (signed_safe b Hb) as [ok Hok]. eapply tt_lift_bind; [exact Hok|].
  destruct ok; cbn [negb]; [|apply tt_ret; intros; split; simpl; [by left|done]].
  destruct (primaries_safe b 4 Hb 0 (mkScan mbr (0, 0) 0) ltac:(lia) ltac:(lia) ltac:(split; [done|simpl; lia])
    ltac:(simpl; lia) ltac:(simpl; lia)) as ([full t] & Et & Ht & Hc & Hfull). simpl in Ht, Hc, Hfull. subst full.
  eapply tt_lift_bind; [exact Et|]. cbn beta iota.
  destruct Ht as (Hl & Hcs).
  destruct (proj2 (znth_is_Some (sc_table t) (sc_count t - 1)) ltac:(unfold zlen; lia)) as [lst Elst].
  eapply tt_get; [exact Elst|]. apply tt_decide; intros H5; [apply tt_ret; intros; split; simpl; [lia|done]|].
  eapply tt_bind; [eapply tt_conseq; [apply sector_safe|done|intros ? ? Hx; exact Hx|done]|]. intros [b'|]; cbn beta iota; [|apply tt_ret; intros; split; simpl; [by left|done]].
  apply (tt_fact _ _ (zlen b' = 512)); [intros s Hs; by apply Hs|]. intros Hb'.
  eapply tt_bind with (Q' := λ r _, count_ok r.1 (sc_table r.2)).
  - eapply tt_conseq; [apply ebr_safe; [done|done|lia|unfold MAX_PARTITIONS; lia]|done|intros ? ? Hx; exact Hx|done].
  - intros [r t']. by apply tt_ret.
Qed.
End any_disk.

(** C30: Whatever is on the disk, and however reading fails, [mmc_scan_partitions] comes to an end without an access outside
    the table, the block or the lists of names, and finds -1 or 4 to 64 partitions; a chain of extended boot
    records that comes back to itself is cut off when the table is full. *)
Theorem mmc_scan_partitions_safe `{Abi} {D} g (s : Sys D) cs :
  match mmc_partitions g with Some ps => length ps = 64%nat | None => True end →
  match mmc_scan_partitions g s cs with
  | Ret (r, g') _ _ => (r = -1 ∨ 4 ≤ r ≤ 64) ∧
      match mmc_partitions g' with Some ps => length ps = 64%nat | None => True end
  | Stop _ => True
  | Crashed | Hung => False
  end.
Proof.
  intros Hg.
  assert (ttriple free_choice (λ _, True) (mmc_scan_partitions (D := D) g) (λ r _, (r.1 = -1 ∨ 4 ≤ r.1 ≤ 64) ∧
    match mmc_partitions r.2 with Some ps => length ps = 64%nat | None => True end) (λ _, True)) as Hscan.
  { unfold mmc_scan_partitions. eapply tt_bind with (Q' := λ _ _, True).
    { destruct (mmc_partitions g); [by apply tt_ret|].
      eapply tt_bind with (Q' := λ _ _, True); [by apply tt_choose|]. intros c. by apply tt_ret. }
    intros [|]; cbn [negb]; [|apply tt_ret; intros; simpl; auto].
    eapply tt_bind; [apply mmc_read_mbr_safe; [done|rewrite length_map; by destruct (mmc_partitions g)]|].
    intros [r t]. apply tt_ret. intros s' [Hr Ht]. by split. }
  specialize (Hscan s cs (Forall_true _ _ (λ _, I)) I).
  destruct (mmc_scan_partitions g s cs) as [[r g'] s' cs'|s'| |]; try done. by destruct Hscan.
Qed.

(** * Raw copies *)
Section raw.
Context `{Abi} {D : Type}.
Context (in_file out_file : string) (d old : bytes) (s0 : Sys D) (C : Z → Prop).
Hypothesis source : device_contents in_file s0 = Some d.
Hypothesis target : emmc s0 !! out_file = Some old.
Hypothesis different : in_file ≠ out_file.
Hypothesis fits : zlen d ≤ zlen old.
Hypothesis sizes : 0 < zlen d < 2 ^ 31.
Hypothesis good : ∀ c, C c → whole_blocks c.

(** The first [k] bytes of the image are on the device; nothing else has changed. *)
Definition landed (k : nat) (s : Sys D) : Prop :=
  (k ≤ length d)%nat ∧ s = set_emmc (insert out_file (take k d ++ drop k old)) s0.
Definition partly_landed (s : Sys D) : Prop := s = s0 ∨ ∃ k, landed k s.
(** The first [n] bytes were written to the stream; those not on the device are in its buffer. *)
Definition copied (n : nat) (st : Stream) (s : Sys D) : Prop :=
  st_path st = out_file ∧ (n ≤ length d)%nat ∧
  ∃ k, st_pos st = Z.of_nat k ∧ take n d = take k d ++ st_pending st ∧ (k ≤ n)%nat ∧
       s = set_emmc (insert out_file (take k d ++ drop k old)) s0.

Lemma copied_landed n st s : copied n st s → partly_landed s.
Proof. intros (_ & Hn & k & _ & _ & Hk & ->). right. exists k. split; [lia|done]. Qed.
Lemma still_source n st s : copied n st s → device_contents in_file s = Some d.
Proof.
  intros (_ & _ & k & _ & _ & _ & ->). revert source. unfold device_contents. destruct s0. simpl.
  by rewrite lookup_insert_ne.
Qed.
Lemma insert_twice a b : set_emmc (insert out_file b) (set_emmc (insert out_file a) s0) = set_emmc (insert out_file b) s0.
Proof. destruct s0. simpl. by rewrite insert_insert_eq. Qed.

Lemma splice_next k m : (k + m ≤ length d)%nat →
  take (length (take k d ++ drop k old)) (splice (Z.of_nat k) (take m (drop k d)) (take k d ++ drop k old)) =
    take (k + m) d ++ drop (k + m) old.
Proof.
  intros Hm. unfold zlen in fits. unfold splice.
  rewrite Nat2Z.id, (take_app_length' (take k d) (drop k old) k) by (rewrite length_take; lia).
  assert (length (take m (drop k d)) = m) as -> by (rewrite length_take, length_drop; lia).
  rewrite drop_app_ge by (rewrite length_take; lia). rewrite drop_drop.
  rewrite take_ge by (repeat (rewrite length_app || rewrite length_drop || rewrite length_take); lia).
  assert (take (k + m) d = take k d ++ take m (drop k d)) as ->.
  { rewrite <- (take_drop k d) at 1. by rewrite take_app_add' by (rewrite length_take; lia). }
  rewrite <- app_assoc. do 2 f_equal. f_equal. rewrite length_take. lia.
Qed.

Lemma stream_flush_ok n st c : ttriple C (copied n st) (flush c st) (λ st' s, copied n st' s ∧
  (zlen (st_pending st) ≤ c → st_pending st' = [])) partly_landed.
Proof.
  intros s cs Hcs (Hp & Hn & k & Hpos & Htake & Hk & ->). unfold flush.
  set (m := Z.to_nat (Z.min (Z.max 0 c) (zlen (st_pending st)))).
  erewrite io_bind_ret by reflexivity. cbn. split; [done|].
  assert (m ≤ length (st_pending st))%nat as Hm by (subst m; unfold zlen; lia).
  assert (n = k + length (st_pending st))%nat as Hlen.
  { apply (f_equal length) in Htake. rewrite length_app, !length_take in Htake. lia. }
  assert (take m (st_pending st) = take m (drop k d)) as Hpend.
  { assert (st_pending st = take (length (st_pending st)) (drop k d)) as E.
    { rewrite Hlen, <- (take_drop k d), take_app_add' in Htake by (rewrite length_take; lia).
      rewrite take_app_length' in Htake by (rewrite length_take; lia). by apply app_inv_head in Htake. }
    rewrite E at 1. rewrite take_take. f_equal. lia. }
  split.
  - unfold copied. cbn [st_path st_pos st_pending]. split; [done|]. split; [done|]. exists (k + m)%nat.
    split; [lia|]. split; [|split; [lia|]].
    + rewrite Htake. rewrite <- (take_drop m (st_pending st)) at 1. rewrite Hpend, app_assoc. f_equal.
      rewrite <- (take_drop k d) at 3. rewrite take_app_add' by (rewrite length_take; lia). done.
    + unfold put_at. rewrite Hp. assert (emmc (set_emmc (insert out_file (take k d ++ drop k old)) s0) !! out_file =
        Some (take k d ++ drop k old)) as ->.
      { destruct s0. simpl. by rewrite lookup_insert_eq. }
      rewrite insert_twice. f_equal. f_equal. rewrite Hpos, Hpend. apply splice_next. lia.
  - intros Hc. cbn. rewrite drop_ge; [done|]. subst m. unfold zlen in *. lia.
Qed.
Lemma copied_more n st chunk s : copied n st s → take (n + length chunk) d = take n d ++ chunk →
  (n + length chunk ≤ length d)%nat →
  copied (n + length chunk) (mkStream (st_path st) (st_pos st) (st_pending st ++ chunk)) s.
Proof.
  intros (Hp & Hn & k & Hpos & Htake & Hk & ->) Hc Hl. split; [done|]. split; [done|]. exists k. cbn [st_pos st_pending].
  split; [done|]. split; [by rewrite Hc, Htake, app_assoc|]. split; [lia|done].
Qed.
Lemma fwrite_ok n st chunk : take (n + length chunk) d = take n d ++ chunk → (n + length chunk ≤ length d)%nat →
  ttriple C (copied n st) (fwrite st chunk) (λ r s, r.1 = true ∧ copied (n + length chunk) r.2 s) partly_landed.
Proof.
  intros Hc Hl. unfold fwrite.
  eapply tt_bind with (Q' := λ c s, whole_blocks c ∧ copied n st s); [apply tt_choose; eauto using copied_landed|].
  intros c. apply tt_pure. intros Hw. unfold whole_blocks in Hw. rewrite decide_False by lia.
  eapply tt_conseq with (P' := copied (n + length chunk) (mkStream (st_path st) (st_pos st) (st_pending st ++ chunk)));
    [|intros s Hs; by apply copied_more|intros ? ? Hx; exact Hx|done].
  eapply tt_bind; [apply stream_flush_ok|]. intros st'. apply tt_ret. intros s [? _]. by split.
Qed.
Lemma stream_read_ok n st len : (n ≤ length d)%nat → 0 < len ≤ 512 →
  ttriple C (copied n st) (read_at in_file (Z.of_nat n) len)
    (λ b s, b = take (Z.to_nat len) (drop n d) ∧ copied n st s) partly_landed.
Proof.
  intros Hn Hlen. unfold read_at, sys_read.
  eapply tt_bind with (Q' := λ f s, f = Some d ∧ copied n st s); [apply tt_read; eauto using still_source|].
  intros f. apply tt_pure. intros ->.
  eapply tt_bind with (Q' := λ c s, whole_blocks c ∧ copied n st s); [apply tt_choose; eauto using copied_landed|].
  intros c. apply tt_pure. intros Hw. apply tt_ret. intros s Hs. split; [|done]. unfold whole_blocks in Hw.
  rewrite Nat2Z.id. change (default [] (Some d)) with d. f_equal. lia.
Qed.

Lemma copy_bytes_ok fuel limit : ∀ n st, (length d - n < fuel)%nat → (n ≤ length d)%nat → n ≠ length d ∨ limit = None →
  limit = None ∨ limit = Some (zlen d) →
  ttriple C (copied n st) (copy_bytes fuel in_file (Z.of_nat n) limit st) (copied (length d)) partly_landed.
Proof.
  induction fuel as [|fuel IH]; intros n st Hf Hn Hend Hlim; [lia|]. cbn [copy_bytes].
  eapply tt_bind; [by apply stream_read_ok|]. intros b. cbn beta. apply tt_pure. intros ->.
  change (Z.to_nat 1) with 1%nat. destruct (drop n d) as [|x rest] eqn:Ed.
  - apply tt_ret. intros s Hs. assert (n = length d) as <-; [|done].
    apply (f_equal length) in Ed. rewrite length_drop in Ed. simpl in Ed. lia.
  - cbn [take]. assert (n < length d)%nat as Hlt.
    { apply (f_equal length) in Ed. rewrite length_drop in Ed. simpl in Ed. lia. }
    eapply tt_bind; [apply (fwrite_ok n st [x])|].
    { rewrite <- (take_drop n d) at 1. rewrite take_app_add', Ed by (rewrite length_take; lia). done. }
    { simpl. lia. }
    intros [ok st']. cbn [fst snd]. apply tt_pure. intros ->. change (length [x]) with 1%nat.
    replace (Z.of_nat n + 1) with (Z.of_nat (n + 1)) by lia.
    apply tt_decide; intros Hstop.
    + apply tt_ret. intros s Hs. assert (n + 1 = length d)%nat as <-; [|done].
      destruct Hlim as [-> | ->]; [done|]. injection Hstop as Hstop. unfold zlen in Hstop. lia.
    + apply IH; [lia|lia| |done]. destruct Hlim as [->|E]; [by right|]. left. intros En. apply Hstop.
      rewrite E, En. done.
Qed.
Lemma copy_blocks_ok m : ∀ n st, (n + m * 512 = length d)%nat →
  ttriple C (copied n st) (copy_blocks m in_file (Z.of_nat n) st)
    (λ r s, r.1 = true ∧ copied (length d) r.2 s) partly_landed.
Proof.
  induction m as [|m IH]; intros n st Hn; cbn [copy_blocks].
  - apply tt_ret. intros s Hs. split; [done|]. simpl. by replace (length d) with n by lia.
  - eapply tt_bind; [apply stream_read_ok; lia|]. intros b. cbn beta. apply tt_pure. intros ->.
    change (Z.to_nat 512) with 512%nat.
    assert (length (take 512 (drop n d)) = 512)%nat as Hl by (rewrite length_take, length_drop; lia).
    rewrite decide_False by (unfold zlen; rewrite Hl; intros Hx; by apply Hx).
    eapply tt_bind; [apply (fwrite_ok n st); rewrite Hl; [|lia]|].
    { rewrite <- (take_drop n d) at 1. rewrite take_app_add' by (rewrite length_take; lia). done. }
    intros [ok st']. cbn [fst snd]. apply tt_pure. intros ->. cbn [negb]. rewrite Hl.
    replace (Z.of_nat n + 512) with (Z.of_nat (n + 512)) by lia. apply IH. lia.
Qed.

Lemma raw_copy_ok counted :
  ttriple C (λ s, s = s0) (raw_copy in_file out_file 0 counted)
    (λ r s, r = 0 ∧ ∃ k, landed k s ∧ ((∀ c, C c → zlen d ≤ c) → k = length d)) partly_landed.
Proof.
  assert (∀ s, s = s0 → partly_landed s) as Hstart by (by left).
  unfold raw_copy.
  eapply tt_bind with (Q' := λ ok s, ok = true ∧ s = s0).
  { unfold fopen_r. eapply tt_bind with (Q' := λ c s, whole_blocks c ∧ s = s0); [apply tt_choose; eauto|].
    intros c. apply tt_pure. intros Hc.
    eapply tt_bind with (Q' := λ f s, f = Some d ∧ s = s0); [by apply tt_read; intros ? ->|].
    intros f. apply tt_pure. intros ->. apply tt_ret. intros s ->. split; [|done]. unfold whole_blocks in Hc.
    apply bool_decide_eq_true. split; [lia|by eexists]. }
  intros ok. apply tt_pure. intros ->. cbn [negb].
  eapply tt_bind with (Q' := λ o s, o = Some (mkStream out_file 0 []) ∧ s = s0).
  { unfold fopen_w. eapply tt_bind with (Q' := λ dev s, dev = true ∧ s = s0).
    { apply tt_read. intros s ->. split; [|done]. apply bool_decide_eq_true. rewrite target. by eexists. }
    intros dev. apply tt_pure. intros ->.
    eapply tt_bind with (Q' := λ ok s, ok = true ∧ s = s0).
    { eapply tt_bind with (Q' := λ c s, whole_blocks c ∧ s = s0); [apply tt_choose; eauto|].
      intros c. apply tt_pure. intros Hc. apply tt_ret. intros s ->. split; [|done]. unfold whole_blocks in Hc.
      apply bool_decide_eq_true. lia. }
    intros ok. apply tt_pure. intros ->. by apply tt_ret. }
  intros o. apply tt_pure. intros ->. cbn beta iota. rewrite decide_True by done.
  eapply tt_bind with (Q' := λ n s, n = zlen d ∧ s = s0).
  { unfold stream_size. eapply tt_bind with (Q' := λ f s, f = Some d ∧ s = s0); [by apply tt_read; intros ? ->|].
    intros f. apply tt_pure. intros ->. apply tt_ret. intros s ->. split; [|done]. change (default [] (Some d)) with d.
    assert (zlen d ≤ LONG_MAX) as Hmax by (unfold LONG_MAX; destruct long_bits_ok as [E | E]; rewrite E; lia).
    rewrite decide_True by done.
    apply wrap_u_id. unfold in_u. lia. }
  intros n. apply tt_pure. intros ->. unfold copy_contents.
  eapply tt_bind with (Q' := λ f s, f = Some d ∧ copied 0 (mkStream out_file 0 []) s).
  { apply tt_read. intros s ->. split; [done|]. split; [done|]. split; [lia|]. exists 0%nat. split_and!; try done.
    simpl. rewrite drop_0. destruct s0. simpl in *. by rewrite insert_id. }
  intros f. apply tt_pure. intros ->. change (default [] (Some d)) with d.
  eapply tt_bind with (Q' := λ r s, r.1 = true ∧ copied (length d) r.2 s).
  { apply tt_decide; intros Hmod.
    - eapply tt_bind with (Q' := λ st s, copied (length d) st s).
      + apply (copy_bytes_ok _ _ 0); [lia|lia| |destruct counted; auto]. left. unfold zlen in sizes. lia.
      + intros st. apply tt_ret. by intros s Hs.
    - apply (copy_blocks_ok _ 0). simpl. unfold zlen in *. 
      pose proof (Z.div_mod (Z.of_nat (length d)) 512 ltac:(lia)). lia. }
  intros [ok st]. cbn [fst snd]. apply tt_pure. intros ->.
  unfold fclose.
  eapply tt_bind with (Q' := λ _ s, ∃ k, landed k s ∧ ((∀ c, C c → zlen d ≤ c) → k = length d));
    [|intros _; by apply tt_ret].
  eapply tt_bind with (Q' := λ c s, C c ∧ copied (length d) st s); [apply tt_choose; eauto using copied_landed|].
  intros c. apply tt_pure. intros Hc.
  apply (tt_fact _ _ (zlen (st_pending st) ≤ zlen d)).
  { intros s (_ & _ & k & _ & E & _). apply (f_equal length) in E. rewrite length_app, !length_take in E. unfold zlen. lia. }
  intros Hpend.
  eapply tt_bind; [apply stream_flush_ok|]. intros st'. apply tt_ret.
  intros s [(_ & _ & k & _ & E & Hk & Hs) Hall]. exists k. split; [by split|]. intros Hbig.
  rewrite (Hall ltac:(specialize (Hbig c Hc); lia)), app_nil_r in E. apply (f_equal length) in E. rewrite !length_take in E. lia.
Qed.
End raw.

(** C29: [mmc_raw_copy], the way an image gets into an eMMC partition.  For an image of less than 2 GiB that is not empty and no longer than the
    device: when no call reports an error it returns 0 and the
    device begins with a part of the image, followed by what was there; with the buffer of the stream written out by
    [fclose] this is the whole image ([lost_writes_are_not_noticed] is a run where it is not).  When it is interrupted, too, only a part of
    the image is there; nothing else changes.  Both ways of copying, by blocks and by bytes, do this. *)
Theorem mmc_raw_copy_installs `{Abi} {D} p in_file out_file d old (s : Sys D) C cs :
  d_index p = Some out_file → device_contents in_file s = Some d → emmc s !! out_file = Some old →
  in_file ≠ out_file → zlen d ≤ zlen old → 0 < zlen d < 2 ^ 31 → (∀ c, C c → whole_blocks c) → Forall C cs →
  let installed k s' := s' = set_emmc (insert out_file (take k d ++ drop k old)) s in
  match mmc_raw_copy p in_file s cs with
  | Ret r s' _ => r = 0 ∧ ∃ k, installed k s' ∧ ((∀ c, C c → zlen d ≤ c) → k = length d)
  | Stop s' => s' = s ∨ ∃ k, installed k s'
  | Crashed | Hung => False
  end.
Proof.
  intros Hp Hin Hout Hne Hfits Hsz HC Hcs installed. unfold mmc_raw_copy. rewrite Hp.
  erewrite io_bind_ret by reflexivity.
  pose proof (raw_copy_ok in_file out_file d old s C Hin Hout Hne Hfits Hsz HC false s cs Hcs eq_refl) as Hrun.
  unfold landed, partly_landed, landed in Hrun. subst installed.
  destruct (raw_copy in_file out_file 0 false s cs) as [r s' cs'|s'| |]; try done.
  - destruct Hrun as (_ & -> & k & [_ ->] & Hk). split; [done|]. by exists k.
  - destruct Hrun as [->|(k & _ & ->)]; [by left|right; by exists k].
Qed.

(** Failing calls are not all noticed: when the size of the image is not a multiple of 512, or only [fclose] fails,
    [mmc_raw_copy] returns 0 without the image on the device. *)
Module MmcExample.
#[local] Existing Instance abi32.
Definition boot : MmcPartition := mkMmcPartition (Some "/dev/block/mmcblk0p1"%string) None (Some "boot"%string) 0 72 1 4.
Definition phone (img : bytes) : Sys unit :=
  mkSys {[ "/sdcard/boot.img"%string := mkFile img 420 0 0 ]} {[ "/dev/block/mmcblk0p1"%string := replicate 600 7 ]} tt false ∅ [].
Definition ret_of {A} (o : outcome unit A) : option (A * option bytes) :=
  match o with Ret a s _ => Some (a, emmc s !! "/dev/block/mmcblk0p1"%string) | _ => None end.

Lemma lost_writes_are_not_noticed :
  ret_of (mmc_raw_copy boot "/sdcard/boot.img" (phone [1; 2; 3]) [1; 1; 1; 0; 1; 0; 1; 0; 1; 0]) =
    Some (0, Some (replicate 600 7)) ∧
  ret_of (mmc_raw_copy boot "/sdcard/boot.img" (phone (replicate 512 1)) [1; 1; 512; 1; 0]) = Some (0, Some (replicate 600 7)).
Proof. by vm_compute. Qed.

Definition enough (c : Z) : Prop := 512 ≤ c.
Lemma mmc_raw_copy_installs_witness :
  match mmc_raw_copy boot "/sdcard/boot.img" (phone [1; 2; 3]) (replicate 20 1000) with
  | Ret r s' _ => r = 0 ∧ emmc s' !! "/dev/block/mmcblk0p1"%string = Some ([1; 2; 3] ++ replicate 597 7)
  | _ => False
  end.
Proof.
  assert (Forall (λ c, c = 1000) (replicate 20 1000)) as Hcs by (apply Forall_replicate; done).
  pose proof (mmc_raw_copy_installs boot "/sdcard/boot.img" "/dev/block/mmcblk0p1" [1; 2; 3] (replicate 600 7) (phone [1; 2; 3])
    (λ c, c = 1000) (replicate 20 1000) eq_refl eq_refl eq_refl ltac:(done) ltac:(by vm_compute) ltac:(done)
    ltac:(intros c ->; unfold whole_blocks; lia) Hcs) as Hrun. cbn zeta in Hrun.
  destruct (mmc_raw_copy _ _ _ _) as [r s' cs'|s'| |] eqn:E; [|by vm_compute in E..].
  destruct Hrun as (-> & k & -> & Hk). split; [done|]. rewrite Hk by (intros c ->; by vm_compute). by vm_compute.
Defined.

(** A disk with four primary partitions, the last of them an extended one that holds two more. *)
Definition entry (type first size : Z) : bytes := [0; 0; 0; 0; type; 0; 0; 0] ++ set4LE first ++ set4LE size.
Definition boot_block (entries : bytes) : bytes := replicate 446 0 ++ entries ++ replicate (64 - length entries) 0 ++ [85; 170].
Definition disk : bytes :=
  boot_block (entry 72 10 2 ++ entry 131 20 5 ++ entry 12 30 5 ++ entry 5 1 100) ++
  boot_block (entry 131 40 6 ++ entry 5 1 50) ++ boot_block (entry 131 60 7).
Definition disk_parts : list DiskRecord :=
  [mkRecord 0 72 10 2; mkRecord 0 131 20 5; mkRecord 0 12 30 5; mkRecord 0 5 1 100;
   mkRecord 0 131 41 6; mkRecord 0 131 62 7].
Definition tablet : Sys unit := mkSys ∅ {[ MMC_DEVICENAME := disk ]} tt false ∅ [].

Lemma disk_has_parts : disk_records disk disk_parts.
Proof.
  do 6 eexists. split_and!; [by vm_compute..|]. cbn [decide r_type].
  rewrite decide_True by done.
  eapply ebr_next with (next := 1); [cbn; lia|by vm_compute..|].
  eapply ebr_last; [cbn; lia|by vm_compute..].
Qed.
Lemma mmc_scan_partitions_finds_witness :
  match mmc_scan_partitions mmc_init tablet (replicate 20 512) with
  | Ret (r, g) _ _ => r = 6 ∧ (d_index <$> mmc_find_partition_by_name "cache" g) = Some (Some "/dev/block/mmcblk0p6"%string)
  | _ => False
  end.
Proof.
  assert (Forall whole_blocks (replicate 20 512)) as Hcs by (apply Forall_replicate; unfold whole_blocks; lia).
  pose proof (mmc_scan_partitions_finds disk disk_parts mmc_init tablet (replicate 20 512) eq_refl disk_has_parts
    ltac:(by vm_compute) I Hcs) as Hrun.
  destruct (mmc_scan_partitions _ _ _) as [[r g] s' cs'|s'| |] eqn:E; [|by vm_compute in E..].
  destruct Hrun as (-> & _ & Hf). split; [done|]. rewrite Hf. by vm_compute.
Defined.
Lemma mmc_scan_partitions_safe_witness :
  match mmc_scan_partitions mmc_init tablet [1; 1; 512; 512; 100] with Ret (r, _) _ _ => r = -1 ∨ 4 ≤ r ≤ 64 | Stop _ => True | _ => False end.
Proof.
  pose proof (mmc_scan_partitions_safe mmc_init tablet [1; 1; 512; 512; 100] I) as Hrun.
  destruct (mmc_scan_partitions _ _ _) as [[r g] s' cs'|s'| |]; try done. by destruct Hrun.
Defined.

(** A chain that leaves the first 2 GiB is not followed where [long] has 32 bits: the next block is read instead. *)
Lemma far_record_not_sought pos : fseek_sector pos (2 ^ 22) = pos.
Proof. done. Qed.
End MmcExample.
