(* ===== verification/FlashUtils.v ===== *)
(** Raw partitions of every kind: the commands of [mtdutils/mtdutils.c], [bmlutils/bmlutils.c] and
    [flashutils/flashutils.c], which picks one of them, and the programs [flash_image], [dump_image] and
    [erase_image]. *)
From S2P Require Import Prelude CLib Bytes World Mtd Volumes BootMessage MmcUtils.

Section flashutils.
Context `{Abi} {D : Type} `{!Mtd D}.

(** * MTD *)
Definition BUFSIZ : Z := 1024.
Definition BLOCK_SIZE : Z := 2048.

(** The loop that writes the file from [pos] on: whether all was written. *)
Fixpoint restore_loop (fuel : nat) (filename : string) (pos : Z) (ctx : MtdWriteContext) : io D (bool * MtdWriteContext) :=
  match fuel with
  | O => lift OutOfFuel
  | S fuel =>
      buffer ← read_at filename pos BUFSIZ;
      match buffer with
      | [] => mret (true, ctx)
      | _ =>
          '(wrote, ctx) ← mtd_write_data ctx buffer;
          if decide (wrote ≠ zlen buffer) then mret (false, ctx)
          else restore_loop fuel filename (pos + zlen buffer) ctx
      end
  end.
(** The results of [mtd_erase_blocks] and [mtd_write_close] are only printed. *)
Definition cmd_mtd_restore_raw_partition (partition_name filename : string) : io D Z :=
  f ← fopen_r filename;
  if negb f then mret (-1) else
  count ← mtd_scan_partitions;
  if decide (count ≤ 0) then mret (-1) else
  mtd ← mtd_find_partition_by_name partition_name;
  match mtd with
  | None => mret (-1)
  | Some mtd =>
      fd ← fopen_r filename;
      if negb fd then mret (-1) else
      ctx ← mtd_write_partition mtd;
      match ctx with
      | None => mret (-1)
      | Some ctx =>
          data ← read_sys (device_contents filename);
          '(success, ctx) ← restore_loop (S (length (default [] data))) filename 0 ctx;
          if negb success then mret (-1) else
          '(_, ctx) ← mtd_erase_blocks ctx (-1);
          _ ← mtd_write_close ctx;
          mret 0
      end
  end.

(** A file that is written, or the standard output. *)
Definition write_out (filename : string) (d : bytes) : io D Z :=
  if decide (filename = "-"%string) then c ← choose; mret (Z.min c (zlen d)) else sys_write filename d.
(** The loop: whether every write was complete.  A read that fails ends it as the end of the partition does. *)
Fixpoint backup_loop (fuel : nat) (filename : string) (in_ : MtdReadContext) : io D (bool * MtdReadContext) :=
  match fuel with
  | O => lift OutOfFuel
  | S fuel =>
      '(len, buf, in_) ← mtd_read_data in_ BLOCK_SIZE;
      if decide (len ≤ 0) then mret (true, in_) else
      wrote ← write_out filename buf;
      if decide (wrote ≠ len) then mret (false, in_) else backup_loop fuel filename in_
  end.
Definition cmd_mtd_backup_raw_partition (fuel : nat) (partition_name filename : string) : io D Z :=
  count ← mtd_scan_partitions;
  if decide (count ≤ 0) then mret (-1) else
  partition ← mtd_find_partition_by_name partition_name;
  match partition with
  | None => mret (-1)
  | Some partition =>
      info ← mtd_partition_info partition;
      match info with
      | None => mret (-1)
      | Some _ =>
          fd ← (if decide (filename = "-"%string) then mret true else sys_fopen_w filename);
          if negb fd then mret (-1) else
          in_ ← mtd_read_partition partition;
          match in_ with
          | None => _ ← sys_unlink filename; mret (-1)
          | Some in_ =>
              '(ok, in_) ← backup_loop fuel filename in_;
              if negb ok then _ ← sys_unlink filename; mret (-1) else
              _ ← mtd_read_close in_;
              closed ← sys_fclose;
              if negb closed then _ ← sys_unlink filename; mret (-1) else mret 0
          end
      end
  end.

(** [erased] is a [size_t]: the -1 of a failure is not the 0 that is looked for. *)
Definition cmd_mtd_erase_raw_partition (partition_name : string) : io D Z :=
  count ← mtd_scan_partitions;
  if decide (count ≤ 0) then mret (-1) else
  p ← mtd_find_partition_by_name partition_name;
  match p with
  | None => mret (-1)
  | Some p =>
      out ← mtd_write_partition p;
      match out with
      | None => mret (-1)
      | Some out =>
          '(erased, _) ← mtd_erase_blocks out (-1);
          mret (if decide (size_t erased = 0) then -1 else 0)
      end
  end.
Definition cmd_mtd_erase_partition (partition : string) : io D Z := cmd_mtd_erase_raw_partition partition.

(** * BML *)
Definition BOARD_BML_RECOVERY : string := "/dev/block/bml8".
Definition BML_BLOCK : Z := 4096.
(** [read]: the bytes, or nothing when it fails. *)
Definition read_or_fail (filename : string) (pos n : Z) : io D (option bytes) :=
  c ← choose;
  if decide (c < 0) then mret None else b ← read_at filename pos n; mret (Some b).
(** [write] at a position of the device: the number of bytes written. *)
Definition write_at (path : string) (pos : Z) (d : bytes) : io D Z :=
  c ← choose;
  let k := Z.min c (zlen d) in
  _ ← update_sys (put_at path pos (take (Z.to_nat k) d));
  mret k.
(** The loop from [pos] on: the result of the function.  After a failed [read] the buffer is filled up from one byte before
    its start. *)
Fixpoint restore_blocks (fuel : nat) (bml filename : string) (pos : Z) : io D Z :=
  match fuel with
  | O => lift OutOfFuel
  | S fuel =>
      r ← read_or_fail filename pos BML_BLOCK;
      match r with
      | None => lift Fault
      | Some [] => mret 0
      | Some buf =>
          n ← write_at bml pos (buf ++ replicate (Z.to_nat (BML_BLOCK - zlen buf)) 0);
          if decide (n < BML_BLOCK) then mret 5
          else if decide (zlen buf = BML_BLOCK) then restore_blocks fuel bml filename (pos + BML_BLOCK) else mret 0
      end
  end.
Definition restore_internal (bml filename : string) : io D Z :=
  srcfd ← fopen_r filename;
  if negb srcfd then mret 2 else
  dstfd ← fopen_r bml;
  if negb dstfd then mret 3 else
  unlock ← choose;
  if decide (unlock = 0) then mret 4 else
  data ← read_sys (device_contents filename);
  restore_blocks (S (length (default [] data))) bml filename 0.
Definition cmd_bml_restore_raw_partition (partition filename : string) : io D Z :=
  if bool_decide (partition ∉ ["boot"; "recovery"; "recoveryonly"]%string) && negb (String.prefix "/" partition) then mret 6 else
  ret ← (if decide (partition ≠ "recoveryonly"%string) then restore_internal BOARD_BML_BOOT filename else mret 0);
  if decide (ret ≠ 0) then mret ret else
  let ret := if decide (partition = "recoveryonly"%string) then -1 else ret in
  ret ← (if decide (partition ∈ ["recovery"; "recoveryonly"]%string) then restore_internal BOARD_BML_RECOVERY filename
         else mret ret);
  if String.prefix "/" partition then restore_internal partition filename else mret ret.
Definition cmd_bml_backup_raw_partition (partition out_file : string) : io D Z :=
  match (if decide (partition = "boot"%string) then Some BOARD_BML_BOOT
         else if decide (partition = "recovery"%string) then Some BOARD_BML_RECOVERY
         else if String.prefix "/" partition then Some partition else None) with
  | None => mret (-1)
  | Some bml => raw_copy bml out_file 0 false
  end.
Definition cmd_bml_erase_raw_partition (partition : string) : io D Z := mret 0.
Definition cmd_bml_erase_partition (partition : string) : io D Z := mret (-1).
Definition cmd_bml_mount_partition (partition : string) : io D Z := mret (-1).
Definition cmd_bml_get_partition_device (partition : string) : io D Z := mret (-1).

Context `{Kernel}.
Definition format_rfs_device (device path : string) (w : Mounts) : io D (Z * Mounts) :=
  let fatsize := if decide (path ∈ ["/datadata"; "/cache"]%string) then "16"%string else "32"%string in
  '(r, w) ← shell ("/sbin/dd if=/dev/zero of=" +:+ device +:+ " bs=4096 count=10") w;
  if decide (r ≠ 0) then mret (-1, w) else
  '(r, w) ← shell ("/sbin/fat.format -F " +:+ fatsize +:+ " -S 4096 -s 1 " +:+ device) w;
  mret (if decide (r ≠ 0) then -1 else 0, w).

(** * Mounting and finding devices *)
Definition cmd_mtd_mount_partition (partition mount_point filesystem : string) (read_only : bool) (w : Mounts)
    : io D (Z * Mounts) :=
  _ ← mtd_scan_partitions;
  p ← mtd_find_partition_by_name partition;
  match p with
  | None => mret (-1, w)
  | Some p => mtd_mount_partition read_only p mount_point filesystem w
  end.
Definition cmd_mtd_get_partition_device (partition : string) : io D (Z * option string) :=
  _ ← mtd_scan_partitions;
  p ← mtd_find_partition_by_name partition;
  mret (match p with
        | None => (-1, None)
        | Some p => (0, Some ("/dev/block/mtdblock" +:+ pretty (mtd_device_index p))%string)
        end).

(** * The kind of a partition *)
(** [the_flash_type] and [g_mmc_state]. *)
Record Flashes := mkFlashes { the_flash_type : Z; g_mmc_state : MmcState }.
Definition flash_type (g : Flashes) : io D (Z * Flashes) :=
  t ← device_flash_type (the_flash_type g); mret (t, mkFlashes t (g_mmc_state g)).
Definition with_mmc {A} (m : MmcState → io D (A * MmcState)) (g : Flashes) : io D (A * Flashes) :=
  '(a, mmc) ← m (g_mmc_state g); mret (a, mkFlashes (the_flash_type g) mmc).
Definition keep_flashes {A} (m : io D A) (g : Flashes) : io D (A * Flashes) := a ← m; mret (a, g).

Definition get_default_filesystem (g : Flashes) : io D (string * Flashes) :=
  '(t, g) ← flash_type g; mret (if decide (t = FLASH_TYPE_MMC) then "ext3"%string else "yaffs2"%string, g).
Definition get_flash_type (partitionType : string) : Z :=
  if decide (partitionType = "mtd"%string) then FLASH_TYPE_MTD
  else if decide (partitionType = "emmc"%string) then FLASH_TYPE_MMC
  else if decide (partitionType = "bml"%string) then FLASH_TYPE_BML else UNSUPPORTED.
Definition detect_partition (partitionType : option string) (partition : string) (g : Flashes) : io D (Z * Flashes) :=
  '(type, g) ← flash_type g;
  let type := if strstr partition "/dev/block/mtd" then FLASH_TYPE_MTD
              else if strstr partition "/dev/block/mmc" then FLASH_TYPE_MMC
              else if strstr partition "/dev/block/bml" then FLASH_TYPE_BML else type in
  mret (match partitionType with Some t => get_flash_type t | None => type end, g).
(** The [switch] over the kinds. *)
Definition by_type {A} (type : Z) (mtd mmc bml default : A) : A :=
  if decide (type = FLASH_TYPE_MTD) then mtd else if decide (type = FLASH_TYPE_MMC) then mmc
  else if decide (type = FLASH_TYPE_BML) then bml else default.

Context (fuel : nat) (spawn : list string → io D Z) (device_sizes : string → option Z).
Definition restore_raw_partition (partitionType : option string) (partition filename : string) (g : Flashes)
    : io D (Z * Flashes) :=
  '(type, g) ← detect_partition partitionType partition g;
  by_type type (keep_flashes (cmd_mtd_restore_raw_partition partition filename) g)
    (with_mmc (cmd_mmc_restore_raw_partition partition filename) g)
    (keep_flashes (cmd_bml_restore_raw_partition partition filename) g) (mret (-1, g)).
Definition backup_raw_partition (partitionType : option string) (partition filename : string) (g : Flashes)
    : io D (Z * Flashes) :=
  '(type, g) ← detect_partition partitionType partition g;
  by_type type (keep_flashes (cmd_mtd_backup_raw_partition fuel partition filename) g)
    (with_mmc (cmd_mmc_backup_raw_partition device_sizes partition filename) g)
    (keep_flashes (cmd_bml_backup_raw_partition partition filename) g) (mret (-1, g)).
Definition erase_raw_partition (partitionType : option string) (partition : string) (g : Flashes) : io D (Z * Flashes) :=
  '(type, g) ← detect_partition partitionType partition g;
  by_type type (keep_flashes (cmd_mtd_erase_raw_partition partition) g)
    (keep_flashes (cmd_mmc_erase_raw_partition partition) g)
    (keep_flashes (cmd_bml_erase_raw_partition partition) g) (mret (-1, g)).
Definition erase_partition (partition : string) (g : Flashes) : io D (Z * Flashes) :=
  '(type, g) ← detect_partition None partition g;
  by_type type (keep_flashes (cmd_mtd_erase_partition partition) g)
    (with_mmc (cmd_mmc_erase_partition spawn partition) g)
    (keep_flashes (cmd_bml_erase_partition partition) g) (mret (-1, g)).
Definition mount_partition (partition mount_point filesystem : string) (read_only : bool) (g : Flashes) (w : Mounts)
    : io D (Z * Flashes * Mounts) :=
  '(type, g) ← detect_partition None partition g;
  by_type type
    ('(r, w) ← cmd_mtd_mount_partition partition mount_point filesystem read_only w; mret (r, g, w))
    ('(r, mmc, w) ← cmd_mmc_mount_partition partition mount_point read_only (g_mmc_state g) w;
     mret (r, mkFlashes (the_flash_type g) mmc, w))
    (r ← cmd_bml_mount_partition partition; mret (r, g, w)) (mret (-1, g, w)).
Definition get_partition_device (partition : string) (g : Flashes) : io D (Z * option string * Flashes) :=
  '(type, g) ← flash_type g;
  by_type type (keep_flashes (cmd_mtd_get_partition_device partition) g)
    (with_mmc (cmd_mmc_get_partition_device partition) g)
    (r ← cmd_bml_get_partition_device partition; mret (r, None, g)) (mret (-1, None, g)).

(** * Programs

    The command line to the exit status. *)
Definition fresh_flashes : Flashes := mkFlashes UNKNOWN mmc_init.
Definition flash_image_main (argv : list string) : io D Z :=
  match argv with
  | [_; partition; file] => '(ret, _) ← restore_raw_partition None partition file fresh_flashes; mret ret
  | _ => mret 2
  end.
Definition dump_image_main (argv : list string) : io D Z :=
  match argv with
  | [_; partition; file] => '(ret, _) ← backup_raw_partition None partition file fresh_flashes; mret ret
  | _ => mret 2
  end.
Definition erase_image_main (argv : list string) : io D Z :=
  match argv with
  | [_; partition] => '(ret, _) ← erase_raw_partition None partition fresh_flashes; mret ret
  | _ => mret 2
  end.
End flashutils.
