(* ===== verification/FlashRestore.v ===== *)
(** Restoring and saving raw flash partitions: the commands of [FlashUtils] on top of [mtdutils.c]. *)
From stdpp Require Import sorting.
From S2P Require Import Prelude CLib Bytes World Mtd MtdUtils MtdSession FlashPatch Volumes BootMessage FlashMessage MmcUtils FlashUtils.

Section restore.
Context `{Abi} `{!MtdDriver} `{!MtdDriverLaws _}.
Context (p : Partition) (name text : string) (page : Z).
Notation fl s := (flash (mtd s)).
Notation U := (unit_size (device_index p)).
Hypothesis described : well_described p.
Hypothesis lists : lists_partition p name text page.
(** With the choices considered, reads and writes of files are complete, too. *)
Hypothesis generous : ∀ c, works c → BLOCK_SIZE ≤ c.
Notation TT := (λ _ : Sys MtdWorld, True).

Lemma kept {A} R P (m : io MtdWorld A) Q : ttriple smooth P m Q TT → keeps R m →
  ttriple smooth (λ s, P s ∧ R s) m (λ a s, Q a s ∧ R s) TT.
Proof. intros Hm Hk. eapply tt_conseq; [apply (tt_ct _ _ _ _ _ _ _ _ Hm Hk)|done|done|done]. Qed.

Lemma fopen_ok path d (P : Sys MtdWorld → Prop) : (∀ s, P s → device_contents path s = Some d) →
  ttriple smooth P (fopen_r path) (λ ok s, ok = true ∧ P s) TT.
Proof.
  intros HP. unfold fopen_r. eapply tt_bind with (Q' := λ c s, c ≠ 0 ∧ P s); [by apply tt_choose; [|intros c s [? ?]]|].
  intros c. apply tt_pure. intros Hc.
  eapply tt_bind with (Q' := λ f s, f = Some d ∧ P s); [apply tt_read; auto|].
  intros f. apply tt_pure. intros ->. apply tt_ret. intros s Hs. split; [|done].
  apply bool_decide_eq_true. split; [done|by eexists].
Qed.
Lemma read_at_ok path d n len (P : Sys MtdWorld → Prop) : (∀ s, P s → device_contents path s = Some d) →
  0 < len ≤ BLOCK_SIZE →
  ttriple smooth P (read_at path n len) (λ b s, b = take (Z.to_nat len) (drop (Z.to_nat n) d) ∧ P s) TT.
Proof.
  intros HP Hlen. unfold read_at, sys_read.
  eapply tt_bind with (Q' := λ f s, f = Some d ∧ P s); [apply tt_read; auto|].
  intros f. apply tt_pure. intros ->.
  eapply tt_bind with (Q' := λ c s, smooth c ∧ P s); [by apply tt_choose|].
  intros c. apply tt_pure. intros [Hc _]%id. apply tt_ret. intros s Hs. split; [|done]. specialize (generous c Hc).
  cbn [default]. unfold id. f_equal. lia.
Qed.

(** ** Restoring *)
Section image.
Context (filename : string) (d : bytes) (f0 : Flash).
Hypothesis fits : zlen d ≤ zlen (good_from p f0 0) * U.
Hypothesis small : zlen d ≤ INT_MAX.
(** The file is there, and the table of partitions as it was found. *)
Definition image_there (s : Sys MtdWorld) : Prop := table_ok s ∧ device_contents filename s = Some d.
Lemma image_off_flash : off_flash image_there.
Proof. by intros [] f [? ?]. Qed.
Lemma not_too_big n : ¬ too_big p smooth f0 (take n d).
Proof.
  intros Hbig. specialize (Hbig smooth_all). unfold zlen in *. rewrite length_take in Hbig. lia.
Qed.

Lemma restore_loop_ok fuel : ∀ k ctx, (length d - k < fuel)%nat → (k ≤ length d)%nat → stored ctx < U →
  ttriple smooth (λ s, accepted p smooth f0 (take k d) ctx s ∧ image_there s)
    (restore_loop (D := MtdWorld) (Mtd0 := mtdutils) fuel filename (Z.of_nat k) ctx)
    (λ r s, (r.1 = true ∧ stored r.2 < U) ∧ accepted p smooth f0 d r.2 s ∧ image_there s) TT.
Proof.
  induction fuel as [|fuel IH]; intros k ctx Hf Hk Hst; [lia|]. cbn [restore_loop].
  eapply tt_bind; [apply (read_at_ok filename d); [by intros s [_ [_ ?]]|unfold BUFSIZ, BLOCK_SIZE; lia]|].
  intros b. cbn beta. apply tt_pure. intros ->. rewrite Nat2Z.id. change (Z.to_nat BUFSIZ) with 1024%nat.
  set (chunk := take 1024 (drop k d)).
  destruct (decide (k = length d)) as [E|Hne].
  { assert (chunk = []) as -> by (subst chunk; by rewrite drop_ge by lia).
    apply tt_ret. intros s Hs. rewrite E, firstn_all in Hs. by split. }
  assert (length chunk = Nat.min 1024 (length d - k)) as Hlen by (subst chunk; by rewrite length_take, length_drop).
  assert (take (k + length chunk) d = take k d ++ chunk) as Hnext.
  { rewrite <- (take_drop k d) at 1. rewrite take_app_add' by (rewrite length_take; lia). f_equal. subst chunk.
    by rewrite length_take, <- take_take, firstn_all. }
  destruct chunk as [|x rest] eqn:Ec; [cbn [length] in Hlen; lia|]. rewrite <- Ec in *. clear Ec x rest.
  eapply tt_bind; [apply kept; [apply (session_write_data p described smooth f0 (take k d) chunk ctx); [|done]|
    apply keeps_write_data, image_off_flash]|].
  { unfold zlen in *. lia. }
  intros [wrote ctx']. cbn [fst snd]. rewrite <- Hnext.
  eapply tt_conseq with (R' := TT) (P' := λ s, (wrote = zlen chunk ∧ stored ctx' < U) ∧
      accepted p smooth f0 (take (k + length chunk) d) ctx' s ∧ image_there s); [| |intros ? ? Hx; exact Hx|done].
  2: { intros s [[(? & ? & ?)|(_ & _ & Hbig)] ?]; [done|]. by apply not_too_big in Hbig. }
  apply tt_pure. intros [-> Hst']. rewrite decide_False by (intros Hx; by apply Hx).
  replace (Z.of_nat k + zlen chunk) with (Z.of_nat (k + length chunk)) by (unfold zlen; lia).
  apply IH; [lia|lia|done].
Qed.

(** A session that is closed leaves the data at the front of the partition. *)
Lemma session_contents data ctx s : session p smooth f0 data ctx s → data `prefix_of` contents p (fl s).
Proof.
  intros (Hbad & _ & Hsm & i & us & Hi & _ & _ & _ & _ & Hbl & Hg).
  assert (good_from p (fl s) 0 = good_from p f0 0) as Hgf
    by (unfold good_from; apply list_filter_iff; intros j; by rewrite Hbad).
  unfold contents. rewrite Hgf, (Hg smooth_all), blocks_app, Hbl by (apply Hsm, smooth_all). by apply prefix_app_r.
Qed.
Lemma session_good data ctx s : session p smooth f0 data ctx s → good_from p (fl s) 0 = good_from p f0 0.
Proof. intros (Hbad & _). unfold good_from. apply list_filter_iff. intros j. by rewrite Hbad. Qed.

Definition restored (s : Sys MtdWorld) : Prop :=
  d `prefix_of` contents p (fl s) ∧ good_from p (fl s) 0 = good_from p f0 0 ∧ table_ok s.
Lemma find_listed P (Hfind : ∀ s, P s → (ps ← partitions (g_mtd_state (mtd s)); snd <$> list_find (is_named name) ps) = Some p) :
  ttriple smooth P (Mtd.mtd_find_partition_by_name name) (λ o s, o = Some p ∧ P s) TT.
Proof. intros s cs Hcs HP. cbn. split; [done|]. split; [by apply Hfind|done]. Qed.

Lemma restore_ok : ttriple smooth (λ s, fl s = f0 ∧ image_there s) (cmd_mtd_restore_raw_partition name filename)
  (λ r s, r = 0 ∧ restored s) TT.
Proof.
  unfold cmd_mtd_restore_raw_partition.
  eapply tt_bind; [apply (fopen_ok filename d); by intros s [_ [_ ?]]|]. intros ok. apply tt_pure. intros ->. cbn [negb].
  eapply tt_bind.
  { eapply tt_conseq with (P' := λ s, (fl s = f0 ∧ table_ok s) ∧ device_contents filename s = Some d);
      [apply kept; [by apply (scan_ok p name text page)|apply scan_keeps; by intros [] f]|by intros s (? & ? & ?)|intros ? ? Hx; exact Hx|done]. }
  intros n. cbn beta.
  eapply tt_conseq with (R' := TT) (P' := λ s, 0 < n ∧ (fl s = f0 ∧ image_there s) ∧
     (ps ← partitions (g_mtd_state (mtd s)); snd <$> list_find (is_named name) ps) = Some p);
    [|unfold image_there; tauto|intros ? ? Hx; exact Hx|done].
  apply tt_pure. intros Hn. rewrite decide_False by lia.
  eapply tt_bind; [apply find_listed; tauto|]. intros o. apply tt_pure. intros ->. cbn beta iota.
  eapply tt_bind; [apply (fopen_ok filename d); by intros s [[_ [_ ?]] _]|]. intros ok. apply tt_pure. intros ->. cbn [negb].
  eapply tt_bind.
  { eapply tt_conseq with (P' := λ s, fl s = f0 ∧ image_there s);
      [apply kept; [by apply (mtd_write_partition_ok p described smooth f0)|by apply keeps_write_partition]|tauto|
       intros ? ? Hx; exact Hx|done]. }
  intros o. cbn beta.
  eapply tt_conseq with (R' := TT) (P' := λ s, ∃ ctx : WriteContext, o = Some ctx ∧ stored ctx = 0 ∧
      accepted p smooth f0 [] ctx s ∧ image_there s); [| |intros ? ? Hx; exact Hx|done].
  2: { intros s [Ho ?]. destruct o as [ctx|]; [|destruct (Ho smooth_all)]. exists ctx. tauto. }
  apply tt_exists. intros ctx. apply tt_pure. intros ->. apply tt_pure. intros Hst. cbn beta iota.
  pose proof (unit_positive (device_index p)) as HU.
  eapply tt_bind with (Q' := λ data s, data = Some d ∧ accepted p smooth f0 (take 0 d) ctx s ∧ image_there s).
  { apply tt_read. intros s (? & ? & ?). by split_and!. }
  intros data. apply tt_pure. intros ->.
  eapply tt_bind; [apply (restore_loop_ok _ 0); [cbn; unfold id; lia|lia|lia]|].
  intros [ok ctx1]. cbn [fst snd]. apply tt_pure. intros [-> Hst1]. cbn [negb].
  eapply tt_bind; [apply kept; [apply (session_erase_blocks p described smooth f0 d ctx1 (-1)); [lia|done]|
    apply keeps_erase_blocks, image_off_flash]|].
  intros [r ctx2]. cbn [fst snd].
  eapply tt_conseq with (R' := TT) (P' := λ s, ∃ pad, (stored ctx2 = 0) ∧
      accepted p smooth f0 (d ++ pad) ctx2 s ∧ image_there s); [| |intros ? ? Hx; exact Hx|done].
  2: { intros s [[(_ & ? & pad & ? & ? & ?)|(_ & _ & Hbig)] ?]; [by exists pad|].
       rewrite <- (firstn_all d) in Hbig. by apply not_too_big in Hbig. }
  apply tt_exists. intros pad. apply tt_pure. intros Hst2.
  apply (tt_fact _ _ (¬ too_big p smooth f0 (d ++ pad))).
  { intros s [Ha _]. eapply accepted_fits; eauto using smooth_all. }
  intros Hfits.
  eapply tt_bind; [apply kept; [apply (session_close p described smooth f0 _ ctx2); lia|apply keeps_write_close, image_off_flash]|].
  intros r'. apply tt_ret. intros s [[(-> & pad' & c & _ & _ & _ & Hs)|[_ Hbig]] [Ht _]]; [|by apply Hfits in Hbig].
  split; [done|]. split_and!; [|by eapply session_good|done].
  apply session_contents in Hs. etrans; [|exact Hs]. rewrite <- app_assoc. by apply prefix_app_r.
Qed.
End image.

(** ** Saving *)
Section save.
Context (out : string) (f1 : Flash) (fuel : nat).
Hypothesis not_stdout : out ≠ "-"%string.
Hypothesis whole_pages : U mod BLOCK_SIZE = 0.
Hypothesis enough_fuel : zlen (good_from p f1 0) * U < Z.of_nat fuel * BLOCK_SIZE.
Definition saved (d : bytes) (s : Sys MtdWorld) : Prop := ∃ f, files s !! out = Some f ∧ f_data f = d.
Lemma saved_off_flash d : off_flash (saved d).
Proof. by intros [] f. Qed.

Lemma write_out_ok bs d (P : Sys MtdWorld → Prop) : zlen d = BLOCK_SIZE → (∀ s f, P s → P (set_files f s)) →
  ttriple smooth (λ s, P s ∧ saved bs s) (write_out out d) (λ n s, n = BLOCK_SIZE ∧ P s ∧ saved (bs ++ d) s) TT.
Proof.
  intros Hd HP. unfold write_out, sys_write. rewrite decide_False by done.
  eapply tt_bind with (Q' := λ c s, smooth c ∧ P s ∧ saved bs s); [by apply tt_choose|].
  intros c. apply tt_pure. intros [Hc _]%id. specialize (generous c Hc). unfold BLOCK_SIZE in *. rewrite decide_False by lia.
  replace (Z.min c (zlen d)) with 2048 by lia.
  eapply tt_bind with (Q' := λ _ s, P s ∧ saved (bs ++ d) s); [|intros _; by apply tt_ret].
  apply tt_update. intros s [Hs (f & Hf & Hb)]. split; [by apply HP|]. destruct s. cbn in *. unfold saved. cbn.
  rewrite lookup_alter_eq, Hf. eexists. split; [done|]. cbn. rewrite Hb. f_equal. apply take_ge. unfold zlen in Hd. lia.
Qed.

Lemma backup_loop_ok n : ∀ k bs ctx, zlen bs = Z.of_nat k * BLOCK_SIZE →
  zlen (good_from p f1 0) * U < Z.of_nat (k + n) * BLOCK_SIZE →
  ttriple smooth (λ s, reading p f1 bs ctx s ∧ saved bs s) (backup_loop (D := MtdWorld) (Mtd0 := mtdutils) n out ctx)
    (λ r s, r.1 = true ∧ saved (contents p f1) s) TT.
Proof.
  induction n as [|n IH]; intros k bs ctx Hk Hn.
  - intros s cs _ [Hr _]. exfalso. apply reading_prefix in Hr as [t E]. apply (f_equal zlen) in E.
    rewrite zlen_app, contents_length in E. pose proof (zlen_nonneg t). rewrite Nat.add_0_r in Hn. lia.
  - cbn [backup_loop]. apply (tt_fact _ _ (bs `prefix_of` contents p f1)).
    { intros s [Hr _]. by eapply reading_prefix. }
    intros Hpre.
    assert (0 ≤ BLOCK_SIZE ≤ INT_MAX) as Hsz by (unfold BLOCK_SIZE, INT_MAX; lia).
    eapply tt_bind; [exact (kept _ _ _ _ (mtd_read_data_ok p described f1 bs BLOCK_SIZE ctx Hsz)
      (keeps_read_data _ (saved_off_flash bs) ctx BLOCK_SIZE))|].
    intros [[len buf] ctx']. cbn [fst snd]. apply tt_decide; intros Hlen.
    + apply tt_ret. intros s [[(Hl & _)|[_ Hshort]] Hs]; [unfold BLOCK_SIZE in Hl; lia|]. split; [done|].
      destruct Hpre as [t E]. assert (t = []) as ->; [|by rewrite E, app_nil_r].
      destruct t as [|x t]; [done|]. exfalso. pose proof E as El. apply (f_equal zlen) in El.
      rewrite zlen_app, Hk, contents_length in El. rewrite contents_length, Hk in Hshort.
      rewrite zlen_cons in El. pose proof (zlen_nonneg t).
      pose proof (Z.div_mod U BLOCK_SIZE ltac:(unfold BLOCK_SIZE; lia)) as Hdiv. rewrite whole_pages in Hdiv.
      unfold BLOCK_SIZE in *. rewrite Hdiv in El, Hshort. nia.
    + eapply tt_conseq with (R' := TT) (P' := λ s, (len = BLOCK_SIZE ∧ zlen buf = BLOCK_SIZE) ∧
          reading p f1 (bs ++ buf) ctx' s ∧ saved bs s); [| |intros ? ? Hx; exact Hx|done].
      2: { intros s [[(? & ? & ?)|[? _]] ?]; [done|lia]. }
      apply tt_pure. intros [-> Hb].
      eapply tt_bind; [apply (write_out_ok bs buf (reading p f1 (bs ++ buf) ctx') Hb); by intros []|].
      intros wrote. apply tt_pure. intros ->. rewrite decide_False by (intros Hx; by apply Hx).
      apply (IH (S k)); [rewrite zlen_app, Hk, Hb; lia|]. by rewrite Nat.add_succ_comm.
Qed.

Lemma backup_ok : ttriple smooth (λ s, fl s = f1 ∧ table_ok s) (cmd_mtd_backup_raw_partition fuel name out)
  (λ r s, r = 0 ∧ saved (contents p f1) s) TT.
Proof.
  unfold cmd_mtd_backup_raw_partition.
  eapply tt_bind; [by apply (scan_ok p name text page)|]. intros n. apply tt_pure. intros Hn. rewrite decide_False by lia.
  eapply tt_bind; [apply find_listed; tauto|]. intros o. apply tt_pure. intros ->. cbn beta iota.
  destruct lists as (_ & Hinfo & _).
  eapply tt_bind with (Q' := λ o s, (∃ size erase, o = Some (size, erase, page)) ∧ fl s = f1).
  { cbn. unfold mtd_partition_info. eapply tt_bind with (Q' := λ ok s, ok = true ∧ fl s = f1).
    { apply tt_ask. intros c s [Hc _] [Hs _]. split; [by apply open_works|done]. }
    intros ok. apply tt_pure. intros ->. rewrite decide_False by done.
    apply tt_ask. intros c s [Hc _] Hs. split; [|done]. by apply Hinfo. }
  intros o. apply tt_pure. intros (size & erase & ->). cbn beta iota.
  rewrite decide_False by done.
  eapply tt_bind with (Q' := λ ok s, ok = true ∧ fl s = f1 ∧ saved [] s).
  { unfold sys_fopen_w, open_with. eapply tt_bind with (Q' := λ c s, c ≠ 0 ∧ fl s = f1);
      [by apply tt_choose; [|intros c s [_ ?]]|].
    intros c. apply tt_pure. intros Hc. rewrite decide_False by done.
    eapply tt_bind with (Q' := λ _ s, fl s = f1 ∧ saved [] s); [|intros _; by apply tt_ret].
    apply tt_update. intros [] Hs. split; [done|]. unfold saved. cbn. rewrite lookup_partial_alter_eq.
    destruct (_ !! out); by eexists. }
  intros ok. apply tt_pure. intros ->. cbn [negb].
  eapply tt_bind; [apply kept; [apply (mtd_read_partition_ok p described smooth f1 smooth_all)|apply keeps_read_partition]|].
  intros o. eapply tt_conseq with (R' := TT) (P' := λ s, ∃ ctx : ReadContext, o = Some ctx ∧ reading p f1 [] ctx s ∧ saved [] s);
    [|intros s [(ctx & Ho & _ & ?) ?]; by exists ctx|intros ? ? Hx; exact Hx|done].
  apply tt_exists. intros ctx. apply tt_pure. intros ->. cbn beta iota zeta.
  eapply tt_bind; [by apply (backup_loop_ok fuel 0)|]. intros [ok ctx']. cbn [fst snd]. apply tt_pure. intros ->. cbn [negb].
  eapply tt_bind with (Q' := λ _ s, saved (contents p f1) s).
  { cbn. unfold mtd_read_close. eapply tt_bind with (Q' := λ _ s, saved (contents p f1) s); [by apply tt_choose|].
    intros c. by apply tt_ret. }
  intros _. eapply tt_bind with (Q' := λ b s, b = true ∧ saved (contents p f1) s).
  { unfold sys_fclose. eapply tt_bind with (Q' := λ c s, c ≠ 0 ∧ saved (contents p f1) s);
      [by apply tt_choose; [|intros c s [_ ?]]|]. intros c. apply tt_pure. intros Hc. apply tt_ret. intros s Hs.
    split; [by apply bool_decide_eq_true|done]. }
  intros b. apply tt_pure. intros ->. cbn [negb]. by apply tt_ret.
Qed.
End save.
End restore.

(** * Properties *)


(** Failures that are not passed on. *)
Section unnoticed.
Context {D : Type} `{!Mtd.Mtd D} `{Abi}.
Lemma failed_erase_is_not_noticed name (s : Sys D) cs n p out ctx s1 cs1 s2 cs2 s3 cs3 s4 cs4 :
  Mtd.mtd_scan_partitions s cs = Ret n s1 cs1 → 0 < n →
  Mtd.mtd_find_partition_by_name name s1 cs1 = Ret (Some p) s2 cs2 →
  Mtd.mtd_write_partition p s2 cs2 = Ret (Some out) s3 cs3 →
  Mtd.mtd_erase_blocks out (-1) s3 cs3 = Ret (-1, ctx) s4 cs4 →
  cmd_mtd_erase_raw_partition name s cs = Ret 0 s4 cs4.
Proof.
  intros E1 Hn E2 E3 E4. unfold cmd_mtd_erase_raw_partition.
  rewrite (io_bind_ret _ _ _ _ _ _ _ E1), decide_False by lia. rewrite (io_bind_ret _ _ _ _ _ _ _ E2).
  rewrite (io_bind_ret _ _ _ _ _ _ _ E3), (io_bind_ret _ _ _ _ _ _ _ E4). rewrite decide_False; [done|].
  unfold size_t, wrap_u. destruct long_bits_ok as [E|E]; rewrite E; by vm_compute.
Qed.
(** A [read] of the image that fails: the rest of the buffer is cleared from the byte before it on. *)
Lemma failed_read_clears_memory fuel bml filename pos (s : Sys D) c cs : c < 0 →
  restore_blocks (S fuel) bml filename pos s (c :: cs) = Crashed.
Proof.
  intros Hc. cbn [restore_blocks]. unfold read_or_fail, mbind, io_bind, choose. by rewrite decide_True.
Qed.
(** An image for another device goes to the boot partition first. *)
Lemma other_device_overwrites_boot filename device (s : Sys D) cs r s' cs' :
  restore_internal BOARD_BML_BOOT filename s cs = Ret r s' cs' → r ≠ 0 → String.prefix "/" device = true →
  cmd_bml_restore_raw_partition device filename s cs = Ret r s' cs'.
Proof.
  intros E Hr Hd. unfold cmd_bml_restore_raw_partition. rewrite Hd, andb_false_r.
  assert (device ≠ "recoveryonly"%string) as Hn by (intros ->; done). rewrite decide_True by done.
  rewrite (io_bind_ret _ _ _ _ _ _ _ E). by rewrite decide_True.
Qed.
End unnoticed.

(** The laws with fewer choices for which the calls succeed. *)
Definition restricted_laws (M : MtdDriver) (L : MtdDriverLaws M) (P : Z → Prop) : MtdDriverLaws M.
Proof.
  refine {| unit_size := @unit_size M L; units := @units M L; block := @block M L; bad := @bad M L; erased := @erased M L;
    ecc_failed := @ecc_failed M L; works c := @works M L c ∧ P c |}.
  - apply (@unit_positive M L).
  - apply (@block_length M L).
  - intros f dev c [Hw _]. by apply (@open_works M L).
  - apply (@ecc_stats_value M L).
  - intros f dev c [Hw _]. by apply (@ecc_stats_works M L).
  - apply (@get_bad_good M L).
  - intros f dev i c Hi [Hw _]. by apply (@get_bad_works M L).
  - apply (@Mtd.read_ok M L).
  - intros f dev i c bs f' Hi [Hw _]. by apply (@read_works M L).
  - intros f dev i c r f' Hi E. destruct (@erase_ok M L f dev i c r f' Hi E) as (? & ? & ? & Hw).
    split_and!; try done. intros [? _]. by apply Hw.
  - intros f dev i bs c r f' Hi Hl E. destruct (@write_ok M L f dev i bs c r f' Hi Hl E) as (? & ? & ? & Hw).
    split_and!; try done. intros [? _]. by apply Hw.
Defined.

(** ** An example: five units of 2048 bytes, two of them bad *)
Module RestoreExample.
#[local] Existing Instance abi32.
#[local] Existing Instance MiscExample.misc_driver.
#[local] Instance large_laws : MtdDriverLaws MiscExample.misc_driver :=
  restricted_laws MiscExample.misc_driver MiscExample.misc_laws (λ c, BLOCK_SIZE ≤ c).
Definition image : bytes := replicate 3000 5.
Definition device_with_image : Sys MtdWorld :=
  mkSys {[ "/sdcard/misc.img"%string := mkFile image 420 0 0 ]} ∅
    (mkMtdWorld (mkMtdState None 0) (mkRam [0; 2]%nat ∅)) false ∅ [].
Lemma misc_present : lists_partition MiscExample.misc_partition "misc" MiscExample.misc_text 1024.
Proof.
  split_and!.
  - done.
  - intros f c _. by exists 10240, 2048.
  - intros ps Hl _. destruct ps as [|x ps]; [done|]. eexists. split; [by vm_compute|]. done.
Qed.
End RestoreExample.
