(* ===== verification/Floats.v ===== *)
(** Numbers with a fraction: [strtod] of the C library on decimal numbers, and [printf] with ["%f"].

    A double is zero or [m * 2 ^ e] with [0 < m <= 2 ^ 53]; the sign is kept apart. *)
From S2P Require Import Prelude CLib.

(** [n / d] rounded to an integer, to the even one when it is half way between two. *)
Definition round_half_even (n d : Z) : Z :=
  let q := n / d in
  let r := n - q * d in
  if decide (2 * r < d) then q else if decide (d < 2 * r) then q + 1 else if decide (Z.even q = true) then q else q + 1.

(** [n * 2 ^ k / d] as a numerator and a denominator. *)
Definition scaled (n d k : Z) : Z * Z := if decide (0 ≤ k) then (n * 2 ^ k, d) else (n, d * 2 ^ (- k)).
(** The exponent of the leading bit of [n / d]. *)
Definition leading (n d : Z) : Z :=
  let k := Z.log2 n - Z.log2 d in
  let '(a, b) := scaled n d (- k) in if decide (a < b) then k - 1 else k.

Inductive Double := Finite (negative : bool) (m e : Z) | Infinite (negative : bool).
Definition round_double (negative : bool) (n d : Z) : Double :=
  if decide (n = 0) then Finite negative 0 0 else
  let e := Z.max (leading n d - 52) (-1074) in
  let '(a, b) := scaled n d (- e) in
  let m := round_half_even a b in
  if decide (2 ^ 1024 ≤ m * 2 ^ Z.max 0 e) then Infinite negative else Finite negative m e.

(** The digits of a string onto a number, with how many there are, and the rest. *)
Fixpoint fraction_digits (acc count : Z) (s : string) : Z * Z * string :=
  match s with
  | String c s' => if isdigit c then fraction_digits (acc * 10 + (uchar c - 48)) (count + 1) s' else (acc, count, s)
  | EmptyString => (acc, count, s)
  end.
Definition exponent (s : string) : Z :=
  match s with
  | String c s' =>
      if decide (c = "e"%char ∨ c = "E"%char) then
        let '(sg, t) := sign s' in
        match t with String x _ => if isdigit x then sg * (digits 0 t).1 else 0 | EmptyString => 0 end
      else 0
  | EmptyString => 0
  end.
Definition strtod (s : string) : Double :=
  let '(sg, s1) := sign (skip_spaces s) in
  let negative := bool_decide (sg < 0) in
  let '(int, before, s2) := fraction_digits 0 0 s1 in
  let '(m, n, s3) := match s2 with
                     | String "." s3 => fraction_digits int 0 s3
                     | _ => (int, 0, s2)
                     end in
  if decide (before + n = 0) then Finite false 0 0 else
  let e := exponent s3 - n in
  round_double negative (m * 10 ^ Z.max 0 e) (10 ^ Z.max 0 (- e)).

(** The last [n] decimal digits of a number. *)
Fixpoint last_digits (n : nat) (z : Z) (s : string) : string :=
  match n with
  | O => s
  | S n => last_digits n (z / 10) (String (ascii_of_nat (Z.to_nat (48 + z mod 10))) s)
  end.
(** ["%f"]. *)
Definition print_double (x : Double) : string :=
  match x with
  | Infinite negative => if (negative : bool) then "-inf" else "inf"
  | Finite negative m e =>
      let '(a, b) := scaled (m * 1000000) 1 e in
      let n := round_half_even a b in
      (if (negative : bool) then "-" else "") +:+ pretty (n / 1000000) +:+ "." +:+ last_digits 6 n ""
  end.

Example print_tenth : print_double (strtod "0.1") = "0.100000". Proof. by vm_compute. Qed.
Example print_third : print_double (strtod " -.3333335e0x") = "-0.333334". Proof. by vm_compute. Qed.
Example print_large : print_double (strtod "1e23") = "99999999999999991611392.000000". Proof. by vm_compute. Qed.
Example print_huge : print_double (strtod "1e309") = "inf". Proof. by vm_compute. Qed.
