(* ===== verification/Updater.v ===== *)
(** The updater: the functions of update scripts that change the device, [updater/install.c], and the program that
    runs a script, [updater/updater.c].

    The functions are registered with the interpreter of [Edify]; the state the interpreter carries for them is
    [Updater].  When a system call is cut off by a power failure, or memory is accessed outside an object, there is no result
    ([None]).  What is printed on the standard error output is left out. *)
From S2P Require Import Prelude CLib Floats Edify Bytes Bz2 ZlibSha World Mtd Cache ApplyPatch Hash Zip ZipData DirUtil ZipExtract Volumes BootMessage MmcUtils FlashUtils Retouch.

Definition EEXIST : Z := 17.
(** The character of quotation marks. *)
Definition quote_s : string := String (ascii_of_nat 34) EmptyString.

(** What the updater gets from elsewhere: memory, child processes (their wait status), the properties of the system, and
    [make_ext4fs] when it is built in. *)
Class Platform (D : Type) := {
  heap_size : Z;
  heap_filler : nat → Z;
  heap_alloc : Z → bool;
  heap_block : Z → bytes;
  loop_fuel : nat;
  spawn_program : list string → io D Z;
  property_get : string → io D string;
  make_ext4fs : option (string → Z → string → io D Z)
}.
(** A block the allocator gives has the size asked for; to ask for a property changes nothing. *)
Class PlatformLaws {D} (P0 : Platform D) := {
  heap_block_size : ∀ n, heap_alloc n = true → zlen (heap_block n) = n;
  property_get_keeps : ∀ R key, keeps R (property_get key)
}.

(** [strtoul] with base 0: the number and where it ends. *)
Definition digit_value (c : ascii) : option Z :=
  let n := uchar c in
  if decide (48 ≤ n ≤ 57) then Some (n - 48)
  else if decide (97 ≤ n ≤ 122) then Some (n - 87)
  else if decide (65 ≤ n ≤ 90) then Some (n - 55) else None.
Definition is_digit_of (base : Z) (c : ascii) : bool :=
  match digit_value c with Some d => bool_decide (d < base) | None => false end.
Fixpoint digits_of (base acc : Z) (s : string) : Z * string :=
  match s with
  | String c s' => if is_digit_of base c then digits_of base (acc * base + default 0 (digit_value c)) s' else (acc, s)
  | EmptyString => (acc, s)
  end.
Definition number_base (s : string) : Z * string :=
  match s with
  | String "0" (String x (String c t)) =>
      if decide (x = "x"%char ∨ x = "X"%char) then (if is_digit_of 16 c then (16, String c t) else (8, s)) else (8, s)
  | String "0" _ => (8, s)
  | _ => (10, s)
  end.
Definition strtoul `{Abi} (s : string) : Z * string :=
  let '(sg, s1) := sign (skip_spaces s) in
  let '(base, s2) := number_base s1 in
  match s2 with
  | String c _ =>
      if is_digit_of base c then
        let '(n, rest) := digits_of base 0 s2 in
        (if decide (2 ^ long_bits ≤ n) then 2 ^ long_bits - 1 else wrap_u long_bits (sg * n), rest)
      else (0, s)
  | EmptyString => (0, s)
  end.

(** A string without the blanks at its end. *)
Fixpoint rtrim (s : string) : string :=
  match s with
  | String c s => match rtrim s with EmptyString => if isspace c then EmptyString else String c EmptyString | t => String c t end
  | EmptyString => EmptyString
  end.
(** [strchr(s, '=')]: what is before it and behind it. *)
Fixpoint split_equal (s : string) : option (string * string) :=
  match s with
  | String c s => if decide (c = "="%char) then Some (EmptyString, s)
                  else '(a, b) ← split_equal s; Some (String c a, b)
  | EmptyString => None
  end.
(** The path up to its last slash, unless that is the first character. *)
Fixpoint parent (s : string) : option string :=
  match s with
  | String c s' =>
      match parent s' with
      | Some d => Some (String c d)
      | None => match s' with String "/" _ => Some (String c EmptyString) | _ => None end
      end
  | EmptyString => None
  end.
(** The characters [strtok] skips at the front. *)
Fixpoint front_delims (delims : list Z) (s : string) : string :=
  match s with
  | String c s => if is_delim delims c then String c (front_delims delims s) else EmptyString
  | EmptyString => EmptyString
  end.
Fixpoint all_tokens (fuel : nat) (delims : list Z) (s : string) : list string :=
  match fuel with
  | O => []
  | S fuel => match next_token delims s with (Some t, rest) => t :: all_tokens fuel delims rest | (None, _) => [] end
  end.
Definition lines_of (s : string) : list string := all_tokens (S (String.length s)) newlines s.

Section updater.
Context `{Abi} `{Bz2} `{Zlib} `{Sha} {D : Type} `{!Mtd D} `{!CacheSpace D} `{!Vfs D} `{!Kernel} `{!Platform D}.

(** The system with the choices of the environment to come, the mounts, the raw partitions, and [UpdaterInfo]:
    what was written to the pipe to the recovery, and the package. *)
Record Updater := mkUpdater {
  u_sys : Sys D; u_choices : list Z; u_mounts : Mounts; u_flashes : Flashes;
  cmd_pipe : string; package_zip : ZipArchive
}.
Notation UState := (@State Updater).
Notation E := (M UState).
Notation UArg := (@Arg Updater).

Definition set_cookie (f : Updater → Updater) (st : UState) : UState :=
  mkState (f (cookie st)) (script st) (errmsg st) (Edify.io st).
Definition lift_io {A} (m : io D A) : E A := λ st,
  let u := cookie st in
  match m (u_sys u) (u_choices u) with
  | Ret a s cs => Some (a, set_cookie (λ u, mkUpdater s cs (u_mounts u) (u_flashes u) (cmd_pipe u) (package_zip u)) st)
  | _ => None
  end.
Definition with_mounts {A} (f : Mounts → io D (A * Mounts)) : E A :=
  st ← get;
  '(a, w) ← lift_io (f (u_mounts (cookie st)));
  _ ← modify (set_cookie (λ u, mkUpdater (u_sys u) (u_choices u) w (u_flashes u) (cmd_pipe u) (package_zip u)));
  mret a.
Definition with_flashes {A} (f : Flashes → io D (A * Flashes)) : E A :=
  st ← get;
  '(a, g) ← lift_io (f (u_flashes (cookie st)));
  _ ← modify (set_cookie (λ u, mkUpdater (u_sys u) (u_choices u) (u_mounts u) g (cmd_pipe u) (package_zip u)));
  mret a.
Definition send (text : string) : E unit :=
  modify (set_cookie (λ u, mkUpdater (u_sys u) (u_choices u) (u_mounts u) (u_flashes u) (cmd_pipe u +:+ text) (package_zip u))).
Definition newline_s : string := String newline EmptyString.

Definition abort_with (msg : string) : E (option Value) := ErrorAbort msg.
Definition null_value : E (option Value) := mret None.
(** A call with the wrong number of arguments. *)
Definition expects (name what : string) (argc : nat) : E (option Value) :=
  abort_with (name +:+ "() expects " +:+ what +:+ ", got " +:+ pretty (Z.of_nat argc)).
(** The first argument that is empty. *)
Definition empty_argument (name : string) (args : list (string * string)) : option string :=
  match list_find (λ a, a.2 = EmptyString) args with
  | Some (_, (label, _)) => Some (label +:+ " argument to " +:+ name +:+ "() can't be empty")%string
  | None => None
  end.

(** * Mounts *)
Definition MountFn (name : string) (argv : list UArg) : E (option Value) :=
  if decide (length argv ≠ 4)%nat then expects name "4 args" (length argv) else
  args ← ReadArgs argv 4;
  match args with
  | Some [fs_type; partition_type; location; mount_point] =>
      match empty_argument name [("fs_type", fs_type); ("partition_type", partition_type); ("location", location);
                                 ("mount_point", mount_point)]%string with
      | Some msg => abort_with msg
      | None =>
          _ ← lift_io (vfs_mkdir mount_point 493);
          if decide (partition_type = "MTD"%string) then
            _ ← lift_io mtd_scan_partitions;
            mtd ← lift_io (mtd_find_partition_by_name location);
            match mtd with
            | None => return_string ""
            | Some mtd =>
                r ← with_mounts (mtd_mount_partition false mtd mount_point fs_type);
                return_string (if decide (r ≠ 0) then "" else mount_point)
            end
          else
            r ← with_mounts (ask_kernel (λ k, do_mount k (Some location) (Some mount_point) (Some fs_type) MS_QUIET
                                                  (Some EmptyString)));
            return_string (if decide (r < 0) then "" else mount_point)
      end
  | _ => null_value
  end.

(** The argument of [IsMountedFn] and [UnmountFn], and the place of its volume. *)
Definition mounted_volume (name : string) (argv : list UArg) (k : string → option nat → E (option Value)) : E (option Value) :=
  if decide (length argv ≠ 1)%nat then expects name "1 arg" (length argv) else
  args ← ReadArgs argv 1;
  match args with
  | Some [mount_point] =>
      if decide (mount_point = EmptyString) then abort_with "mount_point argument to unmount() can't be empty" else
      _ ← with_mounts scan_mounted_volumes;
      st ← get;
      k mount_point (find_mounted_volume_by_mount_point (g_mounts_state (u_mounts (cookie st))) mount_point)
  | _ => null_value
  end.
Definition IsMountedFn (name : string) (argv : list UArg) : E (option Value) :=
  mounted_volume name argv (λ mount_point vol,
    return_string (match vol with None => "" | Some _ => mount_point end)).
Definition UnmountFn (name : string) (argv : list UArg) : E (option Value) :=
  mounted_volume name argv (λ mount_point vol,
    match vol with
    | None => return_string ""
    | Some vol => _ ← with_mounts (unmount_mounted_volume vol); return_string mount_point
    end).

(** * Formatting *)
Definition format_mtd (location : string) : io D bool :=
  _ ← mtd_scan_partitions;
  mtd ← mtd_find_partition_by_name location;
  match mtd with
  | None => mret false
  | Some mtd =>
      ctx ← mtd_write_partition mtd;
      match ctx with
      | None => mret false
      | Some ctx =>
          '(erased, ctx) ← mtd_erase_blocks ctx (-1);
          if decide (erased = -1) then _ ← mtd_write_close ctx; mret false else
          closed ← mtd_write_close ctx;
          mret (bool_decide (closed = 0))
      end
  end.
(** An unknown type leaves no message. *)
Definition FormatFn (name : string) (argv : list UArg) : E (option Value) :=
  if decide (length argv ≠ 5)%nat then expects name "5 args" (length argv) else
  args ← ReadArgs argv 5;
  match args with
  | Some [fs_type; partition_type; location; fs_size; mount_point] =>
      match empty_argument name [("fs_type", fs_type); ("partition_type", partition_type); ("location", location);
                                 ("mount_point", mount_point)]%string with
      | Some msg => abort_with msg
      | None =>
          if decide (partition_type = "MTD"%string) then
            ok ← lift_io (format_mtd location); return_string (if (ok : bool) then location else "")
          else match make_ext4fs with
          | Some make_ext4fs =>
              if decide (fs_type = "ext4"%string) then
                status ← lift_io (make_ext4fs location (strtoll fs_size) mount_point);
                return_string (if decide (status ≠ 0) then "" else location)
              else null_value
          | None => null_value
          end
      end
  | _ => null_value
  end.

(** * Files *)
(** The paths; when one of them has no value and it is not the first, the loop that frees the others does not end and frees
    the first of them again. *)
Fixpoint delete_args (argv : list UArg) (first : bool) : E (option (list string)) :=
  match argv with
  | [] => mret (Some [])
  | a :: argv =>
      v ← Evaluate a;
      match v with
      | None => if first then mret None else fault
      | Some path => paths ← delete_args argv false; mret (cons path <$> paths)
      end
  end.
Fixpoint delete_paths (recursive : bool) (paths : list string) (success : Z) : io D Z :=
  match paths with
  | [] => mret success
  | path :: paths =>
      r ← (if recursive then '(r, _) ← dirUnlinkHierarchy loop_fuel loop_fuel path 0; mret r else vfs_unlink path);
      delete_paths recursive paths (if decide (r = 0) then success + 1 else success)
  end.
(** The number goes into 10 bytes. *)
Definition DeleteFn (name : string) (argv : list UArg) : E (option Value) :=
  paths ← delete_args argv true;
  match paths with
  | None => null_value
  | Some paths =>
      success ← lift_io (delete_paths (bool_decide (name = "delete_recursive"%string)) paths 0);
      if decide (10 ≤ strlen (pretty success)) then fault else return_string (pretty success)
  end.

(** Makes all directories above a path: 0 or -1. *)
Fixpoint make_parents (fuel : nat) (name : string) : io D Z :=
  match parent name with
  | None => mret 0
  | Some dir =>
      match fuel with
      | O => lift OutOfFuel
      | S fuel =>
          r ← make_parents fuel dir;
          if decide (r < 0) then mret (-1) else
          err ← vfs_mkdir dir 448;
          mret (if decide (err = 0 ∨ err = EEXIST) then 0 else -1)
      end
  end.
(** The number of things that failed. *)
Fixpoint make_links (target : string) (srcs : list string) (bad : Z) : io D Z :=
  match srcs with
  | [] => mret bad
  | src :: srcs =>
      err ← vfs_unlink src;
      let bad := if decide (err ≠ 0 ∧ err ≠ ENOENT) then bad + 1 else bad in
      r ← make_parents (String.length src) src;
      let bad := if decide (r ≠ 0) then bad + 1 else bad in
      err ← vfs_symlink target src;
      make_links target srcs (if decide (err ≠ 0) then bad + 1 else bad)
  end.
Definition SymlinkFn (name : string) (argv : list UArg) : E (option Value) :=
  match argv with
  | [] => expects name "1+ args" 0
  | a :: argv =>
      target ← Evaluate a;
      match target with
      | None => null_value
      | Some target =>
          srcs ← ReadVarArgs argv;
          match srcs with
          | None => null_value
          | Some srcs =>
              bad ← lift_io (make_links target srcs 0);
              if decide (bad ≠ 0) then abort_with (name +:+ ": some symlinks failed") else return_string ""
          end
      end
  end.

(** A number in [int]. *)
Definition parse_id (s : string) : option Z :=
  let '(n, rest) := strtoul s in
  if decide (rest ≠ EmptyString ∨ s = EmptyString) then None else Some (s32 n).
Definition parse_ids (name : string) (args : list (string * string)) : string + list Z :=
  (fix go args := match args with
   | [] => inr []
   | (what, s) :: args =>
       match parse_id s with
       | None => inl (name +:+ ": " +:+ quote_s +:+ s +:+ quote_s +:+ " not a valid " +:+ what)%string
       | Some n => match go args with inl msg => inl msg | inr ns => inr (n :: ns) end
       end
   end) args.
Fixpoint set_perms_recursive (paths : list string) (uid gid dir_mode file_mode : Z) : io D unit :=
  match paths with
  | [] => mret tt
  | path :: paths =>
      _ ← dirSetHierarchyPermissions loop_fuel loop_fuel path uid gid dir_mode file_mode 0;
      set_perms_recursive paths uid gid dir_mode file_mode
  end.
Fixpoint set_perms (paths : list string) (uid gid mode bad : Z) : io D Z :=
  match paths with
  | [] => mret bad
  | path :: paths =>
      err ← vfs_chown path uid gid;
      let bad := if decide (err ≠ 0) then bad + 1 else bad in
      err ← vfs_chmod path mode;
      set_perms paths uid gid mode (if decide (err ≠ 0) then bad + 1 else bad)
  end.
Definition SetPermFn (name : string) (argv : list UArg) : E (option Value) :=
  let recursive := bool_decide (name = "set_perm_recursive"%string) in
  let min_args := if (recursive : bool) then 5%nat else 4%nat in
  if decide (length argv < min_args)%nat then expects name (pretty (Z.of_nat min_args) +:+ "+ args") (length argv) else
  args ← ReadVarArgs argv;
  match args with
  | None => null_value
  | Some args =>
      if (recursive : bool) then
        match args with
        | a0 :: a1 :: a2 :: a3 :: paths =>
            match parse_ids name [("uid", a0); ("gid", a1); ("dirmode", a2); ("filemode", a3)]%string with
            | inr [uid; gid; dir_mode; file_mode] =>
                _ ← lift_io (set_perms_recursive paths uid gid dir_mode file_mode); return_string ""
            | inl msg => abort_with msg
            | _ => null_value
            end
        | _ => null_value
        end
      else
        match args with
        | a0 :: a1 :: a2 :: paths =>
            match parse_ids name [("uid", a0); ("gid", a1); ("mode", a2)]%string with
            | inr [uid; gid; mode] =>
                bad ← lift_io (set_perms paths uid gid mode 0);
                if decide (bad ≠ 0) then abort_with (name +:+ ": some changes failed") else return_string ""
            | inl msg => abort_with msg
            | _ => null_value
            end
        | _ => null_value
        end
  end.

(** * Properties *)
Definition GetPropFn (name : string) (argv : list UArg) : E (option Value) :=
  if decide (length argv ≠ 1)%nat then expects name "1 arg" (length argv) else
  args ← ReadArgs argv 1;
  match args with
  | Some [key] => value ← lift_io (property_get key); return_string (until_nul value)
  | _ => null_value
  end.

Definition MAX_FILE_GETPROP_SIZE : Z := 65536.
(** The loop from [line] on: the value, or the message for a line without [=]. *)
Fixpoint find_prop (fuel : nat) (key line rest : string) : run (string + string) :=
  match fuel with
  | O => OutOfFuel
  | S fuel =>
      let next := match next_token newlines rest with
                  | (Some line, rest) => find_prop fuel key line rest
                  | (None, _) => Done (inr "")
                  end in
      let line := skip_spaces line in
      match line with
      | EmptyString => next
      | String c _ =>
          if decide (c = "#"%char) then next else
          match split_equal line with
          | None => Done (inl line)
          | Some (before, after) =>
              if decide (rtrim before ≠ key) then next else Done (inr (rtrim (skip_spaces after)))
          end
      end
  end.
(** A text without a line: [strtok] gives a null pointer, which is dereferenced. *)
Definition getprop_text (key text : string) : run (string + string) :=
  match next_token newlines text with
  | (None, _) => Fault
  | (Some line, rest) => find_prop (S (String.length text)) key line rest
  end.
(** The text of the file, or the message; the texts for [errno] are left out. *)
Definition getprop_file (name filename : string) : io D (string + string) :=
  st ← sys_stat filename;
  match st with
  | None => mret (inl (name +:+ ": failed to stat " +:+ quote_s +:+ filename +:+ quote_s)%string)
  | Some st =>
      let size := zlen (f_data st) in
      if decide (MAX_FILE_GETPROP_SIZE < size)
      then mret (inl (filename +:+ " too large for " +:+ name +:+ " (max " +:+ pretty MAX_FILE_GETPROP_SIZE +:+ ")")%string) else
      buffer ← choose;
      if decide (buffer = 0) then mret (inl (name +:+ ": failed to alloc " +:+ pretty (size + 1) +:+ " bytes")%string) else
      f ← sys_stat filename;
      match f with
      | None => mret (inl (name +:+ ": failed to open " +:+ filename)%string)
      | Some f =>
          data ← sys_read (f_data f) size;
          if decide (zlen data ≠ size)
          then mret (inl (name +:+ ": failed to read " +:+ pretty (size + 1) +:+ " bytes from " +:+ filename)%string) else
          mret (inr (until_nul (string_of_bytes data)))
      end
  end.
(** The number of arguments is not checked. *)
Definition FileGetPropFn (name : string) (argv : list UArg) : E (option Value) :=
  args ← ReadArgs argv 2;
  match args with
  | Some [filename; key] =>
      text ← lift_io (getprop_file name filename);
      match text with
      | inl msg => abort_with msg
      | inr text =>
          r ← lift_io (lift (getprop_text key text));
          match r with
          | inl line => abort_with (name +:+ ": malformed line " +:+ quote_s +:+ line +:+ quote_s +:+ ": " +:+ filename +:+
                                    " not a prop file?")
          | inr value => return_string value
          end
      end
  | _ => null_value
  end.

(** * The package *)
Definition no_blob : Value := mkValue VAL_BLOB (-1) "".
(** The file the archive was opened on. *)
Definition package_file (za : ZipArchive) : bytes := match zip_map za with Some m => map_data m | None => [] end.
Definition find_entry (path : string) : E (option ZipEntry) :=
  st ← get;
  let za := package_zip (cookie st) in
  p ← lift_io (lift (mzFindZipEntry heap_alloc za path));
  match p with
  | None => mret None
  | Some (AnEntry i) => e ← of_option (es ← zip_pEntries za; znth es i); mret (Some e)
  | Some (AName _) => fault
  end.

(** 8/1/2008 *)
Definition TIMESTAMP : Z := 1217592000.
Definition PackageExtractDirFn (name : string) (argv : list UArg) : E (option Value) :=
  if decide (length argv ≠ 2)%nat then expects name "2 args" (length argv) else
  args ← ReadArgs argv 2;
  match args with
  | Some [zip_path; dest_path] =>
      st ← get;
      let za := package_zip (cookie st) in
      '(success, _) ← lift_io (mzExtractRecursive heap_alloc heap_block loop_fuel (package_file za) 0 za zip_path dest_path
                                 MZ_EXTRACT_FILES_ONLY (Some TIMESTAMP));
      return_string (if (success : bool) then "t" else "")
  | _ => null_value
  end.

(** [writeProcessFunction] when the file is a block device, which does not grow; [pos] is the position in it. *)
Fixpoint device_write_all (fuel : nat) (path : string) (pos : Z) (d : bytes) : io D (bool * Z) :=
  match fuel with
  | O => lift OutOfFuel
  | S fuel =>
      c ← choose;
      old ← read_sys (λ s, emmc s !! path);
      let n := Z.min c (Z.min (zlen d) (zlen (default [] old) - pos)) in
      if decide (n ≤ 0) then
        errno ← choose;
        if decide (errno ≠ EINTR) then mret (false, pos) else device_write_all fuel path pos d
      else
        _ ← update_sys (put_at path pos (take (Z.to_nat n) d));
        if decide (n = zlen d) then mret (true, pos + n)
        else device_write_all fuel path (pos + n) (drop (Z.to_nat n) d)
  end.
Definition device_write (path : string) (pos : Z) (d : bytes) : io D (bool * Z) := λ s cs,
  device_write_all (S (length cs)) path pos d s cs.
Definition extract_to_file (za : ZipArchive) (e : ZipEntry) (dest_path : string) : io D bool :=
  f ← fopen_w dest_path;
  match f with
  | None => mret false
  | Some _ =>
      dev ← read_sys (λ s, emmc s !! dest_path);
      match dev with
      | Some _ => '(ok, _) ← mzProcessZipEntryContents (device_write dest_path) loop_fuel (package_file za) 0 e 0; mret ok
      | None => mzExtractZipEntryToFile loop_fuel (package_file za) 0 e dest_path
      end
  end.
Definition extract_to_memory (za : ZipArchive) (e : ZipEntry) : io D Value :=
  if negb (heap_alloc (uncompLen e)) then mret no_blob else
  '(ok, data) ← mzExtractZipEntryToBuffer loop_fuel (package_file za) 0 e (heap_block (uncompLen e));
  mret (if (ok : bool) then mkValue VAL_BLOB (uncompLen e) (string_of_bytes data) else no_blob).
Definition PackageExtractFileFn (name : string) (argv : list UArg) : E (option Value) :=
  if decide (length argv ≠ 1 ∧ length argv ≠ 2)%nat then expects name "1 or 2 args" (length argv) else
  if decide (length argv = 2)%nat then
    args ← ReadArgs argv 2;
    match args with
    | Some [zip_path; dest_path] =>
        entry ← find_entry zip_path;
        st ← get;
        success ← (match entry with
                   | None => mret false
                   | Some e => lift_io (extract_to_file (package_zip (cookie st)) e dest_path)
                   end);
        return_string (if (success : bool) then "t" else "")
    | _ => null_value
    end
  else
    args ← ReadArgs argv 1;
    match args with
    | Some [zip_path] =>
        entry ← find_entry zip_path;
        st ← get;
        match entry with
        | None => mret (Some no_blob)
        | Some e => v ← lift_io (extract_to_memory (package_zip (cookie st)) e); mret (Some v)
        end
    | _ => null_value
    end.

(** * Partitions and patches *)
(** The data of a value where a string is expected: up to a zero byte, without which the end of a blob is passed; a null
    pointer is dereferenced. *)
Definition c_data (v : Value) : option string :=
  if decide (v_type v = VAL_STRING) then Some (v_data v)
  else if decide (v_size v < 0) then None
  else if decide (until_nul (v_data v) = v_data v) then None else Some (until_nul (v_data v)).
(** The contents are taken for the name of a file, also when they are a blob. *)
Definition WriteRawImageFn (name : string) (argv : list UArg) : E (option Value) :=
  args ← ReadValueArgs argv 2;
  match args with
  | Some [contents; partition_value] =>
      if decide (v_type partition_value ≠ VAL_STRING)
      then abort_with ("partition argument to " +:+ name +:+ " must be string") else
      let partition := v_data partition_value in
      if decide (partition = EmptyString) then abort_with ("partition argument to " +:+ name +:+ " can't be empty") else
      if decide (v_type contents = VAL_STRING ∧ v_data contents = EmptyString)
      then abort_with ("file argument to " +:+ name +:+ " can't be empty") else
      filename ← of_option (c_data contents);
      r ← with_flashes (restore_raw_partition None partition filename);
      return_string (if decide (r = 0) then partition else "")
  | _ => null_value
  end.

(** A number of bytes; [None] when there is no number. *)
Definition byte_count (s : string) : option Z :=
  let '(n, rest) := strtol s in
  if decide (n = 0 ∧ rest = s) then None else Some (size_t n).
Definition ApplyPatchSpaceFn (name : string) (argv : list UArg) : E (option Value) :=
  args ← ReadArgs argv 1;
  match args with
  | Some [bytes_str] =>
      match byte_count bytes_str with
      | None => abort_with (name +:+ "(): can't parse " +:+ quote_s +:+ bytes_str +:+ quote_s +:+ " as byte count" +:+ newline_s +:+ newline_s)
      | Some n => r ← lift_io (CacheSizeCheck n); return_string (if decide (r ≠ 0) then "" else "t")
      end
  | _ => null_value
  end.

Definition patch_of (v : Value) : PatchValue := mkPatchValue (bool_decide (v_type v = VAL_BLOB)) (bytes_of_string (v_data v)).
(** The digests and the patches, or the message for the [i]th of them that is not what it should be. *)
Fixpoint split_patches (name : string) (i : Z) (values : list Value) : string + list (string * PatchValue) :=
  match values with
  | sha :: patch :: values =>
      if decide (v_type sha ≠ VAL_STRING) then inl (name +:+ "(): sha-1 #" +:+ pretty i +:+ " is not string")%string else
      if decide (v_type patch ≠ VAL_BLOB) then inl (name +:+ "(): patch #" +:+ pretty i +:+ " is not blob")%string else
      match split_patches name (i + 1) values with
      | inl msg => inl msg
      | inr ps => inr ((v_data sha, patch_of patch) :: ps)
      end
  | _ => inr []
  end.
(** That the evaluation of a patch failed is not looked at: the null pointer is dereferenced. *)
Definition ApplyPatchFn (name : string) (argv : list UArg) : E (option Value) :=
  if decide (length argv < 6 ∨ Nat.odd (length argv) = true)%nat
  then abort_with (name +:+ "(): expected at least 6 args and an even number, got " +:+ pretty (Z.of_nat (length argv))) else
  args ← ReadArgs argv 4;
  match args with
  | Some [source; target; target_sha1; target_size] =>
      match byte_count target_size with
      | None => abort_with (name +:+ "(): can't parse " +:+ quote_s +:+ target_size +:+ quote_s +:+ " as byte count")
      | Some size =>
          patches ← ReadValueVarArgs (drop 4 argv);
          match patches with
          | None => fault
          | Some patches =>
              match split_patches name 0 patches with
              | inl msg => abort_with msg
              | inr ps =>
                  result ← lift_io (applypatch heap_filler heap_size loop_fuel source target target_sha1 size ps.*1 ps.*2 None);
                  return_string (if decide (result = 0) then "t" else "")
              end
          end
      end
  | _ => null_value
  end.
(** The same for the digests. *)
Definition ApplyPatchCheckFn (name : string) (argv : list UArg) : E (option Value) :=
  if decide (length argv < 1)%nat
  then abort_with (name +:+ "(): expected at least 1 arg, got " +:+ pretty (Z.of_nat (length argv))) else
  args ← ReadArgs argv 1;
  match args with
  | Some [filename] =>
      sha1s ← ReadVarArgs (drop 1 argv);
      match sha1s with
      | None => fault
      | Some sha1s =>
          result ← lift_io (applypatch_check heap_filler filename sha1s);
          return_string (if decide (result = 0) then "t" else "")
      end
  | _ => null_value
  end.

(** * Digests and contents of files *)
Definition PrintSha1 (digest : bytes) : string := sha1_text digest.
Fixpoint matching_digest (digest : bytes) (args : list Value) : option Value :=
  match args with
  | [] => None
  | v :: args =>
      if decide (v_type v ≠ VAL_STRING) then matching_digest digest args else
      match ParseSha1 (v_data v) with
      | Some d => if decide (memcmp digest d = 0) then Some v else matching_digest digest args
      | None => matching_digest digest args
      end
  end.
Definition Sha1CheckFn (name : string) (argv : list UArg) : E (option Value) :=
  if decide (length argv < 1)%nat then abort_with (name +:+ "() expects at least 1 arg") else
  args ← ReadValueVarArgs argv;
  match args with
  | Some (contents :: args) =>
      if decide (v_size contents < 0) then return_string "" else
      d ← of_option (zslice (bytes_of_string (v_data contents)) 0 (v_size contents));
      match args with
      | [] => return_string (PrintSha1 (SHA d))
      | _ => match matching_digest (SHA d) args with Some v => mret (Some v) | None => return_string "" end
      end
  | _ => null_value
  end.
Definition ReadFileFn (name : string) (argv : list UArg) : E (option Value) :=
  if decide (length argv ≠ 1)%nat then expects name "1 arg" (length argv) else
  args ← ReadArgs argv 1;
  match args with
  | Some [filename] =>
      '(r, fc) ← lift_io (LoadFileContents filename (no_contents heap_filler) RETOUCH_DONT_MASK);
      if decide (r ≠ 0) then abort_with (name +:+ "() loading " +:+ quote_s +:+ filename +:+ quote_s +:+ " failed")
      else mret (Some (mkValue VAL_BLOB (size fc) (string_of_bytes (default [] (data fc)))))
  | _ => null_value
  end.

(** * The screen *)
Definition ShowProgressFn (name : string) (argv : list UArg) : E (option Value) :=
  if decide (length argv ≠ 2)%nat then expects name "2 args" (length argv) else
  args ← ReadArgs argv 2;
  match args with
  | Some [frac_str; sec_str] =>
      _ ← send ("progress " +:+ print_double (strtod frac_str) +:+ " " +:+ pretty (s32 (strtol sec_str).1) +:+ newline_s);
      return_string frac_str
  | _ => null_value
  end.
Definition SetProgressFn (name : string) (argv : list UArg) : E (option Value) :=
  if decide (length argv ≠ 1)%nat then expects name "1 arg" (length argv) else
  args ← ReadArgs argv 1;
  match args with
  | Some [frac_str] => _ ← send ("set_progress " +:+ print_double (strtod frac_str) +:+ newline_s); return_string frac_str
  | _ => null_value
  end.

Fixpoint send_lines (lines : list string) : E unit :=
  match lines with
  | [] => mret tt
  | line :: lines => _ ← send ("ui_print " +:+ line +:+ newline_s); send_lines lines
  end.
Definition print_lines (text : string) : E unit := _ ← send_lines (lines_of text); send ("ui_print" +:+ newline_s).
(** What the buffer holds when [strtok] is through with it: it ends behind the first line. *)
Definition first_line (s : string) : string :=
  match next_token newlines s with
  | (Some line, _) => front_delims newlines s +:+ line
  | (None, _) => s
  end.
(** The length of the text is an [int]. *)
Definition UIPrintFn (name : string) (argv : list UArg) : E (option Value) :=
  args ← ReadVarArgs argv;
  match args with
  | None => null_value
  | Some args =>
      let buffer := foldr String.append "" args in
      if decide (INT_MAX < strlen buffer + 1) then fault else
      _ ← print_lines buffer;
      return_string (first_line buffer)
  end.
Definition WipeCacheFn (name : string) (argv : list UArg) : E (option Value) :=
  if decide (length argv ≠ 0)%nat then expects name "no args" (length argv) else
  _ ← send ("wipe_cache" +:+ newline_s); return_string "t".
Definition RunProgramFn (name : string) (argv : list UArg) : E (option Value) :=
  if decide (length argv < 1)%nat then abort_with (name +:+ "() expects at least 1 arg") else
  args ← ReadVarArgs argv;
  match args with
  | None => null_value
  | Some args => status ← lift_io (spawn_program args); return_string (pretty (s32 status))
  end.

(** * The table *)
Definition install_functions : list NamedFunction :=
  map (λ p, mkNamedFunction p.1 (FnExt p.2))
    [("mount", "MountFn"); ("is_mounted", "IsMountedFn"); ("unmount", "UnmountFn"); ("format", "FormatFn");
     ("show_progress", "ShowProgressFn"); ("set_progress", "SetProgressFn"); ("delete", "DeleteFn");
     ("delete_recursive", "DeleteFn"); ("package_extract_dir", "PackageExtractDirFn");
     ("package_extract_file", "PackageExtractFileFn"); ("symlink", "SymlinkFn"); ("set_perm", "SetPermFn");
     ("set_perm_recursive", "SetPermFn"); ("getprop", "GetPropFn"); ("file_getprop", "FileGetPropFn");
     ("write_raw_image", "WriteRawImageFn"); ("apply_patch", "ApplyPatchFn"); ("apply_patch_check", "ApplyPatchCheckFn");
     ("apply_patch_space", "ApplyPatchSpaceFn"); ("read_file", "ReadFileFn"); ("sha1_check", "Sha1CheckFn");
     ("wipe_cache", "WipeCacheFn"); ("ui_print", "UIPrintFn"); ("run_program", "RunProgramFn")]%string.
Definition RegisterInstallFunctions : M FnTable unit := RegisterAll install_functions.

(** The C functions by their names. *)
Definition install_code : list (string * (string → list UArg → E (option Value))) :=
  [("MountFn", MountFn); ("IsMountedFn", IsMountedFn); ("UnmountFn", UnmountFn); ("FormatFn", FormatFn);
   ("ShowProgressFn", ShowProgressFn); ("SetProgressFn", SetProgressFn); ("DeleteFn", DeleteFn);
   ("PackageExtractDirFn", PackageExtractDirFn); ("PackageExtractFileFn", PackageExtractFileFn); ("SymlinkFn", SymlinkFn);
   ("SetPermFn", SetPermFn); ("GetPropFn", GetPropFn); ("FileGetPropFn", FileGetPropFn);
   ("WriteRawImageFn", WriteRawImageFn); ("ApplyPatchFn", ApplyPatchFn); ("ApplyPatchCheckFn", ApplyPatchCheckFn);
   ("ApplyPatchSpaceFn", ApplyPatchSpaceFn); ("ReadFileFn", ReadFileFn); ("Sha1CheckFn", Sha1CheckFn);
   ("WipeCacheFn", WipeCacheFn); ("UIPrintFn", UIPrintFn); ("RunProgramFn", RunProgramFn)]%string.
Definition install_ext (id name : string) (argv : list UArg) : E (option Value) :=
  match list_find (λ p, p.1 = id) install_code with
  | Some (_, (_, f)) => f name argv
  | None => fault
  end.

(** * The program *)
Definition SCRIPT_NAME : string := "META-INF/com/google/android/updater-script".

(** [yyparse] for a table of functions: the expression when there is no error. *)
Context (yyparse : FnTable → string → option Expr) (device_functions : list NamedFunction).

(** The script of the package, or the exit status. *)
Definition read_script (path : string) : io D (Z + ZipArchive * string) :=
  '(err, za) ← mzOpenZipArchive heap_alloc heap_alloc path;
  if decide (err ≠ 0) then mret (inl 3) else
  p ← lift (mzFindZipEntry heap_alloc za SCRIPT_NAME);
  match p with
  | None => mret (inl 4)
  | Some p =>
      e ← lift (match p with AnEntry i => access (es ← zip_pEntries za; znth es i) | AName _ => Fault end);
      if negb (heap_alloc (uncompLen e + 1)) then lift Fault else
      '(ok, data) ← mzReadZipEntry loop_fuel (package_file za) 0 e (s32 (uncompLen e));
      if negb ok then mret (inl 5) else mret (inr (za, until_nul (string_of_bytes data)))
  end.
(** [RegisterBuiltins], [RegisterInstallFunctions], [RegisterDeviceExtensions] and [FinishRegistration]. *)
Definition updater_table : M FnTable unit :=
  _ ← RegisterBuiltins; _ ← RegisterInstallFunctions; _ ← RegisterAll device_functions; FinishRegistration.

Definition evaluate_script (root : Expr) : E Z :=
  result ← Evaluate (as_arg install_ext root);
  match result with
  | Some _ => mret 0
  | None =>
      st ← get;
      _ ← (match errmsg st with
           | None => send ("ui_print script aborted (no error message)" +:+ newline_s)
           | Some msg => print_lines msg
           end);
      mret 7
  end.
(** [main]: the exit status, and the final state when the script was run. *)
Definition updater_main (argv : list string) (s : Sys D) (cs : list Z) (w : Mounts) : option (Z * option UState) :=
  match argv with
  | [_; version; _; package_data] =>
      if decide (version ∉ ["1"; "2"; "3"]%string) then Some (2, None) else
      match read_script package_data s cs with
      | Ret (inl code) _ _ => Some (code, None)
      | Ret (inr (za, text)) s cs =>
          '(_, table) ← updater_table empty_table;
          match yyparse table text with
          | None => Some (6, None)
          | Some root =>
              '(code, st) ← evaluate_script root (mkState (mkUpdater s cs w fresh_flashes "" za) text None []);
              Some (code, Some st)
          end
      | _ => None
      end
  | _ => Some (1, None)
  end.
End updater.

(** * A small system, for the examples

    A file system without links and one that can be mounted, no flash partitions, and a cache with room. *)
Module UpdaterExample.
#[export] Instance example_mtd : Mtd (gset string) := {|
  MtdPartition := unit; MtdReadContext := unit; MtdWriteContext := unit;
  mtd_scan_partitions := mret (-1);
  mtd_find_partition_by_name _ := mret None;
  mtd_device_index _ := 0;
  mtd_partition_info _ := mret None;
  mtd_read_partition _ := mret None;
  mtd_read_data _ _ := mret (-1, [], tt);
  mtd_read_close _ := mret tt;
  mtd_write_partition _ := mret None;
  mtd_write_data _ _ := mret (-1, tt);
  mtd_erase_blocks _ _ := mret (-1, tt);
  mtd_find_write_start _ pos := pos;
  mtd_write_close _ := mret (-1)
|}.
#[export] Instance example_cache : CacheSpace (gset string).
Proof. refine {| make_free_space _ := mret 0 |}. intros. apply keeps_ret. Defined.
#[export] Instance example_platform : Platform (gset string) := {|
  heap_size := 1000;
  heap_filler _ := 0;
  heap_alloc n := bool_decide (0 ≤ n ≤ 1000);
  heap_block n := replicate (Z.to_nat n) 0;
  loop_fuel := 1000;
  spawn_program _ := mret 256;
  property_get key := mret (if decide (key = "ro.product.device"%string) then "crespo"%string else ""%string);
  make_ext4fs := None
|}.
#[export] Instance example_laws : PlatformLaws example_platform.
Proof.
  split.
  - intros n Hn. apply bool_decide_eq_true in Hn. cbn. unfold zlen. rewrite length_replicate. lia.
  - intros R key. apply keeps_ret.
Defined.

Definition example_sys : Sys (gset string) := {|
  files := {[ "/system/build.prop" := mkFile (bytes_of_string ("# props" +:+ newline_s +:+ "ro.x = on " +:+ newline_s)) 420 0 0 ]};
  emmc := ∅; mtd := {[ "/system"%string ]}; mtd_partitions_scanned := false; listing := ∅; procs := []
|}.
Definition example_updater (za : ZipArchive) (s : Sys (gset string)) : Updater :=
  mkUpdater s (replicate 60 1000) (mkWorld (mkMounts None 0) (false : Kern (Kernel := Volumes.Examples.one_mount))) fresh_flashes "" za.
(** The archive [mzOpenZipArchive] makes of a file. *)
Definition archive_of `{Abi} (m : MemMapping) : ZipArchive :=
  match parseZipArchive all_memory all_memory closed m with
  | Done (_, za) => mkZipArchive (fd za) (zip_numEntries za) (zip_pEntries za) (pHash za) (Some m)
  | _ => closed
  end.
Definition example_state (script : string) : State := mkState (example_updater (archive_of (H := abi64) two_map) example_sys) script None [].
Definition literal (s : string) : Expr := LiteralExpr s (0, 0).
(** [name(args)] for a function with the C function [id]. *)
Definition calls (id name : string) (args : list Expr) : Expr := mkExpr (FnExt id) name args 0 0.
End UpdaterExample.
