(* ===== verification/UpdaterTypes.v ===== *)
(** The types of the values in update scripts.

    A value is a terminated string or a block of bytes.  Which expressions can give blocks is seen from the expression
    alone. *)
From S2P Require Import Prelude CLib Floats Edify Bytes Bz2 ZlibSha World Mtd Cache ApplyPatch Hash Zip ZipData DirUtil ZipExtract Volumes BootMessage MmcUtils FlashUtils Retouch Updater.

(** * Strings *)
Definition no_nul (s : string) : Prop := sall (λ c, bool_decide (uchar c ≠ 0)) s = true.
Lemma no_nul_nil : no_nul "".
Proof. done. Qed.
Lemma no_nul_app s t : no_nul s → no_nul t → no_nul (s +:+ t).
Proof. unfold no_nul. rewrite sall_app. by intros -> ->. Qed.
Lemma no_nul_until s : no_nul (until_nul s).
Proof.
  induction s as [|c s IH]; [done|]. cbn [until_nul]. case_decide as Hc; [done|]. unfold no_nul. cbn [sall].
  apply andb_true_iff. split; [by apply bool_decide_eq_true|exact IH].
Qed.
Lemma option_char_no_nul s : sall option_char s = true → no_nul s.
Proof.
  apply sall_impl. intros c. unfold option_char, plain_char. rewrite andb_true_iff, negb_true_iff. intros [Hc _].
  apply bool_decide_eq_true. intros E. apply not_true_iff_false in Hc. apply Hc, is_delim_spec. rewrite E.
  rewrite !elem_of_cons. auto 10.
Qed.
Lemma no_nul_pretty (z : Z) : no_nul (pretty z).
Proof. apply option_char_no_nul, pretty_Z_chars. Qed.
Lemma no_nul_cons c s : no_nul (String c s) ↔ uchar c ≠ 0 ∧ no_nul s.
Proof. unfold no_nul. cbn [sall]. by rewrite andb_true_iff, bool_decide_eq_true. Qed.
Lemma no_nul_rtrim s : no_nul s → no_nul (rtrim s).
Proof.
  induction s as [|c s IH]; [done|]. rewrite no_nul_cons. intros [Hc Hs]. specialize (IH Hs). cbn [rtrim].
  destruct (rtrim s) as [|d t]; [destruct (isspace c); [done|]|]; by apply no_nul_cons.
Qed.
Lemma no_nul_skip s : no_nul s → no_nul (skip_spaces s).
Proof.
  induction s as [|c s IH]; [done|]. intros Hs. cbn [skip_spaces]. destruct (isspace c); [|done].
  apply IH. by apply no_nul_cons in Hs as [_ Hs].
Qed.
Lemma no_nul_split s a b : split_equal s = Some (a, b) → no_nul s → no_nul b.
Proof.
  revert a. induction s as [|c s IH]; intros a; [done|]. cbn [split_equal]. rewrite no_nul_cons. case_decide.
  - by intros [= _ ->] [_ ?].
  - destruct (split_equal s) as [[a' b']|]; [|done]. intros [= _ ->] [_ Hs]. by eapply IH.
Qed.
Lemma take_token_app delims s t r : take_token delims s = (t, r) → (∃ d, s = t +:+ d +:+ r).
Proof.
  revert t. induction s as [|c s IH]; intros t; cbn [take_token]; [intros [= <- <-]; by exists ""|].
  destruct (is_delim delims c); [intros [= <- <-]; by exists (String c "")|].
  destruct (take_token delims s) as [t' r'] eqn:E. intros [= <- ->]. destruct (IH t' eq_refl) as [d ->]. by exists d.
Qed.
Lemma skip_delims_app delims s : s = front_delims delims s +:+ skip_delims delims s.
Proof.
  induction s as [|c s IH]; [done|]. cbn [front_delims skip_delims]. destruct (is_delim delims c); [|done].
  change (String c s = String c (front_delims delims s +:+ skip_delims delims s)). by rewrite <- IH.
Qed.
Lemma next_token_app delims s t r : next_token delims s = (Some t, r) → ∃ d, s = front_delims delims s +:+ t +:+ d +:+ r.
Proof.
  pose proof (skip_delims_app delims s) as Es. unfold next_token. destruct (skip_delims delims s) as [|c s']; [done|].
  destruct (take_token delims (String c s')) as [t' r'] eqn:Et. intros [= <- <-].
  apply take_token_app in Et as [d Et]. exists d. by rewrite Es, Et at 1.
Qed.
Lemma no_nul_app_inv s t : no_nul (s +:+ t) → no_nul s ∧ no_nul t.
Proof. unfold no_nul. by rewrite sall_app, andb_true_iff. Qed.
Lemma no_nul_token delims s t r : no_nul s → next_token delims s = (Some t, r) → no_nul t ∧ no_nul r.
Proof.
  intros Hs E. apply next_token_app in E as [d E]. rewrite E in Hs.
  apply no_nul_app_inv in Hs as [_ [? [_ ?]%no_nul_app_inv]%no_nul_app_inv]. done.
Qed.
Lemma no_nul_first_line s : no_nul s → no_nul (first_line s).
Proof.
  unfold first_line. intros Hs. destruct (next_token newlines s) as [[t|] r] eqn:E; [|done].
  apply next_token_app in E as [d E]. rewrite E in Hs.
  apply no_nul_app_inv in Hs as [? [? _]%no_nul_app_inv]. by apply no_nul_app.
Qed.
Lemma no_nul_t : no_nul "t".
Proof. done. Qed.
Lemma no_nul_concat l : Forall no_nul l → no_nul (foldr String.append "" l).
Proof. induction 1; [done|]. by apply no_nul_app. Qed.
Lemma hex_char_not_nul n : 0 ≤ n < 16 → uchar (hex_char n) ≠ 0.
Proof.
  intros Hn. assert (Forall (λ n, uchar (hex_char n) ≠ 0) (seqZ 0 16)) as Hall.
  { apply (bool_decide_unpack _). by vm_compute. }
  rewrite Forall_forall in Hall. apply Hall, elem_of_seqZ. lia.
Qed.
Lemma no_nul_sha d : is_bytes d → no_nul (PrintSha1 d).
Proof.
  unfold PrintSha1. induction 1 as [|b d Hb Hd IH]; [done|]. cbn [sha1_text]. unfold in_u in Hb.
  rewrite !no_nul_cons. split_and!; [| |done]; apply hex_char_not_nul; [|by apply Z.mod_pos_bound].
  split; [apply Z.div_pos; lia|apply Z.div_lt_upper_bound; lia].
Qed.
Lemma no_nul_find_prop fuel : ∀ key line rest v, no_nul line → no_nul rest →
  find_prop fuel key line rest = Done (inr v) → no_nul v.
Proof.
  induction fuel as [|fuel IH]; intros key line rest v Hl Hr E; [done|]. cbn [find_prop] in E.
  assert (∀ v, match next_token newlines rest with
               | (Some line, rest) => find_prop fuel key line rest
               | (None, _) => Done (inr "") end = Done (inr v) → no_nul v) as Hnext.
  { intros v'. destruct (next_token newlines rest) as [[t|] r] eqn:Et; [|by intros [= <-]].
    destruct (no_nul_token _ _ _ _ Hr Et). by apply IH. }
  apply no_nul_skip in Hl. destruct (skip_spaces line) as [|c l]; [by apply Hnext|].
  case_decide; [by apply Hnext|]. destruct (split_equal _) as [[a b]|] eqn:Es; [|done].
  case_decide; [by apply Hnext|]. injection E as <-. apply no_nul_rtrim, no_nul_skip. by eapply no_nul_split.
Qed.

(** * What a computation can give *)
Definition post {S A} (m : M S A) (Q : A → Prop) : Prop := ∀ s a s', m s = Some (a, s') → Q a.
Lemma post_any {S A} (m : M S A) : post m (λ _, True).
Proof. done. Qed.
Lemma post_ret {S A} (a : A) (Q : A → Prop) : Q a → post (S := S) (mret a) Q.
Proof. intros HQ s b s' [= -> ->]. done. Qed.
Lemma post_fault {S A} (Q : A → Prop) : post (S := S) fault Q.
Proof. done. Qed.
Lemma post_bind {S A B} (m : M S A) (f : A → M S B) P Q : post m P → (∀ a, P a → post (f a) Q) → post (m ≫= f) Q.
Proof.
  intros Hm Hf s b s'. unfold mbind, M_bind. destruct (m s) as [[a s1]|] eqn:E; [|done]. intros E'.
  eapply Hf; [by eapply Hm|done].
Qed.
Lemma post_weaken {S A} (m : M S A) (P Q : A → Prop) : (∀ a, P a → Q a) → post m P → post m Q.
Proof. intros HPQ Hm s a s' E. by eapply HPQ, Hm. Qed.
Lemma post_of_option {S A} (o : option A) : post (S := S) (of_option o) (λ a, o = Some a).
Proof. intros s a s'. unfold of_option. destruct o; [|done]. by intros [= -> _]. Qed.

(** The same for calls of the system. *)
Definition returns {D A} (m : io D A) (Q : A → Prop) : Prop := ∀ s cs a s' cs', m s cs = Ret a s' cs' → Q a.
Lemma returns_any {D A} (m : io D A) : returns m (λ _, True).
Proof. done. Qed.
Lemma returns_ret {D A} (a : A) (Q : A → Prop) : Q a → returns (D := D) (mret a) Q.
Proof. intros HQ s cs b s' cs' [= -> -> ->]. done. Qed.
Lemma returns_bind {D A B} (m : io D A) (f : A → io D B) P Q :
  returns m P → (∀ a, P a → returns (f a) Q) → returns (m ≫= f) Q.
Proof. intros Hm Hf s cs b s' cs' (a & s1 & cs1 & E1 & E2)%io_bind_inv. eapply Hf; [by eapply Hm|done]. Qed.
Lemma returns_lift {D A} (m : run A) (Q : A → Prop) : (∀ a, m = Done a → Q a) → returns (D := D) (lift m) Q.
Proof. intros HQ s cs a s' cs'. unfold lift. destruct m; try done. intros [= -> _ _]. by apply HQ. Qed.
Lemma returns_read_sys {D A} (f : Sys D → A) (Q : A → Prop) : (∀ s, Q (f s)) → returns (read_sys f) Q.
Proof. intros HQ s cs a s' cs' [= <- _ _]. apply HQ. Qed.

(** * Values *)

(** A string ends at its terminator; a block of bytes has as many as its size says, or is the mark of a failure.  Without
    [blobs] the value is a string. *)
Definition well_typed (blobs : bool) (v : Value) : Prop :=
  (v_type v = VAL_STRING ∧ v_size v = strlen (v_data v) ∧ no_nul (v_data v)) ∨
  (blobs = true ∧ v_type v = VAL_BLOB ∧ (v_size v = -1 ∧ v_data v = ""%string ∨ v_size v = strlen (v_data v))).
Definition result_ok (blobs : bool) (r : option Value) : Prop := from_option (well_typed blobs) True r.

Lemma string_typed blobs s : no_nul s → well_typed blobs (StringValue s).
Proof. intros Hs. by left. Qed.
Lemma blobs_mono (a b : bool) v : (a = true → b = true) → well_typed a v → well_typed b v.
Proof. intros Hab [?|(? & ?)]; [by left|right; auto]. Qed.
Lemma results_mono (a b : bool) r : (a = true → b = true) → result_ok a r → result_ok b r.
Proof. destruct r; [by apply blobs_mono|done]. Qed.
Lemma string_value v : well_typed true v → v_type v = VAL_STRING → well_typed false v.
Proof. intros [?|(_ & E & _)] E'; [by left|]. by rewrite E in E'. Qed.
Lemma string_no_nul v : well_typed true v → v_type v = VAL_STRING → no_nul (v_data v).
Proof. intros Hv Et. by destruct (string_value v Hv Et) as [(_ & _ & ?)|[? _]]. Qed.
Lemma blobs_weaken {S} (m : M S (option Value)) b : post m (result_ok false) → post m (result_ok b).
Proof. apply post_weaken. intros r. by apply results_mono. Qed.

Section types.
Context {C : Type}.
Notation arg := (@Arg C).
Definition arg_typed (blobs : bool) (a : arg) : Prop := post (arg_eval a) (result_ok blobs).
Lemma arg_typed_mono (a b : bool) e : (a = true → b = true) → arg_typed a e → arg_typed b e.
Proof. intros Hab. apply post_weaken. intros r. by apply results_mono. Qed.

Lemma post_string (s : string) blobs : no_nul s → post (S := @State C) (return_string s) (result_ok blobs).
Proof. intros Hs. apply post_ret. by apply string_typed. Qed.
Lemma post_abort {A} msg (Q : option A → Prop) : Q None → post (S := @State C) (ErrorAbort msg) Q.
Proof. intros HQ. eapply post_bind; [apply post_any|]. intros _ _. by apply post_ret. Qed.
Lemma post_error msg blobs : post (S := @State C) (ErrorAbort msg) (result_ok blobs).
Proof. by apply post_abort. Qed.
Lemma post_null blobs : post (S := @State C) (mret None) (result_ok blobs).
Proof. by apply post_ret. Qed.
Lemma post_Evaluate (a : arg) : arg_typed true a → post (Evaluate a) (from_option no_nul True).
Proof.
  intros Ha. eapply post_bind; [apply Ha|]. intros [v|] Hv; [|by apply post_ret]. cbn in Hv.
  case_decide as Et; [|by apply post_abort]. apply post_ret. by destruct (string_value v Hv Et) as [(_ & _ & ?)|[? _]].
Qed.
Lemma post_read_args {T} (eval : arg → M (@State C) (option T)) (P : T → Prop) :
  (∀ a, arg_typed true a → post (eval a) (from_option P True)) →
  ∀ count (argv : list arg), Forall (arg_typed true) argv →
  post (read_args eval argv count) (from_option (λ vs, length vs = count ∧ Forall P vs) True).
Proof.
  intros He count. induction count as [|count IH]; intros argv Ha;
    (destruct Ha as [|a argv Ha Hargv]; cbn [read_args]); [by apply post_ret..|by apply post_fault|].
  eapply post_bind; [by apply He|]. intros [v|] Hv; [|by apply post_ret].
  eapply post_bind; [by apply IH|]. intros [vs|] Hvs; apply post_ret; [|done].
  destruct Hvs as [<- Hvs]. by repeat constructor.
Qed.
Lemma post_ReadArgs (argv : list arg) count : Forall (arg_typed true) argv →
  post (ReadArgs argv count) (from_option (λ vs, length vs = count ∧ Forall no_nul vs) True).
Proof. apply post_read_args. intros a. apply post_Evaluate. Qed.
Lemma post_ReadVarArgs (argv : list arg) : Forall (arg_typed true) argv →
  post (ReadVarArgs argv) (from_option (λ vs, length vs = length argv ∧ Forall no_nul vs) True).
Proof. apply post_ReadArgs. Qed.
Lemma post_ReadValueArgs (argv : list arg) count : Forall (arg_typed true) argv →
  post (ReadValueArgs argv count) (from_option (λ vs, length vs = count ∧ Forall (well_typed true) vs) True).
Proof. apply post_read_args. by intros a. Qed.
Lemma post_ReadValueVarArgs (argv : list arg) : Forall (arg_typed true) argv →
  post (ReadValueVarArgs argv) (from_option (λ vs, length vs = length argv ∧ Forall (well_typed true) vs) True).
Proof. apply post_ReadValueArgs. Qed.
Lemma post_argv_at {B} (argv : list arg) i (f : arg → M (@State C) B) Q : Forall (arg_typed true) argv →
  (∀ a, argv !! i = Some a → arg_typed true a → post (f a) Q) → post (a ← argv_at argv i; f a) Q.
Proof.
  intros Ha Hf. eapply post_bind; [apply post_of_option|]. intros a E. apply (Hf a E (Forall_lookup_1 _ _ _ _ Ha E)).
Qed.
End types.

(** * The functions of the language *)
Create HintDb typed.
#[export] Hint Resolve no_nul_nil no_nul_app no_nul_until no_nul_pretty no_nul_rtrim no_nul_skip no_nul_first_line
  no_nul_concat no_nul_t string_no_nul Forall_drop : typed.
#[export] Hint Resolve post_string post_error post_null post_fault : typed.
#[export] Hint Resolve post_Evaluate post_ReadArgs post_ReadVarArgs post_ReadValueArgs post_ReadValueVarArgs : typed.
#[export] Hint Extern 1 (no_nul _) => lazymatch goal with |- no_nul (match ?b with _ => _ end) => destruct b end : typed.

(** One step of a function: its branches, the results of the calls it makes, and the strings it returns. *)
Ltac branch x := lazymatch x with decide _ => case_decide | _ => destruct x eqn:? end.
Ltac typed_args :=
  repeat match goal with
  | H : from_option _ _ (Some _) |- _ => cbn in H
  | H : _ ∧ _ |- _ => destruct H
  | H : Forall _ (_ :: _) |- _ => apply Forall_cons in H
  end.
Ltac typed_step :=
  lazymatch goal with
  | |- post (match ?x with _ => _ end) _ => branch x
  | |- post (argv_at _ _ ≫= _) _ => eapply post_argv_at; [eassumption|]; intros ? ? ?
  | |- post (_ ≫= _) _ =>
      first [eapply post_bind; [solve [auto with typed]|]; intros ? ?
            |eapply post_bind; [apply post_any|]; intros ? _]
  | |- post _ _ => solve [auto with typed | eauto with typed]
  end.
Ltac typed := repeat (typed_args; typed_step).

Section builtins.
Context `{Abi} {C : Type} (ext : string → string → list (@Arg C) → M (@State C) (option Value)).
Notation arg := (@Arg C).
Implicit Types argv : list arg.

Lemma compare_typed test argv : Forall (arg_typed true) argv → post (compare_strings test argv) (result_ok false).
Proof. intros Ha. unfold compare_strings. typed. Qed.
Lemma assert_typed argv : Forall (arg_typed true) argv → post (AssertFn argv) (result_ok false).
Proof. unfold AssertFn. induction 1 as [|a argv Ha Hargv IH]; cbn [assert_loop]; typed. Qed.
Lemma stdout_typed argv : Forall (arg_typed true) argv → post (StdoutFn argv) (result_ok false).
Proof. induction 1 as [|a argv Ha Hargv IH]; cbn [StdoutFn]; typed. Qed.
Lemma concat_typed argv : Forall (arg_typed true) argv → post (ConcatFn argv) (result_ok false).
Proof. intros Ha. unfold ConcatFn. fold (ReadVarArgs argv). typed. Qed.
Lemma less_typed argv : Forall (arg_typed true) argv → post (LessThanIntFn argv) (result_ok false).
Proof. intros Ha. unfold LessThanIntFn. typed. Qed.
Lemma greater_typed argv : Forall (arg_typed true) argv → post (GreaterThanIntFn argv) (result_ok false).
Proof. intros Ha. unfold GreaterThanIntFn. typed. apply less_typed. by repeat constructor. Qed.

(** Whether a call can give a block of bytes, when it is known which arguments can. *)
Definition arg_blob (bs : list bool) (i : nat) : bool := default false (bs !! i).
Context (ext_blob : string → nat → bool).
Definition call_blob (f : Function) (bs : list bool) : bool :=
  match f with
  | FnIfElse => arg_blob bs 1 || arg_blob bs 2
  | FnSequence | FnLogicalAnd | FnLogicalOr => arg_blob bs 1
  | FnExt id => ext_blob id (length bs)
  | _ => false
  end.
Fixpoint may_blob (e : Expr) : bool := call_blob (fn e) (map may_blob (argv e)).
(** No literal of the script has a zero byte. *)
Fixpoint literals_ok (e : Expr) : bool :=
  match fn e with FnLiteral => sall (λ c, bool_decide (uchar c ≠ 0)) (name e) | _ => true end && forallb literals_ok (argv e).

Lemma lookup_typed bs argv i a : Forall2 arg_typed bs argv → argv !! i = Some a → arg_typed (arg_blob bs i) a.
Proof.
  intros Ha Hi. destruct (Forall2_lookup_r _ _ _ _ _ Ha Hi) as (b & Hb & Hab). unfold arg_blob. rewrite Hb. exact Hab.
Qed.
Lemma args_typed bs argv : Forall2 arg_typed bs argv → Forall (arg_typed true) argv.
Proof. induction 1 as [|b a bs argv Hab _ IH]; constructor; [|done]. by apply (arg_typed_mono b). Qed.
Lemma eval_typed bs argv i a b : Forall2 arg_typed bs argv → argv !! i = Some a → (arg_blob bs i = true → b = true) →
  post (arg_eval a) (result_ok b).
Proof. intros Ha Hi Hb. eapply arg_typed_mono; [apply Hb|]. by eapply lookup_typed. Qed.

Lemma call_typed f nm bs argv : Forall2 arg_typed bs argv → (f = FnLiteral → no_nul nm) →
  (∀ id, Forall (arg_typed true) argv → post (ext id nm argv) (result_ok (ext_blob id (length argv)))) →
  post (call ext f nm argv) (result_ok (call_blob f bs)).
Proof.
  intros Hargs Hlit Hext. pose proof (args_typed _ _ Hargs) as Ha.
  destruct f; cbn [call call_blob].
  - apply post_string. auto.
  - by apply concat_typed.
  - unfold IfElseFn. typed; (eapply eval_typed; [done|done|]); intros ->; by rewrite ?orb_true_r.
  - unfold AbortFn. typed.
  - by apply assert_typed.
  - unfold SleepFn. typed.
  - by apply stdout_typed.
  - unfold LogicalAndFn. typed; by eapply eval_typed.
  - unfold LogicalOrFn. typed; by eapply eval_typed.
  - unfold LogicalNotFn. typed.
  - by apply compare_typed.
  - by apply compare_typed.
  - by apply compare_typed.
  - unfold SequenceFn. typed; by eapply eval_typed.
  - by apply less_typed.
  - by apply greater_typed.
  - rewrite (Forall2_length _ _ _ Hargs). by apply Hext.
Qed.
Lemma expression_typed e :
  (∀ id nm argv, Forall (arg_typed true) argv → post (ext id nm argv) (result_ok (ext_blob id (length argv)))) →
  literals_ok e = true → post (EvaluateValue ext e) (result_ok (may_blob e)).
Proof.
  intros Hext. induction e as [f nm args s e IH] using Expr_nested_ind. intros [Hlit Hargs]%andb_true_iff.
  cbn [EvaluateValue may_blob fn argv name]. apply call_typed; [|by intros ->|intros id; apply Hext].
  cbn [argv] in Hargs. clear Hlit. induction IH as [|a args Ha _ IH]; [constructor|].
  apply andb_true_iff in Hargs as [Hla Hargs]. constructor; [by apply Ha|by apply IH].
Qed.
End builtins.

(** * What the functions of the updater return *)

Ltac returns_step :=
  lazymatch goal with
  | |- returns (match ?x with _ => _ end) _ => branch x
  | |- returns (_ ≫= _) _ => eapply returns_bind; [first [eassumption|apply returns_any]|]; intros ? ?
  | |- returns (mret _) _ => apply returns_ret
  | |- returns (lift _) _ => apply returns_lift
  end.

Section streaming.
Context `{Abi} `{Zlib} {D T : Type} (f : T → bytes → io D (bool * T)) (I : T → Prop).
Context (f_keeps : ∀ c data, I c → returns (f c data) (λ r, I r.2)).
Notation kept m := (returns m (λ r : _ * T, I r.2)).

Lemma stored_loop_keeps fuel file off left c : I c → kept (stored_loop f fuel file off left c).
Proof.
  revert off left c. induction fuel as [|fuel IH]; intros off left c Hc; cbn [stored_loop].
  { repeat returns_step; done. }
  returns_step; [|by apply returns_ret]. returns_step. returns_step. returns_step; [by apply returns_ret|].
  eapply returns_bind; [by apply f_keeps|]. intros [[] c'] Hc'; [by apply IH|by apply returns_ret].
Qed.
Lemma inflate_loop_keeps fuel file left off input strm out total c :
  I c → kept (inflate_loop f fuel file left off input strm out total c).
Proof.
  revert left off input strm out total c. induction fuel as [|fuel IH]; intros left off input strm out total c Hc;
    cbn [inflate_loop]; [by apply returns_lift|].
  returns_step. returns_step; [|by apply returns_ret]. destruct p as [[left' off'] input'].
  destruct (inflate strm _ _) as [[[zerr chunk] used] strm']. returns_step; [by apply returns_ret|].
  eapply (returns_bind _ _ (λ r : bool * bytes * T, I r.2)).
  - returns_step; [|by apply returns_ret]. eapply returns_bind; [by apply f_keeps|]. intros [ret c'] Hc'. by apply returns_ret.
  - intros [[ok out'] c'] Hc'. destruct ok; [|by apply returns_ret]. returns_step; [by apply IH|by apply returns_ret].
Qed.
Lemma mzProcessZipEntryContents_keeps fuel file oldOff e c :
  I c → kept (mzProcessZipEntryContents f fuel file oldOff e c).
Proof.
  intros Hc. unfold mzProcessZipEntryContents. returns_step; [by apply stored_loop_keeps|].
  returns_step; [|by apply returns_ret]. unfold processDeflatedEntry. destruct inflate_start as [zerr strm].
  eapply (returns_bind _ _ (λ r : Z * T, I r.2)); [returns_step; [by apply returns_ret|by apply inflate_loop_keeps]|].
  intros [result c'] Hc'. by apply returns_ret.
Qed.
End streaming.

Lemma store_size dst i src dst' : store dst i src = Some dst' → zlen dst' = zlen dst.
Proof.
  unfold store. case_decide as Hi; [|done]. intros [= <-].
  unfold zlen in *. rewrite !length_app, length_take, length_drop. lia.
Qed.
Lemma buffer_size `{Abi} `{Zlib} {D} fuel file oldOff e buffer :
  returns (D := D) (mzExtractZipEntryToBuffer fuel file oldOff e buffer) (λ r, zlen r.2 = zlen buffer).
Proof.
  unfold mzExtractZipEntryToBuffer.
  eapply returns_bind; [apply (mzProcessZipEntryContents_keeps bufferProcessFunction (λ c, zlen c.1.1 = zlen buffer))|].
  - intros [[buf pos] len] data Hbuf. eapply returns_bind; [apply returns_lift; intros buf' Hs; exact Hs|].
    intros buf' Hs. apply returns_ret. unfold access in Hs. destruct (store buf pos data) eqn:E; [|done].
    injection Hs as <-. cbn. by rewrite (store_size _ _ _ _ E).
  - done.
  - intros [ret [[buf pos] len]] Hbuf. by apply returns_ret.
Qed.

Lemma string_of_bytes_strlen d : strlen (string_of_bytes d) = zlen d.
Proof. unfold strlen, zlen, string_of_bytes. induction d as [|b d IH]; [done|]. cbn in *. lia. Qed.

Section install.
Context `{Abi} `{Bz2} `{Zlib} `{S0 : Sha} `{!ShaLaws S0} {D : Type} `{!Mtd D} `{!CacheSpace D} `{!Vfs D} `{!Kernel}
  `{P0 : !Platform D} `{!PlatformLaws P0}.
Notation arg := (@Arg (Updater (D := D))).
Implicit Types argv : list arg.

Lemma LoadPartitionContents_size filename fc : returns (D := D) (LoadPartitionContents filename fc)
  (λ r, r.1 = 0 → size r.2 = zlen (default [] (data r.2))).
Proof. unfold LoadPartitionContents. repeat (returns_step; cbn; try done). Qed.
Lemma LoadFileContents_size filename fc : returns (D := D) (LoadFileContents filename fc RETOUCH_DONT_MASK)
  (λ r, r.1 = 0 → size r.2 = zlen (default [] (data r.2))).
Proof.
  unfold LoadFileContents. case_match; [apply LoadPartitionContents_size|].
  repeat (returns_step; cbn; try done). unfold mask_contents. rewrite decide_False by auto. apply returns_ret. cbn. lia.
Qed.

Lemma lift_io_post {A} (m : io D A) Q : returns m Q → post (lift_io m) Q.
Proof.
  intros Hm st a st'. unfold lift_io. destruct (m _ _) as [b s cs| | |] eqn:E; try done. intros [= <- _]. by eapply Hm.
Qed.
Lemma no_nul_getprop key text v : no_nul text → getprop_text key text = Done (inr v) → no_nul v.
Proof.
  intros Ht. unfold getprop_text. destruct (next_token newlines text) as [[line|] rest] eqn:E; [|done].
  destruct (no_nul_token _ _ _ _ Ht E). by apply no_nul_find_prop.
Qed.
Lemma getprop_file_typed name filename : returns (getprop_file (D := D) name filename)
  (λ r, ∀ text, r = inr text → no_nul text).
Proof.
  unfold getprop_file. repeat (returns_step; try done). intros text [= <-]. apply no_nul_until.
Qed.

(** The functions that can give a block of bytes. *)
Definition gives_blob (id : string) (argc : nat) : bool :=
  if decide (id = "ReadFileFn"%string) then true
  else if decide (id = "PackageExtractFileFn"%string) then bool_decide (argc = 1%nat) else false.

Lemma mounted_volume_typed nm argv k :
  (∀ mount_point vol, no_nul mount_point → post (k mount_point vol) (result_ok false)) →
  Forall (arg_typed true) argv → post (mounted_volume (D := D) nm argv k) (result_ok false).
Proof. intros Hk Ha. unfold mounted_volume, expects, null_value, abort_with. typed. Qed.
Lemma strings_typed argv : Forall (arg_typed true) argv → ∀ nm f, f ∈ [MountFn; IsMountedFn; UnmountFn; FormatFn;
    ShowProgressFn; SetProgressFn; PackageExtractDirFn; WriteRawImageFn; ApplyPatchSpaceFn; ApplyPatchFn;
    ApplyPatchCheckFn; SetPermFn; SymlinkFn; GetPropFn; WipeCacheFn; RunProgramFn] → post (f nm argv) (result_ok false).
Proof.
  intros Ha nm f Hf. repeat (apply elem_of_cons in Hf as [->|Hf]); [..|by apply elem_of_nil in Hf].
  all: unfold MountFn, IsMountedFn, UnmountFn, FormatFn, ShowProgressFn, SetProgressFn, PackageExtractDirFn,
    WriteRawImageFn, ApplyPatchSpaceFn, ApplyPatchFn, ApplyPatchCheckFn, SetPermFn, SymlinkFn, GetPropFn, WipeCacheFn,
    RunProgramFn, expects, abort_with, null_value.
  all: try (apply mounted_volume_typed; [intros mount_point vol Hm|done]); typed.
Qed.

(** The others. *)
Lemma delete_args_typed argv first : Forall (arg_typed true) argv → post (delete_args (D := D) argv first) (λ _, True).
Proof. intros _. apply post_any. Qed.
Lemma DeleteFn_typed nm argv : Forall (arg_typed true) argv → post (DeleteFn (D := D) nm argv) (result_ok false).
Proof. intros Ha. unfold DeleteFn, null_value. typed. Qed.
Lemma getprop_file_post nm filename : post (lift_io (getprop_file (D := D) nm filename))
  (λ r, ∀ text, r = inr text → no_nul text).
Proof. apply lift_io_post, getprop_file_typed. Qed.
Lemma getprop_text_post key text : no_nul text → post (lift_io (lift (D := D) (getprop_text key text)))
  (λ r, ∀ v, r = inr v → no_nul v).
Proof. intros Ht. apply lift_io_post, returns_lift. intros r Hr v ->. by eapply no_nul_getprop. Qed.
Hint Resolve getprop_file_post getprop_text_post : typed.
Lemma FileGetPropFn_typed nm argv : Forall (arg_typed true) argv → post (FileGetPropFn (D := D) nm argv) (result_ok false).
Proof. intros Ha. unfold FileGetPropFn, abort_with, null_value. typed. Qed.
Lemma matching_digest_typed d args v : Forall (well_typed true) args → matching_digest d args = Some v → well_typed false v.
Proof.
  induction 1 as [|w args Hw _ IH]; [done|]. cbn [matching_digest]. case_decide as Et; [done|].
  destruct (ParseSha1 _); [|done]. case_decide; [|done]. intros [= <-]. by apply string_value.
Qed.
Lemma Sha1CheckFn_typed nm argv : Forall (arg_typed true) argv → post (Sha1CheckFn (D := D) nm argv) (result_ok false).
Proof.
  intros Ha. unfold Sha1CheckFn, abort_with, null_value. typed.
  - apply post_string, no_nul_sha, SHA_bytes.
  - apply post_ret. eapply matching_digest_typed; [|eassumption]. by constructor.
Qed.
Lemma UIPrintFn_typed nm argv : Forall (arg_typed true) argv → post (UIPrintFn (D := D) nm argv) (result_ok false).
Proof. intros Ha. unfold UIPrintFn, null_value. typed. Qed.
Lemma ReadFileFn_typed nm argv : Forall (arg_typed true) argv → post (ReadFileFn (D := D) nm argv) (result_ok true).
Proof.
  pose proof (λ f fc, lift_io_post _ _ (LoadFileContents_size f fc)).
  intros Ha. unfold ReadFileFn, expects, abort_with, null_value. typed.
  apply post_ret. right. split_and!; [done..|]. right. cbn. rewrite string_of_bytes_strlen. auto.
Qed.
Lemma extract_to_memory_typed za e : returns (extract_to_memory (D := D) za e) (well_typed true).
Proof.
  unfold extract_to_memory. case_match; [apply returns_ret; right; auto|].
  eapply returns_bind; [apply buffer_size|]. intros [ok data] Hd. apply returns_ret. right.
  destruct ok; split_and!; auto. right. cbn in *. rewrite string_of_bytes_strlen, Hd, heap_block_size; [done|].
  by apply negb_false_iff.
Qed.
Lemma PackageExtractFileFn_typed nm argv : Forall (arg_typed true) argv →
  post (PackageExtractFileFn (D := D) nm argv) (result_ok (bool_decide (length argv = 1%nat))).
Proof.
  pose proof (λ za e, lift_io_post _ _ (extract_to_memory_typed za e)).
  intros Ha. unfold PackageExtractFileFn, expects, abort_with, null_value. typed_step; [typed|]. typed_step; [typed|].
  rewrite bool_decide_true by lia. typed; apply post_ret; [done|right; auto].
Qed.

Lemma install_typed id nm argv : Forall (arg_typed true) argv →
  post (install_ext (D := D) id nm argv) (result_ok (gives_blob id (length argv))).
Proof.
  intros Ha. unfold install_ext. destruct (list_find _ install_code) as [[i [id' f]]|] eqn:E; [|done].
  apply list_find_Some in E as (E & Hid & _). cbn in Hid. subst id'. apply list_elem_of_lookup_2 in E.
  unfold install_code in E.
  repeat (apply elem_of_cons in E as [[= -> ->]|E]); [..|by apply elem_of_nil in E].
  all: first [by apply ReadFileFn_typed | by apply PackageExtractFileFn_typed | apply blobs_weaken].
  all: first [by apply DeleteFn_typed | by apply FileGetPropFn_typed | by apply Sha1CheckFn_typed | by apply UIPrintFn_typed
    | apply (strings_typed argv Ha); repeat (first [left; done | right])].
Qed.
End install.

(** C9: The values of update scripts have types: whatever a script whose literals hold no zero byte does, on every system and however calls
    fail, an expression that ends with a value gives a string that ends at its size and holds no zero byte, or a block of bytes with
    as many bytes as its size says, or the mark of a failure: a block of size -1 without data, which [read_file] gives for a file that cannot be
    loaded.  It gives a block or the mark only when the expression is a call of [read_file], of
    [package_extract_file] with one argument, or a choice or sequence that ends in one. *)
Theorem script_values_typed `{Abi} `{Bz2} `{Zlib} `{S0 : Sha} `{!ShaLaws S0} {D : Type} `{!Mtd D} `{!CacheSpace D} `{!Vfs D}
    `{!Kernel} `{P0 : !Platform D} `{!PlatformLaws P0} (e : Expr) (st st' : State) v :
  literals_ok e = true → EvaluateValue (install_ext (D := D)) e st = Some (Some v, st') →
  well_typed (may_blob gives_blob e) v.
Proof.
  intros He E. exact (expression_typed install_ext gives_blob e (λ id nm argv, install_typed id nm argv) He st (Some v) st' E).
Qed.

Module TypesExample.
Import UpdaterExample.
#[local] Existing Instance abi64.
(** [if file_getprop("/system/build.prop", "ro.x") == "on" then package_extract_file("b") else "none" endif] *)
Definition example_expr : Expr :=
  mkExpr FnIfElse "ifelse"
    [mkExpr FnEquality "(operator)"
       [calls "FileGetPropFn" "file_getprop" [literal "/system/build.prop"; literal "ro.x"]; literal "on"] 0 0;
     calls "PackageExtractFileFn" "package_extract_file" [literal "b"]; literal "none"] 0 0.
Definition example_value : Value := mkValue VAL_BLOB 3 (string_of_bytes [1; 2; 3]).
Lemma script_values_typed_witness : well_typed true example_value.
Proof.
  eapply (script_values_typed (D := gset string) example_expr (example_state "")); [by vm_compute|].
  vm_compute. reflexivity.
Defined.
End TypesExample.
