(* ===== verification/UpdaterChecks.v ===== *)
(** Checks in update scripts change nothing.

    Scripts look before they patch: at properties, at the digests of files and partitions.  Expressions made of the
    functions that only look leave the files and the block devices as they are, so that an update whose guard fails has
    changed nothing. *)
From S2P Require Import Prelude CLib Floats Edify Bytes Bz2 ZlibSha World Mtd MtdUtils FlashPatch FlashMessage Cache ApplyPatch Hash Zip ZipData DirUtil ZipExtract Volumes MmcUtils FlashUtils Retouch Updater UpdaterTypes.

(** * Reading flash partitions *)

(** Reading changes nothing but the state of the utilities and of the device. *)
Class MtdReads (D : Type) `{Mtd D} := {
  reads_frame :: MtdFrame D;
  read_partition_keeps R p : off_mtd R → keeps R (Mtd.mtd_read_partition p);
  read_data_keeps R ctx n : off_mtd R → keeps R (Mtd.mtd_read_data ctx n);
  read_close_keeps R ctx : off_mtd R → keeps R (Mtd.mtd_read_close ctx)
}.

Ltac keeps_branch :=
  repeat first
    [ assumption | apply keeps_ret | apply keeps_choose | apply keeps_read | apply keeps_lift
    | match goal with Hx : _ |- keeps _ _ => apply Hx end
    | apply keeps_bind; [|intro]
    | lazymatch goal with |- keeps _ (match ?x with _ => _ end) => branch x end ].

Section reads.
Context `{Abi} `{!MtdDriver}.
#[export] Instance mtdutils_reads : MtdReads MtdWorld.
Proof.
  split; [apply _|..]; intros R.
  - intros p HR. cbn. unfold mtd_read_partition, alloc, ask. keeps_branch.
  - intros ctx n HR. cbn [Mtd.mtd_read_data mtdutils]. unfold MtdUtils.mtd_read_data.
    assert (∀ g, keeps R (set_state g)) as Hset by (intros g; by apply keeps_set_state).
    assert (∀ A f, keeps R (drive (A := A) f)) as Hdrive.
    { intros A f. unfold drive. keeps_branch. all: apply keeps_update; intros s; apply HR. }
    assert (∀ p fd, keeps R (MtdUtils.read_block p fd)) as Hblock.
    { intros p fd. unfold MtdUtils.read_block, ask, lseek_cur. keeps_branch.
      generalize (S (Z.to_nat (p_size p / erase_size p))). intros fuel.
      match goal with |- keeps _ (read_block_loop _ _ ?b ?q ?f) => generalize b q f end.
      induction fuel as [|fuel IH]; intros b pos fd'; cbn [read_block_loop]; unfold mtd_lseek_set, ask; keeps_branch. }
    assert (∀ k c m d, keeps R (read_whole k c m d)) as Hwhole.
    { induction k as [|k IH]; intros c m d; cbn [read_whole]; keeps_branch. }
    generalize (S (S (Z.to_nat n))). intros fuel. generalize (@nil Z). revert ctx.
    induction fuel as [|fuel IH]; intros ctx d; cbn [read_loop]; keeps_branch.
  - intros ctx HR. cbn. unfold mtd_read_close. keeps_branch.
Qed.
End reads.

(** * Calls that only look *)
Section calls.
Context `{Abi} `{Zlib} `{Sha} {D : Type} `{!Mtd D} `{!MtdReads D}.
Context (R : Sys D → Prop) (HR : off_mtd R) (HRs : ∀ s b, R s → R (set_scanned b s)).

Lemma open_partition_keeps type partition : keeps R (open_partition type partition).
Proof.
  unfold open_partition. keeps_branch.
  all: first [by apply scan_keeps | by apply find_keeps | by apply read_partition_keeps | by apply keeps_update; auto].
Qed.
Lemma match_prefix_keeps pairs dev sofar ctx : keeps R (match_prefix pairs dev sofar ctx).
Proof.
  revert dev sofar ctx. induction pairs as [|[size sha1sum] pairs IH]; intros dev sofar ctx; cbn [match_prefix];
    unfold read_device, sys_read; keeps_branch. all: by apply read_data_keeps.
Qed.
Lemma contents_keep filename file flag : keeps R (LoadFileContents filename file flag).
Proof.
  unfold LoadFileContents. case_match eqn:Hp.
  - unfold LoadPartitionContents, close_device. pose proof open_partition_keeps. pose proof match_prefix_keeps. keeps_branch.
    all: by apply read_close_keeps.
  - unfold sys_stat, sys_read, mask_contents. keeps_branch.
Qed.
Lemma check_keeps fresh filename strs : keeps R (applypatch_check fresh filename strs).
Proof.
  unfold applypatch_check, check_cache. pose proof contents_keep. keeps_branch.
Qed.
Lemma process_keeps {T} (f : T → bytes → io D (bool * T)) fuel file oldOff e c :
  (∀ c data, keeps R (f c data)) → keeps R (mzProcessZipEntryContents f fuel file oldOff e c).
Proof.
  intros Hf. unfold mzProcessZipEntryContents, processStoredEntry, processDeflatedEntry. keeps_branch.
  - generalize (Z.to_nat (size_t (compLen e) / BUF_SIZE + 1)). generalize (lseek_set oldOff (offset e)) (size_t (compLen e)).
    intros off left k. revert off left c. induction k as [|k IH]; intros off left c; cbn [stored_loop];
      unfold fd_read; keeps_branch.
  - assert (∀ k left off input strm out total c, keeps R (inflate_loop f k file left off input strm out total c)) as Hloop.
    { induction k as [|k IH]; intros left off input strm out total c'; cbn [inflate_loop];
        unfold refill, fd_read; keeps_branch. }
    apply Hloop.
Qed.
Lemma buffer_keeps fuel file oldOff e buffer : keeps R (mzExtractZipEntryToBuffer fuel file oldOff e buffer).
Proof.
  unfold mzExtractZipEntryToBuffer. keeps_branch. apply process_keeps. intros [[buf pos] len] data.
  unfold bufferProcessFunction. keeps_branch.
Qed.
Lemma scan_mounts_keeps `{!Kernel} w : keeps R (scan_mounted_volumes w).
Proof. unfold scan_mounted_volumes. keeps_branch. Qed.
End calls.

(** * Expressions that only look *)

(** The functions that change neither files nor block devices, with the number of their arguments. *)
Definition only_looks (id : string) (argc : nat) : bool :=
  bool_decide (id ∈ ["IsMountedFn"; "GetPropFn"; "FileGetPropFn"; "ApplyPatchCheckFn"; "Sha1CheckFn"; "ReadFileFn";
                     "UIPrintFn"; "ShowProgressFn"; "SetProgressFn"; "WipeCacheFn"]%string ∨
               id = "PackageExtractFileFn"%string ∧ argc = 1%nat).
Fixpoint is_check (e : Expr) : bool :=
  match fn e with FnExt id => only_looks id (length (argv e)) | _ => true end && forallb is_check (argv e).

Section checks.
Context `{Abi} `{Bz2} `{Zlib} `{Sha} {D : Type} `{!Mtd D} `{!MtdReads D} `{!CacheSpace D} `{!Vfs D} `{!Kernel}
  `{P0 : !Platform D} `{!PlatformLaws P0}.
Context (R : Sys D → Prop) (HR : off_mtd R) (HRs : ∀ s b, R s → R (set_scanned b s)).
Notation UState := (@State (Updater (D := D))).
Notation arg := (@Arg (Updater (D := D))).
Implicit Types argv : list arg.

(** The assertion on the system, kept by a step of the interpreter. *)
Definition looks {A} (m : M UState A) : Prop := ∀ st a st', m st = Some (a, st') → R (u_sys (cookie st)) → R (u_sys (cookie st')).
Lemma looks_ret {A} (a : A) : looks (mret a).
Proof. by intros st b st' [= _ <-]. Qed.
Lemma looks_fault {A} : looks (A := A) fault.
Proof. done. Qed.
Lemma looks_get : looks get.
Proof. by intros st b st' [= _ <-]. Qed.
Lemma looks_of_option {A} (o : option A) : looks (of_option o).
Proof. intros st b st'. destruct o; [|done]. by intros [= _ <-]. Qed.
Lemma looks_bind {A B} (m : M UState A) (f : A → M UState B) : looks m → (∀ a, looks (f a)) → looks (m ≫= f).
Proof.
  intros Hm Hf st b st'. unfold mbind, M_bind. destruct (m st) as [[a s1]|] eqn:E; [|done]. intros E' Hs.
  eapply Hf; [done|]. by eapply Hm.
Qed.
Lemma looks_modify f : (∀ st, u_sys (cookie (f st)) = u_sys (cookie st)) → looks (modify f).
Proof. intros Hf st b st' [= _ <-]. by rewrite Hf. Qed.
Lemma looks_lift {A} (m : io D A) : keeps R m → looks (lift_io m).
Proof.
  intros Hm st a st'. unfold lift_io. intros E Hs. specialize (Hm _ (u_choices (cookie st)) Hs).
  destruct (m _ _) as [b s cs| | |]; try done. by injection E as _ <-.
Qed.
Lemma looks_mounts {A} (f : Mounts → io D (A * Mounts)) : (∀ w, keeps R (f w)) → looks (with_mounts f).
Proof.
  intros Hf. unfold with_mounts. apply looks_bind; [apply looks_get|]. intros st.
  apply looks_bind; [apply looks_lift, Hf|]. intros [a w]. apply looks_bind; [by apply looks_modify|]. intros _. apply looks_ret.
Qed.
Lemma looks_send text : looks (send text).
Proof. by apply looks_modify. Qed.

Lemma looks_string s : looks (return_string s).
Proof. apply looks_ret. Qed.
Lemma looks_argv_at {B} argv i (f : arg → M UState B) : Forall (λ a, looks (arg_eval a)) argv →
  (∀ a, looks (arg_eval a) → looks (f a)) → looks (argv_at argv i ≫= f).
Proof.
  intros Ha Hf st b st' E. unfold argv_at, mbind, M_bind, of_option in E. destruct (argv !! i) as [a|] eqn:Hi; [|done].
  eapply Hf; [|done]. by eapply (Forall_lookup_1 (λ a, looks (arg_eval a))).
Qed.
Lemma looks_abort {A} msg : looks (ErrorAbort (A := A) msg).
Proof. unfold ErrorAbort. apply looks_bind; [by apply looks_modify|]. intros _. apply looks_ret. Qed.

Ltac look :=
  repeat first
    [ apply looks_ret | apply looks_fault | apply looks_get | apply looks_of_option | apply looks_send
    | apply looks_string | apply looks_abort | apply looks_mounts; intros ?
    | apply looks_modify; reflexivity | apply looks_lift | apply keeps_lift | match goal with Hx : _ |- keeps _ _ => apply Hx end
    | match goal with Hx : _ |- looks _ => apply Hx; try done end
    | apply looks_argv_at; [assumption|intros ? ?]
    | apply looks_bind; [|intro]
    | lazymatch goal with |- looks (match ?x with _ => _ end) => branch x end ].

Lemma looks_Evaluate (a : arg) : looks (arg_eval a) → looks (Evaluate a).
Proof. intros Ha. unfold Evaluate, ErrorAbort. look. Qed.
Lemma looks_read_args {T} (eval : arg → M UState (option T)) : (∀ a, looks (arg_eval a) → looks (eval a)) →
  ∀ argv count, Forall (λ a, looks (arg_eval a)) argv → looks (read_args eval argv count).
Proof.
  intros He argv count Ha. revert count. induction Ha as [|a argv Ha _ IH]; intros [|count]; cbn [read_args]; look.
Qed.

Lemma looks_less argv : Forall (λ a, looks (arg_eval a)) argv → looks (LessThanIntFn argv).
Proof.
  intros Ha. pose proof (λ a c, looks_read_args Evaluate looks_Evaluate a c) as Hargs.
  unfold LessThanIntFn, ReadArgs. look.
Qed.
Lemma looks_greater argv : Forall (λ a, looks (arg_eval a)) argv → looks (GreaterThanIntFn argv).
Proof. intros Ha. unfold GreaterThanIntFn. look. Qed.
Lemma looks_assert argv : Forall (λ a, looks (arg_eval a)) argv → looks (AssertFn argv).
Proof. pose proof looks_Evaluate. unfold AssertFn. induction 1; cbn [assert_loop]; look. Qed.
Lemma looks_stdout argv : Forall (λ a, looks (arg_eval a)) argv → looks (StdoutFn argv).
Proof. pose proof looks_Evaluate. induction 1; cbn [StdoutFn]; look. Qed.
Lemma looks_builtin nm f argv : Forall (λ a, looks (arg_eval a)) argv → (∀ id, f ≠ FnExt id) →
  looks (call install_ext f nm argv).
Proof.
  intros Ha Hf. pose proof looks_Evaluate as HE.
  pose proof (λ a c, looks_read_args Evaluate looks_Evaluate a c) as Hargs.
  destruct f; cbn [call]; [..|by edestruct Hf];
    first [by apply looks_less | by apply looks_greater | by apply looks_assert | by apply looks_stdout | idtac].
  all: unfold Literal, ConcatFn, IfElseFn, AbortFn, SleepFn, LogicalAndFn, LogicalOrFn, LogicalNotFn,
    SubstringFn, EqualityFn, InequalityFn, SequenceFn, compare_strings.
  4: destruct Ha.
  all: look.
Qed.

Lemma looks_find path : looks (find_entry path).
Proof. unfold find_entry. look. Qed.
Lemma looks_memory za e : keeps R (extract_to_memory za e).
Proof.
  unfold extract_to_memory. pose proof (buffer_keeps R). keeps_branch.
Qed.
Lemma looks_getprop nm filename : keeps R (getprop_file nm filename).
Proof. unfold getprop_file, sys_stat, sys_read. keeps_branch. Qed.
Lemma looks_lines lines : looks (send_lines lines).
Proof. induction lines; cbn [send_lines]; look. Qed.
Lemma looks_installed id nm argv : Forall (λ a, looks (arg_eval a)) argv → only_looks id (length argv) = true →
  looks (install_ext id nm argv).
Proof.
  intros Ha Hid%bool_decide_eq_true. pose proof looks_Evaluate as HE.
  pose proof (λ a c, looks_read_args Evaluate looks_Evaluate a c) as Hargs.
  pose proof (λ a c, looks_read_args arg_eval (λ a H, H) a c) as Hvalues.
  pose proof looks_find. pose proof looks_memory. pose proof looks_getprop. pose proof looks_lines.
  pose proof (contents_keep R HR HRs). pose proof (check_keeps R HR HRs). pose proof (property_get_keeps R).
  destruct Hid as [Hid|[-> Hone]].
  - repeat (apply elem_of_cons in Hid as [->|Hid]); [..|by apply elem_of_nil in Hid].
    + change (looks (IsMountedFn nm argv)). unfold IsMountedFn, mounted_volume, expects, abort_with. look.
      apply scan_mounts_keeps.
    + change (looks (GetPropFn nm argv)). unfold GetPropFn, expects, abort_with. look.
    + change (looks (FileGetPropFn nm argv)). unfold FileGetPropFn, abort_with. look.
    + change (looks (ApplyPatchCheckFn nm argv)). unfold ApplyPatchCheckFn, abort_with, ReadVarArgs. look. by apply Forall_drop.
    + change (looks (Sha1CheckFn nm argv)). unfold Sha1CheckFn, abort_with. look.
    + change (looks (ReadFileFn nm argv)). unfold ReadFileFn, expects, abort_with. look.
    + change (looks (UIPrintFn nm argv)). unfold UIPrintFn, print_lines. look.
    + change (looks (ShowProgressFn nm argv)). unfold ShowProgressFn, expects, abort_with. look.
    + change (looks (SetProgressFn nm argv)). unfold SetProgressFn, expects, abort_with. look.
    + change (looks (WipeCacheFn nm argv)). unfold WipeCacheFn, expects, abort_with. look.
  - change (looks (PackageExtractFileFn nm argv)). unfold PackageExtractFileFn, expects, abort_with.
    rewrite (decide_False (P := length argv = 2%nat)) by lia. look.
Qed.
Lemma looks_expression e : is_check e = true → looks (EvaluateValue install_ext e).
Proof.
  induction e as [f nm args s e IH] using Expr_nested_ind. cbn [is_check EvaluateValue fn argv name].
  intros [Hf Hargs]%andb_true_iff.
  assert (Forall (λ a, looks (arg_eval a)) (map (λ a, mkArg (start a) (end_ a) (EvaluateValue install_ext a)) args)) as Ha.
  { clear Hf. induction IH as [|a args Ha _ IH]; [constructor|]. apply andb_true_iff in Hargs as [? ?]. constructor; auto. }
  destruct f; try (by apply looks_builtin). apply looks_installed; [done|]. by rewrite length_map.
Qed.
End checks.

(** * Guards *)
Section guards.
Context `{Abi} `{Bz2} `{Zlib} `{Sha} {D : Type} `{!Mtd D} `{!MtdReads D} `{!CacheSpace D} `{!Vfs D} `{!Kernel}
  `{P0 : !Platform D} `{!PlatformLaws P0}.
Notation UState := (@State (Updater (D := D))).
Implicit Types st : UState.

(** The files, the block devices and the directories are the same. *)
Definition untouched st st' : Prop :=
  let s := u_sys (cookie st) in let s' := u_sys (cookie st') in
  files s' = files s ∧ emmc s' = emmc s ∧ listing s' = listing s.
Lemma check_untouched e st st' r :
  is_check e = true → EvaluateValue install_ext e st = Some (r, st') → untouched st st'.
Proof.
  intros He E. set (s := u_sys (cookie st)).
  apply (looks_expression (λ s', files s' = files s ∧ emmc s' = emmc s ∧ listing s' = listing s)) with e st r; try done.
  - intros s' f. by destruct s'.
  - intros s' b. by destruct s'.
Qed.

(** C21: Looking changes nothing: an expression made of the operators and of the functions that ask for properties, load
    files and partitions, compute digests, check what could be patched, and show text, leaves all files, block devices
    and directories as they are, however calls fail. *)
Theorem checks_change_nothing e st st' r :
  is_check e = true → EvaluateValue install_ext e st = Some (r, st') → untouched st st'.
Proof. apply check_untouched. Qed.

(** What [print_lines] sends. *)
Definition printed (text : string) : string :=
  foldr (λ line rest, "ui_print " +:+ line +:+ newline_s +:+ rest) ("ui_print" +:+ newline_s) (lines_of text).
Lemma print_lines_pipe text st : ∃ st', print_lines text st = Some (tt, st') ∧
  u_sys (cookie st') = u_sys (cookie st) ∧ errmsg st' = errmsg st ∧ cmd_pipe (cookie st') = cmd_pipe (cookie st) +:+ printed text.
Proof.
  unfold print_lines, printed. generalize (lines_of text). intros lines. revert st.
  induction lines as [|line lines IH]; intros st; cbn [send_lines foldr].
  { eexists. split_and!; reflexivity. }
  destruct (IH (set_cookie (λ u, mkUpdater (u_sys u) (u_choices u) (u_mounts u) (u_flashes u)
    (cmd_pipe u +:+ ("ui_print " +:+ line +:+ newline_s)) (package_zip u)) st)) as (st' & E & Hs & Hm & Hp).
  exists st'. split_and!; [exact E|by rewrite Hs|by rewrite Hm|]. rewrite Hp. cbn.
  by rewrite !string_app_assoc.
Qed.

(** ** Sequences of statements *)

(** What the grammar builds for statements separated by [;], which associates to the left. *)
Definition left_nested (e : Expr) (es : list ((Z * Z) * Expr)) : Expr :=
  foldl (λ acc p, Build FnSequence p.1 [acc; p.2]) e es.
(** Statements that all give a value. *)
Fixpoint passes (es : list Expr) st st' : Prop :=
  match es with
  | [] => st' = st
  | e :: es => ∃ v st1, EvaluateValue install_ext e st = Some (Some v, st1) ∧ passes es st1 st'
  end.

Lemma sequence_eval l e f st : EvaluateValue install_ext (Build FnSequence l [e; f]) st =
  match EvaluateValue install_ext e st with
  | Some (Some _, st1) => EvaluateValue install_ext f st1
  | x => x
  end.
Proof.
  unfold Build. cbn [EvaluateValue fn argv map call]. unfold SequenceFn, argv_at.
  cbn [lookup list_lookup]. unfold mbind, M_bind. cbn [of_option arg_eval].
  by destruct (EvaluateValue install_ext e st) as [[[v|] st1]|].
Qed.
(** The value of the first statement is all that counts for the others. *)
Lemma nested_cong es : ∀ e f st st', EvaluateValue install_ext e st = EvaluateValue install_ext f st' →
  EvaluateValue install_ext (left_nested e es) st = EvaluateValue install_ext (left_nested f es) st'.
Proof.
  induction es as [|[l g] es IH]; intros e f st st' E; [done|]. apply IH. by rewrite !sequence_eval, E.
Qed.
Lemma nested_next l e f es st v st1 : EvaluateValue install_ext e st = Some (Some v, st1) →
  EvaluateValue install_ext (left_nested e ((l, f) :: es)) st = EvaluateValue install_ext (left_nested f es) st1.
Proof. intros E. apply (nested_cong es (Build FnSequence l [e; f])). by rewrite sequence_eval, E. Qed.
Lemma nested_stops es : ∀ e st st1, EvaluateValue install_ext e st = Some (None, st1) →
  EvaluateValue install_ext (left_nested e es) st = Some (None, st1).
Proof.
  induction es as [|[l g] es IH]; intros e st st1 E; [done|]. apply IH. by rewrite sequence_eval, E.
Qed.
(** Statements that pass lead to the next one. *)
Lemma nested_passes before : ∀ e es x rest st st0, e :: es.*2 = before ++ x :: rest → passes before st st0 →
  ∃ es', EvaluateValue install_ext (left_nested e es) st = EvaluateValue install_ext (left_nested x es') st0.
Proof.
  induction before as [|b before IH]; intros e es x rest st st0 E Hp.
  { injection E as -> _. rewrite Hp. eauto. }
  injection E as -> E. destruct Hp as (v & st1 & Ev & Hp).
  destruct es as [|[l f] es]; [by destruct before|]. rewrite (nested_next _ _ _ _ _ _ _ Ev). by eapply IH.
Qed.
Lemma passes_untouched before : ∀ st st0, Forall (λ e, is_check e = true) before → passes before st st0 → untouched st st0.
Proof.
  induction before as [|b before IH]; intros st st0 Hb Hp; [by rewrite Hp|].
  apply Forall_cons in Hb as [Hb Hbs]. destruct Hp as (v & st1 & Ev & Hp).
  destruct (check_untouched _ _ _ _ Hb Ev) as (E1 & E2 & E3), (IH _ _ Hbs Hp) as (E4 & E5 & E6).
  split_and!; congruence.
Qed.

(** An assertion of one expression that gives the empty string. *)
Lemma assert_fails guard st st1 nm loc :
  EvaluateValue install_ext guard st = Some (Some (StringValue ""), st1) →
  0 ≤ start guard → start guard ≤ end_ guard → end_ guard ≤ strlen (script st1) + 1 →
  EvaluateValue install_ext (mkExpr FnAssert nm [guard] loc.1 loc.2) st = Some (None, set_errmsg ("assert failed: " +:+
      String.substring (Z.to_nat (start guard)) (Z.to_nat (end_ guard - start guard)) (script st1)) st1).
Proof.
  intros E Hs He Hend. cbn [EvaluateValue fn argv map call]. unfold AssertFn. cbn [assert_loop].
  unfold mbind, M_bind, Evaluate, mbind, M_bind. cbn [arg_eval]. rewrite E. cbn [v_type StringValue].
  unfold source_text. cbn [arg_start arg_end].
  rewrite (decide_True (P := VAL_STRING = VAL_STRING)) by done. cbn [mret M_ret get v_data BooleanString].
  cbn [v_data StringValue BooleanString]. cbv beta. by rewrite decide_True by done.
Qed.

(** C10: Guards that fail stop an update before it has changed anything.  Let a script of any number of statements, nested to the left as
    the grammar builds them, have statements that only look and give a value, then the assertion of one expression that only looks
    and gives the empty string, then any others: the updater ends with status 7, the others are not evaluated, files,
    block devices and directories are as they were, and the recovery is sent the text of the assertion. *)
Theorem failed_guard_stops e es before guard rest st st0 st1 nm loc :
  e :: es.*2 = before ++ mkExpr FnAssert nm [guard] loc.1 loc.2 :: rest →
  Forall (λ b, is_check b = true) before → passes before st st0 →
  is_check guard = true → EvaluateValue install_ext guard st0 = Some (Some (StringValue ""), st1) →
  0 ≤ start guard → start guard ≤ end_ guard → end_ guard ≤ strlen (script st1) + 1 →
  ∃ st2, evaluate_script (left_nested e es) st = Some (7, st2) ∧ untouched st st2 ∧
    cmd_pipe (cookie st2) = cmd_pipe (cookie st1) +:+ printed ("assert failed: " +:+
      String.substring (Z.to_nat (start guard)) (Z.to_nat (end_ guard - start guard)) (script st1)).
Proof.
  intros Hes Hbefore Hp Hg E Hs He Hend. pose proof (check_untouched _ _ _ _ Hg E) as Hu.
  pose proof (passes_untouched _ _ _ Hbefore Hp) as Hu0.
  destruct (nested_passes _ _ _ _ _ _ _ Hes Hp) as [es' Hroot].
  rewrite (nested_stops _ _ _ _ (assert_fails guard st0 st1 nm loc E Hs He Hend)) in Hroot.
  set (msg := ("assert failed: " +:+ String.substring _ _ _)%string) in *.
  destruct (print_lines_pipe msg (set_errmsg msg st1)) as (st2 & E2 & Hs2 & Hm2 & Hp2).
  exists st2. split_and!; [|unfold untouched in *; rewrite Hs2; cbn [cookie set_errmsg]; destruct Hu as (? & ? & ?), Hu0 as (? & ? & ?); split_and!; congruence|done].
  unfold evaluate_script, as_arg, Evaluate, mbind, M_bind, mbind, M_bind. cbn [arg_eval]. rewrite Hroot.
  cbn [mret M_ret get]. cbn [errmsg set_errmsg]. by rewrite E2.
Qed.
End guards.

Module ChecksExample.
Import UpdaterExample.
#[local] Existing Instance abi64.
#[local] Instance example_reads : MtdReads (gset string).
Proof. split; [split|..]; intros; apply keeps_ret. Defined.
Definition guard_text : string := "assert(getprop(ro.product.device) == passion); delete(/system/build.prop)".
Definition guard_expr : Expr :=
  mkExpr FnEquality "(operator)" [calls "GetPropFn" "getprop" [literal "ro.product.device"]; literal "passion"] 7 44.
Definition deletes : Expr := calls "DeleteFn" "delete" [literal "/system/build.prop"].
Lemma checks_change_nothing_witness : ∃ st', untouched (D := gset string) (example_state guard_text) st'.
Proof.
  eexists. eapply (checks_change_nothing (D := gset string) guard_expr (example_state guard_text)); [by vm_compute|].
  vm_compute. reflexivity.
Defined.
Definition guarded : list ((Z * Z) * Expr) :=
  [((0, 45), mkExpr FnAssert "assert" [guard_expr] 0 45); ((0, 72), deletes); ((0, 72), deletes)].
Lemma failed_guard_stops_witness : ∃ st2,
  evaluate_script (left_nested guard_expr guarded) (example_state guard_text) = Some (7, st2) ∧
  untouched (D := gset string) (example_state guard_text) st2 ∧
  cmd_pipe (cookie st2) = "" +:+ printed "assert failed: getprop(ro.product.device) == passion".
Proof.
  apply (failed_guard_stops (D := gset string) guard_expr guarded [guard_expr] guard_expr [deletes; deletes]
    (example_state guard_text) (example_state guard_text) (example_state guard_text) "assert" (0, 45)).
  - reflexivity.
  - by repeat constructor.
  - eexists _, _. split; [by vm_compute|done].
  - by vm_compute.
  - by vm_compute.
  - by vm_compute.
  - by vm_compute.
  - by vm_compute.
Defined.
End ChecksExample.
