(* ===== verification/UpdaterScripts.v ===== *)
(** What update scripts do: the properties of a file, patches and files of the package, and the run of a script. *)
From S2P Require Import Prelude CLib Floats Edify Bytes Bz2 ZlibSha World Mtd Cache ApplyPatch Hash Zip ZipData DirUtil ZipExtract Volumes BootMessage MmcUtils FlashUtils Retouch Updater UpdaterTypes.

(** * Files of properties *)

(** The lines: blanks, a comment, and [key=value] with blanks around key and value. *)
Inductive PropLine :=
| PBlank (blanks : string)
| PComment (indent text : string)
| PProp (indent key before after value trail : string).
Definition print_line (l : PropLine) : string :=
  match l with
  | PBlank b => b
  | PComment indent text => indent +:+ String "#" text
  | PProp indent key before after value trail => indent +:+ key +:+ before +:+ String "=" (after +:+ value +:+ trail)
  end.
Definition print_props (ls : list PropLine) : string := foldr (λ l rest, print_line l +:+ String newline rest) "" ls.
(** The value of the first line with the key. *)
Fixpoint prop_value (ls : list PropLine) (key : string) : string :=
  match ls with
  | [] => ""
  | PProp _ k _ _ v _ :: ls => if decide (k = key) then v else prop_value ls key
  | _ :: ls => prop_value ls key
  end.

Definition blank_char (c : ascii) : bool := bool_decide (uchar c = 32 ∨ uchar c = 9).
Definition text_char (c : ascii) : bool := bool_decide (uchar c ≠ 10 ∧ uchar c ≠ 0).
Definition key_char (c : ascii) : bool := text_char c && bool_decide (c ≠ "="%char).
Definition blank_s (s : string) : Prop := sall blank_char s = true.
(** Nothing to trim at either end. *)
Definition trimmed (s : string) : Prop := skip_spaces s = s ∧ rtrim s = s.
Definition line_ok (l : PropLine) : Prop :=
  match l with
  | PBlank b => blank_s b
  | PComment indent text => blank_s indent ∧ sall text_char text = true
  | PProp indent key before after value trail =>
      blank_s indent ∧ blank_s before ∧ blank_s after ∧ blank_s trail ∧
      key ≠ "" ∧ String.prefix "#" key = false ∧ sall key_char key = true ∧ trimmed key ∧
      sall text_char value = true ∧ trimmed value
  end.
#[export] Instance line_ok_dec l : Decision (line_ok l).
Proof. destruct l; unfold line_ok, blank_s, trimmed; apply _. Defined.

Section props.
Lemma blank_space c : blank_char c = true → isspace c = true.
Proof. unfold blank_char, isspace. rewrite bool_decide_eq_true. intros [->| ->]; done. Qed.
Lemma skip_blank b s : blank_s b → skip_spaces (b +:+ s) = skip_spaces s.
Proof.
  unfold blank_s. induction b as [|c b IH]; [done|]. rewrite app_cons. cbn [sall skip_spaces].
  intros [Hc Hb]%andb_true_iff. by rewrite (blank_space c Hc), IH.
Qed.
Lemma rtrim_blank s b : blank_s b → rtrim (s +:+ b) = rtrim s.
Proof.
  intros Hb. induction s as [|c s IH]; [|rewrite app_cons; cbn [rtrim]; by rewrite IH].
  change (EmptyString +:+ b) with b. induction b as [|c b IH]; [done|]. unfold blank_s in Hb. cbn [sall rtrim] in *.
  apply andb_true_iff in Hb as [Hc Hb]. by rewrite IH, (blank_space c Hc).
Qed.
Lemma split_at_equal a b : sall (λ c, bool_decide (c ≠ "="%char)) a = true → split_equal (a +:+ String "=" b) = Some (a, b).
Proof.
  induction a as [|c a IH]; [done|]. rewrite app_cons. cbn [sall split_equal].
  intros [Hc%bool_decide_eq_true Ha]%andb_true_iff. by rewrite decide_False, IH by done.
Qed.
Lemma skip_trimmed s t : s ≠ "" → trimmed s → skip_spaces (s +:+ t) = s +:+ t.
Proof.
  intros Hne [Hs _]. destruct s as [|c s]; [done|]. rewrite app_cons. cbn [skip_spaces] in *. destruct (isspace c) eqn:Ec; [|done].
  exfalso. clear -Hs. assert (String.length (skip_spaces s) ≤ String.length s)%nat as Hl.
  { clear. induction s as [|d s IH]; [done|]. cbn [skip_spaces]. destruct (isspace d); cbn in *; lia. }
  rewrite Hs in Hl. cbn in Hl. lia.
Qed.
Lemma next_line l r : sall text_char l = true →
  next_token newlines (l +:+ String newline r) = match l with EmptyString => next_token newlines r | _ => (Some l, r) end.
Proof.
  intros Hl. destruct l as [|c l]; [done|]. apply next_token_word; [|done|done].
  eapply sall_impl; [|exact Hl]. intros d Hd%bool_decide_eq_true. apply negb_true_iff, not_true_iff_false.
  rewrite is_delim_spec. unfold newlines. rewrite list_elem_of_singleton. tauto.
Qed.
Lemma blank_text b : blank_s b → sall text_char b = true.
Proof. apply sall_impl. intros c. unfold blank_char, text_char. rewrite !bool_decide_eq_true. lia. Qed.
Lemma key_text k : sall key_char k = true → sall text_char k = true.
Proof. apply sall_impl. by intros c [? _]%andb_true_iff. Qed.
Lemma line_text l : line_ok l → sall text_char (print_line l) = true.
Proof.
  destruct l; cbn [line_ok print_line].
  - apply blank_text.
  - intros [Hi Ht]. rewrite sall_app. cbn [sall]. by rewrite (blank_text _ Hi), Ht.
  - intros (Hi & Hb & Ha & Ht & _ & _ & Hk & _ & Hv & _). rewrite !sall_app. cbn [sall]. rewrite !sall_app.
    by rewrite (blank_text _ Hi), (key_text _ Hk), (blank_text _ Hb), (blank_text _ Ha), Hv, (blank_text _ Ht).
Qed.

Definition next_prop (fuel : nat) (key rest : string) : run (string + string) :=
  match next_token newlines rest with (Some line, rest) => find_prop fuel key line rest | (None, _) => Done (inr "") end.
(** One line. *)
Lemma find_prop_line fuel key l rest : line_ok l → print_line l ≠ "" →
  find_prop (S fuel) key (print_line l) rest =
    match l with
    | PProp _ k _ _ v _ => if decide (k = key) then Done (inr v) else next_prop fuel key rest
    | _ => next_prop fuel key rest
    end.
Proof.
  intros Hl _. cbn [find_prop]. fold (next_prop fuel key rest).
  destruct l as [b|indent text|indent k before after v trail]; cbn [line_ok print_line] in *.
  - rewrite <- (string_app_nil_r b), skip_blank by done. done.
  - destruct Hl as [Hi _]. rewrite skip_blank by done. cbn [skip_spaces isspace]. done.
  - destruct Hl as (Hi & Hb & Ha & Ht & Hne & Hh & Hk & Htk & Hv & Htv). rewrite skip_blank, skip_trimmed by done.
    destruct k as [|c k]; [done|]. rewrite app_cons, decide_False by (intros ->; by destruct k).
    rewrite <- app_cons, app_assoc_s, split_at_equal.
    2: { rewrite sall_app. apply andb_true_iff. split.
         - eapply sall_impl; [|exact Hk]. by intros d [_ ?]%andb_true_iff.
         - eapply sall_impl; [|exact Hb]. intros d. unfold blank_char. rewrite !bool_decide_eq_true. intros Hd ->. by destruct Hd. }
    rewrite rtrim_blank by done. destruct Htk as [_ Hrk], Htv as [Hsv Hrv]. rewrite Hrk.
    destruct (decide (String c k = key)); [|by rewrite decide_True]. rewrite decide_False by auto.
    rewrite skip_blank by done. destruct v as [|d v].
    + change (EmptyString +:+ trail) with trail. rewrite <- (string_app_nil_r trail) at 1. by rewrite skip_blank.
    + rewrite skip_trimmed by done. by rewrite rtrim_blank, Hrv.
Qed.
Lemma next_prop_value ls key : Forall line_ok ls → ∀ fuel, (length ls < fuel)%nat →
  next_prop fuel key (print_props ls) = Done (inr (prop_value ls key)).
Proof.
  induction 1 as [|l ls Hl _ IH]; intros fuel Hf; [by destruct fuel|]. cbn [length] in Hf. unfold next_prop. cbn [print_props foldr].
  fold (print_props ls). rewrite next_line by by apply line_text.
  destruct (print_line l) as [|c s] eqn:E.
  - fold (next_prop fuel key (print_props ls)). rewrite IH by lia. destruct l; [done|destruct indent; discriminate E|].
    destruct indent; [|discriminate E]. destruct key0; [|discriminate E]. destruct Hl as (_ & _ & _ & _ & ? & _). done.
  - destruct fuel as [|fuel]; [lia|]. rewrite <- E, find_prop_line by (done || by rewrite E).
    destruct l; cbn [prop_value]; rewrite ?IH by lia; [done..|]. by case_decide.
Qed.
Lemma props_length ls : (length ls ≤ String.length (print_props ls))%nat.
Proof.
  induction ls as [|l ls IH]; [done|]. cbn [print_props foldr length]. fold (print_props ls).
  rewrite length_app_s. cbn [String.length]. lia.
Qed.
Lemma getprop_printed ls key : Forall line_ok ls → Exists (λ l, print_line l ≠ "") ls →
  getprop_text key (print_props ls) = Done (inr (prop_value ls key)).
Proof.
  intros Hls Hex. pose proof (props_length ls). unfold getprop_text.
  rewrite <- (next_prop_value ls key Hls (S (String.length (print_props ls)))) by lia. unfold next_prop.
  assert (∃ t r, next_token newlines (print_props ls) = (Some t, r)) as (t & r & ->); [|done].
  clear -Hls Hex. induction Hls as [|l ls Hl Hls IH]; [by apply Exists_nil in Hex|]. cbn [print_props foldr]. fold (print_props ls).
  rewrite next_line by by apply line_text. apply Exists_cons in Hex. destruct (print_line l) as [|c s] eqn:E; [|by eauto].
  destruct Hex as [?|Hex]; [done|auto].
Qed.
End props.

Section scripts.
Context `{Abi} `{Bz2} `{Z0 : Zlib} `{S0 : Sha} {D : Type} `{!Mtd D} `{!CacheSpace D} `{!Vfs D} `{!Kernel} `{P0 : !Platform D}.
Notation UState := (@State (Updater (D := D))).
Implicit Types st : UState.

Lemma bytes_until_nul s : no_nul s → until_nul (string_of_bytes (bytes_of_string s)) = s.
Proof.
  rewrite string_of_bytes_of_string. induction s as [|c s IH]; [done|]. rewrite no_nul_cons. intros [Hc Hs].
  cbn [until_nul]. by rewrite decide_False, IH.
Qed.
Lemma props_no_nul ls : Forall line_ok ls → no_nul (print_props ls).
Proof.
  induction 1 as [|l ls Hl _ IH]; [done|]. cbn [print_props foldr]. fold (print_props ls). apply no_nul_app.
  - eapply sall_impl; [|by apply line_text]. intros c. unfold text_char. rewrite !bool_decide_eq_true. lia.
  - by apply no_nul_cons.
Qed.

(** The call with literal arguments. *)
Definition getprop_call (filename key : string) : Expr :=
  mkExpr (FnExt "FileGetPropFn") "file_getprop" [LiteralExpr filename (0, 0); LiteralExpr key (0, 0)] 0 0.
Lemma getprop_call_eval filename key st :
  EvaluateValue install_ext (getprop_call filename key) st =
    (text ← lift_io (getprop_file "file_getprop" filename);
     match text with
     | inl msg => abort_with msg
     | inr text =>
         r ← lift_io (lift (getprop_text key text));
         match r with
         | inl line => abort_with ("file_getprop: malformed line " +:+ quote_s +:+ line +:+ quote_s +:+ ": " +:+ filename +:+
                                   " not a prop file?")
         | inr value => return_string value
         end
     end) st.
Proof. reflexivity. Qed.

(** What [getprop_file] can give for a file. *)
Lemma getprop_file_reads nm filename f (s : Sys D) cs text s' cs' :
  files s !! filename = Some f → getprop_file nm filename s cs = Ret (inr text) s' cs' →
  text = until_nul (string_of_bytes (f_data f)).
Proof.
  intros Hf E. unfold getprop_file, sys_stat, sys_read in E.
  unfold mbind, io_bind, choose, read_sys, mret, io_ret in E.
  destruct cs as [|c1 cs]; [done|]. rewrite Hf in E. destruct (decide (c1 = 0)); [done|]. cbv zeta in E.
  case_decide; [done|]. destruct cs as [|c2 cs]; [done|]. destruct (decide (c2 = 0)); [done|].
  destruct cs as [|c3 cs]; [done|]. rewrite Hf in E. destruct (decide (c3 = 0)); [done|].
  destruct cs as [|c4 cs]; [done|]. case_decide as Hz; [done|]. injection E as <- <- <-.
  rewrite take_ge; [done|]. unfold zlen in *. rewrite length_take in Hz. lia.
Qed.
Lemma getprop_file_good nm filename f c1 c2 c3 c4 (s : Sys D) cs :
  files s !! filename = Some f → zlen (f_data f) ≤ MAX_FILE_GETPROP_SIZE → c1 ≠ 0 → c2 ≠ 0 → c3 ≠ 0 → zlen (f_data f) ≤ c4 →
  getprop_file nm filename s (c1 :: c2 :: c3 :: c4 :: cs) = Ret (inr (until_nul (string_of_bytes (f_data f)))) s cs.
Proof.
  intros Hf Hz Hc1 Hc2 Hc3 Hc4. unfold getprop_file, sys_stat, sys_read.
  unfold mbind, io_bind, choose, read_sys, mret, io_ret. rewrite Hf, decide_False by done. cbv zeta.
  rewrite decide_False by lia. rewrite (decide_False (P := c2 = 0)), (decide_False (P := c3 = 0)), Hf by done.
  pose proof (zlen_nonneg (f_data f)). rewrite take_ge by (unfold zlen in *; lia). by rewrite decide_False by auto.
Qed.

(** C23: Round trip of a file of properties: for a file printed from comments, blank lines and lines [key=value] with any
    blanks around keys and values, [file_getprop] gives the value of the first line with the key, and the empty string when
    there is none, or it fails; when the calls succeed and the file has at most 65536 bytes it does not fail. *)
Theorem file_getprop_round_trip filename key ls f st :
  Forall line_ok ls → Exists (λ l, print_line l ≠ "") ls →
  files (u_sys (cookie st)) !! filename = Some f → f_data f = bytes_of_string (print_props ls) →
  (∀ r st', EvaluateValue install_ext (getprop_call filename key) st = Some (r, st') →
     r = None ∨ r = Some (StringValue (prop_value ls key))) ∧
  (∀ c1 c2 c3 c4 cs, u_choices (cookie st) = c1 :: c2 :: c3 :: c4 :: cs → c1 ≠ 0 → c2 ≠ 0 → c3 ≠ 0 →
     zlen (f_data f) ≤ c4 → zlen (f_data f) ≤ MAX_FILE_GETPROP_SIZE →
     ∃ st', EvaluateValue install_ext (getprop_call filename key) st = Some (Some (StringValue (prop_value ls key)), st')).
Proof.
  intros Hls Hex Hf Hd. pose proof (getprop_printed ls key Hls Hex) as Hp.
  pose proof (bytes_until_nul _ (props_no_nul ls Hls)) as Hn. rewrite <- Hd in Hn.
  setoid_rewrite getprop_call_eval. split.
  - intros r st' E. unfold mbind, M_bind in E. destruct (lift_io _ st) as [[[msg|text] st1]|] eqn:E1; [|..|done].
    + injection E as <- _. by left.
    + right. unfold lift_io in E1. destruct (getprop_file _ _ _ _) as [t s cs| | |] eqn:E2; try done.
      injection E1 as -> _. apply (getprop_file_reads _ _ f) in E2; [|done]. rewrite Hn in E2. subst text.
      unfold lift_io, lift in E. rewrite Hp in E. by injection E as <- _.
  - intros c1 c2 c3 c4 cs Hcs Hc1 Hc2 Hc3 Hc4 Hz. unfold mbind, M_bind.
    unfold lift_io at 1. rewrite Hcs, (getprop_file_good _ _ f) by done. rewrite Hn.
    unfold lift_io, lift. rewrite Hp. by eexists.
Qed.

(** * Files of the package *)
Context `{!InflateLaws Z0}.

(** The package has an entry of this name with these contents, and the bound on the loops is large enough for it. *)
Record in_package (za : ZipArchive) (path : string) (e : ZipEntry) (out : bytes) : Prop := {
  ip_found : ∃ i es, mzFindZipEntry heap_alloc za path = Done (Some (AnEntry i)) ∧ zip_pEntries za = Some es ∧ znth es i = Some e;
  ip_data : entry_data (package_file za) e out;
  ip_fuel : enough_fuel e out loop_fuel
}.
Lemma same_state st : set_cookie (λ u, mkUpdater (u_sys (cookie st)) (u_choices (cookie st)) (u_mounts u) (u_flashes u)
  (cmd_pipe u) (package_zip u)) st = st.
Proof. by destruct st as [[]]. Qed.
Lemma find_entry_found path e out st : in_package (package_zip (cookie st)) path e out →
  find_entry path st = Some (Some e, st).
Proof.
  intros [(i & es & Hf & He & Hi) _ _]. unfold find_entry, mbind, M_bind, get. unfold lift_io, lift. rewrite Hf.
  rewrite same_state. unfold of_option, mret, M_ret. rewrite He. cbn [mbind option_bind]. by rewrite Hi.
Qed.
Lemma fopen_w_file path (s : Sys D) cs r s' cs' : emmc s !! path = None → fopen_w path s cs = Ret r s' cs' →
  (r = None ∧ s' = s) ∨ (is_Some r ∧ ∃ f, f_data f = [] ∧ s' = set_files (insert path f) s).
Proof.
  intros He. unfold fopen_w, sys_fopen_w, open_with. unfold mbind, io_bind, read_sys, choose, update_sys, mret, io_ret.
  rewrite He, bool_decide_false by (by intros [? ?]). destruct cs as [|c cs]; [done|]. case_decide; intros [= <- <- <-]; [by left|].
  right. split; [by eexists|]. destruct (files s !! path) as [f|] eqn:Hf.
  - exists (mkFile [] (f_mode f) (f_uid f) (f_gid f)). split; [done|]. destruct s. cbn in *. f_equal. apply map_eq. intros q.
    destruct (decide (q = path)) as [->|]; [by rewrite lookup_partial_alter_eq, Hf, lookup_insert_eq|].
    by rewrite lookup_partial_alter_ne, lookup_insert_ne.
  - exists (mkFile [] 438 0 0). split; [done|]. destruct s. cbn in *. f_equal. apply map_eq. intros q.
    destruct (decide (q = path)) as [->|]; [by rewrite lookup_partial_alter_eq, Hf, lookup_insert_eq|].
    by rewrite lookup_partial_alter_ne, lookup_insert_ne.
Qed.
Lemma appended_new path f d (s : Sys D) : f_data f = [] →
  ∃ f', f_data f' = d ∧ appended path d (set_files (insert path f) s) = set_files (insert path f') s.
Proof.
  intros Hf. exists (mkFile d (f_mode f) (f_uid f) (f_gid f)). split; [done|]. unfold appended. destruct s. cbn. f_equal.
  by rewrite alter_insert_eq, Hf.
Qed.

Definition extract_call (path dest : string) : Expr :=
  mkExpr (FnExt "PackageExtractFileFn") "package_extract_file" [LiteralExpr path (0, 0); LiteralExpr dest (0, 0)] 0 0.
Lemma extract_call_eval path dest e out st : in_package (package_zip (cookie st)) path e out →
  EvaluateValue install_ext (extract_call path dest) st =
    (success ← lift_io (extract_to_file (package_zip (cookie st)) e dest);
     return_string (if (success : bool) then "t" else "")) st.
Proof.
  intros Hp. change (EvaluateValue install_ext (extract_call path dest) st) with
    ((entry ← find_entry path; st ← get;
      success ← (match entry with None => mret false | Some e => lift_io (extract_to_file (package_zip (cookie st)) e dest) end);
      return_string (if (success : bool) then "t" else "")) st).
  unfold mbind at 1, M_bind at 1. rewrite (find_entry_found _ _ _ _ Hp). reflexivity.
Qed.

(** C22: A file extracted from the package: when [package_extract_file] gives ["t"] the file holds exactly the contents the
    package has under the name, whatever was there before; whatever it gives, no other file, no block device and no directory has
    changed, and the file is as it was or holds a part of the contents. *)
Theorem package_extract_file_installs path dest e out st r st' :
  in_package (package_zip (cookie st)) path e out → emmc (u_sys (cookie st)) !! dest = None →
  EvaluateValue install_ext (extract_call path dest) st = Some (r, st') →
  let s := u_sys (cookie st) in let s' := u_sys (cookie st') in
  (r = Some (StringValue "t") ∧ ∃ f, f_data f = out ∧ s' = set_files (insert dest f) s) ∨
  (r = Some (StringValue "") ∧ (s' = s ∨ ∃ f, f_data f `prefix_of` out ∧ s' = set_files (insert dest f) s)).
Proof.
  intros Hp He. rewrite (extract_call_eval _ _ _ _ _ Hp). cbv zeta. unfold mbind, M_bind, lift_io.
  destruct (extract_to_file _ _ _ _ _) as [ok s' cs'| | |] eqn:E; try done. intros [= <- <-]. cbn [cookie set_cookie u_sys].
  unfold extract_to_file in E. apply io_bind_inv in E as (strm & s1 & cs1 & Ef & E).
  destruct (fopen_w_file _ _ _ _ _ _ He Ef) as [[-> ->]|[[h ->] (f & Hf & ->)]].
  { injection E as <- <- <-. right. auto. }
  apply io_bind_inv in E as (dev & s2 & cs2 & Ed & E). injection Ed as <- <- <-.
  assert (emmc (set_files (insert dest f) (u_sys (cookie st))) !! dest = None) as He' by (by destruct (u_sys (cookie st))).
  rewrite He' in E.
  pose proof (extract_to_path (λ _, True) True ltac:(by right) _ loop_fuel 0 e out dest
    (set_files (insert dest f) (u_sys (cookie st))) (ip_data _ _ _ _ Hp) (ip_fuel _ _ _ _ Hp) _ cs1 ltac:(by apply Forall_true) eq_refl) as Hx.
  rewrite E in Hx. destruct Hx as [_ Hx]. destruct ok.
  - left. split; [done|]. destruct (appended_new dest f out (u_sys (cookie st)) Hf) as (f' & Hf' & Ef').
    exists f'. by rewrite Hx, Ef'.
  - right. split; [done|]. right. destruct Hx as [_ (d & Hd & ->)].
    destruct (appended_new dest f d (u_sys (cookie st)) Hf) as (f' & Hf' & ->). exists f'. by rewrite Hf'.
Qed.

(** * Patches *)
Context `{!ShaLaws S0} `{!PlatformLaws P0}.

Lemma bytes_of_text d : is_bytes d → bytes_of_string (string_of_bytes d) = d.
Proof.
  unfold bytes_of_string, string_of_bytes. induction 1 as [|b d Hb _ IH]; [done|]. cbn. f_equal; [|exact IH].
  unfold uchar, in_u in *. rewrite nat_ascii_embedding; lia.
Qed.
(** Extraction to memory gives the contents, or the mark of a failure, and changes nothing. *)
Lemma extract_to_memory_gives za path e out (s : Sys D) cs v s' cs' :
  in_package za path e out → zlen out = uncompLen e → is_bytes out →
  extract_to_memory za e s cs = Ret v s' cs' →
  s' = s ∧ v_type v = VAL_BLOB ∧ (bytes_of_string (v_data v) = out ∨ v_data v = "").
Proof.
  intros Hp Hl Hb. unfold extract_to_memory. destruct (heap_alloc (uncompLen e)) eqn:Ha; cbn [negb].
  2: { intros [= <- <- _]. auto. }
  intros E. apply io_bind_inv in E as ([ok buf] & s1 & cs1 & Ee & E).
  pose proof (heap_block_size _ Ha) as Hblock.
  pose proof (mzExtractZipEntryToBuffer_ok (λ _, True) True ltac:(by right) (package_file za) loop_fuel 0 e out (heap_block (uncompLen e)) s
    (ip_data _ _ _ _ Hp) (ip_fuel _ _ _ _ Hp) Hl ltac:(rewrite Hblock, Hl; lia) _ cs ltac:(by apply Forall_true) eq_refl) as Hx.
  rewrite Ee in Hx. cbn [fst snd] in Hx. destruct Hx as (_ & -> & Hx). injection E as <- <- _. split; [done|]. destruct ok; [|auto].
  split; [done|]. left. cbn [v_data]. rewrite Hx, drop_ge, app_nil_r by (unfold zlen in *; lia). by apply bytes_of_text.
Qed.

Definition patch_call (source target tsha size ssha path : string) : Expr :=
  mkExpr (FnExt "ApplyPatchFn") "apply_patch"
    [LiteralExpr source (0, 0); LiteralExpr target (0, 0); LiteralExpr tsha (0, 0); LiteralExpr size (0, 0);
     LiteralExpr ssha (0, 0); mkExpr (FnExt "PackageExtractFileFn") "package_extract_file" [LiteralExpr path (0, 0)] 0 0] 0 0.
Lemma patch_call_eval source target tsha size ssha path e out n st :
  in_package (package_zip (cookie st)) path e out → byte_count size = Some n →
  EvaluateValue install_ext (patch_call source target tsha size ssha path) st =
    (v ← lift_io (extract_to_memory (package_zip (cookie st)) e);
     match split_patches "apply_patch" 0 [StringValue ssha; v] with
     | inl msg => abort_with msg
     | inr ps =>
         result ← lift_io (applypatch heap_filler heap_size loop_fuel source target tsha n ps.*1 ps.*2 None);
         return_string (if decide (result = 0) then "t" else "")
     end) st.
Proof.
  intros Hp Hn.
  assert (EvaluateValue install_ext (mkExpr (FnExt "PackageExtractFileFn") "package_extract_file" [LiteralExpr path (0, 0)] 0 0) st =
    (v ← lift_io (extract_to_memory (package_zip (cookie st)) e); mret (Some v)) st) as He.
  { change (EvaluateValue _ _ st) with
      ((entry ← find_entry path; st ← get;
        match entry with
        | None => mret (Some no_blob)
        | Some e => v ← lift_io (extract_to_memory (package_zip (cookie st)) e); mret (Some v)
        end) st).
    unfold mbind at 1, M_bind at 1. rewrite (find_entry_found _ _ _ _ Hp). reflexivity. }
  change (EvaluateValue install_ext (patch_call source target tsha size ssha path) st) with
    (ApplyPatchFn "apply_patch" [as_arg install_ext (LiteralExpr source (0, 0)); as_arg install_ext (LiteralExpr target (0, 0));
       as_arg install_ext (LiteralExpr tsha (0, 0)); as_arg install_ext (LiteralExpr size (0, 0));
       as_arg install_ext (LiteralExpr ssha (0, 0));
       mkArg 0 0 (EvaluateValue install_ext (mkExpr (FnExt "PackageExtractFileFn") "package_extract_file" [LiteralExpr path (0, 0)] 0 0))] st).
  revert He. generalize (EvaluateValue install_ext (mkExpr (FnExt "PackageExtractFileFn") "package_extract_file" [LiteralExpr path (0, 0)] 0 0)).
  intros pkg He. unfold ApplyPatchFn. cbn [length]. rewrite decide_False by (intros [?|[=]]; lia).
  match goal with |- context [ReadArgs ?l 4] => change (ReadArgs l 4) with (mret (M := M UState) (Some [source; target; tsha; size])) end.
  unfold mbind at 1, M_bind at 1. cbn [mret M_ret]. cbv beta iota. rewrite Hn.
  match goal with |- context [ReadValueVarArgs ?l] => change (ReadValueVarArgs l) with
    (vs ← (v ← pkg; match v with None => mret None | Some v => mret (Some [v]) end);
     mret (M := M UState) (cons (StringValue ssha) <$> vs)) end.
  unfold mbind, M_bind in *. rewrite He. by destruct (lift_io _ st) as [[v st1]|].
Qed.

(** C3: A patch in an update script: for a regular source file outside the expendable directories that loads as [d], a
    target that is a file, and a patch in the package that is not in the image format: when the call of [apply_patch] ends with a value,
    whatever system calls failed in it, the source file is untouched, or its contents are saved in the cache, or the target is in place with
    exactly the target digest; and the value is ["t"] only when the target file has the target digest.  An evaluation that is
    interrupted gives no value and is not covered here ([applypatch_outcome] covers the interruptions of the patching). *)
Theorem script_patch_loses_nothing source target0 tsha_str tsha size n ssha path e out f d st v st' :
  let target := if decide (target0 = "-"%string) then source else target0 in
  let s := u_sys (cookie st) in let s' := u_sys (cookie st') in
  is_partition source = false → is_partition target = false →
  source ≠ CACHE_TEMP_SOURCE → target ≠ CACHE_TEMP_SOURCE →
  (target +:+ ".patch")%string ≠ source → (target +:+ ".patch")%string ≠ CACHE_TEMP_SOURCE → ¬ expendable source →
  files s !! source = Some f → retouch_mask_data (f_data f) (Some 0) = Done (RETOUCH_DATA_MATCHED, d, 0) →
  ParseSha1 tsha_str = Some tsha → byte_count size = Some n →
  in_package (package_zip (cookie st)) path e out → zlen out = uncompLen e → is_bytes out →
  plain_patch (mkPatchValue true out) →
  EvaluateValue install_ext (patch_call source target0 tsha_str size ssha path) st = Some (v, st') →
  (v = Some (StringValue "t") → target_has target tsha s') ∧
  (at_source source f s' ∨ holds CACHE_TEMP_SOURCE d s' ∨ installed target tsha s').
Proof.
  intros target s s' Hps Hpt Hsc Htc Hos Hoc Hexp Hf Hd Hsha Hn Hp Hl Hb Hplain.
  rewrite (patch_call_eval _ _ _ _ _ _ _ _ _ _ Hp Hn). unfold mbind, M_bind.
  destruct (lift_io (extract_to_memory _ _) st) as [[w st1]|] eqn:E1; [|done].
  unfold lift_io in E1. destruct (extract_to_memory _ _ _ _) as [w' s1 cs1| | |] eqn:E2; try done.
  injection E1 as -> <-. destruct (extract_to_memory_gives _ _ _ _ _ _ _ _ _ Hp Hl Hb E2) as (-> & Hw & Hdata).
  cbn [split_patches StringValue v_type v_data]. rewrite Hw, decide_False by auto. rewrite decide_False by auto.
  unfold lift_io. cbn [cookie set_cookie u_sys u_choices].
  pose proof (applypatch_outcome heap_filler heap_size loop_fuel source target0 tsha_str tsha n [ssha] [patch_of w] None s cs1 f d
    Hps Hpt Hsc Htc Hos Hoc Hexp Hf Hd Hsha) as Hout.
  destruct (applypatch _ _ _ _ _ _ _ _ _ _ _ _) as [r s2 cs2| | |] eqn:E3; try done.
  assert (Forall plain_patch [patch_of w]) as Hpl.
  { constructor; [|constructor]. unfold patch_of, plain_patch. cbn [pv_data].
    destruct Hdata as [->| ->]; [exact Hplain|intros [Hz _]; vm_compute in Hz; congruence]. }
  specialize (Hout Hpl). destruct Hout as [Hr Hkept]. intros [= <- <-]. split; [|exact Hkept].
  cbn [cookie set_cookie u_sys] in *. intros E. apply Hr. by case_decide.
Qed.
End scripts.

Module ScriptsExample.
Import UpdaterExample.
#[local] Existing Instance abi64.
#[local] Existing Instance Volumes.Examples.one_mount.
Notation example_machine := (@State (Updater (D := gset string))).
Definition props : list PropLine := [PComment "" " props"; PProp "" "ro.x" " " " " "on" " "].
(** The end of an evaluation, and that it gave a string. *)
Definition run_of (e : Expr) (st : example_machine) : option (option Value * example_machine) :=
  EvaluateValue (install_ext (D := gset string)) e st.
Definition end_of (e : Expr) (st : example_machine) : example_machine :=
  match run_of e st with Some (_, st') => st' | None => st end.
Definition gives (r : option (option Value * example_machine)) (s : string) : bool :=
  match r with
  | Some (Some v, _) => bool_decide (v_type v = VAL_STRING ∧ v_size v = strlen s ∧ v_data v = s)
  | _ => false
  end.
Lemma gives_end e st s : gives (run_of e st) s = true → run_of e st = Some (Some (StringValue s), end_of e st).
Proof.
  unfold end_of. destruct (run_of e st) as [[[[t n x]|] st']|]; [|done..].
  intros (Ht & Hn & Hx)%bool_decide_eq_true. cbn in *. by subst.
Qed.

Lemma file_getprop_round_trip_witness : ∃ st',
  EvaluateValue (install_ext (D := gset string)) (getprop_call "/system/build.prop" "ro.x") (example_state "") =
    Some (Some (StringValue "on"), st').
Proof.
  apply (proj2 (file_getprop_round_trip (D := gset string) "/system/build.prop" "ro.x" props
    (mkFile (bytes_of_string (print_props props)) 420 0 0) (example_state "")
    ltac:(apply (bool_decide_unpack _); vm_compute; exact I) ltac:(by left) eq_refl eq_refl)
    1000 1000 1000 1000 (replicate 56 1000) eq_refl); by vm_compute.
Defined.

Lemma b_in_package : in_package (D := gset string) (package_zip (cookie (example_state ""))) "b"
  (mkZipEntry (bytes_of_string "b") 31 3 3 0 0 0 10 0) [1; 2; 3].
Proof. split; [exists 1; eexists; split_and!; by vm_compute|split; [done|]; left; by split|done]. Defined.
Lemma package_extract_file_installs_witness :
  (∃ f, f_data f = [1; 2; 3] ∧ u_sys (cookie (end_of (extract_call "b" "/tmp/b") (example_state ""))) =
     set_files (insert "/tmp/b"%string f) example_sys) ∨ Some (StringValue "t") = Some (StringValue "").
Proof.
  pose proof (gives_end (extract_call "b" "/tmp/b") (example_state "") "t" ltac:(vm_compute; reflexivity)) as E.
  unfold run_of in E.
  pose proof (package_extract_file_installs (D := gset string) "b" "/tmp/b" _ [1; 2; 3] (example_state "") (Some (StringValue "t"))
    (end_of (extract_call "b" "/tmp/b") (example_state "")) b_in_package eq_refl E) as Hx.
  destruct Hx as [[_ Hf]|[Hr _]]; [left; exact Hf|right; exact Hr].
Defined.

Definition patch_bytes : bytes := pv_data src_to_tgt.
Definition patch_file_bytes : bytes :=
  let l := local_part (bytes_of_string "p") patch_bytes STORED in
  l ++ central_part (bytes_of_string "p") STORED (zlen patch_bytes) (zlen patch_bytes) 0 0 ++ end_part 1 (zlen l).
Definition patch_map : MemMapping := mkMemMapping 4096 patch_file_bytes.
Definition patch_entry : ZipEntry :=
  mkZipEntry (bytes_of_string "p") 31 (zlen patch_bytes) (zlen patch_bytes) 0 0 0 10 0.
Definition source_sys : Sys (gset string) := set_files (insert "/system/a"%string (mkFile src_data 420 1 2)) example_sys.
Definition patch_state : State := mkState (example_updater (archive_of (H := abi64) patch_map) source_sys) "" None [].
Lemma p_in_package : in_package (D := gset string) (package_zip (cookie patch_state)) "p" patch_entry patch_bytes.
Proof.
  split; [exists 0; eexists; split_and!; by vm_compute|split; [by vm_compute|]; left; split; by vm_compute|by vm_compute].
Defined.
Definition the_patch : Expr := patch_call "/system/a" "-" tgt_sha1 "4" src_sha1 "p".
Lemma script_patch_loses_nothing_witness :
  target_has "/system/a" (SHA tgt_data) (u_sys (cookie (end_of the_patch patch_state))).
Proof.
  apply (script_patch_loses_nothing (D := gset string) "/system/a" "-" tgt_sha1 (SHA tgt_data) "4" 4 src_sha1 "p"
    patch_entry patch_bytes (mkFile src_data 420 1 2) src_data patch_state (Some (StringValue "t")) (end_of the_patch patch_state)).
  7: { intros [_ (dir & name & Hd & E)]. apply elem_of_cons in Hd as [->|Hd]; [done|].
       by apply list_elem_of_singleton in Hd as ->. }
  11: exact p_in_package.
  12: { apply (bool_decide_unpack _). by vm_compute. }
  12: { intros [_ Hm]. vm_compute in Hm. discriminate. }
  12: { apply (gives_end the_patch patch_state "t"). by vm_compute. }
  all: by vm_compute.
Defined.
End ScriptsExample.
